(* ===== verification/_CoqProject ===== *)
-Q . S2P
Prelude.v
Errors.v
Env.v
SysMmap.v
Toy.v
Registry.v
RegistryRcu.v
Signal.v
Probe.v
SafeMmap.v
Typing.v
PoisonRace.v
Threads.v
Shared.v
Prefetch.v
Open.v
Space.v
System.v
Lives.v
Whole.v
Fallback.v
FsDetect.v
Scope.v
Victim.v
Survival.v
Witnesses.v
