(* ===== verification/Prelude.v ===== *)
(** * mmap-shield: a verification library

    mmap-shield (a Rust crate, sources under src/src/) gives access to memory-mapped
    files that survives SIGBUS: a signal handler turns a page fault the kernel
    cannot serve into an error value. This library models the crate and states
    what each part promises.

    ** The program and its model

    From the bottom up, with the file that models each part:

    - [Prelude.v] (this file): results, the outcome monad [M S A] (a run ends
      with a value, or stops: panic, abort, death by signal, undefined
      behaviour, fuel used up), machine integers, page arithmetic, tactics, the
      hint database [shield].
    - [Errors.v], src/error.rs: [AccessError], [MmapError], their conversions
      and their messages.
    - [Env.v]: the world outside the crate, as classes. [VM], [FS], [ProcEnv],
      [Allocator], [Libc], [Sysconf], [Target] are what the definitions use;
      the classes ending in [Ok] or [Laws] are the documented behaviour some
      theorems assume of them. [Toy.v] is a small machine with an instance of
      every class.
    - [SysMmap.v], src/sys/page.rs, advice.rs, mmap.rs: [RawMmap], its builder
      and every system-call wrapper.
    - [Registry.v], src/signal/registry.rs: the list of regions the handler
      intercepts, as boxed snapshots in an explicit heap with two retired
      generations; [RegistryRcu.v]: the same operations with signal handlers
      that load and scan snapshots between their steps.
    - [Signal.v], src/signal/mod.rs, handler.rs, thread_state.rs and
      csrc/sigsetjmp_shim.c: the state [proc] of the process (dispositions, the
      pthread key, boxed thread states, the registry) and protected calls. A
      closure is a tree [prog] of byte accesses, panics and nested protected
      calls; a jump to a checkpoint is a value [Jumping]. [spec_exec] is the
      abstract specification of a protected call.
    - [Probe.v]: the page walk that [SafeMmap::probe] and prefetching share.
    - [SafeMmap.v], src/mmap/guard.rs and mod.rs: [ReadGuard] and every method
      of [SafeMmap], with its two atomics and its callback, and sequences of
      checked accesses; [Typing.v]: the addresses each operation may touch and
      what its result may say; [PoisonRace.v]: the methods on the two atomics by
      several threads at once, on the memory of relaxed atomics (each atomic a
      modification order, each thread a view of it).
    - [Threads.v]: the protected calls of [Signal.v] cut into the steps other
      threads can see, interleaved with each other and with the halves of the
      registry's mutations; the calls a closure makes are a stack. [Shared.v]: one [SafeMmap] used by any number of
      threads, each method a [plan] of visible steps over the atomics of
      [PoisonRace.v] and the calls of [Threads.v].
    - [Prefetch.v], src/mmap/prefetch.rs: the caller and the worker of
      [prefetch_with_deadline] as two threads over a mutex, a condition variable
      and a cancel flag, under any schedule of steps, timeouts and spurious
      wakeups.
    - [Open.v], src/mmap/mod.rs: [SafeMmapOptions], [open], [Drop]; [Space.v]:
      which pages the mappings of the process hold; [System.v]: any number of
      mappings over one registry, and the helpers of src/lib.rs;
      [Lives.v]: opens and drops of several threads, cut into their system
      calls and registrations and interleaved. [Whole.v]: the machines of
      [Lives.v] and [Threads.v] side by side over one process: opens, drops and
      protected reads of live mappings by any threads, every step interleaved.
    - [Fallback.v], src/fallback/mod.rs and src/sys/pread.rs: [PreadReader].
    - [FsDetect.v], src/sys/fs_detect.rs: [FsType::detect].
    - [Scope.v], src/bin/sigbus_victim.rs: the eight threads of its
      [multi_thread] scenario, whose reads interleave by the steps of
      [Threads.v]; [Victim.v]: [main] and the six scenarios of the test program,
      run over all of the above; [Survival.v]: how every one of
      them can end, by the rules of [ends] (this file).
    - [Witnesses.v]: each theorem with hypotheses, applied to a concrete run.

    A Rust method [Type::name] is the definition [Type_name]; a free function
    keeps its name. A definition runs in [M] over the state it can reach: the
    kernel state [K] for system calls, [proc K T] for the signal layer, [menv]
    (process, mapping, state of the user's callback) for methods of [SafeMmap].

    ** What the theorems show

    - The promise of the crate ([whole_recovers]): through any interleaving of
      opens, drops, reads, handlers and thread exits, from the start of a
      process, a read that returned is right, the handler intercepts exactly the
      mappings, no page is leaked or taken, and no SIGBUS in a live mapping ends
      the process, with the two exceptions that the crate leaves open: after a
      nested protected call has returned ([nested_call_disarms]), and in a
      handler that more than two changes of the registry have overtaken
      ([handler_use_after_free]). Nothing is excluded by fiat: such handlers and
      such closures step like all others, and the theorems on threads name
      them among the ways in which a step may end the process.
    - The syscall layer: which ranges each wrapper refuses, and that what it
      hands to the kernel is the smallest run of whole pages, without overflow
      ([advise_range_pages], [flush_pages], [mincore_pages], [map_handle]).
    - The registry refines a list of regions and never frees a reachable
      snapshot ([registry_refines_list], [mutation_preserves_wf],
      [unregister_removes]). A handler may overlap two mutations
      ([handler_grace_period]) but not three ([handler_use_after_free]); one
      full operation, not two, separates retirement from the free
      ([freed_after_one_operation]).
    - Threads together: protected calls that interleave step by step, nested to
      any depth, answer from their own accesses, never misjump, and end the
      process only by an answer of SIGSEGV, a panic, a SIGBUS nothing has to
      catch, or an overtaken handler ([concurrent_calls]); a call that nothing
      interferes with returns what the specification says after a bounded
      number of steps ([solo_call]). On a shared mapping every answer is the
      caller's own, no thread waits for another, and the counter ends at the
      number of [Sigbus] errors returned ([shared_mapping]; [plan_is_method] ties
      the plans it runs to the methods).
    - Protected calls implement [spec_exec] for every closure
      ([protected_call_refines]), never jump to a dead frame
      ([protected_call_no_ub]) and survive SIGBUS at registered addresses
      ([sigbus_is_recovered]); a nested call ends the protection of the outer
      one ([nested_call_disarms]). The boxed states of threads follow the
      threads' lives, without leak or reuse ([thread_states_are_own]).
    - Accesses of a mapping: every branch of [read], [write], [read_into],
      [probe] ([read_result], [copy_result], [probe_result]); which lost pages a
      probe finds ([probe_finds_lost_pages]); the round trip through memory; counting and poisoning over
      sequences ([faults_poison]) and under concurrency ([recorders_poison];
      [solo_counter] for one thread; [reset_race] and [stale_refusal] show what can go wrong);
      the addresses and the error values of a sequence of operations
      ([operations_are_typed]); what escapes poisoning ([guard_ignores_poison],
      [callback_panic_skips_poison]).
    - Prefetching always ends and ends with the right result
      ([prefetch_returns], [prefetch_return_is_final], [prefetch_method]), but
      its deadline does not bound it ([stalled_worker_blocks],
      [spurious_wakeup_drops_deadline]).
    - Opening refines a sequence of system calls that leaks no descriptor
      ([open_refines], [open_success], [open_errors]), dropping undoes it
      in order ([drop_undoes_open]), and over the life of a process the handler
      intercepts exactly the live mappings ([registry_is_live]), which are
      mapped and share no page, however opens and drops interleave
      ([concurrent_lives]; [open_alone] and [drop_alone] tie the steps to the
      whole calls).
    - The [pread] path terminates, gives the file's bytes and agrees with the
      mapped one ([pread_exact_returns], [pread_read_result], [paths_agree]).
    - The test program recovers where it is meant to, also when its eight
      threads fault at once ([sigbus_scenarios_recover]), and its NFS scenario survives whatever the
      server does ([nfs_failure_recovers]). With any arguments it ends with an
      exit code, never by SIGBUS, an abort or a wait without end, and panics
      exactly when it cannot set its own file up ([victim_survives]; its lines
      are assumed to be printed, and files to have at most [u32::MAX] pages).

    ** Bounds and fuel

    The targets are 64-bit. [+], [-] and [+=] are [uadd], [usub], [u32add],
    which panic or wrap according to the build profile (class [Profile]);
    theorems hold for both profiles unless they say otherwise. Two loops carry
    fuel: [probe_loop] with one more than the length of the range (an iteration
    advances by a page, at least one byte), [pread_loop] with one more than the
    length of the buffer (an iteration reads at least one byte); [probe_result]
    and [pread_exact_returns] show that it never runs out; [probe_steps] has the
    fuel of [probe_loop], and a plan that is [plan_ok] never stops. [Prefetch.v] has no
    fuel: [prefetch_returns] gives the number of turns that is enough (32 for
    the four pages of the test program). A thread of [Scope.v] takes at most 13
    steps; [scope_scheduled] asks that many of the schedule.

    ** What is not modelled

    - A byte copy is in ascending order; [memcpy] may choose another, which
      matters only for the bytes a faulting copy leaves behind.
    - Sequences of whole operations ([System.v]) run one after the other. In
      [Threads.v], [Shared.v], [Scope.v] and [Lives.v] steps interleave, but
      [open], drop and [reset_poison] are not steps of [Shared.v] (a shared
      reference excludes the drop of the mapping itself; other mappings' are the
      mutations), its callback only records, and a method is one step of
      [Lives.v]. [Once], [OnceLock] and the thread-specific key
      are one step each.
    - Relaxed atomics have modification orders and views, not load buffering (a
      load never sees what depends on it). The atomics of the registry and of
      the pthread key are release/acquire and sequentially consistent here.
    - The event callback of a mapping is assumed to return, except in
      [callback_panic_skips_poison]; [mmap] and [munmap] follow their
      documentation ([MapLaws]: without MAP_FIXED, whole free pages; the pages
      of the range and no others), where [munmap] may also fail.
    - The destructors that [siglongjmp] skips (a leak the crate documents), a
      failing [thread::spawn], running out of memory.
    - Benches, tests, the build script. *)

From stdpp Require Import prelude gmap.
From Stdlib Require Import ZArith Lia.

#[global] Open Scope Z_scope.

(** * Results *)

(** Rust's [Result<A, E>]. *)
Inductive result (A E : Type) : Type :=
  | Ok (a : A)
  | Err (e : E).
Arguments Ok {A E} a.
Arguments Err {A E} e.

#[global] Instance result_eq_dec {A E} `{!EqDecision A, !EqDecision E} :
  EqDecision (result A E).
Proof. solve_decision. Defined.

Definition is_ok {A E} (r : result A E) : bool :=
  match r with Ok _ => true | Err _ => false end.

(** * Runs of the program *)

(** The signals whose default action ends the process. *)
Inductive signal := SIGBUS | SIGSEGV.

#[global] Instance signal_eq_dec : EqDecision signal.
Proof. solve_decision. Defined.

(** Why a run can stop without returning a value:
    - [StopPanic]: a Rust panic that unwinds out of the function;
    - [StopAbort]: a panic that reached an [extern "C"] frame, which aborts;
    - [StopKilled]: the default action of a signal;
    - [StopUB]: an access the language gives no meaning (a freed box, a jump
      to a frame that is gone);
    - [StopDiverge]: a loop used up the fuel of its model. *)
Inductive stop_reason :=
  | StopPanic
  | StopAbort
  | StopKilled (s : signal)
  | StopUB
  | StopDiverge.

#[global] Instance stop_reason_eq_dec : EqDecision stop_reason.
Proof. solve_decision. Defined.

(** A run from a state of type [S] ends with a value and the new state, or it
    stops; the state it leaves is kept in both cases. *)
Inductive outcome (S A : Type) : Type :=
  | Done (a : A) (s : S)
  | Stop (why : stop_reason) (s : S).
Arguments Done {S A} a s.
Arguments Stop {S A} why s.

(** The monad every stateful function of the development is written in. *)
Definition M (S A : Type) : Type := S -> outcome S A.

#[global] Instance M_ret S : MRet (M S) := fun A a s => Done a s.
#[global] Instance M_bind S : MBind (M S) := fun A B f m s =>
  match m s with
  | Done a s' => f a s'
  | Stop why s' => Stop why s'
  end.

Definition get {S} : M S S := fun s => Done s s.
Definition gets {S A} (f : S -> A) : M S A := fun s => Done (f s) s.
Definition modify {S} (f : S -> S) : M S unit := fun s => Done tt (f s).
Definition stop {S A} (why : stop_reason) : M S A := fun s => Stop why s.
Definition panic {S A} : M S A := stop StopPanic.

(** A step of the outside world: it always answers, with a new state. *)
Definition call {S A} (f : S -> S * A) : M S A :=
  fun s => let '(s', a) := f s in Done a s'.

Lemma bind_eq {S A B} (m : M S A) (f : A -> M S B) (s : S) :
  (m ≫= f) s = match m s with Done a s' => f a s' | Stop w s' => Stop w s' end.
Proof. reflexivity. Qed.

Lemma bind_done {S A B} (m : M S A) (f : A -> M S B) (s : S) (b : B) (s' : S) :
  (m ≫= f) s = Done b s' <-> exists a s1, m s = Done a s1 /\ f a s1 = Done b s'.
Proof.
  rewrite bind_eq. split.
  - destruct (m s) as [a s1|]; [|done]. intros H. by exists a, s1.
  - by intros (a & s1 & -> & H).
Qed.

Lemma mret_eq {S A} (a : A) (s : S) : (mret a : M S A) s = Done a s.
Proof. reflexivity. Qed.

Lemma call_eq {S A} (f : S -> S * A) (s : S) : call f s = let '(s', a) := f s in Done a s'.
Proof. reflexivity. Qed.

(** [munfold] exposes the matches a monadic definition stands for. *)
Ltac munfold :=
  cbv [mbind M_bind mret M_ret get gets modify stop panic call] in *.

(** The [?] operator: a step that returns [Err] ends the function. *)
Definition try_bind {S A B E} (m : M S (result A E)) (f : A -> M S (result B E)) :
    M S (result B E) :=
  r ← m;
  match r with Ok a => f a | Err e => mret (Err e) end.

Notation "x ←? m ; k" := (try_bind m (fun x => k))
  (at level 20, m at level 100, k at level 200, only parsing) : stdpp_scope.

Lemma try_bind_eq {S A B E} (m : M S (result A E)) (f : A -> M S (result B E)) (s : S) :
  try_bind m f s = match m s with
                   | Done (Ok a) s' => f a s'
                   | Done (Err e) s' => Done (Err e) s'
                   | Stop w s' => Stop w s'
                   end.
Proof. unfold try_bind. rewrite bind_eq. by destruct (m s) as [[] |]. Qed.

Definition map_err {A E F} (f : E -> F) (r : result A E) : result A F :=
  match r with Ok a => Ok a | Err e => Err (f e) end.

(** The destructor [d] of a local value runs when a panic unwinds through its
    scope. *)
Definition on_unwind {S A} (d : M S unit) (m : M S A) : M S A := fun s =>
  match m s with
  | Stop StopPanic s' =>
      match d s' with
      | Done _ s'' => Stop StopPanic s''
      | Stop why s'' => Stop why s''
      end
  | o => o
  end.

(** A local value that only the success of [m] moves out of the function: an
    early return drops it too. *)
Definition unless_moved {S A E} (d : M S unit) (m : M S (result A E)) : M S (result A E) :=
  r ← on_unwind d m;
  match r with
  | Ok a => mret (Ok a)
  | Err e => _ ← d; mret (Err e)
  end.

(** A local value that is dropped at the end of its scope, however the scope
    is left. *)
Definition scoped {S A} (d : M S unit) (m : M S A) : M S A :=
  a ← on_unwind d m;
  _ ← d;
  mret a.

(** How a run may end: a value and a state as in [Q], or a reason as in [E]. *)
Definition ends {S A} (E : stop_reason -> Prop) (Q : A -> S -> Prop) (o : outcome S A) : Prop :=
  match o with Done a s => Q a s | Stop why _ => E why end.

Lemma ends_mono {S A} (E E' : stop_reason -> Prop) (Q Q' : A -> S -> Prop) o :
  ends E Q o -> (forall why, E why -> E' why) -> (forall a s, Q a s -> Q' a s) -> ends E' Q' o.
Proof. destruct o; cbn; auto. Qed.

Lemma ends_bind {S A B} E (R : A -> S -> Prop) (Q : B -> S -> Prop) (m : M S A) (f : A -> M S B) s :
  ends E R (m s) -> (forall a s', R a s' -> ends E Q (f a s')) -> ends E Q ((m ≫= f) s).
Proof. rewrite bind_eq. destruct (m s); cbn; auto. Qed.

(** A destructor that always returns. *)
Lemma ends_unwind {S A} E (Q : A -> S -> Prop) (d : M S unit) (m : M S A) s :
  (forall s, exists s', d s = Done tt s') -> ends E Q (m s) -> ends E Q (on_unwind d m s).
Proof.
  intros Hd. unfold on_unwind. destruct (m s) as [a s'|[] s']; cbn; try done.
  by destruct (Hd s') as [s'' ->].
Qed.

Lemma ends_scoped {S A} E (Q : A -> Prop) (d : M S unit) (m : M S A) s :
  (forall s, exists s', d s = Done tt s') ->
  ends E (fun a _ => Q a) (m s) -> ends E (fun a _ => Q a) (scoped d m s).
Proof.
  intros Hd Hm. eapply ends_bind; [by eapply ends_unwind|]. intros a s' Ha. rewrite bind_eq.
  by destruct (Hd s') as [s'' ->].
Qed.

(** Running a computation on a part of a larger state. *)
Record lens (S T : Type) := Lens {
  lget : S -> T;
  lset : T -> S -> S;
}.
Arguments Lens {S T}.
Arguments lget {S T}.
Arguments lset {S T}.

Definition zoom {S T A} (l : lens S T) (m : M T A) : M S A := fun s =>
  match m (lget l s) with
  | Done a t => Done a (lset l t s)
  | Stop why t => Stop why (lset l t s)
  end.

(** * Machine integers *)

(** The targets of the crate are 64-bit: [usize] and [u64] are the integers of
    [0, 2^64), [u32] those of [0, 2^32). *)
Definition usize_modulus : Z := 2 ^ 64.
Definition u32_modulus : Z := 2 ^ 32.
Definition usize_max : Z := usize_modulus - 1.
Definition u32_max : Z := u32_modulus - 1.
Definition isize_max : Z := 2 ^ 63 - 1.

Definition is_usize (x : Z) : Prop := 0 <= x < usize_modulus.
Definition is_u32 (x : Z) : Prop := 0 <= x < u32_modulus.

#[global] Instance is_usize_dec x : Decision (is_usize x).
Proof. unfold is_usize. apply _. Defined.

#[global] Instance is_u32_dec x : Decision (is_u32 x).
Proof. unfold is_u32. apply _. Defined.

(** Whether the crate was built with overflow checks (the [dev] profile) or
    without (the [release] profile): [+], [-] and [+=] on integers panic in the
    first and wrap in the second. *)
Class Profile := { overflow_checks : bool }.
Definition debug : Profile := {| overflow_checks := true |}.
Definition release : Profile := {| overflow_checks := false |}.

Section Arithmetic.
Context `{PR : Profile}.

Definition uadd {S} (a b : Z) : M S Z :=
  if overflow_checks && (usize_modulus <=? a + b) then panic
  else mret ((a + b) mod usize_modulus).

Definition usub {S} (a b : Z) : M S Z :=
  if overflow_checks && (a - b <? 0) then panic
  else mret ((a - b) mod usize_modulus).

Definition umul {S} (a b : Z) : M S Z :=
  if overflow_checks && (usize_modulus <=? a * b) then panic
  else mret ((a * b) mod usize_modulus).

(** [u32] addition. *)
Definition u32add {S} (a b : Z) : M S Z :=
  if overflow_checks && (u32_modulus <=? a + b) then panic
  else mret ((a + b) mod u32_modulus).
End Arithmetic.

(** [usize::checked_add]. *)
Definition checked_add (a b : Z) : option Z :=
  if a + b <? usize_modulus then Some (a + b) else None.

(** [x.is_none_or(p)]. *)
Definition is_none_or {A} (o : option A) (p : A -> bool) : bool :=
  match o with None => true | Some a => p a end.

(** The guard [offset.checked_add(len).is_none_or(|end| end > limit)] every
    ranged operation of the crate starts with. *)
Definition range_exceeds (offset len limit : Z) : bool :=
  is_none_or (checked_add offset len) (fun e => limit <? e).

(** [!x] on [usize]. *)
Definition unot (x : Z) : Z := Z.lxor x (Z.ones 64).

(** Rust's [a as u32] of a wider unsigned integer, and [a as i64]. *)
Definition as_u32 (x : Z) : Z := x mod u32_modulus.
Definition as_i64 (x : Z) : Z :=
  let y := x mod usize_modulus in if y <=? isize_max then y else y - usize_modulus.

Lemma uadd_ok `{PR : Profile} {S} a b (s : S) :
  0 <= a + b < usize_modulus -> uadd a b s = Done (a + b) s.
Proof.
  intros H. unfold uadd. destruct (Z.leb_spec usize_modulus (a + b)); [lia|].
  rewrite andb_false_r. munfold. by rewrite Z.mod_small.
Qed.

Lemma usub_ok `{PR : Profile} {S} a b (s : S) :
  0 <= a - b < usize_modulus -> usub a b s = Done (a - b) s.
Proof.
  intros H. unfold usub. destruct (Z.ltb_spec (a - b) 0); [lia|].
  rewrite andb_false_r. munfold. by rewrite Z.mod_small.
Qed.

Lemma umul_ok `{PR : Profile} {S} a b (s : S) :
  0 <= a * b < usize_modulus -> umul a b s = Done (a * b) s.
Proof.
  intros H. unfold umul. destruct (Z.leb_spec usize_modulus (a * b)); [lia|].
  rewrite andb_false_r. munfold. by rewrite Z.mod_small.
Qed.

Lemma u32add_ok `{PR : Profile} {S} a b (s : S) :
  0 <= a + b < u32_modulus -> u32add a b s = Done (a + b) s.
Proof.
  intros H. unfold u32add. destruct (Z.leb_spec u32_modulus (a + b)); [lia|].
  rewrite andb_false_r. munfold. by rewrite Z.mod_small.
Qed.

Lemma range_exceeds_spec offset len limit :
  is_usize limit ->
  range_exceeds offset len limit = (limit <? offset + len).
Proof.
  intros [Hl Hu]. unfold range_exceeds, is_none_or, checked_add.
  destruct (Z.ltb_spec (offset + len) usize_modulus); [done|].
  symmetry. apply Z.ltb_lt. lia.
Qed.

(** * Page arithmetic *)

Definition is_page_size (page : Z) : Prop := exists k, 0 <= k < 63 /\ page = 2 ^ k.

(** [x & !(page - 1)], the mask every ranged syscall wrapper uses. *)
Definition page_mask (page x : Z) : Z := Z.land x (unot (page - 1)).

Lemma is_page_size_pos page : is_page_size page -> 0 < page < usize_modulus.
Proof.
  intros (k & Hk & ->). split; [apply Z.pow_pos_nonneg; lia|].
  apply Z.pow_lt_mono_r; lia.
Qed.

Lemma page_mask_spec page x :
  is_page_size page -> is_usize x -> page_mask page x = x - x mod page.
Proof.
  intros (k & Hk & ->) [Hx0 Hx1]. unfold page_mask, unot.
  replace (2 ^ k - 1) with (Z.ones k) by (rewrite Z.ones_equiv; lia).
  transitivity (Z.ldiff x (Z.ones k)).
  - apply Z.bits_inj'. intros n Hn.
    rewrite Z.land_spec, Z.lxor_spec, Z.ldiff_spec, !Z.testbit_ones_nonneg by lia.
    destruct (Z.ltb_spec n 64) as [|Hge]; [by destruct (n <? k)|].
    rewrite (Z.bits_above_log2 x n); [done|lia|].
    destruct (decide (x = 0)) as [->|]; [cbn; lia|].
    apply Z.log2_lt_pow2; [lia|].
    apply Z.lt_le_trans with (2 ^ 64); [done|].
    apply Z.pow_le_mono_r; lia.
  - rewrite Z.ldiff_ones_r, Z.shiftl_mul_pow2, Z.shiftr_div_pow2 by lia.
    pose proof (Z.div_mod x (2 ^ k) ltac:(apply Z.pow_nonzero; lia)). lia.
Qed.

(** The first page boundary at or above [x]. *)
Definition page_up (page x : Z) : Z := (x + page - 1) / page * page.

Lemma page_mask_divides page x :
  is_page_size page -> is_usize x -> (page | page_mask page x).
Proof.
  intros Hp Hx. rewrite page_mask_spec by done.
  pose proof (is_page_size_pos _ Hp). exists (x / page).
  pose proof (Z.div_mod x page). lia.
Qed.

Lemma page_mask_bounds page x :
  is_page_size page -> is_usize x ->
  0 <= page_mask page x <= x /\ x < page_mask page x + page.
Proof.
  intros Hp Hx. rewrite page_mask_spec by done. destruct Hx.
  pose proof (is_page_size_pos _ Hp).
  pose proof (Z.mod_pos_bound x page). pose proof (Z.mod_le x page). lia.
Qed.

Lemma page_mask_up page x :
  is_page_size page -> 0 <= x -> x + page - 1 < usize_modulus ->
  page_mask page (x + page - 1) = page_up page x.
Proof.
  intros Hp Hx Hlt. pose proof (is_page_size_pos _ Hp).
  rewrite page_mask_spec by (done || (unfold is_usize; lia)).
  unfold page_up. pose proof (Z.div_mod (x + page - 1) page). lia.
Qed.

Lemma page_up_bounds page x :
  0 < page -> x <= page_up page x < x + page.
Proof.
  intros Hp. unfold page_up.
  pose proof (Z.div_mod (x + page - 1) page). pose proof (Z.mod_pos_bound (x + page - 1) page).
  lia.
Qed.

Lemma page_up_divides page x : (page | page_up page x).
Proof. by exists ((x + page - 1) / page). Qed.

Lemma page_up_least page x y :
  0 < page -> (page | y) -> x <= y -> page_up page x <= y.
Proof.
  intros Hp [q ->] Hle. unfold page_up.
  apply Z.mul_le_mono_nonneg_r; [lia|].
  assert ((x + page - 1) / page < q + 1); [|lia].
  apply Z.div_lt_upper_bound; lia.
Qed.

Lemma page_up_add page a x :
  0 < page -> (page | a) -> page_up page (a + x) = a + page_up page x.
Proof.
  intros Hp [q ->]. unfold page_up.
  replace (q * page + x + page - 1) with (x + page - 1 + q * page) by lia.
  rewrite Z.div_add by lia. lia.
Qed.

Lemma page_up_mono page x y : 0 < page -> x <= y -> page_up page x <= page_up page y.
Proof.
  intros Hp Hle. apply page_up_least; [done|apply page_up_divides|].
  pose proof (page_up_bounds page y Hp). lia.
Qed.

(** * Lists *)

Lemma filter_all {A} (P : A -> Prop) `{forall x, Decision (P x)} (l : list A) :
  (forall x, x ∈ l -> P x) -> filter P l = l.
Proof.
  induction l as [|x l IH]; intros Hl; [done|]. rewrite filter_cons, decide_True by set_solver.
  f_equal. apply IH. set_solver.
Qed.

(** * The hint database of the development *)

Create HintDb shield.
#[export] Hint Resolve page_up_divides page_mask_divides is_page_size_pos : shield.
