(* ===== verification/Errors.v ===== *)
(** The error values of the crate (src/src/error.rs): [AccessError] for accesses
    to a mapping, [MmapError] for its creation, the [#[from]] conversions, and
    the messages their [Display] implementations write. *)

From stdpp Require Import prelude strings pretty.
From Stdlib Require Import ZArith Lia.
From S2P Require Import Prelude.

(** * [std::io::Error], as far as the crate builds or forwards one *)

Inductive ErrorKind := InvalidInput | PermissionDenied | UnexpectedEof.

#[global] Instance ErrorKind_eq_dec : EqDecision ErrorKind.
Proof. solve_decision. Defined.

(** [OsError n] is [io::Error::last_os_error()] for the errno [n];
    [NewError k m] is [io::Error::new(k, m)]. *)
Inductive io_error :=
  | OsError (errno : Z)
  | NewError (kind : ErrorKind) (msg : string).

#[global] Instance io_error_eq_dec : EqDecision io_error.
Proof. solve_decision. Defined.

(** A [std::time::Duration], in nanoseconds. *)
Definition Duration := Z.

(** * The enums *)

Inductive AccessError :=
  | Sigbus (fault_address : Z)
  | OutOfBounds (offset len mapping_len : Z)
  | Poisoned (sigbus_count : Z)
  | Timeout (offset len : Z) (deadline : Duration)
  | Io (err : io_error).

#[global] Instance AccessError_eq_dec : EqDecision AccessError.
Proof. solve_decision. Defined.

Inductive MmapError :=
  | EmptyFile
  | OffsetBeyondFile (offset file_len : Z)
  | MmapIo (err : io_error).

#[global] Instance MmapError_eq_dec : EqDecision MmapError.
Proof. solve_decision. Defined.

(** The [#[from] io::Error] conversions the [?] operator applies. *)
Definition AccessError_from_io (e : io_error) : AccessError := Io e.
Definition MmapError_from_io (e : io_error) : MmapError := MmapIo e.

Definition is_sigbus (e : AccessError) : bool :=
  match e with Sigbus _ => true | _ => false end.

(** * Messages *)

Definition hex_digit (d : Z) : string :=
  match d with
  | 0 => "0" | 1 => "1" | 2 => "2" | 3 => "3" | 4 => "4" | 5 => "5" | 6 => "6"
  | 7 => "7" | 8 => "8" | 9 => "9" | 10 => "a" | 11 => "b" | 12 => "c"
  | 13 => "d" | 14 => "e" | _ => "f"
  end%string.

(** The digits of [x] in base 16; 16 of them are enough for a [usize]. *)
Fixpoint hex_digits (fuel : nat) (x : Z) (acc : string) : string :=
  match fuel with
  | O => acc
  | S fuel =>
      let acc := (hex_digit (x mod 16) +:+ acc)%string in
      if x <? 16 then acc else hex_digits fuel (x / 16) acc
  end.

(** The format [{x:#x}]. *)
Definition lower_hex (x : Z) : string := ("0x" +:+ hex_digits 16 x "")%string.

Section Display.
Context `{PR : Profile}.
(** [{:?}] of a [Duration] and [{}] of an [io::Error] are the standard
    library's. *)
Context (fmt_duration : Duration -> string) (fmt_io : io_error -> string).

(** [impl Display for AccessError]: the format strings of the [#[error]]
    attributes. [offset + len] is evaluated when the message is written. *)
Definition display_AccessError (e : AccessError) : M unit string :=
  match e with
  | Sigbus fault_address =>
      mret ("SIGBUS caught at address " +:+ lower_hex fault_address)%string
  | OutOfBounds offset len mapping_len =>
      e ← uadd offset len;
      mret ("access [" +:+ pretty offset +:+ ".." +:+ pretty e
            +:+ "] exceeds mapping length " +:+ pretty mapping_len)%string
  | Poisoned sigbus_count =>
      mret ("file poisoned after " +:+ pretty sigbus_count +:+ " SIGBUS faults")%string
  | Timeout offset len deadline =>
      e ← uadd offset len;
      mret ("prefetch [" +:+ pretty offset +:+ ".." +:+ pretty e
            +:+ "] timed out after " +:+ fmt_duration deadline)%string
  | Io err => mret ("I/O error: " +:+ fmt_io err)%string
  end.

(** [impl Display for MmapError]. *)
Definition display_MmapError (e : MmapError) : string :=
  match e with
  | EmptyFile => "cannot memory-map an empty file"
  | OffsetBeyondFile offset file_len =>
      "offset " +:+ pretty offset +:+ " is at or beyond file length " +:+ pretty file_len
  | MmapIo err => "mmap failed: " +:+ fmt_io err
  end%string.
End Display.

Example hex_ex : lower_hex 48879 = "0xbeef"%string.
Proof. reflexivity. Qed.
Example hex_zero : lower_hex 0 = "0x0"%string.
Proof. reflexivity. Qed.
Example hex_max : lower_hex usize_max = "0xffffffffffffffff"%string.
Proof. reflexivity. Qed.
