(* ===== verification/Env.v ===== *)
(** The world outside the crate: the constants of the libc crate, the system
    calls, the memory the processor sees, pthread keys and the allocator.

    None of this code is in the repository, so each interface is a class the
    components are written against. The classes whose name ends in [Laws] or
    [Ok] state the documented behaviour some theorems rely on. [Toy.v] has an
    instance of every class. *)

From stdpp Require Import prelude gmap strings.
From Stdlib Require Import ZArith Lia.
From S2P Require Import Prelude Errors.

(** A file system path, as bytes. *)
Definition Path := list Z.

(** A thread of the process. *)
Definition tid := Z.

(** * Constants *)

Class Libc := {
  PROT_READ : Z; PROT_WRITE : Z; PROT_NONE : Z;
  MAP_PRIVATE : Z; MAP_SHARED : Z; MAP_ANON : Z; MAP_POPULATE : Z; MAP_FIXED : Z; MAP_FAILED : Z;
  MADV_NORMAL : Z; MADV_SEQUENTIAL : Z; MADV_RANDOM : Z;
  MADV_WILLNEED : Z; MADV_DONTNEED : Z;
  MS_ASYNC : Z; MS_SYNC : Z;
  LOCK_SH : Z; LOCK_EX : Z; LOCK_NB : Z;
}.

(** [cfg(target_os = "linux")]; the other supported target is macOS. *)
Class Target := { target_linux : bool }.

(** Flags are bits of their own, and [MAP_FAILED] is [(void * )-1]. *)
Class LibcOk `{LC : Libc} := {
  map_anon_bit : exists i, 0 <= i /\ MAP_ANON = 2 ^ i /\
    Z.testbit MAP_PRIVATE i = false /\ Z.testbit MAP_SHARED i = false /\
    Z.testbit MAP_POPULATE i = false;
  map_populate_bit : exists i, 0 <= i /\ MAP_POPULATE = 2 ^ i /\
    Z.testbit MAP_PRIVATE i = false /\ Z.testbit MAP_SHARED i = false /\
    Z.testbit MAP_ANON i = false;
  map_fixed_bit : exists i, 0 <= i /\ MAP_FIXED = 2 ^ i /\
    Z.testbit MAP_PRIVATE i = false /\ Z.testbit MAP_SHARED i = false /\
    Z.testbit MAP_ANON i = false /\ Z.testbit MAP_POPULATE i = false;
  map_visibility : MAP_PRIVATE <> MAP_SHARED;
  madv_distinct :
    NoDup [MADV_NORMAL; MADV_SEQUENTIAL; MADV_RANDOM; MADV_WILLNEED; MADV_DONTNEED];
}.

(** * Memory and the calls on mappings *)

(** One access of one byte: it succeeds, the kernel cannot supply the page
    (SIGBUS, with [si_addr]), or the address is not mapped that way (SIGSEGV). *)
Inductive access (A : Type) :=
  | Access (a : A)
  | BusError (si_addr : Z)
  | SegFault.
Arguments Access {A} a.
Arguments BusError {A} si_addr.
Arguments SegFault {A}.

(** What [sysconf(_SC_PAGESIZE)] answers; it does not change while the process
    runs. *)
Class Sysconf := { sysconf_pagesize : Z }.

(** The page size is a power of two. *)
Class SysconfOk `{Sysconf} := { page_size_pow2 : is_page_size sysconf_pagesize }.

Class VM (K : Type) := {
  load : K -> Z -> K * access Z;
  store : K -> Z -> Z -> K * access unit;
  sys_mmap : K -> Z -> Z -> Z -> Z -> Z -> Z -> K * Z;
  sys_munmap : K -> Z -> Z -> K * Z;
  sys_madvise : K -> Z -> Z -> Z -> K * Z;
  sys_msync : K -> Z -> Z -> Z -> K * Z;
  (** The return code, and the byte the call leaves for each page. *)
  sys_mincore : K -> Z -> Z -> K * (Z * (nat -> Z));
  sys_mlock : K -> Z -> Z -> K * Z;
  sys_munlock : K -> Z -> Z -> K * Z;
  errno : K -> Z;
}.

(** [io::Error::last_os_error()]. *)
Definition last_os_error `{VM K} : M K io_error := gets (fun k => OsError (errno k)).

(** A byte is a byte. *)
Class ByteLaws (K : Type) `{VM K} := {
  load_byte : forall k a k' b, load k a = (k', Access b) -> 0 <= b < 256;
}.

(** What memory does where it is mapped and its pages can be supplied. *)
Class MemLaws (K : Type) `{VM K} := {
  mem_at : K -> Z -> option Z;
  can_store : K -> Z -> bool;
  load_ok : forall k a b, mem_at k a = Some b ->
    exists k', load k a = (k', Access b) /\
      (forall x, mem_at k' x = mem_at k x) /\ (forall x, can_store k' x = can_store k x);
  mem_byte : forall k a b, mem_at k a = Some b -> 0 <= b < 256;
  store_ok : forall k a b0 b, mem_at k a = Some b0 -> can_store k a = true -> 0 <= b < 256 ->
    exists k', store k a b = (k', Access tt) /\
      (forall x, mem_at k' x = if decide (x = a) then Some b else mem_at k x) /\
      (forall x, can_store k' x = can_store k x);
}.

(** [si_addr] of a SIGBUS is the address that was accessed. *)
Class FaultLaws (K : Type) `{VM K} := {
  load_fault : forall k a k' si_addr, load k a = (k', BusError si_addr) -> si_addr = a;
  store_fault : forall k a b k' si_addr, store k a b = (k', BusError si_addr) -> si_addr = a;
}.

(** * Files *)

(** The fields of [struct statfs] the crate reads: [f_type] on Linux, the bytes
    of [f_fstypename] on macOS. *)
Record statfs := Statfs { f_type : Z; f_fstypename : string }.

Class FS (K : Type) := {
  (** [OpenOptions::new().read(true).write(w).open(path)]: a descriptor. *)
  sys_open : K -> Path -> bool -> K * result Z io_error;
  sys_flock : K -> Z -> Z -> K * Z;
  (** [file.metadata()?.len()]. *)
  sys_fstat : K -> Z -> K * result Z io_error;
  sys_close : K -> Z -> K * unit;
  (** [pread(fd, buf, count, offset)]: the return value and the bytes it put at
      the start of [buf]. *)
  sys_pread : K -> Z -> Z -> Z -> K * (Z * list Z);
  sys_statfs : K -> Path -> K * (Z * statfs);
}.

(** The length of a file is a [u64]. *)
Class FSOk (K : Type) `{FS K} := {
  fstat_len : forall k fd k' n, sys_fstat k fd = (k', Ok n) -> is_usize n;
}.

(** [pread] reads from the file's bytes, at most as many as asked for, and none
    only at the end of the file. *)
Class FileLaws (K : Type) `{FS K} := {
  content : K -> Z -> list Z;
  pread_ok : forall k fd count off k' ret bs,
    sys_pread k fd count off = (k', (ret, bs)) -> 0 < count -> 0 <= off -> 0 <= ret ->
    ret <= count /\ bs = take (Z.to_nat ret) (drop (Z.to_nat off) (content k fd)) /\
    Z.of_nat (length bs) = ret /\
    (ret = 0 <-> Z.of_nat (length (content k fd)) <= off) /\ content k' = content k;
}.

(** The pages of the [len] bytes from the page boundary [p] on. *)
Definition in_pages `{Sysconf} (p len x : Z) : Prop := p <= x < p + page_up sysconf_pagesize len.

(** Which addresses of the process are mapped. [mmap] without [MAP_FIXED] maps
    whole pages that were free; [munmap] of a page boundary and a length that is
    not zero ends what is mapped on those pages, all of it if it succeeds, and
    nothing else; no other call of the crate maps or unmaps. *)
Class MapLaws (K : Type) `{VM K, FS K, Libc, Sysconf} := {
  mapped : K -> Z -> Prop;
  mmap_fresh : forall k a len prot flags fd off k' p,
    sys_mmap k a len prot flags fd off = (k', p) -> p <> MAP_FAILED ->
    Z.land flags MAP_FIXED = 0 -> 0 < len ->
    forall x, (in_pages p len x -> ~ mapped k x) /\ (mapped k' x <-> in_pages p len x \/ mapped k x);
  mmap_failed : forall k a len prot flags fd off k',
    sys_mmap k a len prot flags fd off = (k', MAP_FAILED) ->
    forall x, mapped k' x <-> mapped k x;
  munmap_pages : forall k p len k' r, sys_munmap k p len = (k', r) ->
    (sysconf_pagesize | p) -> 0 < len ->
    forall x,
      (~ in_pages p len x -> mapped k' x <-> mapped k x) /\
      (in_pages p len x -> mapped k' x -> mapped k x /\ r <> 0);
  load_mapped : forall k a k' r, load k a = (k', r) -> forall x, mapped k' x <-> mapped k x;
  store_mapped : forall k a b k' r, store k a b = (k', r) -> forall x, mapped k' x <-> mapped k x;
  open_mapped : forall k pa w k' r, sys_open k pa w = (k', r) -> forall x, mapped k' x <-> mapped k x;
  flock_mapped : forall k fd f k' r, sys_flock k fd f = (k', r) -> forall x, mapped k' x <-> mapped k x;
  fstat_mapped : forall k fd k' r, sys_fstat k fd = (k', r) -> forall x, mapped k' x <-> mapped k x;
  close_mapped : forall k fd k' r, sys_close k fd = (k', r) -> forall x, mapped k' x <-> mapped k x;
}.

(** * Thread-specific data and signal dispositions *)

Class ProcEnv (T : Type) := {
  sys_sigaction : T -> T * Z;
  pthread_key_create : T -> T * (Z * Z);
  pthread_getspecific : T -> tid -> Z -> Z;
  pthread_setspecific : T -> tid -> Z -> Z -> T;
}.

Class ProcEnvOk (T : Type) `{ProcEnv T} := {
  key_created : T -> Z -> Prop;
  sigaction_keys : forall e e' r, sys_sigaction e = (e', r) ->
    (forall k, key_created e' k <-> key_created e k) /\
    (forall t k, pthread_getspecific e' t k = pthread_getspecific e t k);
  (** A new key is null in every thread, and fits the [u32] it is stored in. *)
  key_create_ok : forall e e' k, pthread_key_create e = (e', (0, k)) ->
    key_created e' k /\ is_u32 k /\ (forall t, pthread_getspecific e' t k = 0);
  setspecific_created : forall e t k v k',
    key_created (pthread_setspecific e t k v) k' <-> key_created e k';
  getspecific_set_eq : forall e t k v, key_created e k ->
    pthread_getspecific (pthread_setspecific e t k v) t k = v;
  getspecific_set_ne : forall e t k v t' k', t <> t' \/ k <> k' ->
    pthread_getspecific (pthread_setspecific e t k v) t' k' = pthread_getspecific e t' k';
}.

(** * The allocator behind [Box] *)

Class Allocator := { alloc : gset Z -> Z }.

Class AllocatorOk `{Allocator} := {
  alloc_fresh : forall live, alloc live ∉ live;
  alloc_pos : forall live, 0 < alloc live;
}.

(** * What the test program asks for (src/src/bin/sigbus_victim.rs) *)

Class Shell (K : Type) := {
  sys_write_file : K -> Path -> list Z -> K * result unit io_error;    (* fs::write *)
  sys_remove_file : K -> Path -> K * result unit io_error;
  (** A line on standard error ([true]) or standard output; whether it was
      written. *)
  sys_print : K -> bool -> string -> K * bool;
  sys_sleep : K -> Duration -> K * unit;
}.

(** Both outputs accept lines. *)
Class ShellOk (K : Type) `{Shell K} := {
  print_ok : forall k e line, snd (sys_print k e line) = true;
}.

(** An address the kernel cannot supply, like those past the last page of a
    file: an access raises SIGBUS there, and accesses leave it so. *)
Class BeyondLaws (K : Type) `{VM K} := {
  beyond : K -> Z -> Prop;
  load_beyond : forall k a, beyond k a ->
    exists k', load k a = (k', BusError a) /\ forall x, beyond k x -> beyond k' x;
}.

(** Whatever is loaded, such an address stays one. *)
Class BeyondStays (K : Type) `{BeyondLaws K} := {
  load_stays : forall k a k' r x, load k a = (k', r) -> beyond k x -> beyond k' x;
}.
