(* ===== verification/SysMmap.v ===== *)
(** The syscall layer: src/src/sys/page.rs, src/src/sys/advice.rs and
    src/src/sys/mmap.rs. [RawMmap] is the owning handle on a mapped region,
    [MmapOptions] its builder; every operation runs in [M K], where [K] is the
    state of the kernel interface of [Env.v]. *)

From stdpp Require Import prelude gmap strings pretty.
From Stdlib Require Import ZArith Lia.
From S2P Require Import Prelude Errors Env.

(** * sys::page *)

Definition page_size `{Sysconf} {S} : M S Z :=
  if 0 <? sysconf_pagesize then mret sysconf_pagesize else panic.

(** * sys::advice *)

Inductive Advice := Normal | Sequential | Random | WillNeed | DontNeed.

#[global] Instance Advice_eq_dec : EqDecision Advice.
Proof. solve_decision. Defined.

Definition Advice_as_libc `{Libc} (a : Advice) : Z :=
  match a with
  | Normal => MADV_NORMAL
  | Sequential => MADV_SEQUENTIAL
  | Random => MADV_RANDOM
  | WillNeed => MADV_WILLNEED
  | DontNeed => MADV_DONTNEED
  end.

(** * sys::mmap: flags *)

Inductive Protection := ProtRead | ProtReadWrite | ProtNone.

#[global] Instance Protection_eq_dec : EqDecision Protection.
Proof. solve_decision. Defined.

Definition Protection_as_libc `{Libc} (p : Protection) : Z :=
  match p with
  | ProtRead => PROT_READ
  | ProtReadWrite => Z.lor PROT_READ PROT_WRITE
  | ProtNone => PROT_NONE
  end.

Definition Protection_is_writable (p : Protection) : bool :=
  match p with ProtReadWrite => true | _ => false end.

Inductive Visibility := Private | Shared.

#[global] Instance Visibility_eq_dec : EqDecision Visibility.
Proof. solve_decision. Defined.

Definition Visibility_as_libc `{Libc} (v : Visibility) : Z :=
  match v with Private => MAP_PRIVATE | Shared => MAP_SHARED end.

(** * sys::mmap: the handle and its builder *)

Record RawMmap := {
  raw_ptr : Z;
  raw_len : Z;
  raw_writable : bool;
}.

#[global] Instance RawMmap_eq_dec : EqDecision RawMmap.
Proof. solve_decision. Defined.

Record MmapOptions := {
  mo_len : Z;
  mo_fd : option Z;
  mo_offset : Z;
  mo_protection : Protection;
  mo_visibility : Visibility;
  mo_populate : bool;
}.

Definition MmapOptions_new (len : Z) : MmapOptions := {|
  mo_len := len;
  mo_fd := None;
  mo_offset := 0;
  mo_protection := ProtRead;
  mo_visibility := Private;
  mo_populate := false;
|}.

Definition MmapOptions_fd (fd : Z) (o : MmapOptions) : MmapOptions :=
  {| mo_len := mo_len o; mo_fd := Some fd; mo_offset := mo_offset o;
     mo_protection := mo_protection o; mo_visibility := mo_visibility o;
     mo_populate := mo_populate o |}.

Definition MmapOptions_offset (offset : Z) (o : MmapOptions) : MmapOptions :=
  {| mo_len := mo_len o; mo_fd := mo_fd o; mo_offset := offset;
     mo_protection := mo_protection o; mo_visibility := mo_visibility o;
     mo_populate := mo_populate o |}.

Definition MmapOptions_protection (p : Protection) (o : MmapOptions) : MmapOptions :=
  {| mo_len := mo_len o; mo_fd := mo_fd o; mo_offset := mo_offset o;
     mo_protection := p; mo_visibility := mo_visibility o;
     mo_populate := mo_populate o |}.

Definition MmapOptions_visibility (v : Visibility) (o : MmapOptions) : MmapOptions :=
  {| mo_len := mo_len o; mo_fd := mo_fd o; mo_offset := mo_offset o;
     mo_protection := mo_protection o; mo_visibility := v;
     mo_populate := mo_populate o |}.

Definition MmapOptions_populate (o : MmapOptions) : MmapOptions :=
  {| mo_len := mo_len o; mo_fd := mo_fd o; mo_offset := mo_offset o;
     mo_protection := mo_protection o; mo_visibility := mo_visibility o;
     mo_populate := true |}.

Section Handle.
Context `{PR : Profile} `{TG : Target} `{LC : Libc} `{SC : Sysconf} {K : Type} `{VMK : !VM K}.
Implicit Types self : RawMmap.

(** The message of an unaligned offset. *)
Definition unaligned_message (offset page : Z) : string :=
  ("offset " +:+ pretty offset +:+ " is not page-aligned (page size: "
   +:+ pretty page +:+ ")")%string.

(** [flags], built up as the code builds it. *)
Definition mmap_flags (o : MmapOptions) : Z :=
  let flags := Visibility_as_libc (mo_visibility o) in
  let flags := match mo_fd o with Some _ => flags | None => Z.lor flags MAP_ANON end in
  if target_linux && mo_populate o then Z.lor flags MAP_POPULATE else flags.

Definition MmapOptions_map (o : MmapOptions) : M K (result RawMmap io_error) :=
  if mo_len o =? 0 then
    mret (Err (NewError InvalidInput "length must be non-zero"))
  else
    page ← page_size;
    if negb (mo_offset o mod page =? 0) then
      mret (Err (NewError InvalidInput (unaligned_message (mo_offset o) page)))
    else
      let fd := default (-1) (mo_fd o) in
      let prot := Protection_as_libc (mo_protection o) in
      p ← call (fun k => sys_mmap k 0 (mo_len o) prot (mmap_flags o) fd (as_i64 (mo_offset o)));
      if p =? MAP_FAILED then
        e ← last_os_error; mret (Err e)
      else
        mret (Ok {| raw_ptr := p; raw_len := mo_len o;
                    raw_writable := Protection_is_writable (mo_protection o) |}).

Definition RawMmap_map (fd offset len : Z) : M K (result RawMmap io_error) :=
  MmapOptions_map (MmapOptions_offset offset (MmapOptions_fd fd (MmapOptions_new len))).

Definition RawMmap_anonymous (len : Z) (p : Protection) : M K (result RawMmap io_error) :=
  MmapOptions_map (MmapOptions_protection p (MmapOptions_new len)).

Definition RawMmap_as_ptr self : Z := raw_ptr self.

Definition RawMmap_as_mut_ptr self : option Z :=
  if raw_writable self then Some (raw_ptr self) else None.

Definition RawMmap_len self : Z := raw_len self.
Definition RawMmap_is_empty self : bool := raw_len self =? 0.
Definition RawMmap_is_writable self : bool := raw_writable self.

Definition RawMmap_contains_addr self (addr : Z) : M K bool :=
  let start := raw_ptr self in
  e ← uadd start (raw_len self);
  mret ((start <=? addr) && (addr <? e)).

(** [aligned_offset] and [aligned_len], as [advise_range] and [flush]
    compute them. *)
Definition aligned_range (offset len : Z) : M K (Z * Z) :=
  page ← page_size;
  let aligned_offset := page_mask page offset in
  d ← usub offset aligned_offset;
  n ← uadd len d;
  n ← uadd n page;
  n ← usub n 1;
  mret (aligned_offset, page_mask page n).

(** [if ret != 0 { return Err(io::Error::last_os_error()); } Ok(())] *)
Definition check_ret (ret : Z) : M K (result unit io_error) :=
  if negb (ret =? 0) then e ← last_os_error; mret (Err e) else mret (Ok tt).

Definition RawMmap_advise_range self (advice : Advice) (offset len : Z) :
    M K (result unit io_error) :=
  if range_exceeds offset len (raw_len self) then
    mret (Err (NewError InvalidInput "advise range exceeds mapping length"))
  else
    r ← aligned_range offset len;
    ret ← call (fun k => sys_madvise k (raw_ptr self + r.1) r.2 (Advice_as_libc advice));
    check_ret ret.

Definition RawMmap_advise self (advice : Advice) : M K (result unit io_error) :=
  RawMmap_advise_range self advice 0 (raw_len self).

Definition RawMmap_flush self (offset len : Z) (async_flush : bool) :
    M K (result unit io_error) :=
  if range_exceeds offset len (raw_len self) then
    mret (Err (NewError InvalidInput "flush range exceeds mapping length"))
  else
    r ← aligned_range offset len;
    let flags := if async_flush then MS_ASYNC else MS_SYNC in
    ret ← call (fun k => sys_msync k (raw_ptr self + r.1) r.2 flags);
    check_ret ret.

Definition RawMmap_mincore self (offset len : Z) : M K (result (list bool) io_error) :=
  if range_exceeds offset len (raw_len self) then
    mret (Err (NewError InvalidInput "mincore range exceeds mapping length"))
  else
    page ← page_size;
    let aligned_offset := page_mask page offset in
    n ← uadd offset len;
    n ← uadd n page;
    n ← usub n 1;
    let aligned_end := page_mask page n in
    aligned_len ← usub aligned_end aligned_offset;
    let num_pages := aligned_len / page in
    r ← call (fun k => sys_mincore k (raw_ptr self + aligned_offset) aligned_len);
    if negb (r.1 =? 0) then
      e ← last_os_error; mret (Err e)
    else
      let vec := r.2 <$> seq 0 (Z.to_nat num_pages) in
      mret (Ok ((fun b => negb (Z.land b 1 =? 0)) <$> vec)).

Definition RawMmap_lock self : M K (result unit io_error) :=
  ret ← call (fun k => sys_mlock k (raw_ptr self) (raw_len self));
  check_ret ret.

Definition RawMmap_unlock self : M K (result unit io_error) :=
  ret ← call (fun k => sys_munlock k (raw_ptr self) (raw_len self));
  check_ret ret.

(** [impl Drop for RawMmap]; the return value of [munmap] is ignored. *)
Definition RawMmap_drop self : M K unit :=
  _ ← call (fun k => sys_munmap k (raw_ptr self) (raw_len self));
  mret tt.
End Handle.

(** * Well-formed handles *)

(** What a successful [mmap] gives: a page-aligned start, and whole pages below
    the top of the user address space. *)
Definition RawMmap_wf `{Sysconf} (self : RawMmap) : Prop :=
  (sysconf_pagesize | raw_ptr self) /\ 0 < raw_ptr self /\ 0 < raw_len self /\
  raw_ptr self + page_up sysconf_pagesize (raw_len self) <= isize_max.

Class MmapOk (K : Type) `{VM K, Libc, Sysconf} := {
  mmap_ok : forall k len prot flags fd off k' p,
    sys_mmap k 0 len prot flags fd off = (k', p) -> p <> MAP_FAILED -> 0 < len ->
    (sysconf_pagesize | p) /\ 0 < p /\ p + page_up sysconf_pagesize len <= isize_max;
}.

Section Proofs.
Context `{PR : Profile} `{TG : Target} `{LC : Libc} `{SC : Sysconf} {K : Type} `{VMK : !VM K}.
Context `{SCok : !SysconfOk}.
Implicit Types self : RawMmap.

#[local] Abbreviation page := sysconf_pagesize.

Lemma page_pos : 0 < page < usize_modulus.
Proof. apply is_page_size_pos, page_size_pow2. Qed.

Lemma page_small : page <= 2 ^ 62.
Proof.
  destruct page_size_pow2 as (n & Hn & ->). apply Z.pow_le_mono_r; lia.
Qed.

Lemma page_size_ok {S} (s : S) : page_size s = Done page s.
Proof.
  unfold page_size. pose proof page_pos. destruct (Z.ltb_spec 0 page); [done|lia].
Qed.

Lemma RawMmap_wf_len self : RawMmap_wf self -> 0 < raw_len self <= isize_max.
Proof.
  intros (_ & Hp & Hl & Hu). pose proof (page_up_bounds page (raw_len self)).
  pose proof page_pos. lia.
Qed.

Lemma RawMmap_wf_usize self : RawMmap_wf self -> is_usize (raw_len self).
Proof.
  intros H%RawMmap_wf_len. unfold is_usize, usize_modulus, isize_max in *. lia.
Qed.

(** The pages a wrapper hands to the kernel. *)
Lemma aligned_range_ok offset len limit (k : K) :
  0 <= offset -> 0 <= len -> offset + len <= limit -> limit <= isize_max ->
  aligned_range offset len k =
    Done (page_mask page offset,
          page_up page (offset + len) - page_mask page offset) k.
Proof.
  intros Ho Hl Hlim Hmax.
  pose proof page_pos. pose proof page_small.
  assert (Hou : is_usize offset) by (unfold is_usize, usize_modulus, isize_max in *; lia).
  pose proof (page_mask_bounds page offset page_size_pow2 Hou) as [Hm1 Hm2].
  unfold isize_max in Hmax.
  assert (Hbig : usize_modulus = 2 * 2 ^ 63) by reflexivity.
  unfold aligned_range. rewrite bind_eq, page_size_ok. cbv beta iota.
  rewrite bind_eq, usub_ok by lia. cbv beta iota.
  rewrite bind_eq, uadd_ok by lia. cbv beta iota.
  rewrite bind_eq, uadd_ok by lia. cbv beta iota.
  rewrite bind_eq, usub_ok by lia. cbv beta iota. unfold mret, M_ret.
  f_equal. f_equal.
  rewrite page_mask_up by (done || lia || apply page_size_pow2).
  pose proof (page_mask_divides page offset page_size_pow2 Hou) as Hd.
  replace (offset + len) with (page_mask page offset + (len + (offset - page_mask page offset)))
    by lia.
  rewrite (page_up_add page (page_mask page offset)) by (done || lia).
  lia.
Qed.

(** [a], [l] are the whole pages of the mapping that hold the bytes
    [offset, offset + len), and no further page. *)
Definition page_cover self (offset len a l : Z) : Prop :=
  (page | a) /\ (page | l) /\
  raw_ptr self <= a <= raw_ptr self + offset /\ raw_ptr self + offset < a + page /\
  raw_ptr self + offset + len <= a + l < raw_ptr self + offset + len + page /\
  a + l <= raw_ptr self + page_up page (raw_len self).

Lemma aligned_range_cover self offset len :
  RawMmap_wf self -> 0 <= offset -> 0 <= len -> offset + len <= raw_len self ->
  page_cover self offset len (raw_ptr self + page_mask page offset)
    (page_up page (offset + len) - page_mask page offset).
Proof.
  intros Hwf Ho Hl Hlim. pose proof (RawMmap_wf_len _ Hwf) as Hlen.
  destruct Hwf as (Hd & Hp & _ & Hu). pose proof page_pos.
  assert (Hou : is_usize offset) by (unfold is_usize, usize_modulus, isize_max in *; lia).
  pose proof (page_mask_bounds page offset page_size_pow2 Hou).
  pose proof (page_mask_divides page offset page_size_pow2 Hou).
  pose proof (page_up_bounds page (offset + len)).
  pose proof (page_up_divides page (offset + len)).
  pose proof (page_up_mono page (offset + len) (raw_len self)).
  unfold page_cover. split_and!; try lia.
  - by apply Z.divide_add_r.
  - by apply Z.divide_sub_r.
Qed.

Lemma ranged_call_ok self offset len msg (k : K)
    (f : Z * Z -> M K (result unit io_error)) :
  RawMmap_wf self -> 0 <= offset -> 0 <= len ->
  (if range_exceeds offset len (raw_len self) then mret (Err (NewError InvalidInput msg))
   else aligned_range offset len ≫= f) k =
  if raw_len self <? offset + len then Done (Err (NewError InvalidInput msg)) k
  else f (page_mask page offset, page_up page (offset + len) - page_mask page offset) k.
Proof.
  intros Hwf Ho Hl. pose proof (RawMmap_wf_len _ Hwf).
  rewrite range_exceeds_spec by by apply RawMmap_wf_usize.
  destruct (Z.ltb_spec (raw_len self) (offset + len)); [done|].
  by rewrite bind_eq, (aligned_range_ok offset len (raw_len self)) by lia.
Qed.

Lemma advise_range_returns self advice offset len (k : K) :
  RawMmap_wf self -> 0 <= offset -> 0 <= len ->
  exists r k', RawMmap_advise_range self advice offset len k = Done r k'.
Proof.
  intros Hwf Ho Hl. unfold RawMmap_advise_range. rewrite ranged_call_ok by done.
  destruct (_ <? _); [by do 2 eexists|]. unfold check_ret, last_os_error. munfold. cbn [fst snd].
  destruct (sys_madvise _ _ _ _) as [k' ret]. destruct (ret =? 0); by do 2 eexists.
Qed.

(** C26 (functional): on a well-formed handle and any [usize] offset and length, [advise_range]
    rejects exactly the ranges that leave the mapping, without calling the
    kernel, and otherwise makes one [madvise] call on the smallest run of
    whole pages of the mapping that holds the range. No intermediate value
    overflows, in either build profile. *)
Theorem advise_range_pages self advice offset len (k : K) :
  RawMmap_wf self -> is_usize offset -> is_usize len ->
  (raw_len self < offset + len /\
   RawMmap_advise_range self advice offset len k =
     Done (Err (NewError InvalidInput "advise range exceeds mapping length")) k) \/
  (offset + len <= raw_len self /\ exists a l, page_cover self offset len a l /\
   RawMmap_advise_range self advice offset len k =
     let '(k', ret) := sys_madvise k a l (Advice_as_libc advice) in
     Done (if ret =? 0 then Ok tt else Err (OsError (errno k'))) k').
Proof.
  intros Hwf [Ho _] [Hl _]. unfold RawMmap_advise_range. rewrite ranged_call_ok by done.
  destruct (Z.ltb_spec (raw_len self) (offset + len)); [by left|right].
  split; [done|]. do 2 eexists. split; [by apply aligned_range_cover|].
  unfold check_ret, last_os_error. munfold. cbn [fst snd].
  destruct (sys_madvise _ _ _ _) as [k' ret]. by destruct (ret =? 0).
Qed.

Theorem flush_pages self offset len async_flush (k : K) :
  RawMmap_wf self -> is_usize offset -> is_usize len ->
  (raw_len self < offset + len /\
   RawMmap_flush self offset len async_flush k =
     Done (Err (NewError InvalidInput "flush range exceeds mapping length")) k) \/
  (offset + len <= raw_len self /\ exists a l, page_cover self offset len a l /\
   RawMmap_flush self offset len async_flush k =
     let '(k', ret) := sys_msync k a l (if async_flush then MS_ASYNC else MS_SYNC) in
     Done (if ret =? 0 then Ok tt else Err (OsError (errno k'))) k').
Proof.
  intros Hwf [Ho _] [Hl _]. unfold RawMmap_flush. rewrite ranged_call_ok by done.
  destruct (Z.ltb_spec (raw_len self) (offset + len)); [by left|right].
  split; [done|]. do 2 eexists. split; [by apply aligned_range_cover|].
  unfold check_ret, last_os_error. munfold. cbn [fst snd].
  destruct (sys_msync _ _ _ _) as [k' ret]. by destruct (ret =? 0).
Qed.

Lemma mincore_range_ok self offset len (k : K) :
  RawMmap_wf self -> 0 <= offset -> 0 <= len -> offset + len <= raw_len self ->
  RawMmap_mincore self offset len k =
    let l := page_up page (offset + len) - page_mask page offset in
    let '(k', (ret, f)) := sys_mincore k (raw_ptr self + page_mask page offset) l in
    if ret =? 0 then
      Done (Ok ((fun i => negb (Z.land (f i) 1 =? 0)) <$> seq 0 (Z.to_nat (l / page)))) k'
    else Done (Err (OsError (errno k'))) k'.
Proof.
  intros Hwf Ho Hl Hlim. pose proof (RawMmap_wf_len _ Hwf) as Hlen.
  pose proof page_pos. pose proof page_small. unfold isize_max in Hlen.
  assert (Hbig : usize_modulus = 2 * 2 ^ 63) by reflexivity.
  assert (Hou : is_usize offset) by (unfold is_usize; lia).
  pose proof (page_mask_bounds page offset page_size_pow2 Hou).
  pose proof (page_up_bounds page (offset + len)).
  unfold RawMmap_mincore. rewrite range_exceeds_spec by by apply RawMmap_wf_usize.
  destruct (Z.ltb_spec (raw_len self) (offset + len)); [lia|].
  rewrite bind_eq, page_size_ok. cbv beta iota.
  rewrite bind_eq, uadd_ok by lia. cbv beta iota.
  rewrite bind_eq, uadd_ok by lia. cbv beta iota.
  rewrite bind_eq, usub_ok by lia. cbv beta iota.
  rewrite page_mask_up by (done || lia || apply page_size_pow2).
  rewrite bind_eq, usub_ok by lia. cbv beta iota.
  unfold last_os_error. munfold. cbv zeta.
  destruct (sys_mincore _ _ _) as [k' [ret f]]. cbn [fst snd].
  destruct (ret =? 0); [|done]. cbn. by rewrite <- list_fmap_compose.
Qed.

(** C25 (functional): [mincore] reports one residency bit per page of the range rounded to
    whole pages, in address order; the pages are those [advise_range] would
    address although the two compute them differently, and the buffer has
    exactly the bytes [mincore(2)] writes for them. *)
Theorem mincore_pages self offset len (k : K) :
  RawMmap_wf self -> is_usize offset -> is_usize len ->
  (raw_len self < offset + len /\
   RawMmap_mincore self offset len k =
     Done (Err (NewError InvalidInput "mincore range exceeds mapping length")) k) \/
  (offset + len <= raw_len self /\ exists a l n, page_cover self offset len a l /\
   l = Z.of_nat n * page /\ (l + page - 1) / page = Z.of_nat n /\
   aligned_range offset len k = Done (a - raw_ptr self, l) k /\
   let '(k', (ret, f)) := sys_mincore k a l in
   if ret =? 0 then exists bits,
     RawMmap_mincore self offset len k = Done (Ok bits) k' /\ length bits = n /\
     forall i, (i < n)%nat -> bits !! i = Some (Z.testbit (f i) 0)
   else RawMmap_mincore self offset len k = Done (Err (OsError (errno k'))) k').
Proof.
  intros Hwf [Ho _] [Hl _]. pose proof page_pos.
  destruct (Z.ltb_spec (raw_len self) (offset + len)) as [Hlt|Hle]; [left|right].
  { split; [done|]. unfold RawMmap_mincore.
    rewrite range_exceeds_spec by by apply RawMmap_wf_usize.
    by destruct (Z.ltb_spec (raw_len self) (offset + len)); [|lia]. }
  split; [done|]. pose proof (aligned_range_cover _ _ _ Hwf Ho Hl Hle) as Hc.
  pose proof (RawMmap_wf_len _ Hwf).
  set (l := page_up page (offset + len) - page_mask page offset) in *.
  assert (0 <= l) by (unfold page_cover in Hc; lia).
  pose proof Hc as (_ & [q Hq] & _).
  exists (raw_ptr self + page_mask page offset), l, (Z.to_nat (l / page)).
  assert (l / page = q) as -> by (rewrite Hq; apply Z.div_mul; lia).
  assert (0 <= q) by nia. rewrite !Z2Nat.id by done.
  split; [done|]. split; [done|]. split; [|split].
  - rewrite Hq. replace (q * page + page - 1) with (page - 1 + q * page) by lia.
    rewrite Z.div_add, Z.div_small by lia. lia.
  - rewrite (aligned_range_ok _ _ (raw_len self)) by lia. do 2 f_equal. lia.
  - rewrite mincore_range_ok by done. cbv zeta. fold l.
    destruct (sys_mincore _ _ _) as [k' [ret f]]. destruct (ret =? 0); [|done].
    eexists. split; [done|]. assert (l / page = q) as -> by (rewrite Hq; apply Z.div_mul; lia).
    rewrite length_fmap, length_seq. split; [done|]. intros i Hi.
    rewrite list_lookup_fmap, lookup_seq_lt by done. cbn. f_equal.
    change 1 with (Z.ones 1). rewrite Z.land_ones by lia. change (2 ^ 1) with 2.
    rewrite Zmod_odd. by destruct (Z.odd (f i)).
Qed.

Lemma contains_addr_ok self addr (k : K) :
  RawMmap_wf self ->
  RawMmap_contains_addr self addr k =
    Done (bool_decide (raw_ptr self <= addr < raw_ptr self + raw_len self)) k.
Proof.
  intros Hwf. pose proof (RawMmap_wf_len _ Hwf). destruct Hwf as (_ & Hp & _ & Hu).
  pose proof page_pos. pose proof (page_up_bounds page (raw_len self)).
  unfold RawMmap_contains_addr. rewrite bind_eq, uadd_ok
    by (unfold usize_modulus, isize_max in *; lia).
  munfold. f_equal. case_bool_decide; rewrite ?andb_true_iff, ?andb_false_iff; lia.
Qed.

(** What [map] answers, in terms of the one system call it may make. *)
Lemma map_ok_cases (o : MmapOptions) (k : K) :
  MmapOptions_map o k =
    if mo_len o =? 0 then Done (Err (NewError InvalidInput "length must be non-zero")) k
    else if negb (mo_offset o mod page =? 0)
    then Done (Err (NewError InvalidInput (unaligned_message (mo_offset o) page))) k
    else let '(k', p) := sys_mmap k 0 (mo_len o) (Protection_as_libc (mo_protection o))
           (mmap_flags o) (default (-1) (mo_fd o)) (as_i64 (mo_offset o)) in
         if p =? MAP_FAILED then Done (Err (OsError (errno k'))) k'
         else Done (Ok {| raw_ptr := p; raw_len := mo_len o;
                          raw_writable := Protection_is_writable (mo_protection o) |}) k'.
Proof.
  unfold MmapOptions_map. destruct (mo_len o =? 0); [done|].
  rewrite bind_eq, page_size_ok. cbv beta iota.
  destruct (negb _); [done|]. unfold last_os_error. munfold.
  destruct (sys_mmap _ _ _ _ _ _ _) as [k' p]. by destruct (p =? MAP_FAILED).
Qed.

(** The crate never asks for a mapping on top of another. *)
Lemma mmap_flags_not_fixed `{!LibcOk} (o : MmapOptions) : Z.land (mmap_flags o) MAP_FIXED = 0.
Proof.
  destruct map_fixed_bit as (i & Hi & -> & HP & HS & HA & HPop). apply Z.bits_inj'. intros n Hn.
  rewrite Z.land_spec, Z.pow2_bits_eqb, Z.bits_0 by done. destruct (Z.eqb_spec i n) as [<-|]; [|apply andb_false_r].
  rewrite andb_true_r. unfold mmap_flags, Visibility_as_libc.
  destruct (mo_visibility o), (mo_fd o), (target_linux && mo_populate o); by rewrite ?Z.lor_spec, ?HP, ?HS, ?HA, ?HPop.
Qed.

(** [map] refuses a zero length and an unaligned offset before any system
    call; otherwise it makes the one [mmap] call, and a handle it returns is
    well formed, as long as requested and writable exactly for
    [Protection::ReadWrite]. [MAP_ANON] is among the flags exactly when no
    descriptor was given, [MAP_POPULATE] exactly when asked for on Linux. *)
Theorem map_handle `{!LibcOk} `{!MmapOk K} (o : MmapOptions) (k : K) :
  0 <= mo_len o ->
  (exists i, MAP_ANON = 2 ^ i /\
     Z.testbit (mmap_flags o) i = match mo_fd o with None => true | _ => false end) /\
  (exists i, MAP_POPULATE = 2 ^ i /\
     Z.testbit (mmap_flags o) i = target_linux && mo_populate o) /\
  exists r k', MmapOptions_map o k = Done r k' /\
  match r with
  | Ok raw => (page | mo_offset o) /\ RawMmap_wf raw /\ raw_len raw = mo_len o /\
      (raw_writable raw = true <-> mo_protection o = ProtReadWrite)
  | Err e => (mo_len o = 0 /\ k' = k) \/ (~ (page | mo_offset o) /\ k' = k) \/
      e = OsError (errno k')
  end.
Proof.
  intros Hl. pose proof page_pos. split_and!.
  - destruct map_anon_bit as (i & Hi & E & HP & HS & HPop). exists i. split; [done|].
    unfold mmap_flags, Visibility_as_libc.
    destruct (mo_fd o), (mo_visibility o), (target_linux && mo_populate o);
      rewrite ?Z.lor_spec, ?HP, ?HS, ?HPop, ?E, ?Z.pow2_bits_true by done; done.
  - destruct map_populate_bit as (i & Hi & E & HP & HS & HA). exists i. split; [done|].
    unfold mmap_flags, Visibility_as_libc.
    destruct (mo_fd o), (mo_visibility o), (target_linux && mo_populate o);
      rewrite ?Z.lor_spec, ?HP, ?HS, ?HA, ?E, ?Z.pow2_bits_true by done; done.
  - rewrite map_ok_cases. destruct (Z.eqb_spec (mo_len o) 0); [do 2 eexists; split; [done|by left]|].
    destruct (Z.eqb_spec (mo_offset o mod page) 0) as [Hd|Hd]; cbn [negb].
    + apply Z.mod_divide in Hd; [|lia].
      destruct (sys_mmap _ _ _ _ _ _ _) as [k' p] eqn:Hc.
      destruct (Z.eqb_spec p MAP_FAILED) as [|Hp]; [do 2 eexists; split; [done|by right; right]|].
      pose proof (mmap_ok _ _ _ _ _ _ _ _ Hc Hp ltac:(lia)) as (? & ? & ?).
      do 2 eexists. split; [done|]. unfold RawMmap_wf. cbn. split_and!; try done; try lia.
      by destruct (mo_protection o).
    + do 2 eexists. split; [done|]. right; left. split; [|done].
      intros Hm. apply Hd. by apply Z.mod_divide; [lia|].
Qed.
End Proofs.

#[export] Hint Resolve RawMmap_wf_usize : shield.
