(* ===== verification/Toy.v ===== *)
(** A small operating system: an instance of every interface of [Env.v], on
    which the definitions run and the hypotheses of the theorems hold. It maps
    files the way Linux does (the pages past the end of the file raise SIGBUS),
    reads at most seven bytes per [pread], and hands out pthread keys from 0. *)

From stdpp Require Import prelude gmap strings.
From Stdlib Require Import ZArith Lia.
From S2P Require Import Prelude Errors Env SysMmap.

(** * Linux on x86_64 *)

#[export] Instance toy_libc : Libc := {|
  PROT_READ := 1; PROT_WRITE := 2; PROT_NONE := 0;
  MAP_PRIVATE := 2; MAP_SHARED := 1; MAP_ANON := 32; MAP_POPULATE := 32768; MAP_FIXED := 16;
  MAP_FAILED := usize_max;
  MADV_NORMAL := 0; MADV_SEQUENTIAL := 2; MADV_RANDOM := 1;
  MADV_WILLNEED := 3; MADV_DONTNEED := 4;
  MS_ASYNC := 1; MS_SYNC := 4;
  LOCK_SH := 1; LOCK_EX := 2; LOCK_NB := 4;
|}.

#[export] Instance toy_target : Target := {| target_linux := true |}.
#[export] Instance toy_sysconf : Sysconf := {| sysconf_pagesize := 4096 |}.

#[export] Instance toy_libc_ok : LibcOk.
Proof.
  constructor.
  - by exists 5.
  - by exists 15.
  - by exists 4.
  - done.
  - by apply (bool_decide_unpack _).
Qed.

#[export] Instance toy_sysconf_ok : SysconfOk.
Proof. constructor. by exists 12. Qed.

(** * Memory and files *)

Record tmap := {
  tm_start : Z;
  tm_len : Z;           (* whole pages *)
  tm_bytes : list Z;    (* the file from the offset of the mapping on *)
  tm_backed : Z;        (* bytes, from the start, whose pages can be supplied *)
  tm_writable : bool;
}.

Record toy := Toy {
  t_maps : list tmap;
  t_written : gmap Z Z;
  t_next : Z;
  t_errno : Z;
  t_files : gmap Path (list Z);
  t_fds : gmap Z Path;
  t_next_fd : Z;
}.

(** The address lies in the mapping. *)
Definition toy_in (a : Z) (m : tmap) : Prop := tm_start m <= a < tm_start m + tm_len m.

Definition toy_find (k : toy) (a : Z) : option tmap := snd <$> list_find (toy_in a) (t_maps k).

Definition toy_mem_at (k : toy) (a : Z) : option Z :=
  m ← toy_find k a;
  if a - tm_start m <? tm_backed m then
    Some (default (nth (Z.to_nat (a - tm_start m)) (tm_bytes m) 0) (t_written k !! a) mod 256)
  else None.

Definition toy_can_store (k : toy) (a : Z) : bool :=
  match toy_find k a with Some m => tm_writable m | None => false end.

Definition toy_load (k : toy) (a : Z) : toy * access Z :=
  (k, match toy_find k a with
      | None => SegFault
      | Some _ => match toy_mem_at k a with Some b => Access b | None => BusError a end
      end).

Definition toy_set_written (k : toy) (w : gmap Z Z) : toy :=
  Toy (t_maps k) w (t_next k) (t_errno k) (t_files k) (t_fds k) (t_next_fd k).

Definition toy_store (k : toy) (a b : Z) : toy * access unit :=
  if toy_can_store k a then
    match toy_mem_at k a with
    | Some _ => (toy_set_written k (<[a := b]> (t_written k)), Access tt)
    | None => (k, BusError a)
    end
  else (k, SegFault).

Definition toy_set_errno (k : toy) (e : Z) : toy :=
  Toy (t_maps k) (t_written k) (t_next k) e (t_files k) (t_fds k) (t_next_fd k).

Definition toy_set_maps (k : toy) (ms : list tmap) (next : Z) : toy :=
  Toy ms (t_written k) next (t_errno k) (t_files k) (t_fds k) (t_next_fd k).

Definition toy_mmap (k : toy) (addr len prot flags fd off : Z) : toy * Z :=
  let start := page_up 4096 (Z.max 65536 (t_next k)) in
  let stop := start + page_up 4096 len in
  if (isize_max <? Z.max start stop) ||
     existsb (fun m => (start <? tm_start m + tm_len m) && (tm_start m <? stop)) (t_maps k) then (toy_set_errno k 12, usize_max)
  else
    let bytes := default [] (p ← t_fds k !! fd; t_files k !! p) in
    let bytes := drop (Z.to_nat off) bytes in
    let backed := if fd =? -1 then page_up 4096 len
                  else page_up 4096 (Z.of_nat (length bytes)) in
    let m := {| tm_start := start; tm_len := page_up 4096 len; tm_bytes := bytes;
                tm_backed := backed; tm_writable := Z.testbit prot 1 |} in
    (toy_set_maps k (m :: t_maps k) (stop + 4096), start).

(** What [munmap] of the addresses from [start] to [stop] leaves of a mapping:
    the part before them, and the part after. *)
Definition toy_cut (start stop : Z) (m : tmap) : list tmap :=
  [{| tm_start := tm_start m; tm_len := Z.min (tm_len m) (start - tm_start m);
      tm_bytes := tm_bytes m; tm_backed := tm_backed m; tm_writable := tm_writable m |};
   let skip := Z.max 0 (stop - tm_start m) in
   {| tm_start := tm_start m + skip; tm_len := tm_len m - skip;
      tm_bytes := drop (Z.to_nat skip) (tm_bytes m); tm_backed := tm_backed m - skip;
      tm_writable := tm_writable m |}].

Definition toy_munmap (k : toy) (addr len : Z) : toy * Z :=
  if negb (addr mod 4096 =? 0) || (len <=? 0) then (toy_set_errno k 22, -1)
  else
    let ms := t_maps k ≫= toy_cut addr (addr + page_up 4096 len) in
    (toy_set_maps k (filter (fun m => 0 < tm_len m) ms) (t_next k), 0).

#[export] Instance toy_vm : VM toy := {|
  load := toy_load;
  store := toy_store;
  sys_mmap := toy_mmap;
  sys_munmap := toy_munmap;
  sys_madvise := fun k _ _ _ => (k, 0);
  sys_msync := fun k _ _ _ => (k, 0);
  sys_mincore := fun k a _ =>
    (k, (0, fun i => if bool_decide (is_Some (toy_mem_at k (a + 4096 * Z.of_nat i)))
                     then 1 else 0));
  sys_mlock := fun k _ _ => (k, 0);
  sys_munlock := fun k _ _ => (k, 0);
  errno := t_errno;
|}.

#[export] Instance toy_mmap_ok : MmapOk toy.
Proof.
  constructor. intros k len prot flags fd off k' p. cbn. unfold toy_mmap.
  set (start := page_up 4096 (Z.max 65536 (t_next k))).
  pose proof (page_up_bounds 4096 (Z.max 65536 (t_next k)) ltac:(lia)). fold start in H.
  destruct (Z.ltb_spec isize_max (Z.max start (start + page_up 4096 len))); cbn [orb]; [by intros [= <- <-]|].
  destruct (existsb _ _); [by intros [= <- <-]|].
  intros [= <- <-] _ Hl. split_and!; [apply page_up_divides|lia|lia].
Qed.

Lemma toy_mem_at_find k a b : toy_mem_at k a = Some b -> is_Some (toy_find k a).
Proof. unfold toy_mem_at. by destruct (toy_find k a). Qed.

#[export] Program Instance toy_mem_laws : MemLaws toy := {|
  mem_at := toy_mem_at;
  can_store := toy_can_store;
|}.
Next Obligation.
  intros k a b Hb. exists k. split; [|done]. cbn. unfold toy_load.
  destruct (toy_mem_at_find _ _ _ Hb) as [m ->]. by rewrite Hb.
Qed.
Next Obligation.
  intros k a b. unfold toy_mem_at. destruct (toy_find k a) as [m|]; [|done]. cbn.
  destruct (_ <? _); [|done]. intros [= <-]. by apply Z.mod_pos_bound.
Qed.
Next Obligation.
  intros k a b0 b Hb Hs Hbyte. cbn. unfold toy_store. rewrite Hs, Hb.
  eexists. split; [done|]. split; [|done]. intros x.
  assert (Hf : forall w, toy_find (toy_set_written k w) x = toy_find k x) by done.
  case_decide as Hx.
  - subst. unfold toy_mem_at in *. rewrite Hf. destruct (toy_find k a) as [m|]; [|done].
    cbn in *. destruct (_ <? _); [|done]. by rewrite lookup_insert_eq, Z.mod_small.
  - unfold toy_mem_at. rewrite Hf. destruct (toy_find k x) as [m|]; [|done].
    cbn. destruct (_ <? _); [|done]. by rewrite lookup_insert_ne.
Qed.

#[export] Instance toy_byte_laws : ByteLaws toy.
Proof.
  constructor. intros k a k' b. cbn. unfold toy_load. destruct (toy_find k a); [|done].
  destruct (toy_mem_at k a) eqn:E; [|done]. intros [= _ <-]. exact (mem_byte k a _ E).
Qed.

#[export] Instance toy_fault_laws : FaultLaws toy.
Proof.
  constructor; cbn.
  - intros k a k' s. unfold toy_load. destruct (toy_find k a); [|done].
    destruct (toy_mem_at k a); [done|]. by intros [= _ ->].
  - intros k a b k' s. unfold toy_store. destruct (toy_can_store k a); [|done].
    destruct (toy_mem_at k a); [done|]. by intros [= _ ->].
Qed.

Definition toy_open (k : toy) (p : Path) (write : bool) : toy * result Z io_error :=
  match t_files k !! p with
  | None => (toy_set_errno k 2, Err (OsError 2))
  | Some _ =>
      (Toy (t_maps k) (t_written k) (t_next k) (t_errno k) (t_files k)
         (<[t_next_fd k := p]> (t_fds k)) (t_next_fd k + 1), Ok (t_next_fd k))
  end.

Definition toy_file (k : toy) (fd : Z) : list Z :=
  default [] (p ← t_fds k !! fd; t_files k !! p).

#[export] Instance toy_fs : FS toy := {|
  sys_open := toy_open;
  sys_flock := fun k _ _ => (k, 0);
  sys_fstat := fun k fd => (k, Ok (Z.min (Z.of_nat (length (toy_file k fd))) (2 ^ 43)));    (* the largest file *)
  sys_close := fun k fd =>
    (Toy (t_maps k) (t_written k) (t_next k) (t_errno k) (t_files k)
       (delete fd (t_fds k)) (t_next_fd k), tt);
  sys_pread := fun k fd count off =>
    let bs := take (Z.to_nat (Z.min 7 count)) (drop (Z.to_nat off) (toy_file k fd)) in
    (k, (Z.of_nat (length bs), bs));
  sys_statfs := fun k p =>
    (k, match t_files k !! p with
        | Some _ => (0, Statfs 61267 "ext4")
        | None => (-1, Statfs 0 "")
        end);
|}.

Lemma toy_cut_in start stop x m :
  start <= stop ->
  (exists m', m' ∈ toy_cut start stop m /\ 0 < tm_len m' /\ toy_in x m') <->
    toy_in x m /\ ~ start <= x < stop.
Proof.
  intros Hle. unfold toy_cut, toy_in. split.
  - intros (m' & [->|[->|[]%elem_of_nil]%elem_of_cons]%elem_of_cons & Hl & Hx); cbn in *; lia.
  - intros [Hx Hout]. destruct (decide (x < start)).
    + eexists. split; [by left|]. cbn. lia.
    + eexists. split; [by right; left|]. cbn. lia.
Qed.

#[export] Program Instance toy_map_laws : MapLaws toy := {|
  mapped := fun k a => exists m, m ∈ t_maps k /\ toy_in a m;
|}.
Next Obligation.
  intros k a len prot flags fd off k' p. cbn. unfold toy_mmap.
  set (start := page_up 4096 _). set (stop := start + _).
  destruct (isize_max <? _); cbn [orb]; [by intros [= <- <-]|].
  destruct (existsb _ _) eqn:Ho; [by intros [= <- <-]|]. intros [= <- <-] _ _ Hl x. unfold in_pages. cbn. split.
  - intros Hx (m & Hm & Hin). apply not_true_iff_false in Ho. apply Ho. apply existsb_exists.
    exists m. split; [by apply list_elem_of_In|]. unfold toy_in, stop in *. apply andb_true_iff. lia.
  - split.
    + intros (m & [->|Hm]%elem_of_cons & Hin); [by left|]. right. by exists m.
    + intros [Hx|(m & Hm & Hin)]; eexists; (split; [by left|done]) || (split; [by right|done]).
Qed.
Next Obligation.
  intros k a len prot flags fd off k'. cbn. unfold toy_mmap.
  set (start := page_up 4096 _).
  destruct (Z.ltb_spec isize_max (Z.max start (start + page_up 4096 len))) as [|Hle]; cbn [orb];
    [by intros [= <-]|].
  destruct (existsb _ _); [by intros [= <-]|]. intros [= <- E]. exfalso.
  unfold usize_max, usize_modulus, isize_max in *. lia.
Qed.
Next Obligation.
  intros k p len k' r. cbn. unfold toy_munmap, in_pages. cbn. intros E Hp Hl x.
  destruct (negb _ || _); injection E as <- <-; cbn; [done|].
  set (stop := p + page_up 4096 len).
  pose proof (page_up_bounds 4096 len ltac:(lia)).
  assert (Hiff : (exists m, m ∈ filter (fun m => 0 < tm_len m) (t_maps k ≫= toy_cut p stop) /\ toy_in x m) <->
    exists m, m ∈ t_maps k /\ (toy_in x m /\ ~ p <= x < stop)).
  { split.
    - intros (m' & [Hlen (m & Hcut & Hm)%list_elem_of_bind]%list_elem_of_filter & Hx). exists m. split; [done|].
      apply (toy_cut_in p stop x m); [unfold stop; lia|]. by exists m'.
    - intros (m & Hm & (m' & Hcut & Hlen & Hx)%toy_cut_in); [|unfold stop; lia]. exists m'. split; [|done].
      apply list_elem_of_filter. split; [done|]. apply list_elem_of_bind. by exists m. }
  rewrite Hiff. split; [naive_solver|]. intros Hx (m & _ & _ & Hn). by destruct Hn.
Qed.
Next Obligation. by intros k a k' r [= <- <-]. Qed.
Next Obligation.
  intros k a b k' r. cbn. unfold toy_store. destruct (toy_can_store k a); [|by intros [= <- <-]].
  by destruct (toy_mem_at k a); intros [= <- <-].
Qed.
Next Obligation.
  intros k pa w k' r. cbn. unfold toy_open. by destruct (t_files k !! pa); intros [= <- <-].
Qed.
Next Obligation. by intros k fd f k' r [= <- <-]. Qed.
Next Obligation. by intros k fd k' r [= <- <-]. Qed.
Next Obligation. by intros k fd k' r [= <- <-]. Qed.

#[export] Program Instance toy_file_laws : FileLaws toy := {| content := toy_file |}.
Next Obligation.
  intros k fd count off k' ret bs. cbn. intros [= <- <- <-] Hc Ho _.
  set (X := drop _ (toy_file k fd)). set (n := Z.to_nat _).
  assert (Hx : Z.of_nat (length X) = Z.max 0 (Z.of_nat (length (toy_file k fd)) - off))
    by (unfold X; rewrite length_drop; lia).
  rewrite Nat2Z.id, length_take. split_and!; [lia| |lia|lia|done].
  destruct (decide (n <= length X)%nat); [by rewrite Nat.min_l|].
  rewrite Nat.min_r by lia. by rewrite !take_ge by lia.
Qed.

#[export] Instance toy_fs_ok : FSOk toy.
Proof.
  constructor. intros k fd k' n [= <- <-]. unfold is_usize, usize_modulus, isize_max. lia.
Qed.

Definition toy_set_files (k : toy) (fs : gmap Path (list Z)) : toy :=
  Toy (t_maps k) (t_written k) (t_next k) (t_errno k) fs (t_fds k) (t_next_fd k).

#[export] Instance toy_shell : Shell toy := {|
  sys_write_file := fun k p bs => (toy_set_files k (<[p := bs]> (t_files k)), Ok tt);
  sys_remove_file := fun k p => (toy_set_files k (delete p (t_files k)), Ok tt);
  sys_print := fun k _ _ => (k, true);
  sys_sleep := fun k _ => (k, tt);
|}.

#[export] Instance toy_shell_ok : ShellOk toy.
Proof. by constructor. Qed.

#[export] Program Instance toy_beyond_laws : BeyondLaws toy := {|
  beyond := fun k a => is_Some (toy_find k a) /\ toy_mem_at k a = None;
|}.
Next Obligation.
  intros k a [[m Hm] Hn]. exists k. split; [|done]. cbn. unfold toy_load. by rewrite Hm, Hn.
Qed.

#[export] Instance toy_beyond_stays : BeyondStays toy.
Proof. constructor. by intros k a k' r x [= <- _]. Qed.

(** A machine with these files and nothing mapped. *)
Definition toy_boot (files : list (Path * list Z)) : toy :=
  Toy [] ∅ 0 0 (list_to_map files) ∅ 3.

(** * Threads *)

Record toy_proc := { tp_keys : Z; tp_vals : gmap Z (gmap Z Z) }.

#[export] Instance toy_procenv : ProcEnv toy_proc := {|
  sys_sigaction := fun e => (e, 0);
  pthread_key_create := fun e =>
    if tp_keys e <? 1024 then
      ({| tp_keys := Z.max 0 (tp_keys e) + 1;
          tp_vals := <[Z.max 0 (tp_keys e) := ∅]> (tp_vals e) |}, (0, Z.max 0 (tp_keys e)))
    else (e, (11, 0));
  pthread_getspecific := fun e t k => default 0 (tp_vals e !! k ≫= lookup t);
  pthread_setspecific := fun e t k v =>
    {| tp_keys := tp_keys e;
       tp_vals := <[k := <[t := v]> (default ∅ (tp_vals e !! k))]> (tp_vals e) |};
|}.

#[export] Program Instance toy_procenv_ok : ProcEnvOk toy_proc := {|
  key_created := fun e k => 0 <= k < tp_keys e;
|}.
Next Obligation. by intros e e' r [= <- <-]. Qed.
Next Obligation.
  intros e e' k. cbn. destruct (Z.ltb_spec (tp_keys e) 1024); [|done]. intros [= <- <-].
  cbn. split_and!; try lia; [unfold is_u32, u32_modulus; lia|].
  intros t. by rewrite lookup_insert_eq.
Qed.
Next Obligation. done. Qed.
Next Obligation.
  intros e t k v _. cbn. rewrite lookup_insert_eq. cbn. by rewrite lookup_insert_eq.
Qed.
Next Obligation.
  intros e t k v t' k' Hne. cbn. destruct (decide (k = k')) as [->|].
  - destruct Hne as [Hne|]; [|done]. rewrite lookup_insert_eq. cbn.
    rewrite lookup_insert_ne by done. by destruct (tp_vals e !! k').
  - by rewrite lookup_insert_ne.
Qed.

Definition toy_proc_boot : toy_proc := {| tp_keys := 0; tp_vals := ∅ |}.

(** * A bump allocator *)

#[export] Instance toy_allocator : Allocator := {|
  alloc := fun live => 1 + set_fold Z.max 0 live;
|}.

Lemma set_fold_max (live : gset Z) :
  0 <= set_fold Z.max 0 live /\ forall x, x ∈ live -> x <= set_fold Z.max 0 live.
Proof.
  apply (set_fold_ind_L (fun r X => 0 <= r /\ forall x, x ∈ X -> x <= r)).
  - set_solver.
  - intros x X r Hx [H0 H]. split; [lia|]. intros y [->%elem_of_singleton|Hy]%elem_of_union; [lia|].
    specialize (H y Hy). lia.
Qed.

#[export] Instance toy_allocator_ok : AllocatorOk.
Proof.
  constructor; intros live; pose proof (set_fold_max live) as [H0 H]; cbn; [|lia].
  intros Hin. specialize (H _ Hin). lia.
Qed.
