(* ===== verification/Registry.v ===== *)
(** src/src/signal/registry.rs: the registry of regions the SIGBUS handler
    intercepts. A snapshot is an immutable list of regions in a box; the
    registry publishes the current one through an atomic pointer and frees the
    old ones two generations late.

    The boxes are an explicit heap, so that a freed snapshot is a pointer the
    heap does not have, and dereferencing or freeing it stops with [StopUB]. *)

From stdpp Require Import prelude gmap.
From Stdlib Require Import ZArith Lia.
From S2P Require Import Prelude Env.

Record RegisteredRegion := { region_start : Z; region_end : Z }.

#[global] Instance RegisteredRegion_eq_dec : EqDecision RegisteredRegion.
Proof. solve_decision. Defined.

(** [RegionSnapshot { regions }]. *)
Abbreviation RegionSnapshot := (list RegisteredRegion).

Record RetiredTracker := { previous : list Z; current : list Z }.

Definition RetiredTracker_new : RetiredTracker := {| previous := []; current := [] |}.

(** The three globals: the heap holds the boxed snapshots, [region_snapshot] is
    [REGION_SNAPSHOT] (0 is null), and [tracker], [poisoned_mutex] are the
    [REGION_MUTEX] with its poison flag. *)
Record Registry := MkRegistry {
  heap : gmap Z RegionSnapshot;
  region_snapshot : Z;
  tracker : RetiredTracker;
  poisoned_mutex : bool;
}.

Definition registry_init : Registry := MkRegistry ∅ 0 RetiredTracker_new false.

Definition set_heap (h : gmap Z RegionSnapshot) (r : Registry) : Registry :=
  MkRegistry h (region_snapshot r) (tracker r) (poisoned_mutex r).
Definition set_snapshot (p : Z) (r : Registry) : Registry :=
  MkRegistry (heap r) p (tracker r) (poisoned_mutex r).
Definition set_tracker (t : RetiredTracker) (r : Registry) : Registry :=
  MkRegistry (heap r) (region_snapshot r) t (poisoned_mutex r).
Definition set_poisoned_mutex (b : bool) (r : Registry) : Registry :=
  MkRegistry (heap r) (region_snapshot r) (tracker r) b.

(** [REGION_MUTEX.lock().expect(..)] around a critical section: a panic inside
    it poisons the mutex, and a poisoned mutex makes [expect] panic. *)
Definition with_region_mutex {A} (body : M Registry A) : M Registry A := fun r =>
  if poisoned_mutex r then Stop StopPanic r
  else match body r with
       | Stop StopPanic r' => Stop StopPanic (set_poisoned_mutex true r')
       | o => o
       end.

(** [Box::into_raw(Box::new(..))], [&*p] and [drop(Box::from_raw(p))]. *)
Definition box_new `{Allocator} (s : RegionSnapshot) : M Registry Z := fun r =>
  let p := alloc (dom (heap r)) in Done p (set_heap (<[p := s]> (heap r)) r).

Definition box_deref (p : Z) : M Registry RegionSnapshot := fun r =>
  match heap r !! p with Some s => Done s r | None => Stop StopUB r end.

Definition box_drop (p : Z) : M Registry unit := fun r =>
  match heap r !! p with
  | Some _ => Done tt (set_heap (delete p (heap r)) r)
  | None => Stop StopUB r
  end.

Fixpoint drop_all (ps : list Z) : M Registry unit :=
  match ps with
  | [] => mret tt
  | p :: ps => _ ← box_drop p; drop_all ps
  end.

(** [drain(..)] frees the previous generation and leaves it empty; the swap
    then makes the current generation the previous one. *)
Definition rotate_retired : M Registry unit :=
  t ← gets tracker;
  _ ← drop_all (previous t);
  modify (set_tracker {| previous := current t; current := [] |}).

Section Operations.
Context `{PR : Profile} `{AL : Allocator}.

(** The part both mutations end with: box the new list, swap it in, retire
    the old snapshot. *)
Definition publish (regions : RegionSnapshot) : M Registry unit :=
  new_snapshot ← box_new regions;
  prev ← gets region_snapshot;
  _ ← modify (set_snapshot new_snapshot);
  if prev =? 0 then mret tt
  else
    t ← gets tracker;
    modify (set_tracker {| previous := previous t; current := current t ++ [prev] |}).

Definition register_body (s len : Z) : M Registry unit :=
  old_ptr ← gets region_snapshot;
  regions ← (if old_ptr =? 0 then mret [] else box_deref old_ptr);
  e ← uadd s len;
  publish (regions ++ [{| region_start := s; region_end := e |}]).

Definition unregister_body (s : Z) : M Registry unit :=
  old_ptr ← gets region_snapshot;
  if old_ptr =? 0 then mret tt
  else
    regions ← box_deref old_ptr;
    publish (filter (fun r => region_start r <> s) regions).

Definition register (s len : Z) : M Registry unit :=
  with_region_mutex (_ ← rotate_retired; register_body s len).

Definition unregister (s : Z) : M Registry unit :=
  with_region_mutex (_ ← rotate_retired; unregister_body s).

Definition in_region (addr : Z) (r : RegisteredRegion) : bool :=
  (region_start r <=? addr) && (addr <? region_end r).

Definition contains (addr : Z) : M Registry bool :=
  snapshot_ptr ← gets region_snapshot;
  if snapshot_ptr =? 0 then mret false
  else
    snapshot ← box_deref snapshot_ptr;
    mret (existsb (in_region addr) snapshot).
End Operations.

(** * What the registry promises *)

(** The regions the handler sees. *)
Definition regions (r : Registry) : RegionSnapshot :=
  if region_snapshot r =? 0 then [] else default [] (heap r !! region_snapshot r).

(** The boxes the registry can still reach. *)
Definition reachable_boxes (r : Registry) : list Z :=
  (if region_snapshot r =? 0 then [] else [region_snapshot r])
  ++ previous (tracker r) ++ current (tracker r).

(** No reachable box was freed, none is reachable twice, and none is lost. *)
Record registry_wf (r : Registry) : Prop := {
  wf_nodup : NoDup (reachable_boxes r);
  wf_heap : forall p, p ∈ dom (heap r) <-> p ∈ reachable_boxes r;
  wf_null : 0 ∉ reachable_boxes r;
  wf_previous : (length (previous (tracker r)) <= 1)%nat;
  wf_current : (length (current (tracker r)) <= 1)%nat;
}.

(** The abstract registry is a list of regions; a mutation is one of: *)
Inductive mutation := Register (s len : Z) | Unregister (s : Z).

Definition apply_mutation (m : mutation) (l : RegionSnapshot) : RegionSnapshot :=
  match m with
  | Register s len => l ++ [{| region_start := s; region_end := s + len |}]
  | Unregister s => filter (fun r => region_start r <> s) l
  end.

(** The end of a region is an address. *)
Definition mutation_fits (m : mutation) : Prop :=
  match m with Register s len => is_usize s /\ is_usize len /\ is_usize (s + len)
  | Unregister _ => True end.

Section Mutation.
Context `{PR : Profile} `{AL : Allocator}.

Definition mutation_body (m : mutation) : M Registry unit :=
  match m with Register s len => register_body s len | Unregister s => unregister_body s end.

Definition mutate (m : mutation) : M Registry unit :=
  match m with Register s len => register s len | Unregister s => unregister s end.

Fixpoint mutate_all (ms : list mutation) : M Registry unit :=
  match ms with [] => mret tt | m :: ms => _ ← mutate m; mutate_all ms end.

Lemma mutate_eq m : mutate m = with_region_mutex (_ ← rotate_retired; mutation_body m).
Proof. by destruct m. Qed.
End Mutation.

Section Proofs.
Context `{PR : Profile} `{AL : Allocator} `{ALok : !AllocatorOk}.
Implicit Types r : Registry.

Lemma registry_init_wf : registry_wf registry_init.
Proof. split; cbn; [constructor|set_solver|set_solver|lia|lia]. Qed.

Lemma drop_all_ok ps r :
  NoDup ps -> (forall p, p ∈ ps -> p ∈ dom (heap r)) ->
  drop_all ps r = Done tt (set_heap (filter (fun kv => kv.1 ∉ ps) (heap r)) r).
Proof.
  revert r. induction ps as [|p ps IH]; intros r Hnd Hin.
  - cbn. munfold. f_equal. destruct r; unfold set_heap; cbn. f_equal.
    rewrite map_filter_id; [done|]. intros. cbn. set_solver.
  - apply NoDup_cons in Hnd as [Hp Hnd]. cbn [drop_all].
    assert (is_Some (heap r !! p)) as [s Hs] by (apply elem_of_dom, Hin; set_solver).
    rewrite bind_eq. unfold box_drop at 1. rewrite Hs. rewrite IH; [|done|].
    + f_equal. unfold set_heap. cbn. f_equal. apply map_eq. intros q.
      apply option_eq. intros x. rewrite !map_lookup_filter_Some, lookup_delete_Some.
      cbn. set_solver.
    + intros q Hq. cbn. rewrite dom_delete. set_solver.
Qed.

(** After the rotation the previous generation is gone, the current one is
    the previous one, and the regions are as before. *)
Definition rotated r : Registry :=
  set_tracker {| previous := current (tracker r); current := [] |}
    (set_heap (filter (fun kv => kv.1 ∉ previous (tracker r)) (heap r)) r).

Lemma rotate_ok r : registry_wf r -> rotate_retired r = Done tt (rotated r).
Proof.
  intros [Hnd Hh _ _ _]. unfold rotate_retired. rewrite bind_eq. cbn.
  unfold reachable_boxes in *.
  rewrite bind_eq, drop_all_ok; [done| |].
  - apply NoDup_app in Hnd as (_ & _ & Hnd). by apply NoDup_app in Hnd as (? & _ & _).
  - intros p Hp. apply Hh. set_solver.
Qed.

Lemma rotated_wf r : registry_wf r -> registry_wf (rotated r).
Proof.
  intros [Hnd Hh H0 Hp Hc]. unfold rotated, reachable_boxes in *. cbn in *.
  rewrite !NoDup_app in Hnd. destruct Hnd as (Hn1 & Hd1 & Hn2 & Hd2 & Hn3).
  split; unfold reachable_boxes; cbn.
  - rewrite app_nil_r. apply NoDup_app. split_and!; [done| |done]. set_solver.
  - intros p. rewrite elem_of_dom. rewrite app_nil_r.
    specialize (Hh p). rewrite elem_of_dom in Hh. split.
    + intros [x [Hx%mk_is_Some Hn]%map_lookup_filter_Some]. cbn in Hn. set_solver.
    + intros Hin. assert (is_Some (heap r !! p)) as [x Hx] by (apply Hh; set_solver).
      exists x. apply map_lookup_filter_Some. split; [done|]. cbn. set_solver.
  - set_solver.
  - lia.
  - lia.
Qed.

Lemma snapshot_live r :
  registry_wf r -> region_snapshot r <> 0 ->
  heap r !! region_snapshot r = Some (regions r).
Proof.
  intros [_ Hh _ _ _] Hne. unfold regions. destruct (Z.eqb_spec (region_snapshot r) 0); [done|].
  assert (is_Some (heap r !! region_snapshot r)) as [x Hx].
  { apply elem_of_dom, Hh. unfold reachable_boxes. destruct (Z.eqb_spec (region_snapshot r) 0); set_solver. }
  by rewrite Hx.
Qed.

Lemma rotated_regions r : registry_wf r -> regions (rotated r) = regions r.
Proof.
  intros Hwf. destruct (decide (region_snapshot r = 0)) as [E|E].
  - unfold regions. cbn. by rewrite E.
  - pose proof (snapshot_live _ Hwf E) as Hs.
    assert (heap (rotated r) !! region_snapshot r = Some (regions (rotated r))) as Hs'
      by exact (snapshot_live _ (rotated_wf _ Hwf) E).
    unfold rotated in Hs' at 1. cbn [heap set_tracker set_heap] in Hs'.
    apply map_lookup_filter_Some in Hs' as [Hs' _]. rewrite Hs in Hs'. by injection Hs'.
Qed.

(** The state [publish l] leaves. *)
Definition published (l : RegionSnapshot) r : Registry :=
  let p := alloc (dom (heap r)) in
  MkRegistry (<[p := l]> (heap r)) p
    {| previous := previous (tracker r);
       current := current (tracker r) ++
         (if region_snapshot r =? 0 then [] else [region_snapshot r]) |}
    (poisoned_mutex r).

Lemma publish_ok l r : publish l r = Done tt (published l r).
Proof.
  unfold publish, published, box_new. munfold. cbn.
  destruct (region_snapshot r =? 0); [|done].
  rewrite app_nil_r. by destruct r as [? ? [] ?].
Qed.

Lemma published_wf l r :
  registry_wf r -> current (tracker r) = [] ->
  registry_wf (published l r) /\ regions (published l r) = l.
Proof.
  intros [Hnd Hh H0 Hp _] Hc. pose proof (alloc_pos (dom (heap r))) as Hpos.
  assert (Hnew : alloc (dom (heap r)) ∉ reachable_boxes r)
    by (rewrite <- Hh; apply alloc_fresh).
  set (p := alloc (dom (heap r))) in *.
  assert (Hl : forall q, q ∈ reachable_boxes (published l r) <-> q = p \/ q ∈ reachable_boxes r).
  { intros q. unfold reachable_boxes, published. cbn. fold p. rewrite Hc.
    destruct (Z.eqb_spec p 0); [lia|]. set_solver. }
  split.
  - split; [|..|done|].
    + unfold reachable_boxes, published in *. cbn in *. fold p. rewrite Hc in *.
      rewrite app_nil_r in *. destruct (Z.eqb_spec p 0); [lia|]. cbn.
      apply NoDup_cons. rewrite (comm (++) (previous _)).
      split; [set_solver|]. done.
    + intros q. rewrite Hl. cbn. fold p. rewrite dom_insert, <- Hh. set_solver.
    + rewrite Hl. intros [|]; [lia|done].
    + cbn. rewrite Hc. by destruct (region_snapshot r =? 0); cbn; lia.
  - unfold regions, published. cbn. fold p. destruct (Z.eqb_spec p 0); [lia|].
    by rewrite lookup_insert_eq.
Qed.

(** What the critical section of a mutation leaves after the rotation. *)
Definition finished (m : mutation) r : Registry :=
  match m with
  | Register _ _ => published (apply_mutation m (regions r)) r
  | Unregister _ =>
      if region_snapshot r =? 0 then r else published (apply_mutation m (regions r)) r
  end.

Lemma mutation_body_ok m r :
  registry_wf r -> mutation_fits m -> mutation_body m r = Done tt (finished m r).
Proof.
  intros Hwf Hfit. destruct m as [s len|s]; cbn [mutation_body finished].
  - destruct Hfit as (_ & _ & Hfit). unfold register_body. rewrite bind_eq. cbn.
    rewrite bind_eq.
    assert ((if region_snapshot r =? 0 then mret [] else box_deref (region_snapshot r)) r
            = Done (regions r) r) as ->.
    { destruct (Z.eqb_spec (region_snapshot r) 0) as [E|E].
      - unfold regions. by rewrite E.
      - unfold box_deref. by rewrite (snapshot_live _ Hwf E). }
    cbv beta iota. rewrite bind_eq, uadd_ok by done. cbv beta iota. by rewrite publish_ok.
  - unfold unregister_body. rewrite bind_eq. cbn.
    destruct (Z.eqb_spec (region_snapshot r) 0) as [E|E]; [done|].
    rewrite bind_eq. unfold box_deref. rewrite (snapshot_live _ Hwf E). by rewrite publish_ok.
Qed.

Lemma finished_wf m r :
  registry_wf r -> current (tracker r) = [] ->
  registry_wf (finished m r) /\ regions (finished m r) = apply_mutation m (regions r) /\
  poisoned_mutex (finished m r) = poisoned_mutex r.
Proof.
  intros Hwf Hc.
  pose proof (published_wf (apply_mutation m (regions r)) r Hwf Hc) as [Hwf' Hr].
  destruct m as [s len|s]; cbn [finished]; [done|].
  destruct (Z.eqb_spec (region_snapshot r) 0) as [E|E]; [|done].
  split_and!; [done| |done]. unfold regions. by rewrite E.
Qed.

Lemma mutate_ok m r :
  registry_wf r -> poisoned_mutex r = false -> mutation_fits m ->
  exists r', mutate m r = Done tt r' /\ registry_wf r' /\ poisoned_mutex r' = false /\
    regions r' = apply_mutation m (regions r).
Proof.
  intros Hwf Hm Hfit. exists (finished m (rotated r)).
  pose proof (rotated_wf _ Hwf) as Hwf'.
  destruct (finished_wf m (rotated r) Hwf' eq_refl) as (? & Hr & Hp).
  rewrite mutate_eq. unfold with_region_mutex.
  rewrite Hm, bind_eq, rotate_ok by done. cbv beta iota.
  rewrite mutation_body_ok by done. split_and!; [done|done|by rewrite Hp|].
  by rewrite Hr, rotated_regions.
Qed.

Lemma contains_ok addr r :
  registry_wf r -> contains addr r = Done (existsb (in_region addr) (regions r)) r.
Proof.
  intros Hwf. unfold contains. rewrite bind_eq. cbn.
  destruct (Z.eqb_spec (region_snapshot r) 0) as [E|E].
  - unfold regions. by rewrite E.
  - rewrite bind_eq. unfold box_deref. by rewrite (snapshot_live _ Hwf E).
Qed.

Lemma wf_heap_size r : registry_wf r -> (size (heap r) <= 3)%nat.
Proof.
  intros [Hnd Hh _ Hp Hc]. rewrite <- size_dom.
  replace (dom (heap r)) with (list_to_set (reachable_boxes r) : gset Z) by set_solver.
  rewrite size_list_to_set by done. unfold reachable_boxes. rewrite !length_app.
  destruct (_ =? _); cbn; lia.
Qed.

Lemma mutate_all_ok ms r :
  registry_wf r -> poisoned_mutex r = false -> Forall mutation_fits ms ->
  exists r', mutate_all ms r = Done tt r' /\ registry_wf r' /\ poisoned_mutex r' = false /\
    regions r' = fold_left (fun l m => apply_mutation m l) ms (regions r).
Proof.
  revert r. induction ms as [|m ms IH]; intros r Hwf Hm Hf; [by eauto|].
  apply Forall_cons in Hf as [Hfit Hf].
  destruct (mutate_ok m r Hwf Hm Hfit) as (r1 & E1 & Hwf1 & Hm1 & Hr1).
  destruct (IH r1 Hwf1 Hm1 Hf) as (r2 & E2 & Hwf2 & Hm2 & Hr2).
  exists r2. cbn. rewrite bind_eq, E1. split_and!; [done..|]. by rewrite Hr2, Hr1.
Qed.

(** C7 (refinement): any sequence of [register] and [unregister] calls whose regions end at
    an address runs without a panic, a double free or a use of a freed
    snapshot; what [contains] then answers is what a plain list of regions,
    appended to by the first and filtered by the second, answers; and at most
    three snapshots are allocated at any time. *)
Theorem registry_refines_list ms :
  Forall mutation_fits ms ->
  exists r, mutate_all ms registry_init = Done tt r /\
    (size (heap r) <= 3)%nat /\
    forall addr, contains addr r =
      Done (existsb (in_region addr)
              (fold_left (fun l m => apply_mutation m l) ms [])) r.
Proof.
  intros Hf. destruct (mutate_all_ok ms registry_init registry_init_wf eq_refl Hf)
    as (r & E & Hwf & _ & Hr).
  exists r. split_and!; [done|by apply wf_heap_size|]. intros addr.
  rewrite contains_ok by done. by rewrite Hr.
Qed.

(** the snapshots the registry can reach (the published one and the two
    retired generations) are exactly the allocated ones, each reachable once:
    a mutation frees no snapshot that is still reachable, frees none twice
    and leaks none. *)
Theorem mutation_preserves_wf m r :
  registry_wf r -> poisoned_mutex r = false -> mutation_fits m ->
  exists r', mutate m r = Done tt r' /\ registry_wf r'.
Proof. intros Hwf Hm Hfit. destruct (mutate_ok m r Hwf Hm Hfit) as (r' & ? & ? & _). eauto. Qed.

(** [unregister] removes every region that starts at the address, and only
    those: it undoes the [register] of a fresh address whatever was
    registered in between at other addresses, and an address registered
    twice is gone after one call. *)
Theorem unregister_removes r s len ms :
  registry_wf r -> poisoned_mutex r = false -> Forall mutation_fits ms ->
  mutation_fits (Register s len) ->
  exists r' r'', mutate_all (Register s len :: ms) r = Done tt r' /\
    mutate (Unregister s) r' = Done tt r'' /\
    regions r'' = filter (fun x => region_start x <> s)
                    (fold_left (fun l m => apply_mutation m l) ms (regions r)) /\
    forall addr, contains addr r'' = Done (existsb (fun x =>
      bool_decide (region_start x <> s) && in_region addr x) (regions r')) r''.
Proof.
  intros Hwf Hm Hf Hfit.
  destruct (mutate_all_ok (Register s len :: ms) r Hwf Hm ltac:(by constructor))
    as (r1 & E1 & Hwf1 & Hm1 & Hr1).
  destruct (mutate_ok (Unregister s) r1 Hwf1 Hm1 I) as (r2 & E2 & Hwf2 & _ & Hr2).
  exists r1, r2. split_and!; [done..| |].
  - rewrite Hr2, Hr1. cbn. generalize (regions r). clear.
    assert (Hx : forall l l', filter (fun x => region_start x <> s) l =
                  filter (fun x => region_start x <> s) l' ->
                filter (fun x => region_start x <> s)
                  (fold_left (fun l m => apply_mutation m l) ms l) =
                filter (fun x => region_start x <> s)
                  (fold_left (fun l m => apply_mutation m l) ms l')).
    { induction ms as [|[s' len'|s'] ms IH]; intros l l' E; cbn; [done|apply IH..].
      - by rewrite !filter_app, E.
      - rewrite !list_filter_filter.
        rewrite (list_filter_iff _ (fun x => region_start x <> s' /\ region_start x <> s))
          by (intros; tauto).
        rewrite (list_filter_iff (fun x => _ /\ _)
          (fun x => region_start x <> s' /\ region_start x <> s) l') by (intros; tauto).
        by rewrite <- !list_filter_filter, E. }
    intros l. apply Hx. rewrite filter_app. cbn. rewrite decide_False by tauto.
    by rewrite app_nil_r.
  - intros addr. rewrite contains_ok, Hr2 by done. f_equal. cbn [apply_mutation]. generalize (regions r1). clear.
    induction l as [|x l IH]; [done|]. rewrite filter_cons. cbn [existsb].
    destruct (decide (region_start x = s)) as [Hx|Hx].
    + rewrite decide_False, bool_decide_eq_false_2 by tauto. by rewrite IH.
    + rewrite decide_True, bool_decide_eq_true_2 by done. cbn. by rewrite IH.
Qed.

Lemma snapshot_reachable r : region_snapshot r <> 0 -> region_snapshot r ∈ reachable_boxes r.
Proof.
  intros E. unfold reachable_boxes. destruct (Z.eqb_spec (region_snapshot r) 0); set_solver.
Qed.

Lemma finished_cases m r :
  finished m r = r \/ finished m r = published (apply_mutation m (regions r)) r.
Proof. destruct m; cbn [finished]; [by right|]. destruct (_ =? _); [by left|by right]. Qed.

(** one full mutation, and not two, elapses between the retirement of a
    snapshot and its release: retired by any first mutation, it survives any
    second one and is freed when the third takes the mutex. *)
Theorem freed_after_one_operation r m1 m2 :
  registry_wf r -> poisoned_mutex r = false -> mutation_fits m1 -> mutation_fits m2 ->
  region_snapshot r <> 0 ->
  exists r1 r2 r3, mutate m1 r = Done tt r1 /\
    region_snapshot r1 <> region_snapshot r /\
    mutate m2 r1 = Done tt r2 /\ is_Some (heap r2 !! region_snapshot r) /\
    rotate_retired r2 = Done tt r3 /\ heap r3 !! region_snapshot r = None.
Proof.
  intros Hwf Hm Hf1 Hf2 Hnull. set (p := region_snapshot r).
  assert (E1 : finished m1 (rotated r) =
               published (apply_mutation m1 (regions (rotated r))) (rotated r)).
  { destruct m1; [done|]. cbn. fold p. by destruct (Z.eqb_spec p 0). }
  pose proof (rotated_wf _ Hwf) as Hwf0.
  pose proof (finished_wf m1 _ Hwf0 eq_refl) as (Hwf1 & _ & Hm1).
  set (r1 := finished m1 (rotated r)) in *.
  assert (Hc1 : current (tracker r1) = [p]).
  { rewrite E1. cbn. fold p. by destruct (Z.eqb_spec p 0). }
  pose proof (rotated_wf _ Hwf1) as Hwf1'.
  pose proof (finished_wf m2 _ Hwf1' eq_refl) as (Hwf2 & _ & Hm2).
  set (r2 := finished m2 (rotated r1)) in *.
  assert (Hp2 : previous (tracker r2) = [p]).
  { unfold r2. destruct (finished_cases m2 (rotated r1)) as [->| ->]; exact Hc1. }
  exists r1, r2, (rotated r2). rewrite !mutate_eq. unfold with_region_mutex.
  rewrite Hm, Hm1. cbn [poisoned_mutex rotated set_tracker set_heap]. rewrite Hm.
  rewrite !bind_eq, !rotate_ok by done. cbv beta iota.
  rewrite !mutation_body_ok by done. split_and!; [done| |done| |done|].
  - rewrite E1. intros E. apply (alloc_fresh (dom (heap (rotated r)))).
    change (alloc (dom (heap (rotated r))) = region_snapshot (rotated r)) in E. rewrite E. apply (wf_heap _ Hwf0). by apply snapshot_reachable.
  - apply elem_of_dom, (wf_heap _ Hwf2). unfold reachable_boxes. rewrite Hp2. set_solver.
  - unfold rotated. cbn [heap set_tracker set_heap]. rewrite Hp2.
    apply map_lookup_filter_None. right. intros x _. cbn. set_solver.
Qed.
End Proofs.
