(* ===== verification/RegistryRcu.v ===== *)
(** The registry under concurrency (src/src/signal/registry.rs): signal
    handlers on other threads load the published snapshot and scan it without a
    lock while mutations run. A mutation is two steps, since the rotation that
    frees the old generation happens when the mutex is taken and the swap that
    retires a snapshot happens later; a handler is two steps, the atomic load
    and the scan of what it loaded. *)

From stdpp Require Import prelude gmap.
From Stdlib Require Import ZArith Lia.
From S2P Require Import Prelude Env Toy Registry.

(** A handler between its load and its scan. [rd_overlap] counts the mutations
    its window has overlapped so far, the one in progress at the load included;
    [rd_regions] is what the snapshot held at the load. *)
Record reader := {
  rd_ptr : Z;
  rd_regions : RegionSnapshot;
  rd_overlap : nat;
}.

Record rcu := MkRcu {
  rcu_reg : Registry;
  rcu_phase : option mutation;      (* the mutation that holds the mutex *)
  rcu_readers : gmap tid reader;
}.

Definition rcu_init : rcu := MkRcu registry_init None ∅.

Inductive rcu_label :=
  | Begin (m : mutation)
  | Finish
  | Load (t : tid)
  | Scan (t : tid) (addr : Z).

Definition rcu_lens : lens rcu Registry :=
  Lens rcu_reg (fun r s => MkRcu r (rcu_phase s) (rcu_readers s)).

Definition age (rd : reader) : reader :=
  {| rd_ptr := rd_ptr rd; rd_regions := rd_regions rd; rd_overlap := S (rd_overlap rd) |}.

Section Steps.
Context `{PR : Profile} `{AL : Allocator}.

Definition rcu_enabled (l : rcu_label) (s : rcu) : Prop :=
  match l with
  | Begin m => rcu_phase s = None /\ mutation_fits m
  | Finish => is_Some (rcu_phase s)
  | Load t => rcu_readers s !! t = None /\ region_snapshot (rcu_reg s) <> 0
  | Scan t _ => is_Some (rcu_readers s !! t)
  end.

(** The answer of a [Scan] is what [contains] returns; other steps answer
    [false]. *)
Definition rcu_exec (l : rcu_label) : M rcu bool :=
  match l with
  | Begin m =>
      _ ← zoom rcu_lens rotate_retired;
      _ ← modify (fun s => MkRcu (rcu_reg s) (Some m) (age <$> rcu_readers s));
      mret false
  | Finish =>
      p ← gets rcu_phase;
      match p with
      | None => mret false
      | Some m =>
          _ ← zoom rcu_lens (mutation_body m);
          _ ← modify (fun s => MkRcu (rcu_reg s) None (rcu_readers s));
          mret false
      end
  | Load t =>
      _ ← modify (fun s => MkRcu (rcu_reg s) (rcu_phase s)
            (<[t := {| rd_ptr := region_snapshot (rcu_reg s);
                       rd_regions := regions (rcu_reg s);
                       rd_overlap := match rcu_phase s with Some _ => 1 | None => 0 end |}]> (rcu_readers s)));
      mret false
  | Scan t addr =>
      rs ← gets rcu_readers;
      match rs !! t with
      | None => mret false
      | Some rd =>
          snapshot ← zoom rcu_lens (box_deref (rd_ptr rd));
          _ ← modify (fun s => MkRcu (rcu_reg s) (rcu_phase s) (delete t (rcu_readers s)));
          mret (existsb (in_region addr) snapshot)
      end
  end.

Inductive rcu_reachable : rcu -> Prop :=
  | reach_init : rcu_reachable rcu_init
  | reach_step s l b s' :
      rcu_reachable s -> rcu_enabled l s -> rcu_exec l s = Done b s' -> rcu_reachable s'.

#[export] Instance mutation_fits_dec m : Decision (mutation_fits m).
Proof. destruct m; apply _. Defined.

#[export] Instance rcu_enabled_dec l s : Decision (rcu_enabled l s).
Proof.
  destruct l; cbn; apply _.
Defined.

(** Running a schedule whose steps are all enabled. *)
Fixpoint rcu_run (ls : list rcu_label) (s : rcu) : option rcu :=
  match ls with
  | [] => Some s
  | l :: ls =>
      if decide (rcu_enabled l s) then
        match rcu_exec l s with Done _ s' => rcu_run ls s' | Stop _ _ => None end
      else None
  end.
End Steps.

Section Proofs.
Context `{PR : Profile} `{AL : Allocator} `{ALok : !AllocatorOk}.

(** Where the snapshot of a reader can be, by the mutations it overlapped. *)
Definition reader_place (r : Registry) (busy : bool) (rd : reader) : Prop :=
  let p := rd_ptr rd in
  match rd_overlap rd with
  | 0%nat => busy = false /\ p = region_snapshot r
  | 1%nat => p = region_snapshot r \/ (busy = false /\ p ∈ current (tracker r))
  | 2%nat => p ∈ reachable_boxes r
  | _ => True
  end.

Definition reader_ok (r : Registry) (busy : bool) (rd : reader) : Prop :=
  rd_ptr rd <> 0 /\ reader_place r busy rd /\
  ((rd_overlap rd <= 2)%nat -> heap r !! rd_ptr rd = Some (rd_regions rd)).

Record rcu_inv (s : rcu) : Prop := {
  inv_wf : registry_wf (rcu_reg s);
  inv_busy : is_Some (rcu_phase s) -> current (tracker (rcu_reg s)) = [];
  inv_fits : forall m, rcu_phase s = Some m -> mutation_fits m;
  inv_readers : map_Forall (fun _ => reader_ok (rcu_reg s) (bool_decide (is_Some (rcu_phase s))))
                  (rcu_readers s);
}.

(** The boxes the rotation keeps: the published one and the current
    generation. *)
Definition rd_place_young (r : Registry) (p : Z) : Prop :=
  (p = region_snapshot r /\ p <> 0) \/ p ∈ current (tracker r).

Lemma rotated_keeps r p :
  registry_wf r -> rd_place_young r p ->
  p ∈ reachable_boxes (rotated r) /\ heap (rotated r) !! p = heap r !! p.
Proof.
  intros Hwf Hp.
  assert (Hin : p ∈ reachable_boxes (rotated r)).
  { unfold rd_place_young, rotated, reachable_boxes in *. cbn.
    destruct (Z.eqb_spec (region_snapshot r) 0); set_solver. }
  split; [done|]. apply (wf_heap _ (rotated_wf _ Hwf)) in Hin.
  apply elem_of_dom in Hin as [x Hx]. rewrite Hx.
  unfold rotated in Hx. cbn [heap set_tracker set_heap] in Hx.
  by apply map_lookup_filter_Some in Hx as [-> _].
Qed.

Lemma reader_begin r rd :
  registry_wf r -> reader_ok r false rd -> reader_ok (rotated r) true (age rd).
Proof.
  intros Hwf (Hp & Hpl & Hh). unfold reader_ok, reader_place in *.
  cbn [age rd_overlap rd_ptr rd_regions]. split; [done|].
  destruct (rd_overlap rd) as [|[|n]]; [| |split; [done|lia]].
  - destruct Hpl as [_ E].
    destruct (rotated_keeps r (rd_ptr rd) Hwf) as [_ ->]; [by left|].
    split; [by left|]. intros _. apply Hh; lia.
  - assert (Hy : rd_place_young r (rd_ptr rd)).
    { destruct Hpl as [E|[_ Hc]]; [by left|by right]. }
    destruct (rotated_keeps r _ Hwf Hy) as [Hin ->].
    split; [done|]. intros _. apply Hh; lia.
Qed.

Lemma published_keeps l r p :
  registry_wf r -> p ∈ reachable_boxes r ->
  p ∈ reachable_boxes (published l r) /\ heap (published l r) !! p = heap r !! p.
Proof.
  intros Hwf Hin. unfold published. cbn.
  assert (p <> alloc (dom (heap r))).
  { intros ->. apply (wf_heap _ Hwf) in Hin. by apply alloc_fresh in Hin. }
  split; [|by rewrite lookup_insert_ne].
  unfold reachable_boxes in *. cbn.
  destruct (Z.eqb_spec (region_snapshot r) 0); set_solver.
Qed.

Lemma reader_finish m r rd :
  registry_wf r -> reader_ok r true rd -> reader_ok (finished m r) false rd.
Proof.
  intros Hwf (Hp & Hpl & Hh). split; [done|].
  destruct (finished_cases m r) as [->| ->].
  { split; [|done]. unfold reader_place in *.
    destruct (rd_overlap rd) as [|[|[|n]]]; try done.
    - by destruct Hpl.
    - destruct Hpl as [|[]]; [by left|done]. }
  set (l := apply_mutation m (regions r)). unfold reader_place in *.
  destruct (rd_overlap rd) as [|[|[|n]]]; [by destruct Hpl| | |split; [done|lia]].
  - destruct Hpl as [E|[]]; [|done].
    destruct (published_keeps l r (rd_ptr rd) Hwf) as [_ ->].
    { rewrite E in *. by apply snapshot_reachable. }
    split; [|done]. right. split; [done|]. unfold published. cbn.
    destruct (Z.eqb_spec (region_snapshot r) 0); [congruence|set_solver].
  - destruct (published_keeps l r (rd_ptr rd) Hwf Hpl) as [? ->]. done.
Qed.

Lemma rcu_inv_init : rcu_inv rcu_init.
Proof. split; [apply registry_init_wf|by intros [? [=]]|done|by apply map_Forall_empty]. Qed.

Lemma rcu_inv_step l s b s' :
  rcu_inv s -> rcu_enabled l s -> rcu_exec l s = Done b s' -> rcu_inv s'.
Proof.
  intros [Hwf Hbusy Hfits Hrd] Hen. destruct l as [m| |t|t addr]; cbn [rcu_exec rcu_enabled] in *.
  - destruct Hen as [Hidle Hfit]. rewrite Hidle in Hrd. rewrite bind_eq.
    unfold zoom. cbn [lget rcu_lens]. rewrite rotate_ok by done. intros [= <- <-]. cbn.
    split; cbn; [by apply rotated_wf|done|by intros ? [= <-]|].
    apply map_Forall_fmap. eapply map_Forall_impl; [exact Hrd|].
    intros t rd Hok. cbn. apply reader_begin; [done|]. exact Hok.
  - destruct Hen as [m Hm]. rewrite bind_eq. cbn. rewrite Hm, bind_eq.
    unfold zoom. cbn [lget rcu_lens]. rewrite mutation_body_ok by eauto. intros [= <- <-]. cbn.
    destruct (finished_wf m (rcu_reg s) Hwf) as (Hwf' & _ & _); [by apply Hbusy; rewrite Hm|].
    split; cbn; [done|by intros []|done|].
    eapply map_Forall_impl; [exact Hrd|]. intros t rd Hok.
    apply reader_finish; [done|]. rewrite Hm in Hok. exact Hok.
  - destruct Hen as [Hn Hnull]. rewrite bind_eq. intros [= <- <-]. cbn.
    split; cbn; [done..|]. apply map_Forall_insert_2; [|done].
    split; [done|]. cbn. unfold reader_place. cbn. split.
    + destruct (rcu_phase s); cbn; [by left|done].
    + intros _. by apply snapshot_live.
  - destruct Hen as [rd Hrdt]. rewrite bind_eq. cbn. rewrite Hrdt, bind_eq.
    unfold zoom, box_deref. cbn [lget rcu_lens].
    destruct (heap (rcu_reg s) !! rd_ptr rd); [|done]. intros [= <- <-].
    split; cbn; [done..|]. by apply map_Forall_delete.
Qed.

Lemma rcu_reachable_inv s : rcu_reachable s -> rcu_inv s.
Proof. induction 1; [apply rcu_inv_init|by eapply rcu_inv_step]. Qed.

Lemma scan_ok s t rd addr :
  rcu_inv s -> rcu_readers s !! t = Some rd -> (rd_overlap rd <= 2)%nat ->
  exists s', rcu_exec (Scan t addr) s = Done (existsb (in_region addr) (rd_regions rd)) s'.
Proof.
  intros [_ _ _ Hrd] Ht Hov. destruct (Hrd _ _ Ht) as (_ & _ & Hh).
  cbn [rcu_exec]. rewrite bind_eq. cbn. rewrite Ht, bind_eq.
  unfold zoom, box_deref. cbn [lget rcu_lens]. rewrite Hh by done. by eexists.
Qed.

(** C8 (safety): however handlers and mutations interleave, a handler whose window (from
    its load of the pointer to its scan) overlaps at most two mutations scans
    a snapshot that is still allocated, and its answer is that of the regions
    published when it loaded the pointer. A mutation itself never frees a box
    twice or touches a freed one. *)
Theorem handler_grace_period s :
  rcu_reachable s ->
  (forall t rd addr, rcu_readers s !! t = Some rd -> (rd_overlap rd <= 2)%nat ->
     exists s', rcu_exec (Scan t addr) s =
       Done (existsb (in_region addr) (rd_regions rd)) s') /\
  (forall m, rcu_enabled (Begin m) s -> exists s', rcu_exec (Begin m) s = Done false s') /\
  (rcu_enabled Finish s -> exists s', rcu_exec Finish s = Done false s').
Proof.
  intros Hinv%rcu_reachable_inv. split_and!.
  - intros t rd addr. by apply scan_ok.
  - intros m _. destruct Hinv as [Hwf _ _ _]. cbn [rcu_exec]. rewrite bind_eq.
    unfold zoom. cbn [lget rcu_lens]. rewrite rotate_ok by done. by eexists.
  - intros [m Hm]. destruct Hinv as [Hwf _ Hfits _]. cbn [rcu_exec]. rewrite bind_eq. cbn.
    rewrite Hm, bind_eq. unfold zoom. cbn [lget rcu_lens].
    rewrite mutation_body_ok by eauto. by eexists.
Qed.
End Proofs.

Lemma rcu_run_reachable `{PR : Profile} `{AL : Allocator} ls s s' :
  rcu_reachable s -> rcu_run ls s = Some s' -> rcu_reachable s'.
Proof.
  revert s. induction ls as [|l ls IH]; intros s Hs; cbn; [by intros [= <-]|].
  destruct (decide _) as [Hen|]; [|done]. destruct (rcu_exec l s) as [b s1|] eqn:E; [|done].
  apply IH. by eapply reach_step.
Qed.

(** Four regions are registered; handler 7 loads during the second call, the
    third runs to its end and the fourth has taken the mutex. *)
Definition uaf_schedule : list rcu_label :=
  let R := fun a => Register a 4096 in
  [Begin (R 4096); Finish; Begin (R 16384); Load 7; Finish;
   Begin (R 32768); Finish; Begin (R 65536)].

(** C9 (error): the bound of two overlapping mutations is tight: with three, of which only
      one ran entirely after the snapshot was retired, a handler reads a freed
      snapshot. *)
Theorem handler_use_after_free :
  exists s rd, @rcu_reachable debug toy_allocator s /\
    rcu_run (PR := debug) (AL := toy_allocator) uaf_schedule rcu_init = Some s /\
    rcu_readers s !! 7 = Some rd /\ rd_overlap rd = 3%nat /\
    @rcu_exec debug toy_allocator (Scan 7 4096) s = Stop StopUB s.
Proof.
  destruct (rcu_run (PR := debug) (AL := toy_allocator) uaf_schedule rcu_init) as [s|] eqn:E;
    [|by vm_compute in E].
  vm_compute in E. injection E as <-. do 2 eexists. split; [|split; [done|]].
  - by apply (rcu_run_reachable uaf_schedule rcu_init); [constructor|vm_compute].
  - by vm_compute.
Qed.
