(* ===== verification/Signal.v ===== *)
(** The signal layer: src/src/signal/thread_state.rs, src/src/signal/handler.rs,
    src/src/signal/mod.rs and the C shim csrc/sigsetjmp_shim.c it calls.

    [proc] is the state of the process. A closure given to a protected call is
    a [prog]: a tree of byte accesses, possible panics and nested protected
    calls, so that a SIGBUS can strike at any access. [exec] runs it on the
    machinery of the crate (dispositions, pthread keys, boxed thread states,
    jump buffers); [spec_exec] says, without that machinery, what the caller is
    meant to see, and the theorems relate the two. *)

From stdpp Require Import prelude gmap.
From Stdlib Require Import ZArith Lia.
From S2P Require Import Prelude Errors Env Registry.

(** * State *)

(** [std::sync::Once]. *)
Inductive once := OnceNew | OncePoisoned | OnceDone.

Inductive disposition := SigDfl | SigbusHandler.

(** A [sigjmp_buf] that [sigsetjmp] filled holds the checkpoint it took; the
    buffer starts zeroed. *)
Definition SigJmpBuf := option nat.
Definition SigJmpBuf_new : SigJmpBuf := None.

Record ThreadState := {
  jmp_buf : SigJmpBuf;
  in_protected : bool;
  fault_addr : Z;
}.

Definition ThreadState_new : ThreadState :=
  {| jmp_buf := SigJmpBuf_new; in_protected := false; fault_addr := 0 |}.

(** [p_states] holds the boxed thread states, [p_key] is [THREAD_STATE_KEY],
    [p_frames] counts the checkpoints taken so far. *)
Record proc (K T : Type) := MkProc {
  p_os : K;
  p_env : T;
  p_registry : Registry;
  p_disposition : disposition;
  p_handler_init : once;
  p_key_init : once;
  p_key : Z;
  p_states : gmap Z ThreadState;
  p_frames : nat;
}.
Arguments MkProc {K T}.
Arguments p_os {K T}.
Arguments p_env {K T}.
Arguments p_registry {K T}.
Arguments p_disposition {K T}.
Arguments p_handler_init {K T}.
Arguments p_key_init {K T}.
Arguments p_key {K T}.
Arguments p_states {K T}.
Arguments p_frames {K T}.

Section Setters.
Context {K T : Type}.
Implicit Types p : proc K T.

Definition set_os k p : proc K T :=
  MkProc k (p_env p) (p_registry p) (p_disposition p) (p_handler_init p) (p_key_init p)
    (p_key p) (p_states p) (p_frames p).
Definition set_env e p : proc K T :=
  MkProc (p_os p) e (p_registry p) (p_disposition p) (p_handler_init p) (p_key_init p)
    (p_key p) (p_states p) (p_frames p).
Definition set_registry r p : proc K T :=
  MkProc (p_os p) (p_env p) r (p_disposition p) (p_handler_init p) (p_key_init p)
    (p_key p) (p_states p) (p_frames p).
Definition set_disposition d p : proc K T :=
  MkProc (p_os p) (p_env p) (p_registry p) d (p_handler_init p) (p_key_init p)
    (p_key p) (p_states p) (p_frames p).
Definition set_handler_init o p : proc K T :=
  MkProc (p_os p) (p_env p) (p_registry p) (p_disposition p) o (p_key_init p)
    (p_key p) (p_states p) (p_frames p).
Definition set_key_init o p : proc K T :=
  MkProc (p_os p) (p_env p) (p_registry p) (p_disposition p) (p_handler_init p) o
    (p_key p) (p_states p) (p_frames p).
Definition set_key k p : proc K T :=
  MkProc (p_os p) (p_env p) (p_registry p) (p_disposition p) (p_handler_init p)
    (p_key_init p) k (p_states p) (p_frames p).
Definition set_states ss p : proc K T :=
  MkProc (p_os p) (p_env p) (p_registry p) (p_disposition p) (p_handler_init p)
    (p_key_init p) (p_key p) ss (p_frames p).
Definition set_frames n p : proc K T :=
  MkProc (p_os p) (p_env p) (p_registry p) (p_disposition p) (p_handler_init p)
    (p_key_init p) (p_key p) (p_states p) n.

Definition os_lens : lens (proc K T) K := Lens p_os set_os.
Definition env_lens : lens (proc K T) T := Lens p_env set_env.
Definition registry_lens : lens (proc K T) Registry := Lens p_registry set_registry.
Definition handler_init_lens : lens (proc K T) once := Lens p_handler_init set_handler_init.
Definition key_init_lens : lens (proc K T) once := Lens p_key_init set_key_init.
End Setters.

(** [ONCE.call_once(body)]. *)
Definition call_once {S} (l : lens S once) (body : M S unit) : M S unit := fun s =>
  match lget l s with
  | OnceDone => Done tt s
  | OncePoisoned => Stop StopPanic s
  | OnceNew =>
      match body s with
      | Done _ s' => Done tt (lset l OnceDone s')
      | Stop StopPanic s' => Stop StopPanic (lset l OncePoisoned s')
      | o => o
      end
  end.

(** * Closures *)

(** What a closure does under protection. [PProtect q k] is a protected call
    made from inside the closure (reading another mapping, say), whose result
    the rest [k] of the closure receives. *)
Inductive prog (R : Type) : Type :=
  | PRet (r : R)
  | PLoad (addr : Z) (k : Z -> prog R)
  | PStore (addr b : Z) (k : prog R)
  | PPanic
  | PProtect {A : Type} (q : prog A) (k : result A Z -> prog R).
Arguments PRet {R} r.
Arguments PLoad {R} addr k.
Arguments PStore {R} addr b k.
Arguments PPanic {R}.
Arguments PProtect {R A} q k.

(** A step of a closure ends normally, or control is on its way to the
    checkpoint in a jump buffer. *)
Inductive flow (A : Type) :=
  | Normal (a : A)
  | Jumping (env : SigJmpBuf).
Arguments Normal {A} a.
Arguments Jumping {A} env.

Section Machinery.
Context `{PR : Profile} `{AL : Allocator} {K T : Type} `{VMK : !VM K} `{PE : !ProcEnv T}.
Local Abbreviation P := (M (proc K T)).

(** Dereferencing a [*mut ThreadState]. *)
Definition state_read (ptr : Z) : P ThreadState := fun p =>
  match p_states p !! ptr with Some s => Done s p | None => Stop StopUB p end.

Definition state_write (ptr : Z) (f : ThreadState -> ThreadState) : P unit := fun p =>
  match p_states p !! ptr with
  | Some s => Done tt (set_states (<[ptr := f s]> (p_states p)) p)
  | None => Stop StopUB p
  end.

Definition set_in_protected (b : bool) (s : ThreadState) : ThreadState :=
  {| jmp_buf := jmp_buf s; in_protected := b; fault_addr := fault_addr s |}.
Definition set_jmp_buf (j : SigJmpBuf) (s : ThreadState) : ThreadState :=
  {| jmp_buf := j; in_protected := in_protected s; fault_addr := fault_addr s |}.
Definition set_fault (a : Z) (s : ThreadState) : ThreadState :=
  {| jmp_buf := jmp_buf s; in_protected := false; fault_addr := a |}.

(** ** signal::thread_state *)

Definition destroy_thread_state (ptr : Z) : P unit := fun p =>
  if ptr =? 0 then Done tt p
  else match p_states p !! ptr with
       | Some _ => Done tt (set_states (delete ptr (p_states p)) p)
       | None => Stop StopUB p
       end.

Definition key : P Z := gets p_key.

Definition init_key : P unit :=
  r ← zoom env_lens (call pthread_key_create);
  if negb (r.1 =? 0) then panic else modify (set_key (as_u32 r.2)).

Definition get_or_init (t : tid) : P Z :=
  _ ← call_once key_init_lens init_key;
  k ← key;
  ptr ← gets (fun p => pthread_getspecific (p_env p) t k);
  if negb (ptr =? 0) then mret ptr
  else
    state ← gets (fun p => alloc (dom (p_states p)));
    _ ← modify (fun p => set_states (<[state := ThreadState_new]> (p_states p)) p);
    _ ← modify (fun p => set_env (pthread_setspecific (p_env p) t k state) p);
    mret state.

(** What pthreads does when a thread ends: it runs the destructor given to
    [pthread_key_create] on a value that is not null, after setting it to
    null. *)
Definition thread_exit (t : tid) : P unit :=
  i ← gets p_key_init;
  match i with
  | OnceDone =>
      k ← key;
      ptr ← gets (fun p => pthread_getspecific (p_env p) t k);
      if ptr =? 0 then mret tt
      else
        _ ← modify (fun p => set_env (pthread_setspecific (p_env p) t k 0) p);
        destroy_thread_state ptr
  | _ => mret tt
  end.

(** ** signal::handler *)

(** [raise] under [SA_NODEFER] delivers at once, and the default action ends
    the process. *)
Definition restore_default_and_reraise {A} : P A :=
  _ ← modify (set_disposition SigDfl);
  stop (StopKilled SIGBUS).

(** The handler either dies or jumps; its value is the buffer it jumps to. *)
Definition sigbus_handler (t : tid) (fault : Z) : P SigJmpBuf :=
  k ← key;
  state_ptr ← gets (fun p => pthread_getspecific (p_env p) t k);
  if state_ptr =? 0 then restore_default_and_reraise
  else
    state ← state_read state_ptr;
    if negb (in_protected state) then restore_default_and_reraise
    else
      c ← zoom registry_lens (contains fault);
      if negb c then restore_default_and_reraise
      else
        _ ← state_write state_ptr (set_fault fault);
        mret (jmp_buf state).

Definition install : P unit :=
  call_once handler_init_lens (
    ret ← zoom env_lens (call sys_sigaction);
    if ret =? 0 then modify (set_disposition SigbusHandler) else panic).

(** Delivery of a SIGBUS to a thread. *)
Definition deliver_sigbus (t : tid) (si_addr : Z) : P SigJmpBuf :=
  d ← gets p_disposition;
  match d with
  | SigDfl => stop (StopKilled SIGBUS)
  | SigbusHandler => sigbus_handler t si_addr
  end.

(** ** signal *)

Definition install_handler : P unit := install.
Definition register_region (s len : Z) : P unit := zoom registry_lens (register s len).
Definition unregister_region (s : Z) : P unit := zoom registry_lens (unregister s).

(** [trampoline] is [extern "C"]: a panic of the closure aborts there. *)
Definition trampoline {A} (f : P (flow A)) : P (flow A) := fun p =>
  match f p with
  | Stop StopPanic p' => Stop StopAbort p'
  | o => o
  end.

(** The C shim: [sigsetjmp] takes a checkpoint (in a fresh frame) and returns
    0; a jump to that checkpoint makes it return 1. A jump elsewhere leaves
    this frame too. *)
Definition mmap_guard_protected_call {A} (env : Z) (callback : P (flow A)) :
    P (flow (Z * option A)) :=
  frame ← gets p_frames;
  _ ← modify (set_frames (S frame));
  _ ← state_write env (set_jmp_buf (Some frame));
  r ← callback;
  match r with
  | Normal a => mret (Normal (0, Some a))
  | Jumping e =>
      if bool_decide (e = Some frame) then mret (Normal (1, None)) else mret (Jumping e)
  end.

Definition with_sigbus_protection {R} (t : tid) (f : P (flow R)) : P (flow (result R Z)) :=
  _ ← install_handler;
  state ← get_or_init t;
  _ ← state_write state (set_in_protected true);
  r ← mmap_guard_protected_call state (trampoline f);
  match r with
  | Jumping e => mret (Jumping e)
  | Normal (jump_result, res) =>
      _ ← state_write state (set_in_protected false);
      if negb (jump_result =? 0) then
        s ← state_read state;
        mret (Normal (Err (fault_addr s)))
      else
        match res with Some v => mret (Normal (Ok v)) | None => panic end
  end.

(** ** Running a closure *)

Fixpoint exec {R} (t : tid) (p : prog R) : P (flow R) :=
  match p with
  | PRet r => mret (Normal r)
  | PLoad addr k =>
      a ← zoom os_lens (call (fun o => load o addr));
      match a with
      | Access b => exec t (k b)
      | BusError si_addr => e ← deliver_sigbus t si_addr; mret (Jumping e)
      | SegFault => stop (StopKilled SIGSEGV)
      end
  | PStore addr b k =>
      a ← zoom os_lens (call (fun o => store o addr b));
      match a with
      | Access _ => exec t k
      | BusError si_addr => e ← deliver_sigbus t si_addr; mret (Jumping e)
      | SegFault => stop (StopKilled SIGSEGV)
      end
  | PPanic => panic
  | PProtect q k =>
      r ← with_sigbus_protection t (exec t q);
      match r with
      | Normal v => exec t (k v)
      | Jumping e => mret (Jumping e)
      end
  end.

(** A protected call from ordinary code, where no checkpoint of an enclosing
    call exists: a jump that leaves it would enter a frame that is gone. *)
Definition protect {R} (t : tid) (p : prog R) : P (result R Z) :=
  r ← with_sigbus_protection t (exec t p);
  match r with
  | Normal v => mret v
  | Jumping _ => stop StopUB
  end.
End Machinery.

(** * What the caller is meant to see *)

(** The end of a closure: a value (with the protection still armed or not), a
    fault caught at an address, or the end of the process. *)
Inductive sres (K R : Type) :=
  | SVal (r : R) (armed : bool) (k : K)
  | SCaught (fault : Z) (k : K)
  | SDead (why : stop_reason) (k : K).
Arguments SVal {K R}.
Arguments SCaught {K R}.
Arguments SDead {K R}.

(** A panic that reaches an [extern "C"] frame. *)
Definition abort_reason (w : stop_reason) : stop_reason :=
  match w with StopPanic => StopAbort | w => w end.

Section Spec.
Context {K : Type} `{VMK : !VM K}.
(** Whether an address is in a registered region. *)
Context (covered : Z -> bool).

(** A fault is caught when the thread is armed and the address registered;
    a nested call is armed again, and leaves the enclosing one disarmed. *)
Fixpoint spec_exec {R} (p : prog R) (armed : bool) (k : K) : sres K R :=
  match p with
  | PRet r => SVal r armed k
  | PLoad addr kont =>
      match load k addr with
      | (k', Access b) => spec_exec (kont b) armed k'
      | (k', BusError a) => if armed && covered a then SCaught a k' else SDead (StopKilled SIGBUS) k'
      | (k', SegFault) => SDead (StopKilled SIGSEGV) k'
      end
  | PStore addr b kont =>
      match store k addr b with
      | (k', Access _) => spec_exec kont armed k'
      | (k', BusError a) => if armed && covered a then SCaught a k' else SDead (StopKilled SIGBUS) k'
      | (k', SegFault) => SDead (StopKilled SIGSEGV) k'
      end
  | PPanic => SDead StopPanic k
  | PProtect q kont =>
      match spec_exec q true k with
      | SVal v _ k' => spec_exec (kont (Ok v)) false k'
      | SCaught a k' => spec_exec (kont (Err a)) false k'
      | SDead w k' => SDead (abort_reason w) k'
      end
  end.
End Spec.

(** * The machinery implements it *)

Section Simulation.
Context `{PR : Profile} `{AL : Allocator} {K T : Type} `{VMK : !VM K} `{PE : !ProcEnv T}.
Context `{ALok : !AllocatorOk}.
Context (t : tid) (ptr : Z).
Implicit Types p : proc K T.

(** The process after the first protected call of thread [t], whose state is
    the box [ptr]. *)
Record ready p : Prop := {
  ready_handler : p_handler_init p = OnceDone;
  ready_disposition : p_disposition p = SigbusHandler;
  ready_key : p_key_init p = OnceDone;
  ready_ptr : ptr <> 0 /\ pthread_getspecific (p_env p) t (p_key p) = ptr;
  ready_registry : registry_wf (p_registry p);
}.

Definition covered p (a : Z) : bool := existsb (in_region a) (regions (p_registry p)).

(** All that a closure changes. *)
Definition upd p (k : K) (st : ThreadState) (n : nat) : proc K T :=
  MkProc k (p_env p) (p_registry p) (p_disposition p) (p_handler_init p) (p_key_init p)
    (p_key p) (<[ptr := st]> (p_states p)) n.

Lemma ready_upd p k st n : ready p -> ready (upd p k st n).
Proof. by intros []. Qed.

Lemma upd_upd p k st n k' st' n' : upd (upd p k st n) k' st' n' = upd p k' st' n'.
Proof. unfold upd. cbn. by rewrite insert_insert_eq. Qed.

Lemma upd_id p st : p_states p !! ptr = Some st -> upd p (p_os p) st (p_frames p) = p.
Proof. intros H. unfold upd. rewrite insert_id by done. by destruct p. Qed.

Lemma set_os_upd p k st :
  p_states p !! ptr = Some st -> set_os k p = upd p k st (p_frames p).
Proof. intros H. unfold upd, set_os. by rewrite insert_id. Qed.

Lemma state_write_ok p st f :
  p_states p !! ptr = Some st -> state_write ptr f p = Done tt (upd p (p_os p) (f st) (p_frames p)).
Proof. intros H. unfold state_write. by rewrite H. Qed.

(** The handler, on every branch. *)
Lemma deliver_ok p st a :
  ready p -> p_states p !! ptr = Some st ->
  deliver_sigbus t a p =
    if in_protected st && covered p a
    then Done (jmp_buf st) (upd p (p_os p) (set_fault a st) (p_frames p))
    else Stop (StopKilled SIGBUS) (set_disposition SigDfl p).
Proof.
  intros [_ Hd _ [Hp Hg] Hr] Hst. unfold deliver_sigbus. rewrite bind_eq. cbn. rewrite Hd.
  unfold sigbus_handler. rewrite bind_eq. cbn. rewrite bind_eq. cbn. rewrite Hg.
  destruct (Z.eqb_spec ptr 0) as [|_]; [done|]. rewrite bind_eq. unfold state_read. rewrite Hst.
  destruct (in_protected st); [|done]. cbn [negb andb]. rewrite bind_eq.
  unfold zoom. cbn [lget registry_lens]. rewrite contains_ok by done.
  unfold covered. cbn [lset registry_lens].
  replace (set_registry (p_registry p) p) with p by by destruct p.
  destruct (existsb _ _); [|done]. cbn [negb]. rewrite bind_eq.
  by rewrite (state_write_ok p st).
Qed.

(** The statement of the simulation for a closure that runs under the
    checkpoint [f] (if the thread is armed). *)
Definition sim {R} p (st : ThreadState) (f : nat) (s : sres K R)
    (o : outcome (proc K T) (flow R)) : Prop :=
  match s with
  | SVal r armed' k' => exists st' n, o = Done (Normal r) (upd p k' st' n) /\
      in_protected st' = armed' /\ (armed' = true -> jmp_buf st' = Some f) /\
      (p_frames p <= n)%nat
  | SCaught a k' => exists st' n, o = Done (Jumping (Some f)) (upd p k' st' n) /\
      fault_addr st' = a /\ (p_frames p <= n)%nat
  | SDead w k' => exists p', o = Stop w p' /\ p_os p' = k'
  end.

Lemma sim_upd {R} p k st st0 n f (s : sres K R) o :
  (p_frames p <= n)%nat ->
  sim (upd p k st n) st0 f s o -> sim p st0 f s o.
Proof.
  intros Hn. destruct s; cbn; [| |done].
  - intros (st' & n' & -> & ? & ? & ?). rewrite upd_upd. exists st', n'. split_and!; done || lia.
  - intros (st' & n' & -> & ? & ?). rewrite upd_upd. exists st', n'. split_and!; done || lia.
Qed.

(** A protected call, given what its body does. *)
Lemma with_protection_sim {R} p st (s : sres K R) (body : M (proc K T) (flow R)) :
  ready p -> p_states p !! ptr = Some st ->
  (forall p1 st1 f, ready p1 -> p_states p1 !! ptr = Some st1 ->
     p_os p1 = p_os p -> p_registry p1 = p_registry p ->
     in_protected st1 = true -> jmp_buf st1 = Some f -> (f < p_frames p1)%nat ->
     sim p1 st1 f s (body p1)) ->
  match s with
  | SVal v _ k' => exists st' n,
      with_sigbus_protection t body p = Done (Normal (Ok v)) (upd p k' st' n) /\
      in_protected st' = false /\ (p_frames p <= n)%nat
  | SCaught a k' => exists st' n,
      with_sigbus_protection t body p = Done (Normal (Err a)) (upd p k' st' n) /\
      in_protected st' = false /\ (p_frames p <= n)%nat
  | SDead w k' => exists p',
      with_sigbus_protection t body p = Stop (abort_reason w) p' /\ p_os p' = k'
  end.
Proof.
  intros Hr Hst Hbody. pose proof Hr as [Hh Hd Hk [Hp Hg] Hreg].
  unfold with_sigbus_protection. rewrite bind_eq.
  assert (install_handler p = Done tt p) as ->.
  { unfold install_handler, install, call_once. cbn. by rewrite Hh. }
  cbv beta iota. rewrite bind_eq.
  assert (get_or_init t p = Done ptr p) as ->.
  { unfold get_or_init. rewrite bind_eq. unfold call_once at 1. cbn [lget key_init_lens].
    rewrite Hk. rewrite bind_eq. cbn. rewrite bind_eq. cbn. rewrite Hg.
    by destruct (Z.eqb_spec ptr 0). }
  cbv beta iota. rewrite bind_eq, (state_write_ok p st) by done. cbv beta iota.
  set (st0 := set_in_protected true st). set (p0 := upd p (p_os p) st0 (p_frames p)).
  assert (Hst0 : p_states p0 !! ptr = Some st0) by apply lookup_insert_eq.
  rewrite bind_eq. unfold mmap_guard_protected_call. rewrite bind_eq. cbn.
  rewrite bind_eq. cbn. rewrite bind_eq.
  rewrite (state_write_ok _ st0) by apply lookup_insert_eq. cbv beta iota.
  set (st1 := set_jmp_buf (Some (p_frames p)) st0).
  set (p1 := upd _ _ st1 _).
  assert (E1 : p1 = upd p (p_os p) st1 (S (p_frames p)))
    by exact (upd_upd p (p_os p) st0 (S (p_frames p)) (p_os p) st1 (S (p_frames p))).
  clearbody p1. subst p1. set (p1 := upd p (p_os p) st1 (S (p_frames p))).
  specialize (Hbody p1 st1 (p_frames p)). rewrite bind_eq. unfold trampoline.
  assert (Hs : sim p1 st1 (p_frames p) s (body p1)).
  { apply Hbody; [by apply ready_upd|apply lookup_insert_eq|done..|cbn; lia]. }
  destruct s as [v armed k'|a k'|w k']; cbn in Hs.
  - destruct Hs as (st' & n & -> & _ & _ & Hn). cbn.
    rewrite bind_eq. rewrite (state_write_ok _ st') by apply lookup_insert_eq. cbn.
    unfold p1. rewrite !upd_upd. do 2 eexists. split_and!; [done..|lia].
  - destruct Hs as (st' & n & -> & Ha & Hn). cbn.
    rewrite bool_decide_eq_true_2 by done. cbn.
    rewrite bind_eq. rewrite (state_write_ok _ st') by apply lookup_insert_eq. cbn.
    rewrite bind_eq. unfold state_read. cbn. rewrite lookup_insert_eq. cbn. rewrite Ha.
    unfold p1. rewrite !upd_upd. do 2 eexists. split_and!; [done..|lia].
  - destruct Hs as (p' & -> & Hos). by exists p'; destruct w.
Qed.

(** After an access the kernel state has moved on; the rest is unchanged. *)
Lemma access_sim {R A} p st f (k' : K) (a : access A) (cont : A -> M (proc K T) (flow R))
    (scont : A -> sres K R) :
  ready p -> p_states p !! ptr = Some st ->
  (in_protected st = true -> jmp_buf st = Some f) ->
  (forall x, sim (set_os k' p) st f (scont x) (cont x (set_os k' p))) ->
  sim p st f
    (match a with
     | Access x => scont x
     | BusError b => if in_protected st && covered p b then SCaught b k'
                     else SDead (StopKilled SIGBUS) k'
     | SegFault => SDead (StopKilled SIGSEGV) k'
     end)
    (match a with
     | Access x => cont x
     | BusError b => e ← deliver_sigbus t b; mret (Jumping e)
     | SegFault => stop (StopKilled SIGSEGV)
     end (set_os k' p)).
Proof.
  intros Hr Hst Hj Hc. rewrite (set_os_upd p k' st) in * by done.
  destruct a as [x|b|].
  - eapply sim_upd, Hc; [done].
  - rewrite bind_eq, (deliver_ok _ st) by (done || by apply ready_upd || apply lookup_insert_eq).
    change (covered (upd p k' st (p_frames p)) b) with (covered p b).
    destruct (in_protected st && covered p b) eqn:E; [|by eexists].
    apply andb_prop in E as [Hin _]. rewrite Hj by done. cbn. rewrite upd_upd. by do 2 eexists.
  - by eexists.
Qed.

Lemma exec_sim {R} (q : prog R) p st f :
  ready p -> p_states p !! ptr = Some st ->
  (in_protected st = true -> jmp_buf st = Some f) -> (f < p_frames p)%nat ->
  sim p st f (spec_exec (covered p) q (in_protected st) (p_os p)) (exec t q p).
Proof.
  revert p st f. induction q as [R r|R addr k IH|R addr b k IH|R|R A q IHq k IHk];
    intros p st f Hr Hst Hj Hf; cbn [exec spec_exec].
  - exists st, (p_frames p). by rewrite upd_id.
  - rewrite bind_eq. unfold zoom, call. cbn [lget lset os_lens].
    destruct (load (p_os p) addr) as [k' a]. cbv beta iota.
    apply (access_sim p st f k' a (fun b => exec t (k b))
             (fun b => spec_exec (covered p) (k b) (in_protected st) k')); [done..|].
    intros x. rewrite (set_os_upd p k' st) by done.
    apply (IH x (upd p k' st (p_frames p))); [by apply ready_upd|apply lookup_insert_eq|done..].
  - rewrite bind_eq. unfold zoom, call. cbn [lget lset os_lens].
    destruct (store (p_os p) addr b) as [k' a]. cbv beta iota.
    apply (access_sim p st f k' a (fun _ => exec t k)
             (fun _ => spec_exec (covered p) k (in_protected st) k')); [done..|].
    intros x. rewrite (set_os_upd p k' st) by done.
    apply (IH (upd p k' st (p_frames p))); [by apply ready_upd|apply lookup_insert_eq|done..].
  - by eexists.
  - rewrite bind_eq.
    pose proof (with_protection_sim p st (spec_exec (covered p) q true (p_os p)) (exec t q)
      Hr Hst) as Hq.
    assert (Hrest : forall v k' st' n, in_protected st' = false -> (p_frames p <= n)%nat ->
      sim p st f (spec_exec (covered p) (k v) false k') (exec t (k v) (upd p k' st' n))).
    { intros v k' st' n Hoff Hn. apply (sim_upd p k' st' st n); [done|].
      pose proof (IHk v (upd p k' st' n) st' f) as IH. rewrite Hoff in IH.
      apply IH; [by apply ready_upd|apply lookup_insert_eq|done|cbn; lia]. }
    lapply Hq; clear Hq; [intros Hq|].
    + destruct (spec_exec (covered p) q true (p_os p)) as [v armed k'|a k'|w k'].
      * destruct Hq as (st' & n & -> & Hoff & Hn). by apply Hrest.
      * destruct Hq as (st' & n & -> & Hoff & Hn). by apply Hrest.
      * destruct Hq as (p' & -> & Hos). by exists p'.
    + intros p1 st1 f1 Hr1 Hst1 Hos Hreg Hin Hj1 Hf1.
      assert (spec_exec (covered p) q true (p_os p) =
              spec_exec (covered p1) q (in_protected st1) (p_os p1)) as ->
        by (unfold covered; by rewrite Hin, Hos, Hreg).
      by apply IHq.
Qed.

(** A top-level protected call of a thread whose state exists. *)
Lemma protect_sim {R} (q : prog R) p st :
  ready p -> p_states p !! ptr = Some st ->
  match spec_exec (covered p) q true (p_os p) with
  | SVal v _ k' => exists st' n,
      protect t q p = Done (Ok v) (upd p k' st' n) /\ in_protected st' = false
  | SCaught a k' => exists st' n,
      protect t q p = Done (Err a) (upd p k' st' n) /\ in_protected st' = false
  | SDead w k' => exists p', protect t q p = Stop (abort_reason w) p' /\ p_os p' = k'
  end.
Proof.
  intros Hr Hst. unfold protect. rewrite bind_eq.
  pose proof (with_protection_sim p st (spec_exec (covered p) q true (p_os p)) (exec t q)
    Hr Hst) as Hq.
  lapply Hq; clear Hq; [intros Hq|].
  - destruct (spec_exec _ _ _ _) as [v armed k'|a k'|w k'].
    + destruct Hq as (st' & n & -> & ? & ?). by do 2 eexists.
    + destruct Hq as (st' & n & -> & ? & ?). by do 2 eexists.
    + destruct Hq as (p' & -> & ?). by eexists.
  - intros p1 st1 f1 Hr1 Hst1 Hos Hreg Hin Hj1 Hf1.
    assert (spec_exec (covered p) q true (p_os p) =
            spec_exec (covered p1) q (in_protected st1) (p_os p1)) as ->
      by (unfold covered; by rewrite Hin, Hos, Hreg).
    by apply exec_sim.
Qed.
End Simulation.

(** * First use *)

Section Process.
Context `{PR : Profile} `{AL : Allocator} {K T : Type} `{VMK : !VM K} `{PE : !ProcEnv T}.
Context `{ALok : !AllocatorOk} `{PEok : !ProcEnvOk T}.
Implicit Types p : proc K T.

(** The pointer and the state of a thread, as [pthread_getspecific] and the
    heap have them. *)
Definition thread_ptr p (t : tid) : Z :=
  match p_key_init p with
  | OnceDone => pthread_getspecific (p_env p) t (p_key p)
  | _ => 0
  end.

Definition thread_state p (t : tid) : option ThreadState :=
  if thread_ptr p t =? 0 then None else p_states p !! thread_ptr p t.

(** The process-wide environment once the handler is installed. *)
Definition env_installed p : T :=
  match p_handler_init p with OnceNew => fst (sys_sigaction (p_env p)) | _ => p_env p end.

(** A process the crate can run in: its initializers have run or will
    succeed, and the threads' states are boxes of their own. *)
Record proc_ok p : Prop := {
  ok_registry : registry_wf (p_registry p) /\ poisoned_mutex (p_registry p) = false;
  ok_handler : (p_handler_init p = OnceDone /\ p_disposition p = SigbusHandler) \/
    (p_handler_init p = OnceNew /\ snd (sys_sigaction (p_env p)) = 0);
  ok_key : match p_key_init p with
    | OnceDone => key_created (p_env p) (p_key p) /\ p_handler_init p = OnceDone
    | OnceNew => fst (snd (pthread_key_create (env_installed p))) = 0
    | OncePoisoned => False
    end;
  ok_states : forall t, thread_ptr p t <> 0 -> is_Some (p_states p !! thread_ptr p t);
  ok_distinct : forall t t', thread_ptr p t <> 0 -> thread_ptr p t = thread_ptr p t' -> t = t';
}.

(** A process in which nothing of the crate has run yet. *)
Definition proc_init (k : K) (e : T) : proc K T :=
  MkProc k e registry_init SigDfl OnceNew OnceNew 0 ∅ 0.

Lemma proc_init_ok k e :
  snd (sys_sigaction e) = 0 ->
  fst (snd (pthread_key_create (fst (sys_sigaction e)))) = 0 ->
  proc_ok (proc_init k e).
Proof.
  intros Hs Hk. split; cbn; [by split; [apply registry_init_wf|]|by right|done|done|done].
Qed.

Definition installed p : proc K T :=
  MkProc (p_os p) (env_installed p) (p_registry p) SigbusHandler OnceDone (p_key_init p)
    (p_key p) (p_states p) (p_frames p).

Lemma installed_ptr p t : thread_ptr (installed p) t = thread_ptr p t.
Proof.
  unfold thread_ptr, installed, env_installed. cbn. destruct (p_key_init p); [done..|].
  destruct (p_handler_init p); [|done..].
  destruct (sys_sigaction (p_env p)) as [e r] eqn:E. by apply sigaction_keys in E as [_ ->].
Qed.

Lemma install_ok p : proc_ok p -> install_handler p = Done tt (installed p).
Proof.
  intros [_ Hh _ _ _]. unfold install_handler, install, call_once, installed, env_installed.
  cbn [lget lset handler_init_lens]. destruct Hh as [[Hi Hd]|[Hi Hs]]; rewrite Hi.
  - destruct p; cbn in *. by subst.
  - rewrite bind_eq. unfold zoom, call. cbn [lget lset env_lens].
    destruct (sys_sigaction (p_env p)) as [e r]. cbn in Hs. by subst.
Qed.

Lemma installed_ok p : proc_ok p -> proc_ok (installed p).
Proof.
  intros [Hr Hh Hk Hs Hd]. split; [done|by left| | |].
  - unfold env_installed in Hk. cbn. destruct (p_key_init p); [done..|].
    unfold env_installed. destruct Hk as [Hk ->]. done.
  - intros t. rewrite installed_ptr. apply Hs.
  - intros t t'. rewrite !installed_ptr. apply Hd.
Qed.

(** What one thread's call may change for the others: nothing. *)
Definition only_thread (t : tid) p p' : Prop :=
  p_registry p' = p_registry p /\
  forall t', t' <> t -> thread_ptr p' t' = thread_ptr p t' /\
    thread_state p' t' = thread_state p t'.

Lemma only_thread_trans t p1 p2 p3 :
  only_thread t p1 p2 -> only_thread t p2 p3 -> only_thread t p1 p3.
Proof.
  intros [H1 H2] [H3 H4]. split; [congruence|]. intros t' Hne.
  destruct (H2 t' Hne) as [<- <-]. by apply H4.
Qed.

Lemma installed_only t p : only_thread t p (installed p).
Proof. split; [done|]. intros t' _. unfold thread_state. by rewrite installed_ptr. Qed.

Definition key_inited p : Prop := p_key_init p = OnceDone.

(** [get_or_init] on a process whose key exists. *)
Lemma get_or_init_keyed t p :
  proc_ok p -> p_handler_init p = OnceDone -> key_inited p ->
  exists ptr p', get_or_init t p = Done ptr p' /\ proc_ok p' /\ ready t ptr p' /\
    is_Some (p_states p' !! ptr) /\ p_os p' = p_os p /\ only_thread t p p' /\
    dom (p_states p') = {[ptr]} ∪ dom (p_states p) /\
    (thread_ptr p t <> 0 -> ptr = thread_ptr p t).
Proof.
  intros Hok Hh Hk. pose proof Hok as [[Hr Hm] Hhd Hkey Hst Hdist].
  unfold key_inited in Hk. rewrite Hk in Hkey. destruct Hkey as [Hkey _].
  destruct Hhd as [[_ Hd]|[Hn _]]; [|congruence].
  unfold get_or_init. rewrite bind_eq. unfold call_once at 1. cbn [lget key_init_lens].
  rewrite Hk. rewrite bind_eq. cbn. rewrite bind_eq. cbn.
  assert (Hptr : forall t', thread_ptr p t' = pthread_getspecific (p_env p) t' (p_key p))
    by (intros t'; unfold thread_ptr; by rewrite Hk).
  rewrite <- Hptr. destruct (Z.eqb_spec (thread_ptr p t) 0) as [E|E]; cbn [negb].
  - rewrite bind_eq. cbn. rewrite bind_eq. cbn. rewrite bind_eq. cbn.
    pose proof (alloc_pos (dom (p_states p))) as Hpos.
    pose proof (alloc_fresh (dom (p_states p))) as Hfr.
    set (q := alloc (dom (p_states p))) in *.
    set (p' := set_env _ _).
    assert (Hp' : forall t', thread_ptr p' t' = if decide (t' = t) then q else thread_ptr p t').
    { intros t'. unfold thread_ptr, p'. cbn. rewrite Hk. case_decide as Ht.
      - subst. by rewrite getspecific_set_eq.
      - rewrite getspecific_set_ne by (left; congruence). done. }
    assert (Hq : forall t', thread_ptr p t' <> 0 -> thread_ptr p t' <> q).
    { intros t' Ht' Eq. apply Hfr. rewrite <- Eq. by apply elem_of_dom, Hst. }
    exists q, p'. split; [done|]. split; [|split; [|split; [|split; [done|split]]]].
    + split; cbn; [done|by left| | |].
      * rewrite Hk. split; [by apply setspecific_created|done].
      * intros t'. rewrite Hp'. case_decide; [rewrite lookup_insert_eq; by eexists|].
        intros Hne. rewrite lookup_insert_ne by (intros Eq; by eapply Hq). by apply Hst.
      * intros t1 t2. rewrite !Hp'. do 2 case_decide; subst; try done.
        -- intros _ Eq. exfalso. apply (Hq t2); [lia|done].
        -- intros Hne Eq. exfalso. by apply (Hq t1).
        -- apply Hdist.
    + split; [done..| |done]. split; [lia|].
      specialize (Hp' t). rewrite decide_True in Hp' by done.
      unfold thread_ptr in Hp'. cbn in *. by rewrite Hk in Hp'.
    + cbn. rewrite lookup_insert_eq. by eexists.
    + split; [done|]. intros t' Hne. unfold thread_state. rewrite Hp'.
      rewrite decide_False by done. split; [done|]. destruct (Z.eqb_spec (thread_ptr p t') 0); [done|].
      cbn. rewrite lookup_insert_ne; [done|]. intros Eq. by apply (Hq t').
    + split; [apply dom_insert_L|done].
  - exists (thread_ptr p t), p. split; [done|]. split; [done|]. split; [|split; [by apply Hst|]].
    + split; [done..| |done]. split; [done|]. by rewrite Hptr.
    + split_and!; [done..| |done]. destruct (Hst t E) as [s Es]. apply elem_of_dom_2 in Es. set_solver.
Qed.

Lemma init_key_ok p :
  proc_ok p -> p_handler_init p = OnceDone ->
  exists p1, call_once key_init_lens init_key p = Done tt p1 /\ proc_ok p1 /\
    key_inited p1 /\ p_handler_init p1 = OnceDone /\ p_os p1 = p_os p /\
    (forall t, only_thread t p p1) /\ p_states p1 = p_states p /\
    (forall t, thread_ptr p1 t = thread_ptr p t).
Proof.
  intros Hok Hh. pose proof Hok as [Hr Hhd Hkey Hst Hdist]. unfold call_once.
  cbn [lget key_init_lens]. destruct (p_key_init p) eqn:Hk; [|done|by exists p].
  unfold env_installed in Hkey. rewrite Hh in Hkey.
  unfold init_key. rewrite bind_eq. unfold zoom, call. cbn [lget lset env_lens].
  destruct (pthread_key_create (p_env p)) as [e [r k]] eqn:E. cbn in Hkey |- *. subst r.
  cbn. apply key_create_ok in E as (Hc & Hu & Hnull).
  assert (as_u32 k = k) as Hku by (unfold as_u32; by rewrite Z.mod_small).
  set (p1 := set_key_init _ _).
  assert (Hp1 : forall t, thread_ptr p1 t = 0).
  { intros t. unfold thread_ptr, p1. cbn. by rewrite Hku. }
  assert (Hp : forall t, thread_ptr p t = 0) by (intros t; unfold thread_ptr; by rewrite Hk).
  exists p1. split; [done|]. split; [|split_and!; try done].
  - split; [done| | | |].
    + left. split; [done|]. by destruct Hhd as [[]|[]]; [|congruence].
    + cbn. by rewrite Hku.
    + intros t. by rewrite Hp1.
    + intros t t'. by rewrite Hp1.
  - intros t. split; [done|]. intros t' _. unfold thread_state. by rewrite Hp, Hp1.
  - intros t. by rewrite Hp, Hp1.
Qed.

(** The destructor frees the state of the thread that ends, and no other. *)
Lemma thread_exit_ok t p :
  proc_ok p ->
  exists p', thread_exit t p = Done tt p' /\ proc_ok p' /\ p_os p' = p_os p /\
    only_thread t p p' /\ thread_ptr p' t = 0 /\
    p_key_init p' = p_key_init p /\ p_handler_init p' = p_handler_init p /\
    p_states p' = if thread_ptr p t =? 0 then p_states p else delete (thread_ptr p t) (p_states p).
Proof.
  intros Hok. pose proof Hok as [Hr Hh Hk Hst Hd].
  unfold thread_exit. rewrite bind_eq. cbn [gets].
  assert (Hptr : p_key_init p = OnceDone ->
      forall t', thread_ptr p t' = pthread_getspecific (p_env p) t' (p_key p))
    by (intros E t'; unfold thread_ptr; by rewrite E).
  destruct (p_key_init p) eqn:Ek; [|done|].
  - assert (Hz : thread_ptr p t = 0) by (unfold thread_ptr; by rewrite Ek).
    exists p. rewrite Hz. by split_and!.
  - destruct Hk as [Hk Hk']. rewrite bind_eq. cbn. rewrite bind_eq. cbn. rewrite <- Hptr by done.
    destruct (Z.eqb_spec (thread_ptr p t) 0) as [E|E].
    { exists p. by split_and!. }
    rewrite bind_eq. cbn. unfold destroy_thread_state.
    destruct (Z.eqb_spec (thread_ptr p t) 0); [done|]. cbn [p_states set_env].
    destruct (Hst t E) as [st Es]. rewrite Es. set (p' := set_states _ _).
    assert (Hp' : forall t', thread_ptr p' t' = if decide (t' = t) then 0 else thread_ptr p t').
    { intros t'. unfold thread_ptr at 1, p'. cbn. rewrite Ek. case_decide as Ht.
      - subst. by rewrite getspecific_set_eq.
      - rewrite getspecific_set_ne by (left; congruence). by rewrite Hptr. }
    exists p'. split; [done|]. split; [|split; [done|split; [|split; [|done]]]].
    + split; cbn; [done|left| | |].
      * destruct Hh as [|[]]; [done|congruence].
      * rewrite Ek. split; [by apply setspecific_created|done].
      * intros t'. rewrite Hp'. case_decide; [done|]. intros Hne.
        rewrite lookup_delete_ne; [by apply Hst|]. intros Eq. by apply H, Hd.
      * intros t1 t2. rewrite !Hp'. do 2 case_decide; try done. apply Hd.
    + split; [done|]. intros t' Hne. unfold thread_state. rewrite Hp', decide_False by done.
      split; [done|]. destruct (Z.eqb_spec (thread_ptr p t') 0); [done|]. cbn.
      rewrite lookup_delete_ne; [done|]. intros Eq. by apply Hne, Hd.
    + by rewrite Hp', decide_True.
Qed.

(** The two initializers of a protected call, and that they are idempotent. *)
Lemma setup_ok t p :
  proc_ok p ->
  exists ptr p2, (_ ← install_handler; get_or_init t) p = Done ptr p2 /\
    (_ ← install_handler; get_or_init t) p2 = Done ptr p2 /\
    proc_ok p2 /\ ready t ptr p2 /\ is_Some (p_states p2 !! ptr) /\
    p_os p2 = p_os p /\ only_thread t p p2 /\ dom (p_states p2) = {[ptr]} ∪ dom (p_states p) /\
    (thread_ptr p t <> 0 -> ptr = thread_ptr p t).
Proof.
  intros Hok. pose proof (installed_ok _ Hok) as Hok0.
  destruct (init_key_ok _ Hok0 eq_refl) as (p1 & E1 & Hok1 & Hk1 & Hh1 & Hos1 & Ho1 & Hs1 & Hp1).
  destruct (get_or_init_keyed t p1 Hok1 Hh1 Hk1) as (ptr & p2 & E2 & Hok2 & Hr2 & Hs2 & Hos2 & Ho2 & Hd2 & Hp2).
  exists ptr, p2. rewrite !bind_eq, install_ok by done. split_and!; try done.
  - rewrite <- E2. unfold get_or_init. rewrite !bind_eq, E1. cbv beta iota.
    unfold call_once. cbn [lget key_init_lens]. by rewrite Hk1.
  - pose proof Hr2 as [Hh _ Hk [Hp Hg] _].
    unfold install_handler, install, call_once. cbn [lget handler_init_lens]. rewrite Hh.
    unfold get_or_init. rewrite bind_eq. unfold call_once at 1. cbn [lget key_init_lens].
    rewrite Hk. rewrite bind_eq. cbn. rewrite bind_eq. cbn. rewrite Hg.
    by destruct (Z.eqb_spec ptr 0).
  - by rewrite Hos2, Hos1.
  - eapply only_thread_trans; [apply installed_only|]. by eapply only_thread_trans.
  - by rewrite Hd2, Hs1.
  - by rewrite <- (installed_ptr p t), <- Hp1.
Qed.

Lemma upd_ok t ptr p k st n :
  proc_ok p -> ready t ptr p -> proc_ok (upd ptr p k st n) /\
  only_thread t p (upd ptr p k st n) /\ thread_state (upd ptr p k st n) t = Some st.
Proof.
  intros [Hr Hh Hk Hst Hd] [Hrh Hrd Hrk [Hp Hg] _].
  assert (Ht : forall t', thread_ptr (upd ptr p k st n) t' = thread_ptr p t') by done.
  assert (Hpt : thread_ptr p t = ptr) by (unfold thread_ptr; by rewrite Hrk).
  split; [|split].
  - split; [done..| |].
    + intros t'. rewrite Ht. intros Hne. cbn.
      destruct (decide (ptr = thread_ptr p t')) as [->|]; [by rewrite lookup_insert_eq|].
      rewrite lookup_insert_ne by done. by apply Hst.
    + intros t1 t2. rewrite !Ht. apply Hd.
  - split; [done|]. intros t' Hne. unfold thread_state. rewrite Ht. split; [done|].
    destruct (Z.eqb_spec (thread_ptr p t') 0); [done|]. cbn.
    rewrite lookup_insert_ne; [done|]. intros Eq. apply Hne, Hd; congruence.
  - unfold thread_state. rewrite Ht, Hpt. destruct (Z.eqb_spec ptr 0); [done|].
    cbn. apply lookup_insert_eq.
Qed.

(** ** Lives of threads *)

Inductive thread_op := ThreadUse (t : tid) | ThreadExit (t : tid).

(** The threads that have a state. *)
Definition apply_thread_op (o : thread_op) (live : gset tid) : gset tid :=
  match o with ThreadUse t => {[t]} ∪ live | ThreadExit t => live ∖ {[t]} end.

Definition run_thread_op (o : thread_op) : M (proc K T) unit :=
  match o with
  | ThreadUse t => _ ← install_handler; _ ← get_or_init t; mret tt
  | ThreadExit t => thread_exit t
  end.

Fixpoint run_thread_ops (os : list thread_op) : M (proc K T) unit :=
  match os with [] => mret tt | o :: os => _ ← run_thread_op o; run_thread_ops os end.

Record threads_ok p (live : gset tid) : Prop := {
  th_ok : proc_ok p;
  th_live : forall t, thread_ptr p t <> 0 <-> t ∈ live;
  th_dom : forall q, q ∈ dom (p_states p) -> exists t, t ∈ live /\ thread_ptr p t = q;
}.

Lemma proc_init_threads k e :
  snd (sys_sigaction e) = 0 -> fst (snd (pthread_key_create (fst (sys_sigaction e)))) = 0 ->
  threads_ok (proc_init k e) ∅.
Proof. intros H1 H2. split; [by apply proc_init_ok|set_solver|set_solver]. Qed.

Lemma get_or_init_same t p :
  proc_ok p -> thread_ptr p t <> 0 -> get_or_init t p = Done (thread_ptr p t) p.
Proof.
  intros _ Hne. unfold get_or_init. rewrite bind_eq. unfold call_once. cbn [lget key_init_lens].
  unfold thread_ptr in *. destruct (p_key_init p); [done..|].
  rewrite bind_eq. cbn. rewrite bind_eq. cbn. by destruct (Z.eqb_spec (pthread_getspecific (p_env p) t (p_key p)) 0).
Qed.

Lemma ready_thread_ptr t ptr p : ready t ptr p -> thread_ptr p t = ptr /\ ptr <> 0.
Proof. intros [_ _ Hk [Hp Hg] _]. unfold thread_ptr. by rewrite Hk. Qed.

Lemma run_thread_ok o p live :
  threads_ok p live ->
  exists p', run_thread_op o p = Done tt p' /\ threads_ok p' (apply_thread_op o live).
Proof.
  intros [Hok Hl Hd]. destruct o as [t|t]; cbn [run_thread_op apply_thread_op].
  - destruct (setup_ok t p Hok) as (ptr & p' & E & _ & Hok' & Hr & Hs & _ & [_ Ho] & Hdom & Hkept).
    rewrite bind_eq in E. exists p'. rewrite bind_eq. destruct (install_handler p) as [u p1|]; [|done].
    rewrite bind_eq, E. split; [done|]. destruct (ready_thread_ptr _ _ _ Hr) as [Ht Hne].
    assert (Hpt : forall t', t' <> t -> thread_ptr p' t' = thread_ptr p t') by (intros t' H; apply Ho, H).
    split; [done| |].
    + intros t'. destruct (decide (t' = t)) as [->|H]; [rewrite Ht; set_solver|].
      rewrite Hpt, Hl by done. set_solver.
    + intros q. rewrite Hdom. intros [->%elem_of_singleton|Hq]%elem_of_union; [exists t; set_solver|].
      destruct (Hd q Hq) as (t' & Ht' & <-). destruct (decide (t' = t)) as [->|H].
      * exists t. split; [set_solver|]. rewrite Ht. by apply Hkept, Hl.
      * exists t'. split; [set_solver|]. by apply Hpt.
  - destruct (thread_exit_ok t p Hok) as (p' & E & Hok' & _ & [_ Ho] & Hz & _ & _ & Hs).
    exists p'. split; [done|].
    assert (Hpt : forall t', t' <> t -> thread_ptr p' t' = thread_ptr p t') by (intros t' H; apply Ho, H).
    split; [done| |].
    + intros t'. destruct (decide (t' = t)) as [->|H]; [rewrite Hz; set_solver|].
      rewrite Hpt, Hl by done. set_solver.
    + intros q. rewrite Hs. intros Hq.
      assert (q ∈ dom (p_states p) /\ (thread_ptr p t = 0 \/ q <> thread_ptr p t)) as [Hq' Hne].
      { destruct (Z.eqb_spec (thread_ptr p t) 0); set_solver. }
      destruct (Hd q Hq') as (t' & Ht' & <-).
      assert (t' <> t) as H.
      { intros ->. destruct Hne as [Hne|]; [|done]. by apply (Hl t). }
      exists t'. split; [set_solver|]. by apply Hpt.
Qed.

Lemma run_threads_ok os p live :
  threads_ok p live ->
  exists p', run_thread_ops os p = Done tt p' /\
    threads_ok p' (fold_left (fun l o => apply_thread_op o l) os live).
Proof.
  revert p live. induction os as [|o os IH]; intros p live Hp; [by exists p|].
  destruct (run_thread_ok o p live Hp) as (p1 & E & Hp1). cbn [run_thread_ops fold_left].
  rewrite bind_eq, E. by apply IH.
Qed.

(** What a call by thread [t] that ended with the kernel in state [k] leaves. *)
Record after_call (t : tid) p (k : K) p' : Prop := {
  after_os : p_os p' = k;
  after_ok : proc_ok p';
  after_only : only_thread t p p';
  after_disarmed : exists st, thread_state p' t = Some st /\ in_protected st = false;
}.

Lemma protect_ok {R} t (q : prog R) p :
  proc_ok p ->
  match spec_exec (covered p) q true (p_os p) with
  | SVal v _ k' => exists p', protect t q p = Done (Ok v) p' /\ after_call t p k' p'
  | SCaught a k' => exists p', protect t q p = Done (Err a) p' /\ after_call t p k' p'
  | SDead w k' => exists p', protect t q p = Stop (abort_reason w) p' /\ p_os p' = k'
  end.
Proof.
  intros Hok. destruct (setup_ok t p Hok)
    as (ptr & p2 & E & E2 & Hok2 & Hr2 & [st Hst] & Hos & Honly & _).
  assert (protect t q p = protect t q p2) as ->.
  { rewrite bind_eq in E, E2. unfold protect, with_sigbus_protection. rewrite !bind_eq.
    destruct (install_handler p) as [[] q1|]; [|done].
    destruct (install_handler p2) as [[] q2|]; [|done].
    rewrite !bind_eq, E, E2. done. }
  assert (covered p = covered p2) as ->.
  { unfold covered. by destruct Honly as [-> _]. }
  rewrite <- Hos. pose proof (protect_sim t ptr q p2 st Hr2 Hst) as Hs.
  destruct (spec_exec _ _ _ _) as [v armed k'|a k'|w k']; [| |done].
  - destruct Hs as (st' & n & -> & Hoff). eexists. split; [done|].
    destruct (upd_ok t ptr p2 k' st' n Hok2 Hr2) as (? & ? & ?).
    split; [done|done|by eapply only_thread_trans|by eexists].
  - destruct Hs as (st' & n & -> & Hoff). eexists. split; [done|].
    destruct (upd_ok t ptr p2 k' st' n Hok2 Hr2) as (? & ? & ?).
    split; [done|done|by eapply only_thread_trans|by eexists].
Qed.
End Process.

(** * Properties of protected calls *)

(** A closure without a nested protected call that touches only addresses of
    [A]. *)
Fixpoint touches_only {R} (A : Z -> Prop) (q : prog R) : Prop :=
  match q with
  | PRet _ | PPanic => True
  | PLoad a k => A a /\ forall b, touches_only A (k b)
  | PStore a _ k => A a /\ touches_only A k
  | PProtect _ _ => False
  end.

Section Theorems.
Context `{PR : Profile} `{AL : Allocator} {K T : Type} `{VMK : !VM K} `{PE : !ProcEnv T}.
Context `{ALok : !AllocatorOk} `{PEok : !ProcEnvOk T}.
Implicit Types p : proc K T.

Lemma spec_dead {R} cov (q : prog R) armed (k : K) w k' :
  spec_exec cov q armed k = SDead w k' ->
  w = StopPanic \/ w = StopAbort \/ w = StopKilled SIGBUS \/ w = StopKilled SIGSEGV.
Proof.
  revert armed k w k'. induction q as [R r|R a kont IH|R a b kont IH|R|R A q IHq kont IHk];
    intros armed k w k'; cbn [spec_exec].
  - done.
  - destruct (load k a) as [k1 [x|x|]]; [apply IH| |by intros [= <- <-]; auto].
    destruct (_ && _); [done|]. intros [= <- <-]; auto.
  - destruct (store k a b) as [k1 [x|x|]]; [apply IH| |by intros [= <- <-]; auto].
    destruct (_ && _); [done|]. intros [= <- <-]; auto.
  - intros [= <- <-]; auto.
  - destruct (spec_exec cov q true k) as [v ar k1|x k1|w1 k1] eqn:E; [apply IHk..|].
    intros [= <- <-]. destruct (IHq _ _ _ _ E) as [->|[->|[->| ->]]]; auto.
Qed.

Lemma spec_touches {R} `{!FaultLaws K} cov (q : prog R) (k : K) :
  touches_only (fun a => cov a = true) q ->
  match spec_exec cov q true k with
  | SVal _ armed _ => armed = true
  | SCaught a _ => cov a = true
  | SDead w _ => w = StopPanic \/ w = StopKilled SIGSEGV
  end.
Proof.
  revert k. induction q as [R r|R a kont IH|R a b kont IH|R|R A q IHq kont IHk];
    intros k; cbn [spec_exec touches_only].
  - done.
  - intros [Ha Hk]. destruct (load k a) as [k1 [x|x|]] eqn:E; [by apply IH| |by right].
    apply load_fault in E as ->. by rewrite Ha.
  - intros [Ha Hk]. destruct (store k a b) as [k1 [x|x|]] eqn:E; [by apply IH| |by right].
    apply store_fault in E as ->. by rewrite Ha.
  - by left.
  - done.
Qed.

(** C4 (refinement): for every closure, nested protected calls included, and from any
    process in which the initializers have run or will succeed, the
    machinery (handler, pthread key, boxed thread state, jump buffer) gives
    what [spec_exec] says: the closure's value, the fault address of a SIGBUS
    that is caught, or the end of the process. A call that returns leaves the
    calling thread unprotected and every other thread's state and the
    registry as they were. *)
Theorem protected_call_refines {R} t (q : prog R) p :
  proc_ok p ->
  match spec_exec (covered p) q true (p_os p) with
  | SVal v _ k' => exists p', protect t q p = Done (Ok v) p' /\ after_call t p k' p'
  | SCaught a k' => exists p', protect t q p = Done (Err a) p' /\ after_call t p k' p'
  | SDead w k' => exists p', protect t q p = Stop (abort_reason w) p' /\ p_os p' = k'
  end.
Proof. apply protect_ok. Qed.

(** whatever the closure does, a protected call never jumps to a checkpoint
    whose frame is gone, and never reads a freed thread state or snapshot; it
    ends the process only by a default signal action or by a panic that
    reaches the C frame. *)
Theorem protected_call_no_ub {R} t (q : prog R) p w p' :
  proc_ok p -> protect t q p = Stop w p' ->
  w = StopAbort \/ w = StopKilled SIGBUS \/ w = StopKilled SIGSEGV.
Proof.
  intros Hok E. pose proof (protect_ok t q p Hok) as Hs.
  destruct (spec_exec _ _ _ _) as [v ar k'|a k'|w' k'] eqn:Es;
    destruct Hs as (p1 & E1 & _); rewrite E1 in E; [done..|]. injection E as <- <-.
  destruct (spec_dead _ _ _ _ _ _ Es) as [->|[->|[->| ->]]]; cbn; auto.
Qed.

(** C17 (safety): a closure without nested protected calls that touches only registered
    addresses is never killed by SIGBUS: its faults come back as [Err] of a
    registered address. *)
Theorem sigbus_is_recovered {R} `{!FaultLaws K} t (q : prog R) p :
  proc_ok p -> touches_only (fun a => covered p a = true) q ->
  (exists r p', protect t q p = Done r p' /\
     match r with Ok _ => True | Err a => covered p a = true end) \/
  (exists w p', protect t q p = Stop w p' /\ (w = StopAbort \/ w = StopKilled SIGSEGV)).
Proof.
  intros Hok Hq. pose proof (protect_ok t q p Hok) as Hs.
  pose proof (spec_touches (covered p) q (p_os p) Hq) as Ht.
  destruct (spec_exec _ _ _ _) as [v ar k'|a k'|w' k'];
    destruct Hs as (p1 & E1 & _); rewrite E1.
  - left. by exists (Ok v), p1.
  - left. by exists (Err a), p1.
  - right. do 2 eexists. split; [done|]. destruct Ht as [->| ->]; auto.
Qed.

(** C20 (error): a protected call made inside a closure ends the protection of the
    enclosing one: once the inner call has returned (with a value or a caught
    fault), a fault in the rest of the closure kills the process, even at a
    registered address. *)
Theorem nested_call_disarms {R A} t (q : prog A) (a : Z) (kont : Z -> prog R) p k1 k2 si_addr :
  proc_ok p ->
  (exists v armed, spec_exec (covered p) q true (p_os p) = SVal v armed k1) \/
  (exists b, spec_exec (covered p) q true (p_os p) = SCaught b k1) ->
  load k1 a = (k2, BusError si_addr) ->
  exists p', protect t (PProtect q (fun _ => PLoad a kont)) p = Stop (StopKilled SIGBUS) p'.
Proof.
  intros Hok Hq Hl. pose proof (protect_ok t (PProtect q (fun _ => PLoad a kont)) p Hok) as Hs.
  cbn [spec_exec] in Hs.
  destruct Hq as [(v & armed & E)|(b & E)]; rewrite E, Hl in Hs;
    destruct Hs as (p' & E' & _); by exists p'.
Qed.

(** C23 (invariant): over any sequence of calls of [get_or_init] and exits of threads, from
    the start of the process: no thread state is used after its release or
    freed twice; the threads that have one are exactly those that called
    [get_or_init] since they last ended; no two share one; a thread is given
    the same one each time; and every box that is still allocated is the state
    of such a thread (none is leaked). *)
Theorem thread_states_are_own ops (k : K) (e : T) :
  snd (sys_sigaction e) = 0 -> fst (snd (pthread_key_create (fst (sys_sigaction e)))) = 0 ->
  let live := fold_left (fun l o => apply_thread_op o l) ops ∅ in
  exists p, run_thread_ops ops (proc_init k e) = Done tt p /\
    (forall t, is_Some (thread_state p t) <-> t ∈ live) /\
    (forall t t', t ∈ live -> t <> t' -> thread_ptr p t <> thread_ptr p t') /\
    (forall t, t ∈ live -> get_or_init t p = Done (thread_ptr p t) p) /\
    (forall q, q ∈ dom (p_states p) <-> exists t, t ∈ live /\ thread_ptr p t = q).
Proof.
  intros H1 H2 live.
  destruct (run_threads_ok ops (proc_init k e) ∅ (proc_init_threads k e H1 H2))
    as (p & E & [Hok Hlive Hdom]). fold live in Hlive, Hdom. exists p. split; [done|].
  pose proof Hok as [_ _ Hk Hst Hd].
  assert (Hs : forall t, t ∈ live -> thread_ptr p t <> 0) by (intros t; apply Hlive).
  split_and!.
  - intros t. unfold thread_state. split.
    + intros [s Es]. apply Hlive. by destruct (Z.eqb_spec (thread_ptr p t) 0).
    + intros Ht. destruct (Z.eqb_spec (thread_ptr p t) 0); [by apply Hs in Ht|by apply Hst].
  - intros t t' Ht Hne E'. by apply Hne, Hd; [apply Hs|].
  - intros t Ht. by apply get_or_init_same, Hs.
  - intros q. split; [apply Hdom|]. intros (t & Ht & <-). by apply elem_of_dom, Hst, Hs.
Qed.

(** until the first protected call of the process, the handler looks a thread
    up under key 0, whoever owns it: if another library stored a pointer
    there, a SIGBUS makes the handler dereference that pointer as a
    [ThreadState]. *)
Theorem handler_before_key_init t a p v :
  p_disposition p = SigbusHandler -> p_key_init p = OnceNew -> p_key p = 0 ->
  pthread_getspecific (p_env p) t 0 = v -> v <> 0 -> p_states p !! v = None ->
  deliver_sigbus t a p = Stop StopUB p.
Proof.
  intros Hd _ Hk Hg Hv Hs. unfold deliver_sigbus. rewrite bind_eq. cbn. rewrite Hd.
  unfold sigbus_handler. rewrite bind_eq. cbn. rewrite Hk, bind_eq. cbn. rewrite Hg.
  destruct (Z.eqb_spec v 0); [done|]. rewrite bind_eq. unfold state_read. by rewrite Hs.
Qed.

End Theorems.
