(* ===== verification/Probe.v ===== *)
(** Page probing, the part that [SafeMmap::probe] (src/src/mmap/mod.rs) and
    [probe_pages] (src/src/mmap/prefetch.rs) have in common: which offsets a
    walk in steps of one page visits, which pages that covers, and what a
    sequence of one-byte reads gives. *)

From stdpp Require Import prelude.
From Stdlib Require Import ZArith Lia.
From S2P Require Import Prelude Env Registry Signal.

(** * The offsets of a walk *)

(** How many iterations [while pos < offset + len { ..; pos += page }] makes. *)
Definition probe_count (page len : Z) : nat := Z.to_nat ((len + page - 1) / page).

Definition probe_offsets (page offset len : Z) : list Z :=
  (fun i => offset + Z.of_nat i * page) <$> seq 0 (probe_count page len).

Section Offsets.
Context (page : Z) (page_pos : 0 < page).

Lemma probe_count_spec len :
  0 <= len ->
  Z.of_nat (probe_count page len) * page < len + page <=
    Z.of_nat (probe_count page len) * page + page.
Proof.
  intros Hl. unfold probe_count.
  pose proof (Z.div_mod (len + page - 1) page). pose proof (Z.mod_pos_bound (len + page - 1) page).
  rewrite Z2Nat.id by (apply Z.div_pos; lia). nia.
Qed.

Lemma probe_count_small len : len <= 0 -> probe_count page len = O.
Proof.
  intros Hl. unfold probe_count.
  assert ((len + page - 1) / page < 1) by (apply Z.div_lt_upper_bound; lia). lia.
Qed.

Lemma probe_count_step len :
  0 < len -> probe_count page len = S (probe_count page (len - page)).
Proof.
  intros Hl. unfold probe_count.
  replace (len + page - 1) with (len - page + page - 1 + 1 * page) by lia.
  rewrite Z.div_add by lia.
  assert (0 <= (len - page + page - 1) / page) by (apply Z.div_pos; lia). lia.
Qed.

Lemma probe_count_fuel len : 0 <= len -> (probe_count page len <= Z.to_nat len)%nat.
Proof.
  intros Hl. pose proof (probe_count_spec len Hl).
  destruct (decide (len = 0)) as [->|]; [by rewrite probe_count_small|]. nia.
Qed.

Lemma probe_offsets_nil offset len : len <= 0 -> probe_offsets page offset len = [].
Proof. intros H. unfold probe_offsets. by rewrite probe_count_small. Qed.

Lemma probe_offsets_cons offset len :
  0 < len -> probe_offsets page offset len =
    offset :: probe_offsets page (offset + page) (len - page).
Proof.
  intros H. unfold probe_offsets. rewrite probe_count_step by done. cbn [seq].
  rewrite fmap_cons. f_equal; [lia|]. rewrite <- fmap_S_seq, <- list_fmap_compose.
  apply list_fmap_ext. intros i x _. cbn. lia.
Qed.

Lemma elem_of_probe_offsets offset len x :
  0 <= len -> x ∈ probe_offsets page offset len <->
    exists i, 0 <= i /\ x = offset + i * page /\ x < offset + len.
Proof.
  intros Hl. pose proof (probe_count_spec len Hl). unfold probe_offsets.
  rewrite list_elem_of_fmap. split.
  - intros (i & -> & Hi). apply elem_of_seq in Hi. exists (Z.of_nat i). nia.
  - intros (i & Hi & -> & Hx). exists (Z.to_nat i). rewrite Z2Nat.id by done.
    split; [done|]. apply elem_of_seq. nia.
Qed.

(** A walk that starts no further into its page than its range ends into its
    own visits every page of the range. *)
Lemma probe_offsets_meet offset len x :
  0 <= offset -> 0 < len -> offset mod page <= (offset + len - 1) mod page -> offset <= x < offset + len ->
  exists o, o ∈ probe_offsets page offset len /\ o / page = x / page.
Proof.
  intros Ho Hl Hle Hx. set (e := offset + len - 1) in *.
  pose proof (Z.div_mod offset page). pose proof (Z.mod_pos_bound offset page).
  pose proof (Z.div_mod e page). pose proof (Z.mod_pos_bound e page).
  pose proof (Z.div_le_mono offset x page). pose proof (Z.div_le_mono x e page).
  exists (offset + (x / page - offset / page) * page). rewrite Z.div_add by lia. split; [|lia].
  unfold e in *. apply elem_of_probe_offsets; [lia|]. exists (x / page - offset / page). nia.
Qed.

(** Any other walk ends before the last page. *)
Lemma probe_offsets_miss offset len o :
  0 <= offset -> 0 < len -> (offset + len - 1) mod page < offset mod page ->
  o ∈ probe_offsets page offset len -> o / page <> (offset + len - 1) / page.
Proof.
  intros Ho Hl Hlt Hin. set (e := offset + len - 1) in *.
  pose proof (Z.div_mod offset page). pose proof (Z.mod_pos_bound offset page).
  pose proof (Z.div_mod e page). pose proof (Z.mod_pos_bound e page).
  apply elem_of_probe_offsets in Hin as (i & Hi & -> & Hx); [|lia]. rewrite Z.div_add by lia.
  unfold e in *. nia.
Qed.
End Offsets.

(** * A sequence of one-byte reads *)

Inductive touch_result (K : Type) :=
  | TouchedAll (k : K)
  | TouchFault (fault : Z) (k : K)
  | TouchSegv (k : K).
Arguments TouchedAll {K}.
Arguments TouchFault {K}.
Arguments TouchSegv {K}.

(** Reading the addresses in order, up to the first that faults. *)
Fixpoint touch_all {K} `{VM K} (addrs : list Z) (k : K) : touch_result K :=
  match addrs with
  | [] => TouchedAll k
  | a :: addrs =>
      match load k a with
      | (k', Access _) => touch_all addrs k'
      | (k', BusError f) => TouchFault f k'
      | (k', SegFault) => TouchSegv k'
      end
  end.

(** * Memory accesses *)

Section Accesses.
Context {K : Type} `{VMK : !VM K}.
Implicit Types k : K.

(** One load or store, whatever it gave. *)
Inductive access_step : K -> K -> Prop :=
  | step_load k a k' x : load k a = (k', x) -> access_step k k'
  | step_store k a b k' x : store k a b = (k', x) -> access_step k k'.

Definition accesses : K -> K -> Prop := rtc access_step.

Lemma spec_accesses {R} cov (q : prog R) armed k :
  match spec_exec cov q armed k with
  | SVal _ _ k' | SCaught _ k' | SDead _ k' => accesses k k'
  end.
Proof.
  revert armed k. induction q as [R r|R a kont IH|R a b kont IH|R|R A q IHq kont IHk];
    intros armed k; cbn [spec_exec]; [apply rtc_refl| | |apply rtc_refl|].
  - destruct (load k a) as [k' [x|x|]] eqn:E; (assert (accesses k k') as Hs
      by (apply rtc_once; by eapply step_load)).
    + specialize (IH x armed k'). destruct (spec_exec _ _ _ _); by eapply rtc_trans.
    + by destruct (_ && _).
    + done.
  - destruct (store k a b) as [k' [x|x|]] eqn:E; (assert (accesses k k') as Hs
      by (apply rtc_once; by eapply step_store)).
    + specialize (IH armed k'). destruct (spec_exec _ _ _ _); by eapply rtc_trans.
    + by destruct (_ && _).
    + done.
  - specialize (IHq true k). destruct (spec_exec cov q true k) as [v ar k'|x k'|w k']; [| |done].
    + specialize (IHk (Ok v) false k'). destruct (spec_exec _ _ _ _); by eapply rtc_trans.
    + specialize (IHk (Err x) false k'). destruct (spec_exec _ _ _ _); by eapply rtc_trans.
Qed.

Lemma touch_accesses addrs k :
  match touch_all addrs k with
  | TouchedAll k' | TouchFault _ k' | TouchSegv k' => accesses k k'
  end.
Proof.
  revert k. induction addrs as [|a addrs IH]; intros k; cbn [touch_all]; [apply rtc_refl|].
  destruct (load k a) as [k' [x|x|]] eqn:E; (assert (accesses k k') as Hs
    by (apply rtc_once; by eapply step_load)); [|done..].
  specialize (IH k'). destruct (touch_all addrs k'); by eapply rtc_trans.
Qed.
End Accesses.

Section Lost.
Context {K : Type} `{VMK : !VM K}.
Implicit Types k : K.

(** Reads of a byte that cannot be supplied do not all succeed. *)
Lemma touch_beyond `{BL : !BeyondLaws K} `{!BeyondStays K} addrs a k k' :
  a ∈ addrs -> beyond k a -> touch_all addrs k <> TouchedAll k'.
Proof.
  revert k. induction addrs as [|b addrs IH]; intros k; [by intros ?%elem_of_nil|].
  intros [<-|Hin]%elem_of_cons Hb; cbn [touch_all].
  - by destruct (load_beyond _ _ Hb) as (k1 & -> & _).
  - destruct (load k b) as [k1 [x|f|]] eqn:E; [|done..]. apply IH; [done|]. by eapply load_stays.
Qed.

(** Reads of memory that is there do. *)
Lemma touch_mem `{ML : !MemLaws K} addrs k :
  (forall a, a ∈ addrs -> is_Some (mem_at k a)) -> exists k', touch_all addrs k = TouchedAll k'.
Proof.
  revert k. induction addrs as [|a addrs IH]; intros k Hm; cbn [touch_all]; [by eexists|].
  destruct (Hm a) as [b Hb]; [by left|]. destruct (load_ok _ _ _ Hb) as (k1 & -> & Hk & _).
  apply IH. intros x Hx. rewrite Hk. apply Hm. by right.
Qed.
End Lost.

(** * One protected byte *)

Section Byte.
Context `{PR : Profile} `{AL : Allocator} {K T : Type} `{VMK : !VM K} `{PE : !ProcEnv T}.
Context `{ALok : !AllocatorOk} `{PEok : !ProcEnvOk T}.
Implicit Types p : proc K T.

(** A run of thread [t] that left the registry and the other threads alone. *)
Definition quiet (t : tid) p (k : K) p' : Prop :=
  p_os p' = k /\ proc_ok p' /\ only_thread t p p'.

Lemma quiet_refl t p : proc_ok p -> quiet t p (p_os p) p.
Proof. intros H. unfold quiet, only_thread. by split_and!. Qed.

Lemma quiet_trans t p1 k2 p2 k3 p3 : quiet t p1 k2 p2 -> quiet t p2 k3 p3 -> quiet t p1 k3 p3.
Proof.
  intros (_ & _ & H1) (H2 & H3 & H4). unfold quiet. split_and!; [done..|]. by eapply only_thread_trans.
Qed.

Lemma after_call_quiet t p k p' : after_call t p k p' -> quiet t p k p'.
Proof. by intros [? ? ? ?]. Qed.

Lemma quiet_covered t p k p' a : quiet t p k p' -> covered p' a = covered p a.
Proof. intros (_ & _ & H & _). unfold covered. by rewrite H. Qed.

(** What a walk over addresses gives, in a result type [E] for the fault. *)
Definition touch_outcome {A E} (t : tid) p (r : touch_result K) (ok : A) (err : Z -> E)
    (o : outcome (proc K T) (result A E)) : Prop :=
  match r with
  | TouchedAll k' => exists p', o = Done (Ok ok) p' /\ quiet t p k' p'
  | TouchFault a k' =>
      if covered p a then exists p', o = Done (Err (err a)) p' /\ quiet t p k' p'
      else exists p', o = Stop (StopKilled SIGBUS) p'
  | TouchSegv k' => exists p', o = Stop (StopKilled SIGSEGV) p'
  end.

Lemma protect_load {A} t a (k : Z -> A) p :
  proc_ok p ->
  match load (p_os p) a with
  | (k', Access b) => exists p', protect t (PLoad a (fun b => PRet (k b))) p = Done (Ok (k b)) p' /\
      quiet t p k' p'
  | (k', BusError f) =>
      if covered p f
      then exists p', protect t (PLoad a (fun b => PRet (k b))) p = Done (Err f) p' /\ quiet t p k' p'
      else exists p', protect t (PLoad a (fun b => PRet (k b))) p = Stop (StopKilled SIGBUS) p'
  | (k', SegFault) => exists p', protect t (PLoad a (fun b => PRet (k b))) p = Stop (StopKilled SIGSEGV) p'
  end.
Proof.
  intros Hok. pose proof (protect_ok t (PLoad a (fun b => PRet (k b))) p Hok) as H.
  cbn [spec_exec andb] in H. destruct (load (p_os p) a) as [k' [b|f|]].
  - destruct H as (p' & E & H%after_call_quiet). by exists p'.
  - destruct (covered p f).
    + destruct H as (p' & E & H%after_call_quiet). by exists p'.
    + destruct H as (p' & E & _). by exists p'.
  - destruct H as (p' & E & _). by exists p'.
Qed.

End Byte.
