(* ===== verification/SafeMmap.v ===== *)
(** The public mapping: src/src/mmap/guard.rs and src/src/mmap/mod.rs.
    [ReadGuard] gives protected reads of a raw mapping; [SafeMmap] adds fault
    counting, poisoning and events; [SafeMmapOptions] opens one.

    A method of [SafeMmap] runs in [M menv]: the process, the mapping (whose
    two atomics change behind [&self]) and the state of the user's callback. *)

From stdpp Require Import prelude gmap strings.
From Stdlib Require Import ZArith Lia.
From S2P Require Import Prelude Errors Env SysMmap Registry Signal Probe.

Definition DEFAULT_MAX_SIGBUS : Z := 3.

Inductive MmapEvent :=
  | EvSigbus (fault_address : Z)
  | EvPoisoned (sigbus_count : Z)
  | EvPrefetchTimeout (offset len : Z).

#[global] Instance MmapEvent_eq_dec : EqDecision MmapEvent.
Proof. solve_decision. Defined.

(** User code with a state [C] of its own; it may panic. *)
Definition EventCallback (C : Type) : Type := MmapEvent -> M C unit.

Record SafeMmap (C : Type) := {
  raw : RawMmap;
  path : Path;
  file : Z;
  sigbus_count : Z;
  poisoned : bool;
  max_sigbus : Z;
  on_event : option (EventCallback C);
}.
Arguments raw {C}.
Arguments path {C}.
Arguments file {C}.
Arguments sigbus_count {C}.
Arguments poisoned {C}.
Arguments max_sigbus {C}.
Arguments on_event {C}.

(** The region of a mapping, as it is registered. *)
Definition region_of (r : RawMmap) : RegisteredRegion :=
  {| region_start := raw_ptr r; region_end := raw_ptr r + raw_len r |}.

(** [read_volatile], [b[0]] and [copy_nonoverlapping] as closures. A slice is
    its address and length. *)
Definition read_byte (addr : Z) : prog Z := PLoad addr PRet.

Definition index0 (ptr len : Z) : prog Z := if len =? 0 then PPanic else read_byte ptr.

Fixpoint copy_nonoverlapping (src dst : Z) (n : nat) : prog unit :=
  match n with
  | O => PRet tt
  | S n => PLoad src (fun b => PStore dst b (copy_nonoverlapping (src + 1) (dst + 1) n))
  end.

(** A closure followed by a pure step. *)
Fixpoint prog_map {A B} (f : A -> B) (q : prog A) : prog B :=
  match q with
  | PRet a => PRet (f a)
  | PLoad a k => PLoad a (fun x => prog_map f (k x))
  | PStore a x k => PStore a x (prog_map f k)
  | PPanic => PPanic
  | PProtect q' k => PProtect q' (fun v => prog_map f (k v))
  end.

(** [b.to_vec()]: the bytes of the slice. *)
Fixpoint to_vec (ptr : Z) (n : nat) : prog (list Z) :=
  match n with
  | O => PRet []
  | S n => PLoad ptr (fun b => prog_map (cons b) (to_vec (ptr + 1) n))
  end.

(** * mmap::guard *)

Record ReadGuard := { guard_raw : RawMmap }.

Section Guard.
Context `{PR : Profile} `{AL : Allocator} {K T : Type} `{VMK : !VM K} `{PE : !ProcEnv T}.

Definition ReadGuard_new (r : RawMmap) : M (proc K T) ReadGuard :=
  _ ← install_handler;
  mret {| guard_raw := r |}.

Definition ReadGuard_read {R} (t : tid) (g : ReadGuard) (offset len : Z) (f : Z -> Z -> prog R) :
    M (proc K T) (result R AccessError) :=
  if range_exceeds offset len (raw_len (guard_raw g)) then
    mret (Err (OutOfBounds offset len (raw_len (guard_raw g))))
  else
    let slice_ptr := RawMmap_as_ptr (guard_raw g) + offset in
    r ← protect t (f slice_ptr len);
    match r with
    | Ok value => mret (Ok value)
    | Err fault_address => mret (Err (Sigbus fault_address))
    end.
End Guard.

(** * mmap: SafeMmap *)

Section Fields.
Context {C : Type}.
Implicit Types self : SafeMmap C.

Definition set_sigbus_count (n : Z) self : SafeMmap C :=
  {| raw := raw self; path := path self; file := file self; sigbus_count := n;
     poisoned := poisoned self; max_sigbus := max_sigbus self; on_event := on_event self |}.
Definition set_poisoned (b : bool) self : SafeMmap C :=
  {| raw := raw self; path := path self; file := file self; sigbus_count := sigbus_count self;
     poisoned := b; max_sigbus := max_sigbus self; on_event := on_event self |}.

Definition SafeMmap_with_max_sigbus (max : Z) self : SafeMmap C :=
  {| raw := raw self; path := path self; file := file self; sigbus_count := sigbus_count self;
     poisoned := poisoned self; max_sigbus := max; on_event := on_event self |}.

Definition SafeMmap_len self : Z := RawMmap_len (raw self).
Definition SafeMmap_is_empty self : bool := RawMmap_is_empty (raw self).
Definition SafeMmap_is_writable self : bool := RawMmap_is_writable (raw self).
Definition SafeMmap_path self : Path := path self.
Definition SafeMmap_sigbus_count self : Z := sigbus_count self.
Definition SafeMmap_is_poisoned self : bool := poisoned self.

(** The slices, as address and length. *)
Definition SafeMmap_as_slice self : Z * Z := (RawMmap_as_ptr (raw self), RawMmap_len (raw self)).
Definition SafeMmap_as_mut_slice self : option (Z * Z) :=
  ptr ← RawMmap_as_mut_ptr (raw self); Some (ptr, RawMmap_len (raw self)).

Definition check_bounds self (offset len : Z) : result unit AccessError :=
  match checked_add offset len with
  | None => Err (OutOfBounds offset len (raw_len (raw self)))
  | Some e =>
      if raw_len (raw self) <? e then Err (OutOfBounds offset len (raw_len (raw self)))
      else Ok tt
  end.
End Fields.

Record menv (K T C : Type) := MkMenv {
  m_proc : proc K T;
  m_self : SafeMmap C;
  m_user : C;
}.
Arguments MkMenv {K T C}.
Arguments m_proc {K T C}.
Arguments m_self {K T C}.
Arguments m_user {K T C}.

Section Methods.
Context `{PR : Profile} `{LC : Libc} `{SC : Sysconf} `{AL : Allocator}.
Context {K T C : Type} `{VMK : !VM K} `{PE : !ProcEnv T}.
Local Abbreviation MM := (M (menv K T C)).

Definition proc_lens : lens (menv K T C) (proc K T) :=
  Lens m_proc (fun p m => MkMenv p (m_self m) (m_user m)).
Definition self_lens : lens (menv K T C) (SafeMmap C) :=
  Lens m_self (fun s m => MkMenv (m_proc m) s (m_user m)).
Definition user_lens : lens (menv K T C) C :=
  Lens m_user (fun u m => MkMenv (m_proc m) (m_self m) u).

Definition on_proc {A} (f : M (proc K T) A) : MM A := zoom proc_lens f.
Definition on_os {A} (f : M K A) : MM A := zoom proc_lens (zoom os_lens f).
Definition self_get {A} (f : SafeMmap C -> A) : MM A := gets (fun m => f (m_self m)).

(** ** The atomics: single loads, stores and read-modify-writes *)

Definition load_poisoned : MM bool := self_get poisoned.
Definition store_poisoned (b : bool) : MM unit := zoom self_lens (modify (set_poisoned b)).
Definition load_count : MM Z := self_get sigbus_count.
Definition store_count (n : Z) : MM unit := zoom self_lens (modify (set_sigbus_count n)).
(** [fetch_add(1)] returns the old value and wraps. *)
Definition fetch_add_count : MM Z :=
  c ← load_count;
  _ ← store_count ((c + 1) mod u32_modulus);
  mret c.

Definition SafeMmap_reset_poison : MM unit :=
  _ ← store_poisoned false;
  store_count 0.

Definition check_poisoned : MM (result unit AccessError) :=
  p ← load_poisoned;
  if p : bool then c ← load_count; mret (Err (Poisoned c)) else mret (Ok tt).

Definition emit_event (event : MmapEvent) : MM unit :=
  cb ← self_get on_event;
  match cb with
  | Some cb => zoom user_lens (cb event)
  | None => mret tt
  end.

Definition fault_address_of (err : AccessError) : Z :=
  match err with Sigbus a => a | _ => 0 end.

Definition record_sigbus_from (err : AccessError) : MM unit :=
  let fault_address := fault_address_of err in
  c ← fetch_add_count;
  count ← u32add c 1;
  _ ← emit_event (EvSigbus fault_address);
  m ← self_get max_sigbus;
  if m <=? count then
    _ ← store_poisoned true;
    emit_event (EvPoisoned count)
  else mret tt.

(** ** Accesses *)

Definition SafeMmap_guard : MM ReadGuard :=
  r ← self_get raw;
  on_proc (ReadGuard_new r).

Definition SafeMmap_read {R} (t : tid) (range_start range_end : Z) (f : Z -> Z -> prog R) :
    MM (result R AccessError) :=
  _ ←? check_poisoned;
  guard ← SafeMmap_guard;
  len ← usub range_end range_start;
  res ← on_proc (ReadGuard_read t guard range_start len f);
  _ ← (match res with
       | Err (Sigbus a) => record_sigbus_from (Sigbus a)
       | _ => mret tt
       end);
  mret res.

(** The last step of [write] and [read_into]. *)
Definition finish_copy (r : result unit Z) : MM (result unit AccessError) :=
  match r with
  | Ok _ => mret (Ok tt)
  | Err fault_address =>
      let err := Sigbus fault_address in
      _ ← record_sigbus_from err;
      mret (Err err)
  end.

(** [data] and [buf] are slices of the caller's memory. *)
Definition SafeMmap_write (t : tid) (offset data_ptr data_len : Z) :
    MM (result unit AccessError) :=
  _ ←? check_poisoned;
  _ ←? self_get (fun s => check_bounds s offset data_len);
  dst ←? self_get (fun s =>
    match RawMmap_as_mut_ptr (raw s) with
    | Some p => Ok p
    | None => Err (Io (NewError PermissionDenied "mapping is read-only"))
    end);
  r ← on_proc (protect t (copy_nonoverlapping data_ptr (dst + offset) (Z.to_nat data_len)));
  finish_copy r.

Definition SafeMmap_read_into (t : tid) (offset buf_ptr buf_len : Z) :
    MM (result unit AccessError) :=
  _ ←? check_poisoned;
  _ ←? self_get (fun s => check_bounds s offset buf_len);
  src ← self_get (fun s => RawMmap_as_ptr (raw s));
  r ← on_proc (protect t (copy_nonoverlapping (src + offset) buf_ptr (Z.to_nat buf_len)));
  finish_copy r.

(** The loop of [probe]; a page has at least one byte, so that [len] more
    iterations than one are enough. *)
Fixpoint probe_loop (fuel : nat) (t : tid) (guard : ReadGuard) (offset len page pos : Z) :
    MM (result unit AccessError) :=
  match fuel with
  | O => stop StopDiverge
  | S fuel =>
      e ← uadd offset len;
      if pos <? e then
        res ← on_proc (ReadGuard_read t guard pos 1 index0);
        match res with
        | Err e =>
            _ ← record_sigbus_from e;
            mret (Err e)
        | Ok _ =>
            pos ← uadd pos page;
            probe_loop fuel t guard offset len page pos
        end
      else mret (Ok tt)
  end.

Definition SafeMmap_probe (t : tid) (offset len : Z) : MM (result unit AccessError) :=
  _ ←? check_poisoned;
  _ ←? self_get (fun s => check_bounds s offset len);
  guard ← SafeMmap_guard;
  page ← page_size;
  probe_loop (S (Z.to_nat len)) t guard offset len page offset.

(** [deadline] is the run of [prefetch::prefetch_with_deadline], which
    [Prefetch.v] models. *)
Definition SafeMmap_prefetch_with_timeout
    (deadline : Z -> Z -> Z -> Duration -> M (proc K T) (result unit AccessError))
    (offset len : Z) (timeout : Duration) : MM (result unit AccessError) :=
  _ ←? check_poisoned;
  _ ←? self_get (fun s => check_bounds s offset len);
  base_ptr ← self_get (fun s => RawMmap_as_ptr (raw s));
  res ← on_proc (deadline base_ptr offset len timeout);
  _ ← (match res with
       | Err (Sigbus a) => record_sigbus_from (Sigbus a)
       | Err (Timeout _ _ _) => emit_event (EvPrefetchTimeout offset len)
       | _ => mret tt
       end);
  mret res.

(** ** Calls on the raw mapping *)

Definition SafeMmap_flush (offset len : Z) (async_flush : bool) : MM (result unit io_error) :=
  r ← self_get raw; on_os (RawMmap_flush r offset len async_flush).

Definition SafeMmap_advise (advice : Advice) : MM (result unit io_error) :=
  r ← self_get raw; on_os (RawMmap_advise r advice).

Definition SafeMmap_advise_range (advice : Advice) (offset len : Z) : MM (result unit io_error) :=
  r ← self_get raw; on_os (RawMmap_advise_range r advice offset len).

Definition SafeMmap_evict (offset len : Z) : MM (result unit io_error) :=
  r ← self_get raw; on_os (RawMmap_advise_range r DontNeed offset len).

Definition SafeMmap_prefetch (offset len : Z) : MM (result unit io_error) :=
  r ← self_get raw; on_os (RawMmap_advise_range r WillNeed offset len).

Definition SafeMmap_resident_pages (offset len : Z) : MM (result (list bool) io_error) :=
  r ← self_get raw; on_os (RawMmap_mincore r offset len).

Definition SafeMmap_lock_range (offset len : Z) : MM (result unit io_error) :=
  r ← self_get raw;
  if range_exceeds offset len (RawMmap_len r) then
    mret (Err (NewError InvalidInput "lock range exceeds mapping length"))
  else on_os (
    let ptr := RawMmap_as_ptr r + offset in
    ret ← call (fun k => sys_mlock k ptr len);
    check_ret ret).

Definition SafeMmap_unlock_range (offset len : Z) : MM (result unit io_error) :=
  r ← self_get raw;
  if range_exceeds offset len (RawMmap_len r) then
    mret (Err (NewError InvalidInput "unlock range exceeds mapping length"))
  else on_os (
    let ptr := RawMmap_as_ptr r + offset in
    ret ← call (fun k => sys_munlock k ptr len);
    check_ret ret).
End Methods.

(** * Copies, in working memory *)

Section Copies.
Context {K : Type} `{VMK : !VM K} `{ML : !MemLaws K}.
Implicit Types k : K.

(** The memory at [ptr] holds these bytes. *)
Definition holds k (ptr : Z) (bs : list Z) : Prop :=
  forall i b, bs !! i = Some b -> mem_at k (ptr + Z.of_nat i) = Some b.

(** [n] bytes at [ptr] can be read and written. *)
Definition usable k (ptr n : Z) : Prop :=
  forall x, ptr <= x < ptr + n -> is_Some (mem_at k x) /\ can_store k x = true.

Definition apart (p n q m : Z) : Prop := p + n <= q \/ q + m <= p.

(** The memory after [bs] was written at [ptr]. *)
Definition patched k k' (ptr : Z) (bs : list Z) : Prop :=
  (forall x, mem_at k' x =
     if decide (ptr <= x < ptr + Z.of_nat (length bs)) then bs !! Z.to_nat (x - ptr)
     else mem_at k x) /\
  (forall x, can_store k' x = can_store k x).

Lemma holds_cons k ptr b bs :
  holds k ptr (b :: bs) <-> mem_at k ptr = Some b /\ holds k (ptr + 1) bs.
Proof.
  split.
  - intros H. split; [specialize (H O b eq_refl); by rewrite Z.add_0_r in H|].
    intros i x Hx. specialize (H (S i) x Hx).
    by replace (ptr + 1 + Z.of_nat i) with (ptr + Z.of_nat (S i)) by lia.
  - intros [H0 H] [|i] x Hx; cbn in Hx; [rewrite Z.add_0_r; congruence|].
    replace (ptr + Z.of_nat (S i)) with (ptr + 1 + Z.of_nat i) by lia. by apply H.
Qed.

Lemma holds_same k k' ptr bs :
  (forall x, mem_at k' x = mem_at k x) -> holds k ptr bs -> holds k' ptr bs.
Proof. intros E H i b Hb. rewrite E. by apply H. Qed.

Lemma patched_holds k k' ptr bs : patched k k' ptr bs -> holds k' ptr bs.
Proof.
  intros [H _] i b Hb. rewrite H. apply lookup_lt_Some in Hb as Hi.
  rewrite decide_True by lia. by replace (Z.to_nat (ptr + Z.of_nat i - ptr)) with i by lia.
Qed.

Lemma spec_copy cov src dst bs armed k :
  holds k src bs -> usable k dst (Z.of_nat (length bs)) ->
  apart src (Z.of_nat (length bs)) dst (Z.of_nat (length bs)) ->
  exists k', spec_exec cov (copy_nonoverlapping src dst (length bs)) armed k = SVal tt armed k' /\
    patched k k' dst bs.
Proof.
  revert src dst k. induction bs as [|b bs IH]; intros src dst k Hh Hu Ha.
  { exists k. split; [done|]. split; [|done]. intros x. by rewrite decide_False by (cbn; lia). }
  apply holds_cons in Hh as [H0 Hh]. cbn [length] in *. cbn [copy_nonoverlapping spec_exec].
  destruct (load_ok _ _ _ H0) as (k1 & -> & Hm1 & Hc1).
  destruct (Hu dst ltac:(lia)) as [[b0 Hb0] Hs0].
  destruct (store_ok k1 dst b0 b) as (k2 & -> & Hm2 & Hc2); [by rewrite Hm1|by rewrite Hc1|by eapply mem_byte|].
  destruct (IH (src + 1) (dst + 1) k2) as (k3 & -> & Hm3 & Hc3).
  - intros i x Hx. rewrite Hm2, Hm1. apply lookup_lt_Some in Hx as Hi.
    rewrite decide_False by (unfold apart in Ha; lia). by apply Hh.
  - intros x Hx. rewrite Hm2, Hc2, Hm1, Hc1. destruct (Hu x ltac:(lia)) as [? ?].
    split; [|done]. by destruct (decide (x = dst)).
  - unfold apart in *. lia.
  - exists k3. split; [done|]. split; [|intros x; by rewrite Hc3, Hc2, Hc1].
    intros x. rewrite Hm3, Hm2, Hm1. cbn [length].
    destruct (decide (x = dst)) as [->|].
    + rewrite decide_False by lia. rewrite decide_True by lia. by rewrite Z.sub_diag.
    + destruct (decide (dst + 1 <= x < dst + 1 + Z.of_nat (length bs))).
      * rewrite decide_True by lia.
        by replace (Z.to_nat (x - dst)) with (S (Z.to_nat (x - (dst + 1)))) by lia.
      * by rewrite decide_False by lia.
Qed.

Lemma spec_prog_map {A B} cov (f : A -> B) q armed k :
  spec_exec cov (prog_map f q) armed k =
    match spec_exec cov q armed k with
    | SVal v a k' => SVal (f v) a k'
    | SCaught a k' => SCaught a k'
    | SDead w k' => SDead w k'
    end.
Proof.
  revert armed k. induction q as [A' r|A' a kont IH|A' a b kont IH|A'|A' A0 q IHq kont IHk];
    intros armed k; cbn [prog_map spec_exec]; [done| | |done|].
  - destruct (load k a) as [k' []]; [apply IH| |done]. by destruct (_ && _).
  - destruct (store k a b) as [k' []]; [apply IH| |done]. by destruct (_ && _).
  - destruct (spec_exec cov q true k); [apply IHk..|done].
Qed.

Lemma spec_to_vec cov ptr bs armed k :
  holds k ptr bs ->
  exists k', spec_exec cov (to_vec ptr (length bs)) armed k = SVal bs armed k' /\
    (forall x, mem_at k' x = mem_at k x) /\ (forall x, can_store k' x = can_store k x).
Proof.
  revert ptr k. induction bs as [|b bs IH]; intros ptr k Hh; [by exists k|].
  apply holds_cons in Hh as [H0 Hh]. cbn [length to_vec spec_exec].
  destruct (load_ok _ _ _ H0) as (k1 & -> & Hm1 & Hc1). rewrite spec_prog_map.
  destruct (IH (ptr + 1) k1) as (k2 & -> & Hm2 & Hc2); [by eapply holds_same|].
  exists k2. split; [done|]. split; intros x; congruence.
Qed.
End Copies.

(** * What an access gives *)

Section Fault.
Context {C : Type}.
Implicit Types self : SafeMmap C.

(** The two atomics after one more fault. *)
Definition counted self : SafeMmap C :=
  let n := sigbus_count self + 1 in
  let self' := set_sigbus_count n self in
  if max_sigbus self <=? n then set_poisoned true self' else self'.

Definition fault_events (a : Z) self : list MmapEvent :=
  let n := sigbus_count self + 1 in
  EvSigbus a :: (if max_sigbus self <=? n then [EvPoisoned n] else []).

Fixpoint run_events (cb : option (EventCallback C)) (es : list MmapEvent) : M C unit :=
  match cb, es with
  | Some f, e :: es => _ ← f e; run_events cb es
  | _, _ => mret tt
  end.

Definition callback_returns self : Prop :=
  match on_event self with
  | None => True
  | Some f => forall e u, exists u', f e u = Done tt u'
  end.

(** How the two atomics relate in a mapping only one thread uses. *)
Record poison_inv self : Prop := {
  pi_max : is_u32 (max_sigbus self);
  pi_poisoned : poisoned self = true <-> 1 <= sigbus_count self /\ max_sigbus self <= sigbus_count self;
  pi_count : 0 <= sigbus_count self <= Z.max 1 (max_sigbus self);
}.

Lemma poison_inv_room self :
  poison_inv self -> poisoned self = false -> sigbus_count self + 1 < u32_modulus.
Proof. intros [Hm Hp Hc] E. unfold is_u32, u32_modulus in *. rewrite E in Hp. lia. Qed.

Lemma counted_inv self :
  poison_inv self -> poisoned self = false -> poison_inv (counted self).
Proof.
  intros [Hm Hp Hc] E. rewrite E in Hp. unfold counted.
  destruct (Z.leb_spec (max_sigbus self) (sigbus_count self + 1)); split; cbn; try done; try lia.
  rewrite E. split; [done|lia].
Qed.

Lemma counted_keeps self :
  raw (counted self) = raw self /\ on_event (counted self) = on_event self /\
  max_sigbus (counted self) = max_sigbus self /\ path (counted self) = path self /\
  file (counted self) = file self.
Proof. unfold counted. by destruct (_ <=? _). Qed.

Lemma counted_returns self : callback_returns self -> callback_returns (counted self).
Proof. unfold callback_returns. by destruct (counted_keeps self) as (_ & -> & _). Qed.
End Fault.

Section MethodLemmas.
Context `{PR : Profile} `{LC : Libc} `{SC : Sysconf} `{SCok : !SysconfOk}.
Context `{AL : Allocator} `{ALok : !AllocatorOk}.
Context {K T C : Type} `{VMK : !VM K} `{PE : !ProcEnv T} `{PEok : !ProcEnvOk T}.
Implicit Types (m : menv K T C) (p : proc K T).

(** The mapping is well formed, and the process can run protected calls. *)
Record menv_ok m : Prop := {
  mo_proc : proc_ok (m_proc m);
  mo_raw : RawMmap_wf (raw (m_self m));
  mo_poison : poison_inv (m_self m);
  mo_callback : callback_returns (m_self m);
}.

(** How a run of a closure shows in the result of a raw protected read. *)
Definition guard_outcome {R} (t : tid) p (s : sres K R)
    (o : outcome (proc K T) (result R AccessError)) : Prop :=
  match s with
  | SVal v _ k' => exists p', o = Done (Ok v) p' /\ after_call t p k' p'
  | SCaught a k' => exists p', o = Done (Err (Sigbus a)) p' /\ after_call t p k' p'
  | SDead w k' => exists p', o = Stop (abort_reason w) p' /\ p_os p' = k'
  end.

(** And in the result of a checked access of a [SafeMmap]: a caught fault is
    counted, and reported to the callback. *)
Definition access_outcome {R} (t : tid) m (s : sres K R)
    (o : outcome (menv K T C) (result R AccessError)) : Prop :=
  match s with
  | SVal v _ k' => exists p', o = Done (Ok v) (MkMenv p' (m_self m) (m_user m)) /\
      after_call t (m_proc m) k' p'
  | SCaught a k' => exists p' u',
      o = Done (Err (Sigbus a)) (MkMenv p' (counted (m_self m)) u') /\
      after_call t (m_proc m) k' p' /\
      run_events (on_event (m_self m)) (fault_events a (m_self m)) (m_user m) = Done tt u'
  | SDead w k' => exists p', o = Stop (abort_reason w) (MkMenv p' (m_self m) (m_user m)) /\
      p_os p' = k'
  end.

Lemma on_proc_eq {A} (f : M (proc K T) A) m :
  on_proc f m = match f (m_proc m) with
                | Done a p' => Done a (MkMenv p' (m_self m) (m_user m))
                | Stop w p' => Stop w (MkMenv p' (m_self m) (m_user m))
                end.
Proof. reflexivity. Qed.

Lemma fetch_add_count_eq m :
  fetch_add_count m = Done (sigbus_count (m_self m))
    (MkMenv (m_proc m)
       (set_sigbus_count ((sigbus_count (m_self m) + 1) mod u32_modulus) (m_self m)) (m_user m)).
Proof. reflexivity. Qed.

Lemma emit_ok e m :
  callback_returns (m_self m) ->
  exists u', emit_event e m = Done tt (MkMenv (m_proc m) (m_self m) u') /\
    run_events (on_event (m_self m)) [e] (m_user m) = Done tt u'.
Proof.
  destruct m as [p s u]. unfold callback_returns, emit_event. intros H.
  rewrite bind_eq. unfold self_get, gets. cbn in *. destruct (on_event s) as [f|].
  - destruct (H e u) as [u' E]. exists u'. unfold zoom. cbn. rewrite E.
    by rewrite bind_eq, E.
  - by exists u.
Qed.

Lemma run_events_cons (cb : option (EventCallback C)) e es u u1 u2 :
  run_events cb [e] u = Done tt u1 -> run_events cb es u1 = Done tt u2 ->
  run_events cb (e :: es) u = Done tt u2.
Proof.
  destruct cb as [f|]; cbn; rewrite ?bind_eq.
  - destruct (f e u) as [[] u'|]; [|done]. cbn. destruct es; cbn; by intros [= ->].
  - destruct es; cbn; by intros [= ->].
Qed.

Lemma record_ok a m :
  callback_returns (m_self m) -> 0 <= sigbus_count (m_self m) ->
  sigbus_count (m_self m) + 1 < u32_modulus ->
  exists u', record_sigbus_from (Sigbus a) m = Done tt (MkMenv (m_proc m) (counted (m_self m)) u') /\
    run_events (on_event (m_self m)) (fault_events a (m_self m)) (m_user m) = Done tt u'.
Proof.
  intros Hcb Hc Hroom. destruct m as [p s u]. cbn in *. unfold record_sigbus_from.
  rewrite bind_eq, fetch_add_count_eq. cbv beta iota zeta. cbn [m_proc m_self m_user fault_address_of].
  rewrite bind_eq, u32add_ok by lia. cbv beta iota.
  destruct (emit_ok (EvSigbus a) (MkMenv p (set_sigbus_count
    ((sigbus_count s + 1) mod u32_modulus) s) u) Hcb) as (u1 & E1 & R1).
  rewrite bind_eq, E1. rewrite bind_eq. unfold self_get, gets. cbn [m_self m_proc m_user].
  rewrite !Z.mod_small by lia. unfold counted, fault_events.
  change (max_sigbus (set_sigbus_count (sigbus_count s + 1) s)) with (max_sigbus s).
  destruct (Z.leb_spec (max_sigbus s) (sigbus_count s + 1)).
  - rewrite bind_eq. cbn [store_poisoned zoom self_lens lget lset modify m_proc m_self m_user].
    destruct (emit_ok (EvPoisoned (sigbus_count s + 1)) (MkMenv p (set_poisoned true
      (set_sigbus_count (sigbus_count s + 1) s)) u1) Hcb) as (u2 & E2 & R2).
    exists u2. unfold store_poisoned, zoom, modify. cbn [lget lset self_lens m_proc m_self m_user].
    rewrite E2. split; [done|]. exact (run_events_cons _ _ _ _ _ _ R1 R2).
  - by exists u1.
Qed.

Lemma guard_read_ok {R} t g offset len (f : Z -> Z -> prog R) p :
  proc_ok p -> is_usize (raw_len (guard_raw g)) ->
  (raw_len (guard_raw g) < offset + len /\
   ReadGuard_read t g offset len f p =
     Done (Err (OutOfBounds offset len (raw_len (guard_raw g)))) p) \/
  (offset + len <= raw_len (guard_raw g) /\
   guard_outcome t p (spec_exec (covered p) (f (raw_ptr (guard_raw g) + offset) len) true (p_os p))
     (ReadGuard_read t g offset len f p)).
Proof.
  intros Hok Hu. unfold ReadGuard_read. rewrite range_exceeds_spec by done.
  destruct (Z.ltb_spec (raw_len (guard_raw g)) (offset + len)); [by left|right].
  split; [done|]. unfold RawMmap_as_ptr. cbv zeta. rewrite bind_eq.
  pose proof (protect_ok t (f (raw_ptr (guard_raw g) + offset) len) p Hok) as Hp.
  unfold guard_outcome. destruct (spec_exec _ _ _ _).
  - destruct Hp as (p' & -> & ?). by exists p'.
  - destruct Hp as (p' & -> & ?). by exists p'.
  - destruct Hp as (p' & -> & ?). by exists p'.
Qed.

(** ** The guards of the checked operations *)

Lemma check_poisoned_eq m :
  check_poisoned m =
    Done (if poisoned (m_self m) then Err (Poisoned (sigbus_count (m_self m))) else Ok tt) m.
Proof. unfold check_poisoned. rewrite bind_eq. cbn. by destruct (poisoned (m_self m)). Qed.

Lemma check_bounds_eq (self : SafeMmap C) offset len :
  is_usize (raw_len (raw self)) ->
  check_bounds self offset len =
    if raw_len (raw self) <? offset + len
    then Err (OutOfBounds offset len (raw_len (raw self))) else Ok tt.
Proof.
  intros [_ Hu]. unfold check_bounds, checked_add.
  destruct (Z.ltb_spec (offset + len) usize_modulus); [done|].
  by destruct (Z.ltb_spec (raw_len (raw self)) (offset + len)); [|lia].
Qed.

Lemma guard_ok m :
  menv_ok m ->
  SafeMmap_guard m = Done {| guard_raw := raw (m_self m) |}
    (MkMenv (installed (m_proc m)) (m_self m) (m_user m)).
Proof.
  intros [Hp _ _ _]. unfold SafeMmap_guard. rewrite bind_eq. unfold self_get, gets. cbv beta iota.
  rewrite on_proc_eq. unfold ReadGuard_new. by rewrite bind_eq, install_ok.
Qed.

Lemma after_call_from t p p0 k p' :
  only_thread t p p0 -> after_call t p0 k p' -> after_call t p k p'.
Proof. intros H []. split; [done|done|by eapply only_thread_trans|done]. Qed.

(** ** From the raw read to the checked access *)

Lemma count_fault_ok {R} t m p0 (s : sres K R) o :
  menv_ok m -> poisoned (m_self m) = false -> only_thread t (m_proc m) p0 ->
  guard_outcome t p0 s o ->
  access_outcome t m s
    match o with
    | Done r p' =>
        (_ ← (match r with
              | Err (Sigbus a) => record_sigbus_from (Sigbus a)
              | _ => mret tt
              end); mret r) (MkMenv p' (m_self m) (m_user m))
    | Stop w p' => Stop w (MkMenv p' (m_self m) (m_user m))
    end.
Proof.
  intros [_ _ Hpi Hcb] Hpo Ht Hg. destruct s as [v ar k'|a k'|w k']; cbn in Hg |- *.
  - destruct Hg as (p' & -> & Ha). exists p'. split; [done|]. by eapply after_call_from.
  - destruct Hg as (p' & -> & Ha).
    destruct (record_ok a (MkMenv p' (m_self m) (m_user m)) Hcb) as (u' & E & Hev).
    { apply Hpi. } { by apply poison_inv_room. }
    exists p', u'. rewrite bind_eq, E. split; [done|]. split; [|done]. by eapply after_call_from.
  - destruct Hg as (p' & -> & Hk). by exists p'.
Qed.

Lemma protect_outcome {R} t (q : prog R) p :
  proc_ok p ->
  guard_outcome t p (spec_exec (covered p) q true (p_os p))
    match protect t q p with
    | Done r p' => Done (map_err Sigbus r) p'
    | Stop w p' => Stop w p'
    end.
Proof.
  intros Hok. pose proof (protect_ok t q p Hok) as Hp. unfold guard_outcome.
  destruct (spec_exec _ _ _ _); destruct Hp as (p' & -> & ?); by exists p'.
Qed.

Lemma finish_copy_eq r m :
  finish_copy r m =
    (_ ← (match map_err Sigbus r with
          | Err (Sigbus a) => record_sigbus_from (Sigbus a)
          | _ => mret tt
          end); mret (map_err Sigbus r)) m.
Proof. by destruct r as [[]|]. Qed.

Lemma copy_access t m (q : prog unit) :
  menv_ok m -> poisoned (m_self m) = false ->
  access_outcome t m (spec_exec (covered (m_proc m)) q true (p_os (m_proc m)))
    ((r ← on_proc (protect t q); finish_copy r) m).
Proof.
  intros Hok Hpo. pose proof (protect_outcome t q (m_proc m) (mo_proc _ Hok)) as Hp.
  pose proof (count_fault_ok t m (m_proc m) _ _ Hok Hpo ltac:(by split) Hp) as Hc.
  rewrite bind_eq, on_proc_eq. destruct (protect t q (m_proc m)); [|done].
  by rewrite finish_copy_eq.
Qed.

(** ** The checked operations *)

Lemma read_ok {R} t rs re (f : Z -> Z -> prog R) m :
  menv_ok m -> poisoned (m_self m) = false -> 0 <= rs <= re -> is_usize re ->
  (raw_len (raw (m_self m)) < re /\
   SafeMmap_read t rs re f m =
     Done (Err (OutOfBounds rs (re - rs) (raw_len (raw (m_self m)))))
       (MkMenv (installed (m_proc m)) (m_self m) (m_user m))) \/
  (re <= raw_len (raw (m_self m)) /\
   access_outcome t m
     (spec_exec (covered (m_proc m)) (f (raw_ptr (raw (m_self m)) + rs) (re - rs)) true
        (p_os (m_proc m)))
     (SafeMmap_read t rs re f m)).
Proof.
  intros Hok Hpo Hr Hu. pose proof (mo_proc _ Hok) as Hp.
  pose proof (RawMmap_wf_usize _ (mo_raw _ Hok)) as Hlen. unfold SafeMmap_read.
  rewrite try_bind_eq, check_poisoned_eq, Hpo. cbv beta iota.
  rewrite bind_eq, guard_ok by done. cbv beta iota.
  rewrite bind_eq, usub_ok by (unfold is_usize in *; lia). cbv beta iota.
  rewrite bind_eq, on_proc_eq. cbn [m_proc m_self m_user].
  destruct (guard_read_ok t {| guard_raw := raw (m_self m) |} rs (re - rs) f
    (installed (m_proc m)) (installed_ok _ Hp) Hlen) as [[Hlt E]|[Hle Hg]];
    cbn [guard_raw] in *; replace (rs + (re - rs)) with re in * by lia.
  - left. split; [done|]. rewrite E. done.
  - right. split; [done|]. pose proof (count_fault_ok t m _ _ _ Hok Hpo (installed_only t _) Hg) as Hc.
    by destruct (ReadGuard_read _ _ _ _ _ _).
Qed.

(** [end - start] of a range whose end is before its start. *)
Lemma read_inverted_ok {R} t rs re (f : Z -> Z -> prog R) m :
  menv_ok m -> poisoned (m_self m) = false -> 0 <= re < rs -> is_usize rs ->
  SafeMmap_read t rs re f m =
    if overflow_checks then Stop StopPanic (MkMenv (installed (m_proc m)) (m_self m) (m_user m))
    else Done (Err (OutOfBounds rs (re - rs + usize_modulus) (raw_len (raw (m_self m)))))
           (MkMenv (installed (m_proc m)) (m_self m) (m_user m)).
Proof.
  intros Hok Hpo Hr Hu. pose proof (mo_proc _ Hok) as Hp.
  pose proof (RawMmap_wf_usize _ (mo_raw _ Hok)) as Hlen.
  unfold SafeMmap_read. rewrite try_bind_eq, check_poisoned_eq, Hpo. cbv beta iota.
  rewrite bind_eq, guard_ok by done. cbv beta iota. rewrite bind_eq. unfold usub.
  destruct (Z.ltb_spec (re - rs) 0); [|lia]. destruct overflow_checks; [done|]. cbn [andb].
  assert ((re - rs) mod usize_modulus = re - rs + usize_modulus) as ->.
  { rewrite <- (Z.mod_add _ 1) by done. rewrite Z.mod_small; [lia|]. unfold is_usize in Hu. lia. }
  unfold mret at 1, M_ret. rewrite bind_eq, on_proc_eq. cbn [m_proc m_self m_user].
  unfold ReadGuard_read. rewrite range_exceeds_spec by done. cbn [guard_raw].
  unfold is_usize in Hlen.
  destruct (Z.ltb_spec (raw_len (raw (m_self m))) (rs + (re - rs + usize_modulus))); [done|lia].
Qed.

(** A poisoned mapping: nothing happens. *)
Lemma read_poisoned {R} t rs re (f : Z -> Z -> prog R) m :
  poisoned (m_self m) = true ->
  SafeMmap_read t rs re f m = Done (Err (Poisoned (sigbus_count (m_self m)))) m.
Proof. intros Hpo. unfold SafeMmap_read. by rewrite try_bind_eq, check_poisoned_eq, Hpo. Qed.

Lemma copy_poisoned t offset ptr len m :
  poisoned (m_self m) = true ->
  SafeMmap_write t offset ptr len m = Done (Err (Poisoned (sigbus_count (m_self m)))) m /\
  SafeMmap_read_into t offset ptr len m = Done (Err (Poisoned (sigbus_count (m_self m)))) m.
Proof.
  intros Hpo. unfold SafeMmap_write, SafeMmap_read_into. by rewrite !try_bind_eq, check_poisoned_eq, Hpo.
Qed.

Lemma write_ok t offset data_ptr data_len m :
  menv_ok m -> poisoned (m_self m) = false ->
  let self := m_self m in
  SafeMmap_write t offset data_ptr data_len m =
    if raw_len (raw self) <? offset + data_len then
      Done (Err (OutOfBounds offset data_len (raw_len (raw self)))) m
    else if raw_writable (raw self) then
      (r ← on_proc (protect t
         (copy_nonoverlapping data_ptr (raw_ptr (raw self) + offset) (Z.to_nat data_len)));
       finish_copy r) m
    else Done (Err (Io (NewError PermissionDenied "mapping is read-only"))) m.
Proof.
  intros Hok Hpo self. pose proof (RawMmap_wf_usize _ (mo_raw _ Hok)) as Hlen.
  unfold SafeMmap_write. rewrite try_bind_eq, check_poisoned_eq, Hpo. cbv beta iota.
  rewrite try_bind_eq. unfold self_get, gets. rewrite check_bounds_eq by done. fold self.
  destruct (_ <? _); [done|]. cbv beta iota. rewrite try_bind_eq. unfold RawMmap_as_mut_ptr.
  fold self. by destruct (raw_writable (raw self)).
Qed.

Lemma read_into_ok t offset buf_ptr buf_len m :
  menv_ok m -> poisoned (m_self m) = false ->
  let self := m_self m in
  SafeMmap_read_into t offset buf_ptr buf_len m =
    if raw_len (raw self) <? offset + buf_len then
      Done (Err (OutOfBounds offset buf_len (raw_len (raw self)))) m
    else
      (r ← on_proc (protect t
         (copy_nonoverlapping (raw_ptr (raw self) + offset) buf_ptr (Z.to_nat buf_len)));
       finish_copy r) m.
Proof.
  intros Hok Hpo self. pose proof (RawMmap_wf_usize _ (mo_raw _ Hok)) as Hlen.
  unfold SafeMmap_read_into. rewrite try_bind_eq, check_poisoned_eq, Hpo. cbv beta iota.
  rewrite try_bind_eq. unfold self_get, gets. rewrite check_bounds_eq by done. fold self.
  destruct (_ <? _); [done|]. by rewrite bind_eq.
Qed.

(** ** Probing *)

(** What a [probe] gives, in terms of the bytes it reads. *)
Definition probe_outcome (t : tid) m (r : touch_result K)
    (o : outcome (menv K T C) (result unit AccessError)) : Prop :=
  match r with
  | TouchedAll k' => exists p', o = Done (Ok tt) (MkMenv p' (m_self m) (m_user m)) /\
      quiet t (m_proc m) k' p'
  | TouchFault a k' =>
      if covered (m_proc m) a then exists p' u',
        o = Done (Err (Sigbus a)) (MkMenv p' (counted (m_self m)) u') /\
        quiet t (m_proc m) k' p' /\
        run_events (on_event (m_self m)) (fault_events a (m_self m)) (m_user m) = Done tt u'
      else exists m', o = Stop (StopKilled SIGBUS) m'
  | TouchSegv k' => exists m', o = Stop (StopKilled SIGSEGV) m'
  end.

Lemma probe_outcome_step t p k p' self u r o :
  quiet t p k p' -> probe_outcome t (MkMenv p' self u) r o -> probe_outcome t (MkMenv p self u) r o.
Proof.
  intros Hq. destruct r as [k'|a k'|k']; cbn; [| |done].
  - intros (p2 & -> & H). exists p2. split; [done|]. by eapply quiet_trans.
  - rewrite (quiet_covered _ _ _ _ _ Hq). destruct (covered p a); [|done].
    intros (p2 & u' & -> & H & Hu). exists p2, u'. split; [done|]. split; [|done].
    by eapply quiet_trans.
Qed.

(** One probed byte of the mapping. *)
Lemma read_byte_ok t g pos p :
  proc_ok p -> is_usize (raw_len (guard_raw g)) -> pos + 1 <= raw_len (guard_raw g) ->
  touch_outcome t p
    match load (p_os p) (raw_ptr (guard_raw g) + pos) with
    | (k', Access b) => TouchedAll k'
    | (k', BusError f) => TouchFault f k'
    | (k', SegFault) => TouchSegv k'
    end tt Sigbus
    match ReadGuard_read t g pos 1 index0 p with
    | Done r p' => Done (match r with Ok _ => Ok tt | Err e => Err e end) p'
    | Stop w p' => Stop w p'
    end.
Proof.
  intros Hok Hu Hle. unfold ReadGuard_read. rewrite range_exceeds_spec by done.
  destruct (Z.ltb_spec (raw_len (guard_raw g)) (pos + 1)); [lia|]. cbv zeta. rewrite bind_eq.
  change (index0 (RawMmap_as_ptr (guard_raw g) + pos) 1)
    with (PLoad (raw_ptr (guard_raw g) + pos) (fun b => PRet b)).
  pose proof (protect_load t (raw_ptr (guard_raw g) + pos) (fun b => b) p Hok) as Hb.
  destruct (load _ _) as [k' [b|f|]]; cbn [touch_outcome].
  - destruct Hb as (p' & -> & ?). by exists p'.
  - destruct (covered p f); [destruct Hb as (p' & -> & ?)|destruct Hb as (p' & ->)]; by exists p'.
  - destruct Hb as (p' & ->). by exists p'.
Qed.

Lemma probe_loop_ok fuel t g offset len pos p self u :
  proc_ok p -> raw self = guard_raw g -> RawMmap_wf (guard_raw g) ->
  callback_returns self -> poison_inv self -> poisoned self = false ->
  0 <= offset -> 0 <= len -> 0 <= pos -> offset + len <= raw_len (guard_raw g) ->
  (probe_count sysconf_pagesize (offset + len - pos) < fuel)%nat ->
  probe_outcome t (MkMenv p self u)
    (touch_all ((fun o => raw_ptr (guard_raw g) + o) <$>
                  probe_offsets sysconf_pagesize pos (offset + len - pos)) (p_os p))
    (probe_loop fuel t g offset len sysconf_pagesize pos (MkMenv p self u)).
Proof.
  intros Hp Hraw Hwf Hcb Hpi Hpo Ho Hl Hpos Hle Hfuel.
  pose proof page_pos as Hpage. pose proof page_small as Hsmall.
  pose proof (RawMmap_wf_len _ Hwf) as Hlen. pose proof (RawMmap_wf_usize _ Hwf) as Hlu.
  assert (Hbig : isize_max + 2 ^ 62 < usize_modulus) by reflexivity.
  revert pos p Hp Hpos Hfuel. induction fuel as [|fuel IH]; intros pos p Hp Hpos Hfuel; [lia|].
  cbn [probe_loop]. rewrite bind_eq, uadd_ok by lia. cbv beta iota.
  destruct (Z.ltb_spec pos (offset + len)) as [Hlt|Hge].
  - rewrite probe_offsets_cons by lia. rewrite fmap_cons. cbn [touch_all].
    rewrite bind_eq, on_proc_eq. cbn [m_proc m_self m_user].
    pose proof (read_byte_ok t g pos p Hp Hlu ltac:(lia)) as Hb.
    destruct (load _ _) as [k' [b|f|]]; cbn [touch_outcome] in Hb.
    + destruct Hb as (p' & E & Hq). destruct (ReadGuard_read _ _ _ _ _ _) as [[|] q|]; [|done..].
      injection E as ->. rewrite bind_eq, uadd_ok by lia. cbv beta iota.
      pose proof Hq as (<- & Hp' & _). eapply probe_outcome_step; [done|].
      replace (offset + len - pos - sysconf_pagesize)
        with (offset + len - (pos + sysconf_pagesize)) by lia.
      apply IH; [done|lia|]. rewrite (probe_count_step sysconf_pagesize) in Hfuel by lia.
      replace (offset + len - (pos + sysconf_pagesize))
        with (offset + len - pos - sysconf_pagesize) by lia. lia.
    + cbn [probe_outcome m_proc]. destruct (covered p f).
      * destruct Hb as (p' & E & Hq). destruct (ReadGuard_read _ _ _ _ _ _) as [[|] q|]; [done| |done].
        injection E as -> ->.
        destruct (record_ok f (MkMenv p' self u) Hcb) as (u' & E & Hev).
        { apply Hpi. } { by apply poison_inv_room. }
        exists p', u'. by rewrite bind_eq, E.
      * destruct Hb as (p' & E). destruct (ReadGuard_read _ _ _ _ _ _) as [[|] q|]; [done..|].
        injection E as ->. by eexists.
    + destruct Hb as (p' & E). destruct (ReadGuard_read _ _ _ _ _ _) as [[|] q|]; [done..|].
      injection E as ->. by eexists.
  - rewrite probe_offsets_nil by lia. cbn. exists p. split; [done|]. by apply quiet_refl.
Qed.

Lemma probe_ok t offset len m :
  menv_ok m -> poisoned (m_self m) = false -> 0 <= offset -> 0 <= len ->
  let raw := raw (m_self m) in
  (raw_len raw < offset + len /\
   SafeMmap_probe t offset len m = Done (Err (OutOfBounds offset len (raw_len raw))) m) \/
  (offset + len <= raw_len raw /\
   probe_outcome t m
     (touch_all ((fun o => raw_ptr raw + o) <$> probe_offsets sysconf_pagesize offset len)
        (p_os (m_proc m)))
     (SafeMmap_probe t offset len m)).
Proof.
  intros Hok Hpo Ho Hl rw. pose proof Hok as [Hp Hwf Hpi Hcb].
  pose proof page_pos as Hpage. pose proof (RawMmap_wf_usize _ Hwf) as Hlen.
  unfold SafeMmap_probe. rewrite try_bind_eq, check_poisoned_eq, Hpo. cbv beta iota.
  rewrite try_bind_eq. unfold self_get, gets. rewrite check_bounds_eq by done. fold rw.
  destruct (Z.ltb_spec (raw_len rw) (offset + len)) as [|Hle]; [by left|right]. split; [done|].
  cbv beta iota. rewrite bind_eq, guard_ok by done. cbv beta iota.
  rewrite bind_eq, page_size_ok. cbv beta iota. destruct m as [p self u]. cbn [m_proc m_self m_user] in *.
  pose proof (probe_loop_ok (S (Z.to_nat len)) t {| guard_raw := rw |} offset len offset
    (installed p) self u (installed_ok _ Hp) eq_refl Hwf Hcb Hpi Hpo Ho Hl Ho Hle) as H.
  replace (offset + len - offset) with len in H by lia.
  assert (Hf : (probe_count sysconf_pagesize len < S (Z.to_nat len))%nat).
  { pose proof (probe_count_fuel sysconf_pagesize (proj1 Hpage) len Hl). lia. }
  specialize (H Hf). eapply probe_outcome_step; [|apply H].
  split_and!; [done|by apply installed_ok|apply installed_only].
Qed.
End MethodLemmas.

(** * Sequences of checked accesses *)

Section Sequences.
Context `{PR : Profile} `{LC : Libc} `{SC : Sysconf} `{SCok : !SysconfOk}.
Context `{AL : Allocator} `{ALok : !AllocatorOk}.
Context {K T C : Type} `{VMK : !VM K} `{PE : !ProcEnv T} `{PEok : !ProcEnvOk T}.
Implicit Types (m : menv K T C) (p : proc K T).

(** The operations of a [SafeMmap] that check the poison flag. *)
Inductive checked_op :=
  | OpRead {R} (rs re : Z) (f : Z -> Z -> prog R)
  | OpWrite (offset data_ptr data_len : Z)
  | OpReadInto (offset buf_ptr buf_len : Z)
  | OpProbe (offset len : Z).

Definition discard {R} (r : result R AccessError) : result unit AccessError :=
  match r with Ok _ => Ok tt | Err e => Err e end.

Definition run_op (t : tid) (o : checked_op) : M (menv K T C) (result unit AccessError) :=
  match o with
  | OpRead rs re f => r ← SafeMmap_read t rs re f; mret (discard r)
  | OpWrite offset ptr len => SafeMmap_write t offset ptr len
  | OpReadInto offset ptr len => SafeMmap_read_into t offset ptr len
  | OpProbe offset len => SafeMmap_probe t offset len
  end.

Fixpoint run_ops (t : tid) (os : list checked_op) :
    M (menv K T C) (list (result unit AccessError)) :=
  match os with
  | [] => mret []
  | o :: os => r ← run_op t o; rs ← run_ops t os; mret (r :: rs)
  end.

Definition op_fits (o : checked_op) : Prop :=
  match o with
  | OpRead rs re _ => 0 <= rs <= re /\ is_usize re
  | OpWrite offset _ len | OpReadInto offset _ len | OpProbe offset len =>
      is_usize offset /\ is_usize len
  end.

Definition is_fault (r : result unit AccessError) : bool :=
  match r with Err e => is_sigbus e | Ok _ => false end.

Definition faults (rs : list (result unit AccessError)) : Z :=
  Z.of_nat (length (filter (fun r => is_fault r = true) rs)).

Lemma faults_cons r rs : faults (r :: rs) = (if is_fault r then 1 else 0) + faults rs.
Proof.
  unfold faults. rewrite filter_cons. destruct (is_fault r).
  - rewrite decide_True by done. cbn [length]. lia.
  - rewrite decide_False by done. lia.
Qed.

(** Ends of the process a closure can cause. *)
Definition fatal (w : stop_reason) : Prop :=
  w = StopAbort \/ w = StopKilled SIGBUS \/ w = StopKilled SIGSEGV.

Lemma spec_fatal {R} cov (q : prog R) armed (k : K) w k' :
  spec_exec cov q armed k = SDead w k' -> fatal (abort_reason w).
Proof.
  intros H. destruct (spec_dead _ _ _ _ _ _ H) as [->|[->|[->| ->]]]; unfold fatal; cbn; auto.
Qed.

(** One operation: it keeps the invariants, counts its fault and no other, and
    on a poisoned mapping does nothing. *)
Definition step_ok (t : tid) m (o : outcome (menv K T C) (result unit AccessError)) : Prop :=
  (exists r m', o = Done r m' /\ menv_ok m' /\ only_thread t (m_proc m) (m_proc m') /\
     accesses (p_os (m_proc m)) (p_os (m_proc m')) /\ raw (m_self m') = raw (m_self m) /\
     max_sigbus (m_self m') = max_sigbus (m_self m) /\
     sigbus_count (m_self m') = sigbus_count (m_self m) + (if is_fault r then 1 else 0) /\
     (poisoned (m_self m) = true -> r = Err (Poisoned (sigbus_count (m_self m))))) \/
  (exists w m', o = Stop w m' /\ fatal w).

Lemma step_keeps t m k' p' r :
  menv_ok m -> poisoned (m_self m) = false -> quiet t (m_proc m) k' p' ->
  accesses (p_os (m_proc m)) k' -> is_fault r = false ->
  step_ok t m (Done r (MkMenv p' (m_self m) (m_user m))).
Proof.
  intros [_ ? ? ?] Hpo (<- & Hp & Ht) Ha Hr. left. do 2 eexists. split; [done|]. cbn.
  rewrite Hr, Hpo. split_and!; done || lia.
Qed.

Lemma step_counts t m k' p' u' a :
  menv_ok m -> poisoned (m_self m) = false -> quiet t (m_proc m) k' p' ->
  accesses (p_os (m_proc m)) k' ->
  step_ok t m (Done (Err (Sigbus a)) (MkMenv p' (counted (m_self m)) u')).
Proof.
  intros [_ ? ? ?] Hpo (<- & Hp & Ht) Ha. left. do 2 eexists. split; [done|].
  destruct (counted_keeps (m_self m)) as (Hraw & _ & Hmax & _). cbn.
  split_and!; [|done..| |by rewrite Hpo].
  - split; cbn; [done|by rewrite Hraw|by apply counted_inv|by apply counted_returns].
  - unfold counted. by destruct (_ <=? _).
Qed.

Lemma access_step_ok {R} t m (q : prog R) o :
  menv_ok m -> poisoned (m_self m) = false ->
  access_outcome t m (spec_exec (covered (m_proc m)) q true (p_os (m_proc m))) o ->
  step_ok t m match o with Done r m' => Done (discard r) m' | Stop w m' => Stop w m' end.
Proof.
  intros Hok Hpo. pose proof (spec_accesses (covered (m_proc m)) q true (p_os (m_proc m))) as Hs.
  destruct (spec_exec _ _ _ _) as [v ar k'|a k'|w k'] eqn:E; cbn.
  - intros (p' & -> & Ha). eapply step_keeps; [done|done|by apply after_call_quiet|done|done].
  - intros (p' & u' & -> & Ha & _). eapply step_counts; [done|done|by apply after_call_quiet|done].
  - intros (p' & -> & _). right. do 2 eexists. split; [done|]. by eapply spec_fatal.
Qed.

Lemma discard_id (r : result unit AccessError) : discard r = r.
Proof. by destruct r as [[]|]. Qed.

Lemma copy_step t m q :
  menv_ok m -> poisoned (m_self m) = false ->
  step_ok t m ((r ← on_proc (protect t q); finish_copy r) m).
Proof.
  intros Hok Hpo. pose proof (access_step_ok t m q _ Hok Hpo (copy_access t m q Hok Hpo)) as H.
  destruct ((r ← on_proc (protect t q); finish_copy r) m); [by rewrite discard_id in H|done].
Qed.

Lemma step_same t m r :
  menv_ok m -> poisoned (m_self m) = false -> is_fault r = false -> step_ok t m (Done r m).
Proof.
  intros Hok Hpo Hr. pose proof (mo_proc _ Hok). destruct m.
  eapply step_keeps; [done|done|by apply quiet_refl|apply rtc_refl|done].
Qed.

Lemma op_poisoned t o m :
  poisoned (m_self m) = true ->
  run_op t o m = Done (Err (Poisoned (sigbus_count (m_self m)))) m.
Proof.
  intros Hpo. destruct o; cbn [run_op]; rewrite ?bind_eq;
    unfold SafeMmap_read, SafeMmap_write, SafeMmap_read_into, SafeMmap_probe;
    by rewrite try_bind_eq, check_poisoned_eq, Hpo.
Qed.

Lemma probe_step t m r o :
  menv_ok m -> poisoned (m_self m) = false -> probe_outcome t m r o ->
  match r with TouchedAll k | TouchFault _ k | TouchSegv k => accesses (p_os (m_proc m)) k end ->
  step_ok t m o.
Proof.
  intros Hok Hpo H Ha. destruct r as [k'|a k'|k']; cbn in H.
  - destruct H as (p' & -> & Hq). by eapply step_keeps.
  - destruct (covered _ a).
    + destruct H as (p' & u' & -> & Hq & _). by eapply step_counts.
    + destruct H as (m' & ->). right. do 2 eexists. split; [done|]. unfold fatal. auto.
  - destruct H as (m' & ->). right. do 2 eexists. split; [done|]. unfold fatal. auto.
Qed.

Lemma op_ok t o m : menv_ok m -> op_fits o -> step_ok t m (run_op t o m).
Proof.
  intros Hok Hf. destruct (poisoned (m_self m)) eqn:Hpo.
  { left. rewrite op_poisoned by done. do 2 eexists. split; [done|]. cbn.
    split_and!; try done. lia. }
  pose proof (mo_proc _ Hok) as Hp.
  destruct o as [R rs re f|offset ptr len|offset ptr len|offset len]; cbn [run_op op_fits] in *.
  - rewrite bind_eq.
    destruct (read_ok t rs re f m Hok Hpo) as [[_ ->]|[_ Ha]]; [lia|apply Hf| |].
    + eapply step_keeps; [done|done| |apply rtc_refl|done].
      split_and!; [done|by apply installed_ok|apply installed_only].
    + apply access_step_ok in Ha; [|done..]. by destruct (SafeMmap_read _ _ _ _ _).
  - rewrite write_ok by done. destruct (_ <? _); [by apply step_same|].
    destruct (raw_writable _); [by apply copy_step|by apply step_same].
  - rewrite read_into_ok by done. destruct (_ <? _); [by apply step_same|by apply copy_step].
  - destruct Hf as [[Ho _] [Hl _]].
    destruct (probe_ok t offset len m Hok Hpo Ho Hl) as [[_ ->]|[_ H]]; [by apply step_same|].
    eapply probe_step; [done|done|exact H|]. apply touch_accesses.
Qed.

(** A sequence: faults add up, and from the fault that poisons the mapping on
    every operation is refused. *)
Lemma ops_ok t os m :
  menv_ok m -> Forall op_fits os ->
  (exists rs m', run_ops t os m = Done rs m' /\ menv_ok m' /\
     max_sigbus (m_self m') = max_sigbus (m_self m) /\
     sigbus_count (m_self m') = sigbus_count (m_self m) + faults rs /\
     forall i r, rs !! i = Some r ->
       Z.max 1 (max_sigbus (m_self m)) <= sigbus_count (m_self m) + faults (take i rs) ->
       r = Err (Poisoned (sigbus_count (m_self m) + faults (take i rs)))) \/
  (exists w m', run_ops t os m = Stop w m' /\ fatal w).
Proof.
  revert m. induction os as [|o os IH]; intros m Hok Hf.
  { left. exists [], m. cbn. split_and!; [done..|unfold faults; cbn; lia|done]. }
  apply Forall_cons in Hf as [Ho Hf]. cbn [run_ops]. rewrite bind_eq.
  destruct (op_ok t o m Hok Ho) 
    as [(r & m1 & -> & Hok1 & _ & _ & _ & Hmax & Hc & Hpo)|(w & m1 & -> & Hw)];
    [|right; eauto].
  rewrite bind_eq. destruct (IH m1 Hok1 Hf) as [(rs & m2 & -> & Hok2 & Hmax2 & Hc2 & Hr)|H];
    [left|right; destruct H as (w & m2 & -> & Hw); eauto].
  exists (r :: rs), m2. split; [done|]. rewrite faults_cons. split_and!; [done|congruence|lia|].
  intros [|i] x Hx; cbn [lookup list_lookup take] in *.
  - injection Hx as ->. unfold faults. cbn. rewrite Z.add_0_r. intros Hle. apply Hpo.
    apply (pi_poisoned _ (mo_poison _ Hok)). lia.
  - rewrite faults_cons. specialize (Hr i x Hx). rewrite Hmax, Hc in Hr. intros Hle.
    rewrite <- Z.add_assoc in Hr. by apply Hr.
Qed.
End Sequences.

(** * Properties *)

Section Theorems.
Context `{PR : Profile} `{LC : Libc} `{SC : Sysconf} `{SCok : !SysconfOk}.
Context `{AL : Allocator} `{ALok : !AllocatorOk}.
Context {K T C : Type} `{VMK : !VM K} `{PE : !ProcEnv T} `{PEok : !ProcEnvOk T}.
Implicit Types (m : menv K T C) (p : proc K T).

(** C5 (functional): what [SafeMmap::read] does on every branch, with an event
    callback that returns. A poisoned mapping refuses it with its count, and
    nothing else happens. Otherwise a range whose end is before its start panics
    or is refused as [OutOfBounds], by build profile; one that leaves the mapping
    is refused as [OutOfBounds]; neither runs the closure or touches memory. For
    any other range the closure gets exactly the requested slice, its value is
    returned, and a SIGBUS it raises inside a registered region comes back as
    [Err(Sigbus)], counted once and reported to the callback, with the mapping
    poisoned exactly when the count reaches the limit. *)
Theorem read_result {R} t rs re (f : Z -> Z -> prog R) m :
  menv_ok m -> is_usize rs -> is_usize re ->
  let self := m_self m in
  let untouched o := exists p', only_thread t (m_proc m) p' /\ p_os p' = p_os (m_proc m) /\
    SafeMmap_read t rs re f m = o (MkMenv p' self (m_user m)) in
  if poisoned self then SafeMmap_read t rs re f m = Done (Err (Poisoned (sigbus_count self))) m
  else if re <? rs then
    untouched (if overflow_checks then Stop StopPanic
               else Done (Err (OutOfBounds rs (re - rs + usize_modulus) (raw_len (raw self)))))
  else if raw_len (raw self) <? re then
    untouched (Done (Err (OutOfBounds rs (re - rs) (raw_len (raw self)))))
  else
    access_outcome t m
      (spec_exec (covered (m_proc m)) (f (raw_ptr (raw self) + rs) (re - rs)) true (p_os (m_proc m)))
      (SafeMmap_read t rs re f m).
Proof.
  intros Hok Hrs Hre self untouched. destruct (poisoned self) eqn:Hpo; [by apply read_poisoned|].
  assert (Hun : forall o, SafeMmap_read t rs re f m = o (MkMenv (installed (m_proc m)) self (m_user m)) -> untouched o).
  { intros o E. exists (installed (m_proc m)). split; [apply installed_only|done]. }
  unfold is_usize in Hrs, Hre. destruct (Z.ltb_spec re rs).
  { apply Hun. rewrite read_inverted_ok by (done || unfold is_usize; lia). by destruct overflow_checks. }
  destruct (read_ok t rs re f m Hok Hpo ltac:(lia) Hre) as [[Hlt E]|[Hle Ha]]; subst self.
  - destruct (Z.ltb_spec (raw_len (raw (m_self m))) re); [by apply Hun|lia].
  - destruct (Z.ltb_spec (raw_len (raw (m_self m))) re); [lia|done].
Qed.

(** C16 (functional): [write] and [read_into] on every branch, with an event
    callback that returns: a poisoned mapping refuses them with its count; the
    bounds check comes next, before the permission check of [write], and all
    three before any access; then the copy runs under protection with the
    outcome of a checked access. *)
Theorem copy_result t offset ptr len m :
  menv_ok m ->
  let self := m_self m in
  if poisoned self then
    SafeMmap_write t offset ptr len m = Done (Err (Poisoned (sigbus_count self))) m /\
    SafeMmap_read_into t offset ptr len m = Done (Err (Poisoned (sigbus_count self))) m
  else if raw_len (raw self) <? offset + len then
    SafeMmap_write t offset ptr len m = Done (Err (OutOfBounds offset len (raw_len (raw self)))) m /\
    SafeMmap_read_into t offset ptr len m =
      Done (Err (OutOfBounds offset len (raw_len (raw self)))) m
  else
    access_outcome t m
      (spec_exec (covered (m_proc m))
         (copy_nonoverlapping (raw_ptr (raw self) + offset) ptr (Z.to_nat len)) true
         (p_os (m_proc m)))
      (SafeMmap_read_into t offset ptr len m) /\
    if raw_writable (raw self) then
      access_outcome t m
        (spec_exec (covered (m_proc m))
           (copy_nonoverlapping ptr (raw_ptr (raw self) + offset) (Z.to_nat len)) true
           (p_os (m_proc m)))
        (SafeMmap_write t offset ptr len m)
    else
      SafeMmap_write t offset ptr len m =
        Done (Err (Io (NewError PermissionDenied "mapping is read-only"))) m.
Proof.
  intros Hok self. destruct (poisoned self) eqn:Hpo; [by apply copy_poisoned|].
  rewrite write_ok, read_into_ok by done. fold self.
  destruct (_ <? _); [done|]. split; [by apply copy_access|].
  destruct (raw_writable (raw self)); [by apply copy_access|done].
Qed.

(** once the poison flag is set, every checked operation returns
    [Poisoned] with the current count, and changes nothing: no memory is
    touched, no handler is installed, no thread is started. *)
Theorem poisoned_refuses {R} t m deadline rs re (f : Z -> Z -> prog R) offset ptr len timeout :
  poisoned (m_self m) = true ->
  let e := Poisoned (sigbus_count (m_self m)) in
  SafeMmap_read t rs re f m = Done (Err e) m /\
  SafeMmap_write t offset ptr len m = Done (Err e) m /\
  SafeMmap_read_into t offset ptr len m = Done (Err e) m /\
  SafeMmap_probe t offset len m = Done (Err e) m /\
  SafeMmap_prefetch_with_timeout deadline offset len timeout m = Done (Err e) m.
Proof.
  intros Hpo e. destruct (copy_poisoned t offset ptr len m Hpo) as [-> ->]. rewrite read_poisoned by done.
  unfold SafeMmap_probe, SafeMmap_prefetch_with_timeout. by rewrite !try_bind_eq, check_poisoned_eq, Hpo.
Qed.

(** C6 (invariant): over any sequence of checked operations, the process survives or ends
    by a default signal action or an abort; the count rises by exactly the
    number of [Sigbus] errors returned; the flag is set exactly when the
    count has reached both one and the limit; and every operation after that
    many faults is refused as [Poisoned]. In particular the [u32] counter
    never wraps. *)
Theorem faults_poison t os m :
  menv_ok m -> Forall op_fits os ->
  (exists rs m', run_ops t os m = Done rs m' /\
     sigbus_count (m_self m') = sigbus_count (m_self m) + faults rs /\
     (poisoned (m_self m') = true <->
        1 <= sigbus_count (m_self m') /\ max_sigbus (m_self m) <= sigbus_count (m_self m')) /\
     sigbus_count (m_self m') <= Z.max 1 (max_sigbus (m_self m)) /\
     forall i r, rs !! i = Some r ->
       Z.max 1 (max_sigbus (m_self m)) <= sigbus_count (m_self m) + faults (take i rs) ->
       r = Err (Poisoned (sigbus_count (m_self m) + faults (take i rs)))) \/
  (exists w m', run_ops t os m = Stop w m' /\ fatal w).
Proof.
  intros Hok Hf. destruct (ops_ok t os m Hok Hf) as [(rs & m' & E & Hok' & Hmax & Hc & Hr)|H];
    [left|by right].
  exists rs, m'. destruct (mo_poison _ Hok') as [_ Hp [_ Hcnt]]. rewrite Hmax in *. by split_and!.
Qed.

(** a [ReadGuard] neither looks at the poison flag nor counts: whatever the
    flag, the count and the limit, a read through it runs the closure on the
    mapping, and a fault it returns leaves the mapping's atomics as they
    were. *)
Theorem guard_ignores_poison {R} t offset len (f : Z -> Z -> prog R) p (self : SafeMmap C) u :
  proc_ok p -> RawMmap_wf (raw self) -> 0 <= offset -> 0 <= len ->
  offset + len <= raw_len (raw self) ->
  let run := g ← SafeMmap_guard; on_proc (ReadGuard_read t g offset len f) in
  match spec_exec (covered p) (f (raw_ptr (raw self) + offset) len) true (p_os p) with
  | SVal v _ k' => exists p', run (MkMenv p self u) = Done (Ok v) (MkMenv p' self u)
  | SCaught a k' => exists p', run (MkMenv p self u) = Done (Err (Sigbus a)) (MkMenv p' self u)
  | SDead w k' => exists p', run (MkMenv p self u) = Stop (abort_reason w) (MkMenv p' self u)
  end.
Proof.
  intros Hp Hwf Ho Hl Hle run. unfold run. rewrite bind_eq. unfold SafeMmap_guard.
  rewrite bind_eq. unfold self_get, gets. cbv beta iota. rewrite on_proc_eq. unfold ReadGuard_new.
  rewrite bind_eq, install_ok by done. unfold mret at 1 2 3, M_ret. rewrite on_proc_eq.
  cbn [m_proc m_self m_user].
  destruct (guard_read_ok t {| guard_raw := raw self |} offset len f (installed p)
    (installed_ok _ Hp) (RawMmap_wf_usize _ Hwf)) as [[Hlt _]|[_ Hg]]; [cbn in Hlt; lia|].
  cbn [guard_raw] in Hg. unfold guard_outcome in Hg.
  change (covered (installed p)) with (covered p) in Hg.
  change (p_os (installed p)) with (p_os p) in Hg.
  destruct (spec_exec _ _ _ _); destruct Hg as (p' & -> & _); by exists p'.
Qed.


(** C37 (functional): what [probe] does on a mapping that is not poisoned: a range that
    leaves the mapping is refused; otherwise it reads the bytes at
    [offset], [offset + page], ... below the end of the range, in order,
    stops at the first that faults, and returns (its loop ends within the
    fuel of the model). *)
Theorem probe_result t offset len m :
  menv_ok m -> poisoned (m_self m) = false -> 0 <= offset -> 0 <= len ->
  let raw := raw (m_self m) in
  (raw_len raw < offset + len /\
   SafeMmap_probe t offset len m = Done (Err (OutOfBounds offset len (raw_len raw))) m) \/
  (offset + len <= raw_len raw /\
   probe_outcome t m
     (touch_all ((fun o => raw_ptr raw + o) <$> probe_offsets sysconf_pagesize offset len)
        (p_os (m_proc m)))
     (SafeMmap_probe t offset len m)).
Proof. apply probe_ok. Qed.

(** C36 (functional): what a probe of a range tells about its pages. If the last
    byte of the range lies at least as far into its page as the first byte does
    into its own (as when the range starts on a page boundary), a probe never
    returns [Ok] while a page that the range meets cannot be supplied. If not,
    it never reads the last page: it returns [Ok] when all the other pages are
    there, whatever has become of that one. *)
Theorem probe_finds_lost_pages `{BL : !BeyondLaws K} `{BS : !BeyondStays K} `{ML : !MemLaws K} t offset len m :
  menv_ok m -> poisoned (m_self m) = false -> 0 <= offset -> 0 < len ->
  offset + len <= raw_len (raw (m_self m)) ->
  let page := sysconf_pagesize in
  let byte x := raw_ptr (raw (m_self m)) + x in
  let last := offset + len - 1 in
  if offset mod page <=? last mod page then
    forall x, offset <= x <= last ->
      (forall y, y / page = x / page -> beyond (p_os (m_proc m)) (byte y)) ->
      forall m', SafeMmap_probe t offset len m <> Done (Ok tt) m'
  else
    (forall y, offset <= y <= last -> y / page <> last / page -> is_Some (mem_at (p_os (m_proc m)) (byte y))) ->
    exists m', SafeMmap_probe t offset len m = Done (Ok tt) m'.
Proof.
  intros Hok Hpo Ho Hl Hle page byte last. pose proof (page_pos) as [Hpage _].
  destruct (probe_ok t offset len m Hok Hpo Ho ltac:(lia)) as [[? _]|[_ H]]; [lia|].
  destruct (Z.leb_spec (offset mod page) (last mod page)) as [Hc|Hc].
  - intros x Hx Hlost m' E. rewrite E in H.
    destruct (probe_offsets_meet page Hpage offset len x Ho Hl Hc) as (o & Hin & Ho'); [unfold last in *; lia|].
    pose proof (touch_beyond ((fun o => byte o) <$> probe_offsets page offset len) (byte o) (p_os (m_proc m))) as Hb.
    change (fun o => byte o) with (fun o => raw_ptr (raw (m_self m)) + o) in Hb.
    destruct (touch_all _ _) as [k'|a k'|k'].
    + by apply (Hb k'); [apply list_elem_of_fmap_2|apply Hlost|].
    + cbn in H. destruct (covered _ a); [by destruct H as (? & ? & ? & _)|by destruct H].
    + by destruct H.
  - intros Hm. destruct (touch_mem ((fun o => byte o) <$> probe_offsets page offset len) (p_os (m_proc m))) as [k' E].
    + intros a (o & -> & Hin)%list_elem_of_fmap. apply Hm.
      * apply elem_of_probe_offsets in Hin as (i & Hi & -> & Hlt); [|done|lia]. unfold last. nia.
      * by apply probe_offsets_miss.
    + unfold byte, page in E. rewrite E in H. destruct H as (p' & E' & _). by eexists.
Qed.

(** the callback runs between the increment of the count and the store to the
    flag, so a callback that panics on [Sigbus] leaves the mapping readable
    although its count has reached the limit. *)
Theorem callback_panic_skips_poison a m cb u' :
  on_event (m_self m) = Some cb -> cb (EvSigbus a) (m_user m) = Stop StopPanic u' ->
  0 <= sigbus_count (m_self m) -> sigbus_count (m_self m) + 1 < u32_modulus ->
  exists m', record_sigbus_from (Sigbus a) m = Stop StopPanic m' /\
    sigbus_count (m_self m') = sigbus_count (m_self m) + 1 /\
    poisoned (m_self m') = poisoned (m_self m) /\
    forall t rs re (f : Z -> Z -> prog unit), poisoned (m_self m) = false ->
      proc_ok (m_proc m) -> RawMmap_wf (raw (m_self m)) -> 0 <= rs <= re ->
      re <= raw_len (raw (m_self m)) ->
      forall v ar k', spec_exec (covered (m_proc m)) (f (raw_ptr (raw (m_self m)) + rs) (re - rs))
        true (p_os (m_proc m)) = SVal v ar k' ->
      exists m'', (SafeMmap_read t rs re f) m' = Done (Ok v) m''.
Proof.
  intros Hcb Hp H0 Hroom. destruct m as [p self u]. cbn [m_proc m_self m_user] in *.
  set (self' := set_sigbus_count (sigbus_count self + 1) self).
  exists (MkMenv p self' u').
  assert (record_sigbus_from (Sigbus a) (MkMenv p self u) = Stop StopPanic (MkMenv p self' u')) as ->.
  { unfold record_sigbus_from. rewrite bind_eq, fetch_add_count_eq. cbv beta iota zeta.
    cbn [m_proc m_self m_user fault_address_of]. rewrite bind_eq, u32add_ok by lia. cbv beta iota.
    rewrite Z.mod_small by lia. rewrite bind_eq. unfold emit_event. rewrite bind_eq.
    unfold self_get, gets. cbn [m_self on_event set_sigbus_count]. rewrite Hcb.
    unfold zoom. cbn [lget lset user_lens m_user m_self m_proc]. by rewrite Hp. }
  split; [done|]. split; [done|]. split; [done|].
  intros t rs re f Hpo Hok Hwf Hr Hle v ar k' Hs.
  pose proof (RawMmap_wf_usize _ Hwf) as Hlu.
  unfold SafeMmap_read. rewrite try_bind_eq, check_poisoned_eq. cbn [m_self poisoned set_sigbus_count self'].
  cbn [m_self] in Hpo. rewrite Hpo. cbv beta iota. rewrite bind_eq. unfold SafeMmap_guard.
  rewrite bind_eq. unfold self_get, gets. cbv beta iota. rewrite on_proc_eq. unfold ReadGuard_new.
  cbn [m_proc] in *. rewrite bind_eq, install_ok by done. unfold mret at 1, M_ret.
  cbn [m_self] in Hle, Hlu.
  cbv beta iota. rewrite bind_eq, usub_ok by (unfold is_usize in *; lia). cbv beta iota.
  rewrite bind_eq, on_proc_eq. cbn [m_proc m_self m_user].
  destruct (guard_read_ok t {| guard_raw := raw self |} rs (re - rs) f (installed p)
    (installed_ok _ Hok) Hlu) as [[Hlt _]|[_ Hg]]; [cbn in Hlt; lia|].
  cbn [guard_raw] in Hg. change (covered (installed p)) with (covered p) in Hg.
  change (p_os (installed p)) with (p_os p) in Hg. rewrite Hs in Hg.
  destruct Hg as (p' & E & _). fold self'. change (raw self') with (raw self). rewrite E. by eexists.
Qed.

(** an access whose range overflows [usize] is refused as [OutOfBounds] like any
    other range outside the mapping, but the message of that error evaluates
    [offset + len]: where overflow checks are on, printing it panics. *)
Theorem overflow_error_display t offset ptr len m fmt_duration fmt_io :
  menv_ok m -> poisoned (m_self m) = false ->
  is_usize offset -> is_usize len -> usize_modulus <= offset + len ->
  exists e, SafeMmap_write t offset ptr len m = Done (Err e) m /\
    SafeMmap_read_into t offset ptr len m = Done (Err e) m /\
    if overflow_checks then display_AccessError fmt_duration fmt_io e tt = Stop StopPanic tt
    else exists msg, display_AccessError fmt_duration fmt_io e tt = Done msg tt.
Proof.
  intros Hok Hpo Ho Hl Hov. pose proof (RawMmap_wf_usize _ (mo_raw _ Hok)) as Hlen.
  unfold is_usize in Hlen. exists (OutOfBounds offset len (raw_len (raw (m_self m)))).
  rewrite write_ok, read_into_ok by done.
  destruct (Z.ltb_spec (raw_len (raw (m_self m))) (offset + len)); [|lia].
  split; [done|]. split; [done|]. unfold display_AccessError. rewrite bind_eq. unfold uadd.
  destruct (Z.leb_spec usize_modulus (offset + len)); [|lia]. destruct overflow_checks; [done|].
  by eexists.
Qed.
End Theorems.

Section RoundTrip.
Context `{PR : Profile} `{LC : Libc} `{SC : Sysconf} `{SCok : !SysconfOk}.
Context `{AL : Allocator} `{ALok : !AllocatorOk}.
Context {K T C : Type} `{VMK : !VM K} `{PE : !ProcEnv T} `{PEok : !ProcEnvOk T}.
Context `{ML : !MemLaws K}.
Implicit Types (m : menv K T C).

Lemma write_patches t offset data_ptr bs m :
  menv_ok m -> poisoned (m_self m) = false ->
  let raw := raw (m_self m) in let n := Z.of_nat (length bs) in
  raw_writable raw = true -> 0 <= offset -> offset + n <= raw_len raw ->
  holds (p_os (m_proc m)) data_ptr bs -> usable (p_os (m_proc m)) (raw_ptr raw + offset) n ->
  apart data_ptr n (raw_ptr raw + offset) n ->
  exists p', SafeMmap_write t offset data_ptr n m = Done (Ok tt) (MkMenv p' (m_self m) (m_user m)) /\
    patched (p_os (m_proc m)) (p_os p') (raw_ptr raw + offset) bs /\
    after_call t (m_proc m) (p_os p') p'.
Proof.
  intros Hok Hpo rw n Hw Ho Hle Hh Hu Ha. rewrite write_ok by done. fold rw.
  destruct (Z.ltb_spec (raw_len rw) (offset + n)); [lia|]. rewrite Hw.
  pose proof (copy_access t m (copy_nonoverlapping data_ptr (raw_ptr rw + offset) (Z.to_nat n)) Hok Hpo)
    as Hc.
  unfold n in Hc at 1. rewrite Nat2Z.id in Hc.
  destruct (spec_copy (covered (m_proc m)) data_ptr (raw_ptr rw + offset) bs true (p_os (m_proc m)) Hh Hu Ha)
    as (k' & E & Hp). rewrite E in Hc. cbn in Hc.
  destruct Hc as (p' & -> & Hac). exists p'. pose proof (after_os _ _ _ _ Hac) as Hos.
  rewrite Hos. done.
Qed.

(** C15 (roundtrip): where the memory can be supplied, [write] then [read] of the same range
    into a vector gives back exactly the bytes written; bytes outside the
    range are as before, and neither call counts a fault. *)
Theorem write_then_read t offset data_ptr bs m :
  menv_ok m -> poisoned (m_self m) = false ->
  let raw := raw (m_self m) in let n := Z.of_nat (length bs) in
  raw_writable raw = true -> 0 <= offset -> offset + n <= raw_len raw ->
  holds (p_os (m_proc m)) data_ptr bs -> usable (p_os (m_proc m)) (raw_ptr raw + offset) n ->
  apart data_ptr n (raw_ptr raw + offset) n ->
  exists p1 p2, SafeMmap_write t offset data_ptr n m = Done (Ok tt) (MkMenv p1 (m_self m) (m_user m)) /\
    SafeMmap_read t offset (offset + n) (fun ptr len => to_vec ptr (Z.to_nat len))
      (MkMenv p1 (m_self m) (m_user m)) = Done (Ok bs) (MkMenv p2 (m_self m) (m_user m)) /\
    forall x, ~ (raw_ptr raw + offset <= x < raw_ptr raw + offset + n) ->
      mem_at (p_os p2) x = mem_at (p_os (m_proc m)) x.
Proof.
  intros Hok Hpo rw n Hw Ho Hle Hh Hu Ha.
  pose proof (RawMmap_wf_len _ (mo_raw _ Hok)) as Hlen. fold rw in Hlen.
  destruct (write_patches t offset data_ptr bs m Hok Hpo Hw Ho Hle Hh Hu Ha) as (p1 & E1 & Hp1 & Ha1).
  assert (Hok1 : menv_ok (MkMenv p1 (m_self m) (m_user m))) by (destruct Hok; by split; [apply Ha1|..]).
  destruct (read_ok t offset (offset + n) (fun ptr len => to_vec ptr (Z.to_nat len)) _ Hok1 Hpo)
    as [[Hlt _]|[_ Hr]].
  { unfold n. lia. } { unfold is_usize, isize_max, usize_modulus in *. lia. }
  { cbn [m_self] in Hlt. fold rw in Hlt. lia. }
  cbn [m_proc m_self m_user] in Hr. fold rw in Hr.
  replace (Z.to_nat (offset + n - offset)) with (length bs) in Hr by (unfold n; lia).
  destruct (spec_to_vec (covered p1) (raw_ptr rw + offset) bs true (p_os p1)) as (k2 & E2 & Hm2 & _).
  { by eapply patched_holds. }
  rewrite E2 in Hr. destruct Hr as (p2 & E & Ha2). exists p1, p2. split_and!; [done|done|].
  intros x Hx. rewrite (after_os _ _ _ _ Ha2), Hm2. destruct Hp1 as [Hp1 _]. rewrite Hp1.
  rewrite decide_False; [done|]. unfold n, rw in Hx. lia.
Qed.

(** [read_into] copies exactly the requested bytes of the mapping into the
    caller's buffer and changes no other byte. *)
Theorem read_into_copies t offset buf_ptr bs m :
  menv_ok m -> poisoned (m_self m) = false ->
  let raw := raw (m_self m) in let n := Z.of_nat (length bs) in
  0 <= offset -> offset + n <= raw_len raw ->
  holds (p_os (m_proc m)) (raw_ptr raw + offset) bs -> usable (p_os (m_proc m)) buf_ptr n ->
  apart (raw_ptr raw + offset) n buf_ptr n ->
  exists p', SafeMmap_read_into t offset buf_ptr n m = Done (Ok tt) (MkMenv p' (m_self m) (m_user m)) /\
    patched (p_os (m_proc m)) (p_os p') buf_ptr bs.
Proof.
  intros Hok Hpo rw n Ho Hle Hh Hu Ha. rewrite read_into_ok by done. fold rw.
  destruct (Z.ltb_spec (raw_len rw) (offset + n)); [lia|].
  pose proof (copy_access t m (copy_nonoverlapping (raw_ptr rw + offset) buf_ptr (Z.to_nat n)) Hok Hpo)
    as Hc.
  unfold n in Hc at 1. rewrite Nat2Z.id in Hc.
  destruct (spec_copy (covered (m_proc m)) (raw_ptr rw + offset) buf_ptr bs true (p_os (m_proc m)) Hh Hu Ha)
    as (k' & E & Hp). rewrite E in Hc. destruct Hc as (p' & -> & Hac). exists p'.
  by rewrite (after_os _ _ _ _ Hac).
Qed.
End RoundTrip.
