(* ===== verification/Typing.v ===== *)
(** Memory safety of the checked accesses (src/src/mmap/mod.rs): a typing of
    closures by the addresses they may load and store, of the operations of
    [SafeMmap] by the addresses of their ranges, and of results by what their
    fields can hold. [operations_are_typed] shows that operations keep to
    their type: the kernel sees no access outside the ranges that were asked
    for and checked, and every error value says something true. *)

From stdpp Require Import prelude strings.
From Stdlib Require Import ZArith Lia.
From S2P Require Import Prelude Errors Env SysMmap Registry Signal Probe SafeMmap.

(** * Closures *)

(** The closure loads only addresses of [L] and stores only to addresses of
    [S], in its nested protected calls too. *)
Fixpoint prog_typed {R} (L S : Z -> Prop) (q : prog R) : Prop :=
  match q with
  | PRet _ | PPanic => True
  | PLoad a k => L a /\ forall b, prog_typed L S (k b)
  | PStore a _ k => S a /\ prog_typed L S k
  | PProtect q k => prog_typed L S q /\ forall r, prog_typed L S (k r)
  end.

Lemma prog_typed_mono {R} (L S L' S' : Z -> Prop) (q : prog R) :
  (forall a, L a -> L' a) -> (forall a, S a -> S' a) -> prog_typed L S q -> prog_typed L' S' q.
Proof.
  intros HL HS. induction q as [R r|R a k IH|R a b k IH|R|R A q IHq k IHk]; cbn; naive_solver.
Qed.

Lemma copy_typed (L S : Z -> Prop) src dst n :
  (forall a, src <= a < src + Z.of_nat n -> L a) -> (forall a, dst <= a < dst + Z.of_nat n -> S a) ->
  prog_typed L S (copy_nonoverlapping src dst n).
Proof.
  revert src dst. induction n as [|n IH]; intros src dst HL HS; cbn; [done|].
  split; [apply HL; lia|]. intros b. split; [apply HS; lia|].
  apply IH; intros a Ha; [apply HL|apply HS]; lia.
Qed.

Section Bounded.
Context {K : Type} `{VMK : !VM K}.
Implicit Types k : K.

(** The kernel went from one state to the other by loads of [L] and stores to
    [S], whatever they answered. *)
Inductive bounded_step (L S : Z -> Prop) : K -> K -> Prop :=
  | bounded_load k a k' x : L a -> load k a = (k', x) -> bounded_step L S k k'
  | bounded_store k a b k' x : S a -> store k a b = (k', x) -> bounded_step L S k k'.

Definition bounded (L S : Z -> Prop) : K -> K -> Prop := rtc (bounded_step L S).

Lemma bounded_mono (L S L' S' : Z -> Prop) k k' :
  (forall a, L a -> L' a) -> (forall a, S a -> S' a) -> bounded L S k k' -> bounded L' S' k k'.
Proof.
  intros HL HS. apply rtc_subrel. intros x y [? a ? ? Ha E|? a ? ? ? Ha E].
  - eapply bounded_load; [by apply HL|done].
  - eapply bounded_store; [by apply HS|done].
Qed.

(** A typed closure keeps to its addresses, and the fault that ends it is at
    one of them. *)
Lemma typed_bounded {R} `{!FaultLaws K} L S cov (q : prog R) armed k :
  prog_typed L S q ->
  match spec_exec cov q armed k with
  | SVal _ _ k' | SDead _ k' => bounded L S k k'
  | SCaught a k' => bounded L S k k' /\ (L a \/ S a)
  end.
Proof.
  revert armed k. induction q as [R r|R a kont IH|R a b kont IH|R|R A q IHq kont IHk];
    intros armed k; cbn [spec_exec prog_typed]; [by intros _; apply rtc_refl| | |by intros _; apply rtc_refl|].
  - intros [Ha Hk]. destruct (load k a) as [k' [x|x|]] eqn:E; (assert (bounded L S k k') as Hs
      by (apply rtc_once; by eapply bounded_load)); [|apply load_fault in E as ->; by destruct (_ && _); auto|done].
    specialize (IH x armed k' (Hk x)).
    destruct (spec_exec _ _ _ _); [|destruct IH; split; [|done]|]; by eapply rtc_trans.
  - intros [Ha Hk]. destruct (store k a b) as [k' [x|x|]] eqn:E; (assert (bounded L S k k') as Hs
      by (apply rtc_once; by eapply bounded_store)); [|apply store_fault in E as ->; by destruct (_ && _); auto|done].
    specialize (IH armed k' Hk).
    destruct (spec_exec _ _ _ _); [|destruct IH; split; [|done]|]; by eapply rtc_trans.
  - intros [Hq Hk]. specialize (IHq true k Hq).
    destruct (spec_exec cov q true k) as [v ar k'|x k'|w k']; [|destruct IHq as [IHq _]|done].
    + specialize (IHk (Ok v) false k' (Hk _)).
      destruct (spec_exec _ _ _ _); [|destruct IHk; split; [|done]|]; by eapply rtc_trans.
    + specialize (IHk (Err x) false k' (Hk _)).
      destruct (spec_exec _ _ _ _); [|destruct IHk; split; [|done]|]; by eapply rtc_trans.
Qed.

Lemma touch_bounded `{!FaultLaws K} (L S : Z -> Prop) addrs k :
  Forall L addrs ->
  match touch_all addrs k with
  | TouchedAll k' | TouchSegv k' => bounded L S k k'
  | TouchFault a k' => bounded L S k k' /\ L a
  end.
Proof.
  revert k. induction addrs as [|a addrs IH]; intros k Ha; cbn [touch_all]; [apply rtc_refl|].
  apply Forall_cons in Ha as [Ha Hr].
  destruct (load k a) as [k' [x|x|]] eqn:E; (assert (bounded L S k k') as Hs
    by (apply rtc_once; by eapply bounded_load)); [|apply load_fault in E as ->; auto|done].
  specialize (IH k' Hr). destruct (touch_all addrs k') as [k2|a2 k2|k2];
    [|destruct IH; split; [|done]|]; by eapply rtc_trans.
Qed.
End Bounded.

(** * Operations *)

Section Operations.
Context {C : Type}.
Implicit Types (self : SafeMmap C) (o : checked_op).

(** A range of the mapping. *)
Definition in_mapping self (offset len a : Z) : Prop :=
  offset + len <= raw_len (raw self) /\
  raw_ptr (raw self) + offset <= a < raw_ptr (raw self) + offset + len.

(** What an operation may load, and store to. *)
Definition op_loads self o (a : Z) : Prop :=
  match o with
  | OpRead rs re _ => in_mapping self rs (re - rs) a
  | OpWrite offset ptr len => ptr <= a < ptr + len
  | OpReadInto offset _ len | OpProbe offset len => in_mapping self offset len a
  end.

Definition op_stores self o (a : Z) : Prop :=
  match o with
  | OpWrite offset _ len => raw_writable (raw self) = true /\ in_mapping self offset len a
  | OpReadInto offset ptr len => ptr <= a < ptr + len
  | OpRead _ _ _ | OpProbe _ _ => False
  end.

(** The closure of a [read] keeps to the slice it is given. *)
Definition op_closed self o : Prop :=
  match o with
  | OpRead rs re f =>
      prog_typed (in_mapping self rs (re - rs)) (fun _ => False) (f (raw_ptr (raw self) + rs) (re - rs))
  | _ => True
  end.

(** The range an operation asks for. *)
Definition op_range o : Z * Z :=
  match o with
  | OpRead rs re _ => (rs, re - rs)
  | OpWrite offset _ len | OpReadInto offset _ len | OpProbe offset len => (offset, len)
  end.

Definition op_writes o : bool := match o with OpWrite _ _ _ => true | _ => false end.

(** What the result of an operation says. *)
Definition result_typed self o (r : result unit AccessError) : Prop :=
  let '(offset, len) := op_range o in
  match r with
  | Ok _ => offset + len <= raw_len (raw self) /\ (op_writes o = true -> raw_writable (raw self) = true)
  | Err (Sigbus a) => op_loads self o a \/ op_stores self o a
  | Err (OutOfBounds o' l' n) =>
      o' = offset /\ l' = len /\ n = raw_len (raw self) /\ n < offset + len
  | Err (Poisoned c) => is_u32 c /\ 1 <= c /\ max_sigbus self <= c
  | Err (Timeout _ _ _) => False
  | Err (Io e) =>
      e = NewError PermissionDenied "mapping is read-only" /\ op_writes o = true /\
      raw_writable (raw self) = false
  end.
End Operations.

(** * They keep to their type *)

Section Sound.
Context `{PR : Profile} `{LC : Libc} `{SC : Sysconf} `{SCok : !SysconfOk}.
Context `{AL : Allocator} `{ALok : !AllocatorOk}.
Context {K T C : Type} `{VMK : !VM K} `{PE : !ProcEnv T} `{PEok : !ProcEnvOk T} `{FL : !FaultLaws K}.
Implicit Types (m : menv K T C) (self : SafeMmap C) (o : checked_op).

(** What a run of an operation gives. *)
Definition op_sound self o (k : K) (out : outcome (menv K T C) (result unit AccessError)) : Prop :=
  match out with
  | Done r m' => result_typed self o r /\ bounded (op_loads self o) (op_stores self o) k (p_os (m_proc m'))
  | Stop _ _ => True
  end.

Lemma access_sound {R} t m o (q : prog R) out :
  prog_typed (op_loads (m_self m) o) (op_stores (m_self m) o) q ->
  result_typed (m_self m) o (Ok tt) ->
  access_outcome t m (spec_exec (covered (m_proc m)) q true (p_os (m_proc m))) out ->
  op_sound (m_self m) o (p_os (m_proc m))
    match out with Done r m' => Done (discard r) m' | Stop w m' => Stop w m' end.
Proof.
  intros Hq Hr. pose proof (typed_bounded _ _ (covered (m_proc m)) q true (p_os (m_proc m)) Hq) as Hb.
  destruct (spec_exec _ _ _ _) as [v ar k'|a k'|w k']; cbn.
  - intros (p' & -> & [<- _ _ _]). by split.
  - intros (p' & u' & -> & [<- _ _ _] & _). destruct Hb as [Hb Ha]. split; [|done].
    unfold result_typed. by destruct (op_range o).
  - by intros (p' & -> & _).
Qed.

Lemma copy_sound t m o q :
  menv_ok m -> poisoned (m_self m) = false ->
  prog_typed (op_loads (m_self m) o) (op_stores (m_self m) o) q ->
  result_typed (m_self m) o (Ok tt) ->
  op_sound (m_self m) o (p_os (m_proc m)) ((r ← on_proc (protect t q); finish_copy r) m).
Proof.
  intros Hok Hpo Hq Hr. pose proof (access_sound t m o q _ Hq Hr (copy_access t m q Hok Hpo)) as H.
  destruct ((r ← on_proc (protect t q); finish_copy r) m); [by rewrite discard_id in H|done].
Qed.

Lemma probe_addrs_in self offset len :
  0 <= len -> offset + len <= raw_len (raw self) ->
  Forall (in_mapping self offset len)
    ((fun x => raw_ptr (raw self) + x) <$> probe_offsets sysconf_pagesize offset len).
Proof.
  intros Hl Hle. pose proof page_pos as Hpage. apply Forall_fmap, Forall_forall.
  intros x (i & Hi & -> & Hx)%elem_of_probe_offsets; [|lia|done]. cbn. unfold in_mapping. nia.
Qed.

Lemma op_is_sound t o m :
  menv_ok m -> op_fits o -> op_closed (m_self m) o ->
  op_sound (m_self m) o (p_os (m_proc m)) (run_op t o m).
Proof.
  intros Hok Hfit Hcl. pose proof Hok as [_ _ [Hmax Hp Hc] _].
  destruct (poisoned (m_self m)) eqn:Hpo.
  { rewrite op_poisoned by done. split; [|apply rtc_refl]. unfold result_typed.
    destruct (op_range o). destruct Hp as [Hp _]. specialize (Hp eq_refl).
    unfold is_u32, u32_modulus in *. split_and!; lia. }
  destruct o as [R rs re f|offset ptr len|offset ptr len|offset len]; cbn [run_op op_fits op_closed] in *.
  - rewrite bind_eq. destruct (read_ok t rs re f m Hok Hpo) as [[Hlt ->]|[Hle Ha]]; [lia|apply Hfit| |].
    + split; [|apply rtc_refl]. cbn. split_and!; done || lia.
    + apply (access_sound t m (OpRead rs re f)) in Ha; [|exact Hcl|cbn; split; [lia|done]].
      by destruct (SafeMmap_read _ _ _ _ _).
  - destruct Hfit as [_ [Hl _]]. rewrite write_ok by done.
    destruct (Z.ltb_spec (raw_len (raw (m_self m))) (offset + len)).
    { split; [|apply rtc_refl]. cbn. split_and!; done || lia. }
    destruct (raw_writable (raw (m_self m))) eqn:Ew.
    + apply copy_sound; [done..| |by cbn]. apply copy_typed; rewrite Z2Nat.id by done; cbn.
      * done.
      * intros a Ha. split; [done|]. unfold in_mapping. lia.
    + split; [|apply rtc_refl]. by cbn.
  - destruct Hfit as [_ [Hl _]]. rewrite read_into_ok by done.
    destruct (Z.ltb_spec (raw_len (raw (m_self m))) (offset + len)).
    { split; [|apply rtc_refl]. cbn. split_and!; done || lia. }
    apply copy_sound; [done..| |by cbn]. apply copy_typed; rewrite Z2Nat.id by done; cbn.
    + intros a Ha. unfold in_mapping. lia.
    + done.
  - destruct Hfit as [[Ho _] [Hl _]].
    destruct (probe_ok t offset len m Hok Hpo Ho Hl) as [[Hlt ->]|[Hle H]].
    { split; [|apply rtc_refl]. cbn. split_and!; done || lia. }
    pose proof (touch_bounded (op_loads (m_self m) (OpProbe offset len))
      (op_stores (m_self m) (OpProbe offset len)) _ (p_os (m_proc m))
      (probe_addrs_in (m_self m) offset len Hl Hle)) as Hb.
    destruct (touch_all _ _) as [k'|a k'|k']; cbn [probe_outcome] in H.
    + destruct H as (p' & -> & <- & _). by split.
    + destruct (covered _ a).
      * destruct H as (p' & u' & -> & (<- & _) & _). destruct Hb as [Hb Ha]. split; [by left|done].
      * by destruct H as (m' & ->).
    + by destruct H as (m' & ->).
Qed.

Lemma result_typed_same self self' o r :
  raw self = raw self' -> max_sigbus self = max_sigbus self' ->
  result_typed self o r -> result_typed self' o r.
Proof. intros Hr Hm. destruct o; unfold result_typed, op_loads, op_stores, in_mapping; by rewrite ?Hr, ?Hm. Qed.

Lemma op_closed_same self self' o : raw self = raw self' -> op_closed self o -> op_closed self' o.
Proof. intros Hr. destruct o; unfold op_closed, in_mapping; by rewrite ?Hr. Qed.

Lemma op_area_same self self' o a :
  raw self = raw self' ->
  (op_loads self o a -> op_loads self' o a) /\ (op_stores self o a -> op_stores self' o a).
Proof. intros Hr. destruct o; unfold op_loads, op_stores, in_mapping; by rewrite ?Hr. Qed.

Definition some_op (A : checked_op -> Z -> Prop) (os : list checked_op) (a : Z) : Prop :=
  exists o, o ∈ os /\ A o a.

(** C31 (type): any sequence of [read] (with a closure that keeps to its slice), [write],
    [read_into] and [probe] on a mapping, from any state: the kernel sees only
    loads and stores inside the ranges that were asked for and that lie in the
    mapping, and in the callers' own buffers, and no store at all to the
    mapping unless it is writable; every value of type [AccessError] is what
    its doc says (a fault address is one of the addresses of the call, an
    [OutOfBounds] is the call's range and really out of bounds, [Poisoned] has
    at least the limit as its count); the count stays a [u32]. *)
Theorem operations_are_typed t os m :
  menv_ok m -> Forall op_fits os -> Forall (op_closed (m_self m)) os ->
  match run_ops t os m with
  | Done rs m' =>
      menv_ok m' /\ is_u32 (sigbus_count (m_self m')) /\ raw (m_self m') = raw (m_self m) /\
      Forall2 (result_typed (m_self m)) os rs /\
      bounded (some_op (op_loads (m_self m)) os) (some_op (op_stores (m_self m)) os)
        (p_os (m_proc m)) (p_os (m_proc m'))
  | Stop w _ => fatal w
  end.
Proof.
  revert m. induction os as [|o os IH]; intros m Hok Hf Hc.
  { cbn. pose proof Hok as [_ _ [Hmax _ ?] _]. split; [done|].
    split; [unfold is_u32, u32_modulus in *; lia|]. by split_and!; [|constructor|apply rtc_refl]. }
  apply Forall_cons in Hf as [Ho Hf]. apply Forall_cons in Hc as [Hco Hc]. cbn [run_ops]. rewrite bind_eq.
  pose proof (op_is_sound t o m Hok Ho Hco) as Hs.
  destruct (op_ok t o m Hok Ho) as [(r & m1 & E & Hok1 & _ & _ & Hraw & Hmax & _)|(w & m1 & E & Hw)];
    rewrite E in Hs |- *; [|done].
  destruct Hs as [Hr Hb]. rewrite bind_eq.
  assert (Hc1 : Forall (op_closed (m_self m1)) os).
  { eapply Forall_impl; [exact Hc|]. intros x. by apply op_closed_same. }
  specialize (IH m1 Hok1 Hf Hc1). destruct (run_ops t os m1) as [rs m2|w m2]; [|done].
  destruct IH as (Hok2 & Hu & Hraw2 & Hrs & Hb2). split; [done|]. split; [done|]. split; [congruence|]. split.
  - constructor; [done|]. eapply Forall2_impl; [exact Hrs|]. intros x y. by apply result_typed_same.
  - eapply rtc_trans.
    + eapply bounded_mono; [| |exact Hb]; intros a Ha; exists o; (split; [by left|done]).
    + eapply bounded_mono; [| |exact Hb2]; intros a (x & Hx & Ha); exists x;
        (split; [by right|by eapply op_area_same]).
Qed.
End Sound.
