(* ===== verification/PoisonRace.v ===== *)
(** The poison counter under concurrency: the methods of [SafeMmap] take
    [&self], so several threads may be inside [record_sigbus_from],
    [reset_poison], [check_poisoned], [sigbus_count] and [is_poisoned]
    (src/src/mmap/mod.rs) at once. Every access of the two atomics is [Relaxed],
    and the machine here is that of relaxed atomics: each atomic keeps the
    values ever stored to it, in its modification order; a load may return any
    of them that is not older than what its own thread has already seen there;
    a store takes any later place of the order, not only the last; a
    [fetch_add] takes the place right after the value it reads. Nothing orders
    the two atomics with each other. (A load does not see a store that its own
    later stores caused, as in every machine without load buffering.)

    [solo_counter] says what a thread alone in it gets, against a specification
    of the counter: it goes through the sequential methods of [SafeMmap.v]. *)

From stdpp Require Import prelude gmap sorting.
From Stdlib Require Import ZArith Lia.
From S2P Require Import Prelude Errors Env SysMmap Registry Signal SafeMmap.

(** * Relaxed atomics *)

(** The modification order of one atomic: a value per slot, later slots being
    later in the order. Slots may be left free, for stores that come between
    older ones. *)
#[local] Abbreviation history := (gmap Z Z).

Record atomics := MkAtomics {
  at_count : history;           (* sigbus_count *)
  at_flag : history;            (* poisoned, as 0 or 1 *)
  at_events : list MmapEvent;   (* what the callback was given *)
}.

Inductive atomic := LCount | LFlag.

Definition at_hist (l : atomic) (m : atomics) : history :=
  match l with LCount => at_count m | LFlag => at_flag m end.

Definition at_put (l : atomic) (slot v : Z) (m : atomics) : atomics :=
  match l with
  | LCount => MkAtomics (<[slot := v]> (at_count m)) (at_flag m) (at_events m)
  | LFlag => MkAtomics (at_count m) (<[slot := v]> (at_flag m)) (at_events m)
  end.

Definition at_emit (e : MmapEvent) (m : atomics) : atomics :=
  MkAtomics (at_count m) (at_flag m) (at_events m ++ [e]).

(** The slots a thread has seen. *)
Record view := MkView { v_count : Z; v_flag : Z }.

Definition seen (l : atomic) (w : view) : Z :=
  match l with LCount => v_count w | LFlag => v_flag w end.

Definition see (l : atomic) (slot : Z) (w : view) : view :=
  match l with LCount => MkView slot (v_flag w) | LFlag => MkView (v_count w) slot end.

(** The three operations, at a slot the schedule chooses; [None] when the
    memory does not allow that slot. *)
Definition load_at (l : atomic) (slot : Z) (m : atomics) (w : view) : option (Z * view) :=
  if seen l w <=? slot then v ← at_hist l m !! slot; Some (v, see l slot w) else None.

Definition store_at (l : atomic) (v slot : Z) (m : atomics) (w : view) : option (atomics * view) :=
  if (seen l w <? slot) && bool_decide (at_hist l m !! slot = None)
  then Some (at_put l slot v m, see l slot w) else None.

Definition fetch_add_at (l : atomic) (n slot : Z) (m : atomics) (w : view) :
    option (Z * atomics * view) :=
  '(v, w) ← load_at l slot m w;
  '(m, w) ← store_at l ((v + n) mod u32_modulus) (slot + 1) m w;
  Some (v, m, w).

(** * The methods, one atomic operation per step *)

(** Where a thread is. [count] is the local of [record_sigbus_from]. *)
Inductive pc :=
  | RecAdd (fault : Z)               (* before fetch_add *)
  | RecEvent (fault count : Z)       (* before emit_event(Sigbus), then the test *)
  | RecStore (count : Z)             (* before poisoned.store(true) *)
  | RecPoisoned (count : Z)          (* before emit_event(Poisoned) *)
  | ResetFlag                        (* before poisoned.store(false) *)
  | ResetCount                       (* before sigbus_count.store(0) *)
  | CheckFlag                        (* check_poisoned: before poisoned.load *)
  | CheckCount                       (* check_poisoned: before sigbus_count.load *)
  | GetCount                         (* sigbus_count *)
  | GetPoisoned                      (* is_poisoned *)
  | Fin                              (* between two methods *)
  | Panicked.

Inductive method :=
  | CallRecord (fault : Z)              (* record_sigbus_from(&Sigbus) *)
  | CallReset                           (* reset_poison *)
  | CallCheck                           (* check_poisoned *)
  | CallCount                           (* sigbus_count *)
  | CallPoisoned.                       (* is_poisoned *)

#[global] Instance method_eq_dec : EqDecision method.
Proof. solve_decision. Defined.

Definition start (x : method) : pc :=
  match x with
  | CallRecord fault => RecAdd fault
  | CallReset => ResetFlag
  | CallCheck => CheckFlag
  | CallCount => GetCount
  | CallPoisoned => GetPoisoned
  end.

(** What a method returned. [record_sigbus_from] and [reset_poison] return
    nothing; [Recorded] keeps the local [count]. *)
Inductive answer :=
  | Recorded (count : Z)
  | WasReset
  | Passed                           (* check_poisoned: Ok *)
  | Refused (sigbus_count : Z)       (* check_poisoned: Err(Poisoned) *)
  | Count (n : Z)
  | IsPoisoned (b : bool).

(** A thread calls the methods of [th_todo], in order; [th_said] are the
    answers so far, the newest first. *)
Record thread := MkThread {
  th_view : view;
  th_pc : pc;
  th_todo : list method;
  th_said : list answer;
}.

Section Steps.
Context `{PR : Profile} (max : Z).

(** The thread goes on at [p], or returns [a]. *)
Definition goto (p : pc) (w : view) (th : thread) : thread :=
  MkThread w p (th_todo th) (th_said th).
Definition say (a : answer) (w : view) (th : thread) : thread :=
  MkThread w Fin (th_todo th) (a :: th_said th).

(** One step of a thread. [slot] is where its atomic operation takes place. *)
Definition task_step (slot : Z) (m : atomics) (th : thread) : option (atomics * thread) :=
  let w := th_view th in
  match th_pc th with
  | RecAdd fault =>
      '(old, m, w) ← fetch_add_at LCount 1 slot m w;
      match u32add old 1 tt with
      | Done count _ => Some (m, goto (RecEvent fault count) w th)
      | Stop _ _ => Some (m, goto Panicked w th)
      end
  | RecEvent fault count =>
      let m := at_emit (EvSigbus fault) m in
      if max <=? count then Some (m, goto (RecStore count) w th)
      else Some (m, say (Recorded count) w th)
  | RecStore count =>
      '(m, w) ← store_at LFlag 1 slot m w;
      Some (m, goto (RecPoisoned count) w th)
  | RecPoisoned count => Some (at_emit (EvPoisoned count) m, say (Recorded count) w th)
  | ResetFlag =>
      '(m, w) ← store_at LFlag 0 slot m w;
      Some (m, goto ResetCount w th)
  | ResetCount =>
      '(m, w) ← store_at LCount 0 slot m w;
      Some (m, say WasReset w th)
  | CheckFlag =>
      '(p, w) ← load_at LFlag slot m w;
      if negb (p =? 0) then Some (m, goto CheckCount w th) else Some (m, say Passed w th)
  | CheckCount =>
      '(c, w) ← load_at LCount slot m w;
      Some (m, say (Refused c) w th)
  | GetCount =>
      '(c, w) ← load_at LCount slot m w;
      Some (m, say (Count c) w th)
  | GetPoisoned =>
      '(p, w) ← load_at LFlag slot m w;
      Some (m, say (IsPoisoned (negb (p =? 0))) w th)
  | Fin =>
      match th_todo th with
      | [] => None
      | x :: todo => Some (m, MkThread w (start x) todo (th_said th))
      end
  | Panicked => None
  end.

Record shared := MkShared { sh_mem : atomics; sh_threads : list thread }.

(** Thread [i] steps, at the slot [slot]. *)
Definition sched_step (s : shared) (choice : nat * Z) : option shared :=
  let '(i, slot) := choice in
  th ← sh_threads s !! i;
  '(m, th') ← task_step slot (sh_mem s) th;
  Some (MkShared m (<[i := th']> (sh_threads s))).

Fixpoint run_schedule (sched : list (nat * Z)) (s : shared) : option shared :=
  match sched with
  | [] => Some s
  | choice :: sched => s' ← sched_step s choice; run_schedule sched s'
  end.

(** Threads that are about to call these methods on a mapping with this count
    and flag, both known to all of them. *)
Definition callers (count : Z) (b : bool) (todos : list (list method)) : shared :=
  MkShared (MkAtomics {[0 := count]} {[0 := Z.b2z b]} [])
    ((fun todo => MkThread (MkView 0 0) Fin todo []) <$> todos).

Definition finished (s : shared) : Prop :=
  Forall (fun th => th_pc th = Fin /\ th_todo th = []) (sh_threads s).
End Steps.

(** The value that is last in the modification order. *)
Definition latest (h : history) (v : Z) : Prop :=
  exists slot, h !! slot = Some v /\ forall slot', is_Some (h !! slot') -> slot' <= slot.

Lemma latest_exists (h : history) : h <> ∅ -> exists v, latest h v.
Proof.
  induction h as [|i x h Hi IH] using map_ind; [done|]. intros _.
  destruct (decide (h = ∅)) as [->|Hne].
  { exists x, i. split; [by rewrite lookup_insert_eq|].
    intros j [y [[<- _]|[_ Hj]]%lookup_insert_Some]; [done|by rewrite lookup_empty in Hj]. }
  destruct (IH Hne) as (v & j & Hj & Hmax). destruct (decide (i < j)).
  - exists v, j. split; [by rewrite lookup_insert_ne by lia|].
    intros j' [y [[<- _]|[_ Hj']]%lookup_insert_Some]; [lia|]. apply Hmax. by eexists.
  - exists x, i. split; [by rewrite lookup_insert_eq|].
    intros j' [y [[<- _]|[_ Hj']]%lookup_insert_Some]; [done|].
    assert (j' <= j) by (apply Hmax; by eexists). lia.
Qed.

(** ** What the operations allow *)

Lemma load_at_Some l slot m w v w' :
  load_at l slot m w = Some (v, w') <->
  seen l w <= slot /\ at_hist l m !! slot = Some v /\ w' = see l slot w.
Proof.
  unfold load_at. destruct (Z.leb_spec (seen l w) slot) as [Hle|Hlt].
  - destruct (at_hist l m !! slot) as [x|]; cbn; naive_solver.
  - split; [done|lia].
Qed.

Lemma store_at_Some l v slot m w m' w' :
  store_at l v slot m w = Some (m', w') <->
  seen l w < slot /\ at_hist l m !! slot = None /\ m' = at_put l slot v m /\ w' = see l slot w.
Proof.
  unfold store_at. destruct (Z.ltb_spec (seen l w) slot) as [Hlt|Hle]; cbn; [|split; [done|lia]].
  case_bool_decide; naive_solver.
Qed.

Lemma fetch_add_at_Some l n slot m w v m' w' :
  fetch_add_at l n slot m w = Some (v, m', w') <->
  seen l w <= slot /\ at_hist l m !! slot = Some v /\ at_hist l m !! (slot + 1) = None /\
  m' = at_put l (slot + 1) ((v + n) mod u32_modulus) m /\ w' = see l (slot + 1) w.
Proof.
  unfold fetch_add_at. rewrite bind_Some. split.
  - intros ([x w1] & (Hle & Hx & ->)%load_at_Some & H). apply bind_Some in H as ([m1 w2] & H & [= -> -> ->]).
    apply store_at_Some in H as (Hlt & Hn & -> & ->). by destruct l.
  - intros (Hle & Hx & Hn & -> & ->). exists (v, see l slot w). split; [by apply load_at_Some|].
    apply bind_Some. eexists (_, _). split; [|done]. apply store_at_Some. split_and!; [|done..|].
    + destruct l; cbn; lia.
    + by destruct l.
Qed.

Lemma sum_list_with_insert {A} (f : A -> nat) l i x y :
  l !! i = Some x -> (sum_list_with f (<[i := y]> l) + f x = sum_list_with f l + f y)%nat.
Proof.
  intros Hi. rewrite insert_take_drop by by eapply lookup_lt_Some.
  rewrite <- (take_drop_middle l i x Hi) at 3. rewrite !sum_list_with_app. cbn. lia.
Qed.

(** * Without resets *)

(** The faults a list of calls records. *)
Definition faults_in (todo : list method) : nat :=
  sum_list_with (fun x => match x with CallRecord _ => 1%nat | _ => 0%nat end) todo.

Section Recorders.
Context `{PR : Profile}.
Context (max : Z) (n : nat) (c0 : Z) (b0 : bool).
Context (c0_pos : 0 <= c0) (c0_small : c0 + Z.of_nat n < u32_modulus).

(** The increments a thread has still to make. *)
Definition due (th : thread) : nat :=
  (match th_pc th with RecAdd _ => 1 | _ => 0 end + faults_in (th_todo th))%nat.

(** What an answer says of the count, and of the flag. *)
Definition said_count (a : answer) : option Z :=
  match a with Recorded c | Refused c | Count c => Some c | _ => None end.
Definition said_flag (a : answer) : option bool :=
  match a with
  | Recorded c => if max <=? c then Some true else None
  | Passed => Some false
  | Refused _ => Some true
  | IsPoisoned b => Some b
  | _ => None
  end.

(** A later answer of the same thread is not older than an earlier one. *)
Definition follows (later earlier : answer) : Prop :=
  (forall c c', said_count earlier = Some c -> said_count later = Some c' ->
     c <= c' /\ (later = Recorded c' -> c < c')) /\
  (said_flag earlier = Some true -> said_flag later <> Some false).

Definition flagged (w : view) : Prop := b0 = true \/ 0 < v_flag w.

(** What a thread that has seen [w] may have said. *)
Definition answer_ok (w : view) (a : answer) : Prop :=
  a <> WasReset /\
  (forall c, said_count a = Some c -> c0 <= c <= c0 + v_count w) /\
  (said_flag a = Some true -> flagged w).

(** [k] increments have been made. *)
Definition pc_ok (k : Z) (w : view) (p : pc) : Prop :=
  match p with
  | RecEvent _ c => c = c0 + v_count w /\ 0 < v_count w
  | RecStore c => c = c0 + v_count w /\ 0 < v_count w /\ max <= c
  | RecPoisoned c => c = c0 + v_count w /\ 0 < v_count w /\ 0 < v_flag w
  | CheckCount => flagged w
  | ResetFlag | ResetCount | Panicked => False
  | _ => True
  end.

(** A thread inside [record_sigbus_from] has not said its count yet. *)
Definition unsaid (p : pc) : Prop :=
  match p with RecEvent _ _ | RecStore _ | RecPoisoned _ => True | _ => False end.

Record thread_ok (k : Z) (m : atomics) (th : thread) : Prop := {
  to_todo : CallReset ∉ th_todo th;
  to_count : 0 <= v_count (th_view th) <= k;
  to_flag : is_Some (at_flag m !! v_flag (th_view th));
  to_pc : pc_ok k (th_view th) (th_pc th);
  to_said : Forall (answer_ok (th_view th)) (th_said th);
  to_unsaid : unsaid (th_pc th) ->
    forall a c, a ∈ th_said th -> said_count a = Some c -> c < c0 + v_count (th_view th);
  to_sorted : StronglySorted follows (th_said th);
}.

Record mem_ok (k : Z) (m : atomics) : Prop := {
  me_pos : 0 <= k;
  me_count : forall slot v, at_count m !! slot = Some v <-> 0 <= slot <= k /\ v = c0 + slot;
  me_flag0 : at_flag m !! 0 = Some (Z.b2z b0);
  me_flag : forall slot v, at_flag m !! slot = Some v ->
    slot = 0 \/ (0 < slot /\ v = 1 /\ 0 < k /\ max <= c0 + k);
}.

(** A thread that will set the flag. *)
Definition pending (th : thread) : Prop :=
  match th_pc th with RecEvent _ c => max <= c | RecStore _ => True | _ => False end.

Definition raised (m : atomics) : Prop := exists slot, 0 < slot /\ is_Some (at_flag m !! slot).

Record race_inv (s : shared) (k : Z) : Prop := {
  ri_mem : mem_ok k (sh_mem s);
  ri_due : k + Z.of_nat (sum_list_with due (sh_threads s)) = Z.of_nat n;
  ri_threads : Forall (thread_ok k (sh_mem s)) (sh_threads s);
  ri_pending : 0 < k -> max <= c0 + k ->
    raised (sh_mem s) \/ Exists pending (sh_threads s);
}.

(** ** The steps preserve it *)

(** A load of the flag by a thread that knows the mapping is poisoned. *)
Lemma flag_load k m w slot v :
  mem_ok k m -> is_Some (at_flag m !! v_flag w) -> v_flag w <= slot -> at_flag m !! slot = Some v ->
  (flagged w -> v = 1) /\ (v <> 0 -> flagged (see LFlag slot w)).
Proof.
  intros [_ _ H0 Hf] [x Hx] Hle Hv. unfold flagged. cbn.
  destruct (Hf _ _ Hv) as [->|(Hs & -> & _)]; [|split; [done|by right]].
  rewrite H0 in Hv. injection Hv as <-.
  destruct (Hf _ _ Hx) as [E|(? & _)]; [|lia]. rewrite E. destruct b0; cbn; split; try done; auto.
  intros [|]; [done|lia].
Qed.

Lemma flagged_mono w w' : v_flag w <= v_flag w' -> flagged w -> flagged w'.
Proof. unfold flagged. intros Hle [|]; [by left|right; lia]. Qed.

Lemma answer_ok_mono w w' a :
  v_count w <= v_count w' -> v_flag w <= v_flag w' -> answer_ok w a -> answer_ok w' a.
Proof.
  intros Hc Hf (Hr & H1 & H2). split; [done|]. split.
  - intros c Hsc. specialize (H1 c Hsc). lia.
  - intros Hsf. by eapply flagged_mono, H2.
Qed.

Lemma thread_ok_mono k k' m m' th :
  k <= k' -> (forall slot, is_Some (at_flag m !! slot) -> is_Some (at_flag m' !! slot)) ->
  thread_ok k m th -> thread_ok k' m' th.
Proof. intros Hk Hm [? ? Hf Hp ? ? ?]. split; [done|lia|by apply Hm|done..]. Qed.

(** The thread has seen more and goes on, without an answer. *)
Lemma goto_ok k m p w th :
  thread_ok k m th -> v_count (th_view th) <= v_count w <= k ->
  v_flag (th_view th) <= v_flag w -> is_Some (at_flag m !! v_flag w) -> pc_ok k w p ->
  (unsaid p -> v_count (th_view th) < v_count w \/ unsaid (th_pc th)) ->
  thread_ok k m (goto p w th).
Proof.
  intros [Ht Hc Hf Hp Hs Hu Ho] H1 H2 H3 H4 H5. split; cbn; [done|lia|done..| | |done].
  - eapply Forall_impl; [exact Hs|]. intros a. apply answer_ok_mono; lia.
  - intros Hup a c Ha Hsc. destruct (H5 Hup) as [Hlt|Hlt].
    + rewrite Forall_forall in Hs. destruct (Hs a Ha) as (_ & Hb & _). specialize (Hb c Hsc). lia.
    + specialize (Hu Hlt a c Ha Hsc). lia.
Qed.

(** The thread has seen more and answers. *)
Lemma say_ok k m a w th :
  thread_ok k m th -> v_count (th_view th) <= v_count w <= k ->
  v_flag (th_view th) <= v_flag w -> is_Some (at_flag m !! v_flag w) -> answer_ok w a ->
  (forall c, said_count a = Some c -> c0 + v_count (th_view th) <= c) ->
  (forall c, a = Recorded c -> unsaid (th_pc th)) ->
  (flagged (th_view th) -> said_flag a <> Some false) ->
  thread_ok k m (say a w th).
Proof.
  intros [Ht Hc Hf Hp Hs Hu Ho] H1 H2 H3 H4 H5 H6 H7. split; cbn; [done|lia|done..| |done|].
  - constructor; [done|]. eapply Forall_impl; [exact Hs|].
intros x. apply answer_ok_mono; lia.
  - constructor; [done|]. rewrite Forall_forall in Hs |- *. intros x Hx.
    destruct (Hs x Hx) as (_ & Hb & Hfl). split; [|by intros E; apply H7, Hfl].
    intros c c' E E'. specialize (Hb c E). specialize (H5 c' E'). split; [lia|].
    intros Ea. specialize (Hu (H6 c' Ea) x c Hx E). lia.
Qed.

Definition step_ok (k : Z) (m : atomics) (th : thread) (m' : atomics) (th' : thread) : Prop :=
  exists k', mem_ok k' m' /\ thread_ok k' m' th' /\
    k' + Z.of_nat (due th') = k + Z.of_nat (due th) /\ k <= k' /\
    (forall slot, is_Some (at_flag m !! slot) -> is_Some (at_flag m' !! slot)) /\
    ((k' = k /\ (pending th -> pending th' \/ raised m')) \/ (max <= c0 + k' -> pending th')).

(** A step that leaves the two atomics alone. *)
Lemma quiet_ok k m th m' th' :
  m' = m \/ (exists e, m' = at_emit e m) ->
  mem_ok k m -> thread_ok k m th' -> due th' = due th -> (pending th -> pending th') ->
  step_ok k m th m' th'.
Proof.
  intros Hm' [Hk Hc H0 Hf] [] Hd Hp. exists k. rewrite Hd.
  destruct Hm' as [->|[e ->]]; (split; [by split|]); (split; [by split|]); split_and!; auto; lia.
Qed.

(** The flag is set by a thread that has counted up to the limit. *)
Lemma raise_ok k m th slot c :
  mem_ok k m -> thread_ok k m th -> th_pc th = RecStore c -> v_flag (th_view th) < slot ->
  at_flag m !! slot = None ->
  step_ok k m th (at_put LFlag slot 1 m) (goto (RecPoisoned c) (see LFlag slot (th_view th)) th).
Proof.
  intros [Hk Hc H0 Hf] Ht Epc Hlt Hn. pose proof Ht as [_ Hvc [x Hx] Hp _ _ _]. rewrite Epc in Hp.
  destruct Hp as (-> & Hpos & Hmax).
  assert (0 < slot) by (destruct (Hf _ _ Hx) as [|[? _]]; lia).
  assert (Hkeep : forall slot', is_Some (at_flag m !! slot') -> is_Some (<[slot := 1]> (at_flag m) !! slot')).
  { intros s' Hs'. rewrite lookup_insert. by case_decide. }
  exists k. split; [|split; [|split; [|split; [lia|split; [done|]]]]].
  - split; cbn; [done..| |].
    + by rewrite lookup_insert_ne by lia.
    + intros s' v [(<- & <-)|[_ Hv]]%lookup_insert_Some; [right; lia|by apply Hf].
  - apply goto_ok; cbn; [|lia|lia|by rewrite lookup_insert_eq|lia|].
    + eapply thread_ok_mono; [| |exact Ht]; [lia|done].
    + intros _. right. by rewrite Epc.
  - unfold due. by rewrite Epc.
  - left. split; [done|]. intros _. right. exists slot. split; [done|]. cbn. by rewrite lookup_insert_eq.
Qed.

(** An increment reads the newest count. *)
Lemma increment_ok k m th fault slot v :
  mem_ok k m -> thread_ok k m th -> th_pc th = RecAdd fault -> k + Z.of_nat (due th) <= Z.of_nat n ->
  v_count (th_view th) <= slot -> at_count m !! slot = Some v -> at_count m !! (slot + 1) = None ->
  exists c, u32add v 1 tt = Done c tt /\
  step_ok k m th (at_put LCount (slot + 1) ((v + 1) mod u32_modulus) m)
    (goto (RecEvent fault c) (see LCount (slot + 1) (th_view th)) th).
Proof.
  intros [Hk Hc H0 Hf] Ht Epc Hdue Hle Hv Hn. pose proof Ht as [_ Hvc Hx _ _ _ _].
  apply Hc in Hv as [Hs ->]. assert (slot = k) as ->.
  { destruct (decide (slot + 1 <= k)); [|lia].
    assert (at_count m !! (slot + 1) = Some (c0 + (slot + 1))) by (apply Hc; lia). congruence. }
  assert (due th = S (faults_in (th_todo th))) as Ed by (unfold due; by rewrite Epc).
  exists (c0 + k + 1). split; [by rewrite u32add_ok by lia|]. rewrite Z.mod_small by lia.
  exists (k + 1). split; [|split; [|split; [|split; [lia|split; [done|]]]]].
  - split; cbn; [lia| |done|].
    + intros s' v. destruct (decide (k + 1 = s')) as [<-|Hne].
      * rewrite lookup_insert_eq. split; [intros [= <-]; lia|]. intros [_ ->]. f_equal. lia.
      * rewrite lookup_insert_ne, Hc by done. lia.
    + intros s' v Hv. destruct (Hf _ _ Hv) as [|(? & ? & ? & ?)]; [by left|right; lia].
  - apply goto_ok; cbn; [|lia|lia|done|lia|].
    + eapply thread_ok_mono; [| |exact Ht]; [lia|done].
    + intros _. left. lia.
  - change (due (goto _ _ _)) with (faults_in (th_todo th)). lia.
  - right. unfold pending. cbn. lia.
Qed.

Lemma load_flag_ok k m th slot v w :
  mem_ok k m -> thread_ok k m th -> load_at LFlag slot m (th_view th) = Some (v, w) ->
  w = see LFlag slot (th_view th) /\ v_flag (th_view th) <= slot /\ is_Some (at_flag m !! slot) /\
  (flagged (th_view th) -> v = 1) /\ (v <> 0 -> flagged w).
Proof.
  intros Hm [_ _ Hf _ _ _ _] (Hle & Hv & ->)%load_at_Some. cbn in Hle, Hv.
  destruct (flag_load k m (th_view th) slot v Hm Hf Hle Hv). split_and!; [done..|by eexists|done|done].
Qed.

Lemma load_count_ok k m th slot v w :
  mem_ok k m -> load_at LCount slot m (th_view th) = Some (v, w) ->
  w = see LCount slot (th_view th) /\ v_count (th_view th) <= slot <= k /\ v = c0 + slot.
Proof. intros [_ Hc _ _] (Hle & Hv & ->)%load_at_Some. cbn in *. apply Hc in Hv. split; [done|lia]. Qed.

(** The event, and the test of the count. *)
Lemma event_ok k m th fault c :
  mem_ok k m -> thread_ok k m th -> th_pc th = RecEvent fault c ->
  step_ok k m th (at_emit (EvSigbus fault) m)
    (if max <=? c then goto (RecStore c) (th_view th) th else say (Recorded c) (th_view th) th).
Proof.
  intros Hm Ht Epc. pose proof Ht as [_ Hc Hf Hp _ _ _]. rewrite Epc in Hp. destruct Hp as [-> Hpos].
  destruct (Z.leb_spec max (c0 + v_count (th_view th))).
  - apply quiet_ok; [right; by eexists|done| |by unfold due; rewrite Epc|by unfold pending].
    apply goto_ok; cbn; [done|lia|lia|done|lia|]. rewrite Epc. by right.
  - apply quiet_ok; [right; by eexists|done| |by unfold due; rewrite Epc|].
    2: { unfold pending. rewrite Epc. lia. }
    apply say_ok; [done|lia|lia|done| | |by rewrite Epc|].
    + split; [done|]. cbn. destruct (Z.leb_spec max (c0 + v_count (th_view th))); [lia|].
      split; [intros ? [= <-]; lia|done].
    + cbn. intros ? [= <-]. lia.
    + cbn. by destruct (_ <=? _).
Qed.

(** The report that the mapping is poisoned. *)
Lemma report_ok k m th c :
  mem_ok k m -> thread_ok k m th -> th_pc th = RecPoisoned c ->
  step_ok k m th (at_emit (EvPoisoned c) m) (say (Recorded c) (th_view th) th).
Proof.
  intros Hm Ht Epc. pose proof Ht as [_ Hc Hf Hp _ _ _]. rewrite Epc in Hp. destruct Hp as (-> & Hpos & Hfl).
  apply quiet_ok; [right; by eexists|done| |by unfold due; rewrite Epc|by unfold pending; rewrite Epc].
  apply say_ok; [done|lia|lia|done| | |by rewrite Epc|].
  - split; [done|]. split; [cbn; intros ? [= <-]; lia|]. intros _. by right.
  - cbn. intros ? [= <-]. lia.
  - cbn. by destruct (_ <=? _).
Qed.

(** An answer with the count that was loaded. *)
Lemma say_count_ok k m th slot v w a :
  mem_ok k m -> thread_ok k m th -> load_at LCount slot m (th_view th) = Some (v, w) ->
  ~ pending th -> due (say a w th) = due th ->
  said_count a = Some v -> (forall c, a <> Recorded c) -> said_flag a <> Some false ->
  (said_flag a = Some true -> flagged (th_view th)) ->
  step_ok k m th m (say a w th).
Proof.
  intros Hm Ht H Hnp Hd Hsc Hnr Hnf Hfl. pose proof Ht as [_ Hc Hf _ _ _ _].
  destruct (load_count_ok k m th slot v w Hm H) as (-> & Hle & ->).
  apply quiet_ok; [by left|done| |done|done].
  apply say_ok; [done|cbn; lia|cbn; lia|done| | | |done].
  - split; [by intros ->|]. split; [rewrite Hsc; cbn; intros ? [= <-]; lia|exact Hfl].
  - rewrite Hsc. intros ? [= <-]. lia.
  - intros c E. by apply Hnr in E.
Qed.

(** A load of the flag, and what the thread makes of it. *)
Lemma flag_step_ok k m th slot v w :
  mem_ok k m -> thread_ok k m th -> load_at LFlag slot m (th_view th) = Some (v, w) ->
  ~ pending th -> due (say Passed w th) = due th -> ~ unsaid (th_pc th) ->
  (v = 0 -> step_ok k m th m (say Passed w th)) /\
  (v <> 0 -> step_ok k m th m (goto CheckCount w th)) /\
  step_ok k m th m (say (IsPoisoned (negb (v =? 0))) w th).
Proof.
  intros Hm Ht H Hnp Hd Hun. pose proof Ht as [_ Hc Hf _ _ _ _].
  destruct (load_flag_ok k m th slot v w Hm Ht H) as (-> & Hle & Hx & H1 & H2). split_and!.
  - intros ->. apply quiet_ok; [by left|done| |done|done].
    apply say_ok; cbn; [done|lia|lia|done|by split_and!|done|done|]. intros Hfl. apply H1 in Hfl. lia.
  - intros Hv. apply quiet_ok; [by left|done| |done|done].
    apply goto_ok; cbn; [done|lia|lia|done|by apply H2|done].
  - apply quiet_ok; [by left|done| |done|done].
    apply say_ok; cbn; [done|lia|lia|done| |done|done|by intros Hfl; rewrite H1].
    split; [done|]. split; [done|]. cbn. intros [= E]. apply H2. intros ->. done.
Qed.

(** A thread without [CallReset] steps. *)
Lemma task_step_ok k slot m th m' th' :
  mem_ok k m -> thread_ok k m th -> k + Z.of_nat (due th) <= Z.of_nat n ->
  task_step max slot m th = Some (m', th') -> step_ok k m th m' th'.
Proof.
  intros Hm Ht Hdue. pose proof Ht as [Htd Hc Hf Hp Hs Hu Ho]. unfold task_step.
  destruct (th_pc th) as [f|f c|c|c| | | | | | | |] eqn:Epc; cbn in Hp; try done.
  - intros ([[v m1] w] & (Hle & Hv & Hn & -> & ->)%fetch_add_at_Some & H)%bind_Some.
    destruct (increment_ok k m th f slot v Hm Ht Epc Hdue Hle Hv Hn) as (c & E & Hok).
    rewrite E in H. by injection H as <- <-.
  - pose proof (event_ok k m th f c Hm Ht Epc) as H. destruct (_ <=? _); by intros [= <- <-].
  - intros ([m1 w] & (Hlt & Hn & -> & ->)%store_at_Some & [= <- <-])%bind_Some. by apply raise_ok.
  - intros [= <- <-]. by apply report_ok.
  - intros ([v w] & H & E)%bind_Some.
    destruct (flag_step_ok k m th slot v w Hm Ht H) as (H0 & H1 & _);
      [unfold pending; rewrite Epc; tauto|unfold due; by rewrite Epc|rewrite Epc; tauto|].
    destruct (Z.eqb_spec v 0); injection E as <- <-; auto.
  - intros ([v w] & H & [= <- <-])%bind_Some.
    apply (say_count_ok k m th slot v); try done; [unfold pending|unfold due]; rewrite Epc; tauto.
  - intros ([v w] & H & [= <- <-])%bind_Some.
    apply (say_count_ok k m th slot v); try done; [unfold pending|unfold due]; rewrite Epc; tauto.
  - intros ([v w] & H & [= <- <-])%bind_Some.
    destruct (flag_step_ok k m th slot v w Hm Ht H) as (_ & _ & H2);
      [unfold pending; rewrite Epc; tauto|unfold due; by rewrite Epc|rewrite Epc; tauto|done].
  - destruct (th_todo th) as [|x todo] eqn:Etd; [done|]. intros [= <- <-].
    apply not_elem_of_cons in Htd as [Hx Htd].
    apply quiet_ok; [by left|done| | |].
    + split; cbn; [done|done|done|by destruct x|done|by destruct x|done].
    + unfold due. rewrite Epc. cbn. rewrite Etd. by destruct x.
    + unfold pending. by rewrite Epc.
Qed.

Lemma due_le ths th : th ∈ ths -> (due th <= sum_list_with due ths)%nat.
Proof.
  intros [i Hi]%list_elem_of_lookup. pose proof (sum_list_with_insert due ths i th th Hi).
  rewrite <- (take_drop_middle ths i th Hi), sum_list_with_app. cbn. lia.
Qed.

Lemma sched_step_ok s k choice s' :
  race_inv s k -> sched_step max s choice = Some s' -> exists k', race_inv s' k'.
Proof.
  intros [Hm Hd Ht Hp]. destruct choice as [i slot]. unfold sched_step.
  intros (th & Hi & ([m' th'] & Hstep & [= <-])%bind_Some)%bind_Some.
  pose proof Ht as Ht0. rewrite Forall_lookup in Ht0.
  assert (Hin : th ∈ sh_threads s) by by eapply list_elem_of_lookup_2.
  destruct (task_step_ok k slot (sh_mem s) th m' th' Hm (Ht0 i th Hi)) as
    (k' & Hm' & Hth' & Hd' & Hk & Hmono & Hpe); [pose proof (due_le _ _ Hin); lia|done|].
  pose proof (sum_list_with_insert due (sh_threads s) i th th' Hi) as Hsum.
  assert (Hlt : (i < length (sh_threads s))%nat) by by eapply lookup_lt_Some.
  assert (Hnew : pending th' -> Exists pending (<[i := th']> (sh_threads s))).
  { intros Hpt. apply Exists_exists. exists th'. split; [|done].
    eapply list_elem_of_lookup_2. by apply list_lookup_insert_eq. }
  exists k'. split; cbn; [done|lia| |].
  - apply Forall_insert; [|done]. eapply Forall_impl; [exact Ht|]. intros x. by apply thread_ok_mono.
  - intros Hpos Hmax. destruct Hpe as [[-> Hpe]|Hpe]; [|right; by apply Hnew, Hpe].
    destruct (Hp Hpos Hmax) as [(r & Hr & Hx)|(x & Hx & Hpx)%Exists_exists].
    { left. exists r. split; [done|by apply Hmono]. }
    apply list_elem_of_lookup in Hx as [j Hj]. destruct (decide (i = j)) as [<-|Hne].
    + rewrite Hi in Hj. injection Hj as <-. destruct (Hpe Hpx); [right; by apply Hnew|by left].
    + right. apply Exists_exists. exists x. split; [|done].
      eapply list_elem_of_lookup_2. by rewrite list_lookup_insert_ne.
Qed.

Lemma run_schedule_ok sched s k s' :
  race_inv s k -> run_schedule max sched s = Some s' -> exists k', race_inv s' k'.
Proof.
  revert s k. induction sched as [|c sched IH]; intros s k Hs; cbn; [intros [= <-]; by exists k|].
  intros (s1 & H1 & H2)%bind_Some. destruct (sched_step_ok s k c s1 Hs H1) as [k1 Hk]. by eapply IH.
Qed.

Lemma callers_inv todos :
  Forall (fun todo => CallReset ∉ todo) todos -> sum_list_with faults_in todos = n ->
  race_inv (callers c0 b0 todos) 0.
Proof.
  intros Hr Hn. split; cbn.
  - split; cbn; [lia| |done|].
    + intros slot v. rewrite lookup_singleton_Some. split; [intros [<- <-]; lia|intros [? ->]; split; lia].
    + intros slot v [<- _]%lookup_singleton_Some. by left.
  - rewrite <- Hn, Z.add_0_l. f_equal. clear.
    induction todos as [|x l IH]; [done|]. cbn in *. by rewrite IH.
  - apply Forall_fmap. eapply Forall_impl; [exact Hr|]. intros todo Htd.
    split; cbn; [done|lia|by eexists|done..|constructor].
  - lia.
Qed.

(** The ends of the two orders, once no thread has still to set the flag. *)
Lemma mem_latest k m :
  mem_ok k m -> (0 < k -> max <= c0 + k -> raised m) ->
  latest (at_count m) (c0 + k) /\
  exists v, latest (at_flag m) v /\ (v <> 0 <-> b0 = true \/ 0 < k /\ max <= c0 + k).
Proof.
  intros [Hk Hc H0 Hf] Hr. split.
  { exists k. split; [apply Hc; lia|]. intros j [y Hy%Hc]. lia. }
  destruct (latest_exists (at_flag m)) as (v & slot & Hs & Hmax).
  { intros E. by rewrite E, lookup_empty in H0. }
  exists v. split; [by exists slot|].
  assert (Hpos : 0 < slot -> v = 1) by (intros ?; destruct (Hf _ _ Hs); lia).
  assert (Hge : 0 <= slot) by (apply Hmax; by eexists). split.
  - intros Hv. destruct (Hf _ _ Hs) as [->|]; [|right; lia].
    rewrite H0 in Hs. injection Hs as <-. left. by destruct b0.
  - destruct (decide (slot = 0)) as [->|]; [|lia].
    rewrite H0 in Hs. injection Hs as <-. intros [->|[Hn0 Hle]]; [done|].
    destruct (Hr Hn0 Hle) as (j & Hj & Hy). apply Hmax in Hy. lia.
Qed.

(** No thread ever waits. *)
Lemma task_progress k m th :
  mem_ok k m -> thread_ok k m th ->
  (th_pc th = Fin /\ th_todo th = []) \/ exists slot, is_Some (task_step max slot m th).
Proof.
  intros Hm Ht. pose proof Hm as [Hk Hc H0 Hf]. pose proof Ht as [_ Hv [x Hx] Hp _ _ _].
  assert (Hl : load_at LCount k m (th_view th) = Some (c0 + k, see LCount k (th_view th))).
  { apply load_at_Some. cbn. split_and!; [lia|apply Hc; lia|done]. }
  assert (Hlf : load_at LFlag (v_flag (th_view th)) m (th_view th) =
    Some (x, see LFlag (v_flag (th_view th)) (th_view th))) by by apply load_at_Some.
  unfold task_step. destruct (th_pc th) eqn:Epc; cbn in Hp; try done.
  - right. exists k.
    assert (Ha : fetch_add_at LCount 1 k m (th_view th) = Some (c0 + k,
      at_put LCount (k + 1) ((c0 + k + 1) mod u32_modulus) m, see LCount (k + 1) (th_view th))).
    { apply fetch_add_at_Some. cbn. split_and!; [lia|apply Hc; lia| |done..].
      apply eq_None_not_Some. intros [y Hy%Hc]. lia. }
    rewrite Ha. cbn. by destruct (u32add _ _ _).
  - right. exists 0. by destruct (_ <=? _).
  - right. destruct (latest_exists (at_flag m)) as (v & slot & Hs & Hmax).
    { intros E. by rewrite E, lookup_empty in H0. }
    exists (slot + 1).
    assert (Ha : store_at LFlag 1 (slot + 1) m (th_view th) =
      Some (at_put LFlag (slot + 1) 1 m, see LFlag (slot + 1) (th_view th))).
    { apply store_at_Some. cbn. assert (v_flag (th_view th) <= slot) by (apply Hmax; by eexists).
      split_and!; [lia| |done..]. apply eq_None_not_Some. intros Hy%Hmax. lia. }
    by rewrite Ha.
  - right. exists 0. by eexists.
  - right. exists (v_flag (th_view th)). rewrite Hlf. cbn. by destruct (negb _).
  - right. exists k. by rewrite Hl.
  - right. exists k. by rewrite Hl.
  - right. exists (v_flag (th_view th)). by rewrite Hlf.
  - destruct (th_todo th); [by left|right]. by exists 0.
Qed.

(** C27 (safety): however threads that record faults and threads that check the mapping
    interleave, whatever the relaxed atomics let each of them see: no thread
    waits for another or panics; each thread's answers agree with the order in
    which it got them (a count is never smaller than an earlier one, and a
    thread that knows the mapping is poisoned, by its own fault at the limit or
    by an answer, is never told otherwise); and once all are done no increment
    is lost and the flag is set exactly if it was before or the count has
    reached the limit. *)
Theorem recorders_poison sched todos s :
  Forall (fun todo => CallReset ∉ todo) todos -> sum_list_with faults_in todos = n ->
  run_schedule max sched (callers c0 b0 todos) = Some s ->
  (forall i th, sh_threads s !! i = Some th ->
     th_pc th <> Panicked /\
     ((th_pc th = Fin /\ th_todo th = []) \/ exists slot, is_Some (sched_step max s (i, slot))) /\
     StronglySorted follows (th_said th) /\
     (forall a, a ∈ th_said th ->
        (forall c, said_count a = Some c -> c0 <= c <= c0 + Z.of_nat n) /\
        (said_flag a = Some true -> b0 = true \/ (0 < n)%nat /\ max <= c0 + Z.of_nat n))) /\
  (finished s ->
     latest (at_count (sh_mem s)) (c0 + Z.of_nat n) /\
     exists v, latest (at_flag (sh_mem s)) v /\
       (v <> 0 <-> b0 = true \/ (0 < n)%nat /\ max <= c0 + Z.of_nat n)).
Proof.
  intros Hr Hn Hrun. destruct (run_schedule_ok sched _ 0 s (callers_inv todos Hr Hn) Hrun) as (k & Hinv).
  pose proof Hinv as [Hm Hd Ht Hp]. pose proof Hm as [Hk Hc H0 Hf]. split.
  - intros i th Hi. rewrite Forall_lookup in Ht. pose proof (Ht i th Hi) as Hth.
    pose proof Hth as [_ Hv [x Hx] Hpc Hs _ Ho]. split_and!; [by intros E; rewrite E in Hpc| |done|].
    + destruct (task_progress k _ th Hm Hth) as [|(slot & [m' th'] & E)]; [by left|right].
      exists slot. unfold sched_step. rewrite Hi. cbn. rewrite E. by eexists.
    + intros a Ha. rewrite Forall_forall in Hs. destruct (Hs a Ha) as (_ & H1 & H2).
      split; [intros c E; specialize (H1 c E); lia|].
      intros E. destruct (H2 E) as [|Hpos]; [by left|right].
      destruct (Hf _ _ Hx) as [|(? & ? & ? & ?)]; lia.
  - intros Hfin. assert (Hz : sum_list_with due (sh_threads s) = 0%nat).
    { unfold finished in Hfin. clear -Hfin. induction Hfin as [|th ths [E1 E2] _ IH]; [done|].
      cbn. rewrite IH. unfold due. by rewrite E1, E2. }
    assert (Hkn : k = Z.of_nat n) by lia. subst k.
    destruct (mem_latest (Z.of_nat n) (sh_mem s) Hm) as (H1 & v & H2 & H3).
    { intros Hn0 Hle. destruct (Hp Hn0 Hle) as [|(th & Hin & Hpe)%Exists_exists]; [done|].
      unfold finished in Hfin. rewrite Forall_forall in Hfin. destruct (Hfin th Hin) as [E _].
      unfold pending in Hpe. by rewrite E in Hpe. }
    split; [done|]. exists v. split; [done|]. rewrite H3. intuition lia.
Qed.
End Recorders.

(** * What relaxed atomics and resets let happen *)

Lemma run_schedule_cons `{PR : Profile} max choice sched s s1 s2 :
  sched_step max s choice = Some s1 -> run_schedule max sched s1 = Some s2 ->
  run_schedule max (choice :: sched) s = Some s2.
Proof. intros E1 E2. cbn. by rewrite E1. Qed.

(** A thread that records the fault that reaches the limit. *)
Lemma last_fault_step `{PR : Profile} max fault m w todo said slot :
  1 <= max < u32_modulus -> fetch_add_at LCount 1 slot m w =
    Some (max - 1, at_put LCount (slot + 1) ((max - 1 + 1) mod u32_modulus) m, see LCount (slot + 1) w) ->
  task_step max slot m (MkThread w (RecAdd fault) todo said) =
    Some (at_put LCount (slot + 1) max m,
          MkThread (see LCount (slot + 1) w) (RecEvent fault max) todo said).
Proof.
  intros Hm E. unfold task_step. cbn [th_pc th_view]. rewrite E. cbn.
  rewrite u32add_ok by lia. cbn. replace (max - 1 + 1) with max by lia. by rewrite Z.mod_small by lia.
Qed.

Definition reset_schedule : list (nat * Z) :=
  [(1%nat, 0); (1%nat, 1); (0%nat, 0); (0%nat, 0); (0%nat, 0); (0%nat, 2); (0%nat, 0); (1%nat, 2)].

(** C29 (error): [reset_poison] is not atomic: for every limit there is an interleaving of
    the fault that reaches the limit with one [reset_poison] after which both
    have finished and the mapping is poisoned with a count of 0, so that
    every later access is refused although the reset came last. *)
Theorem reset_race `{PR : Profile} max fault :
  1 <= max < u32_modulus ->
  exists sched s, run_schedule max sched (callers (max - 1) false [[CallRecord fault]; [CallReset]]) = Some s /\
    finished s /\ latest (at_flag (sh_mem s)) 1 /\ latest (at_count (sh_mem s)) 0 /\
    fst <$> last sched = Some 1%nat.
Proof.
  intros Hm. exists reset_schedule, (MkShared
    (MkAtomics (<[2 := 0]> (<[1 := max]> {[0 := max - 1]})) (<[2 := 1]> (<[1 := 0]> {[0 := 0]}))
       [EvSigbus fault; EvPoisoned max])
    [MkThread (MkView 1 2) Fin [] [Recorded max]; MkThread (MkView 2 1) Fin [] [WasReset]]).
  split; [|split; [|split; [|split]]].
  - unfold reset_schedule, callers.
    do 3 (eapply run_schedule_cons; [vm_compute; reflexivity|]).
    eapply run_schedule_cons.
    { unfold sched_step. cbn [sh_threads lookup list_lookup mbind option_bind sh_mem].
      rewrite last_fault_step by (done || reflexivity). vm_compute. reflexivity. }
    eapply run_schedule_cons.
    { unfold sched_step, task_step. cbn -[Z.leb]. rewrite Z.leb_refl. vm_compute. reflexivity. }
    do 3 (eapply run_schedule_cons; [vm_compute; reflexivity|]). reflexivity.
  - repeat constructor.
  - exists 2. split; [reflexivity|]. cbn [at_flag sh_mem].
    intros slot' [y [[<- _]|[_ [[<- _]|[_ [<- _]%lookup_singleton_Some]]%lookup_insert_Some]]%lookup_insert_Some]; lia.
  - exists 2. split; [reflexivity|]. cbn [at_count sh_mem].
    intros slot' [y [[<- _]|[_ [[<- _]|[_ [<- _]%lookup_singleton_Some]]%lookup_insert_Some]]%lookup_insert_Some]; lia.
  - done.
Qed.

(** Three faults in a row by the first thread; then the second thread looks. *)
Definition three_faults : list (nat * Z) :=
  [(0%nat, 0); (0%nat, 0); (0%nat, 0); (0%nat, 0); (0%nat, 1); (0%nat, 0);
   (0%nat, 0); (0%nat, 2); (0%nat, 0); (0%nat, 1); (0%nat, 0)].

(** C30 (error): with the default limit of three, after one thread has recorded three
    faults and the callback was told that the mapping is poisoned: the check of
    another thread may still pass; and one that finds the flag set may refuse
    with a count of 0, since nothing orders the flag with the count. *)
Theorem stale_refusal `{PR : Profile} fault :
  let s0 := callers 0 false [[CallRecord fault; CallRecord fault; CallRecord fault]; [CallCheck]] in
  exists s,
    run_schedule DEFAULT_MAX_SIGBUS three_faults s0 = Some s /\
    at_events (sh_mem s) = [EvSigbus fault; EvSigbus fault; EvSigbus fault; EvPoisoned 3] /\
    (exists sched s', run_schedule DEFAULT_MAX_SIGBUS sched s = Some s' /\ finished s' /\
       th_said <$> sh_threads s' !! 1%nat = Some [Passed]) /\
    (exists sched s', run_schedule DEFAULT_MAX_SIGBUS sched s = Some s' /\ finished s' /\
       th_said <$> sh_threads s' !! 1%nat = Some [Refused 0]).
Proof.
  intros s0. destruct PR as [[]].
  all: eexists; split; [vm_compute; reflexivity|].
  all: split; [reflexivity|]; split.
  all: [> exists [(1%nat, 0); (1%nat, 0)] | exists [(1%nat, 0); (1%nat, 1); (1%nat, 0)]
        | exists [(1%nat, 0); (1%nat, 0)] | exists [(1%nat, 0); (1%nat, 1); (1%nat, 0)]].
  all: eexists; split; [vm_compute; reflexivity|].
  all: split; [|reflexivity].
  all: apply Forall_cons_2; [by split|]; apply Forall_cons_2; [by split|]; apply Forall_nil_2.
Qed.

(** * One thread alone *)

Section Solo.
Context `{PR : Profile} `{LC : Libc} `{SC : Sysconf} `{AL : Allocator}.
Context {K T : Type} `{VMK : !VM K} `{PE : !ProcEnv T}.
Local Abbreviation C := (list MmapEvent).
Local Abbreviation MM := (M (menv K T C)).

(** The callback that keeps the events. *)
Definition keep_events : EventCallback C := fun e l => Done tt (l ++ [e]).

(** A call of a method as [SafeMmap.v] has it. *)
Definition run_method (x : method) : MM answer :=
  match x with
  | CallRecord fault => _ ← record_sigbus_from (Sigbus fault); mret (Recorded 0)
  | CallReset => _ ← SafeMmap_reset_poison; mret WasReset
  | CallCheck =>
      r ← check_poisoned;
      mret (match r with Err (Poisoned c) => Refused c | _ => Passed end)
  | CallCount => c ← self_get SafeMmap_sigbus_count; mret (Count c)
  | CallPoisoned => b ← self_get SafeMmap_is_poisoned; mret (IsPoisoned b)
  end.

Fixpoint run_methods (todo : list method) (said : list answer) : MM (list answer) :=
  match todo with
  | [] => mret said
  | x :: todo => a ← run_method x; run_methods todo (a :: said)
  end.

(** What the caller is told: [record_sigbus_from] keeps its count. *)
Definition told (a : answer) : answer := match a with Recorded _ => Recorded 0 | _ => a end.

(** What is left of a method. *)
Definition rest_of (p : pc) : MM answer :=
  let test (count : Z) : MM unit :=
    m ← self_get max_sigbus;
    if m <=? count then _ ← store_poisoned true; emit_event (EvPoisoned count) else mret tt in
  match p with
  | RecAdd fault => run_method (CallRecord fault)
  | RecEvent fault count => _ ← (_ ← emit_event (EvSigbus fault); test count); mret (Recorded 0)
  | RecStore count =>
      _ ← (_ ← store_poisoned true; emit_event (EvPoisoned count)); mret (Recorded 0)
  | RecPoisoned count => _ ← emit_event (EvPoisoned count); mret (Recorded 0)
  | ResetFlag => run_method CallReset
  | ResetCount => _ ← store_count 0; mret WasReset
  | CheckFlag => run_method CallCheck
  | CheckCount => c ← load_count; mret (Refused c)
  | GetCount => run_method CallCount
  | GetPoisoned => run_method CallPoisoned
  | Fin | Panicked => panic
  end.

Definition rest (th : thread) : MM (list answer) :=
  let said := told <$> th_said th in
  match th_pc th with
  | Fin => run_methods (th_todo th) said
  | p => a ← rest_of p; run_methods (th_todo th) (a :: said)
  end.

(** The sequential state that the memory stands for. *)
Definition env_of (m0 : menv K T C) (count : Z) (b : bool) (m : atomics) : menv K T C :=
  MkMenv (m_proc m0) (set_poisoned b (set_sigbus_count count (m_self m0))) (m_user m0 ++ at_events m).

(** A thread that has seen everything there is: its view is the end of both
    modification orders. *)
Definition newest (h : history) (slot v : Z) : Prop :=
  h !! slot = Some v /\ forall slot', is_Some (h !! slot') -> slot' <= slot.

Record solo_ok (m0 : menv K T C) (m : atomics) (th : thread) (o : outcome (menv K T C) (list answer))
    (count : Z) (b : bool) : Prop := {
  so_count : newest (at_count m) (v_count (th_view th)) count;
  so_flag : newest (at_flag m) (v_flag (th_view th)) (Z.b2z b);
  so_rest : rest th (env_of m0 count b m) = o;
}.

Lemma newest_load h slot slot' v v' :
  newest h slot v -> slot <= slot' -> h !! slot' = Some v' -> slot' = slot /\ v' = v.
Proof.
  intros [Hs Hmax] Hle Hs'. assert (slot' = slot) as ->; [|by split; congruence].
  assert (slot' <= slot) by (apply Hmax; by eexists). lia.
Qed.

Lemma newest_store h slot slot' v v' :
  newest h slot v -> slot < slot' -> newest (<[slot' := v']> h) slot' v'.
Proof.
  intros [Hs Hmax] Hlt. split; [by rewrite lookup_insert_eq|].
  intros j [y [[<- _]|[_ Hj]]%lookup_insert_Some]; [done|].
  assert (j <= slot) by (apply Hmax; by eexists). lia.
Qed.

Lemma newest_fetch l m w slot v v' m' w' n :
  newest (at_hist l m) (seen l w) v -> fetch_add_at l n slot m w = Some (v', m', w') ->
  v' = v /\ slot = seen l w /\ m' = at_put l (slot + 1) ((v + n) mod u32_modulus) m /\
  w' = see l (slot + 1) w.
Proof.
  intros Hn (Hle & Hv & _ & -> & ->)%fetch_add_at_Some.
  by destruct (newest_load _ _ _ _ _ Hn Hle Hv) as [-> ->].
Qed.

(** The sequential operations on the state that the memory stands for. *)
Section Ops.
Context (m0 : menv K T C) (Hcb : on_event (m_self m0) = Some keep_events).

Lemma emit_env e count b m :
  emit_event e (env_of m0 count b m) = Done tt (env_of m0 count b (at_emit e m)).
Proof.
  unfold emit_event. rewrite bind_eq. cbn. rewrite Hcb. unfold zoom, env_of. cbn.
  by rewrite app_assoc.
Qed.

Lemma flag_env x slot v count b m :
  store_poisoned x (env_of m0 count b m) = Done tt (env_of m0 count x (at_put LFlag slot v m)).
Proof. reflexivity. Qed.

Lemma count_env n slot v count b m :
  store_count n (env_of m0 count b m) = Done tt (env_of m0 n b (at_put LCount slot v m)).
Proof. reflexivity. Qed.

Lemma u32add_state {S1 S2} a b (s1 : S1) (s2 : S2) :
  match u32add a b s1 with
  | Done c _ => u32add a b s2 = Done c s2
  | Stop why _ => why = StopPanic /\ u32add a b s2 = Stop StopPanic s2
  end.
Proof. unfold u32add. by destruct (_ && _). Qed.

(** The two steps of [record_sigbus_from] that compute. *)
Lemma solo_increment slot m w f todo said m' th' o count b :
  solo_ok m0 m (MkThread w (RecAdd f) todo said) o count b ->
  task_step (max_sigbus (m_self m0)) slot m (MkThread w (RecAdd f) todo said) = Some (m', th') ->
  (th_pc th' <> Panicked /\ exists count' b', solo_ok m0 m' th' o count' b') \/
  (th_pc th' = Panicked /\ exists s, o = Stop StopPanic s).
Proof.
  intros [Hc Hf Hr] Hstep. unfold task_step in Hstep. cbn in Hc, Hf, Hstep.
  unfold rest in Hr. cbn [th_pc th_said th_todo] in Hr.
  apply bind_Some in Hstep as ([[v m1] w1] & H & Hstep).
  destruct (newest_fetch LCount m w slot count _ _ _ _ Hc H) as (-> & -> & -> & ->).
  rewrite <- Hr. cbn [rest_of run_method]. rewrite !bind_eq. unfold record_sigbus_from.
  rewrite bind_eq, fetch_add_count_eq, bind_eq. cbv zeta beta iota.
  change (sigbus_count (m_self (env_of m0 count b m))) with count.
  set (e := MkMenv _ _ _). pose proof (u32add_state count 1 tt e) as Hu.
  destruct (u32add count 1 tt) as [c []|why []].
  + left. injection Hstep as <- <-. split; [done|]. exists ((count + 1) mod u32_modulus), b.
    split; cbn; [by apply (newest_store _ (v_count w) _ count); [|lia]|done|]. rewrite Hu.
    unfold rest, goto. cbn [th_pc th_said th_todo rest_of]. rewrite !bind_eq. done.
  + right. injection Hstep as <- <-. split; [done|]. destruct Hu as [_ ->]. by eexists.
Qed.

Lemma solo_event slot m w f c todo said m' th' o count b :
  solo_ok m0 m (MkThread w (RecEvent f c) todo said) o count b ->
  task_step (max_sigbus (m_self m0)) slot m (MkThread w (RecEvent f c) todo said) = Some (m', th') ->
  (th_pc th' <> Panicked /\ exists count' b', solo_ok m0 m' th' o count' b') \/
  (th_pc th' = Panicked /\ exists s, o = Stop StopPanic s).
Proof.
  intros [Hc Hf Hr] Hstep. unfold task_step in Hstep. cbn in Hc, Hf, Hstep.
  unfold rest in Hr. cbn [th_pc th_said th_todo] in Hr.
  left. cbn [rest_of] in Hr. rewrite !bind_eq, emit_env in Hr. cbv beta iota in Hr. rewrite bind_eq in Hr. cbn [self_get gets] in Hr.
  change (max_sigbus (m_self (env_of m0 count b (at_emit (EvSigbus f) m)))) with (max_sigbus (m_self m0)) in Hr.
  destruct (max_sigbus (m_self m0) <=? c); injection Hstep as <- <-; (split; [done|]);
    exists count, b; (split; [done|done|]); rewrite <- Hr; unfold rest; cbn [goto say th_pc th_said th_todo rest_of fmap list_fmap told];
    rewrite ?bind_eq; done.
Qed.

Lemma solo_step slot m th m' th' o count b :
  solo_ok m0 m th o count b -> task_step (max_sigbus (m_self m0)) slot m th = Some (m', th') ->
  (th_pc th' <> Panicked /\ exists count' b', solo_ok m0 m' th' o count' b') \/
  (th_pc th' = Panicked /\ exists s, o = Stop StopPanic s).
Proof.
  intros Hok Hstep. destruct th as [w p todo said].
  destruct p as [f|f c|c|c| | | | | | | |]; [by eapply solo_increment|by eapply solo_event|..];
    destruct Hok as [Hc Hf Hr]; unfold task_step in Hstep; cbn in Hc, Hf, Hstep;
    unfold rest in Hr; cbn [th_pc th_said th_todo] in Hr.
  - left. apply bind_Some in Hstep as ([m1 w1] & (Hlt & _ & -> & ->)%store_at_Some & [= <- <-]).
    split; [done|]. exists count, true. split; cbn; [done|by eapply newest_store|].
    rewrite <- Hr. cbn [rest_of]. by rewrite !bind_eq, (flag_env true slot 1).
  - left. injection Hstep as <- <-. split; [done|]. exists count, b. split; cbn; [done..|].
    rewrite <- Hr. cbn [rest_of]. by rewrite !bind_eq, emit_env.
  - left. apply bind_Some in Hstep as ([m1 w1] & (Hlt & _ & -> & ->)%store_at_Some & [= <- <-]).
    split; [done|]. exists count, false. split; cbn; [done|by eapply newest_store|].
    rewrite <- Hr. cbn [rest_of run_method]. unfold SafeMmap_reset_poison.
    by rewrite !bind_eq, (flag_env false slot 0).
  - left. apply bind_Some in Hstep as ([m1 w1] & (Hlt & _ & -> & ->)%store_at_Some & [= <- <-]).
    split; [done|]. exists 0, b. split; cbn; [by eapply newest_store|done|].
    rewrite <- Hr. cbn [rest_of]. by rewrite !bind_eq, (count_env 0 slot 0).
  - left. apply bind_Some in Hstep as ([v w1] & (Hle & Hv & ->)%load_at_Some & Hstep).
    destruct (newest_load _ _ _ _ _ Hf Hle Hv) as [-> ->].
    rewrite <- Hr. destruct w as [wc wf], b; injection Hstep as <- <-; (split; [done|]);
      exists count; [exists true|exists false]; by split.
  - left. apply bind_Some in Hstep as ([v w1] & (Hle & Hv & ->)%load_at_Some & [= <- <-]).
    destruct (newest_load _ _ _ _ _ Hc Hle Hv) as [-> ->].
    split; [done|]. exists count, b. destruct w. by split.
  - left. apply bind_Some in Hstep as ([v w1] & (Hle & Hv & ->)%load_at_Some & [= <- <-]).
    destruct (newest_load _ _ _ _ _ Hc Hle Hv) as [-> ->].
    split; [done|]. exists count, b. destruct w. by split.
  - left. apply bind_Some in Hstep as ([v w1] & (Hle & Hv & ->)%load_at_Some & [= <- <-]).
    destruct (newest_load _ _ _ _ _ Hf Hle Hv) as [-> ->].
    split; [done|]. exists count, b. destruct w, b; by split.
  - left. destruct todo as [|x todo]; [done|]. injection Hstep as <- <-. split; [by destruct x|].
    exists count, b. split; cbn; [done..|]. rewrite <- Hr. by destruct x.
  - done.
Qed.

Lemma solo_run sched m th s o count b :
  solo_ok m0 m th o count b -> th_pc th <> Panicked ->
  run_schedule (max_sigbus (m_self m0)) sched (MkShared m [th]) = Some s ->
  exists th', sh_threads s = [th'] /\
    ((th_pc th' <> Panicked /\ exists count' b', solo_ok m0 (sh_mem s) th' o count' b') \/
     (th_pc th' = Panicked /\ exists e, o = Stop StopPanic e)).
Proof.
  revert m th count b. induction sched as [|[i slot] sched IH]; intros m th count b Hok Hp; cbn.
  { intros [= <-]. exists th. split; [done|]. left. split; [done|]. by exists count, b. }
  intros (s1 & Hs & Hrun)%bind_Some. apply bind_Some in Hs as (th1 & Hi & Hs).
  destruct i as [|i]; [|done]. injection Hi as <-.
  apply bind_Some in Hs as ([m1 th1] & Hstep & [= <-]). cbn in Hstep, Hrun.
  destruct (solo_step slot m th m1 th1 o count b Hok Hstep) as [[Hp' (c' & b' & Hok')]|[Hp' Ho]].
  - by apply (IH m1 th1 c' b').
  - exists th1. destruct sched as [|[j slot'] sched]; cbn in Hrun.
    + injection Hrun as <-. split; [done|]. by right.
    + exfalso. apply bind_Some in Hrun as (s2 & Hs2 & _). apply bind_Some in Hs2 as (th2 & Hj & Hs2).
      destruct j as [|j]; [|done]. injection Hj as <-. unfold task_step in Hs2. by rewrite Hp' in Hs2.
Qed.

(** The thread's answers and the memory are those of the methods of
    [SafeMmap.v] run one after the other. *)
Lemma solo_sequential todo sched s :
  let self := m_self m0 in
  run_schedule (max_sigbus self) sched (callers (sigbus_count self) (poisoned self) [todo]) = Some s ->
  (finished s -> exists th m', sh_threads s = [th] /\
     run_methods todo [] m0 = Done (told <$> th_said th) m' /\
     latest (at_count (sh_mem s)) (sigbus_count (m_self m')) /\
     latest (at_flag (sh_mem s)) (Z.b2z (poisoned (m_self m'))) /\
     m_user m' = m_user m0 ++ at_events (sh_mem s)) /\
  (forall th, sh_threads s = [th] -> th_pc th = Panicked ->
     exists m', run_methods todo [] m0 = Stop StopPanic m').
Proof.
  intros self Hrun. set (m := MkAtomics {[0 := sigbus_count self]} {[0 := Z.b2z (poisoned self)]} []).
  set (th := MkThread (MkView 0 0) Fin todo []).
  assert (Hok : solo_ok m0 m th (run_methods todo [] m0) (sigbus_count self) (poisoned self)).
  { split; cbn.
    - split; [done|]. by intros j [y [<- _]%lookup_singleton_Some].
    - split; [done|]. by intros j [y [<- _]%lookup_singleton_Some].
    - unfold rest, env_of. cbn. f_equal. destruct m0 as [p se u]. cbn. rewrite app_nil_r.
      by destruct se. }
  destruct (solo_run sched m th s _ _ _ Hok ltac:(done) Hrun) as (th' & Eth & [[Hp (c & b & [Hc Hf Hr])]|[Hp Ho]]).
  - split.
    + intros Hfin. unfold finished in Hfin. rewrite Eth in Hfin. apply Forall_cons_1 in Hfin as [[E1 E2] _].
      exists th', (env_of m0 c b (sh_mem s)). split; [done|]. rewrite <- Hr. unfold rest.
      rewrite E1, E2. split; [done|]. split; [by exists (v_count (th_view th'))|].
      split; [by exists (v_flag (th_view th'))|done].
    + intros th1 E1. rewrite Eth in E1. by injection E1 as <-.
  - split.
    + intros Hfin. unfold finished in Hfin. rewrite Eth in Hfin. apply Forall_cons_1 in Hfin as [[E1 E2] _].
      congruence.
    + intros th1 E1 _. destruct Ho as [e E]. by exists e.
Qed.

(** ** What the counter promises *)

(** One method on a counter of [n] faults, its flag and the events so far: a
    fault counts one, sets the flag once there are [max] of them and says so;
    a reset starts over; a poisoned mapping refuses with its count. [None] is
    the overflow of the count, where the build checks for it. *)
Definition counter_call (max : Z) (x : method) (c : Z * bool * list MmapEvent) :
    option (Z * bool * list MmapEvent * answer) :=
  let '(n, flag, evs) := c in
  match x with
  | CallRecord fault =>
      if overflow_checks && (n =? u32_max) then None else
      let n := if n =? u32_max then 0 else n + 1 in
      Some (n, flag || (max <=? n),
            evs ++ EvSigbus fault :: (if max <=? n then [EvPoisoned n] else []), Recorded 0)
  | CallReset => Some (0, false, evs, WasReset)
  | CallCheck => Some (n, flag, evs, if flag then Refused n else Passed)
  | CallCount => Some (n, flag, evs, Count n)
  | CallPoisoned => Some (n, flag, evs, IsPoisoned flag)
  end.

(** The answers of a sequence of calls, in their order. *)
Fixpoint counter_calls (max : Z) (todo : list method) (c : Z * bool * list MmapEvent) :
    option (Z * bool * list MmapEvent * list answer) :=
  match todo with
  | [] => Some (c, [])
  | x :: todo =>
      '(c, a) ← counter_call max x c;
      '(c, answers) ← counter_calls max todo c;
      Some (c, a :: answers)
  end.

Definition env_at (n : Z) (flag : bool) (evs : list MmapEvent) : menv K T C :=
  MkMenv (m_proc m0) (set_poisoned flag (set_sigbus_count n (m_self m0))) (m_user m0 ++ evs).

Lemma emit_at e n flag evs :
  emit_event e (env_at n flag evs) = Done tt (env_at n flag (evs ++ [e])).
Proof.
  unfold emit_event. rewrite bind_eq. cbn. rewrite Hcb. unfold zoom, env_at. cbn. by rewrite app_assoc.
Qed.

(** What [record_sigbus_from] does once it has counted. *)
Lemma counter_events f n flag evs :
  (_ ← emit_event (EvSigbus f);
   m ← self_get max_sigbus;
   if m <=? n then _ ← store_poisoned true; emit_event (EvPoisoned n) else mret tt) (env_at n flag evs) =
  Done tt (env_at n (flag || (max_sigbus (m_self m0) <=? n))
    (evs ++ EvSigbus f :: (if max_sigbus (m_self m0) <=? n then [EvPoisoned n] else []))).
Proof.
  rewrite !bind_eq, emit_at. cbv beta iota. rewrite bind_eq. unfold self_get, gets. cbv beta iota.
  change (max_sigbus (m_self (env_at n flag (evs ++ [EvSigbus f])))) with (max_sigbus (m_self m0)).
  destruct (_ <=? n); [|by rewrite orb_false_r].
  rewrite bind_eq. change (store_poisoned true (env_at n flag (evs ++ [EvSigbus f]))) with
    (Done tt (env_at n true (evs ++ [EvSigbus f]))). cbv beta iota.
  by rewrite emit_at, <- app_assoc, orb_true_r.
Qed.

Lemma counter_call_ok x n flag evs :
  0 <= n <= u32_max ->
  match counter_call (max_sigbus (m_self m0)) x (n, flag, evs) with
  | Some (n', flag', evs', a) =>
      run_method x (env_at n flag evs) = Done a (env_at n' flag' evs') /\ 0 <= n' <= u32_max
  | None => exists e, run_method x (env_at n flag evs) = Stop StopPanic e
  end.
Proof.
  intros Hn. destruct x as [f| | | |]; cbn [counter_call]; try (by split).
  2: { by destruct flag. }
  cbn [run_method]. rewrite bind_eq. unfold record_sigbus_from. rewrite bind_eq, fetch_add_count_eq, bind_eq.
  cbv beta iota zeta. change (sigbus_count (m_self (env_at n flag evs))) with n.
  change (MkMenv _ _ _) with (env_at ((n + 1) mod u32_modulus) flag evs).
  unfold u32add. destruct (Z.eqb_spec n u32_max) as [->|Hne].
  - rewrite andb_true_r. change (u32_modulus <=? u32_max + 1) with true. rewrite andb_true_r.
    destruct overflow_checks; [by eexists|]. split; [|done]. rewrite mret_eq.
    change ((u32_max + 1) mod u32_modulus) with 0.
    cbn [fault_address_of]. by rewrite counter_events.
  - assert (Hlt : n + 1 < u32_modulus) by (unfold u32_max, u32_modulus in *; lia).
    rewrite andb_false_r. destruct (Z.leb_spec u32_modulus (n + 1)); [lia|]. rewrite andb_false_r, mret_eq.
    rewrite Z.mod_small by lia. cbn [fault_address_of].
    rewrite counter_events. split; [done|unfold u32_max, u32_modulus in *; lia].
Qed.

Lemma counter_calls_ok todo said n flag evs :
  0 <= n <= u32_max ->
  match counter_calls (max_sigbus (m_self m0)) todo (n, flag, evs) with
  | Some (n', flag', evs', answers) =>
      run_methods todo said (env_at n flag evs) = Done (rev answers ++ said) (env_at n' flag' evs')
  | None => exists e, run_methods todo said (env_at n flag evs) = Stop StopPanic e
  end.
Proof.
  revert said n flag evs. induction todo as [|x todo IH]; intros said n flag evs Hn; [done|].
  cbn [counter_calls run_methods]. pose proof (counter_call_ok x n flag evs Hn) as H.
  destruct (counter_call _ x _) as [[[[n1 flag1] evs1] a]|]; cbn [mbind option_bind].
  2: { destruct H as [e E]. exists e. by rewrite bind_eq, E. }
  destruct H as [E H1]. specialize (IH (a :: said) n1 flag1 evs1 H1). rewrite bind_eq, E.
  destruct (counter_calls _ todo _) as [[[[n2 flag2] evs2] l]|]; cbn [mbind option_bind rev]; [|done].
  by rewrite <- app_assoc.
Qed.

(** C28 (refinement): a thread that has the atomics for itself, on the machine of relaxed
    atomics, gets from any sequence of these methods what a counter promises
    ([counter_calls]): each fault counts one, and from the [max_sigbus]-th on
    sets the flag and is reported as such; while the flag is set
    [check_poisoned] refuses with the count; [reset_poison] clears both; and
    the getters tell the count and the flag. Whatever slots the schedule
    chooses, once the thread is done its answers, the events and the last
    values of the two atomics are those, and it panics only where the 32-bit
    count overflows in a build that checks for it. *)
Theorem solo_counter todo sched s :
  let self := m_self m0 in
  0 <= sigbus_count self <= u32_max ->
  run_schedule (max_sigbus self) sched (callers (sigbus_count self) (poisoned self) [todo]) = Some s ->
  match counter_calls (max_sigbus self) todo (sigbus_count self, poisoned self, []) with
  | Some (n, flag, evs, answers) =>
      (forall th, sh_threads s = [th] -> th_pc th <> Panicked) /\
      (finished s -> exists th, sh_threads s = [th] /\ told <$> th_said th = rev answers /\
         at_events (sh_mem s) = evs /\
         latest (at_count (sh_mem s)) n /\ latest (at_flag (sh_mem s)) (Z.b2z flag))
  | None => ~ finished s
  end.
Proof.
  intros self Hn Hrun. destruct (solo_sequential todo sched s Hrun) as [Hdone Hpanic].
  pose proof (counter_calls_ok todo [] (sigbus_count self) (poisoned self) [] Hn) as H.
  assert (E0 : env_at (sigbus_count self) (poisoned self) [] = m0).
  { unfold env_at, self. destruct m0 as [p se u]. cbn. rewrite app_nil_r. by destruct se. }
  rewrite E0 in H. destruct (counter_calls _ _ _) as [[[[n flag] evs] answers]|].
  - rewrite app_nil_r in H. split.
    + intros th Eth Hp. destruct (Hpanic th Eth Hp) as [m' E]. congruence.
    + intros (th & m' & Eth & Er & Hc & Hf & Hu)%Hdone. rewrite H in Er. injection Er as E <-.
      exists th. split; [done|]. split; [done|]. split; [|done].
      cbn in Hu. by apply app_inv_head in Hu.
  - intros (th & m' & _ & Er & _)%Hdone. destruct H as [e E]. congruence.
Qed.
End Ops.
End Solo.
