(* ===== verification/Threads.v ===== *)
(** Protected calls of several threads at once (src/src/signal/mod.rs,
    src/src/signal/handler.rs, src/src/signal/thread_state.rs): each step of
    [with_sigbus_protection] and of the handler that touches shared state is one
    step of the machine here, and the steps of the threads interleave freely
    with each other and with the two halves of the registry's mutations
    ([RegistryRcu.v]).

    The steps are those of [Signal.v], cut where another thread can run: the two
    initializers, the store of [in_protected], [sigsetjmp], each access of the
    closure, the handler up to its load of the published snapshot, the handler
    from its scan on, and the two steps after the jump. A closure may make
    protected calls of its own, to any depth: the calls of a thread are a stack.
    [solo_call] shows that a thread that runs alone gets what the specification
    of a protected call says. *)

From stdpp Require Import prelude gmap.
From Stdlib Require Import ZArith Lia.
From S2P Require Import Prelude Errors Env SysMmap Registry RegistryRcu Signal SafeMmap Typing.

(** * One call *)

(** What a closure has been answered so far: the byte of a load, a store that
    was done, a nested call that returned a value or a fault. This and what a
    handler found are not in the program. *)
Inductive transcript :=
  | TNil
  | TByte (b : Z) (tr : transcript)
  | TStored (tr : transcript)
  | TCall (inner : transcript) (faulted : bool) (tr : transcript).

Fixpoint tr_app (tr tr' : transcript) : transcript :=
  match tr with
  | TNil => tr'
  | TByte b tr => TByte b (tr_app tr tr')
  | TStored tr => TStored (tr_app tr tr')
  | TCall inner f tr => TCall inner f (tr_app tr tr')
  end.

(** A nested call has returned. *)
Fixpoint nested (tr : transcript) : bool :=
  match tr with
  | TNil => false
  | TByte _ tr | TStored tr => nested tr
  | TCall _ _ _ => true
  end.

(** What the handler of a call found: the regions that were registered when it
    loaded the snapshot, or, if more than two mutations overtook it before it
    read the snapshot, whatever was at that address by then. *)
Inductive sighting := Unseen | Found (l : RegionSnapshot) | TooLate.

Definition late (rd : reader) : bool := bool_decide (2 < rd_overlap rd)%nat.

(** The call of a closure, and where it is in [with_sigbus_protection]. While
    the closure makes a call of its own, [CInner] has that call and what the
    closure does with its result. *)
Inductive call_pc (R : Type) : Type :=
  | CInstall                                       (* install_handler() *)
  | CInit                                          (* get_or_init() *)
  | CProtect (state : Z)                           (* in_protected = true *)
  | CSetjmp (state : Z)                            (* sigsetjmp *)
  | CRun (state : Z) (frame : nat) (q : prog R)    (* the closure *)
  | CInner {A : Type} (state : Z) (frame : nat) (inner : pcall A) (k : result A Z -> prog R)
  | CFaulted (state : Z) (frame : nat) (fault : Z) (* a SIGBUS is delivered *)
  | CScan (state : Z) (frame : nat) (fault : Z) (state_ptr : Z) (rd : reader)
                                                   (* contains: the scan *)
  | CLeave (state : Z) (res : option R)            (* in_protected = false *)
  | CFault (state : Z)                             (* the read of fault_addr *)
  | CDone (r : result R Z)
with pcall (R : Type) : Type :=
  | MkCall (q : prog R) (heard : transcript) (seen : sighting) (pc : call_pc R).
Arguments CInstall {R}.
Arguments CInit {R}.
Arguments CProtect {R}.
Arguments CSetjmp {R}.
Arguments CRun {R}.
Arguments CInner {R A}.
Arguments CFaulted {R}.
Arguments CScan {R}.
Arguments CLeave {R}.
Arguments CFault {R}.
Arguments CDone {R}.
Arguments MkCall {R}.

Definition c_prog {R} (c : pcall R) : prog R := match c with MkCall q _ _ _ => q end.
Definition c_heard {R} (c : pcall R) : transcript := match c with MkCall _ tr _ _ => tr end.
Definition c_seen {R} (c : pcall R) : sighting := match c with MkCall _ _ l _ => l end.
Definition c_pc {R} (c : pcall R) : call_pc R := match c with MkCall _ _ _ pc => pc end.

(** A call that starts. *)
Definition start {R} (q : prog R) : pcall R := MkCall q TNil Unseen CInstall.

(** What holds of a call if it holds of the nested call it waits for, holds of
    all. *)
Lemma pcall_nest_ind (P : forall R, pcall R -> Prop) :
  (forall R (c : pcall R),
     match c_pc c with CInner _ _ inner _ => P _ inner | _ => True end -> P R c) ->
  forall R (c : pcall R), P R c.
Proof.
  intros H. fix IH 2. intros R c. apply H. destruct c as [q tr l pc]. cbn.
  destruct pc; try exact I. apply IH.
Qed.

(** What is left of a closure after these answers. *)
Fixpoint resume {R} (q : prog R) (tr : transcript) {struct tr} : option (prog R) :=
  match tr, q with
  | TNil, _ => Some q
  | TByte b tr, PLoad _ k => resume (k b) tr
  | TStored tr, PStore _ _ k => resume k tr
  | TCall inner faulted tr, PProtect q k =>
      match resume q inner, faulted with
      | Some (PRet v), false => resume (k (Ok v)) tr
      | Some (PLoad a _), true | Some (PStore a _ _), true => resume (k (Err a)) tr
      | _, _ => None
      end
  | _, _ => None
  end.

Section Steps.
Context `{PR : Profile} `{AL : Allocator} {K T : Type} `{VMK : !VM K} `{PE : !ProcEnv T}.
Local Abbreviation P := (M (proc K T)).

(** The handler up to its load of [REGION_SNAPSHOT]: the thread's state and
    the snapshot. *)
Definition handler_entry (t : tid) : P (Z * Z) :=
  d ← gets p_disposition;
  match d with
  | SigDfl => stop (StopKilled SIGBUS)
  | SigbusHandler =>
      k ← key;
      state_ptr ← gets (fun p => pthread_getspecific (p_env p) t k);
      if state_ptr =? 0 then restore_default_and_reraise
      else
        state ← state_read state_ptr;
        if negb (in_protected state) then restore_default_and_reraise
        else
          snapshot_ptr ← gets (fun p => region_snapshot (p_registry p));
          if snapshot_ptr =? 0 then restore_default_and_reraise
          else mret (state_ptr, snapshot_ptr)
  end.

(** The rest of it: the scan of the snapshot, the stores to the thread's
    state, the jump. *)
Definition handler_exit (state_ptr snapshot_ptr fault : Z) : P SigJmpBuf :=
  snapshot ← zoom registry_lens (box_deref snapshot_ptr);
  if negb (existsb (in_region fault) snapshot) then restore_default_and_reraise
  else
    state ← state_read state_ptr;
    _ ← state_write state_ptr (set_fault fault);
    mret (jmp_buf state).

(** One step of a call of thread [t]; [overlap] is what a handler that loads
    the snapshot now already overlaps. A jump to the checkpoint of an enclosing
    call leaves this one. *)
Fixpoint call_flow {R} (t : tid) (overlap : nat) (c : pcall R) : P (flow (pcall R)) :=
  match c with
  | MkCall prog heard seen pc =>
      let goto pc := mret (Normal (MkCall prog heard seen pc)) in
      let hears tr pc := mret (Normal (MkCall prog (tr_app heard tr) seen pc)) in
      let jump state frame e :=
        if bool_decide (e = Some frame) then goto (CLeave state None) else mret (Jumping e) in
      match pc with
      | CInstall => _ ← install_handler; goto CInit
      | CInit => state ← get_or_init t; goto (CProtect state)
      | CProtect state => _ ← state_write state (set_in_protected true); goto (CSetjmp state)
      | CSetjmp state =>
          frame ← gets p_frames;
          _ ← modify (set_frames (S frame));
          _ ← state_write state (set_jmp_buf (Some frame));
          goto (CRun state frame prog)
      | CRun state frame (PRet v) => goto (CLeave state (Some v))
      | CRun state frame (PLoad addr k) =>
          a ← zoom os_lens (call (fun o => load o addr));
          match a with
          | Access b => hears (TByte b TNil) (CRun state frame (k b))
          | BusError si_addr => goto (CFaulted state frame si_addr)
          | SegFault => stop (StopKilled SIGSEGV)
          end
      | CRun state frame (PStore addr b k) =>
          a ← zoom os_lens (call (fun o => store o addr b));
          match a with
          | Access _ => hears (TStored TNil) (CRun state frame k)
          | BusError si_addr => goto (CFaulted state frame si_addr)
          | SegFault => stop (StopKilled SIGSEGV)
          end
      | CRun state frame PPanic => stop StopAbort
      | CRun state frame (PProtect q k) => goto (CInner state frame (start q) k)
      | CInner state frame inner k =>
          match c_pc inner with
          | CDone r =>
              hears (TCall (c_heard inner) (negb (is_ok r)) TNil) (CRun state frame (k r))
          | _ =>
              r ← trampoline (call_flow t overlap inner);
              match r with
              | Normal inner => goto (CInner state frame inner k)
              | Jumping e => jump state frame e
              end
          end
      | CFaulted state frame fault =>
          h ← handler_entry t;
          l ← gets (fun p => regions (p_registry p));
          mret (Normal (MkCall prog heard (Found l)
            (CScan state frame fault h.1 {| rd_ptr := h.2; rd_regions := l; rd_overlap := overlap |})))
      | CScan state frame fault state_ptr rd =>
          e ← handler_exit state_ptr (rd_ptr rd) fault;
          if bool_decide (e = Some frame)
          then mret (Normal (MkCall prog heard (if late rd then TooLate else seen) (CLeave state None)))
          else mret (Jumping e)
      | CLeave state res =>
          _ ← state_write state (set_in_protected false);
          goto (match res with Some v => CDone (Ok v) | None => CFault state end)
      | CFault state => s ← state_read state; goto (CDone (Err (fault_addr s)))
      | CDone _ => mret (Normal c)
      end
  end.

(** A step of a call from ordinary code: a jump that leaves it would enter a
    frame that is gone. *)
Definition call_step {R} (t : tid) (overlap : nat) (c : pcall R) : P (pcall R) :=
  r ← call_flow t overlap c;
  match r with Normal c => mret c | Jumping _ => stop StopUB end.

(** The steps keep the closure. *)
Lemma call_flow_prog {R} t overlap (c c' : pcall R) (p p1 : proc K T) :
  call_flow t overlap c p = Done (Normal c') p1 -> c_prog c' = c_prog c.
Proof.
  destruct c as [q tr l pc]. cbn [call_flow c_prog].
  assert (Hj : forall l' e state frame p2,
    (if bool_decide (e = Some frame) then mret (Normal (MkCall q tr l' (CLeave state None)))
     else mret (Jumping e) : M (proc K T) (flow (pcall R))) p2 = Done (Normal c') p1 -> c_prog c' = q).
  { intros l' e state frame p2. case_bool_decide; [by intros [= <- _]|done]. }
  destruct pc as [| |ptr|ptr|ptr fr [v|a kk|a b kk| |A qq kk]|A ptr fr inner kk|ptr fr f|ptr fr f sp rd|ptr [v|]|ptr|r];
    [..|destruct (c_pc inner)| | | | | |]; rewrite ?bind_done; try done; try (by intros [= <- _]);
    intros (x & s1 & _ & H); try (by injection H as <- _); try (by eapply Hj).
  all: try (destruct x; try (by injection H as <- _); try done; by eapply Hj).
  apply bind_done in H as (y & s2 & _ & H). apply bind_done in H as (z & s3 & _ & H). by injection H as <- _.
Qed.

Lemma call_step_prog {R} t overlap (c c' : pcall R) (p p' : proc K T) :
  call_step t overlap c p = Done c' p' -> c_prog c' = c_prog c.
Proof.
  unfold call_step. rewrite bind_done. intros ([c1|e] & p1 & H & E); [|done].
  injection E as -> _. by eapply call_flow_prog.
Qed.
End Steps.

(** * The machine *)

Record machine (K T R : Type) := MkMachine {
  ma_proc : proc K T;
  ma_phase : option mutation;       (* the mutation that holds the mutex *)
  ma_calls : gmap tid (pcall R);
}.
Arguments MkMachine {K T R}.
Arguments ma_proc {K T R}.
Arguments ma_phase {K T R}.
Arguments ma_calls {K T R}.

Inductive action (K R : Type) :=
  | ACall (t : tid) (q : prog R)    (* an idle thread makes a call *)
  | AStep (t : tid)
  | AExit (t : tid)                 (* an idle thread ends *)
  | ABegin (m : mutation)
  | AFinish
  | AOs (k : K).                    (* another process truncates a file, ... *)
Arguments ACall {K R}.
Arguments AStep {K R}.
Arguments AExit {K R}.
Arguments ABegin {K R}.
Arguments AFinish {K R}.
Arguments AOs {K R}.

(** A handler between its load and its scan has overlapped one more
    mutation. *)
Fixpoint age_call {R} (c : pcall R) : pcall R :=
  match c with
  | MkCall q tr l (CScan state frame fault state_ptr rd) =>
      MkCall q tr l (CScan state frame fault state_ptr (age rd))
  | MkCall q tr l (CInner state frame inner k) =>
      MkCall q tr l (CInner state frame (age_call inner) k)
  | c => c
  end.

(** More than two mutations have overtaken the handler of the innermost
    call. *)
Fixpoint overtaken {R} (c : pcall R) : bool :=
  match c with
  | MkCall _ _ _ (CScan _ _ _ _ rd) => late rd
  | MkCall _ _ _ (CInner _ _ inner _) => overtaken inner
  | _ => false
  end.

Definition idle {R} (oc : option (pcall R)) : Prop :=
  match oc with None => True | Some c => match c_pc c with CDone _ => True | _ => False end end.

Lemma call_done {R} (c : pcall R) : (exists r, c_pc c = CDone r) \/ ~ idle (Some c).
Proof. destruct c as [q tr l pc]. destruct pc; try (by right; intros []). left. by eexists. Qed.

Section Machine.
Context `{PR : Profile} `{AL : Allocator} {K T R : Type} `{VMK : !VM K} `{PE : !ProcEnv T}.
Implicit Types s : machine K T R.

Definition ma_lens : lens (machine K T R) (proc K T) :=
  Lens ma_proc (fun p s => MkMachine p (ma_phase s) (ma_calls s)).

Definition put_call (t : tid) (c : pcall R) s : machine K T R :=
  MkMachine (ma_proc s) (ma_phase s) (<[t := c]> (ma_calls s)).

Definition ma_enabled (a : action K R) s : Prop :=
  match a with
  | ACall t q => idle (ma_calls s !! t)
  | AStep t =>
      ~ idle (ma_calls s !! t)
  | AExit t => idle (ma_calls s !! t)
  | ABegin m => ma_phase s = None /\ mutation_fits m
  | AFinish => is_Some (ma_phase s)
  | AOs _ => True
  end.

Definition ma_exec (a : action K R) : M (machine K T R) unit :=
  match a with
  | ACall t q => modify (put_call t (start q))
  | AStep t =>
      s ← get;
      match ma_calls s !! t with
      | None => mret tt
      | Some c =>
          c' ← zoom ma_lens (call_step t (match ma_phase s with Some _ => 1 | None => 0 end) c);
          modify (put_call t c')
      end
  | AExit t => zoom ma_lens (thread_exit t)
  | ABegin m =>
      _ ← zoom ma_lens (zoom registry_lens rotate_retired);
      modify (fun s => MkMachine (ma_proc s) (Some m) (age_call <$> ma_calls s))
  | AFinish =>
      s ← get;
      match ma_phase s with
      | None => mret tt
      | Some m =>
          _ ← zoom ma_lens (zoom registry_lens (mutation_body m));
          modify (fun s => MkMachine (ma_proc s) None (ma_calls s))
      end
  | AOs k => zoom ma_lens (modify (set_os k))
  end.

(** The states the threads can reach from a process without calls. *)
Inductive ma_reachable (p0 : proc K T) : machine K T R -> Prop :=
  | ma_start : ma_reachable p0 (MkMachine p0 None ∅)
  | ma_next s a s' :
      ma_reachable p0 s -> ma_enabled a s -> ma_exec a s = Done tt s' -> ma_reachable p0 s'.

(** [s'] is where a schedule leads. *)
Fixpoint ma_path (l : list (action K R)) s s' : Prop :=
  match l with
  | [] => s' = s
  | a :: l =>
      ma_enabled a s /\
      match ma_exec a s with Done _ s1 => ma_path l s1 s' | Stop _ _ => False end
  end.

Lemma ma_path_reachable p0 l s s' : ma_reachable p0 s -> ma_path l s s' -> ma_reachable p0 s'.
Proof.
  revert s. induction l as [|a l IH]; intros s Hr; cbn; [by intros ->|]. intros [Hen H].
  destruct (ma_exec a s) as [[] s1|] eqn:E; [|done]. by apply (IH s1); [eapply ma_next|].
Qed.
End Machine.

(** * The invariant *)

Section Invariant.
Context `{PR : Profile} `{AL : Allocator} {K T : Type} `{VMK : !VM K} `{PE : !ProcEnv T}.
Context `{ALok : !AllocatorOk} `{PEok : !ProcEnvOk T} `{FL : !FaultLaws K}.
Implicit Types (p : proc K T).

Lemma resume_app {R} (q : prog R) tr tr' :
  resume q (tr_app tr tr') = match resume q tr with Some q' => resume q' tr' | None => None end.
Proof.
  revert q. induction tr as [|b tr IH|tr IH|inner _ f tr IH]; intros q; cbn [tr_app resume]; [done|..];
    destruct q as [v|a k|a b' k| |A q k]; try done; try apply IH.
  destruct (resume q inner) as [[| | | |]|]; try done; destruct f; done || apply IH.
Qed.

Lemma nested_app tr tr' : nested (tr_app tr tr') = nested tr || nested tr'.
Proof. by induction tr. Qed.

(** The thread is not protected. *)
Definition disarmed p (t : tid) : Prop :=
  forall st, thread_state p t = Some st -> in_protected st = false.

(** The thread's state is the box [ptr], and it is armed with the checkpoint
    [frame]. *)
Definition owns p (t : tid) (ptr : Z) : Prop :=
  p_handler_init p = OnceDone /\ ptr <> 0 /\ thread_ptr p t = ptr.

Definition armed p (t : tid) (frame : nat) : Prop :=
  exists st, thread_state p t = Some st /\ in_protected st = true /\ jmp_buf st = Some frame.

(** A closure runs armed until a call of its own has returned. *)
Definition guarded p (t : tid) (frame : nat) (tr : transcript) : Prop :=
  armed p t frame \/ (nested tr = true /\ disarmed p t).

(** The closure has stopped at an access of the address [f]. *)
Definition awaiting {R} (c : pcall R) (f : Z) : Prop :=
  match resume (c_prog c) (c_heard c) with
  | Some (PLoad a _) | Some (PStore a _ _) => a = f
  | _ => False
  end.

(** The handler caught a fault at [f]: it is the closure's own access, and it
    was in a region when the handler loaded the snapshot, unless the handler
    read it too late. *)
Definition caught {R} (c : pcall R) (f : Z) : Prop :=
  awaiting c f /\
  match c_seen c with
  | Unseen => False
  | Found l => existsb (in_region f) l = true
  | TooLate => True
  end.

Definition call_result_ok {R} (c : pcall R) (r : result R Z) : Prop :=
  match r with
  | Ok v => resume (c_prog c) (c_heard c) = Some (PRet v)
  | Err f => caught c f
  end.

(** What holds of a call of thread [t], by where it is. *)
Fixpoint call_ok {R} p (busy : bool) (t : tid) (c : pcall R) : Prop :=
  match c with
  | MkCall q tr seen pc =>
      match pc with
      | CInstall => tr = TNil
      | CInit => p_handler_init p = OnceDone /\ tr = TNil
      | CProtect ptr => owns p t ptr /\ tr = TNil
      | CSetjmp ptr =>
          owns p t ptr /\ tr = TNil /\
          exists st, thread_state p t = Some st /\ in_protected st = true
      | CRun ptr frame q' => owns p t ptr /\ guarded p t frame tr /\ resume q tr = Some q'
      | CInner ptr frame inner k =>
          owns p t ptr /\ resume q tr = Some (PProtect (c_prog inner) k) /\ call_ok p busy t inner
      | CFaulted ptr frame f => owns p t ptr /\ guarded p t frame tr /\ awaiting c f
      | CScan ptr frame f state_ptr rd =>
          state_ptr = ptr /\ owns p t ptr /\ armed p t frame /\ awaiting c f /\
          seen = Found (rd_regions rd) /\ reader_ok (p_registry p) busy rd
      | CLeave ptr (Some v) => owns p t ptr /\ resume q tr = Some (PRet v)
      | CLeave ptr None =>
          owns p t ptr /\ exists st, thread_state p t = Some st /\ caught c (fault_addr st)
      | CFault ptr =>
          owns p t ptr /\
          exists st, thread_state p t = Some st /\ in_protected st = false /\ caught c (fault_addr st)
      | CDone r => disarmed p t /\ call_result_ok c r
      end
  end.

(** Why a SIGBUS can end the process: the innermost call of the thread stopped
    at an address that was in no region when the handler was entered, or after
    a call of its closure's own had returned. *)
Fixpoint uncaught {R} p (c : pcall R) : Prop :=
  match c with
  | MkCall _ tr seen pc =>
      match pc with
      | CInner _ _ inner _ => uncaught p inner
      | CFaulted _ _ f =>
          awaiting c f /\
          (nested tr = true \/ existsb (in_region f) (regions (p_registry p)) = false)
      | CScan _ _ f _ _ =>
          awaiting c f /\ exists l, seen = Found l /\ existsb (in_region f) l = false
      | _ => False
      end
  end.

(** The closure of the innermost call is about to panic. *)
Fixpoint panicking {R} (c : pcall R) : Prop :=
  match c with
  | MkCall _ _ _ (CInner _ _ inner _) => panicking inner
  | MkCall _ _ _ (CRun _ _ PPanic) => True
  | _ => False
  end.

(** An overtaken handler: the snapshot it loaded is freed, or a later one that
    lacks the address has taken its place. *)
Fixpoint lost {R} p (c : pcall R) (why : stop_reason) : Prop :=
  match c with
  | MkCall _ _ _ (CInner _ _ inner _) => lost p inner why
  | MkCall _ _ _ (CScan _ _ f _ rd) =>
      late rd = true /\
      match heap (p_registry p) !! rd_ptr rd with
      | None => why = StopUB
      | Some l => why = StopKilled SIGBUS /\ existsb (in_region f) l = false
      end
  | _ => False
  end.

(** The kernel after a step of a call: only the next access of the innermost
    closure reaches it. *)
Fixpoint os_after {R} (c : pcall R) (k : K) : K :=
  match c with
  | MkCall _ _ _ (CInner _ _ inner _) => os_after inner k
  | MkCall _ _ _ (CRun _ _ (PLoad a _)) => fst (load k a)
  | MkCall _ _ _ (CRun _ _ (PStore a b _)) => fst (store k a b)
  | _ => k
  end.

(** The kernel answers the next access of the innermost closure with SIGSEGV. *)
Fixpoint refused {R} (c : pcall R) (k : K) : Prop :=
  match c with
  | MkCall _ _ _ (CInner _ _ inner _) => refused inner k
  | MkCall _ _ _ (CRun _ _ (PLoad a _)) => snd (load k a) = SegFault
  | MkCall _ _ _ (CRun _ _ (PStore a b _)) => snd (store k a b) = SegFault
  | _ => False
  end.

(** How a step of a call can end the process. *)
Definition call_dies {R} p (c : pcall R) (why : stop_reason) : Prop :=
  (why = StopKilled SIGSEGV /\ refused c (p_os p)) \/ (why = StopKilled SIGBUS /\ uncaught p c) \/
  (why = StopAbort /\ panicking c) \/ lost p c why.

Lemma lost_overtaken {R} p (c : pcall R) why :
  lost p c why -> overtaken c = true /\ (why = StopUB \/ why = StopKilled SIGBUS).
Proof.
  induction c as [R c IH] using pcall_nest_ind. destruct c as [q tr l pc]. destruct pc; try done.
  intros [Hl H]. split; [done|]. destruct (heap _ !! _); [right; apply H|by left].
Qed.

(** Only an overtaken handler can end the process by more than a default signal
    action or an abort. *)
Lemma call_dies_fatal {R} p (c : pcall R) why :
  call_dies p c why -> fatal why \/ (why = StopUB /\ overtaken c = true).
Proof.
  intros [[-> _]|[[-> _]|[[-> _]|[Ho [->| ->]]%lost_overtaken]]]; unfold fatal; auto.
Qed.

Lemma call_dies_no_panic {R} p (c : pcall R) : ~ call_dies p c StopPanic.
Proof. intros [[|[|]]|[]]%call_dies_fatal; done. Qed.

(** The handlers of a call found the region [x] registered. *)
Fixpoint seen_has {R} (x : RegisteredRegion) (c : pcall R) : Prop :=
  match c with
  | MkCall _ _ seen pc =>
      (forall l, seen = Found l -> x ∈ l) /\
      match pc with CInner _ _ inner _ => seen_has x inner | _ => True end
  end.

(** The innermost call stopped outside [x], or after a call of its closure's
    own had returned. *)
Fixpoint outside {R} (x : RegisteredRegion) (c : pcall R) : Prop :=
  match c with
  | MkCall _ tr _ pc =>
      match pc with
      | CInner _ _ inner _ => outside x inner
      | _ => nested tr = true \/ exists f, awaiting c f /\ in_region f x = false
      end
  end.

Lemma existsb_outside f (l : RegionSnapshot) x : existsb (in_region f) l = false -> x ∈ l -> in_region f x = false.
Proof.
  intros Hl Hx. apply not_true_iff_false. intros Hf. apply not_true_iff_false in Hl. apply Hl.
  apply existsb_exists. exists x. split; [by apply list_elem_of_In|done].
Qed.

(** A SIGBUS in a region that stays registered is always caught, unless the
    closure had made a call of its own. *)
Lemma uncaught_outside {R} p x (c : pcall R) :
  uncaught p c -> x ∈ regions (p_registry p) -> seen_has x c -> outside x c.
Proof.
  intros Hu Hx. induction c as [R c IH] using pcall_nest_ind. intros Hs. destruct c as [q tr l pc].
  destruct pc as [| |ptr|ptr|ptr fr q'|A ptr fr inner k|ptr fr f|ptr fr f sp rd|ptr res|ptr|r]; try done.
  - by apply IH, Hs.
  - destruct Hu as [Hw [Hn|Hf]]; [by left|right]. exists f. split; [done|]. by eapply existsb_outside.
  - destruct Hu as (Hw & l0 & -> & Hf). right. exists f. split; [done|].
    eapply existsb_outside; [exact Hf|]. by apply Hs.
Qed.

(** A closure that keeps to the addresses of [A] and makes no call of its own
    goes on like that. *)
Lemma touches_resume {R} A (q q' : prog R) tr :
  touches_only A q -> resume q tr = Some q' -> touches_only A q' /\ nested tr = false.
Proof.
  revert q. induction tr as [|b tr IH|tr IH|inner _ f tr IH]; intros q Hq; cbn [resume nested];
    [by intros [= <-]|..]; destruct q as [v|a k|a b' k| |B q k]; try done; apply IH, Hq.
Qed.

Lemma touches_awaiting {R} A (c : pcall R) f :
  touches_only A (c_prog c) -> awaiting c f -> A f /\ nested (c_heard c) = false.
Proof.
  intros Hq. unfold awaiting. destruct (resume _ _) as [q|] eqn:E; [|done].
  destruct (touches_resume A _ _ _ Hq E) as [H Hn]. destruct q; try done; destruct H as [H _]; by intros <-.
Qed.

(** Its fault is caught, if all its addresses are in a region that is
    registered, and was when the handler was entered. *)
Lemma touching_caught {R} p busy t A x (c : pcall R) :
  call_ok p busy t c -> touches_only A (c_prog c) -> (forall a, A a -> in_region a x = true) ->
  x ∈ regions (p_registry p) -> seen_has x c -> ~ uncaught p c.
Proof.
  intros Hc Hq HA Hx Hs Hu. pose proof (uncaught_outside _ _ _ Hu Hx Hs) as Hout.
  destruct c as [q tr l pc].
  destruct pc as [| |ptr|ptr|ptr fr q'|B ptr fr inner k|ptr fr f|ptr fr f sp rd|ptr res|ptr|r]; try done.
  - destruct Hc as (_ & Hr & _). by destruct (touches_resume A _ _ _ Hq Hr) as [? _].
  - destruct Hu as [Hw _]. destruct (touches_awaiting A _ _ Hq Hw) as [_ Hn]. cbn in Hn.
    destruct Hout as [|(f' & Hw' & Hf)]; [congruence|].
    destruct (touches_awaiting A _ _ Hq Hw') as [Ha _]. by rewrite HA in Hf.
  - destruct Hu as [Hw _]. destruct (touches_awaiting A _ _ Hq Hw) as [_ Hn]. cbn in Hn.
    destruct Hout as [|(f' & Hw' & Hf)]; [congruence|].
    destruct (touches_awaiting A _ _ Hq Hw') as [Ha _]. by rewrite HA in Hf.
Qed.

(** A typed closure stays typed whatever it is answered, and the address a call
    stopped at is one its closure touches. *)
Lemma resume_typed {R} (A : Z -> Prop) (q q' : prog R) tr :
  prog_typed A A q -> resume q tr = Some q' -> prog_typed A A q'.
Proof.
  revert q. induction tr as [|b tr IH|tr IH|inner _ f tr IH]; intros q Hq; cbn [resume]; [by intros [= <-]|..];
    destruct q as [v|a k|a b' k| |B q k]; try done; destruct Hq as [H1 H2]; try by apply IH.
  destruct (resume q inner) as [[| | | |]|], f; try done; by apply IH.
Qed.

Lemma awaiting_typed {R} (A : Z -> Prop) (c : pcall R) f :
  prog_typed A A (c_prog c) -> awaiting c f -> A f.
Proof.
  intros Hq. unfold awaiting. destruct (resume _ _) as [q|] eqn:E; [|done].
  pose proof (resume_typed A _ _ _ Hq E) as H. destruct q; try done; destruct H as [H _]; by intros <-.
Qed.
(** The closure of the innermost call has had a call of its own return. *)
Fixpoint after_nested {R} (c : pcall R) : Prop :=
  match c with
  | MkCall _ _ _ (CInner _ _ inner _) => after_nested inner
  | MkCall _ tr _ _ => nested tr = true
  end.

(** Nor is a fault of a closure that keeps to a registered region, in its own
    calls too, unless a call of its own has returned. *)
Lemma typed_uncaught {R} p busy t A x (c : pcall R) :
  call_ok p busy t c -> prog_typed A A (c_prog c) -> (forall a, A a -> in_region a x = true) ->
  x ∈ regions (p_registry p) -> seen_has x c -> uncaught p c -> after_nested c.
Proof.
  intros Hc Hq HA Hx Hs Hu. pose proof (uncaught_outside _ _ _ Hu Hx Hs) as Hout. clear Hs.
  induction c as [R c IH] using pcall_nest_ind.
  assert (Hhere : match c_pc c with CInner _ _ _ _ => True | _ => nested (c_heard c) = true \/
      (exists f, awaiting c f /\ in_region f x = false) -> after_nested c end).
  { destruct c as [q tr l pc]. destruct pc; try done; intros [Hn|(f & Hw & Hf)]; try done;
      pose proof (HA f (awaiting_typed A _ f Hq Hw)); congruence. }
  destruct c as [q tr l pc]. destruct pc as [| |ptr|ptr|ptr fr q'|B ptr fr inner k|ptr fr f|ptr fr f sp rd|ptr res|ptr|r];
    try done; try by apply Hhere.
  destruct Hc as (_ & Hr & Hi). destruct (resume_typed A _ _ _ Hq Hr) as [Hqi _]. by apply IH.
Qed.

Lemma call_flow_seen {R} t overlap x (c c' : pcall R) p p' :
  call_flow t overlap c p = Done (Normal c') p' -> p_registry p' = p_registry p ->
  x ∈ regions (p_registry p) -> seen_has x c -> seen_has x c'.
Proof.
  intros E Hr Hx. revert c' p' E Hr. induction c as [R c IH] using pcall_nest_ind. intros c' p' E Hr Hs.
  destruct c as [q tr l pc]. destruct Hs as [Hl Hi]. cbn [call_flow] in E.
  assert (Hgo : forall tr' l' pc', MkCall q tr' l' pc' = c' -> l' = l \/ l' = TooLate \/ l' = Found (regions (p_registry p)) ->
    match pc' with CInner _ _ inner _ => seen_has x inner | _ => True end -> seen_has x c').
  { intros tr' l' pc' <- [->|[->| ->]] Hpc; split; try done. by intros l0 [= <-]. }
  assert (Hj : forall l' e state frame p2, l' = l \/ l' = TooLate ->
    (if bool_decide (e = Some frame) then mret (Normal (MkCall q tr l' (CLeave state None)))
     else mret (Jumping e) : M (proc K T) (flow (pcall R))) p2 = Done (Normal c') p' -> seen_has x c').
  { intros l' e state frame p2 Hl'. case_bool_decide; [|done]. intros [= Hc _].
    eapply Hgo; [exact Hc|by destruct Hl'; [left|right; left]|done]. }
  destruct pc as [| |ptr|ptr|ptr fr [v|a kk|a b kk| |A qq kk]|A ptr fr inner kk|ptr fr f|ptr fr f sp rd|ptr [v|]|ptr|r].
  10: { destruct (c_pc inner); try (injection E as E _; by eapply Hgo; [exact E|left|]);
      (apply bind_done in E as ([inner'|e] & p1 & Ei & E); [injection E as E ->|eapply Hj; [by left|exact E]]);
      (eapply Hgo; [exact E|by left|]; eapply (IH _ p'); [|done..];
       revert Ei; unfold trampoline; by destruct (call_flow t overlap inner p) as [?|[] ?]). }
  all: try (injection E as E _; by eapply Hgo; [exact E|left|]); try done.
  all: apply bind_done in E as (y & p1 & E1 & E).
  all: try (injection E as E _; by eapply Hgo; [exact E|left|]).
  - apply bind_done in E as (z & p2 & _ & E). apply bind_done in E as (z' & p3 & _ & E).
    injection E as E _. by eapply Hgo; [exact E|left|].
  - destruct y; [injection E as E _; by eapply Hgo; [exact E|left|]..|done].
  - destruct y; [injection E as E _; by eapply Hgo; [exact E|left|]..|done].
  - apply bind_done in E as (z & p2 & [= <- <-] & E). injection E as E <-.
    eapply Hgo; [exact E|right; right; by rewrite Hr|done].
  - eapply Hj; [|exact E]. by destruct (late rd); [right|left].
Qed.

(** ** What other threads do *)

(** A step of [t]: the other threads' states and the registry are as they
    were. *)
Definition step_frame (t : tid) p p' : Prop :=
  only_thread t p p' /\ (p_handler_init p = OnceDone -> p_handler_init p' = OnceDone).

Lemma disarmed_frame p p' t : thread_state p' t = thread_state p t -> disarmed p t -> disarmed p' t.
Proof. unfold disarmed. by intros ->. Qed.

Lemma call_ok_frame {R} p p' busy busy' t (c : pcall R) :
  thread_state p' t = thread_state p t -> thread_ptr p' t = thread_ptr p t ->
  (p_handler_init p = OnceDone -> p_handler_init p' = OnceDone) ->
  (forall rd, reader_ok (p_registry p) busy rd -> reader_ok (p_registry p') busy' rd) ->
  call_ok p busy t c -> call_ok p' busy' t c.
Proof.
  intros Hs Hp Hh Hr. induction c as [R c IH] using pcall_nest_ind. destruct c as [q tr l pc].
  cbn [c_pc call_ok] in *. unfold guarded, disarmed, owns, armed in *. rewrite Hs, Hp.
  destruct pc as [| |ptr|ptr|ptr fr q'|A ptr fr inner k|ptr fr f|ptr fr f sp rd|ptr [v|]|ptr|r]; intuition auto.
Qed.

Lemma call_ok_other {R} t t' p p' busy (c : pcall R) :
  step_frame t p p' -> t' <> t -> call_ok p busy t' c -> call_ok p' busy t' c.
Proof.
  intros [[Hr Ho] Hh] Hne. destruct (Ho t' Hne) as [Hp Hs].
  apply call_ok_frame; [done..|]. by rewrite Hr.
Qed.

(** ** What the thread does itself *)

Lemma owns_ready p t ptr : proc_ok p -> owns p t ptr -> ready t ptr p.
Proof.
  intros [[Hr _] Hd Hk _ _] (Hh & Hp & Ht). unfold thread_ptr in Ht.
  destruct (p_key_init p) eqn:E; [congruence..|].
  split; [done| |done|done|done]. destruct Hd as [[_ ?]|[? _]]; [done|congruence].
Qed.

Lemma owns_state p t ptr st :
  owns p t ptr -> thread_state p t = Some st -> p_states p !! ptr = Some st.
Proof.
  intros (_ & Hp & <-). unfold thread_state. by destruct (Z.eqb_spec (thread_ptr p t) 0).
Qed.

Lemma owns_some p t ptr : proc_ok p -> owns p t ptr -> exists st, thread_state p t = Some st.
Proof.
  intros Hok (_ & Hp & <-). destruct (ok_states _ Hok t Hp) as [st E]. exists st.
  unfold thread_state. by destruct (Z.eqb_spec (thread_ptr p t) 0).
Qed.

(** A step of [t] that also leaves its box where it is. *)
Definition step_keeps (t : tid) p p' : Prop :=
  step_frame t p p' /\ forall ptr, owns p t ptr -> owns p' t ptr.

Lemma step_frame_refl t p : step_frame t p p.
Proof. by split. Qed.

Lemma step_keeps_refl t p : step_keeps t p p.
Proof. by split. Qed.

Lemma set_os_keeps t (k : K) p : step_keeps t p (set_os k p).
Proof. by split. Qed.

(** A change of the thread's own state, and of the kernel. *)
Lemma own_update t ptr p k st n :
  proc_ok p -> owns p t ptr ->
  let p' := upd ptr p k st n in
  proc_ok p' /\ step_keeps t p p' /\ owns p' t ptr /\ thread_state p' t = Some st.
Proof.
  intros Hok Ho. pose proof (owns_ready _ _ _ Hok Ho) as Hr. cbv zeta.
  destruct (upd_ok t ptr p k st n Hok Hr) as (Hok' & Hot & Hst).
  split; [done|]. split; [by split; [split|]|]. split; [|done]. exact Ho.
Qed.

Lemma own_write_ok t ptr f p :
  proc_ok p -> owns p t ptr ->
  exists st p', thread_state p t = Some st /\ state_write ptr f p = Done tt p' /\
    proc_ok p' /\ step_keeps t p p' /\ owns p' t ptr /\ thread_state p' t = Some (f st) /\
    p_os p' = p_os p.
Proof.
  intros Hok Ho. destruct (owns_some _ _ _ Hok Ho) as [st Hst].
  exists st, (upd ptr p (p_os p) (f st) (p_frames p)). split; [done|].
  rewrite (state_write_ok _ _ st) by by apply (owns_state p t).
  destruct (own_update t ptr p (p_os p) (f st) (p_frames p) Hok Ho) as (? & ? & ? & ?).
  by split_and!.
Qed.

(** The two halves of the handler. *)
Lemma handler_entry_ok t ptr p :
  proc_ok p -> owns p t ptr ->
  exists st, thread_state p t = Some st /\
  handler_entry t p =
    if negb (in_protected st) || (region_snapshot (p_registry p) =? 0)
    then Stop (StopKilled SIGBUS) (set_disposition SigDfl p)
    else Done (ptr, region_snapshot (p_registry p)) p.
Proof.
  intros Hok Ho. destruct (owns_some _ _ _ Hok Ho) as [st Hst]. exists st. split; [done|].
  pose proof (owns_ready _ _ _ Hok Ho) as [_ Hd _ [Hp Hg] _].
  unfold handler_entry. rewrite bind_eq. cbn. rewrite Hd. rewrite bind_eq. cbn.
  rewrite bind_eq. cbn. rewrite Hg. destruct (Z.eqb_spec ptr 0); [done|].
  rewrite bind_eq. unfold state_read. rewrite (owns_state _ _ _ _ Ho Hst). cbn [state_read].
  destruct (negb (in_protected st)); [done|]. rewrite bind_eq. cbn. by destruct (_ =? 0).
Qed.

Lemma handler_exit_ok t ptr frame f rd p :
  owns p t ptr -> armed p t frame ->
  exists st, thread_state p t = Some st /\
  handler_exit ptr (rd_ptr rd) f p =
    match heap (p_registry p) !! rd_ptr rd with
    | None => Stop StopUB p
    | Some l =>
        if existsb (in_region f) l
        then Done (Some frame) (upd ptr p (p_os p) (set_fault f st) (p_frames p))
        else Stop (StopKilled SIGBUS) (set_disposition SigDfl p)
    end.
Proof.
  intros Ho (st & Hst & Hin & Hj). exists st. split; [done|].
  unfold handler_exit. rewrite bind_eq. unfold zoom, box_deref. cbn [lget lset registry_lens].
  destruct (heap _ !! _) as [l|]; [|by destruct p].
  replace (set_registry (p_registry p) p) with p by by destruct p. cbv beta iota.
  destruct (existsb _ _); [|done]. cbn [negb]. pose proof (owns_state _ _ _ _ Ho Hst) as Hs.
  rewrite bind_eq. unfold state_read. rewrite Hs. rewrite bind_eq, (state_write_ok _ _ st) by done.
  by rewrite Hj.
Qed.

(** The statement of the steps' lemma. *)
Definition step_outcome {R} (busy : bool) (t : tid) p (c : pcall R) (o : outcome (proc K T) (flow (pcall R))) : Prop :=
  match o with
  | Done (Normal c') p' =>
      proc_ok p' /\ step_keeps t p p' /\ call_ok p' busy t c' /\ p_os p' = os_after c (p_os p)
  | Done (Jumping _) _ => False
  | Stop why _ => call_dies p c why
  end.

#[local] Abbreviation step busy t c p := (call_flow t (if (busy : bool) then 1%nat else 0%nat) c p).

Lemma call_enter_ok {R} t busy (c : pcall R) p :
  proc_ok p -> call_ok p busy t c ->
  match c_pc c with CInstall | CInit => True | _ => False end ->
  step_outcome busy t p c (step busy t c p).
Proof.
  intros Hok Hc Hpc. destruct c as [q tr l pc]. cbn [c_pc] in Hpc. destruct pc; try done; cbn in Hc |- *.
  - rewrite bind_eq, install_ok by done. cbv beta iota. split; [by apply installed_ok|].
    split; [|done]. split; [split; [apply installed_only|done]|].
    intros ptr (_ & Hp & Ht). split; [done|]. split; [done|]. by rewrite installed_ptr.
  - destruct Hc as [Hi ->]. rewrite bind_eq.
    destruct (setup_ok t p Hok) as (ptr & p' & E & _ & Hok' & Hr & _ & Hos & Ho & _ & Hsame).
    rewrite bind_eq in E. assert (install_handler p = Done tt p) as Ei.
    { unfold install_handler, install, call_once. cbn. by rewrite Hi. }
    rewrite Ei in E. rewrite E. pose proof Hr as [Hh' _ _ _ _].
    destruct (ready_thread_ptr _ _ _ Hr) as [Ht Hne].
    split; [done|]. split; [|by split_and!]. split; [by split|].
    intros ptr' (_ & Hp & Ht'). split; [done|]. split; [done|]. rewrite Ht, <- Ht'. apply Hsame. by rewrite Ht'.
Qed.

Lemma call_arm_ok {R} t busy (c : pcall R) p :
  proc_ok p -> call_ok p busy t c ->
  match c_pc c with CProtect _ | CSetjmp _ => True | _ => False end ->
  step_outcome busy t p c (step busy t c p).
Proof.
  intros Hok Hc Hpc. destruct c as [q tr l pc]. cbn [c_pc] in Hpc.
  destruct pc as [| |ptr|ptr| | | | | | |]; try done; cbn in Hc |- *.
  - destruct Hc as [Ho ->].
    destruct (own_write_ok t ptr (set_in_protected true) p Hok Ho)
      as (st & p' & _ & E & Hok' & Hfr & Ho' & Hst & Hos).
    rewrite bind_eq, E. split; [done|]. split; [done|]. split; [|done]. split; [done|]. split; [done|]. by eexists.
  - destruct Hc as (Ho & -> & st & Hst & Hin). rewrite bind_eq. cbn. rewrite bind_eq. cbn.
    set (p1 := set_frames _ p). pose proof (owns_state _ _ _ _ Ho Hst) as Hs.
    rewrite bind_eq, (state_write_ok _ _ st) by done. cbv beta iota.
    set (st' := set_jmp_buf _ st).
    destruct (own_update t ptr p (p_os p) st' (S (p_frames p)) Hok Ho) as (Hok' & Hfr & Ho' & Hst').
    split; [exact Hok'|]. split; [exact Hfr|]. split; [|done].
    split; [exact Ho'|]. split; [|done]. left. by exists st'.
Qed.

(** An access: its answer goes on with the closure, or starts the handler. *)
Lemma call_run_ok {R} t busy (c : pcall R) p :
  proc_ok p -> call_ok p busy t c ->
  match c_pc c with CRun _ _ _ => True | _ => False end ->
  step_outcome busy t p c (step busy t c p).
Proof.
  intros Hok Hc Hpc. destruct c as [q tr l pc]. cbn [c_pc] in Hpc.
  destruct pc as [| |ptr|ptr|ptr fr q'| | | | | |]; try done. destruct Hc as (Ho & Hg & Hq).
  assert (Hos : forall k, proc_ok (set_os k p)) by (intros k; by destruct Hok).
  assert (Hacc : forall k tr' q2, nested tr' = nested tr -> resume q tr' = Some q2 ->
    k = os_after (MkCall q tr l (CRun ptr fr q')) (p_os p) ->
    step_outcome busy t p (MkCall q tr l (CRun ptr fr q'))
      (Done (Normal (MkCall q tr' l (CRun ptr fr q2))) (set_os k p))).
  { intros k tr' q2 Hn Hr Hk. split; [by apply Hos|]. split; [apply set_os_keeps|]. split; [|exact Hk].
    split; [exact Ho|]. split; [|done]. unfold guarded. rewrite Hn. exact Hg. }
  assert (Hflt : forall k a, awaiting (MkCall q tr l (CFaulted ptr fr a)) a ->
    k = os_after (MkCall q tr l (CRun ptr fr q')) (p_os p) ->
    step_outcome busy t p (MkCall q tr l (CRun ptr fr q'))
      (Done (Normal (MkCall q tr l (CFaulted ptr fr a))) (set_os k p))).
  { intros k a Hw Hk. split; [by apply Hos|]. split; [apply set_os_keeps|]. by split. }
  destruct q' as [v|a k|a b k| |A q' k]; cbn [call_flow].
  - split; [done|]. split; [apply step_keeps_refl|]. by split.
  - rewrite bind_eq. unfold zoom, call. cbn [lget lset os_lens].
    destruct (load (p_os p) a) as [k' [b|f|]] eqn:El; [| |left; split; [done|cbn; by rewrite El]].
    + apply Hacc; [by rewrite nested_app, orb_false_r|by rewrite resume_app, Hq|cbn; by rewrite El].
    + pose proof (load_fault _ _ _ _ El) as ->. apply Hflt; [unfold awaiting; cbn; by rewrite Hq|cbn; by rewrite El].
  - rewrite bind_eq. unfold zoom, call. cbn [lget lset os_lens].
    destruct (store (p_os p) a b) as [k' [x|f|]] eqn:El; [| |left; split; [done|cbn; by rewrite El]].
    + apply Hacc; [by rewrite nested_app, orb_false_r|by rewrite resume_app, Hq|cbn; by rewrite El].
    + pose proof (store_fault _ _ _ _ _ El) as ->. apply Hflt; [unfold awaiting; cbn; by rewrite Hq|cbn; by rewrite El].
  - right; right; by left.
  - split; [done|]. split; [apply step_keeps_refl|]. by split.
Qed.

Lemma call_handler_ok {R} t busy (c : pcall R) p :
  proc_ok p -> call_ok p busy t c ->
  match c_pc c with CFaulted _ _ _ | CScan _ _ _ _ _ => True | _ => False end ->
  step_outcome busy t p c (step busy t c p).
Proof.
  intros Hok Hc Hpc. destruct c as [q tr l pc]. cbn [c_pc] in Hpc.
  destruct pc as [| | | | | |ptr fr f|ptr fr f sp rd| | |]; try done; cbn [call_ok call_flow] in *.
  - destruct Hc as (Ho & Hg & Hw). destruct (handler_entry_ok t ptr p Hok Ho) as (st & Hst & E).
    rewrite bind_eq, E.
    destruct (in_protected st) eqn:Hin, (Z.eqb_spec (region_snapshot (p_registry p)) 0) as [Hz|Hne]; cbn [negb orb].
    2: { rewrite bind_eq. cbn. split; [done|]. split; [apply step_keeps_refl|].
      assert (Ha : armed p t fr) by (destruct Hg as [|[_ Hd]]; [done|by rewrite (Hd st Hst) in Hin]).
      split; [|done]. split_and!; try done. destruct Hok as [[Hr _] _ _ _ _]. split; [done|]. cbn. split.
      - unfold reader_place. cbn. destruct busy; [by left|done].
      - intros _. by apply snapshot_live. }
    1: { right; left. split; [done|]. split; [exact Hw|]. right. unfold regions. by rewrite Hz. }
    all: right; left; split; [done|]; split; [exact Hw|]; left;
      destruct Hg as [(st' & Hst' & Hin' & _)|[Hn _]]; [congruence|done].
  - destruct Hc as (-> & Ho & Ha & Hw & -> & _ & _ & Hrd).
    destruct (handler_exit_ok t ptr fr f rd p Ho Ha) as (st & Hst & E).
    rewrite bind_eq, E. assert (Hrd' : late rd = false -> heap (p_registry p) !! rd_ptr rd = Some (rd_regions rd)).
    { unfold late. case_bool_decide; [done|]. intros _. apply Hrd. lia. }
    clear Hrd E. destruct (heap (p_registry p) !! rd_ptr rd) as [l|] eqn:El.
    2: { right; right; right. cbn. rewrite El. split; [|done]. by destruct (late rd); [|discriminate Hrd']. }
    destruct (existsb (in_region f) l) eqn:Ex.
    + rewrite bool_decide_eq_true_2 by done.
      destruct (own_update t ptr p (p_os p) (set_fault f st) (p_frames p) Hok Ho) as (Hok' & Hfr & Ho' & Hst').
      split; [exact Hok'|]. split; [exact Hfr|]. split; [|done]. split; [exact Ho'|].
      exists (set_fault f st). split; [exact Hst'|]. split; [done|]. cbn.
      destruct (late rd); [done|]. by injection (Hrd' eq_refl) as <-.
    + destruct (late rd) eqn:Hlate; [right; right; right; cbn; by rewrite Hlate, El|].
      injection (Hrd' eq_refl) as ->. right; left. split; [done|]. split; [exact Hw|]. by eexists.
Qed.

Lemma call_return_ok {R} t busy (c : pcall R) p :
  proc_ok p -> call_ok p busy t c ->
  match c_pc c with CLeave _ _ | CFault _ => True | _ => False end ->
  step_outcome busy t p c (step busy t c p).
Proof.
  intros Hok Hc Hpc. destruct c as [q tr l pc]. cbn [c_pc] in Hpc.
  destruct pc as [| | | | | | | |ptr res|ptr|]; try done; cbn [call_ok call_flow] in *.
  - assert (Ho : owns p t ptr) by (destruct res; apply Hc).
    destruct (own_write_ok t ptr (set_in_protected false) p Hok Ho)
      as (st & p' & Hst0 & E & Hok' & Hfr & Ho' & Hst & Hos).
    rewrite bind_eq, E. split; [done|]. split; [done|]. split; [|done].
    destruct res as [v|]; cbn.
    + split; [|apply Hc]. intros x Hx. rewrite Hst in Hx. by injection Hx as <-.
    + split; [done|]. destruct Hc as (_ & st1 & Hst1 & Hca). exists (set_in_protected false st).
      split; [done|]. split; [done|]. by replace st with st1 by congruence.
  - destruct Hc as (Ho & st & Hst & Hin & Hca). rewrite bind_eq. unfold state_read.
    rewrite (owns_state _ _ _ _ Ho Hst). split; [done|]. split; [apply step_keeps_refl|].
    split; [|done]. split; [|done]. intros x Hx. congruence.
Qed.

(** The closure goes on after its own call. *)
Lemma call_resume_ok {R A} t busy q tr l ptr fr (inner : pcall A) (k : result A Z -> prog R) r p :
  proc_ok p -> call_ok p busy t (MkCall q tr l (CInner ptr fr inner k)) -> c_pc inner = CDone r ->
  step_outcome busy t p (MkCall q tr l (CInner ptr fr inner k))
    (Done (Normal (MkCall q (tr_app tr (TCall (c_heard inner) (negb (is_ok r)) TNil)) l (CRun ptr fr (k r)))) p).
Proof.
  intros Hok (Ho & Hq & Hi) Epc. split; [done|]. split; [apply step_keeps_refl|].
  destruct inner as [q' tr' l' pc']. cbn in Epc. subst pc'. destruct Hi as [Hd Hres]. split; [|done].
  split; [done|]. split; [right; split; [by rewrite nested_app, orb_true_r|done]|].
  rewrite resume_app, Hq. cbn [resume c_prog c_heard]. destruct r as [v|f]; cbn in Hres |- *.
  - by rewrite Hres.
  - destruct Hres as [Hw _]. unfold awaiting in Hw. cbn in Hw.
    by destruct (resume q' tr') as [[| | | |]|]; subst.
Qed.

Lemma call_flow_ok {R} t busy (c : pcall R) p :
  proc_ok p -> call_ok p busy t c -> ~ idle (Some c) ->
  step_outcome busy t p c (step busy t c p).
Proof.
  intros Hok. induction c as [R c IH] using pcall_nest_ind. intros Hc Hidle.
  destruct c as [q tr l pc].
  destruct pc as [| |ptr|ptr|ptr fr q'|A ptr fr inner k|ptr fr f|ptr fr f sp rd|ptr res|ptr|r].
  6: { cbn [c_pc] in IH. pose proof Hc as (Ho & Hq & Hi).
    destruct (c_pc inner) eqn:Epc; cbn [call_flow]; rewrite Epc;
      try (by eapply call_resume_ok); rewrite bind_eq; unfold trampoline;
      (specialize (IH Hi ltac:(unfold idle; rewrite Epc; tauto));
       destruct (call_flow t _ inner p) as [[inner'|e]p'|why p'] eqn:E; [|done|]);
      try (destruct IH as (Hok' & [Hfr Hown] & Hi' & Hos); split; [done|]; split; [done|];
           split; [|exact Hos]; split; [by apply Hown|]; split; [|done];
           by rewrite (call_flow_prog _ _ _ _ _ _ E));
      destruct why; (exact IH || by destruct (call_dies_no_panic _ _ IH)). }
  all: try (by apply call_enter_ok); try (by apply call_arm_ok); try (by apply call_run_ok);
    try (by apply call_handler_ok); try (by apply call_return_ok).
Qed.

Lemma call_step_ok {R} t busy (c : pcall R) p :
  proc_ok p -> call_ok p busy t c -> ~ idle (Some c) ->
  match call_step t (if busy then 1%nat else 0%nat) c p with
  | Done c' p' =>
      proc_ok p' /\ step_frame t p p' /\ call_ok p' busy t c' /\ p_os p' = os_after c (p_os p)
  | Stop why _ => call_dies p c why
  end.
Proof.
  intros Hok Hc Hidle. pose proof (call_flow_ok t busy c p Hok Hc Hidle) as H.
  unfold call_step. rewrite bind_eq. destruct (call_flow _ _ _ _) as [[c'|e] p'|why p']; [|done|exact H].
  destruct H as (? & [? _] & ? & ?). by split_and!.
Qed.

(** ** The two halves of a mutation *)

Lemma call_ok_begin {R} p t (c : pcall R) :
  registry_wf (p_registry p) -> call_ok p false t c ->
  call_ok (set_registry (rotated (p_registry p)) p) true t (age_call c).
Proof.
  intros Hwf. induction c as [R c IH] using pcall_nest_ind. destruct c as [q tr l pc].
  destruct pc as [| |ptr|ptr|ptr fr q'|A ptr fr inner k|ptr fr f|ptr fr f sp rd|ptr res|ptr|r]; try done.
  - intros (Ho & Hq & Hi). split; [done|]. split; [|by apply IH].
    rewrite Hq. destruct inner as [q1 tr1 l1 pc1]. by destruct pc1.
  - intros (? & ? & ? & ? & ? & Hr). cbn. split_and!; try done. by apply reader_begin.
Qed.

Lemma age_call_prog {R} (c : pcall R) : c_prog (age_call c) = c_prog c.
Proof. destruct c as [q tr l pc]. by destruct pc. Qed.

Lemma age_call_seen {R} x (c : pcall R) : seen_has x c -> seen_has x (age_call c).
Proof.
  induction c as [R c IH] using pcall_nest_ind. destruct c as [q tr l pc].
  intros [Hl Hi]. destruct pc; try by split. split; [done|]. by apply IH.
Qed.

Lemma age_call_idle {R} (c : pcall R) : idle (Some (age_call c)) <-> idle (Some c).
Proof. destruct c as [q tr l pc]. by destruct pc. Qed.

(** On the whole process. *)
Lemma proc_begin_ok p :
  proc_ok p ->
  let p' := set_registry (rotated (p_registry p)) p in
  zoom registry_lens rotate_retired p = Done tt p' /\ proc_ok p'.
Proof.
  intros [[Hwf Hmx] Hh Hk Hs Hd] p'. unfold zoom. cbn [lget lset registry_lens].
  rewrite rotate_ok by done. split; [done|]. split; try done. split; [by apply rotated_wf|done].
Qed.

Lemma proc_finish_ok x p :
  proc_ok p -> current (tracker (p_registry p)) = [] -> mutation_fits x ->
  let p' := set_registry (finished x (p_registry p)) p in
  zoom registry_lens (mutation_body x) p = Done tt p' /\ proc_ok p'.
Proof.
  intros [[Hwf Hmx] Hh Hk Hs Hd] Hc Hf p'. unfold zoom. cbn [lget lset registry_lens].
  rewrite mutation_body_ok by done. split; [done|].
  destruct (finished_wf x _ Hwf Hc) as (Hwf' & _ & Hmx').
  split; try done. split; [done|]. etransitivity; [exact Hmx'|done].
Qed.
End Invariant.

(** * The machine's steps *)

Section Reachable.
Context `{PR : Profile} `{AL : Allocator} {K T R : Type} `{VMK : !VM K} `{PE : !ProcEnv T}.
Context `{ALok : !AllocatorOk} `{PEok : !ProcEnvOk T} `{FL : !FaultLaws K}.
Implicit Types (p : proc K T) (c : pcall R) (s : machine K T R).

Record ma_inv s : Prop := {
  mi_proc : proc_ok (ma_proc s);
  mi_busy : is_Some (ma_phase s) -> current (tracker (p_registry (ma_proc s))) = [];
  mi_fits : forall m, ma_phase s = Some m -> mutation_fits m;
  mi_calls : forall t c, ma_calls s !! t = Some c ->
    call_ok (ma_proc s) (bool_decide (is_Some (ma_phase s))) t c;
  mi_idle : forall t, ma_calls s !! t = None -> disarmed (ma_proc s) t;
}.

(** How an action may stop: the next step of a call ends the process. *)
Definition action_stops s (a : action K R) (why : stop_reason) : Prop :=
  exists t c, a = AStep t /\ ma_calls s !! t = Some c /\ call_dies (ma_proc s) c why.

Lemma call_ok_disarmed p busy t oc :
  (forall c, oc = Some c -> call_ok p busy t c) -> (oc = None -> disarmed p t) ->
  idle oc -> disarmed p t.
Proof.
  intros Hc Hn. destruct oc as [[q tr l pc]|]; [|by intros _; apply Hn]. specialize (Hc _ eq_refl).
  by destruct pc; cbn in *; [done..|intros _; apply Hc].
Qed.

Lemma ma_inv_init p :
  proc_ok p -> (forall t, disarmed p t) -> ma_inv (MkMachine p None ∅).
Proof. intros Hok Hd. split; cbn; [done|by intros []|done|by intros t c|by intros t _]. Qed.

(** A step of one thread, which ends with its call in the state [oc]. *)
Lemma ma_inv_thread t s p' oc :
  ma_inv s -> proc_ok p' -> step_frame t (ma_proc s) p' ->
  (forall c, oc = Some c -> call_ok p' (bool_decide (is_Some (ma_phase s))) t c) ->
  (oc = None -> disarmed p' t) ->
  ma_inv (MkMachine p' (ma_phase s) (partial_alter (fun _ => oc) t (ma_calls s))).
Proof.
  intros [Hok Hb Hm Hc Hi] Hok' Hf Hs Hn. pose proof Hf as [[Hr Ho] _].
  split; cbn; [done|by rewrite Hr|done| |].
  - intros t' c'. destruct (decide (t = t')) as [<-|]; [rewrite lookup_partial_alter_eq; apply Hs|].
    rewrite lookup_partial_alter_ne by done. intros Hl. eapply call_ok_other; eauto.
  - intros t'. destruct (decide (t = t')) as [<-|]; [by rewrite lookup_partial_alter_eq|].
    rewrite lookup_partial_alter_ne by done. intros Hl.
    eapply disarmed_frame; [apply Ho; congruence|]. by apply Hi.
Qed.

(** A change of the process that leaves the registry and the threads' states. *)
Lemma ma_inv_proc s p' :
  ma_inv s -> proc_ok p' -> p_registry p' = p_registry (ma_proc s) ->
  (forall t, thread_ptr p' t = thread_ptr (ma_proc s) t /\ thread_state p' t = thread_state (ma_proc s) t) ->
  (p_handler_init (ma_proc s) = OnceDone -> p_handler_init p' = OnceDone) ->
  ma_inv (MkMachine p' (ma_phase s) (ma_calls s)).
Proof.
  intros [Hok Hb Hm Hc Hi] Hok' Hr Ht Hh. split; cbn; [done|by rewrite Hr|done| |].
  - intros t c Hl. eapply (call_ok_frame (ma_proc s)); [apply Ht|apply Ht|done|by rewrite Hr|by apply Hc].
  - intros t Hl. eapply disarmed_frame; [apply Ht|by apply Hi].
Qed.

Lemma ma_exit_ok t s :
  ma_inv s -> idle (ma_calls s !! t) ->
  exists s', zoom ma_lens (thread_exit t) s = Done tt s' /\ ma_inv s'.
Proof.
  intros Hinv Hen. pose proof Hinv as [Hok Hb Hm Hc Hi].
  destruct (thread_exit_ok t (ma_proc s) Hok) as (p' & E & Hok' & _ & Ho & Hz & _ & Hh & _).
  unfold zoom. cbn [lget ma_lens]. rewrite E. eexists. split; [done|].
  assert (Hd' : disarmed p' t) by (intros st; unfold thread_state; by rewrite Hz).
  assert (Hfr : step_frame t (ma_proc s) p') by (split; [done|by rewrite Hh]).
  cbn [lset ma_lens]. replace (MkMachine p' (ma_phase s) (ma_calls s)) with
    (MkMachine p' (ma_phase s) (partial_alter (fun _ => ma_calls s !! t) t (ma_calls s)))
    by by rewrite partial_alter_self.
  apply ma_inv_thread; [done..| |done]. intros [q tr l pc] Hl. pose proof (Hc _ _ Hl) as H.
  rewrite Hl in Hen. destruct pc; try done. split; [done|]. apply H.
Qed.

Lemma ma_step_ok a s :
  ma_inv s -> ma_enabled a s ->
  match ma_exec a s with Done _ s' => ma_inv s' | Stop why _ => action_stops s a why end.
Proof.
  intros Hinv Hen. pose proof Hinv as [Hok Hb Hm Hc Hi].
  destruct a as [t q|t|t|m| |k]; cbn [ma_exec ma_enabled] in *.
  - eapply (ma_inv_thread t s (ma_proc s) (Some _)); [done..|by apply step_frame_refl| |done].
    by intros c [= <-].
  - destruct (ma_calls s !! t) as [c|] eqn:Hl; [|by destruct Hen]. rewrite bind_eq. cbn. rewrite Hl, bind_eq.
    pose proof (call_step_ok t (bool_decide (is_Some (ma_phase s))) c (ma_proc s) Hok (Hc _ _ Hl) Hen) as Hs.
    unfold zoom. cbn [lget ma_lens].
    replace (match ma_phase s with Some _ => 1%nat | None => 0%nat end)
      with (if bool_decide (is_Some (ma_phase s)) then 1%nat else 0%nat)
      by by destruct (ma_phase s).
    destruct (call_step _ _ _ _) as [c' p'|why p'].
    + destruct Hs as (Hok' & Hf & Hc' & _).
      eapply (ma_inv_thread t s p' (Some c')); [done..| |done]. by intros c0 [= <-].
    + by exists t, c.
  - by destruct (ma_exit_ok t s Hinv Hen) as (s' & -> & ?).
  - destruct Hen as [Hidle Hfit]. rewrite bind_eq. unfold zoom at 1. cbn [lget lset ma_lens].
    destruct (proc_begin_ok (ma_proc s) Hok) as [-> Hok']. pose proof Hok as [[Hwf _] _ _ _ _].
    rewrite Hidle in Hc. split; cbn; [done|done|by intros ? [= <-]| |].
    + intros t c. rewrite lookup_fmap. destruct (ma_calls s !! t) as [c0|] eqn:Hl; [|done].
      intros [= <-]. apply call_ok_begin; [done|]. exact (Hc _ _ Hl).
    + intros t. rewrite lookup_fmap. destruct (ma_calls s !! t) eqn:Hl; [done|]. intros _. by apply Hi.
  - destruct Hen as [m Em]. rewrite bind_eq. cbn [get]. rewrite Em, bind_eq.
    unfold zoom at 1. cbn [lget lset ma_lens]. pose proof Hok as [[Hwf _] _ _ _ _].
    destruct (proc_finish_ok m (ma_proc s) Hok) as [-> Hok']; [by apply Hb; rewrite Em|by apply Hm|].
    split; cbn; [done|by intros []|done| |].
    + intros t c Hl. eapply (call_ok_frame (ma_proc s) _ true false); [done..| |].
      * intros rd. by apply reader_finish.
      * rewrite Em in Hc. exact (Hc _ _ Hl).
    + intros t Hl. by apply Hi.
  - unfold zoom. cbn. split; cbn; [by destruct Hok|done..| |done].
    intros t c Hl. eapply (call_ok_frame (ma_proc s)); [done..|]. by apply Hc.
Qed.

Lemma ma_reachable_inv p0 s :
  proc_ok p0 -> (forall t, disarmed p0 t) -> ma_reachable p0 s -> ma_inv s.
Proof.
  intros Hok Hd. induction 1 as [|s a s' _ IH Hen E]; [by apply ma_inv_init|].
  pose proof (ma_step_ok a s IH Hen) as H. by rewrite E in H.
Qed.

(** C18 (safety): however the steps of the protected calls of any number of
    threads, nested to any depth, interleave with each other, with thread
    exits, with register and unregister and with changes of the files by other
    processes, no step panics or jumps to a frame that is gone, and none uses a
    freed object, with one exception: a handler that more than two changes of
    the registry have overtaken reads the snapshot it had loaded after its
    release. A step ends the process only where an access is answered with
    SIGSEGV; where a closure panics; where a SIGBUS is not caught (a closure,
    armed until a call of its own returns, stopped at an address that was in no
    region when the handler was entered, or after such a return); or where such
    an overtaken handler finds its snapshot freed (undefined behaviour) or
    replaced by one that lacks the address (SIGBUS). A call that returned has
    given the value its own closure computed from its own accesses, or the
    address of its own last access, which was in a registered region when the
    handler loaded the snapshot (unless the handler was overtaken in that way);
    and a thread outside its calls is not protected. *)
Theorem concurrent_calls p0 s :
  proc_ok p0 -> (forall t, disarmed p0 t) -> ma_reachable p0 s ->
  (forall a, ma_enabled a s -> match ma_exec a s with Done _ _ => True | Stop why _ => action_stops s a why end) /\
  (forall t c r, ma_calls s !! t = Some c -> c_pc c = CDone r -> call_result_ok c r) /\
  (forall t, idle (ma_calls s !! t) -> disarmed (ma_proc s) t).
Proof.
  intros Hok Hd Hr. pose proof (ma_reachable_inv p0 s Hok Hd Hr) as Hinv. split_and!.
  - intros a Hen. pose proof (ma_step_ok a s Hinv Hen) as H. by destruct (ma_exec a s).
  - intros t [q tr l pc] r Hl Epc. pose proof (mi_calls s Hinv t _ Hl) as H. cbn in Epc. subst pc. apply H.
  - intros t. eapply call_ok_disarmed; [by apply mi_calls|by apply mi_idle].
Qed.
End Reachable.

(** * A thread that runs alone *)

(** Whether a jump is to the checkpoint [frame]. *)
Ltac decide_jump e frame :=
  destruct (decide (e = Some frame));
  [rewrite !bool_decide_eq_true_2 by done|rewrite !bool_decide_eq_false_2 by done].

Section Solo.
Context `{PR : Profile} `{AL : Allocator} {K T : Type} `{VMK : !VM K} `{PE : !ProcEnv T}.
Implicit Types p : proc K T.

(** At most [n] steps of a call, without a step of another thread between
    them: the answer of the call, or [None] when it has not returned. *)
Fixpoint call_run {R} (n : nat) (t : tid) (c : pcall R) : M (proc K T) (option (result R Z)) :=
  match c_pc c with
  | CDone r => mret (Some r)
  | _ =>
      match n with
      | O => mret None
      | S n => c' ← call_step t 0 c; call_run n t c'
      end
  end.

Definition answers {R} (t : tid) (c : pcall R) p (o : outcome (proc K T) (result R Z)) : Prop :=
  exists n, call_run n t c p =
    match o with Done r p' => Done (Some r) p' | Stop why p' => Stop why p' end.

(** Where the steps of a call lead, alone: it returns, a jump leaves it, or the
    process stops. *)
Inductive flows {R} (t : tid) : pcall R -> proc K T -> outcome (proc K T) (flow (result R Z)) -> Prop :=
  | flows_done c p r : c_pc c = CDone r -> flows t c p (Done (Normal r) p)
  | flows_step c p c' p' o :
      ~ idle (Some c) -> call_flow t 0 c p = Done (Normal c') p' -> flows t c' p' o -> flows t c p o
  | flows_jump c p e p' :
      ~ idle (Some c) -> call_flow t 0 c p = Done (Jumping e) p' -> flows t c p (Done (Jumping e) p')
  | flows_stop c p why p' :
      ~ idle (Some c) -> call_flow t 0 c p = Stop why p' -> flows t c p (Stop why p').

Lemma flows_by {R} t (c : pcall R) p o :
  ~ idle (Some c) ->
  match call_flow t 0 c p with
  | Done (Normal c') p' => flows t c' p' o
  | Done (Jumping e) p' => o = Done (Jumping e) p'
  | Stop why p' => o = Stop why p'
  end -> flows t c p o.
Proof.
  intros Hi H. destruct (call_flow t 0 c p) as [[c'|e] p'|why p'] eqn:E; [|subst..].
  - by eapply flows_step.
  - by apply flows_jump.
  - by apply flows_stop.
Qed.

Lemma call_run_step {R} n t (c : pcall R) p :
  ~ idle (Some c) -> call_run (S n) t c p =
    match call_step t 0 c p with Done c' p' => call_run n t c' p' | Stop why p' => Stop why p' end.
Proof. intros Hi. cbn [call_run]. rewrite <- bind_eq. destruct c as [q tr l pc]. by destruct pc. Qed.

Lemma flows_answers {R} t (c : pcall R) p o :
  flows t c p o ->
  answers t c p match o with
                | Done (Normal r) p' => Done r p'
                | Done (Jumping _) p' => Stop StopUB p'
                | Stop why p' => Stop why p'
                end.
Proof.
  induction 1 as [c p r E|c p c' p' o Hi E _ [n IH]|c p e p' Hi E|c p why p' Hi E].
  - exists 0%nat. cbn. by rewrite E.
  - exists (S n). rewrite call_run_step by done. unfold call_step. by rewrite bind_eq, E.
  - exists 1%nat. rewrite call_run_step by done. unfold call_step. by rewrite bind_eq, E.
  - exists 1%nat. rewrite call_run_step by done. unfold call_step. by rewrite bind_eq, E.
Qed.

(** A nested call, inside the closure that waits for it. *)
Lemma flows_inner {R A} t (inner : pcall A) p oi q tr l state frame (k : result A Z -> prog R) o :
  flows t inner p oi ->
  match oi with
  | Done (Normal r) p' => forall tr', flows t (MkCall q tr' l (CRun state frame (k r))) p' o
  | Done (Jumping e) p' =>
      if bool_decide (e = Some frame) then flows t (MkCall q tr l (CLeave state None)) p' o
      else o = Done (Jumping e) p'
  | Stop why p' => o = Stop (abort_reason why) p'
  end -> flows t (MkCall q tr l (CInner state frame inner k)) p o.
Proof.
  assert (Hstep : forall (inner : pcall A) p, ~ idle (Some inner) ->
    call_flow t 0 (MkCall q tr l (CInner state frame inner k)) p =
    match trampoline (call_flow t 0 inner) p with
    | Done (Normal inner') p' => Done (Normal (MkCall q tr l (CInner state frame inner' k))) p'
    | Done (Jumping e) p' =>
        (if bool_decide (e = Some frame) then Done (Normal (MkCall q tr l (CLeave state None))) p'
         else Done (Jumping e) p')
    | Stop why p' => Stop why p'
    end).
  { intros c p1 Hi. cbn [call_flow]. destruct (c_pc c) eqn:E; try (unfold idle in Hi; rewrite E in Hi; tauto);
      (rewrite bind_eq; destruct (trampoline _ _) as [[c'|e] p'|]; [done|by destruct (bool_decide _)|done]). }
  intros H. induction H as [c p r E|c p c' p' oi Hi E _ IH|c p e p' Hi E|c p why p' Hi E]; intros Ho.
  - apply flows_by; [by intros []|]. cbn [call_flow]. rewrite E. apply Ho.
  - apply flows_by; [by intros []|]. rewrite Hstep by done. unfold trampoline. rewrite E. by apply IH.
  - apply flows_by; [by intros []|]. rewrite Hstep by done. unfold trampoline. rewrite E.
    revert Ho. by decide_jump e frame.
  - apply flows_by; [by intros []|]. rewrite Hstep by done. unfold trampoline. rewrite E. by destruct why.
Qed.

(** The two halves are the handler. *)
Lemma deliver_split t f p :
  deliver_sigbus t f p = (h ← handler_entry t; handler_exit h.1 h.2 f) p.
Proof.
  unfold deliver_sigbus, handler_entry, sigbus_handler, handler_exit, contains.
  rewrite !bind_eq. cbn. destruct (p_disposition p); [done|]. rewrite !bind_eq. cbn.
  rewrite !bind_eq. cbn. destruct (_ =? 0); [done|]. rewrite !bind_eq. unfold state_read.
  destruct (p_states p !! _) as [st|] eqn:Est; [|done].
  destruct (negb (in_protected st)); [done|]. rewrite !bind_eq. cbn.
  unfold zoom. rewrite bind_eq. cbn. destruct (_ =? 0); [by destruct p|].
  cbn. rewrite !bind_eq. cbn. unfold box_deref. cbn.
  destruct (heap _ !! _) as [l|]; [|done]. cbn. destruct (negb _); [done|].
  rewrite !bind_eq. cbn. by rewrite Est.
Qed.

Lemma deliver_no_panic t f p p' : deliver_sigbus t f p <> Stop StopPanic p'.
Proof.
  unfold deliver_sigbus, sigbus_handler, contains. rewrite bind_eq. cbn.
  destruct (p_disposition p); [done|]. rewrite bind_eq. cbn. rewrite bind_eq. cbn.
  destruct (_ =? 0); [done|]. rewrite bind_eq. unfold state_read.
  destruct (p_states p !! _) as [st|]; [|done]. destruct (negb (in_protected st)); [done|].
  rewrite bind_eq. unfold zoom, box_deref. rewrite bind_eq. cbn. destruct (_ =? 0); [done|].
  rewrite bind_eq. destruct (heap _ !! _); [|done]. cbn. destruct (negb _); [done|].
  rewrite bind_eq. unfold state_write. cbn. by destruct (p_states p !! _).
Qed.

(** What the call does once the closure has ended. *)
Definition leave {R} (state : Z) (res : option R) : M (proc K T) (flow (result R Z)) :=
  _ ← state_write state (set_in_protected false);
  match res with
  | Some v => mret (Normal (Ok v))
  | None => s ← state_read state; mret (Normal (Err (fault_addr s)))
  end.

Definition leave_flow {R} (state : Z) (frame : nat) (o : outcome (proc K T) (flow R)) :
    outcome (proc K T) (flow (result R Z)) :=
  match o with
  | Done (Normal v) p' => leave state (Some v) p'
  | Done (Jumping e) p' =>
      if bool_decide (e = Some frame) then leave state None p' else Done (Jumping e) p'
  | Stop why p' => Stop why p'
  end.

Lemma flows_leave {R} t (q : prog R) tr l state res p :
  flows t (MkCall q tr l (CLeave state res)) p (leave state res p).
Proof.
  apply flows_by; [by intros []|]. cbn [call_flow]. unfold leave. rewrite !bind_eq.
  destruct (state_write state _ p) as [[] p'|]; [|done]. destruct res as [v|].
  - by apply flows_done.
  - apply flows_by; [by intros []|]. cbn [call_flow]. rewrite !bind_eq.
    destruct (state_read state p') as [st p1|]; [|done]. by apply flows_done.
Qed.

Lemma flows_fault {R} t (q : prog R) tr l state frame f p :
  flows t (MkCall q tr l (CFaulted state frame f)) p
    (leave_flow state frame
       (match deliver_sigbus t f p with Done e p' => Done (Jumping e) p' | Stop why p' => Stop why p' end)).
Proof.
  rewrite deliver_split, bind_eq. apply flows_by; [by intros []|]. cbn [call_flow].
  rewrite bind_eq. destruct (handler_entry t p) as [h p'|]; [|done]. cbv beta iota.
  rewrite bind_eq. cbn [gets]. apply flows_by; [by intros []|]. cbn [call_flow rd_ptr].
  rewrite bind_eq. destruct (handler_exit _ _ _ p') as [e p1|]; [|done]. cbn [leave_flow].
  decide_jump e frame; [apply flows_leave|done].
Qed.

(** A call, if its closure runs as [exec] does. *)
Lemma flows_start {R} t (q : prog R) p :
  (forall state frame p,
     flows t (MkCall q TNil Unseen (CRun state frame q)) p (leave_flow state frame (trampoline (exec t q) p))) ->
  flows t (start q) p (with_sigbus_protection t (exec t q) p).
Proof.
  intros Hq. unfold with_sigbus_protection, mmap_guard_protected_call.
  rewrite !bind_eq. apply flows_by; [by intros []|]. cbn [start call_flow]. rewrite bind_eq.
  destruct (install_handler p) as [[] p1|]; [|done]. rewrite bind_eq.
  apply flows_by; [by intros []|]. cbn [call_flow]. rewrite bind_eq.
  destruct (get_or_init t p1) as [state p2|]; [|done]. rewrite bind_eq.
  apply flows_by; [by intros []|]. cbn [call_flow]. rewrite bind_eq.
  destruct (state_write state _ p2) as [[] p3|]; [|done]. rewrite !bind_eq. cbn [gets].
  apply flows_by; [by intros []|]. cbn [call_flow]. rewrite bind_eq. cbn [gets].
  rewrite !bind_eq. cbn [modify]. rewrite !bind_eq.
  destruct (state_write state _ _) as [[] p4|]; [|done]. cbv beta iota. rewrite bind_eq.
  set (frame := p_frames p3). specialize (Hq state frame p4).
  destruct (trampoline (exec t q) p4) as [[v|e] p5|why p5]; cbn [leave_flow] in Hq; [| |exact Hq].
  - unfold leave in Hq. rewrite bind_eq in Hq. rewrite !mret_eq. cbv beta iota. rewrite bind_eq.
    destruct (state_write state _ p5) as [[] p6|]; exact Hq.
  - revert Hq. decide_jump e frame; [|done]. intros Hq.
    unfold leave in Hq. rewrite bind_eq in Hq. rewrite !mret_eq. cbv beta iota. rewrite bind_eq.
    destruct (state_write state _ p5) as [[] p6|]; [|exact Hq]. cbv beta iota in Hq |- *.
    rewrite bind_eq in Hq. cbn [negb Z.eqb]. rewrite !bind_eq. destruct (state_read state p6); exact Hq.
Qed.

Lemma flows_run {R} t (q0 q : prog R) tr l state frame p :
  flows t (MkCall q0 tr l (CRun state frame q)) p (leave_flow state frame (trampoline (exec t q) p)).
Proof.
  revert q0 tr l state frame p.
  induction q as [R v|R a k IH|R a b k IH|R|R A q IHq k IHk]; intros q0 tr l state frame p.
  - apply flows_by; [by intros []|]. apply flows_leave.
  - apply flows_by; [by intros []|]. unfold trampoline. cbn [call_flow exec].
    rewrite !bind_eq. unfold zoom, call. cbn [lget lset os_lens].
    destruct (load (p_os p) a) as [k' [b|f|]]; [by apply IH| |done].
    cbv beta iota. rewrite bind_eq. pose proof (deliver_no_panic t f (set_os k' p)) as Hn.
    pose proof (flows_fault t q0 tr l state frame f (set_os k' p)) as Ha.
    destruct (deliver_sigbus _ _ _) as [e p'|why p']; [exact Ha|].
    destruct why; try exact Ha. by destruct (Hn p').
  - apply flows_by; [by intros []|]. unfold trampoline. cbn [call_flow exec].
    rewrite !bind_eq. unfold zoom, call. cbn [lget lset os_lens].
    destruct (store (p_os p) a b) as [k' [x|f|]]; [by apply IH| |done].
    cbv beta iota. rewrite bind_eq. pose proof (deliver_no_panic t f (set_os k' p)) as Hn.
    pose proof (flows_fault t q0 tr l state frame f (set_os k' p)) as Ha.
    destruct (deliver_sigbus _ _ _) as [e p'|why p']; [exact Ha|].
    destruct why; try exact Ha. by destruct (Hn p').
  - apply flows_by; [by intros []|]. done.
  - apply flows_by; [by intros []|]. cbn [call_flow]. rewrite mret_eq.
    eapply flows_inner; [apply flows_start; intros; apply IHq|]. unfold trampoline. cbn [exec]. rewrite bind_eq.
    destruct (with_sigbus_protection t (exec t q) p) as [[r|e] p'|why p']; [intros tr'; apply IHk|rewrite mret_eq|by destruct why].
    cbn [leave_flow]. decide_jump e frame; [apply flows_leave|done].
Qed.

(** A call whose steps no other thread interrupts does exactly what
    [with_sigbus_protection] does as a whole. *)
Lemma solo_answers {R} t (q : prog R) p : answers t (start q) p (protect t q p).
Proof.
  pose proof (flows_answers t (start q) p _ (flows_start t q p (flows_run t q q TNil Unseen))) as H.
  unfold protect. rewrite bind_eq. by destruct (with_sigbus_protection _ _ _) as [[r|e] p'|why p'].
Qed.

(** C19 (termination): a call whose steps no other thread interrupts returns
    after a bounded number of them, calls nested in its closure included, with
    what the specification [spec_exec] of a protected call says: the value of
    the closure, or the address of a fault that is caught, the kernel left where
    the accesses of the closure took it, the thread unprotected and the other
    threads' states and the registry as they were. Where the specification ends
    the process, the steps end it for the same reason. *)
Theorem solo_call {R} `{!AllocatorOk} `{!ProcEnvOk T} t (q : prog R) p :
  proc_ok p ->
  exists n,
    match spec_exec (covered p) q true (p_os p) with
    | SVal v _ k' => exists p', call_run n t (start q) p = Done (Some (Ok v)) p' /\ after_call t p k' p'
    | SCaught a k' => exists p', call_run n t (start q) p = Done (Some (Err a)) p' /\ after_call t p k' p'
    | SDead w k' => exists p', call_run n t (start q) p = Stop (abort_reason w) p' /\ p_os p' = k'
    end.
Proof.
  intros Hok. destruct (solo_answers t q p) as [n E]. exists n. rewrite E.
  pose proof (protect_ok t q p Hok) as Hs.
  destruct (spec_exec _ _ _ _); destruct Hs as (p' & -> & Hs); by exists p'.
Qed.
End Solo.
