(* ===== verification/Shared.v ===== *)
(** One mapping shared by threads (src/src/mmap/mod.rs, with everything
    below it): several threads call [read], [write], [read_into] and [probe] on
    one [SafeMmap] at once. Here the parts meet: the checks and the counting
    run on the relaxed atomics of [PoisonRace.v], the accesses are the
    protected calls of [Threads.v], whose handlers scan the registry of
    [RegistryRcu.v] while other threads open and drop other mappings.

    A method is a [plan]: what it does after [check_poisoned], as a tree of the
    steps that other threads can see. [plan_is_method] shows that the plans are
    the methods of [SafeMmap.v]; [shared_mapping] is what holds of all of them
    under any interleaving. *)

From stdpp Require Import prelude gmap strings.
From Stdlib Require Import ZArith Lia.
From S2P Require Import Prelude Errors Env SysMmap Registry RegistryRcu Signal Probe SafeMmap Typing PoisonRace Threads.

(** * Methods as plans *)

(** The steps of a method after its check. A call that faults goes on with
    [PlanRecord]. *)
Inductive plan (V : Type) : Type :=
  | PlanRet (r : result (option V) AccessError)
  | PlanStop (why : stop_reason)
  | PlanInstall (k : plan V)                            (* install_handler *)
  | PlanCall {A : Type} (q : prog A) (k : A -> plan V)  (* with_sigbus_protection *)
  | PlanRecord (e : AccessError).                       (* record_sigbus_from, then Err *)
Arguments PlanRet {V}.
Arguments PlanStop {V}.
Arguments PlanInstall {V}.
Arguments PlanCall {V A}.
Arguments PlanRecord {V}.

(** [read] returns the closure's value, the other methods a unit ([None]). *)
Inductive op (V : Type) : Type :=
  | ORead (rs re : Z) (f : Z -> Z -> prog V)
  | OWrite (offset data_ptr data_len : Z)
  | OReadInto (offset buf_ptr buf_len : Z)
  | OProbe (offset len : Z).
Arguments ORead {V}.
Arguments OWrite {V}.
Arguments OReadInto {V}.
Arguments OProbe {V}.

Section Plans.
Context `{PR : Profile} `{LC : Libc} `{SC : Sysconf} {C V : Type}.
Implicit Types self : SafeMmap C.

(** Arithmetic that may panic. *)
Definition pure_step (x : M unit Z) (k : Z -> plan V) : plan V :=
  match x tt with Done v _ => k v | Stop why _ => PlanStop why end.

(** [guard.read]. *)
Definition guard_plan {A} (r : RawMmap) (offset len : Z) (f : Z -> Z -> prog A)
    (fail : AccessError -> plan V) (k : A -> plan V) : plan V :=
  if range_exceeds offset len (raw_len r) then fail (OutOfBounds offset len (raw_len r))
  else PlanCall (f (RawMmap_as_ptr r + offset) len) k.

Definition read_plan self (rs re : Z) (f : Z -> Z -> prog V) : plan V :=
  PlanInstall (pure_step (usub re rs) (fun len =>
    guard_plan (raw self) rs len f (fun e => PlanRet (Err e)) (fun v => PlanRet (Ok (Some v))))).

Definition write_plan self (offset data_ptr data_len : Z) : plan V :=
  match check_bounds self offset data_len with
  | Err e => PlanRet (Err e)
  | Ok _ =>
      match RawMmap_as_mut_ptr (raw self) with
      | None => PlanRet (Err (Io (NewError PermissionDenied "mapping is read-only")))
      | Some dst =>
          PlanCall (copy_nonoverlapping data_ptr (dst + offset) (Z.to_nat data_len))
            (fun _ => PlanRet (Ok None))
      end
  end.

Definition read_into_plan self (offset buf_ptr buf_len : Z) : plan V :=
  match check_bounds self offset buf_len with
  | Err e => PlanRet (Err e)
  | Ok _ =>
      PlanCall (copy_nonoverlapping (RawMmap_as_ptr (raw self) + offset) buf_ptr (Z.to_nat buf_len))
        (fun _ => PlanRet (Ok None))
  end.

Fixpoint probe_steps (fuel : nat) (r : RawMmap) (offset len page pos : Z) : plan V :=
  match fuel with
  | O => PlanStop StopDiverge
  | S fuel =>
      pure_step (uadd offset len) (fun e =>
        if pos <? e then
          guard_plan r pos 1 index0 PlanRecord (fun _ =>
            pure_step (uadd pos page) (probe_steps fuel r offset len page))
        else PlanRet (Ok None))
  end.

Definition probe_plan self (offset len : Z) : plan V :=
  match check_bounds self offset len with
  | Err e => PlanRet (Err e)
  | Ok _ =>
      PlanInstall (pure_step page_size (fun page =>
        probe_steps (S (Z.to_nat len)) (raw self) offset len page offset))
  end.

Definition plan_of self (o : op V) : plan V :=
  match o with
  | ORead rs re f => read_plan self rs re f
  | OWrite offset ptr len => write_plan self offset ptr len
  | OReadInto offset ptr len => read_into_plan self offset ptr len
  | OProbe offset len => probe_plan self offset len
  end.
End Plans.

(** ** The plans are the methods *)

Section Sequential.
Context `{PR : Profile} `{LC : Libc} `{SC : Sysconf} `{AL : Allocator}.
Context {K T C V : Type} `{VMK : !VM K} `{PE : !ProcEnv T}.
Local Abbreviation MM := (M (menv K T C)).
Implicit Types (self : SafeMmap C) (m : menv K T C).

(** A plan run by one thread alone. *)
Fixpoint run_plan (t : tid) (pl : plan V) : MM (result (option V) AccessError) :=
  match pl with
  | PlanRet r => mret r
  | PlanStop why => stop why
  | PlanInstall k => _ ← on_proc install_handler; run_plan t k
  | PlanCall q k =>
      r ← on_proc (protect t q);
      match r with
      | Ok v => run_plan t (k v)
      | Err a => _ ← record_sigbus_from (Sigbus a); mret (Err (Sigbus a))
      end
  | PlanRecord e => _ ← record_sigbus_from e; mret (Err e)
  end.

Definition run_method (t : tid) (o : op V) : MM (result (option V) AccessError) :=
  _ ←? check_poisoned;
  self ← self_get (fun s => s);
  run_plan t (plan_of self o).

Definition answer_with {A B} (f : A -> B) (r : result A AccessError) : result B AccessError :=
  match r with Ok v => Ok (f v) | Err e => Err e end.

(** The method itself. *)
Definition method_of (t : tid) (o : op V) : MM (result (option V) AccessError) :=
  match o with
  | ORead rs re f => r ← SafeMmap_read t rs re f; mret (answer_with Some r)
  | OWrite offset ptr len =>
      r ← SafeMmap_write t offset ptr len; mret (answer_with (fun _ => None) r)
  | OReadInto offset ptr len =>
      r ← SafeMmap_read_into t offset ptr len; mret (answer_with (fun _ => None) r)
  | OProbe offset len =>
      r ← SafeMmap_probe t offset len; mret (answer_with (fun _ => None) r)
  end.

Lemma pure_step_run {A} (x : forall S, M S Z) (k : Z -> plan V) (h : Z -> MM A)
    (g : A -> MM (result (option V) AccessError)) t m :
  (match x unit tt with
   | Done v _ => x (menv K T C) m = Done v m
   | Stop why _ => x (menv K T C) m = Stop why m
   end) ->
  (forall v m, run_plan t (k v) m =
     match h v m with Done r m' => g r m' | Stop w m' => Stop w m' end) ->
  run_plan t (pure_step (x unit) k) m =
    match (v ← x (menv K T C); h v) m with Done r m' => g r m' | Stop w m' => Stop w m' end.
Proof.
  intros Hx Hk. unfold pure_step. rewrite !bind_eq. by destruct (x unit tt) as [v []|why []]; rewrite Hx.
Qed.

Lemma probe_steps_run fuel t self offset len page pos m :
  run_plan t (probe_steps fuel (raw self) offset len page pos) m =
  (r ← probe_loop fuel t {| guard_raw := raw self |} offset len page pos;
   mret (answer_with (fun _ => None) r)) m.
Proof.
  revert pos m. induction fuel as [|fuel IH]; intros pos m; [done|]. cbn [probe_steps probe_loop].
  apply (pure_step_run (fun S => uadd offset len)).
  { unfold uadd. by destruct (_ && _). }
  intros e m1. destruct (pos <? e); [|done]. unfold guard_plan, ReadGuard_read. rewrite !bind_eq.
  rewrite on_proc_eq. cbn [guard_raw]. destruct (range_exceeds _ _ _).
  { cbn [run_plan]. rewrite mret_eq. destruct m1 as [p1 s1 u1]. cbn [m_self m_user].
    rewrite !bind_eq. by destruct (record_sigbus_from _ _). }
  cbn [run_plan]. rewrite bind_eq, on_proc_eq. rewrite bind_eq.
  destruct (protect t _ _) as [[v|a] p'|w p']; [| |done].
  - apply (pure_step_run (fun S => uadd pos page)); [|done]. unfold uadd. by destruct (_ && _).
  - rewrite mret_eq. cbv beta iota. rewrite !bind_eq. by destruct (record_sigbus_from _ _).
Qed.

(** the plan of a method, run by one thread with the check before it, is
    the method as [SafeMmap.v] translates it, from every state and in both
    build profiles: the tree of visible steps leaves nothing out. *)
Theorem plan_is_method t (o : op V) m : run_method t o m = method_of t o m.
Proof.
  unfold run_method, method_of. rewrite try_bind_eq, check_poisoned_eq.
  destruct o as [rs re f|offset ptr len|offset ptr len|offset len]; cbn [plan_of];
    rewrite !bind_eq; unfold SafeMmap_read, SafeMmap_write, SafeMmap_read_into, SafeMmap_probe;
    rewrite try_bind_eq, check_poisoned_eq; destruct (poisoned (m_self m)); try done;
    rewrite ?bind_eq; cbn [self_get gets]; destruct m as [p self u]; cbn [m_self].
  - unfold read_plan. cbn [run_plan]. rewrite bind_eq, on_proc_eq.
    unfold SafeMmap_guard. rewrite !bind_eq. cbn [self_get gets]. rewrite on_proc_eq.
    unfold ReadGuard_new. rewrite bind_eq. cbn [m_proc m_self m_user].
    destruct (install_handler p) as [[] p1|w1 p1]; [|done].
    rewrite mret_eq. cbv beta iota. apply (pure_step_run (fun S => usub re rs)).
    { unfold usub. by destruct (_ && _). }
    intros len [p2 self2 u2]. unfold guard_plan, ReadGuard_read. rewrite bind_eq, on_proc_eq.
    cbn [guard_raw m_proc]. destruct (range_exceeds _ _ _); [done|]. cbn [run_plan].
    rewrite !bind_eq, on_proc_eq. cbn [m_proc m_self m_user].
    destruct (protect t _ p2) as [[v|a] p3|w3 p3]; [done| |done].
    rewrite mret_eq. cbv beta iota. rewrite !bind_eq. by destruct (record_sigbus_from _ _).
  - unfold write_plan. rewrite try_bind_eq. cbn [self_get gets m_self].
    destruct (check_bounds self offset len) as [[]|e]; [|done].
    rewrite try_bind_eq. cbn [self_get gets m_self].
    destruct (RawMmap_as_mut_ptr (raw self)) as [dst|]; [|done]. cbn [run_plan].
    rewrite !bind_eq, on_proc_eq. cbn [m_proc m_self m_user].
    destruct (protect t _ p) as [[v|a] p3|w3 p3]; [done| |done].
    unfold finish_copy. rewrite !bind_eq. by destruct (record_sigbus_from _ _).
  - unfold read_into_plan. rewrite try_bind_eq. cbn [self_get gets m_self].
    destruct (check_bounds self offset len) as [[]|e]; [|done].
    rewrite bind_eq. cbn [self_get gets m_self run_plan].
    rewrite !bind_eq, on_proc_eq. cbn [m_proc m_self m_user].
    destruct (protect t _ p) as [[v|a] p3|w3 p3]; [done| |done].
    unfold finish_copy. rewrite !bind_eq. by destruct (record_sigbus_from _ _).
  - unfold probe_plan. rewrite try_bind_eq. cbn [self_get gets m_self].
    destruct (check_bounds self offset len) as [[]|e]; [|done].
    cbn [run_plan]. rewrite bind_eq, on_proc_eq.
    unfold SafeMmap_guard. rewrite !bind_eq. cbn [self_get gets]. rewrite on_proc_eq.
    unfold ReadGuard_new. rewrite bind_eq. cbn [m_proc m_self m_user].
    destruct (install_handler p) as [[] p1|w1 p1]; [|done].
    rewrite mret_eq. cbv beta iota. apply (pure_step_run (fun S => page_size)).
    { unfold page_size. by destruct (0 <? _). }
    intros page m1. etransitivity; [apply probe_steps_run|]. by rewrite bind_eq.
Qed.
End Sequential.

(** * The threads *)

(** Where a thread is in its operation. *)
Inductive stage (V : Type) : Type :=
  | AtIdle                                                (* between operations *)
  | AtCheck                                               (* in check_poisoned *)
  | AtPlan (pl : plan V)
  | AtCall {A : Type} (c : pcall A) (k : A -> plan V)     (* in with_sigbus_protection *)
  | AtRecord (e : AccessError).                           (* in record_sigbus_from *)
Arguments AtIdle {V}.
Arguments AtCheck {V}.
Arguments AtPlan {V}.
Arguments AtCall {V A}.
Arguments AtRecord {V}.

(** [wk_ops] are the operations still to do, the current one included;
    [wk_done] those that returned, with their results, the newest first.
    [wk_atom] is the thread on the relaxed atomics. *)
Record worker (V : Type) := MkWorker {
  wk_atom : thread;
  wk_stage : stage V;
  wk_ops : list (op V);
  wk_done : list (op V * result (option V) AccessError);
}.
Arguments MkWorker {V}.
Arguments wk_atom {V}.
Arguments wk_stage {V}.
Arguments wk_ops {V}.
Arguments wk_done {V}.

Record team (K T V : Type) := MkTeam {
  sw_proc : proc K T;
  sw_phase : option mutation;      (* the mutation that holds the mutex *)
  sw_mem : atomics;
  sw_workers : list (worker V);
}.
Arguments MkTeam {K T V}.
Arguments sw_proc {K T V}.
Arguments sw_phase {K T V}.
Arguments sw_mem {K T V}.
Arguments sw_workers {K T V}.

Inductive team_event (K : Type) :=
  | XStep (i : nat) (slot : Z)     (* thread i steps *)
  | XExit (i : nat)                (* thread i ends, between operations *)
  | XBegin (x : mutation)          (* another mapping is opened or dropped *)
  | XFinish
  | XOs (k : K).                   (* another process changes a file *)
Arguments XStep {K}.
Arguments XExit {K}.
Arguments XBegin {K}.
Arguments XFinish {K}.
Arguments XOs {K}.

Section Machine.
Context `{PR : Profile} `{LC : Libc} `{SC : Sysconf} `{AL : Allocator}.
Context {K T C V : Type} `{VMK : !VM K} `{PE : !ProcEnv T}.
Context (self : SafeMmap C).
Implicit Types (s : team K T V) (w : worker V) (p : proc K T).

(** The thread goes on at [st]; it returns [r]. *)
Definition stage_at (st : stage V) (th : thread) w : worker V :=
  MkWorker th st (wk_ops w) (wk_done w).
Definition return_with (r : result (option V) AccessError) (th : thread) w : worker V :=
  match wk_ops w with
  | [] => w
  | o :: rest => MkWorker th AtIdle rest ((o, r) :: wk_done w)
  end.

(** The thread enters an atomic method. *)
Definition enter (p : pc) (th : thread) : thread :=
  MkThread (th_view th) p (th_todo th) (th_said th).

(** One step of the thread [t], at the slot [slot] if it is on the atomics;
    [None] if it cannot step (there). [busy] says that a mutation is in
    progress. *)
Definition work (t : tid) (busy : bool) (slot : Z) (m : atomics) w : option (M (proc K T) (atomics * worker V)) :=
  let th := wk_atom w in
  match wk_stage w with
  | AtIdle =>
      match wk_ops w with
      | [] => None
      | _ => Some (mret (m, stage_at AtCheck (enter CheckFlag th) w))
      end
  | AtCheck =>
      '(m, th) ← task_step (max_sigbus self) slot m th;
      match th_pc th, th_said th, wk_ops w with
      | Fin, Passed :: _, o :: _ => Some (mret (m, stage_at (AtPlan (plan_of self o)) th w))
      | Fin, Refused c :: _, _ => Some (mret (m, return_with (Err (Poisoned c)) th w))
      | _, _, _ => Some (mret (m, stage_at AtCheck th w))
      end
  | AtPlan (PlanRet r) => Some (mret (m, return_with r th w))
  | AtPlan (PlanStop why) => Some (stop why)
  | AtPlan (PlanInstall k) => Some (_ ← install_handler; mret (m, stage_at (AtPlan k) th w))
  | AtPlan (PlanCall q k) =>
      Some (mret (m, stage_at (AtCall (start q) k) th w))
  | AtPlan (PlanRecord e) =>
      Some (mret (m, stage_at (AtRecord e) (enter (RecAdd (fault_address_of e)) th) w))
  | AtCall c k =>
      match c_pc c with
      | CDone (Ok v) => Some (mret (m, stage_at (AtPlan (k v)) th w))
      | CDone (Err a) => Some (mret (m, stage_at (AtPlan (PlanRecord (Sigbus a))) th w))
      | _ => Some (c ← call_step t (if busy then 1%nat else 0%nat) c; mret (m, stage_at (AtCall c k) th w))
      end
  | AtRecord e =>
      '(m, th) ← task_step (max_sigbus self) slot m th;
      match th_pc th with
      | Fin => Some (mret (m, return_with (Err e) th w))
      | Panicked => Some panic
      | _ => Some (mret (m, stage_at (AtRecord e) th w))
      end
  end.

(** A handler between its load and its scan has overlapped one more
    mutation. *)
Definition age_worker w : worker V :=
  match wk_stage w with
  | AtCall c k => stage_at (AtCall (age_call c) k) (wk_atom w) w
  | _ => w
  end.

Definition team_lens : lens (team K T V) (proc K T) :=
  Lens sw_proc (fun p s => MkTeam p (sw_phase s) (sw_mem s) (sw_workers s)).

Definition tid_of (i : nat) : tid := Z.of_nat i.

(** One event; [None] if it cannot happen. *)
Definition happen (x : team_event K) s : option (outcome (team K T V) unit) :=
  match x with
  | XStep i slot =>
      w ← sw_workers s !! i;
      step ← work (tid_of i) (bool_decide (is_Some (sw_phase s))) slot (sw_mem s) w;
      Some ((r ← zoom team_lens step;
             modify (fun s => MkTeam (sw_proc s) (sw_phase s) r.1 (<[i := r.2]> (sw_workers s)))) s)
  | XExit i =>
      w ← sw_workers s !! i;
      match wk_stage w with
      | AtIdle => Some (zoom team_lens (thread_exit (tid_of i)) s)
      | _ => None
      end
  | XBegin y =>
      if bool_decide (sw_phase s = None /\ mutation_fits y) then
        Some ((_ ← zoom team_lens (zoom registry_lens rotate_retired);
               modify (fun s => MkTeam (sw_proc s) (Some y) (sw_mem s) (age_worker <$> sw_workers s))) s)
      else None
  | XFinish =>
      y ← sw_phase s;
      Some ((_ ← zoom team_lens (zoom registry_lens (mutation_body y));
             modify (fun s => MkTeam (sw_proc s) None (sw_mem s) (sw_workers s))) s)
  | XOs k => Some (zoom team_lens (modify (set_os k)) s)
  end.

(** The threads about to do these operations, on a mapping with this count and
    flag. *)
Definition crew (p : proc K T) (count : Z) (b : bool) (todos : list (list (op V))) : team K T V :=
  MkTeam p None (MkAtomics {[0 := count]} {[0 := Z.b2z b]} [])
    ((fun ops => MkWorker (MkThread (MkView 0 0) Fin [] []) AtIdle ops []) <$> todos).

Fixpoint happens (xs : list (team_event K)) s : option (outcome (team K T V) unit) :=
  match xs with
  | [] => Some (Done tt s)
  | x :: xs =>
      match happen x s with
      | Some (Done _ s') => happens xs s'
      | o => o
      end
  end.

(** Every thread has done its operations. *)
Definition all_done s : Prop :=
  Forall (fun w => (match wk_stage w with AtIdle => True | _ => False end) /\ wk_ops w = []) (sw_workers s).
End Machine.

(** * What the operations may answer *)

Section Typed.
Context `{PR : Profile} `{LC : Libc} `{SC : Sysconf} `{SCok : !SysconfOk}.
Context {C V : Type}.
Context (self : SafeMmap C) (n : nat) (c0 : Z) (b0 : bool).
Context (self_wf : RawMmap_wf (raw self)).
Implicit Types o : op V.

(** The operation, as [Typing.v] has it. *)
Definition as_checked o : checked_op :=
  match o with
  | ORead rs re f => OpRead rs re f
  | OWrite offset ptr len => OpWrite offset ptr len
  | OReadInto offset ptr len => OpReadInto offset ptr len
  | OProbe offset len => OpProbe offset len
  end.

Definition area o (a : Z) : Prop := op_loads self (as_checked o) a \/ op_stores self (as_checked o) a.

(** The arguments are machine integers, and the closure of a [read] keeps to
    its slice, in protected calls of its own too. *)
Definition op_good o : Prop :=
  op_fits (as_checked o) /\
  match o with
  | ORead rs re f => prog_typed (area o) (area o) (f (raw_ptr (raw self) + rs) (re - rs))
  | _ => True
  end.

(** The value comes from the closure of the operation, run on its slice. *)
Definition value_ok o (v : option V) : Prop :=
  match o, v with
  | ORead rs re f, Some v =>
      exists heard, resume (f (raw_ptr (raw self) + rs) (re - rs)) heard = Some (PRet v)
  | ORead _ _ _, None | _, Some _ => False
  | _, None => True
  end.

Definition reply_ok o (r : result (option V) AccessError) : Prop :=
  match r with
  | Ok v => result_typed self (as_checked o) (Ok tt) /\ value_ok o v
  | Err (Poisoned c) =>
      c0 <= c <= c0 + Z.of_nat n /\ (b0 = true \/ (0 < n)%nat /\ max_sigbus self <= c0 + Z.of_nat n)
  | Err e => result_typed self (as_checked o) (Err e)
  end.

(** A plan ends with such a reply whatever its calls answer. *)
Fixpoint plan_ok o (pl : plan V) : Prop :=
  match pl with
  | PlanRet r => reply_ok o r /\ is_fault (discard r) = false
  | PlanStop _ => False
  | PlanInstall k => plan_ok o k
  | PlanCall q k =>
      prog_typed (area o) (area o) q /\
      forall heard v, resume q heard = Some (PRet v) -> plan_ok o (k v)
  | PlanRecord e => exists a, e = Sigbus a /\ area o a
  end.

Lemma read_plan_ok rs re f : op_good (ORead rs re f) -> plan_ok (ORead rs re f) (read_plan self rs re f).
Proof.
  intros [[Hr Hu] Hf]. pose proof (RawMmap_wf_usize _ self_wf) as Hlen.
  unfold read_plan, pure_step. cbn [plan_ok]. rewrite usub_ok by (unfold is_usize in *; lia).
  unfold guard_plan. rewrite range_exceeds_spec by done. replace (rs + (re - rs)) with re by lia.
  destruct (Z.ltb_spec (raw_len (raw self)) re); cbn [plan_ok reply_ok].
  - cbn. split_and!; done || lia.
  - split; [exact Hf|]. intros heard v Hv. split; [|done]. split; [cbn; split; [lia|done]|]. by exists heard.
Qed.

Lemma write_plan_ok offset ptr len :
  op_good (OWrite offset ptr len) -> plan_ok (OWrite offset ptr len) (write_plan self offset ptr len).
Proof.
  intros [[Hou [Hl Hlu]] _]. pose proof (RawMmap_wf_usize _ self_wf) as Hlen.
  unfold write_plan. rewrite check_bounds_eq by done.
  destruct (Z.ltb_spec (raw_len (raw self)) (offset + len)).
  { cbn. split_and!; done || lia. }
  unfold RawMmap_as_mut_ptr. destruct (raw_writable (raw self)) eqn:Ew; cbn [plan_ok]; [|by cbn].
  split; [|by cbn]. apply copy_typed; rewrite Z2Nat.id by done; intros a Ha.
  - by left.
  - right. cbn. split; [done|]. unfold in_mapping. lia.
Qed.

Lemma read_into_plan_ok offset ptr len :
  op_good (OReadInto offset ptr len) ->
  plan_ok (OReadInto offset ptr len) (read_into_plan self offset ptr len).
Proof.
  intros [[Hou [Hl Hlu]] _]. pose proof (RawMmap_wf_usize _ self_wf) as Hlen.
  unfold read_into_plan. rewrite check_bounds_eq by done.
  destruct (Z.ltb_spec (raw_len (raw self)) (offset + len)).
  { cbn. split_and!; done || lia. }
  split; [|by cbn]. apply copy_typed; rewrite Z2Nat.id by done; intros a Ha.
  - left. cbn. unfold in_mapping, RawMmap_as_ptr in *. lia.
  - by right.
Qed.

Lemma probe_steps_ok fuel offset len pos :
  0 <= offset -> 0 <= len -> offset <= pos -> offset + len <= raw_len (raw self) ->
  (probe_count sysconf_pagesize (offset + len - pos) < fuel)%nat ->
  plan_ok (OProbe offset len) (probe_steps fuel (raw self) offset len sysconf_pagesize pos).
Proof.
  intros Ho Hl Hpos Hle Hfuel.
  pose proof page_pos as Hpage. pose proof page_small as Hsmall.
  pose proof (RawMmap_wf_len _ self_wf) as Hlen. pose proof (RawMmap_wf_usize _ self_wf) as Hlu.
  assert (Hbig : isize_max + 2 ^ 62 < usize_modulus) by reflexivity.
  revert pos Hpos Hfuel. induction fuel as [|fuel IH]; intros pos Hpos Hfuel; [lia|].
  cbn [probe_steps]. unfold pure_step. rewrite uadd_ok by lia.
  destruct (Z.ltb_spec pos (offset + len)) as [Hlt|Hge]; [|cbn; split_and!; done || lia].
  unfold guard_plan. rewrite range_exceeds_spec by done.
  destruct (Z.ltb_spec (raw_len (raw self)) (pos + 1)); [lia|]. split.
  - cbn. split; [|done]. left. cbn. unfold in_mapping, RawMmap_as_ptr. lia.
  - intros heard v _. rewrite uadd_ok by lia. apply IH; [lia|].
    rewrite (probe_count_step sysconf_pagesize) in Hfuel by lia.
    replace (offset + len - (pos + sysconf_pagesize))
      with (offset + len - pos - sysconf_pagesize) by lia. lia.
Qed.

Lemma plan_of_ok o : op_good o -> plan_ok o (plan_of self o).
Proof.
  intros Hgood. destruct o as [rs re f|offset ptr len|offset ptr len|offset len]; cbn [plan_of].
  - by apply read_plan_ok.
  - by apply write_plan_ok.
  - by apply read_into_plan_ok.
  - destruct Hgood as [[[Ho _] [Hl _]] _]. pose proof (RawMmap_wf_usize _ self_wf) as Hlen.
    unfold probe_plan. rewrite check_bounds_eq by done.
    destruct (Z.ltb_spec (raw_len (raw self)) (offset + len)).
    { cbn. split_and!; done || lia. }
    cbn [plan_ok]. unfold pure_step. rewrite page_size_ok. apply probe_steps_ok; try lia.
    replace (offset + len - offset) with len by lia.
    pose proof (probe_count_fuel sysconf_pagesize (proj1 page_pos) len Hl). lia.
Qed.

End Typed.

(** * The invariant *)

(** What one atomic step does to the place of a thread, without resets. *)
Lemma task_step_pc `{PR : Profile} max slot m th m' th' :
  task_step max slot m th = Some (m', th') -> th_todo th = [] ->
  th_todo th' = [] /\
  match th_pc th with
  | CheckFlag => th_pc th' = CheckCount \/ (th_pc th' = Fin /\ th_said th' = Passed :: th_said th)
  | CheckCount => th_pc th' = Fin /\ exists c, th_said th' = Refused c :: th_said th
  | RecAdd f => (exists c, th_pc th' = RecEvent f c) \/ th_pc th' = Panicked
  | RecEvent _ _ => (exists c, th_pc th' = RecStore c) \/ th_pc th' = Fin
  | RecStore _ => exists c, th_pc th' = RecPoisoned c
  | RecPoisoned _ => th_pc th' = Fin
  | Fin | Panicked => False
  | _ => True
  end.
Proof.
  intros H Htd. unfold task_step in H. rewrite Htd in H. destruct (th_pc th) eqn:E; cbn in H; try done.
  - apply bind_Some in H as ([[v m1] w] & _ & H).
    destruct (u32add v 1 tt); injection H as <- <-; (split; [done|]); [left; by eexists|by right].
  - destruct (_ <=? _); injection H as <- <-; (split; [done|]); [left; by eexists|by right].
  - apply bind_Some in H as ([m1 w] & _ & [= <- <-]). split; [done|]. by eexists.
  - by injection H as <- <-.
  - apply bind_Some in H as ([m1 w] & _ & [= <- <-]). by split.
  - apply bind_Some in H as ([m1 w] & _ & [= <- <-]). by split.
  - apply bind_Some in H as ([v w] & _ & H).
    destruct (negb _); injection H as <- <-; (split; [done|]); [by left|by right].
  - apply bind_Some in H as ([v w] & _ & [= <- <-]). split; [done|]. split; [done|]. by eexists.
  - apply bind_Some in H as ([v w] & _ & [= <- <-]). by split.
  - apply bind_Some in H as ([v w] & _ & [= <- <-]). by split.
Qed.

Section Invariant.
Context `{PR : Profile} `{LC : Libc} `{SC : Sysconf} `{SCok : !SysconfOk}.
Context `{AL : Allocator} `{ALok : !AllocatorOk}.
Context {K T C V : Type} `{VMK : !VM K} `{PE : !ProcEnv T} `{PEok : !ProcEnvOk T} `{FL : !FaultLaws K}.
Context (self : SafeMmap C) (n : nat) (c0 : Z) (b0 : bool).
Context (self_wf : RawMmap_wf (raw self)).
Context (c0_pos : 0 <= c0) (c0_small : c0 + Z.of_nat n < u32_modulus).
Implicit Types (s : team K T V) (w : worker V) (p : proc K T) (o : op V).

Local Abbreviation max := (max_sigbus self).

(** The faults of the operations that returned, and those counted. *)
Definition faulted w : nat :=
  length (filter (fun x => is_fault (discard x.2) = true) (wk_done w)).
Definition counted_now w : nat :=
  match wk_stage w with
  | AtRecord _ => match th_pc (wk_atom w) with RecAdd _ => 0%nat | _ => 1%nat end
  | _ => 0%nat
  end.
Definition made w : nat := (faulted w + counted_now w)%nat.
(** The faults the thread can come to. *)
Definition allowed w : nat := (faulted w + length (wk_ops w))%nat.

Definition stage_ok p (busy : bool) (t : tid) w : Prop :=
  let pc := th_pc (wk_atom w) in
  match wk_stage w with
  | AtIdle => disarmed p t /\ pc = Fin
  | AtCheck => disarmed p t /\ wk_ops w <> [] /\ (pc = CheckFlag \/ pc = CheckCount)
  | AtPlan pl =>
      disarmed p t /\ pc = Fin /\
      exists o rest, wk_ops w = o :: rest /\ plan_ok self n c0 b0 o pl
  | AtCall c k =>
      pc = Fin /\ call_ok p busy t c /\
      exists o rest, wk_ops w = o :: rest /\ plan_ok self n c0 b0 o (PlanCall (c_prog c) k)
  | AtRecord e =>
      disarmed p t /\
      match pc with RecAdd _ | RecEvent _ _ | RecStore _ | RecPoisoned _ => True | _ => False end /\
      exists o rest, wk_ops w = o :: rest /\ plan_ok self n c0 b0 o (PlanRecord e)
  end.

Record worker_ok p (busy : bool) (t : tid) (k : Z) (m : atomics) w : Prop := {
  wo_atom : thread_ok max c0 b0 k m (wk_atom w);
  wo_todo : th_todo (wk_atom w) = [];
  wo_ops : Forall (op_good self) (wk_ops w);
  wo_done : Forall (fun x => reply_ok self n c0 b0 x.1 x.2) (wk_done w);
  wo_stage : stage_ok p busy t w;
}.

Record team_ok s (k : Z) : Prop := {
  wd_proc : proc_ok (sw_proc s);
  wd_busy : is_Some (sw_phase s) -> current (tracker (p_registry (sw_proc s))) = [];
  wd_fits : forall x, sw_phase s = Some x -> mutation_fits x;
  wd_mem : mem_ok max c0 b0 k (sw_mem s);
  wd_workers : forall i w, sw_workers s !! i = Some w ->
    worker_ok (sw_proc s) (bool_decide (is_Some (sw_phase s))) (tid_of i) k (sw_mem s) w;
  wd_made : k = Z.of_nat (sum_list_with made (sw_workers s));
  wd_allowed : (sum_list_with allowed (sw_workers s) <= n)%nat;
  wd_pending : 0 < k -> max <= c0 + k ->
    raised (sw_mem s) \/ Exists (fun w => pending max (wk_atom w)) (sw_workers s);
}.

(** ** What the other threads do *)

Lemma worker_ok_other t t' p p' busy k k' m m' w :
  step_frame t p p' -> t' <> t -> k <= k' ->
  (forall slot, is_Some (at_flag m !! slot) -> is_Some (at_flag m' !! slot)) ->
  worker_ok p busy t' k m w -> worker_ok p' busy t' k' m' w.
Proof.
  intros Hf Hne Hk Hm [Ha Htd Ho Hd Hs]. split; [by eapply thread_ok_mono|done..|].
  assert (Hdis : disarmed p t' -> disarmed p' t').
  { apply disarmed_frame. by apply Hf. }
  unfold stage_ok in *. destruct (wk_stage w) as [| |pl|A c kk|e]; try naive_solver.
  destruct Hs as (? & Hc & ?). split_and!; [done| |done]. by eapply call_ok_other.
Qed.

(** ** What a thread does *)

(** How a step of a thread may stop: the step of its call ends the process. *)
Definition worker_stops p w (why : stop_reason) : Prop :=
  match wk_stage w with AtCall c _ => call_dies p c why | _ => False end.

Definition worker_outcome (busy : bool) (t : tid) (k : Z) (m : atomics) p w
    (out : outcome (proc K T) (atomics * worker V)) : Prop :=
  match out with
  | Done (m', w') p' =>
      exists k', mem_ok max c0 b0 k' m' /\ proc_ok p' /\ step_frame t p p' /\
        worker_ok p' busy t k' m' w' /\
        k' + Z.of_nat (made w) = k + Z.of_nat (made w') /\
        (allowed w' <= allowed w)%nat /\ k <= k' /\
        (forall slot, is_Some (at_flag m !! slot) -> is_Some (at_flag m' !! slot)) /\
        ((k' = k /\ (pending max (wk_atom w) -> pending max (wk_atom w') \/ raised m')) \/
         (max <= c0 + k' -> pending max (wk_atom w')))
  | Stop why _ => worker_stops p w why
  end.

(** A step that does not touch the atomics. *)
Lemma local_outcome busy t k m p p' w st th :
  mem_ok max c0 b0 k m -> worker_ok p busy t k m w -> th = wk_atom w \/ (exists q, th = enter q (wk_atom w) /\
    match q with CheckFlag | RecAdd _ => True | _ => False end) ->
  th_pc (wk_atom w) = Fin -> proc_ok p' -> step_frame t p p' ->
  stage_ok p' busy t (stage_at st th w) -> counted_now w = counted_now (stage_at st th w) ->
  worker_outcome busy t k m p w (Done (m, stage_at st th w) p').
Proof.
  intros Hm [Ha Htd Ho Hd Hs] Hth Hpc Hp' Hfr Hst Hcn. exists k.
  assert (Hth' : thread_ok max c0 b0 k m th /\ th_todo th = [] ).
  { destruct Hth as [->|(q & -> & Hq)]; [done|]. split; [|done].
    destruct Ha as [? ? ? ? ? ? ?]. split; cbn; [done|done|done|by destruct q|done|by destruct q|done]. }
  destruct Hth' as [Hth1 Hth2].
  split; [done|]. split; [done|]. split; [done|]. split; [by split|].
  unfold made, allowed. rewrite Hcn. split; [done|]. split; [done|]. split; [lia|]. split; [done|].
  left. split; [done|]. unfold pending at 1. by rewrite Hpc.
Qed.

(** A step on the atomics after which the operation goes on. *)
Lemma atomic_outcome busy t k k' m m' p w st th' :
  proc_ok p -> worker_ok p busy t k m w -> mem_ok max c0 b0 k' m' -> thread_ok max c0 b0 k' m' th' ->
  th_todo th' = [] -> stage_ok p busy t (stage_at st th' w) ->
  k' + Z.of_nat (counted_now w) = k + Z.of_nat (counted_now (stage_at st th' w)) -> k <= k' ->
  (forall slot, is_Some (at_flag m !! slot) -> is_Some (at_flag m' !! slot)) ->
  ((k' = k /\ (pending max (wk_atom w) -> pending max th' \/ raised m')) \/
   (max <= c0 + k' -> pending max th')) ->
  worker_outcome busy t k m p w (Done (m', stage_at st th' w) p).
Proof.
  intros Hp [_ _ Ho Hd _] Hm Hth Htd Hst Hc Hk Hfl Hpe. exists k'.
  split; [done|]. split; [done|]. split; [apply step_frame_refl|]. split; [by split|].
  split; [unfold made; change (faulted (stage_at st th' w)) with (faulted w); lia|]. by split_and!.
Qed.

(** A step after which the operation has returned. *)
Lemma return_outcome busy t k m m' p w r th' o rest :
  proc_ok p -> worker_ok p busy t k m w -> mem_ok max c0 b0 k m' -> thread_ok max c0 b0 k m' th' ->
  th_todo th' = [] -> th_pc th' = Fin -> disarmed p t -> wk_ops w = o :: rest ->
  reply_ok self n c0 b0 o r ->
  counted_now w = (if is_fault (discard r) then 1%nat else 0%nat) ->
  (forall slot, is_Some (at_flag m !! slot) -> is_Some (at_flag m' !! slot)) ->
  (pending max (wk_atom w) -> pending max th' \/ raised m') ->
  worker_outcome busy t k m p w (Done (m', return_with r th' w) p).
Proof.
  intros Hp [_ _ Ho Hd _] Hm Hth Htd Hpc Hdis Eo Hr Hc Hfl Hpe. exists k.
  unfold return_with. rewrite Eo in Ho |- *. apply Forall_cons in Ho as [_ Ho].
  assert (Hf : faulted (MkWorker th' AtIdle rest ((o, r) :: wk_done w)) = (faulted w + counted_now w)%nat).
  { unfold faulted. cbn [wk_done]. rewrite filter_cons, Hc. cbn [snd].
    destruct (is_fault (discard r)); [rewrite decide_True by done|rewrite decide_False by done]; cbn; lia. }
  split; [done|]. split; [done|]. split; [apply step_frame_refl|]. split.
  { split; cbn; [done..|by constructor|]. by split. }
  unfold made, allowed. rewrite Hf, Eo. cbn [wk_ops length].
  assert (Hle : (counted_now w <= 1)%nat) by (rewrite Hc; by destruct (is_fault _); lia).
  split; [cbn [counted_now wk_stage]; lia|]. split; [lia|]. split; [lia|]. split; [done|]. by left.
Qed.

Lemma room_for w k :
  k + Z.of_nat (allowed w) <= Z.of_nat n + Z.of_nat (made w) ->
  k + Z.of_nat (length (wk_ops w)) <= Z.of_nat n + Z.of_nat (counted_now w).
Proof. unfold allowed, made. lia. Qed.

(** [check_poisoned]. *)
Lemma check_outcome busy t slot k m p w m' th' :
  proc_ok p -> mem_ok max c0 b0 k m -> worker_ok p busy t k m w ->
  k + Z.of_nat (allowed w) <= Z.of_nat n + Z.of_nat (made w) ->
  wk_stage w = AtCheck -> task_step max slot m (wk_atom w) = Some (m', th') ->
  worker_outcome busy t k m p w
    (Done match th_pc th', th_said th', wk_ops w with
          | Fin, Passed :: _, o :: _ => (m', stage_at (AtPlan (plan_of self o)) th' w)
          | Fin, Refused c :: _, _ => (m', return_with (Err (Poisoned c)) th' w)
          | _, _, _ => (m', stage_at AtCheck th' w)
          end p).
Proof.
  intros Hp Hm Hw Hroom Est Hstep. pose proof Hw as [Ha Htd Ho Hd Hs].
  unfold stage_ok in Hs. rewrite Est in Hs. destruct Hs as (Hdis & Hne & Hpc).
  apply room_for in Hroom. unfold counted_now in Hroom. rewrite Est in Hroom.
  assert (Hdue : due (wk_atom w) = 0%nat) by (unfold due; rewrite Htd; by destruct Hpc as [-> | ->]).
  destruct (task_step_ok max n c0 b0 c0_pos c0_small k slot m (wk_atom w) m' th' Hm Ha) as
    (k' & Hm' & Hth' & Hk & Hle & Hmono & Hpe); [rewrite Hdue; lia|done|].
  destruct (task_step_pc max slot m (wk_atom w) m' th' Hstep Htd) as [Htd' Hpc'].
  assert (Hcn : counted_now w = 0%nat) by (unfold counted_now; by rewrite Est).
  assert (Hdue' : th_pc th' = CheckCount \/ th_pc th' = Fin -> k' = k).
  { intros Hq. assert (due th' = 0%nat) by (unfold due; rewrite Htd'; by destruct Hq as [-> | ->]). lia. }
  assert (Hback : k' = k /\ (pending max (wk_atom w) -> pending max th' \/ raised m') \/
    (max <= c0 + k' -> pending max th')) by done.
  destruct (wk_ops w) as [|o rest] eqn:Eo; [done|].
  assert (Hstay : th_pc th' = CheckCount -> worker_outcome busy t k m p w (Done (m', stage_at AtCheck th' w) p)).
  { intros Hq. apply (atomic_outcome busy t k k'); try done.
    - unfold stage_ok. cbn. rewrite Hq, Eo. split; [done|]. split; [done|by right].
    - rewrite Hcn. specialize (Hdue' (or_introl Hq)). cbn. lia. }
  assert (Hnp : k' = k -> pending max (wk_atom w) -> pending max th' \/ raised m').
  { intros _. unfold pending. by destruct Hpc as [-> | ->]. }
  destruct Hpc as [E|E]; rewrite E in Hpc'.
  - destruct Hpc' as [Hq|[Hq Hsaid]]; [rewrite Hq; by apply Hstay|]. rewrite Hq, Hsaid.
    apply (atomic_outcome busy t k k'); try done.
    + unfold stage_ok. cbn. split; [done|]. split; [done|]. exists o, rest. split; [done|].
      apply Forall_cons in Ho as [Ho _]. by apply plan_of_ok.
    + rewrite Hcn. specialize (Hdue' (or_intror Hq)). cbn. lia.
  - destruct Hpc' as [Hq [c Hsaid]]. rewrite Hq, Hsaid.
    assert (k' = k) as -> by (apply Hdue'; by right).
    eapply (return_outcome busy t k m m' p w _ th' o rest); try done; [|by apply Hnp].
    pose proof Hth' as [_ Hv [x Hx] _ Hsd _ _]. rewrite Hsaid in Hsd. apply Forall_cons in Hsd as [(_ & H1 & H2) _].
    specialize (H1 c eq_refl). specialize (H2 eq_refl). cbn [length] in Hroom.
    split; [lia|]. destruct H2 as [|Hpos]; [by left|right]. destruct Hm' as [_ _ _ Hf].
    destruct (Hf _ _ Hx) as [|(? & ? & ? & ?)]; lia.
Qed.

(** [record_sigbus_from]. *)
Lemma record_outcome busy t slot k m p w e m' th' :
  proc_ok p -> mem_ok max c0 b0 k m -> worker_ok p busy t k m w ->
  k + Z.of_nat (allowed w) <= Z.of_nat n + Z.of_nat (made w) ->
  wk_stage w = AtRecord e -> task_step max slot m (wk_atom w) = Some (m', th') ->
  th_pc th' <> Panicked /\
  worker_outcome busy t k m p w
    (Done match th_pc th' with
          | Fin => (m', return_with (Err e) th' w)
          | _ => (m', stage_at (AtRecord e) th' w)
          end p).
Proof.
  intros Hp Hm Hw Hroom Est Hstep. pose proof Hw as [Ha Htd Ho Hd Hs].
  unfold stage_ok in Hs. rewrite Est in Hs. destruct Hs as (Hdis & Hpc & o & rest & Eo & a & -> & Harea).
  apply room_for in Hroom. unfold counted_now in Hroom. rewrite Est, Eo in Hroom. cbn [length] in Hroom.
  assert (Hdue : k + Z.of_nat (due (wk_atom w)) <= Z.of_nat n).
  { unfold due. rewrite Htd. destruct (th_pc (wk_atom w)); cbn; lia. }
  destruct (task_step_ok max n c0 b0 c0_pos c0_small k slot m (wk_atom w) m' th' Hm Ha Hdue Hstep) as
    (k' & Hm' & Hth' & Hk & Hle & Hmono & Hpe).
  destruct (task_step_pc max slot m (wk_atom w) m' th' Hstep Htd) as [Htd' Hpc'].
  split; [intros E; pose proof (to_pc _ _ _ _ _ _ Hth') as H; by rewrite E in H|].
  assert (Hmove : match th_pc th' with RecEvent _ _ | RecStore _ | RecPoisoned _ => True | _ => False end ->
    worker_outcome busy t k m p w (Done (m', stage_at (AtRecord (Sigbus a)) th' w) p)).
  { intros Hq. apply (atomic_outcome busy t k k'); try done.
    - unfold stage_ok. cbn. split; [done|]. split; [by destruct (th_pc th')|]. exists o, rest. split; [done|].
      by exists a.
    - revert Hk. unfold counted_now, due. rewrite Est, Htd, Htd'. cbn.
      destruct (th_pc (wk_atom w)), (th_pc th'); cbn; try done; try lia; naive_solver. }
  assert (Hret : th_pc th' = Fin -> match th_pc (wk_atom w) with RecAdd _ => False | _ => True end ->
    worker_outcome busy t k m p w (Done (m', return_with (Err (Sigbus a)) th' w) p)).
  { intros Hq Hnot. assert (k' = k) as ->.
    { revert Hk. unfold due. rewrite Htd, Htd', Hq. destruct (th_pc (wk_atom w)); cbn; try done; lia. }
    eapply (return_outcome busy t k m m' p w _ th' o rest); try done.
    - cbn. unfold result_typed. by destruct (op_range _).
    - unfold counted_now. rewrite Est. by destruct (th_pc (wk_atom w)).
    - destruct Hpe as [[_ Hpe]|Hpe]; [exact Hpe|]. intros Hpd. left. apply Hpe.
      revert Hpd. pose proof (to_pc _ _ _ _ _ _ Ha) as Hok. pose proof (to_count _ _ _ _ _ _ Ha).
      unfold pending. destruct (th_pc (wk_atom w)); cbn in Hok; try done; lia. }
  destruct (th_pc (wk_atom w)) as [f|f c|c|c| | | | | | | |] eqn:E; try done.
  - destruct Hpc' as [[c Hq]|Hq].
    + rewrite Hq in Hmove |- *. by apply Hmove.
    + pose proof (to_pc _ _ _ _ _ _ Hth') as H. by rewrite Hq in H.
  - destruct Hpc' as [[c' Hq]|Hq]; rewrite Hq in Hmove |- *; [by apply Hmove|by apply Hret].
  - destruct Hpc' as [c' Hq]. rewrite Hq in Hmove |- *. by apply Hmove.
  - rewrite Hpc'. by apply Hret.
Qed.

(** A step of a protected call. *)
Lemma call_outcome {A} busy t k m p w (c : pcall A) (kont : A -> plan V) :
  proc_ok p -> mem_ok max c0 b0 k m -> worker_ok p busy t k m w -> wk_stage w = AtCall c kont ->
  ~ idle (Some c) ->
  worker_outcome busy t k m p w
    ((c ← call_step t (if busy then 1%nat else 0%nat) c;
      mret (m, stage_at (AtCall c kont) (wk_atom w) w)) p).
Proof.
  intros Hp Hm Hw Est Hni. pose proof Hw as [_ _ _ _ Hs]. unfold stage_ok in Hs. rewrite Est in Hs.
  destruct Hs as (Hfin & Hc & o & rest & Eo & Hpl). rewrite bind_eq.
  pose proof (call_step_ok t busy c p Hp Hc Hni) as H.
  destruct (call_step t _ c p) as [c' p'|why p'] eqn:E; [|unfold worker_outcome, worker_stops; by rewrite Est].
  destruct H as (Hp' & Hfr & Hc' & _). rewrite mret_eq.
  apply local_outcome; try done; [by left| |by unfold counted_now; rewrite Est].
  unfold stage_ok. cbn. split; [done|]. split; [done|]. exists o, rest. split; [done|].
  rewrite (call_step_prog _ _ _ _ _ _ E). exact Hpl.
Qed.

(** A step of a plan. *)
Lemma plan_outcome busy t slot k m p w pl step :
  proc_ok p -> mem_ok max c0 b0 k m -> worker_ok p busy t k m w -> wk_stage w = AtPlan pl ->
  work self t busy slot m w = Some step -> worker_outcome busy t k m p w (step p).
Proof.
  intros Hp Hm Hw Est Hstep. pose proof Hw as [Ha Htd Ho Hd Hs].
  unfold work in Hstep. unfold stage_ok in Hs. rewrite Est in Hs, Hstep.
  destruct Hs as (Hdis & Hpc & o & rest & Eo & Hpl).
  destruct pl as [r|why|pl|A q kont|e]; cbn in Hpl; try done; injection Hstep as <-.
  + rewrite mret_eq. eapply (return_outcome busy t k m m p w r _ o rest); try done.
    * apply Hpl.
    * unfold counted_now. rewrite Est. by destruct Hpl as [_ ->].
    * unfold pending. by rewrite Hpc.
  + rewrite bind_eq, install_ok by done. cbv beta iota. rewrite mret_eq.
    apply local_outcome; try done; [by left|by apply installed_ok|by split; [apply installed_only|]| |
      by unfold counted_now; rewrite Est].
    unfold stage_ok. cbn. split; [|split; [done|by exists o, rest]].
    eapply disarmed_frame; [|done]. unfold thread_state. by rewrite installed_ptr.
  + rewrite mret_eq. apply local_outcome; try done; [by left| |
      by unfold counted_now; rewrite Est].
    unfold stage_ok. cbn. by split; [|split; [|exists o, rest]].
  + rewrite mret_eq. apply local_outcome; try done; [right; by eexists| |
      by unfold counted_now; rewrite Est].
    unfold stage_ok. cbn. split; [done|]. split; [done|]. by exists o, rest.
Qed.

(** Any step of a thread. *)
Lemma work_ok busy t slot k m p w step :
  proc_ok p -> mem_ok max c0 b0 k m -> worker_ok p busy t k m w ->
  k + Z.of_nat (allowed w) <= Z.of_nat n + Z.of_nat (made w) ->
  work self t busy slot m w = Some step -> worker_outcome busy t k m p w (step p).
Proof.
  intros Hp Hm Hw Hroom Hstep. pose proof Hw as [Ha Htd Ho Hd Hs].
  unfold work in Hstep. unfold stage_ok in Hs. destruct (wk_stage w) as [| |pl|A c kont|e] eqn:Est.
  - destruct Hs as [Hdis Hpc]. destruct (wk_ops w) as [|o rest] eqn:Eo; [done|]. injection Hstep as <-.
    rewrite mret_eq. apply local_outcome; try done;
      [right; by exists CheckFlag| |by unfold counted_now; rewrite Est].
    unfold stage_ok. cbn. rewrite Eo. split; [done|]. split; [done|by left].
  - apply bind_Some in Hstep as ([m' th'] & Ht & Hstep).
    pose proof (check_outcome busy t slot k m p w m' th' Hp Hm Hw Hroom Est Ht) as H.
    destruct (th_pc th'), (th_said th') as [|[] ?], (wk_ops w); injection Hstep as <-; exact H.
  - eapply (plan_outcome busy t slot); try done. unfold work. by rewrite Est.
  - destruct Hs as (Hfin & Hc & o & rest & Eo & Hq & Hk).
    destruct (call_done c) as [[r Epc]|Hni].
    + destruct c as [q tr l pc]. cbn in Epc. subst pc. destruct Hc as [Hdis Hr].
      destruct r as [v|a]; injection Hstep as <-; rewrite mret_eq;
        (apply local_outcome; try done; [by left| |by unfold counted_now; rewrite Est]);
        (unfold stage_ok; cbn; split; [done|]; split; [done|]; exists o, rest; split; [done|]).
      * by eapply Hk.
      * exists a. split; [done|]. eapply awaiting_typed; [exact Hq|]. apply Hr.
    + revert Hstep. destruct (c_pc c) eqn:E; try (intros [= <-]; by apply call_outcome).
      destruct Hni. unfold idle. by rewrite E.
  - apply bind_Some in Hstep as ([m' th'] & Ht & Hstep).
    destruct (record_outcome busy t slot k m p w e m' th' Hp Hm Hw Hroom Est Ht) as [Hnp H].
    destruct (th_pc th'); injection Hstep as <-; done.
Qed.

(** ** The events *)

Lemma made_allowed p busy t k m w : worker_ok p busy t k m w -> (made w <= allowed w)%nat.
Proof.
  intros [_ _ _ _ Hs]. unfold made, allowed, counted_now. unfold stage_ok in Hs.
  destruct (wk_stage w); try lia. destruct Hs as (_ & _ & o & rest & -> & _). cbn.
  destruct (th_pc _); lia.
Qed.

Lemma sum_room (f g : worker V -> nat) ws i w :
  Forall (fun w => f w <= g w)%nat ws -> ws !! i = Some w ->
  (sum_list_with f ws + g w <= sum_list_with g ws + f w)%nat.
Proof.
  intros H Hi. rewrite <- (take_drop_middle ws i w Hi), !sum_list_with_app. cbn.
  rewrite <- (take_drop_middle ws i w Hi) in H. apply Forall_app in H as [H1 H2].
  apply Forall_cons in H2 as [_ H2].
  assert (Hle : forall l, Forall (fun w => f w <= g w)%nat l -> (sum_list_with f l <= sum_list_with g l)%nat).
  { clear. induction 1; cbn; lia. }
  pose proof (Hle _ H1). pose proof (Hle _ H2). lia.
Qed.

Lemma team_room s k i w :
  team_ok s k -> sw_workers s !! i = Some w ->
  k + Z.of_nat (allowed w) <= Z.of_nat n + Z.of_nat (made w).
Proof.
  intros [_ _ _ _ Hw Hk Hn _] Hi.
  assert (Hle : Forall (fun w => made w <= allowed w)%nat (sw_workers s)).
  { apply Forall_lookup. intros j x Hj. by eapply made_allowed, Hw. }
  pose proof (sum_room made allowed (sw_workers s) i w Hle Hi). lia.
Qed.

Lemma tid_of_ne i j : i <> j -> tid_of i <> tid_of j.
Proof. unfold tid_of. lia. Qed.

Lemma step_team i w w' m' p' s k k' :
  team_ok s k -> sw_workers s !! i = Some w ->
  mem_ok max c0 b0 k' m' -> proc_ok p' -> step_frame (tid_of i) (sw_proc s) p' ->
  worker_ok p' (bool_decide (is_Some (sw_phase s))) (tid_of i) k' m' w' ->
  k' + Z.of_nat (made w) = k + Z.of_nat (made w') ->
  (allowed w' <= allowed w)%nat -> k <= k' ->
  (forall slot, is_Some (at_flag (sw_mem s) !! slot) -> is_Some (at_flag m' !! slot)) ->
  ((k' = k /\ (pending max (wk_atom w) -> pending max (wk_atom w') \/ raised m')) \/
   (max <= c0 + k' -> pending max (wk_atom w'))) ->
  team_ok (MkTeam p' (sw_phase s) m' (<[i := w']> (sw_workers s))) k'.
Proof.
  intros [Hp Hb Hf Hm Hw Hk Hn Hpe] Hi Hm' Hp' Hfr Hw' Hmade Hal Hle Hmono Hpn.
  pose proof (sum_list_with_insert made (sw_workers s) i w w' Hi) as Hs1.
  pose proof (sum_list_with_insert allowed (sw_workers s) i w w' Hi) as Hs2.
  pose proof Hfr as [[Hreg _] _].
  assert (Hlt : (i < length (sw_workers s))%nat) by by eapply lookup_lt_Some.
  assert (Hnew : pending max (wk_atom w') ->
    Exists (fun w => pending max (wk_atom w)) (<[i := w']> (sw_workers s))).
  { intros Hpt. apply Exists_exists. exists w'. split; [|done].
    eapply list_elem_of_lookup_2. by apply list_lookup_insert_eq. }
  split; cbn; [done|by rewrite Hreg|done|done| |lia|lia|].
  - intros j x. destruct (decide (i = j)) as [<-|Hne].
    + rewrite list_lookup_insert_eq by done. by intros [= <-].
    + rewrite list_lookup_insert_ne by done. intros Hj.
      eapply worker_ok_other; [exact Hfr|by apply tid_of_ne|exact Hle|exact Hmono|]. by apply Hw.
  - intros Hpos Hmax. destruct Hpn as [[-> Hpn]|Hpn]; [|right; by apply Hnew, Hpn].
    destruct (Hpe Hpos Hmax) as [(r & Hr & Hx)|(x & Hx & Hpx)%Exists_exists].
    { left. exists r. split; [done|by apply Hmono]. }
    apply list_elem_of_lookup in Hx as [j Hj]. destruct (decide (i = j)) as [<-|Hne].
    + rewrite Hi in Hj. injection Hj as <-. destruct (Hpn Hpx); [right; by apply Hnew|by left].
    + right. apply Exists_exists. exists x. split; [|done].
      eapply list_elem_of_lookup_2. by rewrite list_lookup_insert_ne.
Qed.

(** What holds of all the workers carries over when each keeps its operations
    and its atomic thread. *)
Lemma team_map s k p' phase' (f : worker V -> worker V) :
  team_ok s k -> proc_ok p' -> (is_Some phase' -> current (tracker (p_registry p')) = []) ->
  (forall x, phase' = Some x -> mutation_fits x) ->
  (forall w, wk_atom (f w) = wk_atom w /\ made (f w) = made w /\ allowed (f w) = allowed w) ->
  (forall t w, worker_ok (sw_proc s) (bool_decide (is_Some (sw_phase s))) t k (sw_mem s) w ->
     worker_ok p' (bool_decide (is_Some phase')) t k (sw_mem s) (f w)) ->
  team_ok (MkTeam p' phase' (sw_mem s) (f <$> sw_workers s)) k.
Proof.
  intros [Hp Hb Hf Hm Hw Hk Hn Hpe] Hp' Hb' Hf' Hkeep Hws.
  assert (Hsum : forall (g : worker V -> nat), (forall w, g (f w) = g w) ->
    sum_list_with g (f <$> sw_workers s) = sum_list_with g (sw_workers s)).
  { intros g Hg. clear -Hg. induction (sw_workers s) as [|w ws IH]; [done|]. cbn in *. by rewrite Hg, IH. }
  split; cbn; [done..| |rewrite Hsum; [done|intros w; apply Hkeep]|rewrite Hsum; [done|intros w; apply Hkeep]|].
  - intros i w. rewrite list_lookup_fmap. destruct (sw_workers s !! i) eqn:Hi; [|done].
    intros [= <-]. by apply Hws, Hw.
  - intros Hpos Hmax. destruct (Hpe Hpos Hmax) as [|Hex]; [by left|right].
    apply Exists_fmap. eapply Exists_impl; [exact Hex|]. intros w. cbn. by destruct (Hkeep w) as [-> _].
Qed.

Lemma worker_ok_proc p p' busy busy' t k m w :
  thread_state p' t = thread_state p t -> thread_ptr p' t = thread_ptr p t ->
  (p_handler_init p = OnceDone -> p_handler_init p' = OnceDone) ->
  (forall rd, reader_ok (p_registry p) busy rd -> reader_ok (p_registry p') busy' rd) ->
  worker_ok p busy t k m w -> worker_ok p' busy' t k m w.
Proof.
  intros Hs Hp Hh Hr [Ha Htd Ho Hd Hst]. split; [done..|]. unfold stage_ok in *.
  assert (Hdis : disarmed p t -> disarmed p' t) by by apply disarmed_frame.
  destruct (wk_stage w) as [| |pl|A c kk|e]; try naive_solver.
  destruct Hst as (? & Hc & ?). split_and!; [done| |done]. by eapply call_ok_frame.
Qed.

Lemma age_worker_ok p t k m w :
  registry_wf (p_registry p) -> worker_ok p false t k m w ->
  worker_ok (set_registry (rotated (p_registry p)) p) true t k m (age_worker w).
Proof.
  intros Hwf [Ha Htd Ho Hd Hs]. unfold age_worker, stage_ok in *.
  destruct (wk_stage w) as [| |pl|A c kk|e] eqn:Est;
    try (split; [done..|]; unfold stage_ok; rewrite Est; exact Hs).
  split; [done..|]. unfold stage_ok. cbn. destruct Hs as (? & Hc & Hrest). split; [done|].
  split; [by apply call_ok_begin|]. by rewrite age_call_prog.
Qed.

Lemma age_worker_keeps w :
  wk_atom (age_worker w) = wk_atom w /\ made (age_worker w) = made w /\ allowed (age_worker w) = allowed w.
Proof.
  unfold age_worker, made, allowed, faulted, counted_now.
  destruct (wk_stage w) eqn:Est; cbn; rewrite ?Est; done.
Qed.

(** How an event may stop: the step of a thread's call ends the process. *)
Definition event_stops s (x : team_event K) (why : stop_reason) : Prop :=
  exists i slot w A (c : pcall A) kont, x = XStep i slot /\ sw_workers s !! i = Some w /\
    wk_stage w = AtCall c kont /\ call_dies (sw_proc s) c why.

Lemma happen_ok x s k out :
  team_ok s k -> happen self x s = Some out ->
  match out with Done _ s' => exists k', team_ok s' k' | Stop why _ => event_stops s x why end.
Proof.
  intros Hok. pose proof Hok as [Hp Hb Hf Hm Hw Hk Hn Hpe]. pose proof Hp as [[Hwf _] _ _ _ _].
  destruct x as [i slot|i|y| |os]; cbn [happen].
  - intros (w & Hi & (step & Hwork & [= <-])%bind_Some)%bind_Some.
    pose proof (work_ok _ _ _ k _ (sw_proc s) w step Hp Hm (Hw i w Hi) (team_room s k i w Hok Hi) Hwork) as H.
    rewrite bind_eq. unfold zoom. cbn [lget lset team_lens].
    destruct (step (sw_proc s)) as [[m' w'] p'|why p'].
    2: { cbn in H. unfold worker_stops in H.
      destruct (wk_stage w) as [| | |A c kont|] eqn:Est; try done. by exists i, slot, w, A, c, kont. }
    destruct H as (k' & Hm' & Hp' & Hfr & Hw' & Hmade & Hal & Hle & Hmono & Hpn).
    exists k'. by apply (step_team i w w' m' p' s k k').
  - intros (w & Hi & H)%bind_Some. pose proof (Hw i w Hi) as Hwi.
    pose proof Hwi as [Ha Htd Ho Hd Hs]. unfold stage_ok in Hs.
    destruct (wk_stage w) eqn:Est; try done. injection H as <-. unfold zoom. cbn [lget lset team_lens].
    destruct (thread_exit_ok (tid_of i) (sw_proc s) Hp) as (p' & E & Hp' & _ & Honly & Hz & _ & Hhi & _).
    rewrite E. exists k. rewrite <- (list_insert_id (sw_workers s) i w) by done.
    apply (step_team i w w (sw_mem s) p' s k k); try done.
    + split; [done|by rewrite Hhi].
    + split; [done..|]. unfold stage_ok. rewrite Est. split; [|apply Hs].
      intros st. unfold thread_state. by rewrite Hz.
    + left. split; [done|]. by left.
  - destruct (decide (sw_phase s = None /\ mutation_fits y)) as [Hen|Hen];
      [rewrite bool_decide_eq_true_2 by done|by rewrite bool_decide_eq_false_2].
    destruct Hen as [Hidle Hfit]. intros [= <-]. rewrite bind_eq. unfold zoom at 1. cbn [lget lset team_lens].
    destruct (proc_begin_ok (sw_proc s) Hp) as [-> Hp']. exists k.
    apply (team_map s k); cbn; [done..|by intros ? [= <-]|apply age_worker_keeps|].
    intros t w. rewrite Hidle. by apply age_worker_ok.
  - intros (y & Ey & [= <-])%bind_Some. rewrite bind_eq. unfold zoom at 1. cbn [lget lset team_lens].
    destruct (proc_finish_ok y (sw_proc s) Hp) as [-> Hp']; [by apply Hb; rewrite Ey|by apply Hf|].
    exists k. rewrite <- (list_fmap_id (sw_workers s)).
    apply (team_map s k); cbn; [done|done|by intros []|done|done|].
    intros t w. apply worker_ok_proc; [done..|]. rewrite Ey. intros rd. by apply reader_finish.
  - intros [= <-]. exists k. unfold zoom. cbn [modify lset lget team_lens].
    rewrite <- (list_fmap_id (sw_workers s)).
    apply (team_map s k); cbn; [done|by destruct Hp|done..|]. intros t w. by apply worker_ok_proc.
Qed.

Lemma happens_ok xs s k out :
  team_ok s k -> happens self xs s = Some out ->
  match out with Done _ s' => exists k', team_ok s' k' | Stop _ _ => True end.
Proof.
  revert s k. induction xs as [|x xs IH]; intros s k Hs; cbn; [by intros [= <-]; exists k|].
  destruct (happen self x s) as [[[] s1|why s1]|] eqn:E; [| |done].
  - destruct (happen_ok x s k _ Hs E) as [k1 Hk]. by apply (IH s1 k1).
  - by intros [= <-].
Qed.

(** ** While the mapping stays registered *)

Local Abbreviation home := (region_of (raw self)).

(** The event does not start to unregister the mapping. *)
Definition keeps_home (x : team_event K) : Prop :=
  match x with XBegin (Unregister a) => a <> raw_ptr (raw self) | _ => True end.

Definition worker_home w : Prop :=
  match wk_stage w with AtCall c _ => seen_has home c | _ => True end.

(** The mapping is registered, and every handler found it so. *)
Record at_home s : Prop := {
  ah_regions : home ∈ regions (p_registry (sw_proc s));
  ah_phase : sw_phase s <> Some (Unregister (raw_ptr (raw self)));
  ah_workers : Forall worker_home (sw_workers s);
}.

Lemma start_seen {A} x (q : prog A) : seen_has x (start q).
Proof. by split. Qed.

Lemma work_home t busy slot m w step p m' w' p' :
  work self t busy slot m w = Some step -> step p = Done (m', w') p' ->
  p_registry p' = p_registry p -> home ∈ regions (p_registry p) -> worker_home w -> worker_home w'.
Proof.
  intros Hwork Hstep Hr Hx Hw. unfold worker_home in *. unfold work in Hwork.
  assert (Hret : forall r th, worker_home (return_with r th w)).
  { intros r th. unfold worker_home, return_with. destruct (wk_ops w) eqn:Eo; [exact Hw|done]. }
  destruct (wk_stage w) as [| |pl|A c kont|e] eqn:Est.
  - destruct (wk_ops w); [done|]. injection Hwork as <-. by injection Hstep as _ <- _.
  - apply bind_Some in Hwork as ([m1 th] & _ & Hwork).
    destruct (th_pc th), (th_said th) as [|[] ?], (wk_ops w);
      injection Hwork as <-; injection Hstep as _ <- _; done || apply Hret.
  - destruct pl as [r|why|pl|A q kont|e]; injection Hwork as <-; try done.
    + injection Hstep as _ <- _. apply Hret.
    + apply bind_done in Hstep as (u & p1 & _ & E). by injection E as _ <- _.
    + injection Hstep as _ <- _. apply start_seen.
    + by injection Hstep as _ <- _.
  - destruct (call_done c) as [[r Epc]|Hni].
    { rewrite Epc in Hwork. destruct r; injection Hwork as <-; by injection Hstep as _ <- _. }
    assert (Hcall : Some (c' ← call_step t (if busy then 1%nat else 0%nat) c;
      mret (m, stage_at (AtCall c' kont) (wk_atom w) w)) = Some step).
    { destruct (c_pc c) as [| | | | | | | | | |[]] eqn:E; try done;
        destruct Hni; unfold idle; by rewrite E. }
    injection Hcall as <-. apply bind_done in Hstep as (c' & p1 & E & E'). injection E' as _ <- ->. cbn.
    unfold call_step in E. apply bind_done in E as ([c1|e] & p2 & E & E'); [|done].
    injection E' as -> ->. by eapply call_flow_seen.
  - apply bind_Some in Hwork as ([m1 th] & _ & Hwork).
    destruct (th_pc th); injection Hwork as <-; try done; injection Hstep as _ <- _; done || apply Hret.
Qed.

Lemma happen_home x s k s' :
  team_ok s k -> happen self x s = Some (Done tt s') -> keeps_home x -> at_home s -> at_home s'.
Proof.
  intros Hok Hx Hkeep [Hreg Hph Hws]. pose proof Hok as [Hp Hb Hf Hm Hw _ _ _]. pose proof Hp as [[Hwf _] _ _ _ _].
  destruct x as [i slot|i|y| |os]; cbn [happen] in Hx.
  - apply bind_Some in Hx as (w & Hi & Hx). apply bind_Some in Hx as (step & Hwork & [= Hx]).
    pose proof (work_ok _ _ _ k _ (sw_proc s) w step Hp Hm (Hw i w Hi) (team_room s k i w Hok Hi) Hwork) as H.
    rewrite bind_eq in Hx. unfold zoom in Hx. cbn [lget lset team_lens] in Hx.
    destruct (step (sw_proc s)) as [[m' w'] p'|] eqn:E; [|done].
    destruct H as (_ & _ & _ & [[Hr _] _] & _). injection Hx as <-. split; cbn; [by rewrite Hr|done|].
    apply Forall_insert; [done|]. eapply work_home; [exact Hwork|exact E|done..|].
    rewrite Forall_lookup in Hws. by eapply Hws.
  - apply bind_Some in Hx as (w & Hi & Hx). destruct (wk_stage w); try done. injection Hx as Hx.
    destruct (thread_exit_ok (tid_of i) (sw_proc s) Hp) as (p' & E & _ & _ & [Hr _] & _).
    unfold zoom in Hx. cbn [lget lset team_lens] in Hx. rewrite E in Hx. injection Hx as <-.
    split; cbn; [by rewrite Hr|done..].
  - destruct (decide (sw_phase s = None /\ mutation_fits y)) as [Hen|Hen];
      [rewrite bool_decide_eq_true_2 in Hx by done|by rewrite bool_decide_eq_false_2 in Hx].
    injection Hx as Hx. rewrite bind_eq in Hx. unfold zoom at 1 in Hx.
    cbn [lget lset team_lens] in Hx. destruct (proc_begin_ok (sw_proc s) Hp) as [E _].
    rewrite E in Hx. injection Hx as <-. split; cbn; [by rewrite rotated_regions|by intros [= ->]|].
    apply Forall_fmap. eapply Forall_impl; [exact Hws|]. intros w Hh. unfold worker_home, age_worker in *. cbn.
    destruct (wk_stage w) eqn:Est; cbn; rewrite ?Est; try done. by apply age_call_seen.
  - apply bind_Some in Hx as (y & Ey & [= Hx]). rewrite bind_eq in Hx. unfold zoom at 1 in Hx.
    cbn [lget lset team_lens] in Hx.
    destruct (proc_finish_ok y (sw_proc s) Hp) as [E _]; [by apply Hb; rewrite Ey|by apply Hf|].
    rewrite E in Hx. injection Hx as <-. split; cbn; [|done..].
    destruct (finished_wf y _ Hwf) as (_ & -> & _); [by apply Hb; rewrite Ey|].
    destruct y as [a len|a]; cbn; [set_solver|]. apply list_elem_of_filter. split; [|done].
    cbn. intros E'. apply Hph. rewrite Ey. by rewrite E'.
  - injection Hx as <-. by split.
Qed.

Lemma happens_home xs s k s' :
  team_ok s k -> happens self xs s = Some (Done tt s') -> Forall keeps_home xs -> at_home s -> at_home s'.
Proof.
  revert s k. induction xs as [|x xs IH]; intros s k Hs; cbn; [by intros [= <-]|].
  destruct (happen self x s) as [[[] s1|why s1]|] eqn:E; [|done..]. intros Hx [H1 H2]%Forall_cons Hh.
  destruct (happen_ok x s k _ Hs E) as [k1 Hk]. eapply IH; [exact Hk|done..|]. exact (happen_home x s k s1 Hs E H1 Hh).
Qed.

Lemma crew_ok p todos :
  proc_ok p -> (forall t, disarmed p t) -> Forall (Forall (op_good self)) todos ->
  sum_list_with length todos = n -> team_ok (crew p c0 b0 todos) 0.
Proof.
  intros Hp Hd Hg Hn.
  assert (Hsum : forall f : worker V -> nat,
    sum_list_with f (sw_workers (crew p c0 b0 todos)) =
    sum_list_with (fun ops => f (MkWorker (MkThread (MkView 0 0) Fin [] []) AtIdle ops [])) todos).
  { intros f. unfold crew. cbn. clear. induction todos as [|x l IH]; [done|]. cbn in *. by rewrite IH. }
  split; [done|by intros []|done| | | | |by intros ?].
  - split; cbn; [lia| |done|].
    + intros slot v. rewrite lookup_singleton_Some. intuition lia.
    + intros slot v [<- _]%lookup_singleton_Some. by left.
  - intros i w. unfold crew. cbn. rewrite list_lookup_fmap. destruct (todos !! i) as [ops|] eqn:Hi; [|done].
    intros [= <-]. rewrite Forall_lookup in Hg. split; cbn; [|done|by eapply Hg|done|by split].
    split; cbn; [apply not_elem_of_nil|lia|by eexists|done..|constructor].
  - rewrite Hsum. cbn. clear. induction todos; cbn; lia.
  - rewrite Hsum. unfold allowed. cbn. change (sum_list_with (fun ops : list (op V) => length ops) todos)
      with (sum_list_with length todos). lia.
Qed.

Lemma work_progress p busy t k m w :
  mem_ok max c0 b0 k m -> worker_ok p busy t k m w ->
  (match wk_stage w with AtIdle => wk_ops w = [] | _ => False end) \/
  exists slot, is_Some (work (K := K) (T := T) self t busy slot m w).
Proof.
  intros Hm [Ha Htd _ _ Hs]. unfold stage_ok, work in *.
  destruct (wk_stage w) as [| |pl|A c kk|e] eqn:Est.
  - destruct (wk_ops w); [by left|]. right. by exists 0.
  - destruct Hs as (_ & _ & Hpc). right.
    destruct (task_progress max n c0 b0 k m (wk_atom w) Hm Ha) as [[E _]|(slot & [m' th'] & E)];
      [by destruct Hpc; congruence|]. exists slot. rewrite E. cbn.
    destruct (th_pc th'), (th_said th') as [|[] ?], (wk_ops w); by eexists.
  - right. exists 0. destruct pl; by eexists.
  - right. exists 0. destruct (c_pc c) as [| | | | | | | | | |[v|a]]; by eexists.
  - destruct Hs as (_ & Hpc & _). right.
    destruct (task_progress max n c0 b0 k m (wk_atom w) Hm Ha) as [[E _]|(slot & [m' th'] & E)];
      [by rewrite E in Hpc|]. exists slot. rewrite E. cbn. destruct (th_pc th'); by eexists.
Qed.

(** C3 (safety): any number of threads call [read], [write], [read_into] and [probe] on
    one shared mapping, while other mappings are opened and dropped, threads
    end and other processes change the files. However their steps interleave,
    and whatever the relaxed atomics let them see: no event panics or jumps
    wrongly, and one ends the process only where an access is answered with
    SIGSEGV, where a closure panics, where a SIGBUS is not caught (which, while the
    mapping stays registered, happens at no address inside it, unless a closure
    had made a protected call of its own), or where a handler that more than two
    changes of the registry have overtaken finds the snapshot it had loaded
    freed (undefined behaviour) or replaced by one that lacks the address
    (SIGBUS); no thread waits for another; every
    operation that returned has an answer of its own (a value the closure computed from its
    slice, a fault address of its own range, [OutOfBounds] of its own range,
    [Poisoned] only if the limit can have been reached); and once all have
    returned, the count has risen by exactly the number of [Sigbus] errors
    returned, and the mapping is poisoned exactly if it was or the count has
    reached the limit. *)
Theorem shared_mapping xs todos p s :
  proc_ok p -> (forall t, disarmed p t) -> Forall (Forall (op_good self)) todos ->
  sum_list_with length todos = n -> happens self xs (crew p c0 b0 todos) = Some (Done tt s) ->
  (forall x out, happen self x s = Some out ->
     match out with Done _ _ => True | Stop why _ => event_stops s x why end) /\
  (forall i w, sw_workers s !! i = Some w ->
     ((match wk_stage w with AtIdle => wk_ops w = [] | _ => False end) \/
      exists slot, is_Some (happen self (XStep i slot) s)) /\
     forall o r, (o, r) ∈ wk_done w -> reply_ok self n c0 b0 o r) /\
  (all_done s ->
     let faults := Z.of_nat (sum_list_with faulted (sw_workers s)) in
     latest (at_count (sw_mem s)) (c0 + faults) /\
     exists v, latest (at_flag (sw_mem s)) v /\ (v <> 0 <-> b0 = true \/ 0 < faults /\ max <= c0 + faults)) /\
  (home ∈ regions (p_registry p) -> Forall keeps_home xs ->
     forall i w A (c : pcall A) kont, sw_workers s !! i = Some w -> wk_stage w = AtCall c kont ->
       uncaught (sw_proc s) c -> outside home c).
Proof.
  intros Hp Hd Hg Hn Hrun.
  destruct (happens_ok xs _ 0 _ (crew_ok p todos Hp Hd Hg Hn) Hrun) as [k Hok].
  pose proof Hok as [_ _ _ Hm Hw Hk _ Hpe]. split_and!.
  - intros x out E. pose proof (happen_ok x s k out Hok E) as H. by destruct out.
  - intros i w Hi. pose proof (Hw i w Hi) as Hwi. split.
    + destruct (work_progress _ _ _ k _ w Hm Hwi) as [|(slot & step & E)]; [by left|].
      right. exists slot. cbn. rewrite Hi. cbn. rewrite E. by eexists.
    + intros o r Hin. pose proof (wo_done _ _ _ _ _ _ Hwi) as Hdn. rewrite Forall_forall in Hdn.
      exact (Hdn (o, r) Hin).
  - intros Hfin faults. assert (Hkf : k = faults).
    { rewrite Hk. unfold faults, all_done in *. f_equal. clear -Hfin.
      induction Hfin as [|w ws [H1 H2] _ IH]; [done|]. cbn. rewrite IH. unfold made, counted_now.
      destruct (wk_stage w); done || lia. }
    rewrite <- Hkf. apply (mem_latest max n c0 b0); [done|].
    intros Hpos Hmax. destruct (Hpe Hpos Hmax) as [|(w & Hin & Hpd)%Exists_exists]; [done|].
    exfalso. apply list_elem_of_lookup in Hin as [i Hi].
    pose proof (wo_stage _ _ _ _ _ _ (Hw i w Hi)) as Hst. unfold stage_ok in Hst.
    unfold all_done in Hfin. rewrite Forall_lookup in Hfin. destruct (Hfin i w Hi) as [H1 _].
    destruct (wk_stage w); try done. unfold pending in Hpd. by destruct Hst as [_ E]; rewrite E in Hpd.
  - intros Hreg Hkeep i w A c kont Hi Est Hu.
    destruct (happens_home xs _ 0 s (crew_ok p todos Hp Hd Hg Hn) Hrun Hkeep) as [Hreg' _ Hws].
    { split; cbn; [done..|]. apply Forall_fmap, Forall_forall. done. }
    eapply uncaught_outside; [exact Hu|done|]. rewrite Forall_lookup in Hws. specialize (Hws i w Hi).
    unfold worker_home in Hws. by rewrite Est in Hws.
Qed.
End Invariant.
