(* ===== verification/Prefetch.v ===== *)
(** Timed prefetch (src/src/mmap/prefetch.rs): the caller ("main") spawns a
    worker that probes the pages and waits for it on a condition variable with
    a timeout. The two are threads over one state, and a schedule of events
    says what happens next: a step of main, a step of the worker, the timeout
    of main's wait, or a spurious wakeup of it. An event whose thread cannot
    move (it waits for the mutex, for a notification, or in [join]) changes
    nothing. *)

From stdpp Require Import prelude gmap strings.
From Stdlib Require Import ZArith Lia.
From S2P Require Import Prelude Errors Env SysMmap Registry Signal Probe SafeMmap.

(** * The two threads *)

Inductive who := Main | Worker.

#[global] Instance who_eq_dec : EqDecision who.
Proof. solve_decision. Defined.

Inductive main_pc :=
  | MLock                              (* lock.lock() *)
  | MCheck                             (* if result.is_none() *)
  | MWait                              (* inside cvar.wait_timeout *)
  | MReacquire (timed_out : bool)      (* woken, taking the mutex again *)
  | MDecide (timed_out : bool)         (* if timed_out() && result.is_none() *)
  | MCancel                            (* cancelled.store(true) *)
  | MDrop1                             (* drop(result) on the timeout path *)
  | MJoin1                             (* handle.join() on the timeout path *)
  | MDrop2                             (* drop(result) *)
  | MJoin2                             (* handle.join() *)
  | MLock2                             (* the second lock.lock() *)
  | MTake                              (* match result.take() *)
  | MRet (r : result unit AccessError)
  | MDead (why : stop_reason).         (* the process ended *)

Inductive worker_pc :=
  | WStart                             (* install_handler(), page_size() *)
  | WTest (pos : Z)                    (* while pos < offset + len *)
  | WFlag (pos : Z)                    (* cancelled.load() *)
  | WTouch (pos : Z)                   (* the protected read, pos += page *)
  | WLock (r : result unit AccessError)
  | WStore (r : result unit AccessError)
  | WNotify
  | WUnlock
  | WTls                               (* the thread's pthread destructors *)
  | WExit.

Record pf (K T : Type) := MkPf {
  pf_proc : proc K T;
  pf_slot : option (result unit AccessError);    (* the Mutex<Option<..>> *)
  pf_cancelled : bool;
  pf_lock : option who;
  pf_main : main_pc;
  pf_worker : worker_pc;
}.
Arguments MkPf {K T}.
Arguments pf_proc {K T}.
Arguments pf_slot {K T}.
Arguments pf_cancelled {K T}.
Arguments pf_lock {K T}.
Arguments pf_main {K T}.
Arguments pf_worker {K T}.

Inductive event := StepMain | StepWorker | TimeoutFires | SpuriousWakeup.

Section Threads.
Context `{PR : Profile} `{SC : Sysconf} `{AL : Allocator}.
Context {K T : Type} `{VMK : !VM K} `{PE : !ProcEnv T}.
(** The worker's thread, and the arguments of [prefetch_with_deadline]. *)
Context (tw : tid) (base_ptr offset len : Z) (timeout : Duration).
Implicit Types s : pf K T.

Definition set_main (m : main_pc) s : pf K T :=
  MkPf (pf_proc s) (pf_slot s) (pf_cancelled s) (pf_lock s) m (pf_worker s).
Definition set_worker (w : worker_pc) s : pf K T :=
  MkPf (pf_proc s) (pf_slot s) (pf_cancelled s) (pf_lock s) (pf_main s) w.
Definition set_lock (l : option who) s : pf K T :=
  MkPf (pf_proc s) (pf_slot s) (pf_cancelled s) l (pf_main s) (pf_worker s).
Definition set_slot (x : option (result unit AccessError)) s : pf K T :=
  MkPf (pf_proc s) x (pf_cancelled s) (pf_lock s) (pf_main s) (pf_worker s).
Definition set_cancelled (b : bool) s : pf K T :=
  MkPf (pf_proc s) (pf_slot s) b (pf_lock s) (pf_main s) (pf_worker s).
Definition set_proc (p : proc K T) s : pf K T :=
  MkPf p (pf_slot s) (pf_cancelled s) (pf_lock s) (pf_main s) (pf_worker s).

(** The closure that touches one page. *)
Definition touch_byte (pos : Z) : prog unit :=
  if overflow_checks && (usize_modulus <=? base_ptr + pos) then PPanic
  else PLoad ((base_ptr + pos) mod usize_modulus) (fun _ => PRet tt).

(** A computation of the worker: a panic ends its closure, any other stop the
    process. *)
Definition worker_runs {A} (f : M (proc K T) A) (k : A -> worker_pc) s : pf K T :=
  match f (pf_proc s) with
  | Done a p => set_worker (k a) (set_proc p s)
  | Stop StopPanic p => set_worker WTls (set_proc p s)
  | Stop why p => set_main (MDead why) (set_proc p s)
  end.

(** [probe_pages] is the steps from [WStart] to [WLock]; the rest is the
    closure of [thread::spawn]. *)
Definition worker_step s : pf K T :=
  match pf_worker s with
  | WStart => worker_runs (_ ← install_handler; page_size) (fun _ => WTest offset) s
  | WTest pos =>
      worker_runs (uadd offset len) (fun e => if pos <? e then WFlag pos else WLock (Ok tt)) s
  | WFlag pos => set_worker (if pf_cancelled s then WLock (Ok tt) else WTouch pos) s
  | WTouch pos =>
      worker_runs (
        r ← protect tw (touch_byte pos);
        match r with
        | Err fault_addr => mret (Err fault_addr)
        | Ok _ => pos ← uadd pos sysconf_pagesize; mret (Ok pos)    (* the local [page] *)
        end)
        (fun r => match r with Ok pos => WTest pos | Err a => WLock (Err (Sigbus a)) end) s
  | WLock r => match pf_lock s with None => set_worker (WStore r) (set_lock (Some Worker) s) | _ => s end
  | WStore r => set_worker WNotify (set_slot (Some r) s)
  | WNotify =>
      let s := match pf_main s with MWait => set_main (MReacquire false) s | _ => s end in
      set_worker WUnlock s
  | WUnlock => set_worker WTls (set_lock None s)
  | WTls => worker_runs (thread_exit tw) (fun _ => WExit) s
  | WExit => s
  end.

Definition Timeout_err : AccessError := Timeout offset len timeout.

Definition main_step s : pf K T :=
  match pf_main s with
  | MLock => match pf_lock s with None => set_main MCheck (set_lock (Some Main) s) | _ => s end
  | MCheck =>
      match pf_slot s with
      | None => set_main MWait (set_lock None s)
      | Some _ => set_main MDrop2 s
      end
  | MWait => s
  | MReacquire b =>
      match pf_lock s with None => set_main (MDecide b) (set_lock (Some Main) s) | _ => s end
  | MDecide b =>
      set_main (if b && match pf_slot s with None => true | _ => false end then MCancel else MDrop2) s
  | MCancel => set_main MDrop1 (set_cancelled true s)
  | MDrop1 => set_main MJoin1 (set_lock None s)
  | MJoin1 =>
      match pf_worker s with WExit => set_main (MRet (Err Timeout_err)) s | _ => s end
  | MDrop2 => set_main MJoin2 (set_lock None s)
  | MJoin2 => match pf_worker s with WExit => set_main MLock2 s | _ => s end
  | MLock2 => match pf_lock s with None => set_main MTake (set_lock (Some Main) s) | _ => s end
  | MTake =>
      let r := match pf_slot s with Some r => r | None => Err Timeout_err end in
      set_main (MRet r) (set_slot None (set_lock None s))
  | MRet _ | MDead _ => s
  end.

Definition wake (timed_out : bool) s : pf K T :=
  match pf_main s with MWait => set_main (MReacquire timed_out) s | _ => s end.

Definition pf_step s (e : event) : pf K T :=
  match pf_main s with
  | MDead _ => s
  | _ =>
      match e with
      | StepMain => main_step s
      | StepWorker => worker_step s
      | TimeoutFires => wake true s
      | SpuriousWakeup => wake false s
      end
  end.

Definition pf_init (p : proc K T) : pf K T := MkPf p None false None MLock WStart.

Definition run_events_of (es : list event) (p : proc K T) : pf K T :=
  fold_left pf_step es (pf_init p).

(** [prefetch_with_deadline] under a schedule. *)
Definition prefetch_with_deadline (es : list event) : M (proc K T) (result unit AccessError) :=
  fun p =>
    let s := run_events_of es p in
    match pf_main s with
    | MRet r => Done r (pf_proc s)
    | MDead why => Stop why (pf_proc s)
    | _ => Stop StopDiverge (pf_proc s)
    end.
End Threads.

(** * What holds between any two events *)

Section Proofs.
Context `{PR : Profile} `{SC : Sysconf} `{SCok : !SysconfOk} `{AL : Allocator} `{ALok : !AllocatorOk}.
Context {K T : Type} `{VMK : !VM K} `{PE : !ProcEnv T} `{PEok : !ProcEnvOk T}.
Context (tw : tid) (base_ptr offset len : Z) (timeout : Duration) (p0 : proc K T).
(** The range lies in a mapping. *)
Context (p0_ok : proc_ok p0) (offset_pos : 0 <= offset) (len_pos : 0 <= len) (base_pos : 0 <= base_ptr).
Context (range_max : base_ptr + offset + len <= isize_max).
Implicit Types s : pf K T.

#[local] Abbreviation page := sysconf_pagesize.
#[local] Abbreviation step := (pf_step tw base_ptr offset len timeout).

(** The addresses the walk reads. *)
Definition walk : list Z := (fun o => base_ptr + o) <$> probe_offsets page offset len.

Definition all_touched s : Prop := touch_all walk (p_os p0) = TouchedAll (p_os (pf_proc s)).

(** The first [i] of them have been read. *)
Definition touched s (i : nat) : Prop :=
  (i <= probe_count page len)%nat /\
  touch_all (take i walk) (p_os p0) = TouchedAll (p_os (pf_proc s)).

Definition at_pos s (pos : Z) : Prop := exists i, pos = offset + Z.of_nat i * page /\ touched s i.

(** What the worker's result says. *)
Definition result_ok s (r : result unit AccessError) : Prop :=
  match r with
  | Ok _ => pf_cancelled s = true \/ all_touched s
  | Err (Sigbus a) => touch_all walk (p_os p0) = TouchFault a (p_os (pf_proc s)) /\ covered p0 a = true
  | Err _ => False
  end.

Definition worker_ok s : Prop :=
  match pf_worker s with
  | WStart => p_os (pf_proc s) = p_os p0 /\ pf_slot s = None
  | WTest pos => at_pos s pos /\ pf_slot s = None
  | WFlag pos | WTouch pos => at_pos s pos /\ pos < offset + len /\ pf_slot s = None
  | WLock r => result_ok s r /\ pf_slot s = None
  | WStore r => result_ok s r /\ pf_slot s = None /\ pf_lock s = Some Worker
  | WNotify | WUnlock => (exists r, pf_slot s = Some r /\ result_ok s r) /\ pf_lock s = Some Worker
  | WTls => exists r, pf_slot s = Some r /\ result_ok s r
  | WExit => thread_ptr (pf_proc s) tw = 0 /\
             match pf_slot s with
             | Some r => result_ok s r
             | None => exists r, pf_main s = MRet r
             end
  end.

Definition main_ok s : Prop :=
  match pf_main s with
  | MLock | MWait | MReacquire _ => pf_cancelled s = false /\ pf_lock s <> Some Main
  | MCheck | MDecide _ | MCancel | MDrop2 => pf_cancelled s = false /\ pf_lock s = Some Main
  | MDrop1 => pf_cancelled s = true /\ pf_lock s = Some Main
  | MJoin1 => pf_cancelled s = true /\ pf_lock s <> Some Main
  | MJoin2 => pf_cancelled s = false /\ pf_lock s <> Some Main
  | MLock2 => pf_cancelled s = false /\ pf_lock s = None /\ pf_worker s = WExit
  | MTake => pf_cancelled s = false /\ pf_lock s = Some Main /\ pf_worker s = WExit
  | MRet r => pf_worker s = WExit /\ pf_lock s = None /\
      ((r = Err (Timeout_err offset len timeout) /\ pf_cancelled s = true) \/
       (r = Ok tt /\ all_touched s) \/
       exists a, r = Err (Sigbus a) /\ covered p0 a = true /\
         touch_all walk (p_os p0) = TouchFault a (p_os (pf_proc s)))
  | MDead _ => False
  end.

(** The mutex is the worker's only between its lock and its unlock. *)
Definition lock_ok s : Prop :=
  pf_lock s = Some Worker -> match pf_worker s with WStore _ | WNotify | WUnlock => True | _ => False end.

(** What can end the process: a signal for an access of the walk, and SIGBUS
    only at an address the registry does not hold. *)
Definition walk_death (w : stop_reason) : Prop :=
  w = StopKilled SIGSEGV \/
  (w = StopKilled SIGBUS /\ exists a f (k k' : K),
     a ∈ walk /\ load k a = (k', BusError f) /\ covered p0 f = false).

Definition dead s : Prop := exists w, pf_main s = MDead w /\ walk_death w.

Record pf_inv s : Prop := {
  pi_quiet : quiet tw p0 (p_os (pf_proc s)) (pf_proc s);
  pi_worker : worker_ok s;
  pi_main : main_ok s;
  pi_lock : lock_ok s;
}.

Lemma page_ok : 0 < page <= 2 ^ 62.
Proof. pose proof page_pos. pose proof page_small. lia. Qed.

Lemma pf_init_inv : pf_inv (pf_init p0).
Proof. split; [by apply quiet_refl|done|done|done]. Qed.

Lemma touch_byte_ok pos :
  0 <= pos -> pos < offset + len -> touch_byte base_ptr pos = PLoad (base_ptr + pos) (fun _ => PRet tt).
Proof.
  intros Hp Hlt. unfold touch_byte. unfold isize_max, usize_modulus in *.
  destruct (Z.leb_spec (2 ^ 64) (base_ptr + pos)); [lia|].
  by rewrite andb_false_r, Z.mod_small by lia.
Qed.

Lemma length_walk : length walk = probe_count page len.
Proof. unfold walk, probe_offsets. by rewrite !length_fmap, length_seq. Qed.

Lemma walk_lookup i :
  (i < probe_count page len)%nat -> walk !! i = Some (base_ptr + (offset + Z.of_nat i * page)).
Proof.
  intros Hi. unfold walk, probe_offsets. rewrite !list_lookup_fmap, lookup_seq_lt by done. done.
Qed.

Lemma touch_all_snoc l a (k k1 : K) :
  touch_all l k = TouchedAll k1 -> touch_all (l ++ [a]) k = touch_all [a] k1.
Proof.
  revert k. induction l as [|x l IH]; intros k; cbn [app touch_all]; [by intros [= ->]|].
  destruct (load k x) as [k' []]; [apply IH|done..].
Qed.

Lemma touch_all_fault l a l' (k k1 k2 : K) f :
  touch_all l k = TouchedAll k1 -> load k1 a = (k2, BusError f) ->
  touch_all (l ++ a :: l') k = TouchFault f k2.
Proof.
  revert k. induction l as [|x l IH]; intros k; cbn [app touch_all].
  - intros [= ->] ->. done.
  - destruct (load k x) as [k' []]; [apply IH|done..].
Qed.

(** The worker keeps its facts when main moves the mutex it holds, or sets the
    flag. *)
Lemma worker_frame p sl c c' l l' m m' w :
  worker_ok (MkPf p sl c l m w) ->
  (c = true -> c' = true) -> (l = Some Worker -> l' = Some Worker) ->
  (w = WExit -> sl = None -> exists r, m' = MRet r) ->
  worker_ok (MkPf p sl c' l' m' w).
Proof.
  assert (Hr : forall r, (c = true -> c' = true) ->
    result_ok (MkPf p sl c l m w) r -> result_ok (MkPf p sl c' l' m' w) r).
  { intros [[]|[]] Hc; cbn; try done. intros [H|H]; [left; by apply Hc|by right]. }
  intros Hw Hc Hl Hm. destruct w as [|pos|pos|pos|r|r| | | |]; unfold worker_ok in *; cbn in *.
  - done.
  - done.
  - done.
  - done.
  - destruct Hw as [? ?]. split; [by apply Hr|done].
  - destruct Hw as (? & ? & ?). split_and!; [by apply Hr|done|by apply Hl].
  - destruct Hw as ((r & ? & ?) & ?). split; [exists r; split; [done|by apply Hr]|by apply Hl].
  - destruct Hw as ((r & ? & ?) & ?). split; [exists r; split; [done|by apply Hr]|by apply Hl].
  - destruct Hw as (r & ? & ?). exists r. split; [done|by apply Hr].
  - destruct Hw as [? Hw]. split; [done|]. destruct sl; [by apply Hr|by apply Hm].
Qed.

Lemma main_step_inv s : pf_inv s -> pf_inv (main_step offset len timeout s).
Proof.
  intros [Hq Hw Hm Hlk]. destruct s as [p sl c l m w].
  assert (Hexit : w = WExit -> sl = None -> exists r, m = MRet r).
  { intros -> ->. exact (proj2 Hw). }
  assert (Hfr : forall c' l' m', (c = true -> c' = true) -> (l = Some Worker -> l' = Some Worker) ->
    (w = WExit -> sl = None -> exists r, m' = MRet r) -> worker_ok (MkPf p sl c' l' m' w))
    by (intros; by eapply worker_frame).
  destruct m as [| | |b|b| | | | | | | |r|why]; unfold main_step; cbn in *; unfold main_ok, lock_ok in *; cbn in *.
  - destruct l; [by split|]. destruct Hm as [? _].
    split; [done| |done|done]. apply Hfr; try done. intros E1 E2. by destruct (Hexit E1 E2).
  - destruct Hm as [? ->]. destruct sl; (split; [done| |done|done]);
      apply Hfr; try done; intros E1 E2; by destruct (Hexit E1 E2).
  - by split.
  - destruct l; [by split|]. destruct Hm as [? _].
    split; [done| |done|done]. apply Hfr; try done. intros E1 E2. by destruct (Hexit E1 E2).
  - destruct Hm as [? ->]. destruct (b && _); (split; [done| |done|done]);
      apply Hfr; try done; intros E1 E2; by destruct (Hexit E1 E2).
  - destruct Hm as [? ->]. split; [done| |done|done].
    apply Hfr; try done. intros E1 E2. by destruct (Hexit E1 E2).
  - destruct Hm as [? ->]. split; [done| |done|done].
    apply Hfr; try done. intros E1 E2. by destruct (Hexit E1 E2).
  - destruct Hm as [-> Hl]. destruct w; try by split.
    assert (l = None) as -> by (destruct l as [[]|]; [done|by destruct (Hlk eq_refl)|done]).
    split; [done| |unfold main_ok; cbn; auto|done].
    apply Hfr; [done|done|by eexists].
  - destruct Hm as [? ->]. split; [done| |done|done].
    apply Hfr; try done. intros E1 E2. by destruct (Hexit E1 E2).
  - destruct Hm as [? Hl]. destruct w; try by split.
    assert (l = None) as -> by (destruct l as [[]|]; [done|by destruct (Hlk eq_refl)|done]).
    split; [done| |done|done].
    apply Hfr; [done|done|]. intros E1 E2. by destruct (Hexit E1 E2).
  - destruct Hm as (? & -> & ->). split; [done| |done|done].
    apply Hfr; [done|done|]. intros E1 E2. by destruct (Hexit E1 E2).
  - destruct Hm as (-> & -> & ->). destruct sl as [r|]; [|by destruct (Hexit eq_refl eq_refl)].
    split; [done|by split; [exact (proj1 Hw)|eexists]| |done]. unfold main_ok; cbn. split; [done|]. split; [done|].
    destruct Hw as [_ Hw]. cbn in Hw. destruct r as [[]|[a|? ? ?|?|? ? ?|?]]; try done.
    + right; left. split; [done|]. by destruct Hw.
    + right; right. exists a. by destruct Hw.
  - by split.
  - by split.
Qed.

Lemma wake_inv b s : pf_inv s -> pf_inv (wake b s).
Proof.
  intros [Hq Hw Hm Hlk]. destruct s as [p sl c l m w]. unfold wake. cbn.
  destruct m; try by split. split; [done| |done|done].
  eapply worker_frame; [exact Hw|done|done|]. cbn. intros -> ->. by destruct Hw as [_ []].
Qed.

(** Main keeps its facts while the worker, not yet at its end, moves. *)
Lemma main_frame p p' sl sl' c l l' m w w' :
  main_ok (MkPf p sl c l m w) -> w <> WExit -> (l = Some Main <-> l' = Some Main) ->
  main_ok (MkPf p' sl' c l' m w').
Proof.
  intros Hm Hw Hl. unfold main_ok in *. destruct m; cbn in *; try done; try tauto;
    destruct Hm as (? & ? & ?); tauto.
Qed.

Lemma walk_split i :
  (i < probe_count page len)%nat ->
  walk = take i walk ++ (base_ptr + (offset + Z.of_nat i * page)) :: drop (S i) walk.
Proof. intros Hi. symmetry. apply take_drop_middle. by apply walk_lookup. Qed.

Lemma at_pos_room i : Z.of_nat i * page < len -> (i < probe_count page len)%nat.
Proof.
  intros H. pose proof (probe_count_spec page (proj1 page_ok) len len_pos). pose proof page_ok. nia.
Qed.

Lemma worker_touch_inv p sl c l m pos :
  pf_inv (MkPf p sl c l m (WTouch pos)) ->
  pf_inv (worker_step tw base_ptr offset len (MkPf p sl c l m (WTouch pos))) \/
  dead (worker_step tw base_ptr offset len (MkPf p sl c l m (WTouch pos))).
Proof.
  intros [Hq Hw Hm Hlk]. pose proof Hw as ((i & Hpos & Hi & Ht) & Hlt & Hsl). cbn in Hlt, Hsl, Ht.
  pose proof page_ok as Hpage. pose proof Hq as (_ & Hok & Hot).
  assert (Hroom : (i < probe_count page len)%nat) by (apply at_pos_room; lia).
  unfold worker_step, worker_runs. cbn [pf_worker pf_proc].
  rewrite bind_eq, touch_byte_ok by (lia || nia).
  pose proof (protect_load tw (base_ptr + pos) (fun _ => tt) p Hok) as Hp.
  destruct (load (p_os p) (base_ptr + pos)) as [k' [b|f|]] eqn:El.
  - left. destruct Hp as (p' & -> & Hq'). cbv beta iota. pose proof Hq' as (Hos & _ & _).
    rewrite bind_eq, uadd_ok by (unfold isize_max, usize_modulus in *; lia). rewrite mret_eq.
    split; [|split|by eapply main_frame|done].
    + unfold set_worker, set_proc. cbn. rewrite Hos. cbn in Hq. eapply quiet_trans; [exact Hq|done].
    + exists (S i). split; [lia|]. split; [lia|].
      rewrite (take_S_r _ _ _ (walk_lookup i Hroom)).
      erewrite touch_all_snoc by exact Ht. cbn. rewrite <- Hpos, El. by rewrite Hos.
    + done.
  - cbn [pf_proc] in Hq. rewrite (quiet_covered _ _ _ _ f Hq) in Hp. destruct (covered p0 f) eqn:Hc.
    + left. destruct Hp as (p' & -> & Hq'). cbv beta iota. rewrite mret_eq. pose proof Hq' as (Hos & _ & _).
      split; [|split|by eapply main_frame|done].
      * unfold set_worker, set_proc. cbn. rewrite Hos. eapply quiet_trans; [exact Hq|done].
      * split; [|done]. unfold set_worker, set_proc. cbn.
        rewrite (walk_split i Hroom), Hos. eapply touch_all_fault; [exact Ht|]. by rewrite <- Hpos.
      * done.
    + right. destruct Hp as (p' & ->). eexists. split; [done|]. right. split; [done|].
      exists (base_ptr + pos), f, (p_os p), k'. split_and!; [|done..].
      eapply list_elem_of_lookup_2. rewrite Hpos. by apply walk_lookup.
  - right. destruct Hp as (p' & ->). eexists. split; [done|]. by left.
Qed.

Lemma worker_step_inv s :
  pf_inv s -> pf_inv (worker_step tw base_ptr offset len s) \/ dead (worker_step tw base_ptr offset len s).
Proof.
  intros Hinv. pose proof Hinv as [Hq Hw Hm Hlk]. destruct s as [p sl c l m w].
  pose proof page_ok as Hpage. pose proof Hq as (_ & Hok & Hot). cbn in Hok.
  destruct w as [|pos|pos|pos|r|r| | | |]; [| | |by apply worker_touch_inv|..]; left;
    unfold worker_step, worker_runs; cbn [pf_worker pf_proc pf_cancelled pf_lock pf_main].
  - destruct Hw as [Hos Hsl]. cbn in Hos, Hsl. rewrite bind_eq, install_ok by done. cbv beta iota.
    rewrite page_size_ok. split; [|split|by eapply main_frame|done].
    + eapply quiet_trans; [exact Hq|]. split_and!; [done|by apply installed_ok|apply installed_only].
    + exists O. split; [lia|]. split; [lia|]. cbn. by rewrite Hos.
    + done.
  - destruct Hw as [(i & Hpos & Hi & Ht) Hsl]. cbn in Hsl, Ht.
    rewrite uadd_ok by (unfold isize_max, usize_modulus in *; lia).
    destruct (Z.ltb_spec pos (offset + len)) as [Hlt|Hge];
      (split; [done| |by eapply main_frame|done]).
    + split; [|done]. by exists i.
    + split; [|done]. right. unfold all_touched. cbn.
      assert (Hall : i = length walk).
      { rewrite length_walk. pose proof (probe_count_spec page (proj1 page_ok) len len_pos). nia. }
      rewrite Hall, firstn_all in Ht. exact Ht.
  - destruct Hw as (Hp & Hlt & Hsl). cbn in Hsl.
    destruct c eqn:Hc; (split; [done| |by eapply main_frame|done]); [by split; [left|]|done].
  - destruct Hw as [Hr Hsl]. cbn in Hsl. destruct l as [[]|]; [done..|].
    split; [done|done| |done]. by eapply main_frame.
  - destruct Hw as (Hr & Hsl & Hl). cbn in Hsl, Hl. subst.
    split; [done| |by eapply main_frame|done]. split; [|done]. by exists r.
  - destruct Hw as ((r & Hsl & Hr) & Hl). cbn in Hsl, Hl. subst.
    destruct m; cbn; (split; [done|by split; [exists r|]| |done]); try (by eapply main_frame). exact Hm.
  - destruct Hw as ((r & Hsl & Hr) & Hl). cbn in Hsl, Hl. subst.
    split; [done|by exists r| |done]. by eapply main_frame.
  - destruct Hw as (r & Hsl & Hr). cbn in Hsl. subst.
    destruct (thread_exit_ok tw p Hok) as (p' & -> & Hok' & Hos & Ho & Hz & _).
    pose proof Hq as (Hos0 & _).
    split; [|split; [done|]|by eapply main_frame|done].
    + eapply quiet_trans; [exact Hq|]. cbn. by rewrite Hos.
    + unfold result_ok, all_touched in *. cbn in *. by rewrite Hos.
  - done.
Qed.

Lemma pf_step_inv s e : pf_inv s -> pf_inv (step s e) \/ dead (step s e).
Proof.
  intros Hs. unfold pf_step. destruct (pf_main s); try (by left);
    (destruct e; [left; by apply main_step_inv|by apply worker_step_inv|left; by apply wake_inv|left; by apply wake_inv]).
Qed.

Lemma run_inv es s :
  pf_inv s \/ dead s -> pf_inv (fold_left step es s) \/ dead (fold_left step es s).
Proof.
  revert s. induction es as [|e es IH]; intros s Hs; [done|]. cbn [fold_left]. apply IH.
  destruct Hs as [Hs|(w & Hd & Hf)]; [by apply pf_step_inv|right].
  exists w. split; [|done]. unfold pf_step. by rewrite Hd.
Qed.

(** ** Progress *)

(** The pages left from [pos] on. *)
Definition left_from (pos : Z) : nat := probe_count page (offset + len - pos).

Definition worker_rank (w : worker_pc) : nat :=
  match w with
  | WStart => 3 * probe_count page len + 7
  | WTest pos => 3 * left_from pos + 6
  | WFlag pos => 3 * left_from pos + 5
  | WTouch pos => 3 * left_from pos + 4
  | WLock _ => 5 | WStore _ => 4 | WNotify => 3 | WUnlock => 2 | WTls => 1 | WExit => 0
  end.

Definition main_rank (m : main_pc) : nat :=
  match m with
  | MLock => 12 | MCheck => 11 | MWait => 10 | MReacquire _ => 9 | MDecide _ => 8
  | MCancel => 7 | MDrop1 => 6 | MJoin1 => 5 | MDrop2 => 6 | MJoin2 => 5 | MLock2 => 4
  | MTake => 3 | MRet _ | MDead _ => 0
  end.

Definition measure s : nat :=
  match pf_main s with MDead _ => 0 | m => S (main_rank m + worker_rank (pf_worker s)) end.

Definition settled s : Prop := match pf_main s with MRet _ | MDead _ => True | _ => False end.

(** Main can move. *)
Definition main_enabled s : Prop :=
  match pf_main s with
  | MLock | MReacquire _ | MLock2 => pf_lock s = None
  | MJoin1 | MJoin2 => pf_worker s = WExit
  | MWait | MRet _ | MDead _ => False
  | _ => True
  end.

Lemma main_step_lt s :
  main_enabled s -> (measure (main_step offset len timeout s) < measure s)%nat.
Proof.
  destruct s as [p sl c l m w]. unfold main_enabled, main_step, measure. cbn.
  destruct m as [| | |b|b| | | | | | | |r|why]; cbn; try done; intros He; subst; cbn; try lia.
  - destruct sl; cbn; lia.
  - destruct (b && _); cbn; lia.
Qed.

Lemma main_step_measure s :
  main_step offset len timeout s = s \/
  (measure (main_step offset len timeout s) < measure s)%nat.
Proof.
  assert (main_enabled s \/ main_step offset len timeout s = s) as [He|]; [|right; by apply main_step_lt|by left].
  destruct s as [p sl c l m w]. unfold main_enabled, main_step. cbn.
  destruct m; try (by left); try (by right); first [destruct l; auto; done|destruct w; auto; done].
Qed.

Lemma left_from_step pos : pos < offset + len -> left_from pos = S (left_from (pos + page)).
Proof.
  intros Hlt. unfold left_from. rewrite (probe_count_step page (proj1 page_ok)) by lia.
  by replace (offset + len - (pos + page)) with (offset + len - pos - page) by lia.
Qed.

(** A step of the worker, by the change of its place alone. *)
Lemma measure_worker p p' sl sl' c c' l l' m w w' :
  (worker_rank w' < worker_rank w)%nat -> match m with MDead _ => False | _ => True end ->
  (measure (MkPf p' sl' c' l' m w') < measure (MkPf p sl c l m w))%nat.
Proof. unfold measure. cbn. destruct m; intros; try done; lia. Qed.

(** The worker can move. *)
Definition worker_enabled s : Prop :=
  match pf_worker s with WExit => False | WLock _ => pf_lock s = None | _ => True end /\
  match pf_main s with MDead _ => False | _ => True end.

Lemma worker_step_lt s :
  pf_inv s -> worker_enabled s ->
  (measure (worker_step tw base_ptr offset len s) < measure s)%nat.
Proof.
  intros [Hq Hw Hm Hlk] [He Hnd]. destruct s as [p sl c l m w]. pose proof page_ok as Hpage.
  pose proof Hq as (_ & Hok & Hot). cbn [pf_proc pf_main pf_worker pf_lock] in Hok, Hnd, He.
  destruct w as [|pos|pos|pos|r|r| | | |];
    unfold worker_step, worker_runs; cbn [pf_worker pf_proc pf_cancelled pf_lock pf_main].
  - rewrite bind_eq, install_ok by done. cbv beta iota. rewrite page_size_ok.
    apply measure_worker; [|done]. cbn. unfold left_from.
    replace (offset + len - offset) with len by lia. lia.
  - rewrite uadd_ok by (unfold isize_max, usize_modulus in *; lia).
    destruct (Z.ltb_spec pos (offset + len)); apply measure_worker; cbn; done || lia.
  - destruct Hw as (_ & Hlt & _). pose proof (left_from_step pos Hlt).
    destruct c; apply measure_worker; cbn; done || lia.
  - destruct Hw as ((i & Hpos & _) & Hlt & _). pose proof (left_from_step pos Hlt) as Hleft.
    rewrite bind_eq, touch_byte_ok by (lia || nia).
    pose proof (protect_load tw (base_ptr + pos) (fun _ => tt) p Hok) as Hp.
    destruct (load (p_os p) (base_ptr + pos)) as [k' [b|f|]].
    + destruct Hp as (p' & -> & _). cbv beta iota.
      rewrite bind_eq, uadd_ok by (unfold isize_max, usize_modulus in *; lia). rewrite mret_eq.
      apply measure_worker; [|done]. cbn. lia.
    + destruct (covered p f).
      * destruct Hp as (p' & -> & _). cbv beta iota. rewrite mret_eq.
        apply measure_worker; [|done]. cbn. lia.
      * destruct Hp as (p' & ->). unfold measure. cbn. destruct m; done || lia.
    + destruct Hp as (p' & ->). unfold measure. cbn. destruct m; done || lia.
  - subst. apply measure_worker; [cbn; lia|done].
  - apply measure_worker; [cbn; lia|done].
  - destruct m; cbn; unfold measure; cbn; done || lia.
  - apply measure_worker; [cbn; lia|done].
  - destruct (thread_exit_ok tw p Hok) as (p' & -> & _). apply measure_worker; [cbn; lia|done].
  - done.
Qed.

Lemma worker_step_measure s :
  pf_inv s -> match pf_main s with MDead _ => False | _ => True end ->
  worker_step tw base_ptr offset len s = s \/
  (measure (worker_step tw base_ptr offset len s) < measure s)%nat.
Proof.
  intros Hinv Hnd. destruct (pf_worker s) eqn:Hw;
    try (right; apply worker_step_lt; [done|]; split; [by rewrite Hw|done]).
  - destruct (pf_lock s) eqn:Hl; [left; unfold worker_step; by rewrite Hw, Hl|right].
    apply worker_step_lt; [done|]. split; [by rewrite Hw|done].
  - left. unfold worker_step. by rewrite Hw.
Qed.

Lemma wake_measure b s : wake b s = s \/ (measure (wake b s) < measure s)%nat.
Proof.
  destruct s as [p sl c l m w]. unfold wake, measure. cbn. destruct m; cbn; try (by left). right; lia.
Qed.

Lemma step_measure s e :
  pf_inv s \/ dead s -> step s e = s \/ (measure (step s e) < measure s)%nat.
Proof.
  intros [Hinv|(w & Hd & _)]; [|left; unfold pf_step; by rewrite Hd].
  unfold pf_step. destruct (pf_main s) eqn:Hm; try (by left);
    (destruct e; [apply main_step_measure|apply worker_step_measure; [done|by rewrite Hm]|apply wake_measure..]).
Qed.

(** While main has not returned, it can move, or the worker can, or the
    timeout can fire. *)
Lemma some_event_moves s :
  pf_inv s -> ~ settled s ->
  main_enabled s \/ worker_enabled s \/ pf_main s = MWait.
Proof.
  intros [Hq Hw Hm Hlk] Hns. destruct s as [p sl c l m w]. unfold settled in Hns. cbn in Hns.
  unfold main_enabled, worker_enabled. cbn. unfold lock_ok in Hlk. cbn in Hlk.
  destruct m as [| | |b|b| | | | | | | |r|why]; try (by left); try tauto;
    unfold main_ok in Hm; cbn in Hm.
  - destruct l as [[]|]; [by destruct Hm|right; left|by left].
    specialize (Hlk eq_refl). by destruct w.
  - destruct l as [[]|]; [by destruct Hm|right; left|by left].
    specialize (Hlk eq_refl). by destruct w.
  - destruct w as [|pos|pos|pos|r|r| | | |]; try (right; left; done); [|by left].
    right; left. split; [|done]. destruct l as [[]|]; [by destruct Hm|by destruct (Hlk eq_refl)|done].
  - destruct w as [|pos|pos|pos|r|r| | | |]; try (right; left; done); [|by left].
    right; left. split; [|done]. destruct l as [[]|]; [by destruct Hm|by destruct (Hlk eq_refl)|done].
  - left. by destruct Hm as (_ & -> & _).
Qed.

(** Each thread gets a turn, and the timeout fires. *)
Definition round : list event := [StepMain; StepWorker; TimeoutFires].

Fixpoint rounds (n : nat) : list event :=
  match n with O => [] | S n => round ++ rounds n end.

#[local] Instance settled_dec s : Decision (settled s).
Proof. unfold settled. destruct (pf_main s); apply _. Defined.

Lemma settled_step s e : pf_inv s -> settled s -> step s e = s.
Proof.
  intros [Hq Hw Hm Hlk] Hs. destruct s as [p sl c l m w]. unfold settled in Hs. cbn in Hs.
  unfold pf_step. cbn. destruct m; try done. unfold main_ok in Hm. cbn in Hm.
  destruct Hm as (-> & _). by destruct e.
Qed.

Lemma round_measure s :
  pf_inv s -> settled s \/ (measure (fold_left step round s) < measure s)%nat.
Proof.
  intros Hinv. destruct (decide (settled s)) as [|Hns]; [by left|right].
  assert (Hle : forall s' e, pf_inv s' \/ dead s' ->
    (measure (step s' e) <= measure s')%nat /\ (pf_inv (step s' e) \/ dead (step s' e))).
  { intros s' e H. split.
    - destruct (step_measure s' e H) as [->|]; lia.
    - exact (run_inv [e] s' H). }
  assert (Hnd : match pf_main s with MDead _ => False | _ => True end)
    by (unfold settled in Hns; destruct (pf_main s); tauto).
  cbn [fold_left round].
  destruct (Hle s StepMain (or_introl Hinv)) as [H1 I1].
  destruct (Hle _ StepWorker I1) as [H2 I2]. destruct (Hle _ TimeoutFires I2) as [H3 I3].
  assert (HeqM : step s StepMain = main_step offset len timeout s)
    by (unfold pf_step; by destruct (pf_main s)).
  destruct (some_event_moves s Hinv Hns) as [He|Hrest].
  { pose proof (main_step_lt s He). rewrite HeqM in *. lia. }
  destruct (step_measure s StepMain (or_introl Hinv)) as [E|]; [|lia]. rewrite E in *.
  assert (HeqW : step s StepWorker = worker_step tw base_ptr offset len s)
    by (unfold pf_step; by destruct (pf_main s)).
  destruct Hrest as [He|He].
  { pose proof (worker_step_lt s Hinv He). rewrite HeqW in *. lia. }
  destruct (step_measure s StepWorker (or_introl Hinv)) as [E'|]; [|lia]. rewrite E' in *.
  assert (measure (step s TimeoutFires) < measure s)%nat; [|lia].
  unfold pf_step, wake, measure. rewrite He. cbn. lia.
Qed.

Lemma rounds_settle n s :
  pf_inv s \/ dead s -> (measure s <= n)%nat -> settled (fold_left step (rounds n) s).
Proof.
  revert s. induction n as [|n IH]; intros s Hs Hm.
  - cbn. unfold settled, measure in *. destruct (pf_main s); lia || done.
  - cbn [rounds]. rewrite fold_left_app.
    destruct (decide (settled s)) as [Hset|Hset].
    + assert (Hid : forall es, fold_left step es s = s).
      { intros es. induction es as [|e es IHe]; [done|]. cbn [fold_left].
        destruct Hs as [Hs|(w & Hd & _)]; [by rewrite settled_step|]. unfold pf_step. by rewrite Hd. }
      by rewrite !Hid.
    + destruct Hs as [Hs|(w & Hd & _)]; [|destruct Hset; unfold settled; by rewrite Hd].
      apply IH; [apply run_inv; by left|].
      destruct (round_measure s Hs) as [|]; [done|]. lia.
Qed.

Lemma run_measure es s :
  pf_inv s \/ dead s -> (measure (fold_left step es s) <= measure s)%nat.
Proof.
  revert s. induction es as [|e es IH]; intros s Hs; [done|]. cbn [fold_left].
  pose proof (IH _ (run_inv [e] s Hs)) as H. cbn [fold_left] in H.
  destruct (step_measure s e Hs) as [->|]; [apply IH, Hs|]; lia.
Qed.

Lemma run_start es :
  let s := run_events_of tw base_ptr offset len timeout es p0 in pf_inv s \/ dead s.
Proof. apply run_inv. left. apply pf_init_inv. Qed.

Lemma start_measure : (measure (pf_init p0) = 3 * probe_count page len + 20)%nat.
Proof. unfold measure. cbn. lia. Qed.

(** What a return of [prefetch_with_deadline] says. *)
Definition prefetch_outcome (o : outcome (proc K T) (result unit AccessError)) : Prop :=
  match o with
  | Done r p' => quiet tw p0 (p_os p') p' /\
      match r with
      | Ok _ => touch_all walk (p_os p0) = TouchedAll (p_os p')
      | Err (Sigbus a) => touch_all walk (p_os p0) = TouchFault a (p_os p') /\ covered p0 a = true
      | Err e => e = Timeout offset len timeout
      end
  | Stop w _ => walk_death w
  end.

Lemma deadline_ok es :
  let o := prefetch_with_deadline tw base_ptr offset len timeout es p0 in
  (exists p', o = Stop StopDiverge p') \/ prefetch_outcome o.
Proof.
  unfold prefetch_with_deadline. pose proof (run_start es) as H. cbv zeta in *.
  set (s := run_events_of _ _ _ _ _ es p0) in *. clearbody s.
  destruct H as [[Hq Hw Hm Hlk]|(w & Hd & Hf)]; [|right; rewrite Hd; done].
  unfold main_ok in Hm. destruct (pf_main s) as [| | |b|b| | | | | | | |r|why] eqn:E; try done; try (left; by eexists).
  - right. split; [done|]. destruct Hm as (_ & _ & [[-> _]|[[-> Ht]|(a & -> & Hc & Ht)]]); done.
Qed.

Lemma deadline_returns es n :
  (3 * probe_count page len + 20 <= n)%nat ->
  prefetch_outcome (prefetch_with_deadline tw base_ptr offset len timeout (es ++ rounds n) p0).
Proof.
  intros Hn. destruct (deadline_ok (es ++ rounds n)) as [(p' & E)|H]; [|done]. exfalso.
  unfold prefetch_with_deadline in E. pose proof (run_start (es ++ rounds n)) as Hr. cbv zeta in *.
  assert (Hs : settled (run_events_of tw base_ptr offset len timeout (es ++ rounds n) p0)).
  { unfold run_events_of. rewrite fold_left_app. apply rounds_settle.
    - apply run_inv. left. apply pf_init_inv.
    - pose proof (run_measure es (pf_init p0) (or_introl pf_init_inv)) as Hm.
      rewrite start_measure in Hm. lia. }
  destruct Hr as [[_ _ Hm _]|(w & Hd & Hf)].
  - unfold settled, main_ok in *. by destruct (pf_main (run_events_of _ _ _ _ _ _ _)).
  - rewrite Hd in E. injection E as -> _. by destruct Hf as [|[? _]].
Qed.

Lemma no_worker_step es s :
  StepWorker ∉ es -> pf_worker (fold_left step es s) = pf_worker s.
Proof.
  revert s. induction es as [|e es IH]; intros s Hn; [done|]. cbn [fold_left].
  rewrite IH by set_solver. unfold pf_step, main_step, wake.
  destruct s as [p sl c l m w]. cbn.
  assert (e <> StepWorker) as He by set_solver.
  destruct m; cbn; try done; destruct e; cbn; try done;
    repeat (match goal with |- context [match ?x with _ => _ end] => destruct x end); done.
Qed.

(** ** Properties *)

(** C10 (liveness): the wait always ends: after any sequence of events (timeouts and spurious
    wakeups at any point included), giving the two threads and the timer a
    bounded number of turns makes [prefetch_with_deadline] return, unless the
    process was ended by a signal. There is no deadlock between the mutex, the
    condition variable and the join. *)
Theorem prefetch_returns es n :
  (3 * probe_count page len + 20 <= n)%nat ->
  prefetch_outcome (prefetch_with_deadline tw base_ptr offset len timeout (es ++ rounds n) p0).
Proof. apply deadline_returns. Qed.

(** C11 (safety): whenever [prefetch_with_deadline] has returned, its worker has finished, the
    mutex is free, the worker's thread state is released, and the result is
    right: [Ok] only if every byte of the walk was read, [Sigbus] only for the
    first byte of it that faults. *)
Theorem prefetch_return_is_final es :
  let s := run_events_of tw base_ptr offset len timeout es p0 in
  match pf_main s with
  | MRet r => pf_worker s = WExit /\ pf_lock s = None /\ thread_ptr (pf_proc s) tw = 0 /\
      match r with
      | Ok _ => touch_all walk (p_os p0) = TouchedAll (p_os (pf_proc s))
      | Err (Sigbus a) =>
          touch_all walk (p_os p0) = TouchFault a (p_os (pf_proc s)) /\ covered p0 a = true
      | Err e => e = Timeout offset len timeout /\ pf_cancelled s = true
      end
  | MDead w => walk_death w
  | _ => True
  end.
Proof.
  pose proof (run_start es) as H. cbv zeta in *.
  set (s := run_events_of _ _ _ _ _ es p0) in *. clearbody s.
  destruct H as [[_ Hw Hm _]|(w & -> & Hf)]; [|done]. unfold main_ok in Hm.
  destruct (pf_main s); try done. destruct Hm as (Hx & ? & Hr). unfold worker_ok in Hw. rewrite Hx in Hw.
  split; [done|]. split; [done|]. split; [apply Hw|].
  destruct Hr as [[-> ?]|[[-> ?]|(a & -> & ? & ?)]]; done.
Qed.

(** The deadline is not a bound on the call: as long as the worker makes no
    step (the read of a page is stalled, or its thread is not scheduled),
    [prefetch_with_deadline] does not return, whatever else happens: timeouts
    included, it waits in [join]. *)
Theorem stalled_worker_blocks es es' :
  let s := run_events_of tw base_ptr offset len timeout es p0 in
  pf_worker s <> WExit -> StepWorker ∉ es' ->
  forall r, pf_main (run_events_of tw base_ptr offset len timeout (es ++ es') p0) <> MRet r.
Proof.
  intros s Hne Hes r Hr. pose proof (run_start (es ++ es')) as H. cbv zeta in H.
  destruct H as [[_ _ Hm _]|(w & E & _)]; [|congruence].
  unfold main_ok in Hm. rewrite Hr in Hm. destruct Hm as (Hx & _).
  unfold run_events_of in Hx. rewrite fold_left_app, no_worker_step in Hx by done. by apply Hne.
Qed.

(** Main's wait is over, and the deadline was not found to have passed. *)
Definition past_wait s : Prop :=
  match pf_main s with
  | MReacquire false | MDecide false | MDrop2 | MJoin2 | MLock2 | MTake => pf_cancelled s = false
  | MRet r => pf_cancelled s = false /\ r <> Err (Timeout offset len timeout)
  | MDead _ => True
  | _ => False
  end.

(** A step of the worker leaves main where it is, or ends the process. *)
Lemma worker_keeps_main s :
  match pf_main s with MWait => False | _ => True end ->
  let s' := worker_step tw base_ptr offset len s in
  pf_cancelled s' = pf_cancelled s /\ pf_main s' = pf_main s \/ exists why, pf_main s' = MDead why.
Proof.
  destruct s as [p sl c l m w]. cbn [pf_main]. intros Hnw.
  unfold worker_step, worker_runs. cbn [pf_worker pf_proc pf_lock pf_main pf_cancelled].
  destruct w; try (by left);
    repeat match goal with |- context [match ?x with _ => _ end] => destruct x end;
    (by left) || (right; by eexists).
Qed.

Lemma past_wait_step s e : pf_inv s -> past_wait s -> past_wait (step s e).
Proof.
  intros [_ Hw Hm _] Hp. unfold past_wait in *.
  assert (Hwk : match pf_main s with MWait => False | _ => True end)
    by (destruct (pf_main s); done).
  apply worker_keeps_main in Hwk.
  destruct s as [p sl c l m w]. unfold pf_step.
  cbn [pf_main pf_cancelled] in *. unfold main_ok, worker_ok in *. cbn in Hm, Hw.
  destruct m as [| | |[]|[]| | | | | | | |r|why]; try done; destruct e; cbn; try done;
    try (by destruct Hwk as [[-> ->]|(why & ->)]).
  - by destruct l.
  - by destruct w.
  - by destruct l.
  - destruct Hm as (_ & _ & ->). destruct Hw as [_ Hw]. destruct sl as [r|]; [|by destruct Hw].
    split; [done|]. intros ->. by cbn in Hw.
Qed.

Lemma past_wait_run es s :
  pf_inv s \/ dead s -> past_wait s -> past_wait (fold_left step es s).
Proof.
  revert s. induction es as [|e es IH]; intros s Hi Hp; cbn [fold_left]; [done|].
  apply IH; [exact (run_inv [e] s Hi)|].
  destruct Hi as [Hi|(w & Hd & _)]; [by apply past_wait_step|]. unfold pf_step. by rewrite Hd.
Qed.

(** C40 (error): a spurious wakeup of the condition variable that comes while main waits, at
    any point of the run, ends the wait: whatever happens from then on, the
    worker is never cancelled, and [Timeout] is never returned, however long
    the walk takes and however often the timer fires. *)
Theorem spurious_wakeup_drops_deadline es es' :
  pf_main (run_events_of tw base_ptr offset len timeout es p0) = MWait ->
  let s := run_events_of tw base_ptr offset len timeout (es ++ SpuriousWakeup :: es') p0 in
  match pf_main s with
  | MRet r => pf_cancelled s = false /\ r <> Err (Timeout offset len timeout)
  | MDead w => walk_death w
  | MLock | MCheck | MWait | MCancel | MDrop1 | MJoin1 => False
  | MReacquire timed_out | MDecide timed_out => timed_out = false /\ pf_cancelled s = false
  | _ => pf_cancelled s = false
  end.
Proof.
  intros Hwait s. pose proof (run_start (es ++ SpuriousWakeup :: es')) as Hr.
  cbv zeta in Hr. fold s in Hr.
  assert (Hp : past_wait s).
  { unfold s, run_events_of in *. rewrite fold_left_app. cbn [fold_left].
    pose proof (run_inv es (pf_init p0) (or_introl pf_init_inv)) as H0.
    apply past_wait_run; [exact (run_inv [SpuriousWakeup] _ H0)|].
    destruct H0 as [[_ _ Hm _]|(w & Hd & _)]; [|congruence].
    set (s0 := fold_left _ _ _) in *. clearbody s0. destruct s0 as [p sl c l m w].
    cbn in Hwait. subst m. unfold past_wait. cbn. cbn in Hm. naive_solver. }
  unfold past_wait in Hp.
  destruct (pf_main s) as [| | |[]|[]| | | | | | | |r|why] eqn:E; try done.
  destruct Hr as [[_ _ Hm _]|(w & Hd & Hf)]; [|congruence].
  unfold main_ok in Hm. by rewrite E in Hm.
Qed.
End Proofs.

(** * The method of SafeMmap *)

Section Method.
Context `{PR : Profile} `{LC : Libc} `{SC : Sysconf} `{SCok : !SysconfOk}.
Context `{AL : Allocator} `{ALok : !AllocatorOk}.
Context {K T C : Type} `{VMK : !VM K} `{PE : !ProcEnv T} `{PEok : !ProcEnvOk T}.
Implicit Types m : menv K T C.

Definition prefetch_with_timeout (tw : tid) (es : list event) (offset len : Z) (timeout : Duration) :
    M (menv K T C) (result unit AccessError) :=
  SafeMmap_prefetch_with_timeout
    (fun base offset len timeout => prefetch_with_deadline tw base offset len timeout es)
    offset len timeout.

(** How [prefetch_with_timeout] of a range inside the mapping can end. *)
Definition method_outcome tw offset len timeout m
    (out : outcome (menv K T C) (result unit AccessError)) : Prop :=
  let self := m_self m in
  let walk := walk (raw_ptr (raw self)) offset len in
  match out with
  | Done r m' => quiet tw (m_proc m) (p_os (m_proc m')) (m_proc m') /\
      match r with
      | Ok _ => m' = MkMenv (m_proc m') self (m_user m) /\
          touch_all walk (p_os (m_proc m)) = TouchedAll (p_os (m_proc m'))
      | Err (Sigbus a) => m' = MkMenv (m_proc m') (counted self) (m_user m') /\
          touch_all walk (p_os (m_proc m)) = TouchFault a (p_os (m_proc m')) /\
          run_events (on_event self) (fault_events a self) (m_user m) = Done tt (m_user m')
      | Err e => e = Timeout offset len timeout /\ m' = MkMenv (m_proc m') self (m_user m') /\
          run_events (on_event self) [EvPrefetchTimeout offset len] (m_user m) = Done tt (m_user m')
      end
  | Stop w _ => walk_death (raw_ptr (raw self)) offset len (m_proc m) w
  end.

Lemma prefetch_timeout_ok tw es n offset len timeout m :
  menv_ok m -> poisoned (m_self m) = false -> 0 <= offset -> 0 <= len ->
  (3 * probe_count sysconf_pagesize len + 20 <= n)%nat ->
  let rw := raw (m_self m) in
  let out := prefetch_with_timeout tw (es ++ rounds n) offset len timeout m in
  if raw_len rw <? offset + len
  then out = Done (Err (OutOfBounds offset len (raw_len rw))) m
  else method_outcome tw offset len timeout m out.
Proof.
  intros Hok Hpo Ho Hl Hn rw out. pose proof Hok as [Hp Hwf Hpi Hcb].
  pose proof (RawMmap_wf_usize _ Hwf) as Hu. unfold out, prefetch_with_timeout, SafeMmap_prefetch_with_timeout.
  rewrite try_bind_eq, check_poisoned_eq, Hpo. cbv beta iota.
  rewrite try_bind_eq. unfold self_get, gets. rewrite check_bounds_eq by done. fold rw.
  destruct (Z.ltb_spec (raw_len rw) (offset + len)) as [|Hle]; [done|]. cbv beta iota.
  rewrite bind_eq. cbv beta iota. rewrite bind_eq, on_proc_eq. fold rw. unfold RawMmap_as_ptr.
  assert (Hmax : raw_ptr rw + offset + len <= isize_max /\ 0 <= raw_ptr rw).
  { destruct Hwf as (_ & Hr & _ & Hx). pose proof page_pos.
    pose proof (page_up_bounds sysconf_pagesize (raw_len (raw (m_self m)))). unfold rw in *. lia. }
  pose proof (deadline_returns tw (raw_ptr rw) offset len timeout (m_proc m) Hp Ho Hl
    (proj2 Hmax) (proj1 Hmax) es n Hn) as Hd.
  destruct (prefetch_with_deadline _ _ _ _ _ _ (m_proc m)) as [r p'|w p']; [|exact Hd].
  cbn [prefetch_outcome] in Hd. destruct Hd as [Hq Hr]. cbv beta iota.
  destruct r as [[]|[a|? ? ?|?|o' l' d'|?]]; try done.
  - destruct Hr as [Ht _].
    destruct (record_ok a (MkMenv p' (m_self m) (m_user m)) Hcb) as (u' & E & Hev);
      [apply Hpi|by apply poison_inv_room|]. rewrite bind_eq, E. by split_and!.
  - injection Hr as -> -> ->.
    destruct (emit_ok (EvPrefetchTimeout offset len) (MkMenv p' (m_self m) (m_user m)) Hcb) as (u' & E & Hev).
    rewrite bind_eq, E. by split_and!.
Qed.

(** C12 (functional): [prefetch_with_timeout] on a mapping that is not poisoned, under any
    events followed by enough turns: out of range is refused before a thread
    is started; otherwise it returns, [Ok] only when the walk was read to the
    end, a fault of the worker is counted like a fault of a read, a timeout is
    reported to the callback but not counted, and the registry and the other
    threads are left alone; or a signal ends the process, SIGBUS only for an
    address of the walk that the registry does not hold. *)
Theorem prefetch_method tw es n offset len timeout m :
  menv_ok m -> poisoned (m_self m) = false -> 0 <= offset -> 0 <= len ->
  (3 * probe_count sysconf_pagesize len + 20 <= n)%nat ->
  let out := prefetch_with_timeout tw (es ++ rounds n) offset len timeout m in
  if raw_len (raw (m_self m)) <? offset + len
  then out = Done (Err (OutOfBounds offset len (raw_len (raw (m_self m))))) m
  else method_outcome tw offset len timeout m out.
Proof. apply prefetch_timeout_ok. Qed.
End Method.
