(* ===== verification/Open.v ===== *)
(** Opening and dropping a mapping (src/src/mmap/mod.rs): the builder
    [SafeMmapOptions], [open], and [Drop for SafeMmap]. The descriptor and the
    raw mapping are values with destructors, so every early return of [open]
    closes what it had opened. *)

From stdpp Require Import prelude gmap strings.
From Stdlib Require Import ZArith Lia.
From S2P Require Import Prelude Errors Env SysMmap Registry Signal Probe SafeMmap.

Record SafeMmapOptions (C : Type) := {
  so_writable : bool;
  so_shared : bool;
  so_offset : Z;
  so_len : option Z;
  so_max_sigbus : Z;
  so_populate : bool;
  so_on_event : option (EventCallback C);
  so_flock : bool;
}.
Arguments so_writable {C}.
Arguments so_shared {C}.
Arguments so_offset {C}.
Arguments so_len {C}.
Arguments so_max_sigbus {C}.
Arguments so_populate {C}.
Arguments so_on_event {C}.
Arguments so_flock {C}.

Definition is_none {A} (o : option A) : bool := match o with None => true | Some _ => false end.

Section Builder.
Context {C : Type}.
Implicit Types o : SafeMmapOptions C.

Definition SafeMmapOptions_new : SafeMmapOptions C :=
  {| so_writable := false; so_shared := false; so_offset := 0; so_len := None;
     so_max_sigbus := DEFAULT_MAX_SIGBUS; so_populate := false; so_on_event := None;
     so_flock := false |}.

Definition SafeMmapOptions_writable (writable : bool) o : SafeMmapOptions C :=
  {| so_writable := writable; so_shared := so_shared o; so_offset := so_offset o;
     so_len := so_len o; so_max_sigbus := so_max_sigbus o; so_populate := so_populate o;
     so_on_event := so_on_event o; so_flock := so_flock o |}.
Definition SafeMmapOptions_shared (shared : bool) o : SafeMmapOptions C :=
  {| so_writable := so_writable o; so_shared := shared; so_offset := so_offset o;
     so_len := so_len o; so_max_sigbus := so_max_sigbus o; so_populate := so_populate o;
     so_on_event := so_on_event o; so_flock := so_flock o |}.
Definition SafeMmapOptions_offset (offset : Z) o : SafeMmapOptions C :=
  {| so_writable := so_writable o; so_shared := so_shared o; so_offset := offset;
     so_len := so_len o; so_max_sigbus := so_max_sigbus o; so_populate := so_populate o;
     so_on_event := so_on_event o; so_flock := so_flock o |}.
Definition SafeMmapOptions_len (len : Z) o : SafeMmapOptions C :=
  {| so_writable := so_writable o; so_shared := so_shared o; so_offset := so_offset o;
     so_len := Some len; so_max_sigbus := so_max_sigbus o; so_populate := so_populate o;
     so_on_event := so_on_event o; so_flock := so_flock o |}.
Definition SafeMmapOptions_max_sigbus (max : Z) o : SafeMmapOptions C :=
  {| so_writable := so_writable o; so_shared := so_shared o; so_offset := so_offset o;
     so_len := so_len o; so_max_sigbus := max; so_populate := so_populate o;
     so_on_event := so_on_event o; so_flock := so_flock o |}.
Definition SafeMmapOptions_populate (populate : bool) o : SafeMmapOptions C :=
  {| so_writable := so_writable o; so_shared := so_shared o; so_offset := so_offset o;
     so_len := so_len o; so_max_sigbus := so_max_sigbus o; so_populate := populate;
     so_on_event := so_on_event o; so_flock := so_flock o |}.
Definition SafeMmapOptions_on_event (callback : EventCallback C) o : SafeMmapOptions C :=
  {| so_writable := so_writable o; so_shared := so_shared o; so_offset := so_offset o;
     so_len := so_len o; so_max_sigbus := so_max_sigbus o; so_populate := so_populate o;
     so_on_event := Some callback; so_flock := so_flock o |}.
Definition SafeMmapOptions_flock (lock : bool) o : SafeMmapOptions C :=
  {| so_writable := so_writable o; so_shared := so_shared o; so_offset := so_offset o;
     so_len := so_len o; so_max_sigbus := so_max_sigbus o; so_populate := so_populate o;
     so_on_event := so_on_event o; so_flock := lock |}.
End Builder.

Section Open.
Context `{PR : Profile} `{TG : Target} `{LC : Libc} `{SC : Sysconf} `{AL : Allocator}.
Context {K T C : Type} `{VMK : !VM K} `{FSK : !FS K} `{PE : !ProcEnv T}.
Local Abbreviation P := (M (proc K T)).

Definition os {A} (f : M K A) : P A := zoom os_lens f.

(** [file] goes out of scope. *)
Definition close_file (file : Z) : P unit := os (call (fun k => sys_close k file)).

(** The advisory lock of [open]. *)
Definition lock_file (o : SafeMmapOptions C) (file : Z) : P (result unit MmapError) :=
  if so_flock o then
    let op := if so_writable o then Z.lor LOCK_EX LOCK_NB else Z.lor LOCK_SH LOCK_NB in
    ret ← os (call (fun k => sys_flock k file op));
    if negb (ret =? 0) then e ← os last_os_error; mret (Err (MmapIo e)) else mret (Ok tt)
  else mret (Ok tt).

(** [map_len]. *)
Definition mapping_len (o : SafeMmapOptions C) (file_len : Z) : P (result Z MmapError) :=
  match so_len o with
  | Some len => mret (Ok len)
  | None =>
      if file_len <=? so_offset o then mret (Err (OffsetBeyondFile (so_offset o) file_len))
      else n ← usub file_len (so_offset o); mret (Ok n)
  end.

(** The builder calls of [open]. *)
Definition raw_options (o : SafeMmapOptions C) (file map_len : Z) : MmapOptions :=
  let protection := if so_writable o then ProtReadWrite else ProtRead in
  let visibility := if so_shared o then Shared else Private in
  let opts := MmapOptions_visibility visibility (MmapOptions_protection protection
    (MmapOptions_offset (so_offset o) (MmapOptions_fd file (MmapOptions_new map_len)))) in
  if so_populate o then MmapOptions_populate opts else opts.

Definition fresh_mapping (o : SafeMmapOptions C) (r : RawMmap) (p : Path) (fd : Z) : SafeMmap C :=
  {| raw := r; path := p; file := fd; sigbus_count := 0; poisoned := false;
     max_sigbus := so_max_sigbus o; on_event := so_on_event o |}.

(** The end of [open]: the mapping exists, the handler and the registry come
    to know it. *)
Definition map_and_register (o : SafeMmapOptions C) (path : Path) (file map_len : Z) :
    P (result (SafeMmap C) MmapError) :=
  raw ←? (r ← os (MmapOptions_map (raw_options o file map_len));
          mret (map_err MmapError_from_io r));
  on_unwind (os (RawMmap_drop raw)) (
    _ ← install_handler;
    _ ← register_region (RawMmap_as_ptr raw) (RawMmap_len raw);
    mret (Ok (fresh_mapping o raw path file))).

Definition SafeMmapOptions_open (o : SafeMmapOptions C) (path : Path) :
    P (result (SafeMmap C) MmapError) :=
  file ←? (r ← os (call (fun k => sys_open k path (so_writable o)));
           mret (map_err MmapError_from_io r));
  unless_moved (close_file file) (
    _ ←? lock_file o file;
    file_len ←? (r ← os (call (fun k => sys_fstat k file)); mret (map_err MmapError_from_io r));
    if (file_len =? 0) && is_none (so_len o) then mret (Err EmptyFile)
    else
      map_len ←? mapping_len o file_len;
      if map_len =? 0 then mret (Err EmptyFile)
      else map_and_register o path file map_len).

Definition SafeMmap_open (path : Path) : P (result (SafeMmap C) MmapError) :=
  SafeMmapOptions_open SafeMmapOptions_new path.

Definition SafeMmap_options : SafeMmapOptions C := SafeMmapOptions_new.

(** The fields with destructors, in their order. *)
Definition drop_fields (self : SafeMmap C) : P unit :=
  _ ← os (RawMmap_drop (raw self));
  close_file (file self).

Definition SafeMmap_drop (self : SafeMmap C) : P unit :=
  _ ← on_unwind (drop_fields self) (unregister_region (RawMmap_as_ptr (raw self)));
  drop_fields self.
End Open.

(** * What opening gives *)

Section Proofs.
Context `{PR : Profile} `{TG : Target} `{LC : Libc} `{SC : Sysconf} `{AL : Allocator}.
Context {K T C : Type} `{VMK : !VM K} `{FSK : !FS K} `{PE : !ProcEnv T}.
Context `{SCok : !SysconfOk} `{ALok : !AllocatorOk} `{PEok : !ProcEnvOk T} `{MO : !MmapOk K}.
Implicit Types (p : proc K T) (o : SafeMmapOptions C) (self : SafeMmap C).

(** What the builder's fields may hold. *)
Definition options_fit o : Prop :=
  is_usize (so_offset o) /\ is_u32 (so_max_sigbus o) /\
  match so_len o with Some len => is_usize len | None => True end.

Lemma os_eq {A} (f : M K A) p :
  os f p = match f (p_os p) with Done a k => Done a (set_os k p) | Stop w k => Stop w (set_os k p) end.
Proof. reflexivity. Qed.

Lemma os_call_eq {A} (f : K -> K * A) p :
  os (call f) p = let '(k, a) := f (p_os p) in Done a (set_os k p).
Proof. unfold os, zoom, call. cbn. by destruct (f (p_os p)). Qed.

Lemma set_os_ok k p : proc_ok p -> proc_ok (set_os k p).
Proof. by intros []. Qed.

Lemma set_os_set_os k k' p : set_os k (set_os k' p) = set_os k p.
Proof. reflexivity. Qed.

Lemma RawMmap_wf_fits r : RawMmap_wf r -> mutation_fits (Register (raw_ptr r) (raw_len r)).
Proof.
  intros Hwf. pose proof (RawMmap_wf_len _ Hwf). destruct Hwf as (_ & Hp & _ & Hu).
  pose proof page_pos. pose proof (page_up_bounds sysconf_pagesize (raw_len r)).
  cbn. unfold is_usize, usize_modulus, isize_max in *. lia.
Qed.

(** A mutation of the registry, in the process. *)
Lemma registry_step (m : mutation) p :
  proc_ok p -> mutation_fits m ->
  exists r', zoom registry_lens (mutate m) p = Done tt (set_registry r' p) /\
    proc_ok (set_registry r' p) /\ regions r' = apply_mutation m (regions (p_registry p)).
Proof.
  intros [[Hr Hm] ? ? ? ?] Hf. destruct (mutate_ok m (p_registry p) Hr Hm Hf)
    as (r' & E & Hr' & Hm' & Hl).
  exists r'. unfold zoom. cbn [lget lset registry_lens]. rewrite E.
  split; [done|]. by split.
Qed.

(** The last steps of [open]. *)
Lemma arm_ok r p :
  proc_ok p -> RawMmap_wf r ->
  exists p', (_ ← install_handler; register_region (raw_ptr r) (raw_len r)) p = Done tt p' /\
    proc_ok p' /\ p_os p' = p_os p /\
    regions (p_registry p') = regions (p_registry p) ++ [region_of r].
Proof.
  intros Hok Hwf. rewrite bind_eq, install_ok by done.
  destruct (registry_step (Register (raw_ptr r) (raw_len r)) (installed p)) as (r' & E & Hok' & Hr).
  { by apply installed_ok. } { by apply RawMmap_wf_fits. }
  eexists. split; [exact E|]. by split_and!.
Qed.

(** The length to map, or why there is none. *)
Definition open_len o (file_len : Z) : result Z MmapError :=
  match so_len o with
  | Some n => if n =? 0 then Err EmptyFile else Ok n
  | None =>
      if file_len =? 0 then Err EmptyFile
      else if file_len <=? so_offset o then Err (OffsetBeyondFile (so_offset o) file_len)
      else Ok (file_len - so_offset o)
  end.

(** [open] as a sequence of system calls on the kernel alone: what it asks
    for, in which order, and that each failure after the first call ends by
    closing the descriptor. *)
Definition open_kernel o (pa : Path) (k : K) : K * result (RawMmap * Z) MmapError :=
  match sys_open k pa (so_writable o) with
  | (k, Err e) => (k, Err (MmapIo e))
  | (k, Ok fd) =>
      let fail k e := (fst (sys_close k fd), Err e) in
      let '(k, locked) :=
        if so_flock o
        then sys_flock k fd (Z.lor (if so_writable o then LOCK_EX else LOCK_SH) LOCK_NB)
        else (k, 0) in
      if negb (locked =? 0) then fail k (MmapIo (OsError (errno k)))
      else match sys_fstat k fd with
      | (k, Err e) => fail k (MmapIo e)
      | (k, Ok flen) =>
          match open_len o flen with
          | Err e => fail k e
          | Ok n =>
              match MmapOptions_map (raw_options o fd n) k with
              | Done (Ok r) k => (k, Ok (r, fd))
              | Done (Err e) k => fail k (MmapIo e)
              | Stop _ k => fail k EmptyFile    (* not reached: [map] returns *)
              end
          end
      end
  end.

Lemma unless_moved_eq {S A E} (d : M S unit) (m : M S (result A E)) s :
  unless_moved d m s =
    match m s with
    | Done (Ok a) s' => Done (Ok a) s'
    | Done (Err e) s' => match d s' with Done _ s'' => Done (Err e) s'' | Stop w s'' => Stop w s'' end
    | Stop w s' => on_unwind d (fun s => Stop w s) s'
    end.
Proof.
  unfold unless_moved. rewrite bind_eq. unfold on_unwind.
  destruct (m s) as [[a|e] s'|[] s']; try done. by destruct (d s').
Qed.

Lemma close_eq fd p : close_file fd p = Done tt (set_os (fst (sys_close (p_os p) fd)) p).
Proof.
  unfold close_file. rewrite os_call_eq. by destruct (sys_close (p_os p) fd) as [k []].
Qed.

(** The length checks of [open], in their order. *)
Lemma open_len_eq o flen p (k : Z -> M (proc K T) (result (SafeMmap C) MmapError)) :
  options_fit o -> is_usize flen ->
  (if (flen =? 0) && is_none (so_len o) then mret (Err EmptyFile)
   else
     map_len ←? mapping_len o flen;
     if map_len =? 0 then mret (Err EmptyFile) else k map_len) p =
  match open_len o flen with Ok n => k n p | Err e => Done (Err e) p end.
Proof.
  intros ([Hoff _] & _) [_ Hu]. unfold mapping_len, open_len, is_none.
  destruct (so_len o) as [n|].
  - rewrite andb_false_r, try_bind_eq. cbn. by destruct (n =? 0).
  - rewrite andb_true_r. destruct (flen =? 0); [done|]. rewrite try_bind_eq.
    destruct (Z.leb_spec flen (so_offset o)); [done|].
    rewrite bind_eq, usub_ok by lia. cbn. by destruct (Z.eqb_spec (flen - so_offset o) 0); [lia|].
Qed.

Lemma open_len_nonneg o flen n : options_fit o -> open_len o flen = Ok n -> 0 <= n.
Proof.
  intros (_ & _ & Hl). unfold open_len. destruct (so_len o) as [m|].
  - destruct (m =? 0); [done|]. intros [= <-]. apply Hl.
  - destruct (flen =? 0); [done|]. destruct (Z.leb_spec flen (so_offset o)); [done|].
    intros [= <-]. lia.
Qed.

Lemma map_returns opts (k : K) :
  exists r k', MmapOptions_map opts k = Done r k'.
Proof.
  rewrite map_ok_cases. destruct (_ =? 0); [eauto|]. destruct (negb _); [eauto|].
  destruct (sys_mmap _ _ _ _ _ _ _) as [k' q]. destruct (_ =? _); eauto.
Qed.

Lemma map_wf opts (k : K) r k' :
  0 <= mo_len opts -> MmapOptions_map opts k = Done (Ok r) k' ->
  RawMmap_wf r /\ raw_len r = mo_len opts /\
  raw_writable r = Protection_is_writable (mo_protection opts).
Proof.
  intros Hl. rewrite map_ok_cases. destruct (Z.eqb_spec (mo_len opts) 0); [done|].
  destruct (negb _); [done|]. destruct (sys_mmap _ _ _ _ _ _ _) as [k2 q] eqn:E.
  destruct (Z.eqb_spec q MAP_FAILED) as [|Hq]; [done|]. intros [= <- <-].
  pose proof (mmap_ok _ _ _ _ _ _ _ _ E Hq ltac:(lia)) as (? & ? & ?).
  unfold RawMmap_wf. cbn. split_and!; done || lia.
Qed.

Lemma raw_options_fields o fd n :
  mo_len (raw_options o fd n) = n /\
  mo_protection (raw_options o fd n) = (if so_writable o then ProtReadWrite else ProtRead) /\
  mo_visibility (raw_options o fd n) = (if so_shared o then Shared else Private) /\
  mo_fd (raw_options o fd n) = Some fd /\ mo_offset (raw_options o fd n) = so_offset o /\
  mo_populate (raw_options o fd n) = so_populate o.
Proof. unfold raw_options. by destruct (so_populate o). Qed.

(** What a return of [open] means for the process. *)
Definition open_outcome o (pa : Path) p (r : K * result (RawMmap * Z) MmapError)
    (out : outcome (proc K T) (result (SafeMmap C) MmapError)) : Prop :=
  match r with
  | (k', Ok (rw, fd)) => exists p', out = Done (Ok (fresh_mapping o rw pa fd)) p' /\
      p_os p' = k' /\ proc_ok p' /\
      regions (p_registry p') = regions (p_registry p) ++ [region_of rw]
  | (k', Err e) => out = Done (Err e) (set_os k' p)
  end.

Lemma map_and_register_ok o pa fd n p :
  proc_ok p -> 0 <= n ->
  match MmapOptions_map (raw_options o fd n) (p_os p) with
  | Done (Ok r) k => exists p', map_and_register o pa fd n p = Done (Ok (fresh_mapping o r pa fd)) p' /\
      p_os p' = k /\ proc_ok p' /\ regions (p_registry p') = regions (p_registry p) ++ [region_of r]
  | Done (Err e) k => map_and_register o pa fd n p = Done (Err (MmapIo e)) (set_os k p)
  | Stop _ _ => False
  end.
Proof.
  intros Hok Hn. destruct (map_returns (raw_options o fd n) (p_os p)) as (r & k & E).
  rewrite E. unfold map_and_register. rewrite try_bind_eq, bind_eq, os_eq, E. destruct r as [r|e]; [|done].
  destruct (map_wf _ _ _ _ ltac:(by rewrite (proj1 (raw_options_fields o fd n))) E) as (Hwf & _).
  destruct (arm_ok r (set_os k p) (set_os_ok _ _ Hok) Hwf) as (p' & Ea & Hok' & Hos & Hr).
  exists p'. cbv beta iota. unfold mret at 1, M_ret. cbn [map_err]. cbv beta iota. unfold on_unwind.
  rewrite bind_eq in Ea. rewrite bind_eq. destruct (install_handler (set_os k p)) as [[] q|]; [|done].
  unfold RawMmap_as_ptr, RawMmap_len. by rewrite bind_eq, Ea.
Qed.

(** [lock_file], on the kernel. *)
Lemma lock_file_eq o fd p :
  lock_file o fd p =
    let '(k, locked) :=
      if so_flock o
      then sys_flock (p_os p) fd (Z.lor (if so_writable o then LOCK_EX else LOCK_SH) LOCK_NB)
      else (p_os p, 0) in
    Done (if negb (locked =? 0) then Err (MmapIo (OsError (errno k))) else Ok tt) (set_os k p).
Proof.
  unfold lock_file. destruct (so_flock o); [|by destruct p].
  rewrite bind_eq, os_call_eq.
  replace (if so_writable o then Z.lor LOCK_EX LOCK_NB else Z.lor LOCK_SH LOCK_NB)
    with (Z.lor (if so_writable o then LOCK_EX else LOCK_SH) LOCK_NB) by by destruct (so_writable o).
  destruct (sys_flock _ _ _) as [k ret]. by destruct (negb _).
Qed.

Lemma open_ok `{FSO : !FSOk K} o pa p :
  proc_ok p -> options_fit o ->
  open_outcome o pa p (open_kernel o pa (p_os p)) (SafeMmapOptions_open o pa p).
Proof.
  intros Hok Hfit. unfold SafeMmapOptions_open, open_kernel.
  rewrite try_bind_eq, bind_eq, os_call_eq.
  destruct (sys_open (p_os p) pa (so_writable o)) as [k0 [fd|e]]; [|done].
  cbv beta iota. unfold mret at 1, M_ret. cbn [map_err]. cbv beta iota zeta.
  rewrite unless_moved_eq, try_bind_eq, lock_file_eq. cbn [p_os set_os].
  destruct (if so_flock o then _ else _) as [k1 locked].
  destruct (negb (locked =? 0)); [by rewrite close_eq|]. cbv beta iota.
  rewrite try_bind_eq, bind_eq, os_call_eq. cbn [p_os set_os].
  destruct (sys_fstat k1 fd) as [k2 [flen|e]] eqn:Hst; cbv beta iota;
    unfold mret at 1, M_ret; cbn [map_err]; cbv beta iota; [|by rewrite close_eq].
  rewrite !set_os_set_os, open_len_eq by (done || by eapply fstat_len).
  destruct (open_len o flen) as [n|e] eqn:Hn; [|by rewrite close_eq].
  pose proof (map_and_register_ok o pa fd n (set_os k2 p) (set_os_ok _ _ Hok)
    (open_len_nonneg _ _ _ Hfit Hn)) as Hm. cbn [p_os set_os] in Hm.
  destruct (MmapOptions_map (raw_options o fd n) k2) as [[r|e] k3|]; [| |done].
  - destruct Hm as (p' & -> & Hos & Hok' & Hr). by exists p'.
  - rewrite Hm, close_eq. done.
Qed.

(** What a successful [open] hands out. *)
Lemma open_kernel_wf o pa (k : K) k' rw fd :
  options_fit o -> open_kernel o pa k = (k', Ok (rw, fd)) ->
  RawMmap_wf rw /\ raw_writable rw = so_writable o /\ (sysconf_pagesize | so_offset o) /\
  exists k0 k1 flen, sys_open k pa (so_writable o) = (k0, Ok fd) /\
    (exists k2, sys_fstat k1 fd = (k2, Ok flen)) /\
    raw_len rw = match so_len o with Some n => n | None => flen - so_offset o end.
Proof.
  intros Hfit. unfold open_kernel. destruct (sys_open _ _ _) as [k0 [fd'|e]] eqn:Ho; [|done].
  destruct (if so_flock o then _ else _) as [k1 locked]. destruct (negb _); [done|].
  destruct (sys_fstat k1 fd') as [k2 [flen|e]] eqn:Hst; [|done].
  destruct (open_len o flen) as [n|e] eqn:Hn; [|done].
  destruct (MmapOptions_map _ k2) as [[r|e] k3|] eqn:Hm; [|done..]. intros [= -> -> ->].
  destruct (raw_options_fields o fd n) as (Hl & Hpr & _ & _ & Hoff & _).
  pose proof (open_len_nonneg _ _ _ Hfit Hn) as Hn0.
  destruct (map_wf _ _ _ _ ltac:(by rewrite Hl) Hm) as (Hwf & Hlen & Hw).
  split; [done|]. split; [by rewrite Hw, Hpr; destruct (so_writable o)|]. split.
  - rewrite map_ok_cases, Hoff in Hm. pose proof page_pos. destruct (_ =? 0); [done|].
    destruct (Z.eqb_spec (so_offset o mod sysconf_pagesize) 0) as [Hd|]; [|done].
    apply Z.mod_divide in Hd; [done|lia].
  - exists k0, k1, flen. split; [done|]. split; [by eexists|]. rewrite Hlen, Hl.
    unfold open_len in Hn. destruct (so_len o) as [m|].
    + destruct (m =? 0); [done|]. by injection Hn.
    + destruct (flen =? 0); [done|]. destruct (flen <=? so_offset o); [done|]. by injection Hn.
Qed.

Lemma drop_raw_eq raw (p : proc K T) :
  os (RawMmap_drop raw) p = Done tt (set_os (fst (sys_munmap (p_os p) (raw_ptr raw) (raw_len raw))) p).
Proof.
  unfold RawMmap_drop. rewrite os_eq, bind_eq. unfold call. by destruct (sys_munmap _ _ _).
Qed.

(** The memory and the descriptor of a mapping, given back: first the one, then
    the other. *)
Definition given_back raw fd p : proc K T :=
  set_os (fst (sys_close (fst (sys_munmap (p_os p) (raw_ptr raw) (raw_len raw))) fd)) p.

Lemma drop_both raw fd p :
  (_ ← os (RawMmap_drop raw); close_file fd) p = Done tt (given_back raw fd p).
Proof. by rewrite bind_eq, drop_raw_eq, close_eq. Qed.

Lemma drop_ok self p :
  proc_ok p ->
  exists p', SafeMmap_drop self p = Done tt p' /\ proc_ok p' /\
    p_os p' = fst (sys_close (fst (sys_munmap (p_os p) (raw_ptr (raw self)) (raw_len (raw self))))
                    (file self)) /\
    regions (p_registry p') = filter (fun r => region_start r <> raw_ptr (raw self))
                                (regions (p_registry p)).
Proof.
  intros Hok. destruct (registry_step (Unregister (raw_ptr (raw self))) p Hok I) as (r' & E & Hok' & Hr).
  unfold SafeMmap_drop. rewrite bind_eq. unfold on_unwind, unregister_region, RawMmap_as_ptr.
  cbn [mutate] in E. rewrite E. cbv beta iota. unfold drop_fields. rewrite drop_both.
  eexists. split; [done|]. by split_and!; [apply set_os_ok| |].
Qed.

(** A drop that cannot unregister the region: a panic unwinds through the
    fields, and nothing else gives the memory back. *)
Lemma drop_stuck self p p' why :
  unregister_region (raw_ptr (raw self)) p = Stop why p' ->
  p_os p' = p_os p /\
  SafeMmap_drop self p =
    Stop why (match why with StopPanic => given_back (raw self) (file self) p' | _ => p' end).
Proof.
  intros E. split.
  - revert E. unfold unregister_region, zoom. by destruct (unregister _ _); intros [= _ <-].
  - unfold SafeMmap_drop. rewrite bind_eq. unfold on_unwind, RawMmap_as_ptr. rewrite E.
    destruct why; try done. unfold drop_fields. by rewrite drop_both.
Qed.

Lemma open_menv_ok `{FSO : !FSOk K} o pa p self p' u :
  proc_ok p -> options_fit o ->
  match so_on_event o with Some f => forall e u, exists u', f e u = Done tt u' | None => True end ->
  SafeMmapOptions_open o pa p = Done (Ok self) p' -> menv_ok (MkMenv p' self u).
Proof.
  intros Hok Hfit Hcb E. pose proof (open_ok o pa p Hok Hfit) as H.
  destruct (open_kernel o pa (p_os p)) as [k' [[rw fd]|e]] eqn:Ek; cbn in H; rewrite E in H; [|done].
  destruct H as (p2 & [= -> ->] & Hos & Hok' & Hr).
  destruct (open_kernel_wf _ _ _ _ _ _ Hfit Ek) as (Hwf & _).
  split; cbn; [done..| |done]. destruct Hfit as (_ & Hm & _).
  split; cbn; [done|split; [done|lia]|unfold is_u32 in Hm; lia].
Qed.

Lemma region_of_covers rw a :
  raw_ptr rw <= a < raw_ptr rw + raw_len rw <-> in_region a (region_of rw) = true.
Proof. unfold in_region, region_of. cbn. rewrite andb_true_iff. lia. Qed.
End Proofs.

(** * Properties *)

Section Theorems.
Context `{PR : Profile} `{TG : Target} `{LC : Libc} `{SC : Sysconf} `{AL : Allocator}.
Context {K T C : Type} `{VMK : !VM K} `{FSK : !FS K} `{PE : !ProcEnv T}.
Context `{SCok : !SysconfOk} `{ALok : !AllocatorOk} `{PEok : !ProcEnvOk T} `{MO : !MmapOk K}.
Context `{FSO : !FSOk K}.
Implicit Types (p : proc K T) (o : SafeMmapOptions C) (self : SafeMmap C).

(** C13 (refinement): [open] makes the system calls of [open_kernel], in that order, never
    panics, and returns its result; it installs the handler and registers the
    mapping exactly when there is one. A failure after the file was opened
    ends by closing the descriptor, and leaves no mapping and no region. *)
Theorem open_refines o pa p :
  proc_ok p -> options_fit o ->
  open_outcome o pa p (open_kernel o pa (p_os p)) (SafeMmapOptions_open o pa p).
Proof. apply open_ok. Qed.

(** C14 (functional): a mapping that [open] returns is well formed, unpoisoned with no
    faults, writable exactly when asked, as long as asked (or the rest of the
    file from the offset), at an offset that is a multiple of the page size;
    every byte of it is covered by the registry, and it can be accessed. *)
Theorem open_success o pa p self p' u :
  proc_ok p -> options_fit o ->
  match so_on_event o with Some f => forall e u, exists u', f e u = Done tt u' | None => True end ->
  SafeMmapOptions_open o pa p = Done (Ok self) p' ->
  menv_ok (MkMenv p' self u) /\ poisoned self = false /\ sigbus_count self = 0 /\
  max_sigbus self = so_max_sigbus o /\ path self = pa /\
  raw_writable (raw self) = so_writable o /\ (sysconf_pagesize | so_offset o) /\
  (forall a, raw_ptr (raw self) <= a < raw_ptr (raw self) + raw_len (raw self) -> covered p' a = true) /\
  exists flen k1 k2, sys_fstat k1 (file self) = (k2, Ok flen) /\
    raw_len (raw self) = match so_len o with Some n => n | None => flen - so_offset o end.
Proof.
  intros Hok Hfit Hcb E. pose proof (open_ok o pa p Hok Hfit) as H.
  destruct (open_kernel o pa (p_os p)) as [k' [[rw fd]|e]] eqn:Ek; cbn in H; rewrite E in H; [|done].
  destruct H as (p2 & [= -> ->] & Hos & Hok' & Hr).
  destruct (open_kernel_wf _ _ _ _ _ _ Hfit Ek) as (Hwf & Hw & Hd & k0 & k1 & flen & _ & [k2 Hst] & Hl).
  pose proof (open_menv_ok o pa p _ _ u Hok Hfit Hcb E). cbn. split_and!; try done.
  - intros a Ha. unfold covered. rewrite Hr, existsb_app. cbn.
    apply region_of_covers in Ha. rewrite Ha. by rewrite orb_true_r.
  - by exists flen, k1, k2.
Qed.

(** which error a length and an offset give, once the file is open: no bytes to
    map is [EmptyFile], an offset at or past the end of a non-empty file is
    [OffsetBeyondFile] (no length given), an unaligned offset is an
    [InvalidInput] I/O error; in each case the descriptor is closed and
    nothing was mapped. *)
Theorem open_errors o pa p k1 fd k2 flen :
  proc_ok p -> options_fit o -> so_flock o = false ->
  sys_open (p_os p) pa (so_writable o) = (k1, Ok fd) -> sys_fstat k1 fd = (k2, Ok flen) ->
  let fails e := SafeMmapOptions_open o pa p = Done (Err e) (set_os (fst (sys_close k2 fd)) p) in
  ((so_len o = None /\ flen = 0) \/ so_len o = Some 0 -> fails EmptyFile) /\
  (so_len o = None /\ 0 < flen <= so_offset o -> fails (OffsetBeyondFile (so_offset o) flen)) /\
  ((so_len o = None /\ so_offset o < flen) \/ (exists n, so_len o = Some n /\ 0 < n) ->
    ~ (sysconf_pagesize | so_offset o) ->
    fails (MmapIo (NewError InvalidInput (unaligned_message (so_offset o) sysconf_pagesize)))).
Proof.
  intros Hok Hfit Hlock Ho Hst fails. pose proof (open_ok o pa p Hok Hfit) as H.
  unfold open_kernel in H. rewrite Ho, Hlock in H. cbn [negb Z.eqb] in H. rewrite Hst in H.
  assert (Hlen : forall e, open_len o flen = Err e -> fails e) by (intros e E; by rewrite E in H).
  destruct Hfit as ([Hoff _] & _ & Hfit). split_and!.
  - intros Hc. apply Hlen. unfold open_len. by destruct Hc as [[-> ->]| ->].
  - intros [E Hc]. apply Hlen. unfold open_len. rewrite E.
    destruct (Z.eqb_spec flen 0); [lia|]. by destruct (Z.leb_spec flen (so_offset o)); [|lia].
  - intros Hc Hd. assert (exists n, open_len o flen = Ok n /\ 0 < n) as (n & En & Hn).
    { unfold open_len. destruct Hc as [[-> Hc]|(n & -> & Hn)].
      - destruct (Z.eqb_spec flen 0); [lia|]. destruct (Z.leb_spec flen (so_offset o)); [lia|].
        exists (flen - so_offset o). split; [done|lia].
      - exists n. by destruct (Z.eqb_spec n 0); [lia|]. }
    rewrite En, map_ok_cases in H. destruct (raw_options_fields o fd n) as (Hl' & _ & _ & _ & Hoff' & _).
    rewrite Hl', Hoff' in H. pose proof page_pos. destruct (Z.eqb_spec n 0); [lia|].
    destruct (Z.eqb_spec (so_offset o mod sysconf_pagesize) 0) as [Hm|]; [|done].
    destruct Hd. apply Z.mod_divide in Hm; [done|lia].
Qed.

(** C35 (roundtrip): dropping a mapping right after opening it returns, with the
    mapping unmapped, then the descriptor closed, and the registry as it was
    before [open] (if no region started at the same address). The region is
    unregistered before anything else: in whatever state of the process that
    step goes wrong, the kernel has not been called yet; a panic there still
    unmaps and closes on its way out, and nothing else does. *)
Theorem drop_undoes_open o pa p self p' :
  proc_ok p -> options_fit o -> SafeMmapOptions_open o pa p = Done (Ok self) p' ->
  (forall r, r ∈ regions (p_registry p) -> region_start r <> raw_ptr (raw self)) ->
  (exists p'', SafeMmap_drop self p' = Done tt p'' /\ proc_ok p'' /\
     regions (p_registry p'') = regions (p_registry p) /\
     p_os p'' = fst (sys_close (fst (sys_munmap (p_os p') (raw_ptr (raw self)) (raw_len (raw self))))
                      (file self))) /\
  (forall (q : proc K T) why q', unregister_region (raw_ptr (raw self)) q = Stop why q' ->
     p_os q' = p_os q /\
     SafeMmap_drop self q =
       Stop why (match why with StopPanic => given_back (raw self) (file self) q' | _ => q' end)).
Proof.
  intros Hok Hfit E Hnew. split; [|intros q why q'; apply drop_stuck].
  pose proof (open_ok o pa p Hok Hfit) as H.
  destruct (open_kernel o pa (p_os p)) as [k' [[rw fd]|e]] eqn:Ek; cbn in H; rewrite E in H; [|done].
  destruct H as (p2 & [= -> ->] & Hos & Hok' & Hr). cbn [raw fresh_mapping] in *.
  destruct (drop_ok (fresh_mapping o rw pa fd) p2 Hok') as (p3 & Ed & Hok3 & Hos3 & Hr3).
  exists p3. split_and!; [done|done| |done]. rewrite Hr3, Hr, filter_app. cbn.
  rewrite decide_False by tauto. rewrite app_nil_r. by apply filter_all.
Qed.
End Theorems.
