(* ===== verification/Space.v ===== *)
(** The address space of the process: which addresses the mappings of the crate
    hold, as their opens and drops (src/src/mmap/mod.rs, src/src/sys/mmap.rs) map
    and unmap whole pages. [space_ok] is the invariant that the files about many
    mappings share. *)

From stdpp Require Import prelude gmap strings.
From Stdlib Require Import ZArith Lia.
From S2P Require Import Prelude Errors Env SysMmap Registry Signal Probe SafeMmap Open.

(** * The pages of mappings *)

Section Pages.
Context `{SC : Sysconf}.
Implicit Types (r : RawMmap) (rs : list RawMmap).

Definition occupies r (x : Z) : Prop := in_pages (raw_ptr r) (raw_len r) x.

(** They share no page. *)
Definition apart r r' : Prop := forall x, occupies r x -> ~ occupies r' x.

Fixpoint all_apart rs : Prop :=
  match rs with
  | [] => True
  | r :: rs => Forall (apart r) rs /\ all_apart rs
  end.

#[global] Instance apart_sym : Symmetric apart.
Proof. intros r r' H x Hx Hx'. by apply (H x). Qed.

#[global] Instance all_apart_perm : Proper ((≡ₚ) ==> iff) all_apart.
Proof.
  assert (Himpl : forall rs rs', rs ≡ₚ rs' -> all_apart rs -> all_apart rs').
  { induction 1 as [|r rs rs' Hp IH|r r' rs|rs rs' rs2 _ IH1 _ IH2]; cbn; [done| |..].
    - intros [H1 H2]. split; [by rewrite <- Hp|by apply IH].
    - rewrite !Forall_cons. intros ([H1 H2] & H3 & H4). by split_and!.
    - intros H. by apply IH2, IH1. }
  intros rs rs' Hp. split; by apply Himpl.
Qed.

Lemma wf_occupies `{!SysconfOk} r a : RawMmap_wf r -> raw_ptr r <= a < raw_ptr r + raw_len r -> occupies r a.
Proof.
  intros (_ & _ & Hl & _) Ha. unfold occupies, in_pages.
  pose proof (page_up_bounds sysconf_pagesize (raw_len r)). pose proof page_pos. lia.
Qed.

Lemma wf_occupies_start `{!SysconfOk} r : RawMmap_wf r -> occupies r (raw_ptr r).
Proof. intros Hwf. apply wf_occupies; [done|]. destruct Hwf as (_ & _ & ? & _). lia. Qed.

Lemma apart_starts `{!SysconfOk} r r' :
  RawMmap_wf r -> RawMmap_wf r' -> apart r r' -> raw_ptr r <> raw_ptr r'.
Proof.
  intros Hr Hr' Ha E. apply (Ha (raw_ptr r)); [by apply wf_occupies_start|]. rewrite E. by apply wf_occupies_start.
Qed.

Lemma apart_nodup `{!SysconfOk} rs : Forall RawMmap_wf rs -> all_apart rs -> NoDup (raw_ptr <$> rs).
Proof.
  induction rs as [|r rs IH]; [constructor|]. intros [Hr Hrs]%Forall_cons [Ha Has]. rewrite fmap_cons.
  apply NoDup_cons. split; [|by apply IH]. intros (r' & E & Hr')%list_elem_of_fmap.
  rewrite Forall_forall in Hrs, Ha. by apply (apart_starts r r'); [|apply Hrs|apply Ha|].
Qed.
End Pages.

(** * The calls that map and unmap *)

Section Space.
Context `{PR : Profile} `{TG : Target} `{LC : Libc} `{SC : Sysconf} {K : Type}.
Context `{VMK : !VM K} `{FSK : !FS K} `{SCok : !SysconfOk} `{LCok : !LibcOk} `{MO : !MmapOk K} `{ML : !MapLaws K}.
Implicit Types (k : K) (r : RawMmap) (rs : list RawMmap).

Lemma accesses_mapped k k' : accesses k k' -> forall x, mapped k' x <-> mapped k x.
Proof.
  induction 1 as [|k1 k2 k3 Hs _ IH]; [done|]. intros x. rewrite IH.
  destruct Hs; [by eapply load_mapped|by eapply store_mapped].
Qed.

(** A mapping that the kernel has just made. *)
Definition newly_mapped r k k' : Prop :=
  forall x, (occupies r x -> ~ mapped k x) /\ (mapped k' x <-> occupies r x \/ mapped k x).

Lemma map_mapped opts k res k' :
  0 <= mo_len opts -> MmapOptions_map opts k = Done res k' ->
  match res with
  | Ok r => newly_mapped r k k'
  | Err _ => forall x, mapped k' x <-> mapped k x
  end.
Proof.
  rewrite map_ok_cases. intros Hlen. destruct (Z.eqb_spec (mo_len opts) 0); [by intros [= <- <-]|].
  destruct (negb _); [by intros [= <- <-]|].
  destruct (sys_mmap _ _ _ _ _ _ _) as [k2 q] eqn:E.
  destruct (Z.eqb_spec q MAP_FAILED) as [->|Hq]; intros [= <- <-].
  - by eapply mmap_failed.
  - intros x. eapply mmap_fresh; [exact E|done|apply mmap_flags_not_fixed|cbn; lia].
Qed.

(** The kernel does not refuse to unmap pages that are mapped. *)
Definition munmap_succeeds : Prop :=
  forall k p len k' ret, sys_munmap k p len = (k', ret) -> (sysconf_pagesize | p) -> 0 < len ->
    (forall x, in_pages p len x -> mapped k x) -> ret = 0.

(** From the kernel [k0] on, the crate has made the mappings [rs]: they share no
    page and are mapped; what was mapped before still is, and is none of them;
    and nothing else is, if [munmap] does not fail. *)
Record space_ok k0 rs k : Prop := {
  sp_apart : all_apart rs;
  sp_mapped : forall r x, r ∈ rs -> occupies r x -> mapped k x;
  sp_others : forall x, mapped k0 x -> mapped k x /\ forall r, r ∈ rs -> ~ occupies r x;
  sp_exact : munmap_succeeds -> forall x, mapped k x -> mapped k0 x \/ exists r, r ∈ rs /\ occupies r x;
}.

Lemma space_start k : space_ok k [] k.
Proof. split; cbn; [done|set_solver|intros x Hx; by split; [|set_solver]|by left]. Qed.

#[global] Instance space_ok_perm k0 : Proper ((≡ₚ) ==> (=) ==> iff) (space_ok k0).
Proof.
  assert (Himpl : forall rs rs' k, rs ≡ₚ rs' -> space_ok k0 rs k -> space_ok k0 rs' k).
  { intros rs rs' k Hp [Ha Hm Ho He]. split; [by rewrite <- Hp|..].
    - intros r x. rewrite <- Hp. apply Hm.
    - intros x Hx. split; [by apply Ho|]. intros r. rewrite <- Hp. by apply Ho.
    - intros Hu x Hx. destruct (He Hu x Hx) as [|(r & Hr & ?)]; [by left|right].
      exists r. by rewrite <- Hp. }
  intros rs rs' Hp k ? <-. split; by apply Himpl.
Qed.

Lemma space_keep k0 rs k k' :
  space_ok k0 rs k -> (forall x, mapped k' x <-> mapped k x) -> space_ok k0 rs k'.
Proof.
  intros [Ha Hm Ho He] Hx. split; [done|..].
  - intros r x Hr Hh. apply Hx. by eapply Hm.
  - intros x H0. rewrite Hx. by apply Ho.
  - intros Hu x. rewrite Hx. by apply He.
Qed.

Lemma space_map k0 rs k r k' :
  space_ok k0 rs k -> newly_mapped r k k' -> space_ok k0 (r :: rs) k'.
Proof.
  intros [Ha Hm Ho He] Hn. split.
  - split; [|done]. apply Forall_forall. intros r' Hr' x Hx Hx'. apply Hn in Hx. apply Hx. by eapply Hm.
  - intros r' x [->|Hr']%elem_of_cons Hx; apply Hn; [by left|right; by eapply Hm].
  - intros x H0. destruct (Ho x H0) as [Hk Hr]. split; [apply Hn; by right|].
    intros r' [->|Hr']%elem_of_cons; [|by apply Hr]. intros Hx. by apply Hn in Hx.
  - intros Hu x Hx. apply Hn in Hx as [Hx|Hx]; [right; exists r; by split; [left|]|].
    destruct (He Hu x Hx) as [|(r' & Hr' & ?)]; [by left|right]. exists r'. by split; [right|].
Qed.

(** The drop of a [RawMmap]: its own length, from its own start. *)
Lemma space_unmap k0 rs k r :
  RawMmap_wf r -> space_ok k0 (r :: rs) k -> space_ok k0 rs (fst (sys_munmap k (raw_ptr r) (raw_len r))).
Proof.
  intros (Hd & _ & Hl & _) [[Ha1 Ha2] Hm Ho He]. rewrite Forall_forall in Ha1.
  destruct (sys_munmap _ _ _) as [k' ret] eqn:E. cbn [fst].
  pose proof (munmap_pages _ _ _ _ _ E Hd Hl) as Hu. fold (occupies r) in Hu.
  assert (Hkeep : forall x, mapped k x -> ~ occupies r x -> mapped k' x) by (intros x Hx Hn; by apply (Hu x)).
  split; [done|..].
  - intros r' x Hr' Hx. apply Hkeep; [by apply (Hm r'); [right|]|]. intros Hx'. by apply (Ha1 r' Hr' x).
  - intros x H0. destruct (Ho x H0) as [Hk Hr]. split; [apply Hkeep; [done|apply Hr; by left]|].
    intros r' Hr'. apply Hr. by right.
  - intros Hs x Hx. assert (ret = 0) as ->.
    { apply (Hs _ _ _ _ _ E Hd Hl). intros y Hy. apply (Hm r); [by left|exact Hy]. }
    assert (Hn : ~ occupies r x) by (intros Hh; by apply (Hu x) in Hx as [_ ?]).
    apply (proj1 (Hu x) Hn) in Hx. destruct (He Hs x Hx) as [|(r' & [->|Hr']%elem_of_cons & Hh)]; [by left|done|].
    right. by exists r'.
Qed.
End Space.
