(* ===== verification/System.v ===== *)
(** The process as a whole: any number of mappings, opened, accessed, reset and
    dropped in any order by any thread, over one registry and one handler.
    A [SafeMmap] is owned, so the mappings that exist are a list, and a dropped
    one is gone from it. src/src/mmap/mod.rs, src/src/signal/mod.rs, and the
    test helpers of src/src/lib.rs. *)

From stdpp Require Import prelude gmap strings.
From Stdlib Require Import ZArith Lia.
From S2P Require Import Prelude Errors Env SysMmap Registry Signal Probe SafeMmap Open Space.

(** * lib.rs: signal_test_helpers *)

Section Helpers.
Context `{PR : Profile} `{AL : Allocator} {K T : Type} `{PE : !ProcEnv T}.

Definition register_and_install (start len : Z) : M (proc K T) unit :=
  _ ← install_handler;
  register_region start len.

(** [signal_test_helpers::unregister]. *)
Definition helper_unregister (start : Z) : M (proc K T) unit := unregister_region start.

(** [signal_test_helpers::guard]. *)
Definition helper_guard (r : RawMmap) : M (proc K T) ReadGuard := ReadGuard_new r.
End Helpers.

(** * Lives of mappings *)

Record world (K T C : Type) := MkWorld {
  w_proc : proc K T;
  w_live : list (SafeMmap C);
  w_user : C;
}.
Arguments MkWorld {K T C}.
Arguments w_proc {K T C}.
Arguments w_live {K T C}.
Arguments w_user {K T C}.

Inductive sys_op {C : Type} :=
  | SysOpen (o : SafeMmapOptions C) (pa : Path)
  | SysAccess (t : tid) (i : nat) (op : checked_op)
  | SysReset (i : nat)
  | SysDrop (i : nat)
  | SysExit (t : tid).    (* a thread ends *)
Arguments sys_op : clear implicits.

Section Run.
Context `{PR : Profile} `{TG : Target} `{LC : Libc} `{SC : Sysconf} `{AL : Allocator}.
Context {K T C : Type} `{VMK : !VM K} `{FSK : !FS K} `{PE : !ProcEnv T}.
Implicit Types (w : world K T C).

(** A method of the [i]-th mapping. *)
Definition with_live {A} (i : nat) (f : M (menv K T C) A) : M (world K T C) unit := fun w =>
  match w_live w !! i with
  | None => Done tt w
  | Some self =>
      match f (MkMenv (w_proc w) self (w_user w)) with
      | Done _ m => Done tt (MkWorld (m_proc m) (<[i := m_self m]> (w_live w)) (m_user m))
      | Stop why m => Stop why (MkWorld (m_proc m) (<[i := m_self m]> (w_live w)) (m_user m))
      end
  end.

Definition run_sys_op (op : sys_op C) : M (world K T C) unit :=
  match op with
  | SysOpen o pa => fun w =>
      match SafeMmapOptions_open o pa (w_proc w) with
      | Done (Ok self) p => Done tt (MkWorld p (w_live w ++ [self]) (w_user w))
      | Done (Err _) p => Done tt (MkWorld p (w_live w) (w_user w))
      | Stop why p => Stop why (MkWorld p (w_live w) (w_user w))
      end
  | SysAccess t i op => with_live i (run_op t op)
  | SysReset i => with_live i SafeMmap_reset_poison
  | SysDrop i => fun w =>
      match w_live w !! i with
      | None => Done tt w
      | Some self =>
          match SafeMmap_drop self (w_proc w) with
          | Done _ p => Done tt (MkWorld p (delete i (w_live w)) (w_user w))
          | Stop why p => Stop why (MkWorld p (delete i (w_live w)) (w_user w))
          end
      end
  | SysExit t => fun w =>
      match thread_exit t (w_proc w) with
      | Done _ p => Done tt (MkWorld p (w_live w) (w_user w))
      | Stop why p => Stop why (MkWorld p (w_live w) (w_user w))
      end
  end.

Fixpoint run_sys (ops : list (sys_op C)) : M (world K T C) unit :=
  match ops with [] => mret tt | op :: ops => _ ← run_sys_op op; run_sys ops end.

Definition sys_op_fits (op : sys_op C) : Prop :=
  match op with
  | SysOpen o _ => options_fit o /\
      match so_on_event o with Some f => forall e u, exists u', f e u = Done tt u' | None => True end
  | SysAccess _ _ op => op_fits op
  | SysReset _ | SysDrop _ | SysExit _ => True
  end.
End Run.

(** * The registry is the list of live mappings *)

Section Proofs.
Context `{PR : Profile} `{TG : Target} `{LC : Libc} `{SC : Sysconf} `{AL : Allocator}.
Context {K T C : Type} `{VMK : !VM K} `{FSK : !FS K} `{PE : !ProcEnv T}.
Context `{SCok : !SysconfOk} `{ALok : !AllocatorOk} `{PEok : !ProcEnvOk T} `{MO : !MmapOk K}.
Context `{FSO : !FSOk K} `{LCok : !LibcOk} `{ML : !MapLaws K} (k0 : K).
Implicit Types (w : world K T C) (k : K).

Definition start_of (self : SafeMmap C) : Z := raw_ptr (raw self).

(** A mapping that can be used. *)
Definition live_ok (self : SafeMmap C) : Prop :=
  RawMmap_wf (raw self) /\ poison_inv self /\ callback_returns self.

Record world_ok w : Prop := {
  wo_proc : proc_ok (w_proc w);
  wo_regions : regions (p_registry (w_proc w)) = (fun s => region_of (raw s)) <$> w_live w;
  wo_space : space_ok k0 (raw <$> w_live w) (p_os (w_proc w));
  wo_live : forall s, s ∈ w_live w -> live_ok s;
}.

(** [open] keeps the mappings of the process, and its own is a new one. *)
Lemma open_mapped_ok (o : SafeMmapOptions C) pa k k' r :
  options_fit o -> open_kernel o pa k = (k', r) ->
  match r with
  | Ok (rw, _) => newly_mapped rw k k'
  | Err _ => forall x, mapped k' x <-> mapped k x
  end.
Proof.
  intros Hfit.
  assert (Hclose : forall k fd x, mapped (fst (sys_close k fd)) x <-> mapped k x).
  { intros kc fd x. destruct (sys_close kc fd) eqn:E. by eapply close_mapped. }
  unfold open_kernel. destruct (sys_open _ _ _) as [ko [fd|e]] eqn:Eo;
    pose proof (open_mapped _ _ _ _ _ Eo) as H0; [|by intros [= <- <-]].
  destruct (if so_flock o then _ else _) as [k1 locked] eqn:El.
  assert (H1 : forall x, mapped k1 x <-> mapped k x).
  { intros x. rewrite <- H0. destruct (so_flock o); [by eapply flock_mapped|by injection El as <- _]. }
  destruct (negb _); [intros [= <- <-] x; by rewrite Hclose|].
  destruct (sys_fstat k1 fd) as [k2 [flen|e]] eqn:Ef; pose proof (fstat_mapped _ _ _ _ Ef) as H2;
    [|intros [= <- <-] x; by rewrite Hclose, H2].
  destruct (open_len o flen) as [n|e] eqn:En; [|intros [= <- <-] x; by rewrite Hclose, H2].
  destruct (MmapOptions_map _ k2) as [r' k3|] eqn:Em.
  - apply map_mapped in Em; [|destruct (raw_options_fields o fd n) as (-> & _); by eapply open_len_nonneg].
    destruct r' as [rw|e]; intros [= <- <-].
    + intros x. destruct (Em x) as [Hn Hx]. rewrite Hx, <- H1, <- H2. split; [exact Hn|done].
    + intros x. by rewrite Hclose, Em, H2.
  - exfalso. destruct (map_returns (raw_options o fd n) k2) as (? & ? & E). congruence.
Qed.

Lemma filter_starts (l : list (SafeMmap C)) i self :
  NoDup (start_of <$> l) -> l !! i = Some self ->
  filter (fun r => region_start r <> start_of self) ((fun s => region_of (raw s)) <$> l) =
    (fun s => region_of (raw s)) <$> delete i l.
Proof.
  intros Hnd Hi. rewrite delete_take_drop, <- (take_drop_middle l i self Hi) at 1.
  rewrite <- (take_drop_middle l i self Hi), fmap_app, fmap_cons in Hnd.
  apply NoDup_app in Hnd as (_ & Hd1 & Hnd). apply NoDup_cons in Hnd as [Hd2 _].
  rewrite !fmap_app, fmap_cons, filter_app, filter_cons. rewrite decide_False by (cbn; tauto).
  f_equal; apply filter_all; intros r (s & -> & Hs)%list_elem_of_fmap; cbn; intros E.
  - apply (Hd1 (start_of s)); [by apply list_elem_of_fmap_2|]. unfold start_of in *. rewrite E.
    apply list_elem_of_here.
  - apply Hd2. unfold start_of in *. rewrite <- E. by apply (list_elem_of_fmap_2 start_of).
Qed.

Lemma world_starts w : world_ok w -> NoDup (start_of <$> w_live w).
Proof.
  intros [_ _ [Ha _ _ _] Hl]. change (start_of <$> w_live w) with (raw_ptr ∘ raw <$> w_live w).
  rewrite list_fmap_compose. apply apart_nodup; [|done].
  apply Forall_fmap, Forall_forall. intros s Hs. by apply Hl.
Qed.

Lemma only_thread_refl t (p : proc K T) : only_thread t p p.
Proof. by split. Qed.

(** A mapping changed, but not where it is. *)
Lemma world_update t i self w m :
  world_ok w -> w_live w !! i = Some self -> menv_ok m -> only_thread t (w_proc w) (m_proc m) ->
  accesses (p_os (w_proc w)) (p_os (m_proc m)) -> raw (m_self m) = raw self ->
  world_ok (MkWorld (m_proc m) (<[i := m_self m]> (w_live w)) (m_user m)).
Proof.
  intros [Hp Hr Hsp Hl] Hi [Hp' Hwf Hpi Hcb] [Hreg _] Ha Hraw.
  assert (Hsame : forall {B} (g : RawMmap -> B),
    (fun s : SafeMmap C => g (raw s)) <$> <[i := m_self m]> (w_live w) =
    (fun s : SafeMmap C => g (raw s)) <$> w_live w).
  { intros B g. rewrite list_fmap_insert, Hraw. apply list_insert_id.
    by rewrite list_lookup_fmap, Hi. }
  split; cbn.
  - done.
  - by rewrite Hreg, Hr, (Hsame _ region_of).
  - rewrite (Hsame _ (fun r => r) : raw <$> _ = raw <$> _). by eapply space_keep, accesses_mapped.
  - intros s Hin. apply list_elem_of_lookup in Hin as [j Hj].
    apply list_lookup_insert_Some in Hj as [(-> & <- & _)|[_ Hj]]; [done|].
    by apply Hl, (list_elem_of_lookup_2 _ j).
Qed.

Lemma live_menv w i self :
  world_ok w -> w_live w !! i = Some self -> menv_ok (MkMenv (w_proc w) self (w_user w)).
Proof.
  intros [Hp _ _ Hl] Hi. destruct (Hl self (list_elem_of_lookup_2 _ _ _ Hi)) as (? & ? & ?).
  by split.
Qed.

Lemma open_world o pa w :
  world_ok w -> sys_op_fits (SysOpen o pa) ->
  exists w', run_sys_op (SysOpen o pa) w = Done tt w' /\ world_ok w'.
Proof.
  intros [Hp Hr Hsp Hl] [Hfit Hcb]. cbn [run_sys_op].
  pose proof (open_ok o pa (w_proc w) Hp Hfit) as H.
  destruct (open_kernel o pa (p_os (w_proc w))) as [k' [[rw fd]|e]] eqn:Ek; cbn [open_outcome] in H;
    pose proof (open_mapped_ok _ _ _ _ _ Hfit Ek) as Hmap.
  - destruct H as (p' & -> & Hos & Hok' & Hr'). eexists. split; [done|].
    destruct (open_kernel_wf _ _ _ _ _ _ Hfit Ek) as (Hwf & _). split; cbn.
    + done.
    + by rewrite Hr', Hr, fmap_app.
    + rewrite Hos, fmap_app, (Permutation_app_comm (raw <$> _)). by eapply space_map.
    + intros s [Hin| ->%list_elem_of_singleton]%elem_of_app; [by apply Hl|].
      split; [done|]. split; [|done]. destruct Hfit as (_ & Hmax & _).
      split; cbn; [done|split; [done|lia]|unfold is_u32 in Hmax; lia].
  - rewrite H. eexists. split; [done|]. split; cbn; [by apply set_os_ok|done|by eapply space_keep|done].
Qed.

Lemma drop_world i w :
  world_ok w -> exists w', run_sys_op (SysDrop i) w = Done tt w' /\ world_ok w'.
Proof.
  intros Hw. pose proof Hw as [Hp Hr Hsp Hl]. cbn [run_sys_op].
  destruct (w_live w !! i) as [self|] eqn:Hi; [|by eexists].
  destruct (drop_ok self (w_proc w) Hp) as (p' & -> & Hok' & Hos & Hr').
  eexists. split; [done|]. split; cbn.
  - done.
  - rewrite Hr', Hr. apply filter_starts; [by apply world_starts|done].
  - rewrite Hos. destruct (sys_close _ (file self)) as [k2 r2] eqn:Ec. cbn [fst].
    eapply space_keep; [|by eapply close_mapped]. apply space_unmap; [by apply Hl, (list_elem_of_lookup_2 _ i)|].
    by rewrite (delete_Permutation _ _ _ Hi), fmap_cons in Hsp.
  - intros s Hin. apply Hl. by eapply sublist_subseteq, Hin; apply sublist_delete.
Qed.

Lemma sys_op_ok op w :
  world_ok w -> sys_op_fits op ->
  (exists w', run_sys_op op w = Done tt w' /\ world_ok w') \/
  (exists why w', run_sys_op op w = Stop why w' /\ fatal why).
Proof.
  intros Hw Hf. destruct op as [o pa|t i op|i|i|t].
  - left. by apply open_world.
  - cbn [run_sys_op]. unfold with_live. destruct (w_live w !! i) as [self|] eqn:Hi; [|left; by eexists].
    destruct (op_ok t op _ (live_menv _ _ _ Hw Hi) Hf)
      as [(r & m & -> & Hok & Ht & Ha & Hraw & _)|(why & m & -> & Hfa)]; [left|right; by do 2 eexists].
    eexists. split; [done|]. by eapply world_update.
  - left. cbn [run_sys_op]. unfold with_live. destruct (w_live w !! i) as [self|] eqn:Hi; [|by eexists].
    eexists. split; [done|]. destruct (live_menv _ _ _ Hw Hi) as [Hp Hwf [Hmax _ _] Hcb].
    eapply (world_update 0 _ _ _ (MkMenv (w_proc w) (set_sigbus_count 0 (set_poisoned false self)) (w_user w)));
      [done|done| |apply only_thread_refl|apply rtc_refl|done].
    split; [done|done| |done]. split; cbn; [done|split; [done|lia]|lia].
  - left. by apply drop_world.
  - left. cbn [run_sys_op]. destruct Hw as [Hp Hr Hsp Hl].
    destruct (thread_exit_ok t _ Hp) as (p' & -> & Hok' & Hos & [Hreg _] & _).
    eexists. split; [done|]. split; cbn; [done|by rewrite Hreg|by rewrite Hos|done].
Qed.

Lemma run_sys_ok ops w :
  world_ok w -> Forall sys_op_fits ops ->
  (exists w', run_sys ops w = Done tt w' /\ world_ok w') \/
  (exists why w', run_sys ops w = Stop why w' /\ fatal why).
Proof.
  revert w. induction ops as [|op ops IH]; intros w Hw Hf; [left; by eexists|].
  apply Forall_cons in Hf as [Ho Hf]. cbn [run_sys]. rewrite bind_eq.
  destruct (sys_op_ok op w Hw Ho) as [(w1 & -> & Hw1)|(why & w1 & -> & Hfa)]; [|right; by do 2 eexists].
  by apply IH.
Qed.

(** A process at its start. *)
Definition boot (k : K) (e : T) (u : C) : world K T C := MkWorld (proc_init k e) [] u.

Lemma boot_ok e u :
  snd (sys_sigaction e) = 0 -> fst (snd (pthread_key_create (fst (sys_sigaction e)))) = 0 ->
  world_ok (boot k0 e u).
Proof.
  intros H1 H2. split; cbn; [by apply proc_init_ok|done|apply space_start|]. intros s Hs; set_solver.
Qed.

(** Through any sequence of opens, accesses, resets and drops of any
    number of mappings by any threads, and of thread exits, from the start of the process, either
    a default signal action or an abort ended the process, or: the addresses
    the handler intercepts are exactly those of the mappings that are live,
    no two of which start at the same address, each live mapping is well
    formed and its poison flag agrees with its count. No step panics, uses a
    freed snapshot or thread state, or leaves a region behind. *)
Theorem registry_is_live e u ops :
  snd (sys_sigaction e) = 0 -> fst (snd (pthread_key_create (fst (sys_sigaction e)))) = 0 ->
  Forall sys_op_fits ops ->
  (exists w, run_sys ops (boot k0 e u) = Done tt w /\
     (forall a, covered (w_proc w) a = true <->
        exists s, s ∈ w_live w /\ raw_ptr (raw s) <= a < raw_ptr (raw s) + raw_len (raw s)) /\
     NoDup ((fun s => raw_ptr (raw s)) <$> w_live w) /\
     forall s, s ∈ w_live w -> menv_ok (MkMenv (w_proc w) s (w_user w))) \/
  (exists why w, run_sys ops (boot k0 e u) = Stop why w /\ fatal why).
Proof.
  intros H1 H2 Hf. destruct (run_sys_ok ops (boot k0 e u) (boot_ok e u H1 H2) Hf)
    as [(w & E & Hw)|H]; [left|by right].
  exists w. pose proof Hw as [Hp Hr Hsp Hl]. split_and!; [done| |by apply world_starts|].
  - intros a. unfold covered. rewrite Hr, existsb_exists. split.
    + intros (r & Hin & Ha). apply list_elem_of_In, list_elem_of_fmap in Hin as (s & -> & Hin).
      exists s. split; [done|]. by apply region_of_covers.
    + intros (s & Hin & Ha). exists (region_of (raw s)). split; [|by apply region_of_covers].
      apply list_elem_of_In, list_elem_of_fmap. by exists s.
  - intros s Hin. destruct (Hl s Hin) as (? & ? & ?). by split.
Qed.
End Proofs.
