(* ===== verification/Lives.v ===== *)
(** Several threads that open and drop mappings at once (src/src/mmap/mod.rs).
    A system call, a change of the registry (which its mutex serialises) and
    [install_handler] are one step each, and the steps of any number of opens
    and drops interleave with each other, with the methods of live mappings and
    with the ends of threads. [open_alone] and [drop_alone] show that the steps
    of one of them, alone, are [SafeMmapOptions_open] and [SafeMmap_drop]. *)

From stdpp Require Import prelude gmap strings.
From Stdlib Require Import ZArith Lia.
From S2P Require Import Prelude Errors Env SysMmap Registry Signal Probe SafeMmap Open Space System.

(** * The life of a mapping *)

(** How it ends: [open] returns an error, a panic unwinds, or it is dropped. *)
Inductive ending := Failed (e : MmapError) | Panicked | Dropped.

Inductive life (C : Type) :=
  | LOpen (o : SafeMmapOptions C) (pa : Path)              (* OpenOptions::open *)
  | LLock (o : SafeMmapOptions C) (pa : Path) (fd : Z)     (* flock *)
  | LStat (o : SafeMmapOptions C) (pa : Path) (fd : Z)     (* metadata, the length checks *)
  | LMap (o : SafeMmapOptions C) (pa : Path) (fd len : Z)  (* mmap *)
  | LInstall (o : SafeMmapOptions C) (pa : Path) (fd : Z) (r : RawMmap)   (* install_handler() *)
  | LRegister (o : SafeMmapOptions C) (pa : Path) (fd : Z) (r : RawMmap)  (* register_region() *)
  | LLive (self : SafeMmap C)
  | LUnregister (self : SafeMmap C)                        (* drop: unregister_region() *)
  | LUnmap (r : RawMmap) (fd : Z) (out : ending)           (* drop of the RawMmap *)
  | LClose (fd : Z) (out : ending)                         (* drop of the File *)
  | LGone (out : ending).
Arguments LOpen {C}.
Arguments LLock {C}.
Arguments LStat {C}.
Arguments LMap {C}.
Arguments LInstall {C}.
Arguments LRegister {C}.
Arguments LLive {C}.
Arguments LUnregister {C}.
Arguments LUnmap {C}.
Arguments LClose {C}.
Arguments LGone {C}.

Record lives (K T C : Type) := MkLives {
  lv_proc : proc K T;
  lv_all : list (life C);
  lv_user : C;
}.
Arguments MkLives {K T C}.
Arguments lv_proc {K T C}.
Arguments lv_all {K T C}.
Arguments lv_user {K T C}.

Inductive life_event {C : Type} :=
  | EvOpen (o : SafeMmapOptions C) (pa : Path)         (* a thread calls open *)
  | EvDrop (i : nat)                                   (* the owner drops it *)
  | EvStep (i : nat)
  | EvAccess (t : tid) (i : nat) (op : checked_op)
  | EvReset (i : nat)
  | EvExit (t : tid).
Arguments life_event : clear implicits.

Section Steps.
Context `{PR : Profile} `{TG : Target} `{LC : Libc} `{SC : Sysconf} `{AL : Allocator}.
Context {K T C : Type} `{VMK : !VM K} `{FSK : !FS K} `{PE : !ProcEnv T}.
Local Abbreviation P := (M (proc K T)).
Implicit Types (s : lives K T C).

(** A panic goes on with the destructors of [l]. *)
Definition unwinds (l : life C) (m : P (life C)) : P (life C) := fun p =>
  match m p with
  | Stop StopPanic p' => Done l p'
  | out => out
  end.

Definition life_step (l : life C) : P (life C) :=
  match l with
  | LOpen o pa =>
      r ← os (call (fun k => sys_open k pa (so_writable o)));
      mret (match r with
            | Ok fd => LLock o pa fd
            | Err e => LGone (Failed (MmapError_from_io e))
            end)
  | LLock o pa fd =>
      r ← lock_file o fd;
      mret (match r with Ok _ => LStat o pa fd | Err e => LClose fd (Failed e) end)
  | LStat o pa fd => unwinds (LClose fd Panicked) (
      r ← os (call (fun k => sys_fstat k fd));
      match r with
      | Err e => mret (LClose fd (Failed (MmapError_from_io e)))
      | Ok file_len =>
          if (file_len =? 0) && is_none (so_len o) then mret (LClose fd (Failed EmptyFile))
          else
            r ← mapping_len o file_len;
            mret (match r with
                  | Err e => LClose fd (Failed e)
                  | Ok n => if n =? 0 then LClose fd (Failed EmptyFile) else LMap o pa fd n
                  end)
      end)
  | LMap o pa fd n => unwinds (LClose fd Panicked) (
      r ← os (MmapOptions_map (raw_options o fd n));
      mret (match r with
            | Ok raw => LInstall o pa fd raw
            | Err e => LClose fd (Failed (MmapError_from_io e))
            end))
  | LInstall o pa fd raw => unwinds (LUnmap raw fd Panicked) (
      _ ← install_handler;
      mret (LRegister o pa fd raw))
  | LRegister o pa fd raw => unwinds (LUnmap raw fd Panicked) (
      _ ← register_region (RawMmap_as_ptr raw) (RawMmap_len raw);
      mret (LLive (fresh_mapping o raw pa fd)))
  | LLive _ => mret l
  | LUnregister self => unwinds (LUnmap (raw self) (file self) Panicked) (
      _ ← unregister_region (RawMmap_as_ptr (raw self));
      mret (LUnmap (raw self) (file self) Dropped))
  | LUnmap raw fd out => _ ← os (RawMmap_drop raw); mret (LClose fd out)
  | LClose fd out => _ ← close_file fd; mret (LGone out)
  | LGone _ => mret l
  end.

Fixpoint life_run (n : nat) (l : life C) : P (life C) :=
  match n with O => mret l | S n => l' ← life_step l; life_run n l' end.

(** ** The process *)

Definition lives_proc {A} (f : P A) (k : A -> list (life C) -> list (life C)) : M (lives K T C) unit := fun s =>
  match f (lv_proc s) with
  | Done a p => Done tt (MkLives p (k a (lv_all s)) (lv_user s))
  | Stop why p => Stop why (MkLives p (lv_all s) (lv_user s))
  end.

(** A method of the [i]-th mapping, if it is live. *)
Definition on_live {A} (i : nat) (f : M (menv K T C) A) : M (lives K T C) unit := fun s =>
  match lv_all s !! i with
  | Some (LLive self) =>
      match f (MkMenv (lv_proc s) self (lv_user s)) with
      | Done _ m => Done tt (MkLives (m_proc m) (<[i := LLive (m_self m)]> (lv_all s)) (m_user m))
      | Stop why m => Stop why (MkLives (m_proc m) (<[i := LLive (m_self m)]> (lv_all s)) (m_user m))
      end
  | _ => Done tt s
  end.

Definition run_life_event (e : life_event C) : M (lives K T C) unit :=
  match e with
  | EvOpen o pa => modify (fun s => MkLives (lv_proc s) (lv_all s ++ [LOpen o pa]) (lv_user s))
  | EvDrop i => modify (fun s =>
      match lv_all s !! i with
      | Some (LLive self) => MkLives (lv_proc s) (<[i := LUnregister self]> (lv_all s)) (lv_user s)
      | _ => s
      end)
  | EvStep i => fun s =>
      match lv_all s !! i with
      | Some l => lives_proc (life_step l) (fun l' ls => <[i := l']> ls) s
      | None => Done tt s
      end
  | EvAccess t i op => on_live i (run_op t op)
  | EvReset i => on_live i SafeMmap_reset_poison
  | EvExit t => lives_proc (thread_exit t) (fun _ ls => ls)
  end.

Fixpoint run_lives (es : list (life_event C)) : M (lives K T C) unit :=
  match es with [] => mret tt | e :: es => _ ← run_life_event e; run_lives es end.

Definition event_fits (e : life_event C) : Prop :=
  match e with
  | EvOpen o _ => sys_op_fits (SysOpen o [])
  | EvAccess _ _ op => op_fits op
  | _ => True
  end.

(** ** One of them alone *)

(** A number of steps that leads from [l] to [out]. *)
Definition goes (l : life C) (p : proc K T) (out : outcome (proc K T) (life C)) : Prop :=
  exists n, life_run n l p = out.

Lemma goes_by l p out :
  match life_step l p with Done l' p' => goes l' p' out | Stop why p' => out = Stop why p' end -> goes l p out.
Proof.
  destruct (life_step l p) as [l' p'|why p'] eqn:E.
  - intros [n <-]. exists (S n). cbn [life_run]. by rewrite bind_eq, E.
  - intros ->. exists 1%nat. cbn [life_run]. by rewrite bind_eq, E.
Qed.

Lemma goes_here l p : goes l p (Done l p).
Proof. by exists 0%nat. Qed.

(** What a call that opens or drops comes to. *)
Definition ends_as {A} (live : A -> life C) (o : outcome (proc K T) A) : outcome (proc K T) (life C) :=
  match o with
  | Done a p => Done (live a) p
  | Stop StopPanic p => Done (LGone Panicked) p
  | Stop why p => Stop why p
  end.

Lemma goes_close fd out p :
  goes (LClose fd out) p (Done (LGone out) (set_os (fst (sys_close (p_os p) fd)) p)).
Proof. apply goes_by. cbn [life_step]. rewrite bind_eq, close_eq. apply goes_here. Qed.

Lemma goes_unmap raw fd out p : goes (LUnmap raw fd out) p (Done (LGone out) (given_back raw fd p)).
Proof. apply goes_by. cbn [life_step]. rewrite bind_eq, drop_raw_eq. apply goes_close. Qed.

Lemma drop_alone (self : SafeMmap C) p :
  goes (LUnregister self) p (ends_as (fun _ => LGone Dropped) (SafeMmap_drop self p)).
Proof.
  apply goes_by. cbn [life_step]. unfold unwinds, SafeMmap_drop, on_unwind, drop_fields. rewrite !bind_eq.
  destruct (unregister_region _ p) as [[] p1|[] p1]; try done; [rewrite mret_eq|]; rewrite drop_both; apply goes_unmap.
Qed.

(** What comes of [open] when the code after the descriptor is [m]. *)
Definition opened fd (m : P (result (SafeMmap C) MmapError)) p : outcome (proc K T) (life C) :=
  ends_as (fun r => match r with Ok self => LLive self | Err e => LGone (Failed e) end)
    (unless_moved (close_file fd) m p).

Lemma opened_by fd (m m' : P (result (SafeMmap C) MmapError)) p p' :
  m p = m' p' -> opened fd m p = opened fd m' p'.
Proof. intros E. unfold opened. by rewrite !unless_moved_eq, E. Qed.

Lemma goes_fail fd m p p' e : m p = Done (Err e) p' -> goes (LClose fd (Failed e)) p' (opened fd m p).
Proof. intros E. unfold opened. rewrite unless_moved_eq, E, close_eq. apply goes_close. Qed.

Lemma goes_panic fd m p p' : m p = Stop StopPanic p' -> goes (LClose fd Panicked) p' (opened fd m p).
Proof. intros E. unfold opened. rewrite unless_moved_eq, E. unfold on_unwind. rewrite close_eq. apply goes_close. Qed.

Lemma opened_stop fd m p p' why :
  m p = Stop why p' -> why <> StopPanic -> opened fd m p = Stop why p'.
Proof. intros E Hne. unfold opened. rewrite unless_moved_eq, E. by destruct why. Qed.

(** With the mapping made. *)
Lemma goes_unmap_panic fd raw (m : P (result (SafeMmap C) MmapError)) p p' p1 :
  p1 = set_os (fst (sys_munmap (p_os p') (raw_ptr raw) (raw_len raw))) p' ->
  m p = Stop StopPanic p1 -> goes (LUnmap raw fd Panicked) p' (opened fd m p).
Proof.
  intros -> E. apply goes_by. cbn [life_step]. rewrite bind_eq, drop_raw_eq, mret_eq. by apply goes_panic.
Qed.

Lemma goes_install o pa fd raw p :
  goes (LInstall o pa fd raw) p (opened fd (on_unwind (os (RawMmap_drop raw)) (
    _ ← install_handler;
    _ ← register_region (RawMmap_as_ptr raw) (RawMmap_len raw);
    mret (Ok (fresh_mapping o raw pa fd)))) p).
Proof.
  set (m := on_unwind _ _).
  assert (Em : forall p1, install_handler p = Done tt p1 ->
    m p = on_unwind (os (RawMmap_drop raw)) (_ ← register_region (RawMmap_as_ptr raw) (RawMmap_len raw);
      mret (Ok (fresh_mapping o raw pa fd))) p1).
  { intros p1 E. unfold m, on_unwind. by rewrite bind_eq, E. }
  apply goes_by. cbn [life_step]. unfold unwinds. rewrite bind_eq.
  destruct (install_handler p) as [[] p1|why p1] eqn:E.
  2: { assert (Hm : m p = on_unwind (os (RawMmap_drop raw)) (fun q => Stop why q) p1).
    { unfold m, on_unwind. by rewrite bind_eq, E. }
    unfold on_unwind in Hm. destruct why; try (by eapply opened_stop); rewrite drop_raw_eq in Hm.
    by eapply goes_unmap_panic. }
  rewrite mret_eq. specialize (Em p1 eq_refl). unfold on_unwind in Em. rewrite bind_eq in Em.
  apply goes_by. cbn [life_step]. unfold unwinds. rewrite bind_eq.
  destruct (register_region _ _ p1) as [[] p2|[] p2]; try (by eapply opened_stop).
  - rewrite !mret_eq in *. unfold opened. rewrite unless_moved_eq, Em. apply goes_here.
  - rewrite drop_raw_eq in Em. by eapply goes_unmap_panic.
Qed.

Lemma goes_map o pa fd n p : goes (LMap o pa fd n) p (opened fd (map_and_register o pa fd n) p).
Proof.
  apply goes_by. cbn [life_step]. unfold unwinds. rewrite bind_eq.
  assert (Em : map_and_register o pa fd n p =
    match os (MmapOptions_map (raw_options o fd n)) p with
    | Done (Ok raw) p1 => on_unwind (os (RawMmap_drop raw)) (
        _ ← install_handler;
        _ ← register_region (RawMmap_as_ptr raw) (RawMmap_len raw);
        mret (Ok (fresh_mapping o raw pa fd))) p1
    | Done (Err e) p1 => Done (Err (MmapError_from_io e)) p1
    | Stop why p1 => Stop why p1
    end).
  { unfold map_and_register. rewrite try_bind_eq, bind_eq.
    by destruct (os (MmapOptions_map _) p) as [[raw|e] p1|why p1]. }
  destruct (os (MmapOptions_map _) p) as [[raw|e] p1|[] p1]; rewrite ?mret_eq; try (by eapply opened_stop).
  - rewrite (opened_by _ _ _ _ _ Em). apply goes_install.
  - by apply goes_fail.
  - by apply goes_panic.
Qed.

(** From the length of the file on. *)
Definition after_lock o pa fd : P (result (SafeMmap C) MmapError) :=
  file_len ←? (r ← os (call (fun k => sys_fstat k fd)); mret (map_err MmapError_from_io r));
  if (file_len =? 0) && is_none (so_len o) then mret (Err EmptyFile)
  else
    map_len ←? mapping_len o file_len;
    if map_len =? 0 then mret (Err EmptyFile)
    else map_and_register o pa fd map_len.

Lemma goes_stat o pa fd p : goes (LStat o pa fd) p (opened fd (after_lock o pa fd) p).
Proof.
  apply goes_by. cbn [life_step]. unfold unwinds. rewrite bind_eq.
  assert (Em : forall r p1, os (call (fun k => sys_fstat k fd)) p = Done r p1 -> after_lock o pa fd p =
    match r with
    | Err e => Done (Err (MmapError_from_io e)) p1
    | Ok file_len =>
        (if (file_len =? 0) && is_none (so_len o) then mret (Err EmptyFile)
         else
           map_len ←? mapping_len o file_len;
           if map_len =? 0 then mret (Err EmptyFile) else map_and_register o pa fd map_len) p1
    end).
  { intros r p1 E. unfold after_lock. rewrite try_bind_eq, bind_eq, E. by destruct r. }
  rewrite os_call_eq in Em |- *. destruct (sys_fstat _ fd) as [k [flen|e]]; specialize (Em _ _ eq_refl).
  2: { rewrite mret_eq. by apply goes_fail. }
  cbv beta iota in Em. revert Em. destruct (_ && _); intros Em; [rewrite mret_eq; by apply goes_fail|].
  rewrite try_bind_eq in Em. rewrite bind_eq. revert Em.
  destruct (mapping_len o flen _) as [[n|e] p1|[] p1]; intros Em; rewrite ?mret_eq; try (by eapply opened_stop).
  - revert Em. destruct (n =? 0); intros Em; [by apply goes_fail|]. rewrite (opened_by _ _ _ _ _ Em). apply goes_map.
  - by apply goes_fail.
  - by apply goes_panic.
Qed.

Lemma open_alone o pa p :
  goes (LOpen o pa) p
    (ends_as (fun r => match r with Ok self => LLive self | Err e => LGone (Failed e) end)
       (SafeMmapOptions_open o pa p)).
Proof.
  apply goes_by. cbn [life_step]. unfold SafeMmapOptions_open. rewrite bind_eq, try_bind_eq, bind_eq.
  rewrite os_call_eq. destruct (sys_open _ _ _) as [k [fd|e]]; rewrite !mret_eq; [|apply goes_here].
  cbn [map_err]. set (m := try_bind _ _). change (goes (LLock o pa fd) (set_os k p) (opened fd m (set_os k p))).
  assert (Em : forall r p1, lock_file o fd (set_os k p) = Done r p1 -> m (set_os k p) =
    match r with Err e => Done (Err e) p1 | Ok _ => after_lock o pa fd p1 end).
  { intros r p1 E. unfold m. rewrite try_bind_eq, E. by destruct r. }
  apply goes_by. cbn [life_step]. rewrite bind_eq. rewrite lock_file_eq in Em |- *.
  destruct (if so_flock o then _ else _) as [k1 locked]. specialize (Em _ _ eq_refl). rewrite mret_eq.
  destruct (negb (locked =? 0)); [by apply goes_fail|].
  rewrite (opened_by _ _ _ _ _ Em). apply goes_stat.
Qed.
End Steps.

(** * The registry while they interleave *)

Section Proofs.
Context `{PR : Profile} `{TG : Target} `{LC : Libc} `{SC : Sysconf} `{AL : Allocator}.
Context {K T C : Type} `{VMK : !VM K} `{FSK : !FS K} `{PE : !ProcEnv T}.
Context `{SCok : !SysconfOk} `{ALok : !AllocatorOk} `{PEok : !ProcEnvOk T} `{MO : !MmapOk K}.
Context `{FSO : !FSOk K} `{LCok : !LibcOk} `{ML : !MapLaws K} (k0 : K).
Implicit Types (l : life C) (ls : list (life C)) (p : proc K T) (s : lives K T C).

(** The handler knows it. *)
Definition registered l : option RegisteredRegion :=
  match l with LLive self | LUnregister self => Some (region_of (raw self)) | _ => None end.

(** The kernel has it. *)
Definition mapping_of l : option RawMmap :=
  match l with
  | LInstall _ _ _ r | LRegister _ _ _ r | LUnmap r _ _ => Some r
  | LLive self | LUnregister self => Some (raw self)
  | _ => None
  end.

Definition life_fine l : Prop :=
  match l with
  | LOpen o _ | LLock o _ _ | LStat o _ _ => event_fits (EvOpen o [])
  | LMap o _ _ n => event_fits (EvOpen o []) /\ 0 <= n
  | LInstall o _ _ r | LRegister o _ _ r => event_fits (EvOpen o []) /\ RawMmap_wf r
  | LLive self | LUnregister self => live_ok self
  | LUnmap r _ out => RawMmap_wf r /\ out <> Panicked
  | LClose _ out | LGone out => out <> Panicked
  end.

(** In any order: the registry's order is not that of the opens. *)
Record lives_ok p ls : Prop := {
  lo_proc : proc_ok p;
  lo_regions : regions (p_registry p) ≡ₚ omap registered ls;
  lo_space : space_ok k0 (omap mapping_of ls) (p_os p);
  lo_fine : Forall life_fine ls;
}.

#[global] Instance lives_ok_perm p : Proper ((≡ₚ) ==> impl) (lives_ok p).
Proof.
  intros ls ls' Hls [Hp Hr Hs Hf]. split; [done|by rewrite Hr, Hls|by rewrite <- Hls|by rewrite <- Hls].
Qed.

(** A step that leaves the registry and the mappings as they are. *)
Lemma swap_life l l' ls p p' :
  lives_ok p (l :: ls) -> proc_ok p' -> p_registry p' = p_registry p ->
  (forall x, mapped (p_os p') x <-> mapped (p_os p) x) ->
  registered l' = registered l -> mapping_of l' = mapping_of l -> life_fine l' -> lives_ok p' (l' :: ls).
Proof.
  intros [_ Hr Hs Hf] Hp Hreg Hx Er Em Hl. apply Forall_cons in Hf as [_ Hf].
  split; [done| | |by apply Forall_cons]; cbn [omap list_omap] in *; rewrite ?Hreg, ?Er, ?Em; [done|].
  by eapply space_keep.
Qed.

(** What a system call of the opening thread leaves. *)
Lemma os_life l l' ls p k :
  lives_ok p (l :: ls) -> (forall x, mapped k x <-> mapped (p_os p) x) ->
  registered l' = registered l -> mapping_of l' = mapping_of l -> life_fine l' ->
  lives_ok (set_os k p) (l' :: ls).
Proof. intros Hok Hx Er Em Hl. eapply swap_life; try done. by apply set_os_ok, Hok. Qed.

Lemma stat_step o pa fd ls p :
  lives_ok p (LStat o pa fd :: ls) ->
  exists l' p', life_step (LStat o pa fd) p = Done l' p' /\ lives_ok p' (l' :: ls).
Proof.
  intros Hok. pose proof (lo_fine _ _ Hok) as [Hfit _]%Forall_cons. pose proof Hfit as [[Hoff Hof] _].
  cbn [life_step]. unfold unwinds. rewrite bind_eq, os_call_eq.
  destruct (sys_fstat _ fd) as [k [flen|e]] eqn:Ef; pose proof (fstat_mapped _ _ _ _ Ef) as Hk.
  2: { eexists _, _. split; [done|]. by eapply os_life. }
  destruct (_ && _); [eexists _, _; split; [done|]; by eapply os_life|].
  rewrite bind_eq. unfold mapping_len. destruct Hof as [_ Hlen]. destruct (so_len o) as [n|] eqn:En.
  { rewrite mret_eq. eexists _, _. split; [done|].
    destruct (n =? 0); eapply os_life; try done. split; [done|]. apply Hlen. }
  destruct (Z.leb_spec flen (so_offset o)).
  { rewrite mret_eq. eexists _, _. split; [done|]. by eapply os_life. }
  destruct (fstat_len _ _ _ _ Ef) as [_ Hu]. destruct Hoff as [Hoff _].
  rewrite bind_eq, usub_ok by lia. rewrite mret_eq. eexists _, _. split; [done|].
  destruct (_ =? 0); eapply os_life; try done. split; [done|lia].
Qed.

Lemma map_step o pa fd n ls p :
  lives_ok p (LMap o pa fd n :: ls) ->
  exists l' p', life_step (LMap o pa fd n) p = Done l' p' /\ lives_ok p' (l' :: ls).
Proof.
  intros Hok. pose proof Hok as [Hp Hr Hs Hf]. apply Forall_cons in Hf as [[Hfit Hn] Hf].
  cbn [life_step]. unfold unwinds. rewrite bind_eq, os_eq.
  destruct (raw_options_fields o fd n) as (Hlen & _ & _).
  destruct (map_returns (raw_options o fd n) (p_os p)) as (r & k & E). rewrite E.
  pose proof (map_mapped _ _ _ _ ltac:(by rewrite Hlen) E) as Hx. rewrite mret_eq.
  destruct r as [raw|e]; eexists _, _; (split; [done|]); [|by eapply os_life].
  apply map_wf in E as (Hwf & _); [|by rewrite Hlen].
  split; cbn [omap list_omap registered mapping_of] in *; [by apply set_os_ok|done| |by apply Forall_cons].
  by eapply space_map.
Qed.

(** The registry has got a mapping more. *)
Lemma register_life o pa fd rw ls p p' :
  lives_ok p (LRegister o pa fd rw :: ls) -> proc_ok p' ->
  regions (p_registry p') = regions (p_registry p) ++ [region_of rw] ->
  (forall x, mapped (p_os p') x <-> mapped (p_os p) x) ->
  lives_ok p' (LLive (fresh_mapping o rw pa fd) :: ls).
Proof.
  intros [_ Hr Hs Hf] Hp Hr' Hx. apply Forall_cons in Hf as [[Hfit Hwf] Hf].
  split; cbn [omap list_omap registered mapping_of fresh_mapping raw] in *; [done| |by eapply space_keep|].
  - rewrite Hr', <- Hr. by rewrite Permutation_app_comm.
  - apply Forall_cons. split; [|done]. destruct Hfit as [(_ & Hmax & _) Hcb].
    split; [done|]. split; [|done]. split; cbn; [done|split; [done|lia]|unfold is_u32 in Hmax; lia].
Qed.

Lemma register_step o pa fd rw ls p :
  lives_ok p (LRegister o pa fd rw :: ls) ->
  exists l' p', life_step (LRegister o pa fd rw) p = Done l' p' /\ lives_ok p' (l' :: ls).
Proof.
  intros Hok. pose proof Hok as [Hp _ _ Hf]. apply Forall_cons in Hf as [[_ Hwf] _].
  destruct (registry_step (Register (raw_ptr rw) (raw_len rw)) p Hp (RawMmap_wf_fits _ Hwf)) as (r' & E & Hp' & Hr').
  cbn [life_step mutate] in *. unfold unwinds, register_region, RawMmap_as_ptr, RawMmap_len.
  rewrite bind_eq, E, mret_eq. eexists _, _. split; [done|]. by eapply register_life.
Qed.

Lemma filter_registered (r : RawMmap) ls :
  RawMmap_wf r -> Forall life_fine ls -> Forall (apart r) (omap mapping_of ls) ->
  filter (fun x => region_start x <> raw_ptr r) (omap registered ls) = omap registered ls.
Proof.
  intros Hwf Hls Ha. pose proof (proj1 (Forall_forall _ _) Ha) as Ha'. apply filter_all. intros x (l & Hin & Hx)%list_elem_of_omap.
  pose proof (proj1 (Forall_forall _ _) Hls l Hin) as Hl.
  destruct l as [| | | | | |self|self| | |]; try done; injection Hx as <-; destruct Hl as [Hl _]; cbn; symmetry;
    (apply apart_starts; [done..|]; apply Ha', list_elem_of_omap; by eexists).
Qed.

(** The registry has lost a mapping. *)
Lemma unregister_life self ls p p' :
  lives_ok p (LUnregister self :: ls) -> proc_ok p' ->
  regions (p_registry p') =
    filter (fun x => region_start x <> raw_ptr (raw self)) (regions (p_registry p)) ->
  (forall x, mapped (p_os p') x <-> mapped (p_os p) x) ->
  lives_ok p' (LUnmap (raw self) (file self) Dropped :: ls).
Proof.
  intros [_ Hr Hs Hf] Hp Hr' Hx. apply Forall_cons in Hf as [[Hwf _] Hf].
  split; cbn [omap list_omap registered mapping_of] in *; [done| |by eapply space_keep|by apply Forall_cons].
  rewrite Hr', Hr, filter_cons, decide_False by (cbn; tauto).
  destruct (sp_apart _ _ _ Hs) as [Ha _]. by rewrite filter_registered.
Qed.

Lemma unregister_step self ls p :
  lives_ok p (LUnregister self :: ls) ->
  exists l' p', life_step (LUnregister self) p = Done l' p' /\ lives_ok p' (l' :: ls).
Proof.
  intros Hok. pose proof Hok as [Hp _ _ _].
  destruct (registry_step (Unregister (raw_ptr (raw self))) p Hp I) as (r' & E & Hp' & Hr').
  cbn [life_step mutate] in *. unfold unwinds, unregister_region, RawMmap_as_ptr.
  rewrite bind_eq, E, mret_eq. eexists _, _. split; [done|]. by eapply unregister_life.
Qed.

Lemma unmap_step raw fd out ls p :
  lives_ok p (LUnmap raw fd out :: ls) ->
  exists l' p', life_step (LUnmap raw fd out) p = Done l' p' /\ lives_ok p' (l' :: ls).
Proof.
  intros [Hp Hr Hs Hf]. apply Forall_cons in Hf as [[Hwf Hout] Hf].
  cbn [life_step]. rewrite bind_eq, drop_raw_eq, mret_eq. eexists _, _. split; [done|].
  split; cbn [omap list_omap registered mapping_of] in *; [by apply set_os_ok|done| |by apply Forall_cons].
  by apply space_unmap.
Qed.

Lemma life_step_ok l ls p :
  lives_ok p (l :: ls) -> exists l' p', life_step l p = Done l' p' /\ lives_ok p' (l' :: ls).
Proof.
  intros Hok. pose proof Hok as [Hp Hr Hs Hf]. apply Forall_cons in Hf as [Hl Hf].
  destruct l as [o pa|o pa fd|o pa fd|o pa fd n|o pa fd raw|o pa fd raw|self|self|raw fd out|fd out|out];
    [| |by apply stat_step|by apply map_step| |by apply register_step|by eexists _, _
    |by apply unregister_step|by apply unmap_step| |by eexists _, _]; cbn [life_step].
  - rewrite bind_eq, os_call_eq. destruct (sys_open _ _ _) as [k [fd|e]] eqn:E;
      pose proof (open_mapped _ _ _ _ _ E) as Hk; rewrite mret_eq; eexists _, _; (split; [done|]); by eapply os_life.
  - rewrite bind_eq, lock_file_eq. destruct (if so_flock o then _ else _) as [k locked] eqn:E.
    assert (Hk : forall x, mapped k x <-> mapped (p_os p) x).
    { destruct (so_flock o); [by eapply flock_mapped|by injection E as <- _]. }
    rewrite mret_eq. eexists _, _. split; [done|]. destruct (negb _); by eapply os_life.
  - unfold unwinds. rewrite bind_eq, install_ok, mret_eq by done. eexists _, _. split; [done|].
    eapply swap_life; try done. by apply installed_ok.
  - rewrite bind_eq, close_eq, mret_eq. eexists _, _. split; [done|].
    destruct (sys_close _ fd) as [k x] eqn:E. pose proof (close_mapped _ _ _ _ E). by eapply os_life.
Qed.

(** A step other than a change of the registry leaves the registry and the
    threads' states. *)
Definition life_frame p p' : Prop :=
  p_registry p' = p_registry p /\
  (forall t, thread_ptr p' t = thread_ptr p t /\ thread_state p' t = thread_state p t) /\
  (p_handler_init p = OnceDone -> p_handler_init p' = OnceDone).

Lemma life_step_frame l p l' p' :
  proc_ok p -> life_step l p = Done l' p' ->
  match l with LRegister _ _ _ _ | LUnregister _ => True | _ => life_frame p p' end.
Proof.
  intros Hp. assert (Hos : forall k, life_frame p (set_os k p)) by (by intros k).
  destruct l as [o pa|o pa fd|o pa fd|o pa fd n|o pa fd rw|o pa fd rw|self|self|rw fd out|fd out|out];
    cbn [life_step]; try done; try (by intros [= _ <-]).
  - rewrite bind_eq, os_call_eq. destruct (sys_open _ _ _) as [k r]. intros [= _ <-]. apply Hos.
  - rewrite bind_eq, lock_file_eq. destruct (if so_flock o then _ else _) as [k r]. intros [= _ <-]. apply Hos.
  - unfold unwinds. rewrite bind_eq, os_call_eq. destruct (sys_fstat _ fd) as [k [flen|e]]; [|by intros [= _ <-]].
    destruct (_ && _); [by intros [= _ <-]|]. rewrite bind_eq. unfold mapping_len.
    destruct (so_len o); [by intros [= _ <-]|]. destruct (flen <=? _); [by intros [= _ <-]|].
    rewrite bind_eq. unfold usub. destruct (_ && _); by intros [= _ <-].
  - unfold unwinds. rewrite bind_eq, os_eq. destruct (map_returns (raw_options o fd n) (p_os p)) as (r & k & ->).
    intros [= _ <-]. apply Hos.
  - unfold unwinds. rewrite bind_eq, install_ok by done. intros [= _ <-].
    split; [done|]. split; [|done]. intros t. unfold thread_state. by rewrite installed_ptr.
  - rewrite bind_eq, drop_raw_eq. intros [= _ <-]. apply Hos.
  - rewrite bind_eq, close_eq. intros [= _ <-]. apply Hos.
Qed.

(** ** Events *)

Definition lives_fine s : Prop := lives_ok (lv_proc s) (lv_all s).

Lemma insert_perm (i : nat) l l' ls : ls !! i = Some l -> <[i := l']> ls ≡ₚ l' :: delete i ls.
Proof.
  intros Hi. rewrite insert_take_drop by (by eapply lookup_lt_Some).
  by rewrite delete_take_drop, Permutation_middle.
Qed.

Lemma lives_at i l s : lives_fine s -> lv_all s !! i = Some l -> lives_ok (lv_proc s) (l :: delete i (lv_all s)).
Proof. intros Hok Hi. unfold lives_fine in Hok. by rewrite (delete_Permutation _ _ _ Hi) in Hok. Qed.

(** A method of a live mapping. *)
Lemma on_live_ok {A} i (f : M (menv K T C) A) s :
  lives_fine s ->
  (forall m, menv_ok m ->
     (exists r m', f m = Done r m' /\ menv_ok m' /\ p_registry (m_proc m') = p_registry (m_proc m) /\
        accesses (p_os (m_proc m)) (p_os (m_proc m')) /\ raw (m_self m') = raw (m_self m)) \/
     (exists why m', f m = Stop why m' /\ fatal why)) ->
  (exists s', on_live i f s = Done tt s' /\ lives_fine s') \/
  (exists why s', on_live i f s = Stop why s' /\ fatal why).
Proof.
  intros Hok Hf. unfold on_live. destruct (lv_all s !! i) as [l|] eqn:Hi; [|left; by eexists].
  destruct l as [| | | | | |self| | | |]; try (left; by eexists).
  pose proof (lives_at _ _ _ Hok Hi) as Hl. pose proof Hl as [Hp _ _ [(Hwf & Hpi & Hcb) _]%Forall_cons].
  destruct (Hf (MkMenv (lv_proc s) self (lv_user s))) as [(r & m & -> & [Hp' Hwf' Hpi' Hcb'] & Hr & Ha & Hraw)|
    (why & m & -> & Hfa)]; [by split|left|right; by do 2 eexists].
  eexists. split; [done|]. unfold lives_fine. cbn [lv_proc lv_all]. rewrite (insert_perm _ _ _ _ Hi).
  eapply swap_life; [exact Hl|done|done|by apply accesses_mapped| | |done]; cbn; by rewrite Hraw.
Qed.

Lemma life_event_ok e s :
  lives_fine s -> event_fits e ->
  (exists s', run_life_event e s = Done tt s' /\ lives_fine s') \/
  (exists why s', run_life_event e s = Stop why s' /\ fatal why).
Proof.
  intros Hok Hfit. destruct e as [o pa|i|i|t i op|i|t]; cbn [run_life_event].
  - left. eexists. split; [done|]. unfold lives_fine. cbn. rewrite (Permutation_app_comm _ [LOpen o pa]).
    destruct Hok as [Hp Hr Hs Hf]. split; [done..|]. by apply Forall_cons.
  - left. eexists. split; [done|]. destruct (lv_all s !! i) as [l|] eqn:Hi; [|done].
    destruct l as [| | | | | |self| | | |]; try done. unfold lives_fine. cbn. rewrite (insert_perm _ _ _ _ Hi).
    pose proof (lives_at _ _ _ Hok Hi) as Hl. pose proof Hl as [Hp _ _ [Hself _]%Forall_cons].
    by eapply swap_life.
  - left. destruct (lv_all s !! i) as [l|] eqn:Hi; [|by eexists]. unfold lives_proc.
    destruct (life_step_ok l (delete i (lv_all s)) (lv_proc s)) as (l' & p' & -> & Hl'); [by apply lives_at|].
    eexists. split; [done|]. unfold lives_fine. cbn. by rewrite (insert_perm _ _ _ _ Hi).
  - apply on_live_ok; [done|]. intros m Hm.
    destruct (op_ok t op m Hm Hfit) as [(r & m' & E & Hm' & [Hr _] & Ha & Hraw & _)|(why & m' & E & Hfa)];
      [left; by exists r, m'|right; by exists why, m'].
  - apply on_live_ok; [done|]. intros m [Hp Hwf [Hmax Hcount Hpo] Hcb]. left. eexists _, _. split; [done|].
    split; [|by repeat split; try apply rtc_refl]. split; [done|done| |done]. split; cbn; [done|split; [done|lia]|lia].
  - left. unfold lives_proc. pose proof Hok as [Hp Hr Hs Hf].
    destruct (thread_exit_ok t _ Hp) as (p' & -> & Hp' & Hos & [Hreg _] & _). eexists. split; [done|].
    split; cbn; [done|by rewrite Hreg|by rewrite Hos|done].
Qed.

Lemma run_lives_ok es s :
  lives_fine s -> Forall event_fits es ->
  (exists s', run_lives es s = Done tt s' /\ lives_fine s') \/
  (exists why s', run_lives es s = Stop why s' /\ fatal why).
Proof.
  revert s. induction es as [|e es IH]; intros s Hs Hf; [left; by eexists|].
  apply Forall_cons in Hf as [He Hf]. cbn [run_lives]. rewrite bind_eq.
  destruct (life_event_ok e s Hs He) as [(s1 & -> & Hs1)|(why & s1 & -> & Hfa)]; [|right; by do 2 eexists].
  by apply IH.
Qed.

(** What the handler intercepts. *)
Lemma covered_lives p ls a :
  lives_ok p ls ->
  covered p a = true <->
    exists self, (LLive self ∈ ls \/ LUnregister self ∈ ls) /\
      raw_ptr (raw self) <= a < raw_ptr (raw self) + raw_len (raw self).
Proof.
  intros [_ Hr _ _]. unfold covered. rewrite existsb_exists. split.
  - intros (x & Hin%list_elem_of_In & Ha). rewrite Hr in Hin. apply list_elem_of_omap in Hin as (l & Hl & Hx).
    destruct l; cbn in Hx; try done; injection Hx as <-; eexists; (split; [by eauto|by apply region_of_covers]).
  - intros (self & Hin & Ha). exists (region_of (raw self)). split; [|by apply region_of_covers].
    apply list_elem_of_In. rewrite Hr. apply list_elem_of_omap. destruct Hin; by eexists.
Qed.

(** What is mapped. *)
Lemma lives_space ls p :
  lives_ok p ls ->
  let held x := exists l r, l ∈ ls /\ mapping_of l = Some r /\ occupies r x in
  all_apart (omap mapping_of ls) /\ (forall x, held x -> mapped (p_os p) x) /\
  (forall x, mapped k0 x -> mapped (p_os p) x /\ ~ held x) /\
  (munmap_succeeds (K := K) -> forall x, mapped (p_os p) x -> mapped k0 x \/ held x).
Proof.
  intros [_ _ [Ha Hm Ho He] _] held.
  assert (Hin : forall l r, l ∈ ls -> mapping_of l = Some r -> r ∈ omap mapping_of ls).
  { intros l r Hl Hr. apply list_elem_of_omap. by exists l. }
  split; [done|]. split; [intros x (l & r & Hl & Hr & Hx); eapply Hm; [by eapply Hin|done]|]. split.
  - intros x Hx. destruct (Ho x Hx) as [? Hn]. split; [done|]. intros (l & r & Hl & Hr & Hh).
    by apply (Hn r); [eapply Hin|].
  - intros Hu x Hx. destruct (He Hu x Hx) as [|(r & (l & Hl & Hr)%list_elem_of_omap & Hh)]; [by left|right].
    by exists l, r.
Qed.

(** C2 (safety): any number of threads open, use and drop mappings, and their system
    calls, registrations and unregistrations interleave in any way, addresses
    that [munmap] frees being given out again. At every moment, unless a default
    signal action or an abort ended the process: no open, drop or method has
    panicked; the addresses the handler intercepts are exactly those of the
    mappings that are live or about to be unregistered; every page of a mapping
    that was made and not yet unmapped is mapped, and no two of these mappings
    share a page; what was mapped in the process before is still mapped and in
    none of them, and (unless the kernel refuses to unmap mapped pages) nothing
    else is mapped: no drop or failed open leaves a page behind or takes a page
    that is not its own; and every live mapping is well formed with its poison
    flag in agreement with its count. *)
Theorem concurrent_lives e u es :
  snd (sys_sigaction e) = 0 -> fst (snd (pthread_key_create (fst (sys_sigaction e)))) = 0 ->
  Forall event_fits es ->
  (exists s, run_lives es (MkLives (proc_init k0 e) [] u) = Done tt s /\
     (forall a, covered (lv_proc s) a = true <->
        exists self, (LLive self ∈ lv_all s \/ LUnregister self ∈ lv_all s) /\
          raw_ptr (raw self) <= a < raw_ptr (raw self) + raw_len (raw self)) /\
     (let k := p_os (lv_proc s) in
      let held x := exists l r, l ∈ lv_all s /\ mapping_of l = Some r /\ occupies r x in
      all_apart (omap mapping_of (lv_all s)) /\ (forall x, held x -> mapped k x) /\
      (forall x, mapped k0 x -> mapped k x /\ ~ held x) /\
      (munmap_succeeds (K := K) -> forall x, mapped k x -> mapped k0 x \/ held x)) /\
     (forall self, LLive self ∈ lv_all s -> menv_ok (MkMenv (lv_proc s) self (lv_user s))) /\
     LGone Panicked ∉ lv_all s) \/
  (exists why s, run_lives es (MkLives (proc_init k0 e) [] u) = Stop why s /\ fatal why).
Proof.
  intros H1 H2 Hes.
  destruct (run_lives_ok es (MkLives (proc_init k0 e) [] u)) as [(s & E & Hok)|H]; [|done|left|by right].
  { split; cbn; [by apply proc_init_ok|done|apply space_start|constructor]. }
  exists s. pose proof Hok as [Hp Hr Hs Hf]. rewrite Forall_forall in Hf. split; [done|].
  split; [intros a; by apply covered_lives|]. split; [by apply lives_space|]. split.
  - intros self Hin. destruct (Hf _ Hin) as (? & ? & ?). by split.
  - intros Hin. by apply (Hf _ Hin).
Qed.
End Proofs.
