(* ===== verification/Whole.v ===== *)
(** The crate as a whole, under concurrency: mappings that threads open and
    drop ([Lives.v]), the two halves of each change of the registry
    ([RegistryRcu.v]), and the protected reads of live mappings by any threads,
    step by step ([Threads.v]), all over one process. The machine is the two
    machines side by side, held together by what Rust's ownership guarantees:
    a mapping is read only while it is live, and dropped only when nobody reads
    it. src/src/mmap/mod.rs, src/src/mmap/guard.rs, src/src/signal/*.rs. *)

From stdpp Require Import prelude gmap strings.
From Stdlib Require Import ZArith Lia.
From S2P Require Import Prelude Errors Env SysMmap Registry RegistryRcu Signal Probe SafeMmap Typing Threads Open Space System Lives.

Record whole (K T C R : Type) := MkWhole {
  wh_ma : machine K T R;          (* the process, the mutex and the calls *)
  wh_lives : list (life C);
  wh_busy : option nat;           (* the open or drop that holds the mutex *)
  wh_on : gmap tid nat;           (* the mapping that a thread reads *)
}.
Arguments MkWhole {K T C R}.
Arguments wh_ma {K T C R}.
Arguments wh_lives {K T C R}.
Arguments wh_busy {K T C R}.
Arguments wh_on {K T C R}.

Inductive whole_event (K C R : Type) :=
  | WhOpen (o : SafeMmapOptions C) (pa : Path)    (* a thread calls open *)
  | WhDrop (i : nat)                              (* the owner drops the mapping *)
  | WhLife (i : nat)                              (* a step of that open or drop *)
  | WhRead (t : tid) (i : nat) (offset len : Z) (f : Z -> Z -> prog R)
                                                  (* guard().read(offset, len, f) *)
  | WhCall (t : tid)                              (* a step of the thread's call *)
  | WhExit (t : tid)
  | WhOs (k : K).                                 (* another process truncates a file, ... *)
Arguments WhOpen {K C R}.
Arguments WhDrop {K C R}.
Arguments WhLife {K C R}.
Arguments WhRead {K C R}.
Arguments WhCall {K C R}.
Arguments WhExit {K C R}.
Arguments WhOs {K C R}.

(** The change of the registry that an open or a drop is at, and where it goes
    on after it. *)
Definition mutation_of {C} (l : life C) : option mutation :=
  match l with
  | LRegister _ _ _ r => Some (Register (RawMmap_as_ptr r) (RawMmap_len r))
  | LUnregister self => Some (Unregister (RawMmap_as_ptr (raw self)))
  | _ => None
  end.

Definition after_mutation {C} (l : life C) : life C :=
  match l with
  | LRegister o pa fd r => LLive (fresh_mapping o r pa fd)
  | LUnregister self => LUnmap (raw self) (file self) Dropped
  | l => l
  end.

Section Whole.
Context `{PR : Profile} `{TG : Target} `{LC : Libc} `{SC : Sysconf} `{AL : Allocator}.
Context {K T C R : Type} `{VMK : !VM K} `{FSK : !FS K} `{PE : !ProcEnv T} `{ML : !MapLaws K}.
Implicit Types s : whole K T C R.

Definition wh_lens : lens (whole K T C R) (machine K T R) :=
  Lens wh_ma (fun ma s => MkWhole ma (wh_lives s) (wh_busy s) (wh_on s)).

Definition put_life (i : nat) (l : life C) s : whole K T C R :=
  MkWhole (wh_ma s) (<[i := l]> (wh_lives s)) (wh_busy s) (wh_on s).
Definition set_busy (b : option nat) s : whole K T C R := MkWhole (wh_ma s) (wh_lives s) b (wh_on s).
Definition set_on (t : tid) (i : nat) s : whole K T C R :=
  MkWhole (wh_ma s) (wh_lives s) (wh_busy s) (<[t := i]> (wh_on s)).

(** What can happen next: a thread makes one call at a time, the mutex has one
    owner, a mapping that is read is borrowed, and a closure stays in its
    slice, in protected calls of its own too. A change of the kernel by others leaves the process's mappings. *)
Definition wh_enabled (e : whole_event K C R) s : Prop :=
  match e with
  | WhOpen o _ => event_fits (EvOpen o [])
  | WhDrop i => forall t, wh_on s !! t = Some i -> idle (ma_calls (wh_ma s) !! t)
  | WhLife i =>
      match wh_lives s !! i with
      | None => False
      | Some l => match mutation_of l with Some _ => wh_busy s = None \/ wh_busy s = Some i | None => True end
      end
  | WhRead t i offset len f =>
      idle (ma_calls (wh_ma s) !! t) /\ 0 <= offset /\ 0 <= len /\
      forall ptr, let slice a := ptr <= a < ptr + len in prog_typed slice slice (f ptr len)
  | WhCall t => ma_enabled (AStep (K := K) t) (wh_ma s)
  | WhExit t => idle (ma_calls (wh_ma s) !! t)
  | WhOs k => forall x, mapped k x <-> mapped (p_os (ma_proc (wh_ma s))) x
  end.

Definition wh_exec (e : whole_event K C R) : M (whole K T C R) unit :=
  match e with
  | WhOpen o pa => modify (fun s => MkWhole (wh_ma s) (wh_lives s ++ [LOpen o pa]) (wh_busy s) (wh_on s))
  | WhDrop i => modify (fun s =>
      match wh_lives s !! i with Some (LLive self) => put_life i (LUnregister self) s | _ => s end)
  | WhLife i =>
      s ← get;
      match wh_lives s !! i with
      | None => mret tt
      | Some l =>
          match mutation_of l, wh_busy s with
          | Some m, None => _ ← zoom wh_lens (ma_exec (ABegin m)); modify (set_busy (Some i))
          | Some _, Some _ =>
              _ ← zoom wh_lens (ma_exec AFinish);
              modify (fun s => put_life i (after_mutation l) (set_busy None s))
          | None, _ => l' ← zoom wh_lens (zoom ma_lens (life_step l)); modify (put_life i l')
          end
      end
  | WhRead t i offset len f =>
      s ← get;
      match wh_lives s !! i with
      | Some (LLive self) =>
          if range_exceeds offset len (raw_len (raw self)) then mret tt    (* OutOfBounds *)
          else
            _ ← zoom wh_lens (ma_exec (ACall t (f (RawMmap_as_ptr (raw self) + offset) len)));
            modify (set_on t i)
      | _ => mret tt
      end
  | WhCall t => zoom wh_lens (ma_exec (AStep t))
  | WhExit t => zoom wh_lens (ma_exec (AExit t))
  | WhOs k => zoom wh_lens (ma_exec (AOs k))
  end.

Definition whole_start (p : proc K T) : whole K T C R := MkWhole (MkMachine p None ∅) [] None ∅.

Inductive wh_reachable (p0 : proc K T) : whole K T C R -> Prop :=
  | wh_begin : wh_reachable p0 (whole_start p0)
  | wh_next s e s' : wh_reachable p0 s -> wh_enabled e s -> wh_exec e s = Done tt s' -> wh_reachable p0 s'.

(** A schedule that leads from [s] to [s']. *)
Fixpoint wh_path (es : list (whole_event K C R)) s s' : Prop :=
  match es with
  | [] => s' = s
  | e :: es =>
      wh_enabled e s /\ match wh_exec e s with Done _ s1 => wh_path es s1 s' | Stop _ _ => False end
  end.

Lemma wh_path_reachable p0 es s s' : wh_reachable p0 s -> wh_path es s s' -> wh_reachable p0 s'.
Proof.
  revert s. induction es as [|e es IH]; intros s Hr; cbn; [by intros ->|]. intros [Hen H].
  destruct (wh_exec e s) as [[] s1|] eqn:E; [|done]. by apply (IH s1); [eapply wh_next|].
Qed.
End Whole.

(** * The invariant *)

Section Proofs.
Context `{PR : Profile} `{TG : Target} `{LC : Libc} `{SC : Sysconf} `{AL : Allocator}.
Context {K T C R : Type} `{VMK : !VM K} `{FSK : !FS K} `{PE : !ProcEnv T}.
Context `{SCok : !SysconfOk} `{ALok : !AllocatorOk} `{PEok : !ProcEnvOk T} `{MO : !MmapOk K}.
Context `{FSO : !FSOk K} `{LCok : !LibcOk} `{ML : !MapLaws K} `{FL : !FaultLaws K} (k0 : K).
Implicit Types (s : whole K T C R) (p : proc K T) (l : life C) (ls : list (life C)) (c : pcall R).

Definition inside (r : RawMmap) (a : Z) : Prop := raw_ptr r <= a < raw_ptr r + raw_len r.

(** A call that runs reads a live mapping, and found it registered. *)
Definition reading (on : gmap tid nat) (ls : list (life C)) (t : tid) c : Prop :=
  exists i self, on !! t = Some i /\ ls !! i = Some (LLive self) /\
    prog_typed (inside (raw self)) (inside (raw self)) (c_prog c) /\ seen_has (region_of (raw self)) c.

Definition calls_ok (calls : gmap tid (pcall R)) on ls : Prop :=
  forall t c, calls !! t = Some c -> idle (Some c) \/ reading on ls t c.

(** The mutex is held for the change that its owner is at. *)
Definition busy_ok (busy : option nat) (phase : option mutation) (ls : list (life C)) : Prop :=
  match busy, phase with
  | None, None => True
  | Some i, Some m => exists l, ls !! i = Some l /\ mutation_of l = Some m
  | _, _ => False
  end.

Record whole_ok s : Prop := {
  wi_ma : ma_inv (wh_ma s);
  wi_lives : lives_ok k0 (ma_proc (wh_ma s)) (wh_lives s);
  wi_busy : busy_ok (wh_busy s) (ma_phase (wh_ma s)) (wh_lives s);
  wi_calls : calls_ok (ma_calls (wh_ma s)) (wh_on s) (wh_lives s);
}.

(** ** The mappings *)

Lemma os_after_mapped {A} (c : pcall A) (k : K) x : mapped (os_after c k) x <-> mapped k x.
Proof.
  induction c as [A c IH] using pcall_nest_ind. destruct c as [q tr l pc].
  destruct pc as [| |ptr|ptr|ptr fr [v|a kk|a b kk| |B qq kk]| |ptr fr f|ptr fr f sp rd|ptr res|ptr|r]; try done.
  - cbn. destruct (load k a) eqn:E. by eapply load_mapped.
  - cbn. destruct (store k a b) eqn:E. by eapply store_mapped.
Qed.

(** The mappings do not see a change of the process that keeps the regions. *)
Lemma lives_keep ls p p' :
  lives_ok k0 p ls -> proc_ok p' -> regions (p_registry p') = regions (p_registry p) ->
  (forall x, mapped (p_os p') x <-> mapped (p_os p) x) -> lives_ok k0 p' ls.
Proof.
  intros [_ Hr Hs Hf] Hp Hreg Hx. split; [done|by rewrite Hreg|by eapply space_keep|done].
Qed.

Lemma lives_put (i : nat) l l' ls p p' :
  lives_ok k0 p ls -> ls !! i = Some l -> (forall rest, lives_ok k0 p (l :: rest) -> lives_ok k0 p' (l' :: rest)) ->
  lives_ok k0 p' (<[i := l']> ls).
Proof.
  intros Hok Hi H. rewrite (insert_perm _ _ _ _ Hi). apply H. by rewrite (delete_Permutation _ _ _ Hi) in Hok.
Qed.

Lemma live_region ls i self p :
  lives_ok k0 p ls -> ls !! i = Some (LLive self) -> region_of (raw self) ∈ regions (p_registry p).
Proof.
  intros [_ Hr _ _] Hi. rewrite Hr. apply list_elem_of_omap. exists (LLive self).
  split; [by eapply list_elem_of_lookup_2|done].
Qed.

Lemma live_length ls i self p :
  lives_ok k0 p ls -> ls !! i = Some (LLive self) -> is_usize (raw_len (raw self)).
Proof.
  intros [_ _ _ Hf] Hi. rewrite Forall_forall in Hf.
  destruct (Hf _ (list_elem_of_lookup_2 _ _ _ Hi)) as (Hwf & _). by apply RawMmap_wf_usize.
Qed.

(** ** The calls *)

(** A mapping that is not live, or that nobody reads, goes on. *)
Lemma calls_put calls on ls (i : nat) l l' :
  calls_ok calls on ls -> ls !! i = Some l ->
  (forall self, l = LLive self -> forall t, on !! t = Some i -> idle (calls !! t)) ->
  calls_ok calls on (<[i := l']> ls).
Proof.
  intros Hc Hi Hl t c Ht. destruct (Hc t c Ht) as [|(j & self & Hon & Hj & Hr)]; [by left|].
  destruct (decide (i = j)) as [<-|Hne].
  - left. rewrite <- Ht. apply (Hl self); [congruence|done].
  - right. exists j, self. by rewrite list_lookup_insert_ne.
Qed.

Lemma calls_open calls on ls l : calls_ok calls on ls -> calls_ok calls on (ls ++ [l]).
Proof.
  intros Hc t c Ht. destruct (Hc t c Ht) as [|(j & self & Hon & Hj & Hr)]; [by left|].
  right. exists j, self. split; [done|]. split; [by apply lookup_app_l_Some|done].
Qed.

Lemma calls_age calls on ls : calls_ok calls on ls -> calls_ok (age_call <$> calls) on ls.
Proof.
  intros Hc t c. rewrite lookup_fmap. destruct (calls !! t) as [c0|] eqn:E; [|done]. intros [= <-].
  destruct (Hc t c0 E) as [|(j & self & Hon & Hj & Hq & Hs)]; [left; by apply age_call_idle|].
  right. exists j, self. split; [done|]. split; [done|]. rewrite age_call_prog. split; [done|by apply age_call_seen].
Qed.

Lemma calls_new calls on ls t i self (q : prog R) :
  calls_ok calls on ls -> ls !! i = Some (LLive self) -> prog_typed (inside (raw self)) (inside (raw self)) q ->
  calls_ok (<[t := start q]> calls) (<[t := i]> on) ls.
Proof.
  intros Hc Hi Hq t' c. destruct (decide (t = t')) as [<-|Hne].
  - rewrite lookup_insert_eq. intros [= <-]. right. exists i, self. rewrite lookup_insert_eq. by split_and!.
  - rewrite lookup_insert_ne by done. intros Ht. destruct (Hc t' c Ht) as [|(j & self' & Hon & Hr)]; [by left|].
    right. exists j, self'. by rewrite lookup_insert_ne.
Qed.

Lemma busy_put busy phase ls (i : nat) l l' :
  busy_ok busy phase ls -> ls !! i = Some l -> mutation_of l = None -> busy_ok busy phase (<[i := l']> ls).
Proof.
  intros Hb Hi Hl. destruct busy as [j|], phase as [m|]; try done. destruct Hb as (l0 & Hj & Hm).
  exists l0. split; [|done]. rewrite list_lookup_insert_ne; [done|]. intros ->. congruence.
Qed.

(** ** Steps of the calls *)

(** How a step of the whole may stop, always a step of a call: the closure
    panics; the kernel answers its access with SIGSEGV; a SIGBUS comes after a
    call of the closure's own has returned; or more than two changes of the
    registry have overtaken the handler. *)
Definition whole_stops s (e : whole_event K C R) (why : stop_reason) : Prop :=
  exists t c, e = WhCall t /\ ma_calls (wh_ma s) !! t = Some c /\
    ((why = StopKilled SIGSEGV /\ refused c (p_os (ma_proc (wh_ma s)))) \/ (why = StopAbort /\ panicking c) \/
     (why = StopKilled SIGBUS /\ after_nested c) \/ lost (ma_proc (wh_ma s)) c why).

Lemma whole_call_ok t s :
  whole_ok s -> wh_enabled (WhCall t) s ->
  match wh_exec (WhCall t) s with Done _ s' => whole_ok s' | Stop why _ => whole_stops s (WhCall t) why end.
Proof.
  intros [Hma Hl Hb Hc] Hen. pose proof (ma_step_ok (AStep t) (wh_ma s) Hma Hen) as Hstep.
  pose proof Hma as [Hp _ _ Hcalls _]. cbn [wh_enabled ma_enabled] in Hen. cbn [wh_exec]. unfold zoom at 1.
  cbn [lget wh_lens]. revert Hstep. cbn [ma_exec]. rewrite bind_eq. cbn [get].
  destruct (ma_calls (wh_ma s) !! t) as [c|] eqn:Ht; [|by destruct Hen].
  destruct (Hc t c Ht) as [|(i & self & Hon & Hi & Hq & Hs)]; [done|].
  assert (Hnc : uncaught (ma_proc (wh_ma s)) c -> after_nested c).
  { eapply typed_uncaught; [by apply Hcalls|exact Hq| |by eapply live_region|done].
    intros a. apply region_of_covers. }
  rewrite bind_eq. unfold zoom. cbn [lget lset ma_lens].
  pose proof (call_step_ok t (bool_decide (is_Some (ma_phase (wh_ma s)))) c _ Hp (Hcalls _ _ Ht) Hen) as H.
  replace (match ma_phase (wh_ma s) with Some _ => 1%nat | None => 0%nat end)
    with (if bool_decide (is_Some (ma_phase (wh_ma s))) then 1%nat else 0%nat)
    by by destruct (ma_phase (wh_ma s)).
  destruct (call_step t _ c _) as [c' p'|why p'] eqn:E; intros Hstep.
  - destruct H as (Hp' & [[Hr _] _] & _ & Hos). split; cbn; [exact Hstep| |done|].
    + eapply lives_keep; [exact Hl|done|by rewrite Hr|]. intros x. rewrite Hos. apply os_after_mapped.
    + intros t' c1. destruct (decide (t = t')) as [<-|Hne]; [|rewrite lookup_insert_ne by done; apply Hc].
      rewrite lookup_insert_eq. intros [= <-]. right. exists i, self. split; [done|]. split; [done|].
      rewrite (call_step_prog _ _ _ _ _ _ E). split; [done|].
      unfold call_step in E. apply bind_done in E as ([c2|] & p2 & E & E2); [|done]. injection E2 as -> ->.
      eapply call_flow_seen; [exact E|done|by eapply live_region|done].
  - exists t, c. split; [done|]. split; [done|]. destruct H as [H|[[-> H]|[H|H]]]; [by left|right; right; left; split; [done|by apply Hnc]|by right; left|by right; right; right].
Qed.

(** ** Steps of the opens and drops *)

(** The first half of a change of the registry. *)
Lemma begin_ok i l m s :
  whole_ok s -> wh_lives s !! i = Some l -> mutation_of l = Some m -> wh_busy s = None ->
  exists s', (_ ← zoom wh_lens (ma_exec (ABegin m)); modify (set_busy (Some i))) s = Done tt s' /\ whole_ok s'.
Proof.
  intros [Hma Hl Hb Hc] Hi Hm Hbusy. rewrite Hbusy in Hb. unfold busy_ok in Hb.
  destruct (ma_phase (wh_ma s)) eqn:Hph; [done|]. pose proof Hma as [Hp _ _ _ _]. pose proof Hp as [[Hwf _] _ _ _ _].
  assert (Hfit : mutation_fits m).
  { pose proof (lo_fine _ _ _ Hl) as Hf. rewrite Forall_forall in Hf.
    specialize (Hf _ (list_elem_of_lookup_2 _ _ _ Hi)). destruct l; try done; injection Hm as <-; [|done].
    apply RawMmap_wf_fits, Hf. }
  pose proof (ma_step_ok (ABegin m) (wh_ma s) Hma (conj Hph Hfit)) as Hstep.
  destruct (proc_begin_ok _ Hp) as [E Hp']. cbn [ma_exec] in Hstep. rewrite bind_eq in Hstep.
  unfold zoom at 1 in Hstep. cbn [lget lset ma_lens] in Hstep. rewrite E in Hstep.
  rewrite bind_eq. unfold zoom at 1. cbn [lget lset wh_lens ma_exec]. rewrite bind_eq. unfold zoom at 1.
  cbn [lget lset ma_lens]. rewrite E. eexists. split; [done|]. split; cbn.
  - exact Hstep.
  - eapply lives_keep; [exact Hl|done| |done]. cbn. by apply rotated_regions.
  - by exists l.
  - by apply calls_age.
Qed.

(** The second half. *)
Lemma finish_ok i l m s :
  whole_ok s -> wh_lives s !! i = Some l -> mutation_of l = Some m -> wh_busy s = Some i ->
  exists s', (_ ← zoom wh_lens (ma_exec AFinish); modify (fun s => put_life i (after_mutation l) (set_busy None s))) s =
    Done tt s' /\ whole_ok s'.
Proof.
  intros [Hma Hl Hb Hc] Hi Hm Hbusy. rewrite Hbusy in Hb. unfold busy_ok in Hb.
  destruct (ma_phase (wh_ma s)) as [m'|] eqn:Hph; [|done]. destruct Hb as (l0 & Hi' & Hm').
  rewrite Hi in Hi'. injection Hi' as <-. rewrite Hm in Hm'. injection Hm' as <-.
  pose proof Hma as [Hp Hbz Hfits _ _]. pose proof Hp as [[Hwf _] _ _ _ _].
  assert (Hcur : current (tracker (p_registry (ma_proc (wh_ma s)))) = []) by (apply Hbz; by rewrite Hph).
  pose proof (ma_step_ok AFinish (wh_ma s) Hma ltac:(cbn; rewrite Hph; done)) as Hstep.
  destruct (proc_finish_ok m _ Hp Hcur (Hfits _ Hph)) as [E Hp'].
  destruct (finished_wf m _ Hwf Hcur) as (_ & Hreg & _).
  cbn [ma_exec] in Hstep. rewrite bind_eq in Hstep. cbn [get] in Hstep. rewrite Hph, bind_eq in Hstep.
  unfold zoom at 1 in Hstep. cbn [lget lset ma_lens] in Hstep. rewrite E in Hstep.
  rewrite bind_eq. unfold zoom at 1. cbn [lget lset wh_lens ma_exec]. rewrite bind_eq. cbn [get].
  rewrite Hph, bind_eq. unfold zoom at 1. cbn [lget lset ma_lens]. rewrite E. eexists. split; [done|].
  split; cbn; [exact Hstep| |done|].
  - eapply (lives_put i l); [exact Hl|done|]. intros rest Hrest.
    destruct l; try done; injection Hm as <-.
    + by eapply register_life.
    + by eapply unregister_life.
  - eapply calls_put; [exact Hc|exact Hi|]. intros self ->. done.
Qed.

(** A step that leaves the registry. *)
Lemma plain_life_ok i l s :
  whole_ok s -> wh_lives s !! i = Some l -> mutation_of l = None ->
  exists s', (l' ← zoom wh_lens (zoom ma_lens (life_step l)); modify (put_life i l')) s = Done tt s' /\ whole_ok s'.
Proof.
  intros [Hma Hl Hb Hc] Hi Hm. pose proof Hma as [Hp _ _ _ _].
  destruct (life_step_ok k0 l (delete i (wh_lives s)) (ma_proc (wh_ma s))) as (l' & p' & E & Hl').
  { by rewrite (delete_Permutation _ _ _ Hi) in Hl. }
  pose proof (life_step_frame l _ l' p' Hp E) as Hf.
  assert (Hfr : life_frame (ma_proc (wh_ma s)) p') by by destruct l.
  destruct Hfr as (Hr & Ht & Hh). rewrite bind_eq. unfold zoom. cbn [lget lset wh_lens ma_lens]. rewrite E.
  eexists. split; [done|]. split; cbn.
  - apply ma_inv_proc; try done. apply Hl'.
  - by rewrite (insert_perm _ _ _ _ Hi).
  - by eapply busy_put.
  - destruct l; try (by eapply calls_put). cbn in E. injection E as <- _. by rewrite list_insert_id.
Qed.

Lemma whole_life_ok i s :
  whole_ok s -> wh_enabled (WhLife i) s -> exists s', wh_exec (WhLife i) s = Done tt s' /\ whole_ok s'.
Proof.
  intros Hok Hen. cbn [wh_enabled wh_exec] in *. rewrite bind_eq. cbn [get].
  destruct (wh_lives s !! i) as [l|] eqn:Hi; [|done].
  destruct (mutation_of l) as [m|] eqn:Hm; [|by apply plain_life_ok].
  destruct Hen as [E|E]; rewrite E; [by eapply begin_ok|by eapply finish_ok].
Qed.

(** ** The other events *)

Lemma whole_drop_ok i s :
  whole_ok s -> wh_enabled (WhDrop i) s -> exists s', wh_exec (WhDrop i) s = Done tt s' /\ whole_ok s'.
Proof.
  intros Hok Hen. pose proof Hok as [Hma Hl Hb Hc]. eexists. split; [done|]. cbn in Hen |- *.
  destruct (wh_lives s !! i) as [l|] eqn:Hi; [|done]. destruct l as [| | | | | |self| | | |]; try done.
  split; cbn; [done| |by eapply busy_put|by eapply calls_put].
  eapply lives_put; [exact Hl|exact Hi|]. intros rest Hrest. eapply swap_life; try done; [apply Hrest|].
  by pose proof (lo_fine _ _ _ Hrest) as [? _]%Forall_cons.
Qed.

Lemma whole_read_ok t i offset len f s :
  whole_ok s -> wh_enabled (WhRead t i offset len f) s ->
  exists s', wh_exec (WhRead t i offset len f) s = Done tt s' /\ whole_ok s'.
Proof.
  intros Hok (Hidle & Ho & Hlen & Hf). pose proof Hok as [Hma Hl Hb Hc]. cbn [wh_exec]. rewrite bind_eq. cbn [get].
  destruct (wh_lives s !! i) as [l|] eqn:Hi; [|by eexists].
  destruct l as [| | | | | |self| | | |]; try by eexists.
  rewrite range_exceeds_spec by by eapply live_length. destruct (Z.ltb_spec (raw_len (raw self)) (offset + len)); [by eexists|].
  rewrite bind_eq. eexists. split; [done|].
  pose proof (ma_step_ok (ACall t (f (raw_ptr (raw self) + offset) len)) (wh_ma s) Hma Hidle) as Hstep.
  split; cbn; [exact Hstep|done|done|]. eapply calls_new; [exact Hc|exact Hi|].
  eapply prog_typed_mono; [| |apply Hf]; intros a Ha; unfold inside, RawMmap_as_ptr in *; lia.
Qed.

Lemma whole_step_ok e s :
  whole_ok s -> wh_enabled e s ->
  match wh_exec e s with Done _ s' => whole_ok s' | Stop why _ => whole_stops s e why end.
Proof.
  intros Hok Hen. pose proof Hok as [Hma Hl Hb Hc]. destruct e as [o pa|i|i|t i offset len f|t|t|k].
  - cbn. split; cbn; [done| | |by apply calls_open].
    + rewrite (Permutation_app_comm _ [LOpen o pa]). destruct Hl as [Hp Hr Hs Hf]. split; [done..|].
      by apply Forall_cons.
    + destruct (wh_busy s) as [i|], (ma_phase (wh_ma s)) as [m|]; try done. destruct Hb as (l & Hi & Hm).
      exists l. split; [by apply lookup_app_l_Some|done].
  - by destruct (whole_drop_ok i s Hok Hen) as (s' & -> & ?).
  - by destruct (whole_life_ok i s Hok Hen) as (s' & -> & ?).
  - by destruct (whole_read_ok t i offset len f s Hok Hen) as (s' & -> & ?).
  - by apply whole_call_ok.
  - cbn in Hen |- *. destruct (ma_exit_ok t (wh_ma s) Hma Hen) as (ma' & E & Hma'). pose proof Hma as [Hp _ _ _ _].
    destruct (thread_exit_ok t _ Hp) as (p' & Ep & Hp' & Hos & [Hr _] & _).
    unfold zoom. cbn [lget lset ma_lens wh_lens]. unfold zoom in E. cbn [lget lset ma_lens] in E.
    rewrite Ep in E |- *. injection E as <-. split; cbn; [done| |done|done].
    eapply lives_keep; [exact Hl|done|by rewrite Hr|by rewrite Hos].
  - pose proof (ma_step_ok (AOs k) (wh_ma s) Hma I) as Hstep. cbn in Hen |- *.
    split; cbn; [exact Hstep| |done|done]. eapply lives_keep; [exact Hl|apply Hstep|done|done].
Qed.

Lemma whole_start_ok e0 :
  snd (sys_sigaction e0) = 0 -> fst (snd (pthread_key_create (fst (sys_sigaction e0)))) = 0 ->
  whole_ok (whole_start (proc_init k0 e0)).
Proof.
  intros H1 H2. pose proof (proc_init_ok k0 e0 H1 H2) as Hp. split; cbn; [| |done|by intros t c].
  - by apply ma_inv_init.
  - split; cbn; [done|done|apply space_start|constructor].
Qed.

Lemma wh_reachable_ok e0 s :
  snd (sys_sigaction e0) = 0 -> fst (snd (pthread_key_create (fst (sys_sigaction e0)))) = 0 ->
  wh_reachable (proc_init k0 e0) s -> whole_ok s.
Proof.
  intros H1 H2. induction 1 as [|s e s' _ IH Hen E]; [by apply whole_start_ok|].
  pose proof (whole_step_ok e s IH Hen) as H. by rewrite E in H.
Qed.

(** C1 (safety): the promise of the crate, and where it ends. Threads open and drop any
    number of mappings and read live ones, with closures that stay in their
    slice, and the steps of all of them interleave: system calls, the halves of
    each change of the registry, accesses, handlers, thread exits, changes of
    the files by others, addresses given out again. From a process at its start,
    at every moment, no step panics or jumps to a dead frame, and the next step
    ends the process only if the kernel answers an access of a closure with
    SIGSEGV, if a closure panics, or in the two ways the crate leaves open: a
    SIGBUS kills it after a protected call that the closure had made itself has
    returned; and a handler that more than two changes of the registry have
    overtaken since it loaded the snapshot finds it freed (undefined behaviour)
    or replaced by one that lacks the address (SIGBUS). Short of those two, a
    SIGBUS in a mapping never ends the process. A read that returned
    gives what its closure computed from its own accesses, or the address of its
    own faulting access; the handler intercepts exactly the mappings that are
    live or about to be unregistered; all their pages are mapped, and no two
    share one; what was mapped before the crate mapped anything still is, and
    nothing else is mapped (unless the kernel refuses to unmap mapped pages). *)
Theorem whole_recovers e0 s :
  snd (sys_sigaction e0) = 0 -> fst (snd (pthread_key_create (fst (sys_sigaction e0)))) = 0 ->
  wh_reachable (proc_init k0 e0) s ->
  (forall e, wh_enabled e s -> match wh_exec e s with Done _ _ => True | Stop why _ => whole_stops s e why end) /\
  (forall t c r, ma_calls (wh_ma s) !! t = Some c -> c_pc c = CDone r -> call_result_ok c r) /\
  (forall a, covered (ma_proc (wh_ma s)) a = true <->
     exists self, (LLive self ∈ wh_lives s \/ LUnregister self ∈ wh_lives s) /\ inside (raw self) a) /\
  (let k := p_os (ma_proc (wh_ma s)) in
   let held x := exists l r, l ∈ wh_lives s /\ mapping_of l = Some r /\ occupies r x in
   all_apart (omap mapping_of (wh_lives s)) /\ (forall x, held x -> mapped k x) /\
   (forall x, mapped k0 x -> mapped k x /\ ~ held x) /\
   (munmap_succeeds (K := K) -> forall x, mapped k x -> mapped k0 x \/ held x)).
Proof.
  intros H1 H2 Hr. pose proof (wh_reachable_ok e0 s H1 H2 Hr) as Hok.
  pose proof Hok as [Hma Hl _ _]. split; [|split; [|split]].
  - intros e Hen. pose proof (whole_step_ok e s Hok Hen) as H. by destruct (wh_exec e s).
  - intros t [q tr l pc] r Ht Epc. pose proof (mi_calls _ Hma t _ Ht) as H. cbn in Epc. subst pc. apply H.
  - intros a. by eapply covered_lives.
  - by apply lives_space.
Qed.
End Proofs.
