(* ===== verification/Fallback.v ===== *)
(** The [pread] path: src/src/sys/pread.rs ([pread_exact]) and
    src/src/fallback/mod.rs ([PreadReader]). *)

From stdpp Require Import prelude gmap strings.
From Stdlib Require Import ZArith Lia.
From S2P Require Import Prelude Errors Env SysMmap Registry Signal Probe SafeMmap.

(** * sys::pread *)

Definition in_i64 (x : Z) : Prop := - 2 ^ 63 <= x <= isize_max.

#[global] Instance in_i64_dec x : Decision (in_i64 x).
Proof. unfold in_i64. apply _. Defined.

Section Pread.
Context `{PR : Profile} {K : Type} `{VMK : !VM K} `{FSK : !FS K}.

(** [i64] addition. *)
Definition i64add (a b : Z) : M K Z :=
  if overflow_checks && negb (bool_decide (in_i64 (a + b))) then panic
  else mret (as_i64 (a + b)).

(** The kernel writes [bs] over [buf], from [total] on. *)
Definition fill_at (buf : list Z) (total : Z) (bs : list Z) : list Z :=
  take (Z.to_nat total) buf ++ bs ++ drop (Z.to_nat total + length bs) buf.

(** The loop of [pread_exact]: an iteration that goes on has read at least one
    byte, so that [buf.len()] iterations and a last test are enough. *)
Fixpoint pread_loop (fuel : nat) (fd : Z) (buf : list Z) (offset total : Z) :
    M K (list Z * result unit AccessError) :=
  match fuel with
  | O => stop StopDiverge
  | S fuel =>
      let len := Z.of_nat (length buf) in
      if total <? len then
        count ← usub len total;
        pos ← i64add offset (as_i64 total);
        r ← call (fun k => sys_pread k fd count pos);
        let '(ret, bs) := r in
        let buf := fill_at buf total bs in
        if ret <? 0 then
          e ← last_os_error; mret (buf, Err (Io e))
        else if ret =? 0 then
          mret (buf, Err (Io (NewError UnexpectedEof "pread returned 0 before buffer was filled")))
        else
          total ← uadd total ret;
          pread_loop fuel fd buf offset total
      else mret (buf, Ok tt)
  end.

(** [pread_exact(fd, &mut buf, offset)]: the buffer it leaves, and its
    result. *)
Definition pread_exact (fd : Z) (buf : list Z) (offset : Z) :
    M K (list Z * result unit AccessError) :=
  pread_loop (S (length buf)) fd buf offset 0.
End Pread.

(** * fallback::PreadReader *)

Record PreadReader := {
  pr_file : Z;
  pr_len : Z;
  pr_path : Path;
}.

Section Reader.
Context `{PR : Profile} {K : Type} `{VMK : !VM K} `{FSK : !FS K}.

Definition PreadReader_open (path : Path) : M K (result PreadReader io_error) :=
  file ←? call (fun k => sys_open k path false);
  unless_moved (call (fun k => sys_close k file)) (
    len ←? call (fun k => sys_fstat k file);
    mret (Ok {| pr_file := file; pr_len := len; pr_path := path |})).

(** [vec![0u8; len]]: a size past [isize::MAX] panics (capacity overflow). *)
Definition vec_zeroed (len : Z) : M K (list Z) :=
  if isize_max <? len then panic else mret (replicate (Z.to_nat len) 0).

(** The closure gets the buffer, not the file: it makes no system calls of
    the crate, and is a function of the bytes. *)
Definition PreadReader_read {R} (self : PreadReader) (range_start range_end : Z)
    (f : list Z -> R) : M K (result R AccessError) :=
  let offset := range_start in
  len ← usub range_end range_start;
  if pr_len self <? range_end then mret (Err (OutOfBounds offset len (pr_len self)))
  else
    buf ← vec_zeroed len;
    r ← pread_exact (pr_file self) buf (as_i64 offset);
    match r with
    | (buf, Ok _) => mret (Ok (f buf))
    | (_, Err e) => mret (Err e)
    end.

Definition PreadReader_len (self : PreadReader) : Z := pr_len self.
Definition PreadReader_is_empty (self : PreadReader) : bool := pr_len self =? 0.
Definition PreadReader_path (self : PreadReader) : Path := pr_path self.

Definition PreadReader_drop (self : PreadReader) : M K unit :=
  call (fun k => sys_close k (pr_file self)).
End Reader.

(** * Lemmas *)

Lemma as_i64_small x : 0 <= x <= isize_max -> as_i64 x = x.
Proof.
  intros H. unfold as_i64. rewrite Z.mod_small by (unfold isize_max, usize_modulus in *; lia).
  by destruct (Z.leb_spec x isize_max); [|lia].
Qed.

Section Proofs.
Context `{PR : Profile} {K : Type} `{VMK : !VM K} `{FSK : !FS K} `{FL : !FileLaws K}.
Implicit Types k : K.

Lemma i64add_ok a b k : 0 <= a -> 0 <= b -> a + b <= isize_max -> i64add a b k = Done (a + b) k.
Proof.
  intros Ha Hb Hab. unfold i64add. rewrite bool_decide_eq_true_2 by (unfold in_i64; lia).
  rewrite andb_false_r, as_i64_small by lia. done.
Qed.

Lemma length_fill_at buf total bs :
  0 <= total -> total + Z.of_nat (length bs) <= Z.of_nat (length buf) ->
  length (fill_at buf total bs) = length buf.
Proof.
  intros Ht Hl. unfold fill_at. rewrite !length_app, length_take, length_drop. lia.
Qed.

(** The bytes [offset, offset + n) of a file. *)
Definition slice_of (bs : list Z) (offset n : Z) : list Z :=
  take (Z.to_nat n) (drop (Z.to_nat offset) bs).

Lemma slice_extend bs offset a b :
  0 <= offset -> 0 <= a -> 0 <= b -> offset + a <= Z.of_nat (length bs) ->
  slice_of bs offset a ++ slice_of bs (offset + a) b = slice_of bs offset (a + b).
Proof.
  intros Ho Ha Hb Hl. unfold slice_of.
  replace (Z.to_nat (a + b)) with (Z.to_nat a + Z.to_nat b)%nat by lia.
  rewrite <- (take_drop (Z.to_nat a) (drop (Z.to_nat offset) bs)) at 2.
  rewrite take_app, take_take, length_take, length_drop, drop_drop.
  rewrite Nat.min_r by lia. f_equal. f_equal; [lia|]. f_equal. lia.
Qed.

Lemma length_slice bs offset n :
  0 <= offset -> 0 <= n -> offset + n <= Z.of_nat (length bs) ->
  Z.of_nat (length (slice_of bs offset n)) = n.
Proof. intros. unfold slice_of. rewrite length_take, length_drop. lia. Qed.

(** How a run of the loop ends: the buffer holds the bytes of the file; or a
    call failed; or the file ended early. *)
Definition pread_outcome (fd offset n : Z) k (o : outcome K (list Z * result unit AccessError)) :
    Prop :=
  let bytes := content k fd in
  (exists k', o = Done (slice_of bytes offset n, Ok tt) k' /\ content k' = content k /\
     (n = 0 \/ offset + n <= Z.of_nat (length bytes))) \/
  (exists buf k', o = Done (buf, Err (Io (OsError (errno k')))) k') \/
  (exists buf k',
     o = Done (buf, Err (Io (NewError UnexpectedEof "pread returned 0 before buffer was filled"))) k' /\
     Z.of_nat (length bytes) < offset + n).

Lemma fill_at_prefix buf total bs :
  0 <= total <= Z.of_nat (length buf) ->
  take (Z.to_nat total + length bs) (fill_at buf total bs) = take (Z.to_nat total) buf ++ bs.
Proof.
  intros Ht. unfold fill_at. rewrite app_assoc.
  assert (Hl : length (take (Z.to_nat total) buf ++ bs) = (Z.to_nat total + length bs)%nat)
    by (rewrite length_app, length_take; lia).
  rewrite take_app_le by lia. by apply take_ge; rewrite Hl.
Qed.

Lemma pread_loop_ok fuel fd buf offset total k n :
  n = Z.of_nat (length buf) -> 0 <= offset -> 0 <= total <= n -> offset + n <= isize_max ->
  take (Z.to_nat total) buf = slice_of (content k fd) offset total ->
  total = 0 \/ offset + total <= Z.of_nat (length (content k fd)) ->
  n - total < Z.of_nat fuel ->
  pread_outcome fd offset n k (pread_loop fuel fd buf offset total k).
Proof.
  revert buf total k. induction fuel as [|fuel IH]; intros buf total k Hn Ho Ht Hmax Hpre Hin Hf; [lia|].
  assert (Hbig : usize_modulus = 2 * isize_max + 2) by reflexivity.
  cbn [pread_loop]. rewrite <- Hn. destruct (Z.ltb_spec total n) as [Hlt|Hge].
  - rewrite bind_eq, usub_ok by lia. cbv beta iota.
    rewrite bind_eq, as_i64_small, i64add_ok by lia. cbv beta iota. rewrite bind_eq, call_eq.
    destruct (sys_pread k fd (n - total) (offset + total)) as [k' [ret bs]] eqn:E. cbv beta iota.
    destruct (Z.ltb_spec ret 0) as [Hneg|Hpos].
    { right; left. unfold last_os_error. rewrite bind_eq. unfold gets. rewrite mret_eq. eauto. }
    destruct (pread_ok _ _ _ _ _ _ _ E ltac:(lia) ltac:(lia) Hpos) as (Hret & Hbs & Hlen & Hz & Hk).
    destruct (Z.eqb_spec ret 0) as [H0|H0].
    { right; right. do 2 eexists. split; [apply mret_eq|]. apply Hz in H0. lia. }
    assert (Hpt : offset + total < Z.of_nat (length (content k fd))).
    { destruct (Z.lt_ge_cases (offset + total) (Z.of_nat (length (content k fd)))); [done|].
      by destruct H0; apply Hz. }
    assert (Hpr : offset + (total + ret) <= Z.of_nat (length (content k fd))).
    { rewrite Hbs, length_take, length_drop in Hlen. lia. }
    rewrite bind_eq, uadd_ok by lia. cbv beta iota.
    specialize (IH (fill_at buf total bs) (total + ret) k').
    unfold pread_outcome in IH |- *. rewrite Hk in IH. apply IH; try lia.
    + rewrite length_fill_at by lia. done.
    + replace (Z.to_nat (total + ret)) with (Z.to_nat total + length bs)%nat by lia.
      rewrite fill_at_prefix by lia. rewrite Hpre, <- slice_extend by lia. f_equal.
      rewrite Hbs. unfold slice_of. by rewrite !Z2Nat.inj_add by lia.
  - left. assert (total = n) as -> by lia. exists k. rewrite mret_eq.
    rewrite <- Hpre, take_ge by lia. done.
Qed.

Lemma pread_exact_ok fd buf offset k :
  0 <= offset -> offset + Z.of_nat (length buf) <= isize_max ->
  pread_outcome fd offset (Z.of_nat (length buf)) k (pread_exact fd buf offset k).
Proof.
  intros Ho Hmax. unfold pread_exact. apply pread_loop_ok; try lia. by rewrite Z2Nat.inj_0.
Qed.
End Proofs.

(** * Properties *)

Section Theorems.
Context `{PR : Profile} {K : Type} `{VMK : !VM K} `{FSK : !FS K} `{FL : !FileLaws K}.
Implicit Types k : K.

(** C34 (termination): [pread_exact] returns, however the kernel splits the read: the buffer
    then holds exactly the bytes of the file at the offset, or the error is
    that of a failed [pread], or it is [UnexpectedEof] and the file is shorter
    than the range. *)
Theorem pread_exact_returns fd buf offset k :
  0 <= offset -> offset + Z.of_nat (length buf) <= isize_max ->
  pread_outcome fd offset (Z.of_nat (length buf)) k (pread_exact fd buf offset k).
Proof. apply pread_exact_ok. Qed.

(** C33 (functional): [PreadReader::read] of an ordered range: past the length the file had
    when it was opened it is [OutOfBounds] without a system call; within it
    the closure gets the bytes the file holds now, or the read fails with an
    I/O error, [UnexpectedEof] only if the file has shrunk below the range. *)
Theorem pread_read_result {R} self rs re (f : list Z -> R) k :
  0 <= rs <= re -> pr_len self <= isize_max -> is_usize re ->
  (pr_len self < re /\
   PreadReader_read self rs re f k = Done (Err (OutOfBounds rs (re - rs) (pr_len self))) k) \/
  (re <= pr_len self /\
   let bytes := content k (pr_file self) in
   ((exists k', PreadReader_read self rs re f k = Done (Ok (f (slice_of bytes rs (re - rs)))) k' /\
       content k' = content k /\ (rs = re \/ re <= Z.of_nat (length bytes))) \/
    (exists k', PreadReader_read self rs re f k = Done (Err (Io (OsError (errno k')))) k') \/
    (exists k' m, PreadReader_read self rs re f k = Done (Err (Io (NewError UnexpectedEof m))) k' /\
       Z.of_nat (length bytes) < re))).
Proof.
  intros Hr Hl Hu. assert (Hbig : usize_modulus = 2 * isize_max + 2) by reflexivity.
  unfold is_usize in Hu. unfold PreadReader_read. rewrite bind_eq, usub_ok by lia. cbv beta iota.
  destruct (Z.ltb_spec (pr_len self) re); [by left|right]. split; [done|].
  unfold vec_zeroed. destruct (Z.ltb_spec isize_max (re - rs)); [lia|].
  rewrite bind_eq, mret_eq. cbv beta iota. rewrite bind_eq, as_i64_small by lia.
  set (buf := replicate (Z.to_nat (re - rs)) 0).
  assert (Hb : Z.of_nat (length buf) = re - rs) by (unfold buf; rewrite length_replicate; lia).
  pose proof (pread_exact_ok (pr_file self) buf rs k ltac:(lia) ltac:(lia)) as Hp. rewrite Hb in Hp.
  destruct Hp as [(k' & -> & Hk & Hc)|[(b & k' & ->)|(b & k' & -> & Hc)]]; cbv zeta.
  - left. exists k'. split; [done|]. split; [done|]. destruct Hc; [left|right]; lia.
  - right; left. by exists k'.
  - right; right. do 2 eexists. split; [done|]. lia.
Qed.

(** [PreadReader::read] with [range.end < range.start]: with overflow checks the
    subtraction panics; without them the wrapped length passes the length
    check whenever [range.end] is in the file, and the allocation of the
    buffer panics. It is [OutOfBounds] only for an end past the file. *)
Theorem pread_inverted_range {R} self rs re (f : list Z -> R) k :
  0 <= re < rs -> rs - re <= isize_max -> is_usize rs ->
  PreadReader_read self rs re f k =
    if overflow_checks then Stop StopPanic k
    else if pr_len self <? re
    then Done (Err (OutOfBounds rs (re - rs + usize_modulus) (pr_len self))) k
    else Stop StopPanic k.
Proof.
  intros Hr Hd Hu. assert (Hbig : usize_modulus = 2 * isize_max + 2) by reflexivity.
  unfold PreadReader_read. rewrite bind_eq. unfold usub.
  destruct (Z.ltb_spec (re - rs) 0); [|lia]. destruct overflow_checks; [done|]. cbn [andb].
  rewrite mret_eq. assert ((re - rs) mod usize_modulus = re - rs + usize_modulus) as ->.
  { rewrite <- (Z.mod_add _ 1) by done. rewrite Z.mod_small; [lia|]. unfold is_usize in Hu. lia. }
  destruct (pr_len self <? re); [done|]. unfold vec_zeroed.
  destruct (Z.ltb_spec isize_max (re - rs + usize_modulus)); [|lia]. done.
Qed.

(** [PreadReader::open] records the length of the file it opened, and a
    failure to read the length closes the descriptor. *)
Theorem pread_open_result pa k :
  match sys_open k pa false with
  | (k1, Err e) => PreadReader_open pa k = Done (Err e) k1
  | (k1, Ok fd) =>
      match sys_fstat k1 fd with
      | (k2, Ok n) =>
          PreadReader_open pa k = Done (Ok {| pr_file := fd; pr_len := n; pr_path := pa |}) k2
      | (k2, Err e) => PreadReader_open pa k = Done (Err e) (fst (sys_close k2 fd))
      end
  end.
Proof.
  unfold PreadReader_open. rewrite try_bind_eq, call_eq.
  destruct (sys_open k pa false) as [k1 [fd|e]]; [|done]. cbv beta iota.
  unfold unless_moved. rewrite bind_eq. unfold on_unwind. rewrite try_bind_eq, call_eq.
  destruct (sys_fstat k1 fd) as [k2 [n|e]]; cbv beta iota; [done|].
  rewrite bind_eq, call_eq. by destruct (sys_close k2 fd).
Qed.
End Theorems.

Section Agreement.
Context `{PR : Profile} `{LC : Libc} `{SC : Sysconf} `{SCok : !SysconfOk}.
Context `{AL : Allocator} `{ALok : !AllocatorOk}.
Context {K T C : Type} `{VMK : !VM K} `{PE : !ProcEnv T} `{PEok : !ProcEnvOk T}.
Context `{FSK : !FS K} `{FL : !FileLaws K} `{ML : !MemLaws K}.
Implicit Types (m : menv K T C).

(** C32 (equivalence): the two ways to read a file agree: where the mapping shows the bytes
    of the file and its pages can be supplied, [SafeMmap::read] and
    [PreadReader::read] of the same range give the closure the same bytes, and
    the second can only fail with the I/O error of a [pread]. *)
Theorem paths_agree t rs re m self :
  menv_ok m -> poisoned (m_self m) = false -> 0 <= rs <= re -> re <= raw_len (raw (m_self m)) ->
  let k := p_os (m_proc m) in
  let bytes := content k (pr_file self) in
  re <= pr_len self -> pr_len self <= Z.of_nat (length bytes) -> pr_len self <= isize_max ->
  holds k (raw_ptr (raw (m_self m)) + rs) (slice_of bytes rs (re - rs)) ->
  (exists m', SafeMmap_read t rs re (fun ptr len => to_vec ptr (Z.to_nat len)) m =
     Done (Ok (slice_of bytes rs (re - rs))) m') /\
  ((exists k', PreadReader_read self rs re (fun bs => bs) k = Done (Ok (slice_of bytes rs (re - rs))) k') \/
   (exists k', PreadReader_read self rs re (fun bs => bs) k = Done (Err (Io (OsError (errno k')))) k')).
Proof.
  intros Hok Hpo Hr Hle k bytes Hre Hb Hmax Hh.
  pose proof (RawMmap_wf_len _ (mo_raw _ Hok)) as Hlen.
  assert (Hbig : usize_modulus = 2 * isize_max + 2) by reflexivity.
  assert (Hu : is_usize re) by (unfold is_usize; lia).
  pose proof (length_slice bytes rs (re - rs) ltac:(lia) ltac:(lia) ltac:(lia)) as Hs. split.
  - destruct (read_ok t rs re (fun ptr len => to_vec ptr (Z.to_nat len)) m Hok Hpo Hr Hu)
      as [[Hlt _]|[_ Ha]]; [lia|].
    replace (Z.to_nat (re - rs)) with (length (slice_of bytes rs (re - rs))) in Ha by lia.
    destruct (spec_to_vec (covered (m_proc m)) _ _ true _ Hh) as (k' & E & _). fold k in Ha.
    rewrite E in Ha. destruct Ha as (p' & -> & _). by eexists.
  - assert (Hn : re - rs = Z.of_nat (length (replicate (Z.to_nat (re - rs)) 0)))
      by (rewrite length_replicate; lia).
    unfold PreadReader_read. rewrite bind_eq, usub_ok by lia. cbv beta iota.
    destruct (Z.ltb_spec (pr_len self) re); [lia|]. unfold vec_zeroed.
    destruct (Z.ltb_spec isize_max (re - rs)); [lia|].
    rewrite bind_eq, mret_eq. cbv beta iota. rewrite bind_eq, as_i64_small by lia.
    pose proof (pread_exact_ok (pr_file self) (replicate (Z.to_nat (re - rs)) 0) rs k
      ltac:(lia) ltac:(lia)) as Hp.
    rewrite <- Hn in Hp. fold bytes in Hp.
    destruct Hp as [(k' & -> & _)|[(b & k' & ->)|(b & k' & _ & Hc)]]; [left|right|]; [by eexists..|].
    fold bytes in Hc. lia.
Qed.
End Agreement.
