(* ===== verification/FsDetect.v ===== *)
(** src/src/sys/fs_detect.rs: which file system a path is on. *)

From stdpp Require Import prelude strings.
From Stdlib Require Import ZArith Lia.
From S2P Require Import Prelude Errors Env.

Inductive FsType := Local | Nfs | Cifs | Fuse | Efs | Unknown (f_type : Z).

#[global] Instance FsType_eq_dec : EqDecision FsType.
Proof. solve_decision. Defined.

Definition FsType_is_network (self : FsType) : bool :=
  match self with Nfs | Cifs | Efs => true | _ => false end.

Definition NFS_SUPER_MAGIC : Z := 0x6969.
Definition CIFS_MAGIC : Z := 0xFF534D42.
Definition FUSE_SUPER_MAGIC : Z := 0x65735546.
Definition EFS_SUPER_MAGIC : Z := 0x00414A53.

(** [CString::new]: it refuses a path with a null byte. *)
Definition path_to_cstring (path : Path) : result Path io_error :=
  if existsb (Z.eqb 0) path
  then Err (NewError InvalidInput "path contains null byte")
  else Ok path.

Section Detect.
Context `{TG : Target} {K : Type} `{VMK : !VM K} `{FSK : !FS K}.

(** The [match] on [stat.f_type]. *)
Definition classify_linux (f_type : Z) : FsType :=
  if f_type =? NFS_SUPER_MAGIC then Nfs
  else if f_type =? CIFS_MAGIC then Cifs
  else if f_type =? FUSE_SUPER_MAGIC then Fuse
  else if f_type =? EFS_SUPER_MAGIC then Efs
  else Local.

(** The [match] on the name in [stat.f_fstypename]. *)
Definition classify_macos (fs_name : string) : FsType :=
  if bool_decide (fs_name = "nfs"%string) then Nfs
  else if bool_decide (fs_name ∈ ["smbfs"; "cifs"]%string) then Cifs
  else if bool_decide (fs_name ∈ ["fusefs"; "osxfuse"; "macfuse"]%string) then Fuse
  else if bool_decide (fs_name ∈ ["apfs"; "hfs"; "msdos"; "exfat"; "ufs"; "devfs"]%string) then Local
  else Unknown 0.

Definition detect_linux (c_path : Path) : M K (result FsType io_error) :=
  r ← call (fun k => sys_statfs k c_path);
  let '(ret, stat) := r in
  if negb (ret =? 0) then e ← last_os_error; mret (Err e)
  else mret (Ok (classify_linux (f_type stat))).

Definition detect_macos (c_path : Path) : M K (result FsType io_error) :=
  r ← call (fun k => sys_statfs k c_path);
  let '(ret, stat) := r in
  if negb (ret =? 0) then e ← last_os_error; mret (Err e)
  else mret (Ok (classify_macos (f_fstypename stat))).

Definition FsType_detect (path : Path) : M K (result FsType io_error) :=
  c_path ←? mret (path_to_cstring path);
  if target_linux then detect_linux c_path else detect_macos c_path.
End Detect.

Section Theorems.
Context `{TG : Target} {K : Type} `{VMK : !VM K} `{FSK : !FS K}.

(** The values of [f_type], or the names of [f_fstypename], for which each answer
    is given; [None] is any other value. *)
Definition linux_types (t : FsType) : option (list Z) :=
  match t with
  | Nfs => Some [0x6969]
  | Cifs => Some [0xFF534D42]
  | Fuse => Some [0x65735546]
  | Efs => Some [0x00414A53]
  | Local => None
  | Unknown _ => Some []
  end.

Definition macos_names (t : FsType) : option (list string) :=
  match t with
  | Nfs => Some ["nfs"]
  | Cifs => Some ["smbfs"; "cifs"]
  | Fuse => Some ["fusefs"; "osxfuse"; "macfuse"]
  | Local => Some ["apfs"; "hfs"; "msdos"; "exfat"; "ufs"; "devfs"]
  | Unknown 0 => None
  | Efs | Unknown _ => Some []
  end%string.

Lemma network_kinds t : FsType_is_network t = true <-> t = Nfs \/ t = Cifs \/ t = Efs.
Proof. destruct t; cbn; intuition congruence. Qed.

(** The two tables have no value twice. *)
Lemma linux_once t t' types types' x :
  linux_types t = Some types -> linux_types t' = Some types' -> x ∈ types -> x ∈ types' -> t = t'.
Proof.
  destruct t, t'; intros [= <-] [= <-]; try done;
    rewrite ?list_elem_of_singleton, ?elem_of_nil; intros; done || lia.
Qed.

Lemma macos_once t t' names names' x :
  macos_names t = Some names -> macos_names t' = Some names' -> x ∈ names -> x ∈ names' -> t = t'.
Proof.
  destruct t as [| | | | |[]], t' as [| | | | |[]]; intros [= <-] [= <-]; try done;
    rewrite ?elem_of_cons, ?elem_of_nil; intros; exfalso; intuition congruence.
Qed.

Lemma linux_answer x t' :
  classify_linux x = t' <->
  match linux_types t' with
  | Some types => x ∈ types
  | None => forall t types, linux_types t = Some types -> x ∉ types
  end.
Proof.
  assert (Hc : match linux_types (classify_linux x) with
    | Some types => x ∈ types
    | None => forall t types, linux_types t = Some types -> x ∉ types
    end).
  { unfold classify_linux, NFS_SUPER_MAGIC, CIFS_MAGIC, FUSE_SUPER_MAGIC, EFS_SUPER_MAGIC.
    do 4 (match goal with |- context [x =? ?y] => destruct (Z.eqb_spec x y) as [->|] end;
      [by apply list_elem_of_singleton|]). cbn.
    intros t types. destruct t; intros [= <-]; rewrite ?list_elem_of_singleton, ?elem_of_nil; try done; lia. }
  split; [by intros <-|]. destruct (linux_types (classify_linux x)) as [types|] eqn:E.
  - destruct (linux_types t') as [types'|] eqn:E'; [intros H; by eapply linux_once|]. intros H. by destruct (H _ _ E).
  - destruct (linux_types t') as [types'|] eqn:E'; [intros H; by destruct (Hc _ _ E')|].
    intros _. by destruct (classify_linux x), t'.
Qed.

Lemma macos_answer x t' :
  classify_macos x = t' <->
  match macos_names t' with
  | Some names => x ∈ names
  | None => forall t names, macos_names t = Some names -> x ∉ names
  end.
Proof.
  assert (Hc : match macos_names (classify_macos x) with
    | Some names => x ∈ names
    | None => forall t names, macos_names t = Some names -> x ∉ names
    end).
  { unfold classify_macos. case_bool_decide; [by apply list_elem_of_singleton|]. do 3 (case_bool_decide; [done|]).
    intros t names. destruct t as [| | | | |[]]; intros [= <-]; rewrite ?list_elem_of_singleton, ?elem_of_nil; done || tauto. }
  split; [by intros <-|]. destruct (macos_names (classify_macos x)) as [names|] eqn:E.
  - destruct (macos_names t') as [names'|] eqn:E'; [intros H; by eapply macos_once|]. intros H. by destruct (H _ _ E).
  - destruct (macos_names t') as [names'|] eqn:E'; [intros H; by destruct (Hc _ _ E')|].
    intros _. by destruct (classify_macos x) as [| | | | |[]], t' as [| | | | |[]].
Qed.

(** C39 (functional): what [detect] answers, for every path, answer of
    [statfs] and target. It refuses exactly the paths with a null byte, before
    any system call, and reports the error of a failed [statfs]. Otherwise, on
    Linux, the answer is NFS, CIFS, FUSE or EFS exactly for the magic number of
    each, and [Local] for every other: never [Unknown]. On macOS it is NFS, CIFS,
    FUSE or [Local] exactly for the names of each, and [Unknown] for every other:
    never EFS. A network file system is one that is answered NFS, CIFS or EFS. *)
Theorem detect_result path (k : K) :
  if existsb (Z.eqb 0) path then
    FsType_detect path k = Done (Err (NewError InvalidInput "path contains null byte")) k
  else
    let '(k', (ret, stat)) := sys_statfs k path in
    if ret =? 0 then exists t, FsType_detect path k = Done (Ok t) k' /\
      (FsType_is_network t = true <-> t = Nfs \/ t = Cifs \/ t = Efs) /\
      forall t', t = t' <->
        if target_linux then
          match linux_types t' with
          | Some types => f_type stat ∈ types
          | None => forall t types, linux_types t = Some types -> f_type stat ∉ types
          end
        else
          match macos_names t' with
          | Some names => f_fstypename stat ∈ names
          | None => forall t names, macos_names t = Some names -> f_fstypename stat ∉ names
          end
    else FsType_detect path k = Done (Err (OsError (errno k'))) k'.
Proof.
  unfold FsType_detect, path_to_cstring. destruct (existsb _ path); [done|].
  rewrite try_bind_eq, mret_eq. cbv beta iota. unfold detect_linux, detect_macos, last_os_error.
  destruct (sys_statfs k path) as [k' [ret stat]] eqn:E.
  destruct target_linux; rewrite bind_eq, call_eq, E; cbv beta iota;
    (destruct (ret =? 0); [|done]); cbn [negb]; eexists; (split; [done|]); (split; [by apply network_kinds|]); intros t'.
  - apply linux_answer.
  - apply macos_answer.
Qed.
End Theorems.
