(* ===== verification/Scope.v ===== *)
(** The threads of the [multi_thread] scenario, src/src/bin/sigbus_victim.rs:
    eight threads of a [std::thread::scope] that read through guards of their
    own. The steps of their reads are the steps of [Threads.v], and a schedule
    interleaves them one by one. [thread_alone] shows that a thread that runs
    alone does what its closure does as a whole. *)

From stdpp Require Import prelude gmap.
From Stdlib Require Import ZArith Lia.
From S2P Require Import Prelude Errors Env SysMmap Registry RegistryRcu Signal SafeMmap System Threads.

(** Where a thread of the scope is. *)
Inductive scope_pc :=
  | SGuard                      (* signal_test_helpers::guard(&tm.raw) *)
  | SRead (guard : ReadGuard)   (* guard.read(..): the range check *)
  | SCall (c : pcall Z)         (* guard.read(..): the protected call *)
  | SEnd (r : option bool)      (* the closure has returned, or panicked *)
  | SExited (r : option bool).  (* the thread's destructors have run *)

Section Scope.
Context `{PR : Profile} `{AL : Allocator} {K T : Type} `{VMK : !VM K} `{PE : !ProcEnv T}.
Local Abbreviation P := (M (proc K T)).

(** A panic of a thread's closure is its result. *)
Definition unwound (m : P scope_pc) : P scope_pc := fun p =>
  match m p with
  | Stop StopPanic p' => Done (SEnd None) p'
  | out => out
  end.

(** One step of a thread whose closure is
    [matches!(guard(raw).read(offset, 1, |b| b[0]), Err(Sigbus { .. }))]. *)
Definition scope_step (t : tid) (raw : RawMmap) (offset : Z) (pc : scope_pc) : P scope_pc :=
  match pc with
  | SGuard => unwound (g ← helper_guard raw; mret (SRead g))
  | SRead g =>
      if range_exceeds offset 1 (raw_len (guard_raw g)) then mret (SEnd (Some false))
      else mret (SCall (start (index0 (RawMmap_as_ptr (guard_raw g) + offset) 1)))
  | SCall c =>
      match c_pc c with
      | CDone r => mret (SEnd (Some (negb (is_ok r))))
      | _ => unwound (c' ← call_step t 0 c; mret (SCall c'))
      end
  | SEnd r => _ ← thread_exit t; mret (SExited r)
  | SExited _ => mret pc
  end.

(** A schedule: each number is one step of that thread. *)
Fixpoint run_steps (tids : nat -> tid) (raw : RawMmap) (offset : Z) (order : list nat)
    (threads : list scope_pc) : P (list scope_pc) :=
  match order with
  | [] => mret threads
  | i :: order =>
      match threads !! i with
      | None => run_steps tids raw offset order threads
      | Some pc =>
          pc' ← scope_step (tids i) raw offset pc;
          run_steps tids raw offset order (<[i := pc']> threads)
      end
  end.

Definition exited (pc : scope_pc) : bool := match pc with SExited _ => true | _ => false end.

(** [h.join().unwrap()]. *)
Definition join (pc : scope_pc) : P bool :=
  match pc with
  | SExited (Some b) => mret b
  | SExited None => panic
  | _ => stop StopDiverge
  end.

Fixpoint join_all (threads : list scope_pc) : P (list bool) :=
  match threads with
  | [] => mret []
  | pc :: threads => b ← join pc; bs ← join_all threads; mret (b :: bs)
  end.

(** The scope: it waits for every thread, also when a [join] panics. *)
Definition run_scope (tids : nat -> tid) (raw : RawMmap) (offset : Z) (order : list nat) (n : nat) :
    P (list bool) :=
  ended ← run_steps tids raw offset order (replicate n SGuard);
  if forallb exited ended then join_all ended else stop StopDiverge.
End Scope.

(** * A thread that runs alone *)

Section Alone.
Context `{PR : Profile} `{AL : Allocator} {K T : Type} `{VMK : !VM K} `{PE : !ProcEnv T}.
Implicit Types (p : proc K T) (threads : list scope_pc).

(** The closure as a whole, with the modelled [ReadGuard::read]. *)
Definition thread_recovers (raw : RawMmap) (offset : Z) (t : tid) : M (proc K T) bool :=
  g ← helper_guard raw;
  r ← ReadGuard_read t g offset 1 index0;
  mret (match r with Err (Sigbus _) => true | _ => false end).

(** And the thread: a panic is its result, and its destructors run. *)
Definition spawned {A} (t : tid) (body : M (proc K T) A) : M (proc K T) (option A) :=
  r ← (fun p => match body p with
                | Done a p' => Done (Some a) p'
                | Stop StopPanic p' => Done None p'
                | Stop why p' => Stop why p'
                end);
  _ ← thread_exit t;
  mret r.

Context (tids : nat -> tid) (raw : RawMmap) (offset : Z) (i : nat) (threads : list scope_pc).
Hypothesis is_thread : (i < length threads)%nat.

(** Steps of the thread alone lead from [pc] to [out]. *)
Definition leads pc p (out : outcome (proc K T) (list scope_pc)) : Prop :=
  exists n, run_steps tids raw offset (replicate n i) (<[i := pc]> threads) p = out.

Lemma leads_by pc p out :
  match scope_step (tids i) raw offset pc p with
  | Done pc' p' => leads pc' p' out
  | Stop why p' => out = Stop why p'
  end -> leads pc p out.
Proof.
  intros H. assert (Hstep : forall n, run_steps tids raw offset (replicate (S n) i) (<[i := pc]> threads) p =
    match scope_step (tids i) raw offset pc p with
    | Done pc' p' => run_steps tids raw offset (replicate n i) (<[i := pc']> threads) p'
    | Stop why p' => Stop why p'
    end).
  { intros n. cbn [replicate run_steps]. rewrite list_lookup_insert_eq by done. rewrite bind_eq.
    destruct (scope_step _ _ _ _ _); by rewrite ?list_insert_insert_eq. }
  destruct (scope_step _ _ _ _ _) as [pc' p'|why p'] eqn:E.
  - destruct H as [n <-]. exists (S n). by rewrite Hstep.
  - exists 1%nat. by rewrite Hstep.
Qed.

(** The end of the thread. *)
Definition finish (r : option bool) p : outcome (proc K T) (list scope_pc) :=
  match thread_exit (tids i) p with
  | Done _ p' => Done (<[i := SExited r]> threads) p'
  | Stop why p' => Stop why p'
  end.

Lemma leads_end r p : leads (SEnd r) p (finish r p).
Proof.
  apply leads_by. cbn [scope_step]. unfold finish. rewrite !bind_eq.
  destruct (thread_exit (tids i) p) as [u p'|why p']; [|done]. by exists 0%nat.
Qed.

Lemma spawned_eq (body : M (proc K T) bool) p :
  (r ← spawned (tids i) body; mret (<[i := SExited r]> threads)) p =
  match body p with
  | Done b p' => finish (Some b) p'
  | Stop StopPanic p' => finish None p'
  | Stop why p' => Stop why p'
  end.
Proof.
  unfold spawned, finish. rewrite !bind_eq.
  destruct (body p) as [b p'|[] p']; try done; rewrite bind_eq; by destruct (thread_exit _ _).
Qed.

(** The call of the read. *)
Lemma leads_call c p o out :
  flows (tids i) c p o ->
  match o with
  | Done (Normal r) p' => leads (SEnd (Some (negb (is_ok r)))) p' out
  | Done (Jumping _) p' => out = Stop StopUB p'
  | Stop StopPanic p' => leads (SEnd None) p' out
  | Stop why p' => out = Stop why p'
  end -> leads (SCall c) p out.
Proof.
  assert (Hstep : forall c p, ~ idle (Some c) -> scope_step (tids i) raw offset (SCall c) p =
    unwound (c' ← call_step (tids i) 0 c; mret (SCall c')) p).
  { intros c1 p1. unfold idle. cbn [scope_step]. destruct (c_pc c1); tauto. }
  intros H. induction H as [c p r E|c p c' p' o Hi E _ IH|c p e p' Hi E|c p why p' Hi E]; intros Hout;
    apply leads_by.
  - cbn [scope_step]. by rewrite E.
  - rewrite Hstep by done. unfold unwound, call_step. rewrite !bind_eq, E. by apply IH.
  - rewrite Hstep by done. unfold unwound, call_step. by rewrite !bind_eq, E.
  - rewrite Hstep by done. unfold unwound, call_step. rewrite !bind_eq, E. by destruct why.
Qed.

Lemma thread_alone p :
  leads SGuard p
    ((r ← spawned (tids i) (thread_recovers raw offset (tids i));
      mret (<[i := SExited r]> threads)) p).
Proof.
  rewrite spawned_eq. unfold thread_recovers. apply leads_by. cbn [scope_step]. unfold unwound, helper_guard.
  rewrite !bind_eq. unfold ReadGuard_new. rewrite !bind_eq.
  destruct (install_handler p) as [[] p1|why p1]; [|destruct why; try done; apply leads_end].
  rewrite !mret_eq. apply leads_by. cbn [scope_step guard_raw]. rewrite bind_eq.
  unfold ReadGuard_read. cbn [guard_raw]. destruct (range_exceeds _ _ _).
  { rewrite !mret_eq. apply leads_end. }
  rewrite mret_eq, bind_eq. eapply leads_call; [apply flows_start; intros; apply flows_run|].
  unfold protect. rewrite bind_eq.
  destruct (with_sigbus_protection _ _ _) as [[r|e] p2|why p2]; [|done|].
  - rewrite mret_eq. destruct r as [v|f]; rewrite !mret_eq; apply leads_end.
  - destruct why; try done. apply leads_end.
Qed.
End Alone.

(** * A closure that loads one byte *)

(** The steps its call has left, at most. *)
Definition call_left (c : pcall Z) : nat :=
  match c_pc c with
  | CInstall => 9
  | CInit => 8
  | CProtect _ => 7
  | CSetjmp _ => 6
  | CRun _ _ (PLoad _ _) => 5
  | CFaulted _ _ _ => 4
  | CRun _ _ _ | CScan _ _ _ _ _ => 3
  | CLeave _ _ => 2
  | CFault _ => 1
  | _ => 0
  end.

(** The steps a thread has left, at most. *)
Definition thread_left (pc : scope_pc) : nat :=
  match pc with
  | SGuard => 13
  | SRead _ => 12
  | SCall c => S (S (call_left c))
  | SEnd _ => 1
  | SExited _ => 0
  end.

Section Byte.
Context `{PR : Profile} `{AL : Allocator} {K T : Type} `{VMK : !VM K} `{PE : !ProcEnv T}.
Context `{ALok : !AllocatorOk} `{PEok : !ProcEnvOk T} `{FL : !FaultLaws K}.
Implicit Types (p : proc K T) (c : pcall Z).

Lemma call_flow_on_time {R} t overlap (c c' : pcall R) p p' :
  (overlap <= 2)%nat -> call_flow t overlap c p = Done (Normal c') p' ->
  overtaken c = false -> overtaken c' = false.
Proof.
  intros Hle. revert c' p'. induction c as [R c IH] using pcall_nest_ind. intros c' p' E Ht.
  destruct c as [q tr l pc]. cbn [call_flow] in E.
  assert (Hj : forall l' e state frame p2,
    (if bool_decide (e = Some frame) then mret (Normal (MkCall q tr l' (CLeave state None)))
     else mret (Jumping e) : M (proc K T) (flow (pcall R))) p2 = Done (Normal c') p' -> overtaken c' = false).
  { intros l' e state frame p2. case_bool_decide; [|done]. by intros [= <- _]. }
  destruct pc as [| |ptr|ptr|ptr fr [v|a kk|a b kk| |A qq kk]|A ptr fr inner kk|ptr fr f|ptr fr f sp rd|ptr [v|]|ptr|r].
  10: { destruct (c_pc inner); try (by injection E as <- _);
      (apply bind_done in E as ([inner'|e] & p1 & Ei & E); [injection E as <- _|by eapply Hj]);
      (eapply (IH _ p1); [|done]; revert Ei; unfold trampoline;
       by destruct (call_flow t overlap inner p) as [?|[] ?]). }
  all: try (by injection E as <- _); try done.
  all: apply bind_done in E as (y & p1 & E1 & E).
  all: try (by eapply Hj); try (by injection E as <- _); try (by destruct y; [injection E as <- _..|]).
  - apply bind_done in E as (z & p2 & _ & E). apply bind_done in E as (z' & p3 & _ & E). by injection E as <- _.
  - apply bind_done in E as (z & p2 & _ & E). injection E as <- _. apply bool_decide_eq_false_2. cbn. lia.
Qed.

(** What such a closure can have been answered. *)
Lemma byte_resume a tr (q : prog Z) :
  resume (read_byte a) tr = Some q ->
  (tr = TNil /\ q = PLoad a PRet) \/ exists b, tr = TByte b TNil /\ q = PRet b.
Proof.
  destruct tr as [|b [| | |]| |]; cbn; try done.
  - intros [= <-]. by left.
  - intros [= <-]. right. by exists b.
Qed.

(** Its call, while the byte is in a region: the process ends only where the
    load is answered with SIGSEGV. *)
Lemma byte_dies p busy t c a x why :
  call_ok p busy t c -> c_prog c = read_byte a -> x ∈ regions (p_registry p) -> in_region a x = true ->
  seen_has x c -> overtaken c = false -> call_dies p c why -> why = StopKilled SIGSEGV /\ refused c (p_os p).
Proof.
  intros Hc Hq Hx Hin Hs Ho [Hd|[[-> Hu]|[[-> Hpan]|[Hl _]%lost_overtaken]]]; [done| | |]; exfalso; [| |congruence].
  - eapply (touching_caught p busy t (.= a) x c); try done; [by rewrite Hq|by intros ? ->].
  - destruct c as [q tr l pc]. cbn in Hq. subst q. destruct pc as [| |ptr|ptr|ptr fr q'|A ptr fr inner k|ptr fr f|ptr fr f sp rd|ptr res|ptr|r]; try done.
    + destruct Hc as (_ & _ & Hr). by destruct (byte_resume _ _ _ Hr) as [[_ ->]|(b & _ & ->)].
    + destruct Hc as (_ & Hr & _). by destruct (byte_resume _ _ _ Hr) as [[_ ?]|(b & _ & ?)].
Qed.

(** Its steps come to an end. *)
Lemma byte_left busy t c a p p' c' :
  call_ok p busy t c -> c_prog c = read_byte a -> ~ idle (Some c) ->
  call_step t 0 c p = Done c' p' -> (call_left c' < call_left c)%nat.
Proof.
  intros Hc Hq Hni E. unfold call_step in E. apply bind_done in E as ([c1|e] & p1 & E & E1); [|done].
  injection E1 as <- <-. destruct c as [q tr l pc]. cbn in Hq. subst q. cbn [call_flow] in E.
  assert (Hj : forall l' e state frame p2,
    (if bool_decide (e = Some frame) then mret (Normal (MkCall (read_byte a) tr l' (CLeave state None)))
     else mret (Jumping e) : M (proc K T) (flow (pcall Z))) p2 = Done (Normal c1) p1 -> call_left c1 = 2%nat).
  { intros l' e state frame p2. case_bool_decide; [|done]. by intros [= <- _]. }
  destruct pc as [| |ptr|ptr|ptr fr q'|A ptr fr inner k|ptr fr f|ptr fr f sp rd|ptr res|ptr|r]; try done.
  5: { destruct Hc as (_ & _ & Hr). destruct (byte_resume _ _ _ Hr) as [[-> ->]|(b & -> & ->)].
    - apply bind_done in E as ([b|f|] & p2 & _ & E); [..|done]; injection E as <- _; cbn; lia.
    - injection E as <- _. cbn. lia. }
  5: { destruct Hc as (_ & Hr & _). by destruct (byte_resume _ _ _ Hr) as [[_ ?]|(b & _ & ?)]. }
  all: apply bind_done in E as (y & p2 & _ & E).
  all: try (injection E as <- _; cbn; lia).
  - apply bind_done in E as (z & p3 & _ & E). apply bind_done in E as (z' & p4 & _ & E).
    injection E as <- _. cbn. lia.
  - rewrite (Hj _ _ _ _ _ E). cbn. lia.
  - injection E as <- _. destruct res; cbn; lia.
Qed.

(** What its next step asks of the kernel. *)
Lemma byte_next p busy t c a :
  call_ok p busy t c -> c_prog c = read_byte a ->
  (forall k, os_after c k = k /\ ~ refused c k) \/
  (forall k, os_after c k = fst (load k a) /\ (refused c k -> snd (load k a) = SegFault)).
Proof.
  intros Hc Hq. destruct c as [q tr l pc]. cbn in Hq. subst q.
  destruct pc as [| |ptr|ptr|ptr fr q'|A ptr fr inner k|ptr fr f|ptr fr f sp rd|ptr res|ptr|r];
    try (left; intros k; split; [done|intros []]).
  - destruct Hc as (_ & _ & Hr). destruct (byte_resume _ _ _ Hr) as [[-> ->]|(b & -> & ->)].
    + by right.
    + left. intros k. split; [done|intros []].
  - destruct Hc as (_ & Hr & _). by destruct (byte_resume _ _ _ Hr) as [[_ ?]|(b & _ & ?)].
Qed.

(** A load that raises SIGBUS answers the closure nothing. *)
Lemma byte_heard busy t c a k f p p' c' :
  call_ok p busy t c -> c_prog c = read_byte a -> load (p_os p) a = (k, BusError f) ->
  call_step t 0 c p = Done c' p' -> c_heard c = TNil -> c_heard c' = TNil.
Proof.
  intros Hc Hq Hl E. unfold call_step in E. apply bind_done in E as ([c1|e] & p1 & E & E1); [|done].
  injection E1 as <- <-. destruct c as [q tr l pc]. cbn in Hq. subst q. cbn [call_flow c_heard] in *. intros ->.
  assert (Hj : forall l' e state frame p2,
    (if bool_decide (e = Some frame) then mret (Normal (MkCall (read_byte a) TNil l' (CLeave state None)))
     else mret (Jumping e) : M (proc K T) (flow (pcall Z))) p2 = Done (Normal c1) p1 -> c_heard c1 = TNil).
  { intros l' e state frame p2. case_bool_decide; [|done]. by intros [= <- _]. }
  destruct pc as [| |ptr|ptr|ptr fr q'|A ptr fr inner kk|ptr fr f'|ptr fr f' sp rd|ptr res|ptr|r].
  6: { destruct Hc as (_ & Hr & _). by destruct (byte_resume _ _ _ Hr) as [[_ ?]|(b & _ & ?)]. }
  5: { destruct Hc as (_ & _ & Hr). destruct (byte_resume _ _ _ Hr) as [[_ ->]|(b & ? & _)]; [|done].
    rewrite bind_eq in E. unfold zoom, call in E. cbn [lget os_lens] in E. rewrite Hl in E.
    by injection E as <- _. }
  all: try (apply bind_done in E as (y & p2 & _ & E)); try (by injection E as <- _); try (by eapply Hj).
  apply bind_done in E as (z & p3 & _ & E). apply bind_done in E as (z' & p4 & _ & E). by injection E as <- _.
Qed.
End Byte.

(** * The threads of a scope *)

Section Threads.
Context `{PR : Profile} `{AL : Allocator} {K T : Type} `{VMK : !VM K} `{PE : !ProcEnv T}.
Context `{ALok : !AllocatorOk} `{PEok : !ProcEnvOk T} `{FL : !FaultLaws K}.
Implicit Types (p : proc K T) (c : pcall Z).

(** The byte that is read is in the registered region [x]; when it is [sure],
    no page can be supplied for it. *)
Context (tids : nat -> tid) (n : nat) (raw : RawMmap) (offset : Z) (x : RegisteredRegion).
Context (sure : bool) (lost : K -> Prop).
Local Abbreviation addr := (raw_ptr raw + offset).
Hypothesis tids_differ : NoDup (tids <$> seq 0 n).
Hypothesis in_mapping : is_usize (raw_len raw) /\ offset + 1 <= raw_len raw.
Hypothesis in_x : in_region addr x = true.
Hypothesis lost_load : sure = true -> forall k, lost k ->
  exists k', load k addr = (k', BusError addr) /\ lost k'.

Definition answer_ok (r : option bool) : Prop :=
  match r with Some b => sure = true -> b = true | None => False end.

Definition thread_fine p (t : tid) (pc : scope_pc) : Prop :=
  match pc with
  | SGuard => True
  | SRead g => guard_raw g = raw
  | SCall c =>
      call_ok p false t c /\ c_prog c = read_byte addr /\ overtaken c = false /\ seen_has x c /\
      (sure = true -> c_heard c = TNil)
  | SEnd r | SExited r => answer_ok r
  end.

Record process_fine p : Prop := {
  pf_proc : proc_ok p;
  pf_region : x ∈ regions (p_registry p);
  pf_lost : sure = true -> lost (p_os p);
}.

Definition threads_fine p (threads : list scope_pc) : Prop :=
  process_fine p /\ forall i pc, threads !! i = Some pc -> thread_fine p (tids i) pc.

(** How the scope may stop. *)
Definition scope_dies (why : stop_reason) : Prop := sure = false /\ why = StopKilled SIGSEGV.

Lemma thread_fine_other t t' p p' pc :
  step_frame t p p' -> t' <> t -> thread_fine p t' pc -> thread_fine p' t' pc.
Proof.
  intros Hf Hne. destruct pc as [|g|c|r|r]; try done. intros (Hc & Hrest). split; [|done].
  by eapply call_ok_other.
Qed.

Lemma process_keep t p p' :
  process_fine p -> proc_ok p' -> step_frame t p p' -> (sure = true -> lost (p_os p')) -> process_fine p'.
Proof. intros [_ Hx _] Hp [[Hr _] _] Hl. split; [done|by rewrite Hr|done]. Qed.

(** A step of the read's call. *)
Lemma scope_call_ok t c p :
  process_fine p -> thread_fine p t (SCall c) -> ~ idle (Some c) ->
  ends scope_dies
    (fun c' p' => process_fine p' /\ step_frame t p p' /\ thread_fine p' t (SCall c') /\
       (call_left c' < call_left c)%nat)
    (call_step t 0 c p).
Proof.
  intros Hpf (Hc & Hq & Ht & Hs & Hh) Hni. pose proof Hpf as [Hp Hx Hl].
  pose proof (call_step_ok t false c p Hp Hc Hni) as H. cbn in H.
  destruct (call_step t 0 c p) as [c' p'|why p'] eqn:E; cbn.
  - destruct H as (Hp' & Hf & Hc' & Hos). pose proof Hf as [[Hr _] _].
    assert (Ef : call_flow t 0 c p = Done (Normal c') p').
    { unfold call_step in E. apply bind_done in E as ([c1|e] & p1 & -> & E1); [|done]. by injection E1 as -> ->. }
    assert (Hl' : sure = true -> lost (p_os p')).
    { intros Hsure. rewrite Hos. destruct (byte_next _ _ _ _ _ Hc Hq) as [Hn|Hn]; destruct (Hn (p_os p)) as [-> _];
        [by apply Hl|]. destruct (lost_load Hsure _ (Hl Hsure)) as (k' & -> & ?). done. }
    split; [by eapply process_keep|]. split; [done|]. split; [|by eapply byte_left].
    split; [done|]. split; [by rewrite (call_step_prog _ _ _ _ _ _ E)|].
    split; [by eapply (call_flow_on_time t 0); [lia| |]|].
    split; [by eapply (call_flow_seen t 0)|].
    intros Hsure. destruct (lost_load Hsure _ (Hl Hsure)) as (k' & El & _).
    by eapply (byte_heard false t c addr); [| |exact El|exact E|apply Hh].
  - destruct (byte_dies _ _ _ _ _ _ _ Hc Hq Hx in_x Hs Ht H) as [-> Href]. split; [|done].
    apply not_true_iff_false. intros Hsure. destruct (lost_load Hsure _ (Hl Hsure)) as (k' & El & _).
    destruct (byte_next _ _ _ _ _ Hc Hq) as [Hn|Hn]; destruct (Hn (p_os p)) as [_ Hn'].
    + by destruct (Hn' Href).
    + specialize (Hn' Href). by rewrite El in Hn'.
Qed.

Lemma ends_unwound E (Q : scope_pc -> proc K T -> Prop) m p :
  (forall why, E why -> why <> StopPanic) -> ends E Q (m p) -> ends E Q (unwound m p).
Proof.
  intros HE. unfold unwound. destruct (m p) as [a p'|why p']; cbn; [done|].
  intros Hw. specialize (HE why Hw). by destruct why.
Qed.

(** A step of a thread. *)
Lemma scope_step_ok t pc p :
  process_fine p -> thread_fine p t pc ->
  ends scope_dies
    (fun pc' p' => process_fine p' /\ step_frame t p p' /\ thread_fine p' t pc' /\
       (thread_left pc' <= thread_left pc - 1)%nat)
    (scope_step t raw offset pc p).
Proof.
  intros Hpf Ht. pose proof Hpf as [Hp Hx Hl].
  assert (Hd : forall why, scope_dies why -> why <> StopPanic) by (by intros why [_ ->]).
  destruct pc as [|g|c|r|r]; cbn [scope_step].
  - apply ends_unwound; [done|]. unfold helper_guard, ReadGuard_new. rewrite !bind_eq, install_ok by done.
    cbv beta iota. rewrite mret_eq. cbn.
    assert (Hf : step_frame t p (installed p)) by (split; [apply installed_only|done]).
    split; [eapply process_keep; [done|by apply installed_ok|exact Hf|exact Hl]|]. split; [done|]. split; [done|lia].
  - cbn in Ht. rewrite Ht, range_exceeds_spec by apply in_mapping.
    destruct (Z.ltb_spec (raw_len raw) (offset + 1)); [lia|]. rewrite mret_eq. cbn.
    split; [done|]. split; [by apply step_frame_refl|]. split; [|lia]. by split_and!.
  - destruct (call_done c) as [[r Epc]|Hni].
    + rewrite Epc, mret_eq. cbn. split; [done|]. split; [by apply step_frame_refl|]. split; [|lia].
      intros Hsure. destruct Ht as (Hc & Hq & _ & _ & Hh). specialize (Hh Hsure).
      destruct c as [q tr l pc]. cbn in Epc, Hq, Hh. subst. destruct r as [v|f]; [|done]. by destruct Hc as [_ ?].
    + assert (E : forall Y (d : result Z Z -> Y) (e : Y), match c_pc c with CDone r => d r | _ => e end = e).
      { intros Y d e. revert Hni. unfold idle. by destruct (c_pc c). }
      rewrite E. apply ends_unwound; [done|]. eapply ends_bind; [by apply scope_call_ok|].
      intros c' p' (Hp' & Hf & Ht' & Hlt). rewrite mret_eq. cbn. split_and!; try apply Ht'; [done..|lia].
  - rewrite bind_eq. destruct (thread_exit_ok t p Hp) as (p' & -> & Hp' & Hos & Ho & _ & _ & Hh & _).
    rewrite mret_eq. cbn. assert (Hf : step_frame t p p') by (split; [done|by rewrite Hh]).
    split; [eapply process_keep; [done..|by rewrite Hos]|]. split; [done|]. split; [done|lia].
  - rewrite mret_eq. cbn. split; [done|]. split; [by apply step_frame_refl|]. split; [done|lia].
Qed.

(** Any schedule. *)
Lemma run_steps_ok order threads p :
  length threads = n -> threads_fine p threads ->
  ends scope_dies
    (fun threads' p' => threads_fine p' threads' /\ length threads' = n /\
       forall i pc, threads !! i = Some pc -> exists pc', threads' !! i = Some pc' /\
         (thread_left pc' <= thread_left pc - count_occ Nat.eq_dec order i)%nat)
    (run_steps tids raw offset order threads p).
Proof.
  revert threads p. induction order as [|i order IH]; intros threads p Hlen [Hp Hf]; cbn [run_steps].
  { cbn. split; [done|]. split; [done|]. intros i pc Hi. exists pc. split; [done|lia]. }
  destruct (threads !! i) as [pc|] eqn:Hi.
  - eapply ends_bind; [by apply scope_step_ok; [|apply Hf]|]. intros pc' p' (Hp' & Hfr & Hpc' & Hleft).
    eapply ends_mono; [apply IH| |]; [by rewrite length_insert| |done|].
    + split; [done|]. intros j pcj. destruct (decide (i = j)) as [<-|Hne].
      * rewrite list_lookup_insert_eq by (by eapply lookup_lt_Some). by intros [= <-].
      * rewrite list_lookup_insert_ne by done. intros Hj. eapply thread_fine_other; [done| |by apply Hf].
        intros Et. apply Hne. symmetry. apply lookup_lt_Some in Hi, Hj. eapply (NoDup_lookup _ j i (tids j) tids_differ).
        -- by rewrite list_lookup_fmap, lookup_seq_lt by lia.
        -- by rewrite Et, list_lookup_fmap, lookup_seq_lt by lia.
    + intros threads' s (Hfine & Hl' & Hall). split; [done|]. split; [done|]. intros j pcj Hj.
      cbn [count_occ]. destruct (Nat.eq_dec i j) as [<-|Hne].
      * destruct (Hall i pc') as (pc2 & E2 & Hle);
          [by rewrite list_lookup_insert_eq by (by eapply lookup_lt_Some)|].
        exists pc2. split; [done|]. replace pcj with pc by congruence. lia.
      * apply Hall. by rewrite list_lookup_insert_ne.
  - eapply ends_mono; [by apply IH|done|]. intros threads' s (Hfine & Hl' & Hall).
    split; [done|]. split; [done|]. intros j pcj Hj. cbn [count_occ].
    destruct (Nat.eq_dec i j) as [<-|]; [congruence|]. by apply Hall.
Qed.

Lemma join_all_ok threads p :
  (forall pc, pc ∈ threads -> exists r, pc = SExited r /\ answer_ok r) ->
  exists bs, join_all threads p = Done bs p /\ (sure = true -> forallb id bs = true).
Proof.
  induction threads as [|pc threads IH]; intros H; [by exists []|]. cbn [join_all]. rewrite bind_eq.
  destruct (H pc) as ([b|] & -> & Hr); [set_solver| |done]. cbn [join]. rewrite mret_eq, bind_eq.
  destruct IH as (bs & -> & Hbs); [set_solver|]. exists (b :: bs). split; [done|].
  intros Hsure. cbn. by rewrite (Hr Hsure), Hbs.
Qed.

(** The scope ends once each thread has had its steps. *)
Lemma run_scope_ok order p :
  process_fine p -> Forall (fun i => 13 <= count_occ Nat.eq_dec order i)%nat (seq 0 n) ->
  ends scope_dies (fun bs p' => process_fine p' /\ (sure = true -> forallb id bs = true))
    (run_scope tids raw offset order n p).
Proof.
  intros Hp Hord. unfold run_scope. eapply ends_bind; [apply (run_steps_ok order (replicate n SGuard))|].
  - by rewrite length_replicate.
  - split; [done|]. intros i pc Hi. by apply lookup_replicate in Hi as [-> _].
  - intros ended p' ([Hp' Hf] & Hlen & Hall).
    assert (Hex : forall pc, pc ∈ ended -> exists r, pc = SExited r /\ answer_ok r).
    { intros pc [i Hi]%list_elem_of_lookup. pose proof (lookup_lt_Some _ _ _ Hi) as Hlt. rewrite Hlen in Hlt.
      destruct (Hall i SGuard) as (pc' & Hi' & Hle); [by apply lookup_replicate|].
      rewrite Forall_forall in Hord. pose proof (Hord i ltac:(apply elem_of_seq; lia)) as H13.
      replace pc' with pc in * by congruence. pose proof (Hf i pc Hi) as Hpc.
      destruct pc as [|g|c|r|r]; cbn in Hle; try lia. by exists r. }
    replace (forallb exited ended) with true.
    2: { symmetry. apply forallb_forall. intros pc Hin%list_elem_of_In.
      by destruct (Hex pc Hin) as (r & -> & _). }
    destruct (join_all_ok ended p' Hex) as (bs & -> & Hbs). by split.
Qed.
End Threads.
