(* ===== verification/Victim.v ===== *)
(** The program of the crate, src/src/bin/sigbus_victim.rs: it provokes SIGBUS on
    mappings of short or vanishing files, and its exit code says whether the
    crate recovered. A scenario runs over the modelled library; what it asks of
    the system beyond the library is the class [Shell] of [Env.v]. The steps of
    the eight threads of [multi_thread] interleave as [Scope.v] says. *)

From stdpp Require Import prelude gmap strings pretty.
From Stdlib Require Import ZArith Lia.
From S2P Require Import Prelude Errors Env SysMmap Registry Signal Probe SafeMmap Prefetch Open System Scope.

(** * The standard library, as the program uses it *)

(** Text as bytes, and [Path::join] of a relative name. *)
Definition bytes_of (s : string) : Path :=
  (fun c => Z.of_N (Ascii.N_of_ascii c)) <$> String.list_ascii_of_string s.

Definition path_join (dir name : Path) : Path :=
  match last dir with
  | None => name
  | Some c => if c =? 47 then dir ++ name else dir ++ [47] ++ name
  end.

(** [str::strip_prefix], and [args.iter().find_map(..)]. *)
Definition strip_prefix (pre s : string) : option string :=
  if String.prefix pre s
  then Some (String.substring (String.length pre) (String.length s - String.length pre) s)
  else None.

Definition find_arg (pre : string) (args : list string) : option string :=
  head (omap (strip_prefix pre) args).

(** [(0..stop).step_by(step)]. *)
Definition range_step_by (stop step : Z) : list Z := probe_offsets step 0 stop.

(** [b.iter().map(|&x| x as u64).sum::<u64>()]. *)
Fixpoint sum_bytes `{PR : Profile} (ptr : Z) (n : nat) (acc : Z) : prog Z :=
  match n with
  | O => PRet acc
  | S n => PLoad ptr (fun x =>
      if overflow_checks && (usize_modulus <=? acc + x) then PPanic
      else sum_bytes (ptr + 1) n ((acc + x) mod usize_modulus))
  end.

Record TestMapping := {
  tm_raw : RawMmap;
  tm_path : Path;
  tm_file : Z;
  tm_page_size : Z;
}.

(** Who runs what: the main thread, the worker of a prefetch and the events of
    its run, the eight threads of a scope and the order of their steps. *)
Record schedule := {
  sc_main : tid;
  sc_worker : tid;
  sc_events : list event;
  sc_thread : nat -> tid;
  sc_order : list nat;
}.

Section Program.
Context `{PR : Profile} `{TG : Target} `{LC : Libc} `{SC : Sysconf} `{AL : Allocator}.
Context {K T : Type} `{VMK : !VM K} `{FSK : !FS K} `{PE : !ProcEnv T} `{SH : !Shell K}.
Context (fmt_duration : Duration -> string) (fmt_io : io_error -> string).
Local Abbreviation P := (M (proc K T)).

Definition expect {A E} (r : result A E) : P A :=
  match r with Ok a => mret a | Err _ => panic end.

Definition print_line (err : bool) (line : string) : P unit :=
  written ← os (call (fun k => sys_print k err line));
  if written : bool then mret tt else panic.

Definition println : string -> P unit := print_line false.
Definition eprintln : string -> P unit := print_line true.

(** [format!("{e}")] of an [AccessError]. *)
Definition shown (e : AccessError) : P string := fun p =>
  match display_AccessError fmt_duration fmt_io e tt with
  | Done msg _ => Done msg p
  | Stop why _ => Stop why p
  end.

(** [let _ = fs::remove_file(path)]. *)
Definition remove_file (path : Path) : P unit :=
  _ ← os (call (fun k => sys_remove_file k path));
  mret tt.

Definition exit_with (err : bool) (line : string) (code : Z) : P Z :=
  _ ← print_line err line;
  mret code.

(** ** Mappings that reach past their file *)

Definition create_sigbus_mapping (dir : Path) (name : string) : P TestMapping :=
  let path := path_join dir (bytes_of name) in
  r ← os (call (fun k => sys_write_file k path (bytes_of "x")));
  _ ← expect r;
  r ← os (call (fun k => sys_open k path false));
  file ← expect r;
  on_unwind (close_file file) (
    ps ← page_size;
    map_len ← umul ps 2;
    r ← os (RawMmap_map file 0 map_len);
    raw ← expect r;
    on_unwind (os (RawMmap_drop raw)) (
      _ ← register_and_install (RawMmap_as_ptr raw) (RawMmap_len raw);
      mret {| tm_raw := raw; tm_path := path; tm_file := file; tm_page_size := ps |})).

(** The fields of a [TestMapping] with destructors, in their order. *)
Definition drop_TestMapping (tm : TestMapping) : P unit :=
  _ ← os (RawMmap_drop (tm_raw tm));
  close_file (tm_file tm).

(** [guard.read(tm.page_size, 1, |b| b[0])] through a guard of its own. *)
Definition read_past_eof (t : tid) (tm : TestMapping) : P (result Z AccessError) :=
  guard ← helper_guard (tm_raw tm);
  ReadGuard_read t guard (tm_page_size tm) 1 index0.

Definition scenario_sigbus_basic (sc : schedule) (dir : Path) : P Z :=
  tm ← create_sigbus_mapping dir "sigbus_basic.bin";
  scoped (drop_TestMapping tm) (
    r ← read_past_eof (sc_main sc) tm;
    match r with
    | Err (Sigbus _) =>
        _ ← println "recovered";
        _ ← remove_file (tm_path tm);
        mret 0
    | Ok val =>
        _ ← eprintln ("unexpected success: got byte " +:+ lower_hex val);
        _ ← remove_file (tm_path tm);
        mret 1
    | Err e =>
        msg ← shown e;
        _ ← eprintln ("unexpected error: " +:+ msg);
        _ ← remove_file (tm_path tm);
        mret 1
    end).

Definition scenario_multi_thread (sc : schedule) (dir : Path) : P Z :=
  tm ← create_sigbus_mapping dir "sigbus_mt.bin";
  scoped (drop_TestMapping tm) (
    results ← run_scope (sc_thread sc) (tm_raw tm) (tm_page_size tm) (sc_order sc) 8;
    _ ← remove_file (tm_path tm);
    if forallb id results then exit_with false "recovered" 0
    else exit_with true "not all threads recovered" 1).

(** [for _ in 0..n]; the counter is an atomic, which wraps. *)
Fixpoint count_faults (t : tid) (tm : TestMapping) (n : nat) (count : Z) : P Z :=
  match n with
  | O => mret count
  | S n =>
      r ← read_past_eof t tm;
      count_faults t tm n
        (match r with Err (Sigbus _) => (count + 1) mod u32_modulus | _ => count end)
  end.

Definition scenario_poison (sc : schedule) (dir : Path) : P Z :=
  tm ← create_sigbus_mapping dir "sigbus_poison.bin";
  scoped (drop_TestMapping tm) (
    let max_faults := 2 in
    count ← count_faults (sc_main sc) tm (Z.to_nat max_faults) 0;
    _ ← remove_file (tm_path tm);
    if max_faults <=? count
    then exit_with false ("poisoned after " +:+ pretty count +:+ " faults") 0
    else exit_with true ("expected " +:+ pretty max_faults +:+ " faults, got " +:+ pretty count) 1).

(** ** Mappings of whole files *)

(** A mapping held while [f] runs, then dropped. *)
Definition holding {A} (self : SafeMmap unit) (f : M (menv K T unit) A) : P A := fun p =>
  match scoped (s ← self_get id; on_proc (SafeMmap_drop s)) f (MkMenv p self tt) with
  | Done a m => Done a (m_proc m)
  | Stop why m => Stop why (m_proc m)
  end.

Definition scenario_prefetch_sigbus (sc : schedule) (dir : Path) : P Z :=
  let path := path_join dir (bytes_of "sigbus_prefetch.bin") in
  ps ← page_size;
  n ← umul ps 4;
  r ← os (call (fun k => sys_write_file k path (replicate (Z.to_nat n) 221)));
  _ ← expect r;
  r ← SafeMmap_open path;
  mmap ← expect r;
  holding mmap (
    n ← umul ps 4;
    result ← prefetch_with_timeout (sc_worker sc) (sc_events sc) 0 n (5 * 10 ^ 9);
    on_proc (
      _ ← remove_file path;
      match result with
      | Ok _ => exit_with false "prefetch_ok" 0
      | Err e => msg ← shown e; exit_with true ("unexpected error: " +:+ msg) 1
      end)).

Definition scenario_nfs_read (sc : schedule) (file_path : option Path) : P Z :=
  match file_path with
  | None => exit_with true "--file= required for nfs_read scenario" 1
  | Some path =>
      r ← SafeMmap_open path;
      match r with
      | Err e => exit_with true ("failed to open: " +:+ display_MmapError fmt_io e) 1
      | Ok mmap => holding mmap (
          r ← SafeMmap_read (sc_main sc) 0 4096 (fun ptr len => sum_bytes ptr (Z.to_nat len) 0);
          on_proc (match r with
          | Ok sum => exit_with false ("nfs_read_ok sum=" +:+ pretty sum) 0
          | Err e => msg ← shown e; exit_with true ("nfs read error: " +:+ msg) 1
          end))
      end
  end.

(** The loop of [nfs_failure]: the counts of faults and of successes. *)
Fixpoint read_pages (t : tid) (len page : Z) (offsets : list Z) (faults successes : Z) :
    M (menv K T unit) (Z * Z) :=
  match offsets with
  | [] => mret (faults, successes)
  | offset :: offsets =>
      rest ← usub len offset;
      let read_len := Z.min page rest in
      e ← uadd offset read_len;
      r ← SafeMmap_read t offset e index0;
      match r with
      | Ok _ =>
          successes ← u32add successes 1;
          read_pages t len page offsets faults successes
      | Err (Sigbus fault_address) =>
          _ ← on_proc (println ("SIGBUS caught at " +:+ lower_hex fault_address +:+ " — recovered!"));
          faults ← u32add faults 1;
          read_pages t len page offsets faults successes
      | Err e =>
          _ ← on_proc (msg ← shown e; println ("other error: " +:+ msg));
          faults ← u32add faults 1;
          read_pages t len page offsets faults successes
      end
  end.

(** [nfs_failure] once the mapping is open. *)
Definition nfs_failure_body (t : tid) : M (menv K T unit) Z :=
  len ← self_get SafeMmap_len;
  r ← SafeMmap_read t 0 1 index0;
  match r with
  | Err e => on_proc (msg ← shown e; exit_with true ("initial read failed: " +:+ msg) 1)
  | Ok _ =>
      _ ← on_proc (println "initial read ok");
      _ ← SafeMmap_evict 0 len;
      _ ← on_proc (println "waiting for NFS server to die...");
      _ ← on_os (call (fun k => sys_sleep k (5 * 10 ^ 9)));
      _ ← on_proc (println "attempting read after NFS failure...");
      page ← page_size;
      counts ← read_pages t len page (range_step_by len page) 0 0;
      let '(faults, successes) := counts in
      on_proc (
        _ ← println ("results: " +:+ pretty successes +:+ " pages ok, " +:+ pretty faults
                     +:+ " faults caught");
        if 0 <? faults then exit_with false "nfs_failure_recovered" 0
        else exit_with false "nfs_pages_cached (server down but pages still resident)" 0)
  end.

Definition scenario_nfs_failure (sc : schedule) (file_path : option Path) : P Z :=
  match file_path with
  | None => exit_with true "--file= required for nfs_failure scenario" 1
  | Some path =>
      r ← SafeMmap_open path;
      match r with
      | Err e => exit_with true ("failed to open: " +:+ display_MmapError fmt_io e) 1
      | Ok mmap => holding mmap (nfs_failure_body (sc_main sc))
      end
  end.

(** The exit code of the program. *)
Definition victim_main (sc : schedule) (temp_dir : Path) (args : list string) : P Z :=
  let scenario := default "sigbus_basic"%string (find_arg "--scenario=" args) in
  let dir := from_option bytes_of temp_dir (find_arg "--dir=" args) in
  let file_path := bytes_of <$> find_arg "--file=" args in
  if String.eqb scenario "sigbus_basic" then scenario_sigbus_basic sc dir
  else if String.eqb scenario "multi_thread" then scenario_multi_thread sc dir
  else if String.eqb scenario "poison" then scenario_poison sc dir
  else if String.eqb scenario "prefetch_sigbus" then scenario_prefetch_sigbus sc dir
  else if String.eqb scenario "nfs_read" then scenario_nfs_read sc file_path
  else if String.eqb scenario "nfs_failure" then scenario_nfs_failure sc file_path
  else exit_with true ("unknown scenario: " +:+ scenario) 1.
End Program.

(** * What the scenarios show *)

Section Proofs.
Context `{PR : Profile} `{TG : Target} `{LC : Libc} `{SC : Sysconf} `{AL : Allocator}.
Context {K T : Type} `{VMK : !VM K} `{FSK : !FS K} `{PE : !ProcEnv T} `{SH : !Shell K}.
Context `{SCok : !SysconfOk} `{ALok : !AllocatorOk} `{PEok : !ProcEnvOk T} `{MO : !MmapOk K}.
Context `{FSO : !FSOk K} `{FL : !FaultLaws K} `{SHok : !ShellOk K}.
Context (fmt_duration : Duration -> string) (fmt_io : io_error -> string).
Implicit Types (m : menv K T unit) (p : proc K T) (k : K).

(** ** Printing *)

Lemma print_line_ok err line p :
  exists k, print_line err line p = Done tt (set_os k p).
Proof.
  unfold print_line. rewrite bind_eq, os_call_eq. pose proof (print_ok (p_os p) err line) as H.
  destruct (sys_print (p_os p) err line) as [k b]. cbn in H. subst. by exists k.
Qed.

Lemma exit_with_ok err line code p :
  exists k, exit_with err line code p = Done code (set_os k p).
Proof.
  unfold exit_with. rewrite bind_eq. destruct (print_line_ok err line p) as [k ->]. by exists k.
Qed.

(** The messages of the errors a read inside the mapping can give. *)
Definition printable (e : AccessError) : Prop :=
  match e with Sigbus _ | Poisoned _ => True | _ => False end.

Lemma shown_ok e p :
  printable e -> exists msg, shown fmt_duration fmt_io e p = Done msg p.
Proof. unfold shown. destruct e; try done; by eexists. Qed.

(** ** Reading one byte of a live mapping *)

(** The mapping can be used, and all its bytes are registered. *)
Record mapping_ok m : Prop := {
  map_menv : menv_ok m;
  map_covered : forall a, raw_ptr (raw (m_self m)) <= a < raw_ptr (raw (m_self m)) + raw_len (raw (m_self m)) ->
    covered (m_proc m) a = true;
}.

(** What later states share: the mapping is where it was, and so is the
    registry. *)
Definition same_mapping m m' : Prop :=
  mapping_ok m' /\ raw (m_self m') = raw (m_self m) /\ file (m_self m') = file (m_self m) /\
  p_registry (m_proc m') = p_registry (m_proc m).

Lemma same_trans m1 m2 m3 : same_mapping m1 m2 -> same_mapping m2 m3 -> same_mapping m1 m3.
Proof. intros (_ & ? & ? & ?) (? & ? & ? & ?). split; [done|]. split_and!; congruence. Qed.

Lemma same_keep m p' self' u' :
  mapping_ok m -> proc_ok p' -> p_registry p' = p_registry (m_proc m) ->
  raw self' = raw (m_self m) -> file self' = file (m_self m) -> poison_inv self' ->
  callback_returns self' -> same_mapping m (MkMenv p' self' u').
Proof.
  intros [[_ Hwf _ _] Hc] Hp Hr Hraw Hf Hpi Hcb. split_and!; [|done..].
  split; cbn; [by split; cbn; [..|rewrite Hraw| |]|].
  rewrite Hraw. intros a Ha. unfold covered. rewrite Hr. by apply Hc.
Qed.

Lemma same_os m k : mapping_ok m -> same_mapping m (MkMenv (set_os k (m_proc m)) (m_self m) (m_user m)).
Proof.
  intros Hm. pose proof Hm as [[Hp Hwf Hpi Hcb] _]. apply same_keep; try done. by apply set_os_ok.
Qed.

(** [read(offset..e, |b| b[0])]: whatever the kernel does with the page, a
    value, a fault that was caught, or the refusal of a poisoned mapping; not
    a death by SIGBUS. *)
Lemma read_first_ok t offset e m :
  mapping_ok m -> 0 <= offset < e -> e <= raw_len (raw (m_self m)) ->
  (exists r m', SafeMmap_read t offset e index0 m = Done r m' /\ same_mapping m m' /\
     match r with Ok _ => True | Err e => printable e end /\
     (poisoned (m_self m) = false ->
      is_ok r = match snd (load (p_os (m_proc m)) (raw_ptr (raw (m_self m)) + offset)) with
                | Access _ => true | _ => false end)) \/
  (exists m', SafeMmap_read t offset e index0 m = Stop (StopKilled SIGSEGV) m').
Proof.
  intros Hm Ho He. pose proof Hm as [Hok Hc]. pose proof Hok as [Hp Hwf Hpi Hcb].
  destruct (poisoned (m_self m)) eqn:Hpo.
  { left. exists (Err (Poisoned (sigbus_count (m_self m)))), m. split; [|by split_and!].
    unfold SafeMmap_read. by rewrite try_bind_eq, check_poisoned_eq, Hpo. }
  pose proof (RawMmap_wf_usize _ Hwf) as Hu.
  destruct (read_ok t offset e index0 m Hok Hpo) as [[Hlt _]|[_ Ha]]; [lia|unfold is_usize in *; lia|lia|].
  unfold index0, read_byte in Ha. destruct (Z.eqb_spec (e - offset) 0); [lia|].
  cbn [spec_exec andb] in Ha.
  destruct (load (p_os (m_proc m)) (raw_ptr (raw (m_self m)) + offset)) as [k' [b|f|]] eqn:El.
  - destruct Ha as (p' & E & [_ Hp' [Hr _] _]). left. do 2 eexists. split; [exact E|].
    split; [|done]. by apply same_keep.
  - apply load_fault in El. subst f. rewrite Hc in Ha by lia.
    destruct Ha as (p' & u' & E & [_ Hp' [Hr _] _] & _). left. do 2 eexists. split; [exact E|].
    split; [|done]. destruct (counted_keeps (m_self m)) as (? & _ & _ & _ & ?).
    apply same_keep; try done; [by apply counted_inv|by apply counted_returns].
  - destruct Ha as (p' & E & _). right. by eexists.
Qed.

(** A line printed while a mapping is held. *)
Lemma on_proc_println m err line :
  mapping_ok m -> exists m', on_proc (print_line err line) m = Done tt m' /\ same_mapping m m'.
Proof.
  intros Hm. rewrite on_proc_eq. destruct (print_line_ok err line (m_proc m)) as [k ->].
  eexists. split; [done|]. by apply same_os.
Qed.

Lemma on_proc_exit m err line code :
  mapping_ok m -> exists m', on_proc (exit_with err line code) m = Done code m' /\ same_mapping m m'.
Proof.
  intros Hm. rewrite on_proc_eq. destruct (exit_with_ok err line code (m_proc m)) as [k ->].
  eexists. split; [done|]. by apply same_os.
Qed.
(** ** The loop of nfs_failure *)

Lemma read_pages_step t len offset os f s m :
  mapping_ok m -> len = raw_len (raw (m_self m)) -> 0 <= offset < len ->
  0 <= f -> 0 <= s -> f + s + 1 < u32_modulus ->
  (exists f1 s1 m1, same_mapping m m1 /\ 0 <= f1 /\ 0 <= s1 /\ f1 + s1 = f + s + 1 /\
     read_pages fmt_duration fmt_io t len sysconf_pagesize (offset :: os) f s m =
     read_pages fmt_duration fmt_io t len sysconf_pagesize os f1 s1 m1) \/
  (exists m', read_pages fmt_duration fmt_io t len sysconf_pagesize (offset :: os) f s m =
     Stop (StopKilled SIGSEGV) m').
Proof.
  intros Hm Hlen Ho Hf Hs Hb. pose proof page_pos as Hpage.
  pose proof (RawMmap_wf_usize _ (mo_raw _ (map_menv _ Hm))) as Hu. unfold is_usize in Hu.
  cbn [read_pages]. rewrite bind_eq, usub_ok by lia. cbv beta iota zeta.
  rewrite bind_eq, uadd_ok by lia. cbv beta iota. rewrite bind_eq.
  destruct (read_first_ok t offset (offset + Z.min sysconf_pagesize (len - offset)) m Hm)
    as [(r & m1 & -> & H1 & Hr & _)|[m1 ->]]; [lia..| |right; by eexists]. left.
  pose proof H1 as [Hm1 _]. destruct r as [b|e].
  - exists f, (s + 1), m1. rewrite bind_eq, u32add_ok by lia. split_and!; done || lia.
  - destruct e as [a|? ? ?|n|? ? ?|?]; try done.
    + destruct (on_proc_println m1 false ("SIGBUS caught at " +:+ lower_hex a +:+ " — recovered!") Hm1)
        as (m2 & E & H2).
      exists (f + 1), s, m2. unfold println. rewrite bind_eq, E, bind_eq, u32add_ok by lia.
      split_and!; [by eapply same_trans|lia..|done].
    + destruct (shown_ok (Poisoned n) (m_proc m1) I) as [msg Es].
      destruct (on_proc_println m1 false ("other error: " +:+ msg) Hm1) as (m2 & E & H2).
      exists (f + 1), s, m2. rewrite bind_eq. rewrite on_proc_eq in E |- *. rewrite bind_eq, Es.
      unfold println. rewrite E. rewrite bind_eq, u32add_ok by lia.
      split_and!; [by eapply same_trans|lia..|done].
Qed.

(** Every page is counted once, as a success or as a fault. *)
Lemma read_pages_ok t len os f s m :
  mapping_ok m -> len = raw_len (raw (m_self m)) -> Forall (fun o => 0 <= o < len) os ->
  0 <= f -> 0 <= s -> f + s + Z.of_nat (length os) < u32_modulus ->
  (exists f' s' m', read_pages fmt_duration fmt_io t len sysconf_pagesize os f s m = Done (f', s') m' /\
     same_mapping m m' /\ f' + s' = f + s + Z.of_nat (length os)) \/
  (exists m', read_pages fmt_duration fmt_io t len sysconf_pagesize os f s m = Stop (StopKilled SIGSEGV) m').
Proof.
  revert f s m. induction os as [|o os IH]; intros f s m Hm Hlen Hos Hf Hs Hb.
  { left. exists f, s, m. split; [done|]. split; [|cbn; lia].
    destruct Hm as [[Hp Hwf Hpi Hcb] Hc]. split_and!; [by split|done..]. }
  apply Forall_cons in Hos as [Ho Hos]. cbn [length] in Hb.
  destruct (read_pages_step t len o os f s m Hm Hlen Ho Hf Hs)
    as [(f1 & s1 & m1 & Hs1 & Hf1 & Hs1' & Hsum & ->)|]; [lia| |by right].
  pose proof Hs1 as (Hm1 & Hraw & _).
  destruct (IH f1 s1 m1 Hm1 ltac:(congruence) Hos Hf1 Hs1' ltac:(lia))
    as [(f' & s' & m' & -> & Hs' & Hsum')|]; [left|by right].
  exists f', s', m'. split; [done|]. split; [by eapply same_trans|]. cbn [length]. lia.
Qed.

Lemma range_step_by_in len step :
  0 < step -> 0 <= len -> Forall (fun o => 0 <= o < len) (range_step_by len step).
Proof.
  intros Hs Hl. apply Forall_forall. intros o (i & -> & Hi)%list_elem_of_fmap.
  apply list_elem_of_In, in_seq in Hi. pose proof (probe_count_spec step Hs len Hl). nia.
Qed.

(** A step that always returns and leaves the mapping where it was. *)
Definition keeps {A} (f : M (menv K T unit) A) : Prop :=
  forall m, mapping_ok m -> exists a m', f m = Done a m' /\ same_mapping m m'.

Lemma keeps_bind {A B} (f : M (menv K T unit) A) (g : A -> M (menv K T unit) B) m0 m
    (Q : outcome (menv K T unit) B -> Prop) :
  keeps f -> same_mapping m0 m ->
  (forall a m', same_mapping m0 m' -> Q (g a m')) -> Q ((f ≫= g) m).
Proof.
  intros Hf Hm Hg. rewrite bind_eq. destruct (Hf m (proj1 Hm)) as (a & m' & -> & H).
  apply Hg. by eapply same_trans.
Qed.

Lemma keeps_print err line : keeps (on_proc (print_line err line)).
Proof. intros m Hm. destruct (on_proc_println m err line Hm) as (m' & ? & ?). by exists tt, m'. Qed.

Lemma keeps_evict len : 0 <= len -> keeps (SafeMmap_evict 0 len).
Proof.
  intros Hl m Hm. pose proof (mo_raw _ (map_menv _ Hm)) as Hwf.
  destruct (advise_range_returns (raw (m_self m)) DontNeed 0 len (p_os (m_proc m)) Hwf
    ltac:(lia) Hl) as (r & k & E).
  exists r. eexists. split; [|by apply (same_os m k)].
  unfold SafeMmap_evict. rewrite bind_eq. unfold self_get, gets. cbv beta iota.
  unfold on_os, zoom. cbn [lget lset proc_lens os_lens]. by rewrite E.
Qed.

Lemma keeps_sleep d : keeps (on_os (call (fun k => sys_sleep k d))).
Proof.
  intros m Hm. unfold on_os, call, zoom. cbn [lget lset proc_lens os_lens].
  destruct (sys_sleep (p_os (m_proc m)) d) as [k []]. exists tt. eexists.
  split; [done|]. by apply (same_os m k).
Qed.

(** The end of [nfs_failure], after the first read. *)
Definition nfs_rest (t : tid) (len : Z) : M (menv K T unit) Z :=
  _ ← on_proc (println "initial read ok");
  _ ← SafeMmap_evict 0 len;
  _ ← on_proc (println "waiting for NFS server to die...");
  _ ← on_os (call (fun k => sys_sleep k (5 * 10 ^ 9)));
  _ ← on_proc (println "attempting read after NFS failure...");
  page ← page_size;
  counts ← read_pages fmt_duration fmt_io t len page (range_step_by len page) 0 0;
  let '(faults, successes) := counts in
  on_proc (
    _ ← println ("results: " +:+ pretty successes +:+ " pages ok, " +:+ pretty faults
                 +:+ " faults caught");
    if 0 <? faults then exit_with false "nfs_failure_recovered" 0
    else exit_with false "nfs_pages_cached (server down but pages still resident)" 0).

Lemma nfs_rest_ok t m0 m :
  same_mapping m0 m -> raw_len (raw (m_self m0)) <= u32_max * sysconf_pagesize ->
  (exists m', nfs_rest t (raw_len (raw (m_self m0))) m = Done 0 m' /\ same_mapping m0 m') \/
  (exists m', nfs_rest t (raw_len (raw (m_self m0))) m = Stop (StopKilled SIGSEGV) m').
Proof.
  intros Hm Hmax. pose proof page_pos as Hpage.
  assert (Hlen : 0 < raw_len (raw (m_self m0))).
  { destruct Hm as (Hm & <- & _). apply RawMmap_wf_len, map_menv, Hm. }
  set (len := raw_len (raw (m_self m0))) in *.
  pattern (nfs_rest t len m). unfold nfs_rest, println.
  eapply keeps_bind; [apply keeps_print|exact Hm|]. intros _ m1 H1.
  eapply keeps_bind; [apply keeps_evict; lia|exact H1|]. intros _ m2 H2.
  eapply keeps_bind; [apply keeps_print|exact H2|]. intros _ m3 H3.
  eapply keeps_bind; [apply keeps_sleep|exact H3|]. intros _ m4 H4.
  eapply keeps_bind; [apply keeps_print|exact H4|]. intros _ m5 H5.
  rewrite bind_eq, page_size_ok. cbv beta iota.
  pose proof H5 as (Hm5 & Hraw & _).
  assert (Hn : Z.of_nat (length (range_step_by len sysconf_pagesize)) < u32_modulus).
  { unfold range_step_by, probe_offsets. rewrite length_fmap, length_seq.
    pose proof (probe_count_spec sysconf_pagesize (proj1 Hpage) len ltac:(lia)).
    unfold u32_max in Hmax. nia. }
  rewrite bind_eq.
  destruct (read_pages_ok t len (range_step_by len sysconf_pagesize) 0 0 m5 Hm5
    ltac:(by rewrite Hraw) (range_step_by_in len sysconf_pagesize (proj1 Hpage) (Z.lt_le_incl _ _ Hlen)))
    as [(f & s & m6 & -> & H6 & _)|[m6 ->]]; [lia..| |right; by eexists]. left.
  pose proof (same_trans _ _ _ H5 H6) as H7. pose proof H7 as (Hm7 & _).
  rewrite on_proc_eq, bind_eq. destruct (print_line_ok false
    ("results: " +:+ pretty s +:+ " pages ok, " +:+ pretty f +:+ " faults caught") (m_proc m6)) as [k ->].
  destruct (exit_with_ok false (if 0 <? f then "nfs_failure_recovered"%string
    else "nfs_pages_cached (server down but pages still resident)"%string) 0 (set_os k (m_proc m6))) as [k' E].
  exists (MkMenv (set_os k' (m_proc m6)) (m_self m6) (m_user m6)).
  split; [|eapply same_trans; [exact H7|by apply same_os]].
  destruct (0 <? f); by rewrite E.
Qed.

Lemma nfs_failure_body_ok t m :
  mapping_ok m -> poisoned (m_self m) = false ->
  raw_len (raw (m_self m)) <= u32_max * sysconf_pagesize ->
  (exists m', nfs_failure_body fmt_duration fmt_io t m =
     Done (match snd (load (p_os (m_proc m)) (raw_ptr (raw (m_self m)))) with
           | Access _ => 0 | _ => 1 end) m' /\ same_mapping m m') \/
  (exists m', nfs_failure_body fmt_duration fmt_io t m = Stop (StopKilled SIGSEGV) m').
Proof.
  intros Hm Hpo Hlen. pose proof (RawMmap_wf_len _ (mo_raw _ (map_menv _ Hm))) as Hl.
  pattern (nfs_failure_body fmt_duration fmt_io t m). unfold nfs_failure_body.
  rewrite bind_eq. unfold self_get, gets. cbv beta iota. rewrite bind_eq.
  destruct (read_first_ok t 0 1 m Hm) as [(r & m1 & -> & H1 & Hr & Hok)|[m1 ->]];
    [lia..| |right; by eexists].
  specialize (Hok Hpo). rewrite Z.add_0_r in Hok. pose proof H1 as (Hm1 & _). destruct r as [b|e].
  - revert Hok. destruct (snd (load _ _)); [|done..]. intros _. exact (nfs_rest_ok t m m1 H1 Hlen).
  - left. destruct (shown_ok e (m_proc m1) Hr) as [msg Es].
    destruct (on_proc_exit m1 true ("initial read failed: " +:+ msg) 1 Hm1) as (m2 & E & H2).
    exists m2. rewrite on_proc_eq, bind_eq, Es. rewrite on_proc_eq in E. rewrite E.
    split; [|by eapply same_trans]. revert Hok. by destruct (snd (load _ _)).
Qed.

(** ** Holding a mapping *)

Lemma holding_ok {A} self (f : M (menv K T unit) A) p :
  mapping_ok (MkMenv p self tt) ->
  match f (MkMenv p self tt) with
  | Done a m' => same_mapping (MkMenv p self tt) m' ->
      exists p', holding self f p = Done a p' /\ proc_ok p' /\
        regions (p_registry p') =
          filter (fun r => region_start r <> raw_ptr (raw self)) (regions (p_registry p))
  | Stop StopPanic _ => True
  | Stop why m' => holding self f p = Stop why (m_proc m')
  end.
Proof.
  intros Hm. unfold holding, scoped. rewrite bind_eq. unfold on_unwind.
  destruct (f (MkMenv p self tt)) as [a m'|[] m']; try done.
  intros (Hm' & Hraw & _ & Hreg). rewrite !bind_eq. unfold self_get, gets. cbv beta iota.
  rewrite on_proc_eq. unfold id.
  destruct (drop_ok (m_self m') (m_proc m') (mo_proc _ (map_menv _ Hm'))) as (p' & -> & Hok & _ & Hr).
  exists p'. split; [done|]. split; [done|]. rewrite Hr, Hreg. by rewrite Hraw.
Qed.

(** An [open] with the default options. *)
Lemma default_fit : options_fit (SafeMmapOptions_new (C := unit)).
Proof. by split; [|split]; cbn; [apply (bool_decide_unpack _)..|]. Qed.

Lemma open_mapping_ok pa p self p' :
  proc_ok p -> SafeMmap_open (C := unit) pa p = Done (Ok self) p' ->
  mapping_ok (MkMenv p' self tt) /\ poisoned self = false /\
  regions (p_registry p') = regions (p_registry p) ++ [region_of (raw self)].
Proof.
  intros Hok E. pose proof (open_menv_ok _ _ _ _ _ tt Hok default_fit I E) as Hm.
  pose proof (open_ok SafeMmapOptions_new pa p Hok default_fit) as H. unfold SafeMmap_open in E.
  destruct (open_kernel _ _ _) as [k' [[rw fd]|e]]; cbn in H; rewrite E in H; [|done].
  destruct H as (p2 & [= -> ->] & _ & _ & Hr). split; [|done].
  split; [done|]. intros a Ha. apply region_of_covers in Ha. unfold covered. cbn [m_proc].
  rewrite Hr, existsb_app. cbn in *. by rewrite Ha, orb_true_r.
Qed.

(** The [nfs_failure] scenario, from any state of the process. *)
Definition nfs_failure_code pa k : Z :=
  match open_kernel (C := unit) SafeMmapOptions_new pa k with
  | (k1, Ok (rw, _)) => match snd (load k1 (raw_ptr rw)) with Access _ => 0 | _ => 1 end
  | (_, Err _) => 1
  end.

Lemma nfs_failure_ok sc pa p :
  proc_ok p -> (forall k1 fd k2 n, sys_fstat k1 fd = (k2, Ok n) -> n <= u32_max * sysconf_pagesize) ->
  let run := scenario_nfs_failure fmt_duration fmt_io sc (Some pa) p in
  (exists p', run = Done (nfs_failure_code pa (p_os p)) p' /\ proc_ok p' /\
     (regions (p_registry p) = [] -> regions (p_registry p') = [])) \/
  (exists p', run = Stop (StopKilled SIGSEGV) p').
Proof.
  intros Hp Hmax run. pose proof (open_ok SafeMmapOptions_new pa p Hp default_fit) as Ho.
  unfold run, nfs_failure_code, scenario_nfs_failure. rewrite bind_eq.
  destruct (open_kernel _ pa (p_os p)) as [k1 [[rw fd]|er]] eqn:Ek; cbn [open_outcome] in Ho.
  - destruct Ho as (p1 & E & Hos & _). unfold SafeMmap_open at 1 2. rewrite E.
    set (self := fresh_mapping _ rw pa fd) in *.
    destruct (open_mapping_ok pa _ self p1 Hp E) as (Hm & Hpo & Hr).
    destruct (open_kernel_wf _ _ _ _ _ _ default_fit Ek) as (_ & _ & _ & k2 & k3 & flen & _ & [k4 Hst] & Hl).
    cbn in Hl. pose proof (Hmax _ _ _ _ Hst) as Hflen.
    pose proof (holding_ok self (nfs_failure_body fmt_duration fmt_io (sc_main sc)) p1 Hm) as Hh.
    destruct (nfs_failure_body_ok (sc_main sc) _ Hm Hpo ltac:(cbn; lia)) as [(m' & Eb & Hs)|[m' Eb]];
      rewrite Eb in Hh.
    + left. destruct (Hh Hs) as (p' & -> & Hok' & Hr'). exists p'. cbn [m_proc m_self] in *. rewrite Hos.
      split; [done|]. split; [done|]. intros Hnil. rewrite Hr', Hr, Hnil. cbn.
      by rewrite decide_False by (cbn; tauto).
    + right. rewrite Hh. by eexists.
  - left. unfold SafeMmap_open at 1. rewrite Ho.
    destruct (exit_with_ok true ("failed to open: " +:+ display_MmapError fmt_io er) 1
      (set_os k1 p)) as [k2 E].
    eexists. split; [exact E|]. split; [|done]. by do 2 apply set_os_ok.
Qed.

(** C22 (safety): the [nfs_failure] scenario, from the start of the program (its [sigaction]
    and [pthread_key_create] succeed), where its lines can be printed and
    [fstat] reports no more than [u32::MAX] pages for the file, whatever the
    server does to the pages while it runs: the scenario ends by returning,
    with the registry empty, unless the kernel answers one of its accesses
    with SIGSEGV, which ends the process. So it is never killed by SIGBUS,
    never panics and never hangs. It returns 1 exactly when the file cannot be
    opened or the first byte cannot be read, and 0 otherwise. *)
Theorem nfs_failure_recovers sc pa k e :
  snd (sys_sigaction e) = 0 -> fst (snd (pthread_key_create (fst (sys_sigaction e)))) = 0 ->
  (forall k1 fd k2 n, sys_fstat k1 fd = (k2, Ok n) -> n <= u32_max * sysconf_pagesize) ->
  let code :=
    match open_kernel (C := unit) SafeMmapOptions_new pa k with
    | (k1, Ok (rw, _)) => match snd (load k1 (raw_ptr rw)) with Access _ => 0 | _ => 1 end
    | (_, Err _) => 1
    end in
  let run := scenario_nfs_failure fmt_duration fmt_io sc (Some pa) (proc_init k e) in
  (exists p', run = Done code p' /\ proc_ok p' /\ regions (p_registry p') = []) \/
  (exists p', run = Stop (StopKilled SIGSEGV) p').
Proof.
  intros H1 H2 Hmax code run.
  destruct (nfs_failure_ok sc pa (proc_init k e) (proc_init_ok k e H1 H2) Hmax) as [(p' & E & Hok & Hr)|H];
    [left|by right]. exists p'. split; [exact E|]. split; [done|]. by apply Hr.
Qed.

(** ** Reading past the end of a file *)

Context `{BL : !BeyondLaws K}.

(** Two pages, the second one registered. *)
Record test_ok (tm : TestMapping) p : Prop := {
  te_proc : proc_ok p;
  te_page : tm_page_size tm = sysconf_pagesize;
  te_len : raw_len (tm_raw tm) = 2 * sysconf_pagesize;
  te_covered : covered p (raw_ptr (tm_raw tm) + sysconf_pagesize) = true;
}.

Lemma test_keep tm p p' :
  test_ok tm p -> proc_ok p' -> p_registry p' = p_registry p -> test_ok tm p'.
Proof. intros [_ ? ? Hc] Hp Hr. split; [done..|]. unfold covered. by rewrite Hr. Qed.

(** A read of the second page: a value, a fault that was caught, or no mapping
    there at all. *)
Lemma read_second_page t tm p :
  test_ok tm p ->
  match load (p_os p) (raw_ptr (tm_raw tm) + sysconf_pagesize) with
  | (k, Access b) => exists p', read_past_eof t tm p = Done (Ok b) p' /\ test_ok tm p' /\ p_os p' = k
  | (k, BusError a) => exists p', read_past_eof t tm p = Done (Err (Sigbus a)) p' /\ test_ok tm p' /\ p_os p' = k
  | (_, SegFault) => exists p', read_past_eof t tm p = Stop (StopKilled SIGSEGV) p'
  end.
Proof.
  intros Ht. pose proof Ht as [Hp Hpage Hlen Hc]. pose proof page_pos. pose proof page_small.
  unfold read_past_eof, helper_guard, ReadGuard_new. rewrite !bind_eq, install_ok by done.
  cbv beta iota. unfold mret at 1 2, M_ret. rewrite Hpage.
  destruct (guard_read_ok t {| guard_raw := tm_raw tm |} sysconf_pagesize 1 index0 (installed p)
    (installed_ok _ Hp)) as [[Hlt _]|[_ Hg]]; cbn [guard_raw] in *.
  { rewrite Hlen. unfold is_usize, usize_modulus. lia. } { lia. }
  cbn [index0 Z.eqb] in Hg. unfold read_byte in Hg. cbn [spec_exec andb] in Hg.
  cbn [installed p_os] in Hg. destruct (load _ _) as [k' [b|a|]] eqn:El; cbn in Hg.
  - destruct Hg as (p' & E & [Hos Hp' [Hr _] _]). exists p'. by split_and!; [|eapply test_keep|].
  - apply load_fault in El. subst a. change (covered (installed p)) with (covered p) in Hg. rewrite Hc in Hg.
    destruct Hg as (p' & E & [Hos Hp' [Hr _] _]). exists p'. by split_and!; [|eapply test_keep|].
  - destruct Hg as (p' & E & _). by exists p'.
Qed.

(** The eight threads of the scope are eight, and each gets the steps it needs. *)
Definition scope_scheduled (sc : schedule) : Prop :=
  NoDup (sc_thread sc <$> seq 0 8) /\
  Forall (fun i => 13 <= count_occ Nat.eq_dec (sc_order sc) i)%nat (seq 0 8).

(** Whatever the interleaving: when the page is [sure] to be lost, every thread
    sees its fault. *)
Lemma test_scope sure (lost : K -> Prop) sc tm p :
  scope_scheduled sc -> test_ok tm p -> (sure = true -> lost (p_os p)) ->
  (sure = true -> forall k, lost k ->
    exists k', load k (raw_ptr (tm_raw tm) + sysconf_pagesize) =
      (k', BusError (raw_ptr (tm_raw tm) + sysconf_pagesize)) /\ lost k') ->
  ends (scope_dies sure) (fun bs _ => sure = true -> forallb id bs = true)
    (run_scope (sc_thread sc) (tm_raw tm) (tm_page_size tm) (sc_order sc) 8 p).
Proof.
  intros [Hnd Hord] [Hp Hpage Hlen Hc] Hl Hload. pose proof page_pos. pose proof page_small. rewrite Hpage.
  unfold covered in Hc. apply existsb_exists in Hc as (x & Hx%list_elem_of_In & Hin).
  eapply ends_mono; [eapply (run_scope_ok (sc_thread sc) 8 (tm_raw tm) sysconf_pagesize x sure lost)| |].
  - done.
  - rewrite Hlen. split; [unfold is_usize, usize_modulus; lia|lia].
  - exact Hin.
  - exact Hload.
  - by split.
  - exact Hord.
  - done.
  - by intros bs p' [_ ?].
Qed.

(** The second page is past the file's end. *)
Definition past_eof tm p : Prop :=
  test_ok tm p /\ beyond (p_os p) (raw_ptr (tm_raw tm) + sysconf_pagesize).

Lemma read_past_eof_ok t tm p :
  past_eof tm p ->
  exists a p', read_past_eof t tm p = Done (Err (Sigbus a)) p' /\ past_eof tm p'.
Proof.
  intros [Ht Hb]. pose proof (read_second_page t tm p Ht) as H.
  destruct (load_beyond _ _ Hb) as (k' & El & Hk). rewrite El in H.
  destruct H as (p' & E & Ht' & Hos). do 2 eexists. split; [exact E|]. split; [done|].
  rewrite Hos. by apply Hk.
Qed.

Lemma drop_TestMapping_eq tm p :
  exists k, drop_TestMapping tm p = Done tt (set_os k p).
Proof.
  unfold drop_TestMapping, RawMmap_drop. rewrite bind_eq, os_eq, bind_eq. unfold call at 1.
  destruct (sys_munmap _ _ _) as [k1 r]. cbv beta iota. unfold mret at 1, M_ret. rewrite close_eq.
  by eexists.
Qed.

Lemma remove_file_eq path p : exists k, remove_file path p = Done tt (set_os k p).
Proof.
  unfold remove_file. rewrite bind_eq, os_call_eq. destruct (sys_remove_file _ _) as [k r].
  by exists k.
Qed.

(** A scenario over a test mapping: what its body returns, it returns. *)
Lemma scoped_drop {A} tm (body : M (proc K T) A) p a p' :
  body p = Done a p' -> exists p'', scoped (drop_TestMapping tm) body p = Done a p''.
Proof.
  intros E. unfold scoped. rewrite bind_eq. unfold on_unwind. rewrite E. cbv beta iota. rewrite bind_eq.
  destruct (drop_TestMapping_eq tm p') as [k ->]. by eexists.
Qed.

Lemma count_faults_ok t tm n c p :
  past_eof tm p -> 0 <= c -> c + Z.of_nat n < u32_modulus ->
  exists p', count_faults t tm n c p = Done (c + Z.of_nat n) p'.
Proof.
  revert c p. induction n as [|n IH]; intros c p Hp Hc Hn; cbn [count_faults].
  { exists p. by rewrite Z.add_0_r. }
  rewrite bind_eq. destruct (read_past_eof_ok t tm p Hp) as (a & p1 & -> & Hp1). cbv beta iota.
  rewrite Z.mod_small by lia.
  destruct (IH (c + 1) p1 Hp1 ltac:(lia) ltac:(lia)) as (p' & ->). exists p'. f_equal. lia.
Qed.

Lemma lost_page k a : beyond k a -> exists k', load k a = (k', BusError a) /\ beyond k' a.
Proof. intros Hb. destruct (load_beyond _ _ Hb) as (k' & E & Hk). exists k'. split; [done|by apply Hk]. Qed.

Lemma close_returns fd p : exists p', close_file fd p = Done tt p'.
Proof. rewrite close_eq. by eexists. Qed.

Lemma ends_map E fd len p :
  proc_ok p -> 0 <= len ->
  ends E (fun r p' => proc_ok p' /\ match r with Ok raw => RawMmap_wf raw /\ raw_len raw = len | Err _ => True end)
    (os (RawMmap_map fd 0 len) p).
Proof.
  intros Hp Hl. rewrite os_eq.
  destruct (RawMmap_map fd 0 len (p_os p)) as [r k|] eqn:Em.
  - split; [by apply set_os_ok|]. destruct r as [raw|]; [|done].
    apply map_wf in Em as (Hwf & Hlen & _); [|done]. done.
  - exfalso. unfold RawMmap_map in Em. rewrite map_ok_cases in Em.
    destruct (_ =? 0); [done|]. destruct (negb _); [done|]. destruct (sys_mmap _ _ _ _ _ _ _).
    by destruct (_ =? _).
Qed.

(** Whether the file of a test mapping, or the mapping of it, cannot be had. *)
Definition test_file_fails (dir : Path) (name : string) (k : K) : bool :=
  let path := path_join dir (bytes_of name) in
  match sys_write_file k path (bytes_of "x") with
  | (_, Err _) => true
  | (k, Ok _) =>
      match sys_open k path false with
      | (_, Err _) => true
      | (k, Ok fd) =>
          match RawMmap_map fd 0 (sysconf_pagesize * 2) k with
          | Done (Ok _) _ => false
          | _ => true
          end
      end
  end.

Lemma create_outcome dir name p :
  proc_ok p ->
  match create_sigbus_mapping dir name p with
  | Done tm p' => test_file_fails dir name (p_os p) = false /\ test_ok tm p'
  | Stop why _ => test_file_fails dir name (p_os p) = true /\ why = StopPanic
  end.
Proof.
  intros Hp. pose proof page_pos as Hpage. pose proof page_small.
  unfold create_sigbus_mapping, test_file_fails. cbv zeta.
  rewrite bind_eq, os_call_eq. destruct (sys_write_file _ _ _) as [k1 [u|e]]; [|done].
  rewrite bind_eq. cbn [expect]. rewrite ?mret_eq. cbv beta iota.
  rewrite bind_eq, os_call_eq. cbn [set_os p_os]. destruct (sys_open _ _ _) as [k2 [fd|e]]; [|done].
  rewrite bind_eq. cbn [expect]. rewrite ?mret_eq. cbv beta iota. unfold on_unwind at 1.
  rewrite bind_eq, page_size_ok. cbv beta iota. rewrite bind_eq, umul_ok by (unfold usize_modulus; lia).
  cbv beta iota.
  set (p2 := set_os k2 (set_os k1 p)). assert (H2 : proc_ok p2) by (do 2 apply set_os_ok; done).
  assert (Hl : 0 <= sysconf_pagesize * 2) by lia.
  pose proof (ends_map (fun _ => False) fd (sysconf_pagesize * 2) p2 H2 Hl) as Hm.
  rewrite bind_eq. rewrite os_eq in Hm |- *. change (p_os p2) with k2 in *.
  destruct (RawMmap_map fd 0 _ k2) as [[raw|e] k3|why k3]; [| |done]; cbv beta iota.
  2: { rewrite bind_eq. cbn [expect]. unfold panic, stop at 1. cbv beta iota.
       destruct (close_returns fd (set_os k3 p2)) as [p' ->]. done. }
  destruct Hm as (H3 & Hwf & Hlen). rewrite bind_eq. cbn [expect]. rewrite ?mret_eq. cbv beta iota.
  destruct (arm_ok raw _ H3 Hwf) as (p' & Ea & Hok & _ & Hr).
  unfold on_unwind, register_and_install, RawMmap_as_ptr, RawMmap_len. rewrite bind_eq, Ea.
  split; [done|].
  split; cbn; [done|done|lia|]. unfold covered. rewrite Hr, existsb_app. cbn.
  assert (Hin : in_region (raw_ptr raw + sysconf_pagesize) (region_of raw) = true)
    by (apply region_of_covers; lia).
  by rewrite Hin, orb_true_r.
Qed.

Lemma create_past_eof dir name p tm p1 :
  proc_ok p -> create_sigbus_mapping dir name p = Done tm p1 ->
  beyond (p_os p1) (raw_ptr (tm_raw tm) + sysconf_pagesize) -> past_eof tm p1.
Proof.
  intros Hp E Hb. pose proof (create_outcome dir name p Hp) as H.
  rewrite E in H. by split; [apply H|].
Qed.

(** C24 (functional): where the second page of a mapping of two pages over a file of one
    byte cannot be supplied, the three scenarios that read from it exit with
    0: every such read, by the main thread or by any of the eight threads,
    however their steps interleave, comes back as a caught SIGBUS. *)
Theorem sigbus_scenarios_recover sc dir p :
  proc_ok p -> scope_scheduled sc ->
  (forall name, name ∈ ["sigbus_basic.bin"; "sigbus_mt.bin"; "sigbus_poison.bin"]%string ->
     exists tm p1, create_sigbus_mapping dir name p = Done tm p1 /\
       beyond (p_os p1) (raw_ptr (tm_raw tm) + sysconf_pagesize)) ->
  (exists p', scenario_sigbus_basic fmt_duration fmt_io sc dir p = Done 0 p') /\
  (exists p', scenario_multi_thread sc dir p = Done 0 p') /\
  (exists p', scenario_poison sc dir p = Done 0 p').
Proof.
  intros Hp Hord Hfiles.
  assert (Hc : forall name, name ∈ ["sigbus_basic.bin"; "sigbus_mt.bin"; "sigbus_poison.bin"]%string ->
    exists tm p1, create_sigbus_mapping dir name p = Done tm p1 /\ past_eof tm p1).
  { intros name (tm & p1 & E & Hb)%Hfiles. exists tm, p1. split; [done|]. by eapply create_past_eof. }
  split_and!.
  - destruct (Hc "sigbus_basic.bin"%string) as (tm & p1 & E & Hpe); [set_solver|].
    unfold scenario_sigbus_basic. rewrite bind_eq, E.
    destruct (read_past_eof_ok (sc_main sc) tm p1 Hpe) as (a & p2 & Er & _).
    destruct (print_line_ok false "recovered" p2) as [k3 E3].
    destruct (remove_file_eq (tm_path tm) (set_os k3 p2)) as [k4 E4].
    eapply scoped_drop. rewrite bind_eq, Er. unfold println. by rewrite bind_eq, E3, bind_eq, E4.
  - destruct (Hc "sigbus_mt.bin"%string) as (tm & p1 & E & Hpe); [set_solver|].
    pose proof (test_scope true (fun k => beyond k (raw_ptr (tm_raw tm) + sysconf_pagesize)) sc tm p1 Hord
      (proj1 Hpe) (fun _ => proj2 Hpe) (fun _ k => lost_page k _)) as Hrun.
    unfold scenario_multi_thread. rewrite bind_eq, E.
    destruct (run_scope _ _ _ _ _ p1) as [bs p2|why p2] eqn:Er; cbn [ends] in Hrun.
    2: { by destruct Hrun. }
    specialize (Hrun eq_refl).
    destruct (remove_file_eq (tm_path tm) p2) as [k3 E3].
    destruct (exit_with_ok false "recovered" 0 (set_os k3 p2)) as [k4 E4].
    eapply scoped_drop. rewrite bind_eq, Er, bind_eq, E3, Hrun. exact E4.
  - destruct (Hc "sigbus_poison.bin"%string) as (tm & p1 & E & Hpe); [set_solver|].
    unfold scenario_poison. rewrite bind_eq, E.
    destruct (count_faults_ok (sc_main sc) tm 2 0 p1 Hpe) as (p2 & Er); [lia|done|].
    destruct (remove_file_eq (tm_path tm) p2) as [k3 E3].
    destruct (exit_with_ok false ("poisoned after " +:+ pretty 2 +:+ " faults") 0 (set_os k3 p2)) as [k4 E4].
    eapply scoped_drop. change (Z.to_nat 2) with 2%nat. rewrite bind_eq, Er, bind_eq, E3. exact E4.
Qed.
End Proofs.
