(* ===== verification/Survival.v ===== *)
(** The promise of the test program, src/src/bin/sigbus_victim.rs, as a whole:
    for any arguments, where its lines can be printed, no scenario is killed by
    SIGBUS, aborted or hung, and none panics but where it cannot set its own
    file up. The scenarios are run by the rules of [ends]. *)

From stdpp Require Import prelude gmap strings pretty.
From Stdlib Require Import ZArith Lia.
From S2P Require Import Prelude Errors Env SysMmap Registry Signal Probe SafeMmap Prefetch Open System Scope Victim.

(** How the kernel may still end it. *)
Definition killed (why : stop_reason) : Prop := why = StopKilled SIGSEGV.

Definition exits (code : Z) : Prop := code = 0 \/ code = 1.

Section Survival.
Context `{PR : Profile} `{TG : Target} `{LC : Libc} `{SC : Sysconf} `{AL : Allocator}.
Context {K T : Type} `{VMK : !VM K} `{FSK : !FS K} `{PE : !ProcEnv T} `{SH : !Shell K}.
Context `{SCok : !SysconfOk} `{ALok : !AllocatorOk} `{PEok : !ProcEnvOk T} `{MO : !MmapOk K}.
Context `{FSO : !FSOk K} `{FL : !FaultLaws K} `{BY : !ByteLaws K} `{SHok : !ShellOk K}.
Context (fmt_duration : Duration -> string) (fmt_io : io_error -> string).
Implicit Types (m : menv K T unit) (p : proc K T) (k : K).

(** ** The system as the program uses it *)

Lemma print_ends E (Q : unit -> proc K T -> Prop) err line p :
  (forall k, Q tt (set_os k p)) -> ends E Q (print_line err line p).
Proof. destruct (print_line_ok err line p) as [k ->]. intros H; apply H. Qed.

Lemma exit_ends E (Q : Z -> proc K T -> Prop) err line code p :
  (forall k, Q code (set_os k p)) -> ends E Q (exit_with err line code p).
Proof. destruct (exit_with_ok err line code p) as [k ->]. intros H; apply H. Qed.

Lemma remove_ends E (Q : unit -> proc K T -> Prop) path p :
  (forall k, Q tt (set_os k p)) -> ends E Q (remove_file path p).
Proof. destruct (remove_file_eq path p) as [k ->]. intros H; apply H. Qed.

(** An error whose message can be computed: the sum that [Display] shows does
    not overflow. *)
Definition can_show (e : AccessError) : Prop :=
  match e with
  | OutOfBounds o l _ | Timeout o l _ => 0 <= o + l < usize_modulus
  | _ => True
  end.

Lemma show_ends E (Q : string -> proc K T -> Prop) e p :
  can_show e -> (forall msg, Q msg p) -> ends E Q (shown fmt_duration fmt_io e p).
Proof.
  intros He HQ. unfold shown. destruct e; cbn in *; try apply HQ;
    rewrite bind_eq, uadd_ok by lia; apply HQ.
Qed.

Lemma drop_test_returns tm p : exists p', drop_TestMapping tm p = Done tt p'.
Proof. destruct (drop_TestMapping_eq tm p) as [k ->]. by eexists. Qed.

(** ** The scenarios on a mapping that reaches past its file *)

Lemma read_ends t tm p :
  test_ok tm p ->
  ends killed (fun r p' => test_ok tm p' /\ match r with Ok _ => True | Err e => printable e end)
    (read_past_eof t tm p).
Proof.
  intros Ht. pose proof (read_second_page t tm p Ht) as H.
  destruct (load _ _) as [k [x|a|]]; [| |by destruct H as [p' ->]];
    by destruct H as (p' & -> & Ht' & _).
Qed.

(** How a scenario ends, given whether its set-up fails: then an [expect]
    panics, and otherwise nothing does. *)
Definition victim_outcome (fails : bool) (o : outcome (proc K T) Z) : Prop :=
  match o with
  | Done code _ => fails = false /\ exits code
  | Stop why _ => if fails then why = StopPanic else killed why
  end.

Lemma outcome_ends o : ends killed (fun code _ => exits code) o -> victim_outcome false o.
Proof. by destruct o. Qed.

(** The frame the three scenarios share. *)
Lemma test_ends dir name (body : TestMapping -> M (proc K T) Z) p :
  proc_ok p ->
  (forall tm p1, test_ok tm p1 -> ends killed (fun code _ => exits code) (body tm p1)) ->
  victim_outcome (test_file_fails dir name (p_os p))
    ((tm ← create_sigbus_mapping dir name; scoped (drop_TestMapping tm) (body tm)) p).
Proof.
  intros Hp Hb. pose proof (create_outcome dir name p Hp) as H. rewrite bind_eq.
  destruct (create_sigbus_mapping dir name p) as [tm p1|why p1]; destruct H as [-> H]; [|done].
  apply outcome_ends, ends_scoped; [apply drop_test_returns|by apply Hb].
Qed.

Lemma basic_ends sc dir p :
  proc_ok p ->
  victim_outcome (test_file_fails dir "sigbus_basic.bin" (p_os p))
    (scenario_sigbus_basic fmt_duration fmt_io sc dir p).
Proof.
  intros Hp. apply test_ends; [done|]. intros tm p1 Ht.
  assert (Hend : forall err line code p, exits code ->
    ends killed (fun code _ => exits code)
      ((_ ← print_line err line; _ ← remove_file (tm_path tm); mret code) p)).
  { intros err line code q Hc. eapply ends_bind with (R := fun _ _ => True); [by apply print_ends|].
    intros _ q1 _. eapply ends_bind with (R := fun _ _ => True); [by apply remove_ends|]. done. }
  eapply ends_bind; [by apply read_ends|]. intros r p2 [_ Hr].
  destruct r as [x|[a|? ? ?|c|? ? ?|?]]; try done; [by apply Hend; right|by apply Hend; left|].
  eapply ends_bind with (R := fun _ _ => True); [by apply show_ends|].
  intros msg p3 _. by apply Hend; right.
Qed.

Lemma multi_thread_ends sc dir p :
  proc_ok p -> scope_scheduled sc ->
  victim_outcome (test_file_fails dir "sigbus_mt.bin" (p_os p))
    (scenario_multi_thread sc dir p).
Proof.
  intros Hp Hord. apply test_ends; [done|]. intros tm p1 Ht.
  eapply ends_bind with (R := fun _ _ => True).
  { by eapply ends_mono; [by apply (test_scope false (fun _ => True))|intros why [_ ->]|]. }
  intros bs p2 _. eapply ends_bind with (R := fun _ _ => True); [by apply remove_ends|]. intros _ p3 _.
  destruct (forallb _ _); apply exit_ends; intros _; [by left|by right].
Qed.

Lemma count_ends t tm n count p :
  test_ok tm p -> ends killed (fun _ _ => True) (count_faults t tm n count p).
Proof.
  revert count p. induction n as [|n IH]; intros count p Ht; cbn [count_faults]; [done|].
  eapply ends_bind; [by apply read_ends|]. intros r p1 [H1 _]. by apply IH.
Qed.

Lemma poison_ends sc dir p :
  proc_ok p ->
  victim_outcome (test_file_fails dir "sigbus_poison.bin" (p_os p))
    (scenario_poison sc dir p).
Proof.
  intros Hp. apply test_ends; [done|]. intros tm p1 Ht. cbv zeta.
  eapply ends_bind; [by apply count_ends|]. intros count p2 _.
  eapply ends_bind with (R := fun _ _ => True); [by apply remove_ends|]. intros _ p3 _.
  destruct (_ <=? _); apply exit_ends; intros _; [by left|by right].
Qed.

(** ** The scenarios on mappings of whole files *)

Lemma open_ends E pa p :
  proc_ok p ->
  ends E (fun r p' => proc_ok p' /\ match r with
      | Ok self => mapping_ok (MkMenv p' self tt) /\ poisoned self = false
      | Err _ => True
      end) (SafeMmap_open (C := unit) pa p).
Proof.
  intros Hp. pose proof (open_ok SafeMmapOptions_new pa p Hp default_fit) as Ho.
  destruct (open_kernel SafeMmapOptions_new pa (p_os p)) as [k [[rw fd]|e]]; cbn [open_outcome] in Ho;
    unfold SafeMmap_open.
  - destruct Ho as (p' & E' & _ & Hp' & _). rewrite E'. split; [done|].
    by destruct (open_mapping_ok pa p _ p' Hp E') as (? & ? & _).
  - rewrite Ho. split; [by apply set_os_ok|done].
Qed.

Lemma holding_ends {A} (V : A -> Prop) self (f : M (menv K T unit) A) p :
  mapping_ok (MkMenv p self tt) ->
  ends killed (fun a m' => same_mapping (MkMenv p self tt) m' /\ V a) (f (MkMenv p self tt)) ->
  ends killed (fun a _ => V a) (holding self f p).
Proof.
  intros Hm Hf. pose proof (holding_ok self f p Hm) as H.
  destruct (f _) as [a m'|why m']; cbn [ends] in Hf.
  - destruct Hf as [Hs Ha]. by destruct (H Hs) as (p' & -> & _).
  - unfold killed in Hf. subst why. by rewrite H.
Qed.

(** Leaving with a message, the mapping still held. *)
Lemma on_proc_ends E {A} (Q : A -> menv K T unit -> Prop) (f : M (proc K T) A) m :
  ends E (fun a p' => Q a (MkMenv p' (m_self m) (m_user m))) (f (m_proc m)) -> ends E Q (on_proc f m).
Proof. rewrite on_proc_eq. by destruct (f (m_proc m)). Qed.

Lemma held_exit m0 m err line code E :
  same_mapping m0 m -> exits code ->
  ends E (fun code p' => same_mapping m0 (MkMenv p' (m_self m) (m_user m)) /\ exits code)
    (exit_with err line code (m_proc m)).
Proof.
  intros Hs Hc. apply exit_ends. intros k. split; [|done].
  eapply same_trans; [exact Hs|]. apply same_os, Hs.
Qed.

Lemma held_error m0 m e (msg : string -> string) E :
  same_mapping m0 m -> can_show e ->
  ends E (fun code p' => same_mapping m0 (MkMenv p' (m_self m) (m_user m)) /\ exits code)
    ((s ← shown fmt_duration fmt_io e; exit_with true (msg s) 1) (m_proc m)).
Proof.
  intros Hs He. eapply ends_bind with (R := fun _ p' => p' = m_proc m); [by apply show_ends|].
  intros s ? ->. apply held_exit; [done|by right].
Qed.

(** *** nfs_read *)

(** The closure of [nfs_read] adds the bytes up, and the sum does not wrap. *)
Lemma sum_bytes_ok cov n ptr acc k :
  (forall a, ptr <= a < ptr + Z.of_nat n -> cov a = true) ->
  0 <= acc -> acc + 255 * Z.of_nat n < usize_modulus ->
  match spec_exec cov (sum_bytes ptr n acc) true k with
  | SVal sum armed _ => armed = true /\ exists bs, length bs = n /\ sum = foldl Z.add acc bs
  | SCaught a _ => ptr <= a < ptr + Z.of_nat n
  | SDead why _ => why = StopKilled SIGSEGV
  end.
Proof.
  revert ptr acc k. induction n as [|n IH]; intros ptr acc k Hc Ha Hs; cbn [sum_bytes spec_exec].
  { split; [done|]. by exists []. }
  destruct (load k ptr) as [k' [b|f|]] eqn:El; [| |done].
  - apply load_byte in El. destruct (Z.leb_spec usize_modulus (acc + b)); [lia|].
    rewrite andb_false_r, Z.mod_small by lia.
    specialize (IH (ptr + 1) (acc + b) k' ltac:(intros; apply Hc; lia) ltac:(lia) ltac:(lia)).
    destruct (spec_exec _ _ _ _) as [sum ar k2|f k2|why k2]; [|lia|done].
    destruct IH as (-> & bs & Hl & ->). split; [done|]. exists (b :: bs). cbn. by rewrite Hl.
  - apply load_fault in El. subst f. rewrite Hc by lia. cbn. lia.
Qed.

Lemma same_refl m : mapping_ok m -> same_mapping m m.
Proof. by intros Hm. Qed.

(** Both kinds of step of a mapping leave it where it was. *)
Lemma after_same t m k p' u' :
  mapping_ok m -> after_call t (m_proc m) k p' -> same_mapping m (MkMenv p' (m_self m) u').
Proof.
  intros Hm [_ Hp' [Hr _] _]. pose proof Hm as [[Hp Hwf Hpi Hcb] _]. by apply same_keep.
Qed.

Lemma after_fault t m k p' u' :
  mapping_ok m -> poisoned (m_self m) = false -> after_call t (m_proc m) k p' ->
  same_mapping m (MkMenv p' (counted (m_self m)) u').
Proof.
  intros Hm Hpo [_ Hp' [Hr _] _]. pose proof Hm as [[Hp Hwf Hpi Hcb] _].
  destruct (counted_keeps (m_self m)) as (? & _ & _ & _ & ?).
  by apply same_keep; try done; [apply counted_inv|apply counted_returns].
Qed.

Lemma same_installed m : mapping_ok m -> same_mapping m (MkMenv (installed (m_proc m)) (m_self m) (m_user m)).
Proof.
  intros Hm. pose proof Hm as [[Hp Hwf Hpi Hcb] _]. apply same_keep; try done. by apply installed_ok.
Qed.

Lemma nfs_read_ends sc pa p :
  proc_ok p -> ends killed (fun code _ => exits code) (scenario_nfs_read fmt_duration fmt_io sc (Some pa) p).
Proof.
  intros Hp. eapply ends_bind; [by apply open_ends|]. intros [self|e] p1 [H1 Hr];
    [|apply exit_ends; intros _; by right].
  destruct Hr as [Hm Hpo]. apply holding_ends; [done|]. pose proof Hm as [Hok Hc]. cbn [m_self m_proc] in Hc.
  rewrite bind_eq. destruct (read_ok (sc_main sc) 0 4096
    (fun ptr len => sum_bytes ptr (Z.to_nat len) 0) _ Hok Hpo) as [[Hlt ->]|[Hle Ha]];
    [lia|unfold is_usize, usize_modulus; lia| |].
  { apply on_proc_ends. apply (held_error _ (MkMenv (installed p1) self tt)); [by apply same_installed|].
    cbn. unfold usize_modulus. lia. }
  pose proof (sum_bytes_ok (covered p1) (Z.to_nat 4096) (raw_ptr (raw self) + 0) 0 (p_os p1)) as Hs.
  unfold access_outcome in Ha. cbn [m_proc m_self m_user] in Ha, Hle.
  change (4096 - 0) with 4096 in Ha. destruct (spec_exec _ _ _ _) as [sum ar k'|a k'|why k'].
  - destruct Ha as (p2 & -> & Ha). apply on_proc_ends.
    apply (held_exit _ (MkMenv p2 self tt)); [by eapply after_same|by left].
  - destruct Ha as (p2 & [] & -> & Ha & _). apply on_proc_ends.
    apply (held_error _ (MkMenv p2 (counted self) tt)); [by eapply after_fault|done].
  - destruct Ha as (p2 & -> & _). rewrite Hs; [done| |lia|unfold usize_modulus; lia].
    intros a Ha. apply Hc. lia.
Qed.

(** *** prefetch_sigbus *)

Lemma prefetch_held sc es n len m :
  mapping_ok m -> poisoned (m_self m) = false -> 0 <= len < usize_modulus ->
  sc_events sc = es ++ rounds n -> (3 * probe_count sysconf_pagesize len + 20 <= n)%nat ->
  ends killed (fun r m' => same_mapping m m' /\ match r with Ok _ => True | Err e => can_show e end)
    (prefetch_with_timeout (sc_worker sc) (sc_events sc) 0 len (5 * 10 ^ 9) m).
Proof.
  intros Hm Hpo Hl Hes Hn. pose proof Hm as [Hok Hc].
  pose proof (prefetch_timeout_ok (sc_worker sc) es n 0 len (5 * 10 ^ 9) m Hok Hpo ltac:(lia) ltac:(lia) Hn) as H.
  rewrite <- Hes in H. cbv zeta in H. destruct (Z.ltb_spec (raw_len (raw (m_self m))) (0 + len)) as [Hlt|Hle].
  { rewrite H. cbn. split; [by apply same_refl|lia]. }
  destruct (prefetch_with_timeout _ _ _ _ _ m) as [r m'|why m']; cbn in H |- *.
  - destruct H as [(_ & Hp' & [Hr _]) H]. pose proof Hok as [_ Hwf Hpi Hcb].
    destruct r as [u|[a|? ? ?|?|? ? ?|?]]; try (destruct H as [? _]; discriminate).
    + destruct H as [-> _]. split; [|done]. by apply same_keep.
    + destruct H as [-> _]. split; [|done]. destruct (counted_keeps (m_self m)) as (? & _ & _ & _ & ?).
      by apply same_keep; try done; [apply counted_inv|apply counted_returns].
    + destruct H as ([= -> -> ->] & -> & _). split; [by apply same_keep|]. cbn. lia.
  - destruct H as [->|(-> & a & f & k & k' & Ha & El & Hf)]; [done|].
    apply load_fault in El. subst f. apply list_elem_of_fmap in Ha as (o & -> & Ho).
    pose proof (proj1 (Forall_forall _ _) (range_step_by_in len sysconf_pagesize
      (proj1 page_pos) (proj1 Hl)) o Ho) as Hin. cbv beta in Hin.
    rewrite Hc in Hf by lia. done.
Qed.

(** Whether the file of [prefetch_sigbus], or the mapping of it, cannot be had. *)
Definition prefetch_file_fails (dir : Path) (k : K) : bool :=
  let path := path_join dir (bytes_of "sigbus_prefetch.bin") in
  match sys_write_file k path (replicate (Z.to_nat (sysconf_pagesize * 4)) 221) with
  | (_, Err _) => true
  | (k, Ok _) =>
      match open_kernel (C := unit) SafeMmapOptions_new path k with
      | (_, Err _) => true
      | (_, Ok _) => false
      end
  end.

(** The scenario once its mapping is open. *)
Lemma prefetch_body_ends sc es n path self p :
  sysconf_pagesize * 4 < usize_modulus -> sc_events sc = es ++ rounds n -> (32 <= n)%nat ->
  mapping_ok (MkMenv p self tt) -> poisoned self = false ->
  ends killed (fun code _ => exits code)
    (holding self (
      n ← umul sysconf_pagesize 4;
      result ← prefetch_with_timeout (sc_worker sc) (sc_events sc) 0 n (5 * 10 ^ 9);
      on_proc (
        _ ← remove_file path;
        match result with
        | Ok _ => exit_with false "prefetch_ok" 0
        | Err e => msg ← shown fmt_duration fmt_io e; exit_with true ("unexpected error: " +:+ msg) 1
        end)) p).
Proof.
  intros Hps Hes Hn Hm Hpo. pose proof page_pos as Hpage.
  apply holding_ends; [done|]. rewrite bind_eq, umul_ok by lia. cbv beta iota.
  assert (Hc : probe_count sysconf_pagesize (sysconf_pagesize * 4) = 4%nat).
  { pose proof (probe_count_spec sysconf_pagesize (proj1 Hpage) (sysconf_pagesize * 4)) as Hc.
    assert (0 <= sysconf_pagesize * 4) by lia. nia. }
  eapply ends_bind; [apply (prefetch_held sc es n); [done..|lia|done|rewrite Hc; lia]|].
  intros r m [Hs Hr]. apply on_proc_ends.
  eapply ends_bind with (R := fun _ p' => exists k, p' = set_os k (m_proc m)).
  { apply remove_ends. intros k. by exists k. }
  intros _ ? [k ->].
  assert (Hs' : same_mapping (MkMenv p self tt) (MkMenv (set_os k (m_proc m)) (m_self m) (m_user m))).
  { eapply same_trans; [exact Hs|]. apply same_os, Hs. }
  destruct r as [u|e]; [apply (held_exit _ _ _ _ _ _ Hs'); by left|].
  by apply (held_error _ _ e _ _ Hs').
Qed.

Lemma prefetch_ends sc es n dir p :
  sysconf_pagesize * 4 < usize_modulus -> proc_ok p -> sc_events sc = es ++ rounds n -> (32 <= n)%nat ->
  victim_outcome (prefetch_file_fails dir (p_os p)) (scenario_prefetch_sigbus fmt_duration fmt_io sc dir p).
Proof.
  intros Hps Hp Hes Hn. pose proof page_pos as Hpage. unfold scenario_prefetch_sigbus, prefetch_file_fails.
  cbv zeta. set (path := path_join _ _). rewrite bind_eq, page_size_ok. cbv beta iota.
  rewrite bind_eq, umul_ok by lia. cbv beta iota. rewrite bind_eq, os_call_eq.
  destruct (sys_write_file _ _ _) as [k1 [u|e]]; [|done].
  rewrite bind_eq. cbn [expect]. rewrite ?mret_eq. cbv beta iota.
  assert (H1 : proc_ok (set_os k1 p)) by by apply set_os_ok.
  pose proof (open_ok SafeMmapOptions_new path (set_os k1 p) H1 default_fit) as Ho.
  cbn [set_os p_os] in Ho. rewrite bind_eq.
  destruct (open_kernel SafeMmapOptions_new path k1) as [k2 [[rw fd]|e]]; cbn [open_outcome] in Ho.
  - destruct Ho as (p2 & E & _). change (SafeMmap_open path (set_os k1 p)) with
      (SafeMmapOptions_open (C := unit) SafeMmapOptions_new path (set_os k1 p)). rewrite E. cbv beta iota.
    destruct (open_mapping_ok path _ _ _ H1 E) as (Hm & Hpo & _).
    rewrite bind_eq. cbn [expect]. rewrite ?mret_eq. cbv beta iota.
    apply outcome_ends. by apply (prefetch_body_ends sc es n).
  - change (SafeMmap_open path (set_os k1 p)) with
      (SafeMmapOptions_open (C := unit) SafeMmapOptions_new path (set_os k1 p)). by rewrite Ho.
Qed.

(** *** nfs_failure, and the whole program *)

Lemma nfs_failure_ends sc pa p :
  (forall k1 fd k2 n, sys_fstat k1 fd = (k2, Ok n) -> n <= u32_max * sysconf_pagesize) ->
  proc_ok p -> ends killed (fun code _ => exits code) (scenario_nfs_failure fmt_duration fmt_io sc (Some pa) p).
Proof.
  intros Hmax Hp. destruct (nfs_failure_ok fmt_duration fmt_io sc pa p Hp Hmax) as [(p' & -> & _)|[p' ->]];
    [|done].
  cbn. unfold nfs_failure_code, exits. destruct (open_kernel _ _ _) as [k1 [[rw fd]|e]]; [|auto].
  destruct (snd _); auto.
Qed.

(** Whether the scenario of the arguments cannot set its file up. *)
Definition set_up_fails (scenario : string) (dir : Path) (k : K) : bool :=
  if String.eqb scenario "sigbus_basic" then test_file_fails dir "sigbus_basic.bin" k
  else if String.eqb scenario "multi_thread" then test_file_fails dir "sigbus_mt.bin" k
  else if String.eqb scenario "poison" then test_file_fails dir "sigbus_poison.bin" k
  else if String.eqb scenario "prefetch_sigbus" then prefetch_file_fails dir k
  else false.

(** C21 (safety): the test program with any arguments, where its lines can be printed and no
    file it is given has more than [u32::MAX] pages, however the steps of its
    threads interleave and whatever happens first in its prefetch. If the
    scenario cannot write, open or map its own file, its [expect] panics. In
    every other run nothing panics (the [join().unwrap()] of its threads
    included): the program ends with exit code 0 or 1, unless the kernel
    answers an access with SIGSEGV. In no run is it killed by SIGBUS, does it
    abort, or does it wait for ever. *)
Theorem victim_survives sc es n temp_dir args p :
  sysconf_pagesize * 4 < usize_modulus ->
  (forall k1 fd k2 len, sys_fstat k1 fd = (k2, Ok len) -> len <= u32_max * sysconf_pagesize) ->
  proc_ok p -> scope_scheduled sc -> sc_events sc = es ++ rounds n -> (32 <= n)%nat ->
  let scenario := default "sigbus_basic"%string (find_arg "--scenario=" args) in
  let dir := from_option bytes_of temp_dir (find_arg "--dir=" args) in
  let fails := set_up_fails scenario dir (p_os p) in
  match victim_main fmt_duration fmt_io sc temp_dir args p with
  | Done code _ => fails = false /\ exits code
  | Stop why _ => if fails then why = StopPanic else why = StopKilled SIGSEGV
  end.
Proof.
  intros Hps Hmax Hp Hord Hes Hn scenario dir fails.
  change (victim_outcome fails (victim_main fmt_duration fmt_io sc temp_dir args p)).
  unfold victim_main, fails, set_up_fails. fold scenario dir. cbv zeta. clearbody scenario dir.
  destruct (String.eqb_spec scenario "sigbus_basic") as [_|_]; [by apply basic_ends|].
  destruct (String.eqb_spec scenario "multi_thread") as [_|_]; [by apply multi_thread_ends|].
  destruct (String.eqb_spec scenario "poison") as [_|_]; [by apply poison_ends|].
  destruct (String.eqb_spec scenario "prefetch_sigbus") as [_|_]; [by eapply prefetch_ends|].
  apply outcome_ends.
  destruct (String.eqb_spec scenario "nfs_read") as [_|_].
  { destruct (find_arg "--file=" args); [by apply nfs_read_ends|apply exit_ends; intros _; by right]. }
  destruct (String.eqb_spec scenario "nfs_failure") as [_|_].
  { destruct (find_arg "--file=" args); [by apply nfs_failure_ends|apply exit_ends; intros _; by right]. }
  apply exit_ends. intros _. by right.
Qed.
End Survival.
