(* ===== verification/Witnesses.v ===== *)
(** Concrete runs: each theorem with hypotheses is applied on the machine of
    [Toy.v], in a process with one file of five bytes (a mapping of it has one
    page that can be supplied; an access past that page raises SIGBUS) and one
    page of ordinary memory. *)

From stdpp Require Import prelude gmap strings.
From Stdlib Require Import ZArith Lia.
From S2P Require Import Prelude Errors Env SysMmap Toy Registry RegistryRcu Signal Probe SafeMmap Typing PoisonRace Threads Shared Prefetch Open Space System Lives Whole Fallback FsDetect Scope Victim Survival.

#[local] Existing Instance debug.

(** * The process *)

Definition w_path : Path := [97].

(** The anonymous page is at 65536 and starts with the bytes 1, 2, 3. *)
Definition w_os : toy :=
  toy_set_written (toy_mmap (toy_boot [(w_path, [104; 101; 108; 108; 111])]) 0 4096 3 34 (-1) 0).1
    (list_to_map [(65536, 1); (65537, 2); (65538, 3)]).

Definition w_init : proc toy toy_proc := proc_init w_os toy_proc_boot.

Definition log_callback : EventCallback (list MmapEvent) := fun e l => Done tt (l ++ [e]).

(** Two pages, of which the file fills part of the first. *)
Definition w_opts : SafeMmapOptions (list MmapEvent) :=
  SafeMmapOptions_on_event log_callback (SafeMmapOptions_len 8192
    (SafeMmapOptions_writable true SafeMmapOptions_new)).

Definition w_open : outcome (proc toy toy_proc) (result (SafeMmap (list MmapEvent)) MmapError) :=
  SafeMmapOptions_open w_opts w_path w_init.

Definition w_proc1 : proc toy toy_proc :=
  match w_open with Done _ p => p | Stop _ p => p end.

Definition w_self : SafeMmap (list MmapEvent) :=
  {| raw := {| raw_ptr := 73728; raw_len := 8192; raw_writable := true |};
     path := w_path; file := 3; sigbus_count := 0; poisoned := false; max_sigbus := 3;
     on_event := Some log_callback |}.

Definition w_menv : menv toy toy_proc (list MmapEvent) := MkMenv w_proc1 w_self [].

Lemma w_init_ok : proc_ok w_init.
Proof. by apply proc_init_ok. Qed.

Lemma w_opts_fit : options_fit w_opts.
Proof. by apply (bool_decide_unpack _). Qed.

Lemma w_callback : forall e (u : list MmapEvent), exists u', log_callback e u = Done tt u'.
Proof. intros e u. by eexists. Qed.

Lemma w_open_eq : w_open = Done (Ok w_self) w_proc1.
Proof. by vm_compute. Qed.

Lemma w_menv_ok : menv_ok w_menv.
Proof. exact (open_menv_ok w_opts w_path w_init w_self w_proc1 [] w_init_ok w_opts_fit w_callback w_open_eq). Qed.

Lemma w_proc1_ok : proc_ok w_proc1.
Proof. exact (mo_proc (MkMenv w_proc1 w_self []) w_menv_ok). Qed.

Lemma w_wf : RawMmap_wf (raw w_self).
Proof. exact (mo_raw (MkMenv w_proc1 w_self []) w_menv_ok). Qed.

(** * The syscall layer *)

Definition w_raw : RawMmap := raw w_self.

Lemma advise_range_pages_witness :
  RawMmap_wf w_raw /\ exists a l, page_cover w_raw 4090 10 a l /\
    RawMmap_advise_range w_raw DontNeed 4090 10 w_os =
      let '(k', ret) := sys_madvise w_os a l MADV_DONTNEED in
      Done (if ret =? 0 then Ok tt else Err (OsError (errno k'))) k'.
Proof.
  split; [exact w_wf|].
  destruct (advise_range_pages w_raw DontNeed 4090 10 w_os w_wf) as [[Hlt _]|[_ H]];
    [by apply (bool_decide_unpack _)..|done|exact H].
Defined.

Lemma mincore_pages_witness :
  exists bits k', RawMmap_mincore w_raw 10 5000 w_os = Done (Ok bits) k' /\ length bits = 2%nat.
Proof.
  destruct (mincore_pages w_raw 10 5000 w_os w_wf) as [[Hlt _]|(_ & a & l & n & Hc & Hl & _ & _ & H)];
    [by apply (bool_decide_unpack _)..|done|].
  destruct Hc as ([qa Ha] & _ & Hc). cbn in Ha, Hc, Hl.
  assert (n = 2%nat) as -> by lia.
  cbn [sys_mincore toy_vm] in H. destruct H as (bits & E & Hb & _). exists bits, w_os. exact (conj E Hb).
Defined.

(** * The registry *)

Definition w_mutations : list mutation := [Register 4096 100; Register 8192 10; Unregister 4096].

Lemma w_mutations_fit : Forall mutation_fits w_mutations.
Proof. repeat constructor; by apply (bool_decide_unpack _). Qed.

Lemma registry_refines_list_witness :
  exists r, mutate_all w_mutations registry_init = Done tt r /\ contains 8195 r = Done true r.
Proof.
  destruct (registry_refines_list w_mutations w_mutations_fit) as (r & E & _ & H).
  exists r. split; [exact E|]. rewrite H. by vm_compute.
Defined.

(** A reader that loaded the snapshot before a mutation of two steps. *)
Definition w_rcu : option rcu :=
  rcu_run [Begin (Register 4096 100); Finish; Load 7; Begin (Unregister 4096); Finish] rcu_init.

Lemma handler_grace_period_witness :
  exists s, w_rcu = Some s /\ rcu_reachable s /\
    exists s', rcu_exec (Scan 7 4100) s = Done true s'.
Proof.
  destruct w_rcu as [s|] eqn:E; [|by vm_compute in E].
  assert (Hr : rcu_reachable s).
  { apply (rcu_run_reachable [Begin (Register 4096 100); Finish; Load 7; Begin (Unregister 4096); Finish]
      rcu_init); [constructor|exact E]. }
  exists s. split; [done|]. split; [exact Hr|].
  destruct (handler_grace_period s Hr) as (H & _ & _).
  vm_compute in E. injection E as <-.
  exact (H 7 _ 4100 eq_refl ltac:(cbn; lia)).
Defined.

Definition w_registry : Registry :=
  match mutate_all w_mutations registry_init with Done _ r => r | Stop _ r => r end.

Lemma w_registry_ok : registry_wf w_registry /\ poisoned_mutex w_registry = false.
Proof.
  destruct (mutate_all_ok w_mutations registry_init registry_init_wf eq_refl w_mutations_fit)
    as (r & E & Hwf & Hm & _).
  unfold w_registry. by rewrite E.
Qed.

Lemma freed_after_one_operation_witness :
  exists r1 r2 r3, mutate (Register 12288 1) w_registry = Done tt r1 /\
    mutate (Unregister 1) r1 = Done tt r2 /\
    rotate_retired r2 = Done tt r3 /\ heap r3 !! region_snapshot w_registry = None.
Proof.
  destruct w_registry_ok as [Hwf Hm].
  destruct (freed_after_one_operation w_registry (Register 12288 1) (Unregister 1) Hwf Hm)
    as (r1 & r2 & r3 & ? & _ & ? & _ & ? & ?);
    [by apply (bool_decide_unpack _)|done|by vm_compute|by exists r1, r2, r3].
Defined.

(** * Protected calls *)

(** The first byte of the page that cannot be supplied. *)
Definition w_bad : Z := 77824.

Lemma protected_call_refines_witness :
  exists p', protect 1 (PLoad 73728 (fun b => PLoad w_bad (fun _ => PRet b))) w_proc1 = Done (Err w_bad) p' /\
    after_call 1 w_proc1 (p_os w_proc1) p'.
Proof.
  pose proof (protected_call_refines 1 (PLoad 73728 (fun b => PLoad w_bad (fun _ => PRet b))) w_proc1
    w_proc1_ok) as H.
  assert (E : spec_exec (covered w_proc1) (PLoad 73728 (fun b => PLoad w_bad (fun _ => PRet b))) true
    (p_os w_proc1) = SCaught w_bad (p_os w_proc1)) by by vm_compute.
  rewrite E in H. exact H.
Defined.

Lemma protected_call_no_ub_witness :
  proc_ok w_proc1 /\ exists w p', protect 1 (PPanic : prog unit) w_proc1 = Stop w p' /\ w = StopAbort.
Proof.
  split; [exact w_proc1_ok|].
  destruct (protect 1 (PPanic : prog unit) w_proc1) as [r p'|w p'] eqn:E; [by vm_compute in E|].
  exists w, p'. split; [reflexivity|].
  destruct (protected_call_no_ub 1 (PPanic : prog unit) w_proc1 w p' w_proc1_ok E) as [->|[->| ->]];
    [done|by vm_compute in E..].
Defined.

Lemma sigbus_is_recovered_witness :
  touches_only (fun a => covered w_proc1 a = true) (PLoad w_bad (fun _ => PRet tt)) /\
  exists r p', protect 1 (PLoad w_bad (fun _ => PRet tt)) w_proc1 = Done r p'.
Proof.
  assert (Ht : touches_only (fun a => covered w_proc1 a = true) (PLoad w_bad (fun _ => PRet tt)))
    by by split.
  split; [exact Ht|].
  destruct (sigbus_is_recovered 1 (PLoad w_bad (fun _ => PRet tt)) w_proc1 w_proc1_ok Ht)
    as [(r & p' & E & _)|(w & p' & E & _)]; [exists r, p'; exact E|by vm_compute in E].
Defined.

Lemma nested_call_disarms_witness :
  exists p', protect 1 (PProtect (read_byte 73728) (fun _ => PLoad w_bad (fun _ => PRet tt))) w_proc1
    = Stop (StopKilled SIGBUS) p'.
Proof.
  apply (nested_call_disarms 1 (read_byte 73728) w_bad (fun _ => PRet tt) w_proc1
    (p_os w_proc1) (p_os w_proc1) w_bad w_proc1_ok).
  - left. exists 104, true. by vm_compute.
  - by vm_compute.
Defined.

(** Thread 1 ends and comes back. *)
Definition w_threads : list thread_op :=
  [ThreadUse 1; ThreadUse 2; ThreadExit 1; ThreadExit 9; ThreadUse 3; ThreadUse 1; ThreadExit 3].

Lemma thread_states_are_own_witness :
  exists p : proc toy toy_proc, run_thread_ops w_threads w_init = Done tt p /\
    thread_ptr p 1 <> thread_ptr p 2 /\ ~ is_Some (thread_state p 3).
Proof.
  destruct (thread_states_are_own (K := toy) (PE := toy_procenv) w_threads w_os toy_proc_boot eq_refl eq_refl)
    as (p & E & Hl & Hne & _). exists p. split; [exact E|]. split.
  - apply Hne; [|discriminate]. by apply (bool_decide_unpack _).
  - rewrite Hl. by apply (bool_decide_unpack _).
Defined.

(** Thread 1 reads past the file; thread 2 does so in a protected call of its
    closure's own, then reads the first byte of the file. The handlers run while
    another thread registers a region. *)
Definition w_nested : prog Z :=
  PProtect (PLoad w_bad PRet) (fun r => match r with Ok b => PRet b | Err _ => PLoad 73728 PRet end).

Definition w_calls : list (action toy Z) :=
  [ACall 1 (PLoad w_bad PRet); AStep 1; AStep 1; ACall 2 w_nested] ++ replicate 10 (AStep 2) ++
  [AStep 1; AStep 1; AStep 1; ABegin (Register 4096 100); AStep 1; AStep 2; AFinish] ++
  concat (replicate 3 [AStep 1; AStep 2]) ++ replicate 4 (AStep 2) ++ [AExit 2].

Definition w_called : machine toy toy_proc Z :=
  let start := MkMachine w_proc1 None ∅ in
  fold_left (fun s a => match ma_exec a s with Done _ s' => s' | Stop _ s' => s' end) w_calls start.

Lemma w_called_reachable : ma_reachable w_proc1 w_called.
Proof.
  apply (ma_path_reachable w_proc1 w_calls (MkMachine w_proc1 None ∅)); [constructor|].
  vm_compute. repeat split; try tauto; try done; try lia; by eexists.
Qed.

Lemma w_disarmed t : disarmed w_proc1 t.
Proof.
  assert (p_key_init w_proc1 = OnceNew) as E by by vm_compute.
  intros st. unfold thread_state, thread_ptr. by rewrite E.
Qed.

Lemma concurrent_calls_witness :
  exists c1 c2, ma_calls w_called !! 1 = Some c1 /\ ma_calls w_called !! 2 = Some c2 /\
    c_pc c1 = CDone (Err w_bad) /\ caught c1 w_bad /\ c_pc c2 = CDone (Ok 104).
Proof.
  destruct (concurrent_calls w_proc1 w_called w_proc1_ok w_disarmed w_called_reachable) as (_ & H & _).
  destruct (ma_calls w_called !! 1) as [c1|] eqn:E1; [|by vm_compute in E1].
  destruct (ma_calls w_called !! 2) as [c2|] eqn:E2; [|by vm_compute in E2].
  exists c1, c2. split; [done|]. split; [done|].
  assert (Epc : c_pc c1 = CDone (Err w_bad)) by (vm_compute in E1; by injection E1 as <-).
  split; [exact Epc|]. split; [exact (H 1 c1 _ E1 Epc)|]. vm_compute in E2. by injection E2 as <-.
Defined.

Lemma solo_call_witness :
  exists n p', call_run n 1 (start w_nested) w_proc1 = Done (Some (Ok 104)) p'.
Proof.
  destruct (solo_call 1 w_nested w_proc1 w_proc1_ok) as [n H]. exists n.
  assert (E : exists k, spec_exec (covered w_proc1) w_nested true (p_os w_proc1) = SVal 104 false k)
    by (eexists; vm_compute; reflexivity).
  destruct E as [k E]. rewrite E in H. destruct H as (p' & H & _). by exists p'.
Defined.

(** Another library created key 0 and stored a pointer of its own under it. *)
Definition w_foreign : proc toy toy_proc :=
  MkProc w_os {| tp_keys := 1; tp_vals := {[0 := {[1 := 4242]}]} |} registry_init SigbusHandler
    OnceDone OnceNew 0 ∅ 0.

Lemma handler_before_key_init_witness :
  deliver_sigbus 1 73728 w_foreign = Stop StopUB w_foreign.
Proof. by apply (handler_before_key_init 1 73728 w_foreign 4242). Defined.

(** * Accesses of a mapping *)

Lemma read_result_witness :
  exists m', SafeMmap_read 1 1 3 (fun ptr len => to_vec ptr (Z.to_nat len)) w_menv = Done (Ok [101; 108]) m'.
Proof.
  pose proof (read_result 1 1 3 (fun ptr len => to_vec ptr (Z.to_nat len)) w_menv w_menv_ok
    ltac:(by apply (bool_decide_unpack _)) ltac:(by apply (bool_decide_unpack _))) as H. cbv zeta in H.
  change (poisoned (m_self w_menv)) with false in H. change (3 <? 1) with false in H.
  change (raw_len (raw (m_self w_menv)) <? 3) with false in H. cbv iota in H.
  destruct (spec_exec _ _ _ _) as [v ar k'|a k'|w k'] eqn:E; [|by vm_compute in E..].
  assert (v = [101; 108]) as -> by (vm_compute in E; by injection E).
  destruct H as (p' & E' & _). eexists. exact E'.
Defined.

Lemma copy_result_witness :
  exists p' u', SafeMmap_write 1 4090 65536 10 w_menv = Done (Err (Sigbus w_bad)) (MkMenv p' (counted w_self) u').
Proof.
  pose proof (copy_result 1 4090 65536 10 w_menv w_menv_ok) as H. cbv zeta in H.
  change (poisoned (m_self w_menv)) with false in H. cbv iota in H.
  assert (E : (raw_len (raw (m_self w_menv)) <? 4090 + 10) = false) by done. rewrite E in H.
  destruct H as [_ H]. change (raw_writable (raw (m_self w_menv))) with true in H.
  destruct (spec_exec _ _ _ _) as [v ar k'|a k'|w k'] eqn:Es; [by vm_compute in Es| |by vm_compute in Es].
  assert (a = w_bad) as -> by (vm_compute in Es; by injection Es).
  destruct H as (p' & u' & E' & _). exists p', u'. exact E'.
Defined.

Definition w_poisoned : menv toy toy_proc (list MmapEvent) :=
  MkMenv w_proc1 (set_poisoned true (set_sigbus_count 3 w_self)) [].

Lemma poisoned_refuses_witness :
  SafeMmap_probe 1 0 10 w_poisoned = Done (Err (Poisoned 3)) w_poisoned.
Proof.
  by destruct (poisoned_refuses 1 w_poisoned (fun _ _ _ _ => mret (Ok tt)) 0 1 (fun _ _ => PRet tt) 0 0 10 0
    eq_refl) as (_ & _ & _ & H & _).
Defined.

(** Four faulting reads: the third poisons. *)
Definition w_faulting : list checked_op :=
  replicate 4 (OpRead 4096 4097 (fun ptr _ => read_byte ptr)).

Lemma faults_poison_witness :
  exists rs m', run_ops 1 w_faulting w_menv = Done rs m' /\ faults rs = 3 /\
    rs !! 3%nat = Some (Err (Poisoned 3)).
Proof.
  assert (Hf : Forall op_fits w_faulting).
  { apply Forall_replicate. by apply (bool_decide_unpack _). }
  destruct (faults_poison 1 w_faulting w_menv w_menv_ok Hf)
    as [(rs & m' & E & _ & _ & _ & H)|(w & m' & E & _)]; [|by vm_compute in E].
  exists rs, m'. split; [exact E|].
  assert (Hrs : rs = [Err (Sigbus 77824); Err (Sigbus 77824); Err (Sigbus 77824); Err (Poisoned 3)])
    by (vm_compute in E; by injection E).
  rewrite Hrs. split; reflexivity.
Defined.

Lemma guard_ignores_poison_witness :
  exists p', (g ← SafeMmap_guard; on_proc (ReadGuard_read 1 g 0 1 (fun ptr _ => read_byte ptr))) w_poisoned
    = Done (Ok 104) (MkMenv p' (m_self w_poisoned) []).
Proof.
  pose proof (guard_ignores_poison 1 0 1 (fun ptr _ => read_byte ptr) w_proc1 (m_self w_poisoned) []
    w_proc1_ok w_wf ltac:(lia) ltac:(lia) ltac:(by apply (bool_decide_unpack _))) as H. cbv zeta in H.
  destruct (spec_exec _ _ _ _) as [v ar k'|a k'|w k'] eqn:E; [|by vm_compute in E..].
  assert (v = 104) as -> by (vm_compute in E; by injection E). exact H.
Defined.


Lemma overflow_error_display_witness :
  exists e, SafeMmap_write 1 usize_max 65536 10 w_menv = Done (Err e) w_menv /\
    display_AccessError (fun _ => "") (fun _ => "") e tt = Stop StopPanic tt.
Proof.
  destruct (overflow_error_display 1 usize_max 65536 10 w_menv (fun _ => "") (fun _ => "") w_menv_ok eq_refl)
    as (e & E & _ & H); [by apply (bool_decide_unpack _)..|done|]. exists e. exact (conj E H).
Defined.

Lemma probe_result_witness :
  exists p' u', SafeMmap_probe 1 0 8192 w_menv = Done (Err (Sigbus w_bad)) (MkMenv p' (counted w_self) u').
Proof.
  destruct (probe_result 1 0 8192 w_menv w_menv_ok eq_refl) as [[Hlt _]|[_ H]];
    [lia|lia|by vm_compute in Hlt|].
  destruct (touch_all _ _) as [k'|a k'|k'] eqn:E; [by vm_compute in E| |by vm_compute in E].
  assert (a = w_bad) as -> by (vm_compute in E; by injection E). cbn [probe_outcome] in H.
  assert (Hc : covered (m_proc w_menv) w_bad = true) by by vm_compute. rewrite Hc in H.
  destruct H as (p' & u' & E' & _). exists p', u'. exact E'.
Defined.

(** The second page of the mapping is past the end of its file: a probe of both
    pages finds out, one that starts in the last byte of the first page and ends
    in the first byte of the second does not. *)
Definition w_lost (y : Z) : bool :=
  bool_decide (is_Some (toy_find (p_os w_proc1) (73728 + y)) /\ toy_mem_at (p_os w_proc1) (73728 + y) = None).

Lemma w_page_lost y : 4096 <= y < 8192 -> beyond (p_os w_proc1) (73728 + y).
Proof.
  intros Hy. assert (Hall : forallb w_lost (Z.of_nat <$> seq 4096 4096) = true) by by vm_compute.
  rewrite forallb_forall in Hall. assert (Hl : w_lost y = true).
  { apply Hall, list_elem_of_In, list_elem_of_fmap. exists (Z.to_nat y). rewrite elem_of_seq. lia. }
  by apply bool_decide_eq_true in Hl.
Qed.

Lemma probe_finds_lost_pages_witness :
  (forall m', SafeMmap_probe 1 0 8192 w_menv <> Done (Ok tt) m') /\
  exists m', SafeMmap_probe 1 4095 2 w_menv = Done (Ok tt) m'.
Proof.
  split.
  - pose proof (probe_finds_lost_pages 1 0 8192 w_menv w_menv_ok eq_refl
      ltac:(lia) ltac:(lia) ltac:(by apply (bool_decide_unpack _))) as H. cbv zeta in H.
    change (0 mod sysconf_pagesize <=? (0 + 8192 - 1) mod sysconf_pagesize) with true in H. cbv iota in H.
    apply (H 4096); [lia|]. intros y Hy. change sysconf_pagesize with 4096 in Hy.
    change (4096 / 4096) with 1 in Hy. apply w_page_lost.
    pose proof (Z.div_mod y 4096). pose proof (Z.mod_pos_bound y 4096). lia.
  - pose proof (probe_finds_lost_pages 1 4095 2 w_menv w_menv_ok eq_refl
      ltac:(lia) ltac:(lia) ltac:(by apply (bool_decide_unpack _))) as H. cbv zeta in H.
    change (4095 mod sysconf_pagesize <=? (4095 + 2 - 1) mod sysconf_pagesize) with false in H. cbv iota in H.
    apply H. intros y Hy Hne. assert (y = 4095) as -> by (destruct (decide (y = 4096)) as [->|]; [by destruct Hne|lia]).
    vm_compute. by eexists.
Defined.

Lemma w_holds : holds (p_os w_proc1) 65536 [1; 2; 3].
Proof. repeat (apply holds_cons; split; [by vm_compute|]). by intros [] ?. Qed.

Lemma w_usable : usable (p_os w_proc1) 73730 3.
Proof.
  intros x Hx. assert (x = 73730 \/ x = 73731 \/ x = 73732) as [->|[->| ->]] by lia;
    (split; [eexists|]; by vm_compute).
Qed.

Lemma write_then_read_witness :
  exists p1 p2, SafeMmap_write 1 2 65536 3 w_menv = Done (Ok tt) (MkMenv p1 w_self []) /\
    SafeMmap_read 1 2 5 (fun ptr len => to_vec ptr (Z.to_nat len)) (MkMenv p1 w_self []) =
      Done (Ok [1; 2; 3]) (MkMenv p2 w_self []).
Proof.
  destruct (write_then_read 1 2 65536 [1; 2; 3] w_menv w_menv_ok eq_refl eq_refl)
    as (p1 & p2 & E1 & E2 & _); [lia|by apply (bool_decide_unpack _)|exact w_holds|exact w_usable| |].
  - left. by apply (bool_decide_unpack _).
  - exists p1, p2. exact (conj E1 E2).
Defined.

(** * Prefetching *)

Lemma w_range : 73728 + 0 + 8192 <= isize_max.
Proof. by apply (bool_decide_unpack _). Qed.

Lemma prefetch_returns_witness :
  prefetch_outcome 9 73728 0 8192 5 w_proc1
    (prefetch_with_deadline 9 73728 0 8192 5 ([StepMain; SpuriousWakeup] ++ rounds 30) w_proc1).
Proof.
  apply (prefetch_returns 9 73728 0 8192 5 w_proc1 w_proc1_ok ltac:(lia) ltac:(lia) ltac:(lia) w_range).
  by apply (bool_decide_unpack _).
Defined.

(** Main waits, the worker walks one page and finishes. *)
Definition w_events : list event :=
  [StepMain; StepMain] ++ replicate 10 StepWorker ++ replicate 8 StepMain.

Lemma prefetch_return_is_final_witness :
  let s := run_events_of 9 73728 0 4096 5 w_events w_proc1 in
  pf_main s = MRet (Ok tt) /\ pf_worker s = WExit /\ pf_lock s = None.
Proof.
  pose proof (prefetch_return_is_final 9 73728 0 4096 5 w_proc1 w_proc1_ok ltac:(lia) ltac:(lia)
    ltac:(lia) ltac:(by apply (bool_decide_unpack _)) w_events) as H. cbv zeta in *.
  assert (E : pf_main (run_events_of 9 73728 0 4096 5 w_events w_proc1) = MRet (Ok tt)) by by vm_compute.
  rewrite E in H. destruct H as (H1 & H2 & _). exact (conj E (conj H1 H2)).
Defined.

Lemma prefetch_method_witness :
  exists a p' u', prefetch_with_timeout 9 (([StepMain; StepMain] ++ replicate 14 StepWorker) ++ rounds 30) 0 8192 5 w_menv
    = Done (Err (Sigbus a)) (MkMenv p' (counted w_self) u').
Proof.
  pose proof (prefetch_method 9 ([StepMain; StepMain] ++ replicate 14 StepWorker) 30 0 8192 5 w_menv w_menv_ok eq_refl ltac:(lia) ltac:(lia)
    ltac:(by apply (bool_decide_unpack _))) as H. cbv zeta in H.
  assert (E : (raw_len (raw (m_self w_menv)) <? 0 + 8192) = false) by by vm_compute.
  rewrite E in H.
  assert (Hf : match prefetch_with_timeout 9 (([StepMain; StepMain] ++ replicate 14 StepWorker) ++ rounds 30)
      0 8192 5 w_menv with Done (Err (Sigbus _)) _ => true | _ => false end = true) by by vm_compute.
  destruct (prefetch_with_timeout _ _ _ _ _ _) as [[|[a|? ? ?|?|? ? ?|?]] m'|]; try discriminate.
  destruct H as (_ & -> & _). by do 3 eexists.
Defined.

Lemma stalled_worker_blocks_witness :
  pf_worker (run_events_of 9 73728 0 4096 5
    [StepMain; StepMain; StepWorker; StepWorker; StepWorker] w_proc1) <> WExit /\
  forall r, pf_main (run_events_of 9 73728 0 4096 5
    ([StepMain; StepMain; StepWorker; StepWorker; StepWorker] ++
     [TimeoutFires; StepMain; StepMain; StepMain; StepMain; StepMain]) w_proc1) <> MRet r.
Proof.
  split; [by vm_compute|].
  apply (stalled_worker_blocks 9 73728 0 4096 5 w_proc1 w_proc1_ok ltac:(lia) ltac:(lia) ltac:(lia)
    ltac:(by apply (bool_decide_unpack _))); [by vm_compute|].
  rewrite !not_elem_of_cons. split_and!; try discriminate. apply not_elem_of_nil.
Defined.

Lemma spurious_wakeup_drops_deadline_witness :
  pf_main (run_events_of 9 73728 0 4096 5 [StepMain; StepMain; StepWorker; StepWorker] w_proc1) = MWait /\
  (pf_main (run_events_of 9 73728 0 4096 5
     ([StepMain; StepMain; StepWorker; StepWorker] ++
      SpuriousWakeup :: TimeoutFires :: replicate 3 StepMain ++ replicate 9 StepWorker ++ replicate 4 StepMain) w_proc1) =
     MRet (Ok tt)) /\
  Ok tt <> Err (Timeout 0 4096 5) :> result unit AccessError.
Proof.
  assert (E : pf_main (run_events_of 9 73728 0 4096 5 [StepMain; StepMain; StepWorker; StepWorker] w_proc1) = MWait)
    by by vm_compute.
  pose proof (spurious_wakeup_drops_deadline 9 73728 0 4096 5 w_proc1 w_proc1_ok ltac:(lia) ltac:(lia)
    ltac:(lia) ltac:(by apply (bool_decide_unpack _)) _
    (TimeoutFires :: replicate 3 StepMain ++ replicate 9 StepWorker ++ replicate 4 StepMain) E) as H.
  split; [exact E|].
  assert (Er : pf_main (run_events_of 9 73728 0 4096 5
     ([StepMain; StepMain; StepWorker; StepWorker] ++
      SpuriousWakeup :: TimeoutFires :: replicate 3 StepMain ++ replicate 9 StepWorker ++ replicate 4 StepMain) w_proc1) =
     MRet (Ok tt)) by by vm_compute.
  cbv zeta in H. rewrite Er in H. split; [exact Er|apply H].
Defined.

(** * Opening and dropping *)

Lemma open_refines_witness :
  open_outcome w_opts w_path w_init (open_kernel w_opts w_path w_os) w_open.
Proof. exact (open_refines w_opts w_path w_init w_init_ok w_opts_fit). Defined.

Lemma open_success_witness :
  raw_writable (raw w_self) = true /\
  forall a, 73728 <= a < 73728 + 8192 -> covered w_proc1 a = true.
Proof.
  destruct (open_success w_opts w_path w_init w_self w_proc1 [] w_init_ok w_opts_fit w_callback w_open_eq)
    as (_ & _ & _ & _ & _ & Hw & _ & H & _).
  exact (conj Hw H).
Defined.

(** The file of five bytes, from offset 4096. *)
Definition w_beyond : SafeMmapOptions (list MmapEvent) :=
  SafeMmapOptions_offset 4096 SafeMmapOptions_new.

Lemma open_errors_witness :
  exists p', SafeMmapOptions_open w_beyond w_path w_init = Done (Err (OffsetBeyondFile 4096 5)) p'.
Proof.
  destruct (open_errors w_beyond w_path w_init (toy_open w_os w_path false).1 3
    (toy_open w_os w_path false).1 5 w_init_ok) as (_ & H & _);
    [by apply (bool_decide_unpack _)|reflexivity|by vm_compute|by vm_compute|].
  eexists. apply H. split; [reflexivity|]. split; [lia|]. by apply (bool_decide_unpack _).
Defined.

Lemma drop_undoes_open_witness :
  exists p'', SafeMmap_drop w_self w_proc1 = Done tt p'' /\ regions (p_registry p'') = [].
Proof.
  destruct (drop_undoes_open w_opts w_path w_init w_self w_proc1 w_init_ok w_opts_fit w_open_eq)
    as [(p'' & E & _ & H & _) _].
  - intros r Hr. by apply elem_of_nil in Hr.
  - exists p''. exact (conj E H).
Defined.

(** * The whole process *)

Definition w_program : list (sys_op (list MmapEvent)) :=
  [SysOpen w_opts w_path; SysOpen w_opts w_path;
   SysAccess 1 0 (OpRead 0 1 (fun ptr _ => read_byte ptr)); SysAccess 2 1 (OpProbe 0 8192);
   SysExit 2; SysDrop 0; SysReset 0].

Lemma w_program_fits : Forall sys_op_fits w_program.
Proof.
  pose proof w_opts_fit. pose proof w_callback.
  repeat constructor; try done; by apply (bool_decide_unpack _).
Qed.

Lemma registry_is_live_witness :
  exists w, run_sys w_program (boot w_os toy_proc_boot []) = Done tt w /\
    length (w_live w) = 1%nat /\ covered (w_proc w) 73728 = false.
Proof.
  destruct (registry_is_live (K := toy) (PE := toy_procenv) w_os toy_proc_boot [] w_program eq_refl eq_refl w_program_fits)
    as [(w & E & _)|(why & w & E & _)]; [|by vm_compute in E].
  exists w. split; [exact E|]. vm_compute in E. injection E as <-. split; reflexivity.
Defined.

(** Threads 1 and 2 read the first mapping, thread 1 past the file: while its
    handler runs, a second mapping is opened and dropped. *)
Definition w_two_pages : SafeMmapOptions unit := SafeMmapOptions_len 8192 SafeMmapOptions_new.

Definition w_whole_events : list (whole_event toy unit Z) :=
  [WhOpen w_two_pages w_path] ++ replicate 7 (WhLife 0) ++
  [WhOpen w_two_pages w_path; WhRead 1 0 4096 1 index0; WhRead 2 0 1 1 index0] ++ replicate 6 (WhCall 1) ++
  replicate 6 (WhLife 1) ++ [WhCall 1; WhCall 2; WhLife 1; WhCall 2; WhCall 1].

Definition w_whole_rest : list (whole_event toy unit Z) :=
  [WhLife 1; WhCall 1] ++ replicate 2 (WhLife 1) ++ replicate 5 (WhCall 2).

Definition w_happen (es : list (whole_event toy unit Z)) (s : whole toy toy_proc unit Z) : whole toy toy_proc unit Z :=
  fold_left (fun s e => match wh_exec e s with Done _ s' => s' | Stop _ s' => s' end) es s.

Definition w_reading : whole toy toy_proc unit Z := w_happen w_whole_events (whole_start w_init).
Definition w_dropping : whole toy toy_proc unit Z := w_happen [WhDrop 1] w_reading.
Definition w_whole : whole toy toy_proc unit Z := w_happen w_whole_rest w_dropping.

Lemma index0_touches ptr : touches_only (fun a => ptr <= a < ptr + 1) (index0 ptr 1).
Proof. split; [lia|done]. Qed.

Ltac run_path :=
  vm_compute; repeat match goal with |- _ /\ _ => split end; first [exact index0_touches|done|tauto].

Lemma w_whole_reachable : wh_reachable w_init w_whole.
Proof.
  apply (wh_path_reachable w_init w_whole_rest w_dropping); [|run_path].
  apply (wh_next w_init w_reading (WhDrop 1)); [|intros t Ht; exfalso|vm_compute; reflexivity].
  - apply (wh_path_reachable w_init w_whole_events (whole_start w_init)); [constructor|run_path].
  - assert (Hall : Forall (fun x => x.2 <> 1%nat) (map_to_list (wh_on w_reading)))
      by (apply (bool_decide_unpack _); by vm_compute).
    rewrite Forall_forall in Hall. apply elem_of_map_to_list in Ht. exact (Hall _ Ht eq_refl).
Qed.

Lemma whole_recovers_witness :
  exists c self, ma_calls (wh_ma w_whole) !! 1 = Some c /\ c_pc c = CDone (Err w_bad) /\ caught c w_bad /\
    wh_lives w_whole = [LLive self; LClose 4 Dropped] /\ covered (ma_proc (wh_ma w_whole)) w_bad = true.
Proof.
  destruct (whole_recovers (K := toy) (PE := toy_procenv) w_os toy_proc_boot w_whole eq_refl eq_refl w_whole_reachable)
    as (_ & H & Hc & _).
  destruct (ma_calls (wh_ma w_whole) !! 1) as [c|] eqn:E; [|by vm_compute in E].
  assert (Epc : c_pc c = CDone (Err w_bad)) by (vm_compute in E; by injection E as <-).
  assert (El : exists self, wh_lives w_whole = [LLive self; LClose 4 Dropped] /\ inside (raw self) w_bad).
  { eexists. split; [vm_compute; reflexivity|]. by apply (bool_decide_unpack _). }
  destruct El as (self & El & Hin). exists c, self. split; [done|]. split; [exact Epc|].
  split; [exact (H 1 c _ E Epc)|]. split; [exact El|]. apply Hc. exists self. split; [|exact Hin].
  left. rewrite El. apply list_elem_of_here.
Defined.

(** Two opens whose steps interleave, a read, a drop half done and then another
    open, which fails. *)
Definition w_lives : list (life_event (list MmapEvent)) :=
  [EvOpen w_opts w_path; EvStep 0; EvOpen w_opts w_path; EvStep 1; EvStep 0; EvStep 0; EvStep 1; EvStep 1;
   EvStep 1; EvStep 0; EvStep 0; EvStep 0; EvStep 1; EvStep 1; EvAccess 1 0 (OpRead 0 1 (fun ptr _ => read_byte ptr));
   EvDrop 0; EvStep 0; EvExit 1; EvOpen w_opts [0]; EvStep 2; EvStep 0].

Lemma w_lives_fit : Forall event_fits w_lives.
Proof.
  pose proof w_opts_fit. pose proof w_callback.
  repeat constructor; try done; by apply (bool_decide_unpack _).
Qed.

Lemma concurrent_lives_witness :
  exists s self fd, run_lives w_lives (MkLives (proc_init w_os toy_proc_boot) [] []) = Done tt s /\
    lv_all s = [LClose fd Dropped; LLive self; LGone (Failed (MmapIo (OsError 2)))] /\
    (LGone Panicked ∉ lv_all s) /\ covered (lv_proc s) (raw_ptr (raw self)) = true /\
    mapped (p_os (lv_proc s)) (raw_ptr (raw self)) /\ mapped (p_os (lv_proc s)) 65536.
Proof.
  destruct (concurrent_lives (K := toy) (PE := toy_procenv) w_os toy_proc_boot [] w_lives eq_refl eq_refl w_lives_fit)
    as [(s & E & _ & (_ & Hh & Hb & _) & _ & Hp)|(why & s & E & _)]; [|by vm_compute in E].
  exists s. vm_compute in E. injection E as <-. do 2 eexists. split; [reflexivity|].
  split; [reflexivity|]. split; [exact Hp|]. split; [reflexivity|]. split.
  - apply Hh. do 2 eexists. split; [apply list_elem_of_further, list_elem_of_here|].
    split; [reflexivity|]. by apply (bool_decide_unpack _).
  - apply (Hb 65536). eexists. split; [apply list_elem_of_here|]. by apply (bool_decide_unpack _).
Defined.

(** * Types *)

(** A write, a read, and a probe that faults on the second page. *)
Definition w_typed_ops : list checked_op :=
  [OpWrite 1 65536 3; OpRead 1 2 index0; OpProbe 0 8192; OpWrite 8190 65536 3].

Lemma operations_are_typed_witness :
  exists rs m', run_ops 1 w_typed_ops w_menv = Done rs m' /\ length rs = 4%nat /\
    Forall2 (result_typed w_self) w_typed_ops rs /\
    bounded (some_op (op_loads w_self) w_typed_ops) (some_op (op_stores w_self) w_typed_ops)
      (p_os w_proc1) (p_os (m_proc m')).
Proof.
  assert (Hf : Forall op_fits w_typed_ops).
  { repeat constructor; cbn; try done; by apply (bool_decide_unpack _). }
  assert (Hc : Forall (op_closed w_self) w_typed_ops).
  { repeat constructor; cbn; try done; by apply (bool_decide_unpack _). }
  pose proof (operations_are_typed 1 w_typed_ops w_menv w_menv_ok Hf Hc) as H.
  destruct (run_ops 1 w_typed_ops w_menv) as [rs m'|] eqn:E; [|by vm_compute in E].
  destruct H as (_ & _ & _ & Hr & Hb). exists rs, m'. split; [reflexivity|].
  split; [|exact (conj Hr Hb)]. by rewrite <- (Forall2_length _ _ _ Hr).
Defined.

(** * Concurrent faults *)

(** Two threads record three faults; the second then checks and reads the old
    flag, while the third sees the new one. *)
Definition w_callers : list (list method) :=
  [[CallRecord 77824; CallRecord 77824]; [CallRecord 77824; CallCheck]; [CallPoisoned]].

Definition w_races : list (nat * Z) :=
  [(0%nat, 0); (0%nat, 0); (1%nat, 0); (1%nat, 1); (0%nat, 0); (0%nat, 0); (0%nat, 2); (1%nat, 0);
   (0%nat, 0); (0%nat, 1); (0%nat, 0); (1%nat, 0); (1%nat, 0); (2%nat, 0); (2%nat, 1)].

Lemma recorders_poison_witness :
  exists s, run_schedule 3 w_races (callers 0 false w_callers) = Some s /\ finished s /\
    latest (at_count (sh_mem s)) 3 /\ exists v, latest (at_flag (sh_mem s)) v /\ v <> 0.
Proof.
  destruct (run_schedule 3 w_races (callers 0 false w_callers)) as [s|] eqn:E; [|by vm_compute in E].
  assert (Hf : finished s).
  { clear -E. vm_compute in E. injection E as <-. repeat (constructor || split). }
  destruct (recorders_poison 3 3 0 false ltac:(lia) ltac:(by apply (bool_decide_unpack _)) w_races
    w_callers s ltac:(by apply (bool_decide_unpack _)) eq_refl E) as [_ H].
  destruct (H Hf) as (Hc & v & Hv & Hiff). exists s. split; [done|]. split; [exact Hf|]. split; [exact Hc|].
  exists v. split; [exact Hv|]. apply Hiff. right. split; lia.
Defined.

Lemma reset_race_witness :
  exists sched s, run_schedule 3 sched (callers 2 false [[CallRecord 77824]; [CallReset]]) = Some s /\
    finished s /\ latest (at_flag (sh_mem s)) 1 /\ latest (at_count (sh_mem s)) 0.
Proof.
  destruct (reset_race 3 77824) as (sched & s & H1 & H2 & H3 & H4 & _);
    [by apply (bool_decide_unpack _)|].
  exists sched, s. exact (conj H1 (conj H2 (conj H3 H4))).
Defined.

Definition w_solo : menv toy toy_proc (list MmapEvent) :=
  MkMenv w_proc1 {| raw := raw w_self; path := w_path; file := 3; sigbus_count := 2; poisoned := false;
    max_sigbus := 3; on_event := Some keep_events |} [].

Definition w_solo_todo : list method := [CallRecord 77824; CallCheck; CallReset; CallCount].

Definition w_solo_steps : list (nat * Z) :=
  (fun slot => (0%nat, slot)) <$> [0; 0; 0; 1; 0; 0; 1; 1; 0; 5; 7; 0; 7].

Lemma solo_counter_witness :
  exists s, run_schedule 3 w_solo_steps (callers 2 false [w_solo_todo]) = Some s /\
    at_events (sh_mem s) = [EvSigbus 77824; EvPoisoned 3] /\
    latest (at_count (sh_mem s)) 0 /\ latest (at_flag (sh_mem s)) 0.
Proof.
  destruct (run_schedule 3 w_solo_steps (callers 2 false [w_solo_todo])) as [s|] eqn:E;
    [|by vm_compute in E].
  assert (Hf : finished s).
  { clear -E. vm_compute in E. injection E as <-. repeat (constructor || split). }
  destruct (solo_counter w_solo eq_refl w_solo_todo w_solo_steps s) as [_ H];
    [by apply (bool_decide_unpack _)|exact E|].
  destruct (H Hf) as (th & _ & _ & He & Hc & Hb). exists s. by split_and!.
Defined.

(** * One mapping, two threads *)

Definition w_todos : list (list (op Z)) :=
  [[ORead 4096 4097 index0; OReadInto 0 65536 1]; [OWrite 1 65536 2; OProbe 0 4096; ORead 1 2 index0]].

Definition w_crew : team toy toy_proc Z := crew w_proc1 0 false w_todos.

(** In turns, while another mapping is registered; then the second thread
    finishes. *)
Definition w_turns (n : nat) : list (team_event toy) :=
  concat (replicate n [XStep 0 0; XStep 1 0]).

Definition w_shared_run : list (team_event toy) :=
  w_turns 9 ++ XBegin (Register 4096 100) :: w_turns 1 ++ XFinish :: w_turns 20 ++
  replicate 11 (XStep 1 0) ++ [XExit 0].

Lemma shared_mapping_witness :
  exists s, happens w_self w_shared_run w_crew = Some (Done tt s) /\
    latest (at_count (sw_mem s)) 1 /\
    (forall w, sw_workers s !! 0%nat = Some w -> forall o r, (o, r) ∈ wk_done w ->
       reply_ok w_self 5 0 false o r).
Proof.
  assert (Hgood : Forall (Forall (op_good w_self)) w_todos).
  { repeat constructor; cbn; try done; by apply (bool_decide_unpack _). }
  destruct (happens w_self w_shared_run w_crew) as [[[] s|why s]|] eqn:E; [|by vm_compute in E..].
  destruct (shared_mapping w_self 5 0 false w_wf ltac:(lia) ltac:(by apply (bool_decide_unpack _))
    w_shared_run w_todos w_proc1 s w_proc1_ok w_disarmed Hgood eq_refl E) as (_ & Hw & Hfin & _).
  exists s. split; [reflexivity|]. split; [|intros w Hi; exact (proj2 (Hw 0%nat w Hi))].
  assert (Hd : all_done s /\ sum_list_with faulted (sw_workers s) = 1%nat).
  { clear -E. vm_compute in E. injection E as <-. split; [repeat (constructor || split)|reflexivity]. }
  destruct (Hfin (proj1 Hd)) as [Hc _]. rewrite (proj2 Hd) in Hc. exact Hc.
Defined.

(** * The pread path *)

Definition w_reader : PreadReader := {| pr_file := 3; pr_len := 5; pr_path := w_path |}.

Lemma pread_exact_returns_witness :
  pread_outcome 3 1 4 (p_os w_proc1) (pread_exact 3 [0; 0; 0; 0] 1 (p_os w_proc1)).
Proof. apply (pread_exact_returns 3 [0; 0; 0; 0] 1); by apply (bool_decide_unpack _). Defined.

Lemma pread_read_result_witness :
  exists k', PreadReader_read w_reader 1 5 (fun bs => bs) (p_os w_proc1) = Done (Ok [101; 108; 108; 111]) k'.
Proof.
  destruct (pread_read_result w_reader 1 5 (fun bs => bs) (p_os w_proc1))
    as [[Hlt _]|[_ [(k' & E & _)|[(k' & E)|(k' & m & E & _)]]]];
    [by apply (bool_decide_unpack _)..|by vm_compute in Hlt| |by vm_compute in E|by vm_compute in E].
  exists k'. exact E.
Defined.

Lemma pread_inverted_range_witness :
  PreadReader_read (PR := release) w_reader 4 2 (fun bs => bs) (p_os w_proc1) = Stop StopPanic (p_os w_proc1).
Proof.
  rewrite (pread_inverted_range (PR := release) w_reader 4 2 (fun bs => bs) (p_os w_proc1))
    by (lia || by apply (bool_decide_unpack _)).
  reflexivity.
Defined.

Lemma paths_agree_witness :
  (exists m', SafeMmap_read 1 1 5 (fun ptr len => to_vec ptr (Z.to_nat len)) w_menv
     = Done (Ok [101; 108; 108; 111]) m') /\
  exists k', PreadReader_read w_reader 1 5 (fun bs => bs) (p_os w_proc1) = Done (Ok [101; 108; 108; 111]) k'.
Proof.
  assert (E : slice_of (content (p_os w_proc1) (pr_file w_reader)) 1 (5 - 1) = [101; 108; 108; 111])
    by by vm_compute.
  pose proof (paths_agree 1 1 5 w_menv w_reader w_menv_ok eq_refl) as H.
  cbv zeta in H. change (p_os (m_proc w_menv)) with (p_os w_proc1) in H. rewrite E in H.
  destruct H as [H1 [H2|(k' & Ek)]]; [lia|by vm_compute|by vm_compute|by vm_compute|by vm_compute| | |].
  - repeat (apply holds_cons; split; [by vm_compute|]). by intros [] ?.
  - exact (conj H1 H2).
  - by vm_compute in Ek.
Defined.

(** * The test program *)

Definition w_fmt_duration (d : Duration) : string := "5s".
Definition w_fmt_io (e : io_error) : string := "error".

(** Threads 11 to 18: two of them run ahead, then all step in turn. *)
Definition w_steps : list nat := [3; 3; 5; 3; 3; 5; 3]%nat ++ concat (replicate 13 (reverse (seq 0 8))).

Definition w_schedule : schedule :=
  {| sc_main := 1; sc_worker := 9; sc_events := [StepWorker; TimeoutFires] ++ rounds 40;
     sc_thread := fun i => 11 + Z.of_nat i; sc_order := w_steps |}.

Lemma w_scheduled : scope_scheduled w_schedule.
Proof. split; apply (bool_decide_unpack _); by vm_compute. Qed.

Lemma w_fstat_small k1 fd k2 n :
  sys_fstat (K := toy) k1 fd = (k2, Ok n) -> n <= u32_max * sysconf_pagesize.
Proof. cbn. intros [= _ <-]. unfold u32_max, u32_modulus. lia. Qed.

Lemma nfs_failure_recovers_witness :
  exists p', scenario_nfs_failure w_fmt_duration w_fmt_io w_schedule (Some w_path) w_init = Done 0 p' /\
    regions (p_registry p') = [].
Proof.
  assert (Ec : match open_kernel (C := unit) SafeMmapOptions_new w_path w_os with
    | (k1, Ok (rw, _)) => match snd (load k1 (raw_ptr rw)) with Access _ => 0 | _ => 1 end
    | (_, Err _) => 1
    end = 0) by by vm_compute.
  destruct (nfs_failure_recovers (K := toy) (PE := toy_procenv) w_fmt_duration w_fmt_io w_schedule w_path w_os toy_proc_boot
    eq_refl eq_refl w_fstat_small) as [(p' & E & _ & Hr)|(p' & E)].
  - rewrite Ec in E. exists p'. exact (conj E Hr).
  - exfalso. vm_compute in E. discriminate E.
Defined.

Definition w_sigbus_file (name : string) : bool :=
  match create_sigbus_mapping (T := toy_proc) [47] name w_init with
  | Done tm p1 => bool_decide (beyond (p_os p1) (raw_ptr (tm_raw tm) + 4096))
  | Stop _ _ => false
  end.

Lemma w_sigbus_files name :
  name ∈ ["sigbus_basic.bin"; "sigbus_mt.bin"; "sigbus_poison.bin"]%string ->
  exists tm p1, create_sigbus_mapping (T := toy_proc) [47] name w_init = Done tm p1 /\
    beyond (p_os p1) (raw_ptr (tm_raw tm) + sysconf_pagesize).
Proof.
  intros Hn. assert (H : w_sigbus_file name = true).
  { rewrite !elem_of_cons in Hn. destruct Hn as [->|[->|[->|Hn]]]; [by vm_compute..|].
    by apply elem_of_nil in Hn. }
  unfold w_sigbus_file in H. destruct (create_sigbus_mapping _ _ _) as [tm p1|]; [|discriminate].
  exists tm, p1. split; [reflexivity|]. exact (bool_decide_eq_true_1 _ H).
Qed.

Lemma sigbus_scenarios_recover_witness :
  (exists p', scenario_sigbus_basic w_fmt_duration w_fmt_io w_schedule [47] w_init = Done 0 p') /\
  (exists p', scenario_multi_thread w_schedule [47] w_init = Done 0 p').
Proof.
  destruct (sigbus_scenarios_recover w_fmt_duration w_fmt_io w_schedule [47] w_init w_init_ok)
    as (H1 & H2 & _); [exact w_scheduled|exact w_sigbus_files|].
  exact (conj H1 H2).
Defined.

(** A prefetch of a file of four pages, eight threads, and a mapping without a
    file. *)
Definition w_args : list string := ["sigbus_victim"; "--scenario=prefetch_sigbus"]%string.
Definition w_eight : list string := ["sigbus_victim"; "--scenario=multi_thread"]%string.
Definition w_missing : list string := ["sigbus_victim"; "--scenario=nfs_read"; "--file=/none"]%string.

Lemma victim_survives_witness :
  (exists code p', victim_main w_fmt_duration w_fmt_io w_schedule [47] w_args w_init = Done code p' /\ exits code) /\
  (exists code p', victim_main w_fmt_duration w_fmt_io w_schedule [47] w_eight w_init = Done code p' /\ exits code) /\
  exists code p', victim_main w_fmt_duration w_fmt_io w_schedule [47] w_missing w_init = Done code p' /\ exits code.
Proof.
  assert (Hf : forall args, match victim_main w_fmt_duration w_fmt_io w_schedule [47] args w_init with
      Done _ _ => true | Stop _ _ => false end = true ->
    exists code p', victim_main w_fmt_duration w_fmt_io w_schedule [47] args w_init = Done code p' /\ exits code).
  { intros args Hd.
    pose proof (victim_survives (K := toy) (PE := toy_procenv) w_fmt_duration w_fmt_io w_schedule
      [StepWorker; TimeoutFires] 40 [47] args w_init ltac:(done) w_fstat_small w_init_ok
      w_scheduled eq_refl ltac:(lia)) as H. cbv zeta in H.
    destruct (victim_main _ _ _ _ _ _) as [code p'|]; [|discriminate].
    exists code, p'. exact (conj eq_refl (proj2 H)). }
  split; [|split]; apply Hf; by vm_compute.
Defined.
